(* ===== verification/_CoqProject ===== *)
-Q . S2P
Prelude.v
RustStd.v
HttpCrate.v
RefHttp.v
Kernel.v
Config.v
SessionCookie.v
WebSocket.v
WebSocketNative.v
ResponseStream.v
Handshake.v
Request.v
Response.v
Middleware.v
Manifest.v
Routing.v
Dispatch.v
Server.v
Replication.v
Event.v
Native.v
Json.v
Derive.v
OpenApiContract.v
CapabilityContract.v
EndpointContract.v
Authoring.v
OpenApi.v
Extract.v
EndpointTest.v
EndToEnd.v
Upgrade.v
Connection.v
EndpointMacro.v
MacroSyntax.v
HttpAuth.v
WebHost.v
SimulatedWeb.v
EgressConfig.v
EgressPolicy.v
Wire.v
ConfigCodec.v
Egress.v
Workers.v
