(* ===== verification/Prelude.v ===== *)
(** * Lenso Web: a verification development

    Lenso Web is a set of plugins that connect an application kernel to HTTP, with the crates that author endpoints for them
    and a host that assembles an app. The development covers them in four groups.

    - The *Web Ingress* plugin ([src/crates/lenso-web-ingress-plugin]) takes HTTP requests from a socket transport
      ([native.rs], [server.rs], [replication.rs], [websocket_native.rs]) or from an event host ([event.rs]); both hand a
      buffered request to one dispatch ([dispatch_buffered] of [ingress.rs]), which checks a WebSocket handshake, selects
      the credential ([session_cookie.rs]), filters the fields, runs the global middleware ([middleware.rs]), routes the
      request to an endpoint provider ([routing.rs], [manifest.rs]) and turns its answer into a buffered response, a
      streaming response ([response_stream.rs]) or a WebSocket session ([websocket.rs]).
    - *Endpoints* are authored ([src/crates/lenso-capability-http-endpoint]) as route tables with typed extractors and
      responses, by hand or through the [#[endpoint]] macro ([lenso-capability-http-endpoint-macros]), with
      authentication at the edge ([lenso-http-auth]); the *OpenAPI* plugin ([lenso-openapi-plugin]) collects their
      descriptions into one document and compares what they author with what their types derive.
    - The *HTTP Egress* plugin ([src/crates/lenso-http-egress-plugin]) sends the requests of application components to
      a fixed set of origins, over [reqwest] ([provider.rs], [native.rs]), over a transport injected by the event host
      ([event.rs]) or over the [fetch] of a JavaScript host ([workers.rs]), behind one policy ([policy.rs], [config.rs]).
    - The *web host* ([src/crates/lenso-web-host]) resolves the plan of an app and starts it as a socket, event,
      simulated or replicated host.

    ** Files

    - [Prelude]: [Result], [Outcome] (returned, panicked, waiting), the [let?], [let!] and [let^] notations for [?],
      early returns and awaits, loops with early exits, the tactics [inv_ok] and [bool_prop], generic lemmas.
    - [RustStd]: integers at their width, strings as bytes, the string and number functions the sources call.
    - [HttpCrate], [RefHttp]: the third-party crate [http] as an interface with its documented laws, and an instance
      that satisfies them. [Json]: the values and maps of [serde_json]; [Derive]: derived codecs as schemas.
    - [Kernel]: [RuntimeFailure], native streams, effects and the outside state.
    - Ingress. [Config]: [config.rs]; [SessionCookie]: [session_cookie.rs]; [Request] and [Response]: the two halves of
      [ingress.rs]; [Dispatch]: [dispatch_buffered]; [Middleware], [Manifest], [Routing], [ResponseStream], [WebSocket],
      [WebSocketNative], [Handshake], [Replication], [Event], [Native]: the files of the same names
      ([websocket_handshake.rs] for [Handshake]); [Server]: [server.rs] in four modules, [Body] (bounded collection),
      [Activity] (idle tracking), [Admission] (the accept loop's permits) and [Service] (one request); [Connection]: its accept
      loop with the connections it serves, over HTTP/1 and HTTP/2: their timers, bodies, WebSocket tasks and panics, and the tasks of
      HTTP/2 streams, which outlive their connection's.
    - Endpoints. [CapabilityContract]: the generated contracts ([generated.rs] of the four capability crates: error
      codecs, clients, calls and their lowering), [Wire]: the messages those contracts exchange; [Authoring]: [authoring.rs] (route tables, descriptions, dispatch);
      [EndpointContract]: [contract.rs] (the builder of strict contracts); [Extract]: [response.rs] and [extract.rs];
      [EndpointTest]: [testing.rs]; [MacroSyntax]: the parsers of the macro's attributes, over token trees;
      [EndpointMacro]: what the macro derives and generates; [HttpAuth]: [lenso-http-auth]; [OpenApiContract]:
      [config.rs] and [contract.rs] of the OpenAPI plugin; [OpenApi]: its [assemble.rs] and [lib.rs].
    - Egress. [EgressConfig], [EgressPolicy]: [config.rs] and [policy.rs]; [Egress]: [provider.rs], [native.rs], [event.rs];
      [Workers]: [workers.rs].
    - [ConfigCodec]: the configurations as the plan holds them, and how a host's configuration reaches its lanes.
    - [EndToEnd], [Upgrade]: a route table, the route table of the ingress, its dispatch and its socket service as one
      program, up to an answer, a body or a WebSocket session, for services whose middleware, if there is any, lets requests and
      responses through unchanged ([Middleware.Transparent]); what any middleware may do is [run_onion]'s.
    - Host. [WebHost]: [lib.rs] of the web host; [SimulatedWeb]: its [simulated.rs].

    Definitions keep the names of the sources; where two source functions share a name, a prefix tells them apart. A
    Rust struct is a record, an enum an inductive type, a method a function of [self] that returns the new [self]. The body of
    a loop is a definition of its own.

    ** How the parts fit together

    [CapabilityContract] makes of a provider the client other components call; over a provider written with
    [Authoring] that client is [Authoring.endpoint_client] (the lemma [generated_endpoint_client]), which [Routing.resolve]
    and [Routing.dispatch] call. [served_by_handler] follows one request through [Server], [Dispatch], [Routing] and
    [Authoring] to the handler and back, [streamed_to_client] and [connected_to_client] do so for the other two kinds of route, over the same
    [call_dispatched]; [event_native_parity] carries what they say of buffered and streamed answers over to the event host. [Connection] runs [Service.call] for
    each request of each connection, [ResponseStream] for the bodies it answers with and [WebSocketNative.run] for the sessions it
    hands over, under the permits of [Admission]. [MacroSyntax] reads the attributes [EndpointMacro] derives from. The value [EndpointContract.build] returns is the
    value [OpenApiContract.validate] reads ([built_contract_validates]); [EndpointMacro.contract_factory] drives that
    builder, and [EndpointMacro.dispatch_arm] runs the extractors of [Extract], so [strict_handler_answers] relates the problems a
    contract promises to the problems the generated code can answer with. [Native.activate] resolves routes, registers with
    [Replication] and hands [Server] its connections; [WebHost.build_lane] allocates the slots of the same coordinator, and
    [replicated_lanes_start] follows a host's configuration through the plan and its text into the ingress of each lane;
    [SimulatedWeb] and [WebHost.start_event] run [Event].

    ** How effects are modelled

    A function that only computes is a function. A function that acts on the outside takes a [World]: an arbitrary
    state that host code, endpoint providers and transports act on, and a trace of the effects the theorems speak
    about (permits taken and returned, streams cancelled, failures reported). Futures that can be suspended while other
    calls touch the same object are split at their suspension points, and a [Reachable] relation or an event sequence
    interleaves the pieces in every order, drops included ([WebSocket], [WebSocketNative], [ResponseStream],
    [Replication], [Admission], [Egress]). Where a single call races against a timeout, a cancellation or a semaphore's
    queue, the winner is an argument, so a theorem for all arguments covers every schedule. A panic ([expect],
    [unreachable!], an index out of range) is the value [Panicked]; theorems that exclude it show that the code's
    [expect]s cannot fire, and the others say when one does: a request whose target has no path, as in [GET foo], panics in the
    ingress ([call_stamped], [event_permits]), outside the boundary that catches the panics of middleware and routing. An assertion in a constant is an [Err] with its message: it stops the compilation.

    ** What is assumed

    Code outside the repository is a parameter. [HttpLaws] states the documented behaviour of header names, values,
    maps, methods, status codes and URIs; the order in which a header map iterates different names is not assumed. Whether a
    header map has room for another field is part of that interface ([hm_has_room]; the crate stops at 24,576 names), and an append to a
    full one panics in the Egress ([EgressPolicy], [Egress], [Workers]), whose head limits allow so many fields. [MatchitLaws] states that what a router finds was inserted; [DigestLaws] that base64 output is
    text; [SerdeDeriveLaws] that a derived codec writes the fields
    it has and reads them back, [JsonTextLaws] and [AddressTextLaws] that text reads back as what was printed; [SynLaws] that a parser of the macro's
    leaves reads the literals and keys it documents and nothing else; [JsLaws] that a JavaScript object reads back what was
    written to it; [AppPlanLaws] that the builders of the plan types set what their accessors read; [ProblemsSerialize], what
    the source's own [expect] message claims, that a struct of strings serializes. SHA-1, [UrlCrate], [schema_for], reason phrases, the authentication SDK, the plan resolver, the kernel and the runner, endpoint
    providers, middleware layers, [reqwest], the event transport, clocks and sockets have no assumed behaviour at all.
    Every theorem that depends on laws has a witness over concrete instances.

    ** What the theorems show

    - Authority of a request. [session_credential_exact] and [authorization_credential_exact]: which evidence becomes the
      credential, and the double-submit CSRF rule, as equivalences with a specification of cookie and authorization
      fields. [inbound_fields_exact] (and the lemma [middleware_round_trip]): an endpoint sees exactly the fields that are neither
      hop-by-hop nor credentials, and middleware cannot forge identity. [authenticated_actor_exact]: an actor comes only from an
      accepted assertion of the expected kind.
    - Answers. [answers_exclude_owned_fields], [call_stamped]: no answer carries a field the ingress owns, every answer
      carries one assigned identifier, and permits come back even when a call panics. [extraction_exact], [strict_handler_answers]: a refused extraction is the problem
      with its own code, and a strict handler answers only with problems its contract lists.
    - Limits. [oversize_rejected], [session_budget], [connection_budget], and the lemmas [head_len_exact],
      [collect_bounded_body_exact], [admission_bounded]: sizes are computed exactly and nothing beyond a limit is accepted.
    - Resources. [event_permits], [session_permit_conserved], [egress_concurrency]: every permit is returned exactly once.
    - Routing and composition. [resolve_sound] (a route found is a route some provider described),
      [dispatch_reports] (reported are exactly the runtime failures a request fails with, but for the first event of a WebSocket
      endpoint, whose failure is lost), [run_onion], the lemma [authored_table]; [served_by_handler]: a request whose method and path match a
      route of a table is answered with what the route's handler made of it; the lemmas [unmatched_exact], [ingress_reaches_handler],
      [harness_reaches_handler] (the test harness reaches the same handler) and [generated_call_exact].
    - Documents. [strict_contract_exact] and [built_contract_validates]: when an authored operation passes, and that the derived
      one does; [assembled_exact] (and the lemma [documented_operation]): what a document contains; [canonical_schema_terminates];
      [object_syntax_exact]: the object syntax of the macro's attributes is exactly its grammar; the lemmas
      [contract_factory_exact], [openapi_attribute_exact], [metadata_read].
    - Codecs. [error_codec_roundtrip]: a domain error survives the wire, unknown codes and fields included; [messages_roundtrip]: every message of the
      contracts does, and a newer peer's extra fields are ignored; the lemmas [ingress_written], [egress_written],
      [configuration_defaults].
    - Streams and sockets. [streamed_to_client] (a stream's head and chunks
      reach the client of the socket service), [connected_to_client] (what connecting to a WebSocket endpoint gives is what the
      client gets), [session_after_handshake] (no socket is handed over without a handshake; the lemma
      [parse_exact] says which handshakes there are), [session_relayed] (what crosses between the
      client and the endpoint of a handed-over session, in order and within the budgets), the lemmas [streaming_body_exact],
      [session_closed_final] and [pump_faithful].
    - Connections. [streams_accounted] (whatever panics, every stream handed to a connection is cancelled or held by a running task, its
      own over HTTP/2; no more sessions are open than connections are allowed; the loop returns when no connection task runs, or
      when one has panicked), [shutdown_drains] (the timers alone end every connection task).
    - Replication. [replicas_agree], [distribution_immediate] (an accepted connection always finds a queue with room),
      [replica_instances_exact] (every lane gets one ingress), [replicated_lanes_start] (which takes its slot and starts with the
      host's configuration).
    - Hosts. [event_native_parity] (both transports answer alike), [web_plan_exact] (what a plan is resolved from),
      [built_valid]; the lemmas [simulated_faithful], [event_lifecycle], [native_lifecycle], [hosts_agree].
    - Egress. [native_send_exact], [event_send_exact]: a request leaves exactly when it is admissible, and a response
      comes back exactly when it is complete and fits; what is not admissible never reaches a transport; the lemmas [response_parity], [egress_lifecycle],
      [workers_send_exact] (one [fetch], aborted exactly once when it does not finish) and [decoded_exact].

    ** Bounds and fuel

    Machine integers are [Z]; additions that can overflow are [checked_add], [saturating_add] or [wrapping_add] as in
    the source, and theorems that need a range take it from a valid configuration. Recursion on the bytes or events
    that are there is structural. Six kinds of loop take a fuel: [digits_aux] the binary logarithm of its number, which is at
    least the number of digits left; [poll_all], the specification's driver of a body, any number above the length of
    the stream's script; [receive_loop] one more than that length; [path_loop] one more than the length of the path;
    the parsers of [MacroSyntax] ([parse_entries], [parse_json_value], [parse_metadata]) one more than the number of tokens;
    [canonical_schema_with_root] the measure [schema_fuel] of the schema, the components and the references in use. Each
    is proved to be enough.

    ** What is not modelled

    [hyper]'s connection driver, the executor, TLS, logging, [Debug] and most [Display] output; the texts of [serde]'s
    errors; the ingress and egress plugin descriptors, which are data; the quoting of the macro crate (what it generates is given
    as what the generated code does); the descriptors in the generated contracts; the examples and benchmarks.
    [Connection] takes a call as one event, from the moment the service is polled to its answer: dropping a call in flight returns its permits
    through Rust's guards, which is not modelled; a panic in a call, in an endpoint's stream or in anything else a task polls is an event.
    The limit on the fields of a header map is not modelled in the ingress and the event host, whose maps come from hyper's parser or
    from an endpoint's answer. [Connection] serves a listener of its own; the connections of a replica come with
    the permits that [Replication] counts.

    ** Plan

    Every part of the source that has behaviour of its own is modelled. Next would be a call split at its awaits. *)
From stdpp Require Export base tactics list option decidable strings gmap sorting.
From Stdlib Require Export ZArith Lia.
From Stdlib Require Export Ascii.

(** ** Rust's [Result<T, E>]

    The error type comes first so that [Result E] is a functor on types. *)
Inductive Result (E T : Type) : Type :=
| Ok (value : T)
| Err (error : E).
Arguments Ok {E T} value.
Arguments Err {E T} error.

Declare Scope rust_scope.
Delimit Scope rust_scope with rust.
#[global] Open Scope rust_scope.

(** The [?] operator of Rust: [let? x := e in k] is [let x = e?; k]. *)
Notation "'let?' x := c 'in' k" :=
  (match c with Ok x => k | Err e => Err e end)
  (at level 10, x pattern, c at level 200, k at level 200,
   format "'[v' 'let?'  x  :=  c  'in' '/' k ']'") : rust_scope.

(** [e.ok_or(err)?] on an option. *)
Notation "'let!' x := c 'else' e 'in' k" :=
  (match c with Some x => k | None => e end)
  (at level 10, x pattern, c at level 200, e at level 200, k at level 200,
   format "'[v' 'let!'  x  :=  c  'else'  e  'in' '/' k ']'") : rust_scope.

(** [e.and_then(f)] on an option. *)
Notation "x |> f" := (mbind (M := option) f x) (at level 50, left associativity) : rust_scope.

Definition result_map {E A B} (f : A -> B) (r : Result E A) : Result E B :=
  match r with Ok a => Ok (f a) | Err e => Err e end.

Definition map_err {E F A} (f : E -> F) (r : Result E A) : Result F A :=
  match r with Ok a => Ok a | Err e => Err (f e) end.

Definition ok {E A} (r : Result E A) : option A :=
  match r with Ok a => Some a | Err _ => None end.

Definition ok_or {E A} (e : E) (o : option A) : Result E A :=
  match o with Some a => Ok a | None => Err e end.

Definition is_ok {E A} (r : Result E A) : bool :=
  match r with Ok _ => true | Err _ => false end.

(** How an awaited computation ends: it returns, it panics ([expect], an index out of range,
    [unreachable!]), or it is still waiting for something that has not happened. *)
Inductive Outcome (T : Type) : Type :=
| Returned (value : T)
| Panicked
| Waiting.
Arguments Returned {T} value.
Arguments Panicked {T}.
Arguments Waiting {T}.

Notation "'let^' x := c 'in' k" :=
  (match c with Returned x => k | Panicked => Panicked | Waiting => Waiting end)
  (at level 10, x pattern, c at level 200, k at level 200,
   format "'[v' 'let^'  x  :=  c  'in' '/' k ']'") : rust_scope.

(** [option.expect("..")] and indexing. *)
Definition expect {A} (o : option A) : Outcome A :=
  match o with Some a => Returned a | None => Panicked end.

(** A loop whose body may panic. *)
Fixpoint panic_fold {A S} (f : S -> A -> Outcome S) (s : S) (l : list A) : Outcome S :=
  match l with
  | [] => Returned s
  | a :: l' => let^ s' := f s a in panic_fold f s' l'
  end.

(** [iter.map(f).collect::<Result<Vec<_>, _>>()]: stops at the first error. *)
Fixpoint try_map {E A B} (f : A -> Result E B) (l : list A) : Result E (list B) :=
  match l with
  | [] => Ok []
  | a :: l' => let? b := f a in let? bs := try_map f l' in Ok (b :: bs)
  end.

(** A [for] loop over a list whose body may leave the function with an error. *)
Fixpoint try_fold {E A S} (f : S -> A -> Result E S) (s : S) (l : list A) : Result E S :=
  match l with
  | [] => Ok s
  | a :: l' => let? s' := f s a in try_fold f s' l'
  end.

(** The same where the body may also panic. *)
Fixpoint try_panic_fold {E A S} (f : S -> A -> Outcome (Result E S)) (s : S) (l : list A) : Outcome (Result E S) :=
  match l with
  | [] => Returned (Ok s)
  | a :: l' => let^ r := f s a in match r with Ok s' => try_panic_fold f s' l' | Err e => Returned (Err e) end
  end.

(** [iter.enumerate()]. *)
Fixpoint enumerate_from {A} (i : nat) (l : list A) : list (nat * A) :=
  match l with
  | [] => []
  | a :: l' => (i, a) :: enumerate_from (S i) l'
  end.

Definition enumerate {A} (l : list A) : list (nat * A) := enumerate_from 0 l.

#[global] Instance Result_eq_dec {E T} `{EqDecision E, EqDecision T} : EqDecision (Result E T).
Proof. solve_decision. Defined.

(** ** Proof automation *)

Create HintDb rust discriminated.
Create Rewrite HintDb rust.

(** [inv_ok H] splits a hypothesis [H : e = Ok v] through every [let?], [let!],
    guard and early return on the way, closing the branches that return an error. *)
Ltac inv_ok_step H :=
  lazymatch type of H with
  | Ok _ = Ok _ => injection H as H
  | Err _ = Ok _ => discriminate H
  | (match ?x with Ok _ => _ | Err _ => _ end) = _ =>
      let E := fresh "E" in destruct x eqn:E; [|discriminate H]
  | (match ?x with Some _ => _ | None => _ end) = _ =>
      let E := fresh "E" in destruct x eqn:E; try discriminate H
  | (if ?b then _ else _) = _ =>
      let E := fresh "E" in destruct b eqn:E; try discriminate H
  | (let '(_, _) := ?x in _) = _ =>
      let E := fresh "E" in destruct x eqn:E
  end.

Ltac inv_ok H := repeat (inv_ok_step H; cbn beta iota in H).

(** Turns boolean tests into propositions, both in the context and in the goal. *)
Ltac bool_prop :=
  repeat match goal with
  | H : _ && _ = true |- _ => apply andb_prop in H as [? ?]
  | H : _ || _ = false |- _ => apply orb_false_elim in H as [? ?]
  | H : negb _ = true |- _ => apply negb_true_iff in H
  | H : negb _ = false |- _ => apply negb_false_iff in H
  | H : bool_decide _ = true |- _ => apply bool_decide_eq_true_1 in H
  | H : bool_decide _ = false |- _ => apply bool_decide_eq_false_1 in H
  | H : (_ =? _)%Z = true |- _ => apply Z.eqb_eq in H
  | H : (_ =? _)%Z = false |- _ => apply Z.eqb_neq in H
  | H : (_ <=? _)%Z = true |- _ => apply Z.leb_le in H
  | H : (_ <=? _)%Z = false |- _ => apply Z.leb_gt in H
  | H : (_ <? _)%Z = true |- _ => apply Z.ltb_lt in H
  | H : (_ <? _)%Z = false |- _ => apply Z.ltb_ge in H
  end.

(** ** Generic lemmas on results, loops and lists *)

Lemma try_map_Forall2 {E A B} (f : A -> Result E B) l bs :
  try_map f l = Ok bs <-> Forall2 (fun a b => f a = Ok b) l bs.
Proof.
  revert bs; induction l as [|a l IH]; intros bs; cbn.
  - split; [intros [= <-]; constructor | by inversion 1].
  - split.
    + intros H. inv_ok H. subst. constructor; [done | by apply IH].
    + inversion 1 as [|? ? ? ? Hb Hl]; subst. rewrite Hb. by apply IH in Hl as ->.
Qed.

Lemma try_fold_app {E A S} (f : S -> A -> Result E S) s l1 l2 :
  try_fold f s (l1 ++ l2) = (let? s' := try_fold f s l1 in try_fold f s' l2).
Proof.
  revert s; induction l1 as [|a l1 IH]; intros s; cbn; [done|].
  destruct (f s a); [apply IH | done].
Qed.

(** Loop invariant rule: an invariant of the body is an invariant of the loop. *)
Lemma try_fold_inv {E A S} (P : list A -> S -> Prop) (f : S -> A -> Result E S) s l s' :
  P [] s ->
  (forall done s a s', P done s -> f s a = Ok s' -> P (done ++ [a]) s') ->
  try_fold f s l = Ok s' -> P l s'.
Proof.
  intros Hinit Hstep.
  enough (forall d s, P d s -> try_fold f s l = Ok s' -> P (d ++ l) s') as Hg by (by apply (Hg [])).
  clear Hinit s. induction l as [|a l IH]; intros d s HP H; cbn in H.
  - injection H as <-. by rewrite app_nil_r.
  - inv_ok H. rewrite cons_middle, app_assoc. eapply IH; [|done]. by eapply Hstep.
Qed.

Lemma length_enumerate_from {A} i (l : list A) : length (enumerate_from i l) = length l.
Proof. revert i; induction l; intros i; cbn; auto. Qed.

Lemma enumerate_from_lookup {A} i (l : list A) k :
  enumerate_from i l !! k = (fun a => (i + k, a)) <$> l !! k.
Proof.
  revert i k; induction l as [|a l IH]; intros i [|k]; cbn; try done.
  - by rewrite Nat.add_0_r.
  - rewrite IH. destruct (l !! k); cbn; [|done]. do 2 f_equal. lia.
Qed.

Lemma enumerate_lookup {A} (l : list A) k :
  enumerate l !! k = (fun a => (k, a)) <$> l !! k.
Proof. apply enumerate_from_lookup. Qed.

Lemma elem_of_enumerate {A} (l : list A) k a :
  (k, a) ∈ enumerate l <-> l !! k = Some a.
Proof.
  rewrite list_elem_of_lookup. split.
  - intros [i Hi]. rewrite enumerate_lookup in Hi.
    destruct (l !! i) eqn:E; simplify_eq/=. done.
  - intros H. exists k. by rewrite enumerate_lookup, H.
Qed.

#[export] Hint Rewrite @length_enumerate_from @enumerate_lookup : rust.
