(* ===== verification/RustStd.v ===== *)
(** * The Rust standard library, as far as the sources use it

    [usize], [u64], [i64] and [u16] are [Z] with their range written out; a [String],
    [&str], [Bytes] or [Vec<u8>] is the list of its bytes ([str]), a byte being an
    8-bit [ascii]. Text is UTF-8, so functions on characters that are not ASCII
    ([trim]) recognise the encoded sequences. *)
From S2P Require Import Prelude.

(** ** Machine integers *)

Definition usize_max : Z := 2 ^ 64 - 1.
Definition u64_max : Z := 2 ^ 64 - 1.
Definition u32_max : Z := 2 ^ 32 - 1.
Definition u16_max : Z := 2 ^ 16 - 1.

Definition wrapping_add (a b : Z) : Z := (a + b) mod 2 ^ 64.
Definition checked_add (a b : Z) : option Z :=
  if (a + b <=? usize_max)%Z then Some (a + b)%Z else None.
Definition saturating_add (a b : Z) : Z := Z.min (a + b) usize_max.
Definition saturating_sub (a b : Z) : Z := Z.max (a - b) 0.
Definition div_ceil (a b : Z) : Z := (a + b - 1) / b.

(** [u16::try_from(i64)], [u32::try_from(usize)], [u64::try_from(u128)]. *)
Definition try_from_range (max z : Z) : option Z :=
  if ((0 <=? z) && (z <=? max))%Z then Some z else None.

(** [(lo..=hi).contains(&z)]. *)
Definition in_range (lo hi z : Z) : bool := ((lo <=? z) && (z <=? hi))%Z.

(** ** Bytes and text *)

Abbreviation str := (list ascii).

Definition lit (s : string) : str := String.list_ascii_of_string s.
Arguments lit s%_stdpp_scope.

Definition len {A} (l : list A) : Z := Z.of_nat (length l).

Definition byte_val (c : ascii) : Z := Z.of_N (N_of_ascii c).
Definition byte_of (z : Z) : ascii := ascii_of_N (Z.to_N (z mod 256)).

Definition is_ascii_lowercase (c : ascii) : bool := in_range 97 122 (byte_val c).
Definition is_ascii_uppercase (c : ascii) : bool := in_range 65 90 (byte_val c).
Definition is_ascii_digit (c : ascii) : bool := in_range 48 57 (byte_val c).
Definition is_ascii_alphanumeric (c : ascii) : bool :=
  is_ascii_lowercase c || is_ascii_uppercase c || is_ascii_digit c.
(** [u8::is_ascii_whitespace]: space, tab, LF, form feed and CR, but not VT. *)
Definition is_ascii_whitespace (c : ascii) : bool :=
  let b := byte_val c in
  (b =? 32)%Z || (b =? 9)%Z || (b =? 10)%Z || (b =? 12)%Z || (b =? 13)%Z.

Definition ascii_lower (c : ascii) : ascii :=
  if is_ascii_uppercase c then byte_of (byte_val c + 32) else c.
Definition ascii_upper (c : ascii) : ascii :=
  if is_ascii_lowercase c then byte_of (byte_val c - 32) else c.

Definition to_ascii_lowercase (s : str) : str := map ascii_lower s.
Definition to_ascii_uppercase (s : str) : str := map ascii_upper s.
Definition eq_ignore_ascii_case (a b : str) : bool :=
  bool_decide (to_ascii_lowercase a = to_ascii_lowercase b).

(** Single-byte, two-byte and three-byte encodings of the code points with the
    Unicode property White_Space, which is what [char::is_whitespace] tests. *)
Definition ws1 (c : ascii) : bool :=
  let b := byte_val c in in_range 9 13 b || (b =? 32)%Z.
Definition ws2 (c d : ascii) : bool :=
  ((byte_val c =? 194) && ((byte_val d =? 133) || (byte_val d =? 160)))%Z.
Definition ws3 (c d e : ascii) : bool :=
  let x := byte_val c in let y := byte_val d in let z := byte_val e in
  (((x =? 225) && (y =? 154) && (z =? 128))
   || ((x =? 226) && (y =? 128)
       && (in_range 128 138 z || (z =? 168) || (z =? 169) || (z =? 175)))
   || ((x =? 226) && (y =? 129) && (z =? 159))
   || ((x =? 227) && (y =? 128) && (z =? 128)))%Z.

(** Strips leading units recognised by one-, two- and three-byte patterns. *)
Fixpoint strip_while (p1 : ascii -> bool) (p2 : ascii -> ascii -> bool)
    (p3 : ascii -> ascii -> ascii -> bool) (s : str) : str :=
  match s with
  | [] => []
  | c :: s1 =>
      if p1 c then strip_while p1 p2 p3 s1 else
      match s1 with
      | [] => s
      | d :: s2 =>
          if p2 c d then strip_while p1 p2 p3 s2 else
          match s2 with
          | [] => s
          | e :: s3 => if p3 c d e then strip_while p1 p2 p3 s3 else s
          end
      end
  end.

Definition trim_start (s : str) : str := strip_while ws1 ws2 ws3 s.
Definition trim_end (s : str) : str :=
  reverse (strip_while ws1 (fun c d => ws2 d c) (fun c d e => ws3 e d c) (reverse s)).
Definition trim (s : str) : str := trim_end (trim_start s).

(** [s.chars().any(char::is_whitespace)]. *)
Fixpoint has_whitespace (s : str) : bool :=
  match s with
  | [] => false
  | c :: s1 =>
      ws1 c || (match s1 with
                | [] => false
                | d :: s2 => ws2 c d || (match s2 with [] => false | e :: _ => ws3 c d e end)
                end) || has_whitespace s1
  end.

Definition is_empty {A} (l : list A) : bool := match l with [] => true | _ => false end.

Definition starts_with_char (c : ascii) (s : str) : bool :=
  match s with d :: _ => bool_decide (d = c) | [] => false end.
Definition ends_with_char (c : ascii) (s : str) : bool :=
  match last s with Some d => bool_decide (d = c) | None => false end.
Definition contains_any (cs : list ascii) (s : str) : bool :=
  existsb (fun c => bool_decide (c ∈ cs)) s.

Fixpoint strip_prefix (p s : str) : option str :=
  match p, s with
  | [], _ => Some s
  | a :: p', b :: s' => if decide (a = b) then strip_prefix p' s' else None
  | _ :: _, [] => None
  end.
Definition starts_with (p s : str) : bool :=
  match strip_prefix p s with Some _ => true | None => false end.
Definition strip_suffix (p s : str) : option str :=
  reverse <$> strip_prefix (reverse p) (reverse s).

(** [s.find(c)] with the text before and after the first occurrence. *)
Fixpoint split_once (c : ascii) (s : str) : option (str * str) :=
  match s with
  | [] => None
  | d :: s' => if decide (d = c) then Some ([], s')
               else (fun '(a, b) => (d :: a, b)) <$> split_once c s'
  end.

(** [s.replace(pattern, to)] for a pattern that is not empty; [skip] bytes of an occurrence are left. *)
Fixpoint replace_from (skip : nat) (pattern to s : str) : str :=
  match s with
  | [] => []
  | c :: s' =>
      match skip with
      | S skip => replace_from skip pattern to s'
      | O => if starts_with pattern s then to ++ replace_from (length pattern - 1) pattern to s' else c :: replace_from 0 pattern to s'
      end
  end.
Definition replace (pattern to s : str) : str := replace_from 0 pattern to s.

(** [s.split(c)]: always at least one piece. *)
Fixpoint split (c : ascii) (s : str) : list str :=
  match s with
  | [] => [[]]
  | d :: s' =>
      if decide (d = c) then [] :: split c s'
      else match split c s' with
           | p :: ps => (d :: p) :: ps
           | [] => [[d]]
           end
  end.

Fixpoint join (sep : str) (l : list str) : str :=
  match l with
  | [] => []
  | [s] => s
  | s :: l' => s ++ sep ++ join sep l'
  end.

(** Decimal rendering of a natural number ([format!("{n}")]). *)
Fixpoint digits_aux (fuel : nat) (n : Z) (acc : str) : str :=
  let acc' := byte_of (48 + n mod 10) :: acc in
  match fuel with
  | O => acc'
  | S fuel' => if (n / 10 =? 0)%Z then acc' else digits_aux fuel' (n / 10) acc'
  end.
Definition show_Z (n : Z) : str := digits_aux (Z.to_nat (Z.log2 n)) n [].

(** [s.parse::<T>()] for an unsigned [T]: an optional [+], then at least one digit,
    and a value that fits. *)
Fixpoint parse_digits (max acc : Z) (s : str) : option Z :=
  match s with
  | [] => Some acc
  | c :: s' =>
      if is_ascii_digit c then
        let v := (acc * 10 + (byte_val c - 48))%Z in
        if (v <=? max)%Z then parse_digits max v s' else None
      else None
  end.
Definition parse_unsigned (max : Z) (s : str) : option Z :=
  let s' := match s with
            | c :: t => if decide (c = "+"%char) then t else s
            | [] => s
            end in
  match s' with [] => None | _ => parse_digits max 0 s' end.

(** Byte-wise lexicographic order ([Ord] for [str]). *)
Fixpoint str_leb (a b : str) : bool :=
  match a, b with
  | [], _ => true
  | _ :: _, [] => false
  | x :: a', y :: b' =>
      if (byte_val x <? byte_val y)%Z then true
      else if (byte_val y <? byte_val x)%Z then false
      else str_leb a' b'
  end.

Definition str_le (a b : str) : Prop := str_leb a b = true.

#[global] Instance str_le_dec : RelDecision str_le := fun a b => decide (str_leb a b = true).

(** ** Lemmas on integers *)

Lemma checked_add_Some a b c : checked_add a b = Some c <-> c = (a + b)%Z /\ (a + b <= usize_max)%Z.
Proof. unfold checked_add. destruct (Z.leb_spec (a + b) usize_max); naive_solver lia. Qed.

Lemma try_from_range_Some max z w :
  try_from_range max z = Some w <-> w = z /\ (0 <= z <= max)%Z.
Proof.
  unfold try_from_range. destruct (Z.leb_spec 0 z), (Z.leb_spec z max); cbn; naive_solver lia.
Qed.

Lemma in_range_spec lo hi z : in_range lo hi z = true <-> (lo <= z <= hi)%Z.
Proof. unfold in_range. rewrite andb_true_iff, !Z.leb_le. done. Qed.

Lemma in_range_false lo hi z : in_range lo hi z = false <-> ~ (lo <= z <= hi)%Z.
Proof. rewrite <- in_range_spec. destruct (in_range lo hi z); naive_solver. Qed.

Lemma div_ceil_bounds a b : (0 <= a)%Z -> (0 < b)%Z -> (a <= div_ceil a b * b < a + b)%Z.
Proof. intros. unfold div_ceil. pose proof (Z.div_mod (a + b - 1) b). 
  pose proof (Z.mod_pos_bound (a + b - 1) b). nia. Qed.

Lemma len_nonneg {A} (l : list A) : (0 <= len l)%Z.
Proof. unfold len. lia. Qed.

Lemma len_app {A} (l k : list A) : len (l ++ k) = (len l + len k)%Z.
Proof. unfold len. rewrite length_app. lia. Qed.

Lemma len_cons {A} (x : A) l : len (x :: l) = (1 + len l)%Z.
Proof. unfold len. cbn [length]. lia. Qed.

Lemma len_0 {A} (l : list A) : len l = 0%Z <-> l = [].
Proof. unfold len. destruct l; cbn; split; try done; lia. Qed.

#[export] Hint Rewrite @len_app @len_cons : rust.

(** ** Lemmas on bytes *)

Lemma byte_val_range c : (0 <= byte_val c < 256)%Z.
Proof. unfold byte_val. pose proof (N_ascii_bounded c). lia. Qed.

Lemma byte_of_val c : byte_of (byte_val c) = c.
Proof.
  unfold byte_of. rewrite Z.mod_small by apply byte_val_range.
  unfold byte_val. rewrite N2Z.id. apply ascii_N_embedding.
Qed.

Lemma byte_val_of z : byte_val (byte_of z) = (z mod 256)%Z.
Proof.
  unfold byte_of, byte_val. pose proof (Z.mod_pos_bound z 256).
  rewrite N_ascii_embedding by lia. rewrite Z2N.id; lia.
Qed.

Lemma byte_val_inj c d : byte_val c = byte_val d -> c = d.
Proof. intros H. by rewrite <- (byte_of_val c), <- (byte_of_val d), H. Qed.

(** A text of visible ASCII characters has nothing to trim. *)
Definition visible (c : ascii) : bool := in_range 33 126 (byte_val c).

Lemma strip_while_visible (p1 : ascii -> bool) (p2 : ascii -> ascii -> bool) (p3 : ascii -> ascii -> ascii -> bool) s :
  (forall c, visible c = true -> p1 c = false /\ (forall d, p2 c d = false) /\ forall d e, p3 c d e = false) ->
  Forall (fun c => visible c = true) s -> strip_while p1 p2 p3 s = s.
Proof.
  intros Hp. destruct 1 as [|c s Hc _]; [done|]. destruct (Hp c Hc) as (H1 & H2 & H3). cbn. rewrite H1.
  destruct s as [|d s]; [done|]. rewrite H2. destruct s as [|e s]; [done|]. by rewrite H3.
Qed.

Lemma ws_visible c : visible c = true ->
  ws1 c = false /\ (forall d, ws2 c d = false) /\ (forall d, ws2 d c = false)
  /\ (forall d e, ws3 c d e = false) /\ forall d e, ws3 e d c = false.
Proof.
  unfold visible, ws1, ws2, ws3. intros Hc%in_range_spec.
  assert (Hn : forall k, (126 < k)%Z -> (byte_val c =? k)%Z = false) by (intros; apply Z.eqb_neq; lia).
  assert (Hr : in_range 128 138 (byte_val c) = false) by (apply in_range_false; lia).
  split_and!; intros; rewrite ?(Hn 194%Z), ?(Hn 133%Z), ?(Hn 160%Z), ?(Hn 225%Z), ?(Hn 154%Z), ?(Hn 128%Z), ?(Hn 226%Z), ?(Hn 227%Z), ?(Hn 129%Z),
    ?(Hn 159%Z), ?(Hn 168%Z), ?(Hn 169%Z), ?(Hn 175%Z), ?Hr, ?andb_false_r by lia; try done.
  rewrite (proj2 (in_range_false 9 13 _)), (proj2 (Z.eqb_neq (byte_val c) 32)) by lia. done.
Qed.

Lemma trim_visible s : Forall (fun c => visible c = true) s -> trim s = s.
Proof.
  intros Hs. unfold trim, trim_end, trim_start.
  rewrite (strip_while_visible ws1 ws2 ws3 s) by (done || (intros c Hc; pose proof (ws_visible c Hc); naive_solver)).
  rewrite (strip_while_visible ws1 _ _ (reverse s)), reverse_involutive; [done | | by apply Forall_reverse].
  intros c Hc. pose proof (ws_visible c Hc). naive_solver.
Qed.

(** Texts of such units only; [Spaces] are those of whitespace characters. *)
Inductive Units (p1 : ascii -> bool) (p2 : ascii -> ascii -> bool) (p3 : ascii -> ascii -> ascii -> bool) : str -> Prop :=
| units_nil : Units p1 p2 p3 []
| units_one c s : p1 c = true -> Units p1 p2 p3 s -> Units p1 p2 p3 (c :: s)
| units_two c d s : p2 c d = true -> Units p1 p2 p3 s -> Units p1 p2 p3 (c :: d :: s)
| units_three c d e s : p3 c d e = true -> Units p1 p2 p3 s -> Units p1 p2 p3 (c :: d :: e :: s).
Definition Spaces : str -> Prop := Units ws1 ws2 ws3.

Lemma units_app p1 p2 p3 s t : Units p1 p2 p3 s -> Units p1 p2 p3 t -> Units p1 p2 p3 (s ++ t).
Proof. induction 1; intros Ht; cbn; [done | by apply units_one; auto | by apply units_two; auto | by apply units_three; auto]. Qed.

Lemma units_reverse p1 p2 p3 s : Units p1 p2 p3 s -> Units p1 (fun c d => p2 d c) (fun c d e => p3 e d c) (reverse s).
Proof.
  induction 1 as [|c s Hc _ IH|c d s Hc _ IH|c d e s Hc _ IH]; [constructor|..]; rewrite !reverse_cons, <- ?app_assoc; apply units_app; try done.
  - apply units_one; [done | constructor].
  - apply units_two; [done | constructor].
  - apply units_three; [done | constructor].
Qed.

(** [strip_while] takes off units, and all of those it recognises in front. *)
Lemma strip_while_split p1 p2 p3 s : exists front, Units p1 p2 p3 front /\ s = front ++ strip_while p1 p2 p3 s.
Proof.
  induction s as [s IH] using (induction_ltof1 _ length). unfold ltof in IH.
  destruct s as [|c s1]; [by exists []; split; [constructor|]|]. cbn [strip_while].
  assert (Hstay : exists front, Units p1 p2 p3 front /\ c :: s1 = front ++ c :: s1) by (exists []; by split; [constructor|]).
  destruct (p1 c) eqn:E1.
  { destruct (IH s1) as (front & Hf & He); [cbn; lia|]. exists (c :: front). split; [by constructor|]. by rewrite He at 1. }
  destruct s1 as [|d s2]; [done|]. destruct (p2 c d) eqn:E2.
  { destruct (IH s2) as (front & Hf & He); [cbn; lia|]. exists (c :: d :: front). split; [by apply units_two|]. by rewrite He at 1. }
  destruct s2 as [|e s3]; [done|]. destruct (p3 c d e) eqn:E3; [|done].
  destruct (IH s3) as (front & Hf & He); [cbn; lia|]. exists (c :: d :: e :: front). split; [by apply units_three|]. by rewrite He at 1.
Qed.

Lemma strip_while_units (p1 : ascii -> bool) (p2 : ascii -> ascii -> bool) (p3 : ascii -> ascii -> ascii -> bool) front s :
  (forall c d, p2 c d = true -> p1 c = false) -> (forall c d e, p3 c d e = true -> p1 c = false /\ p2 c d = false) ->
  Units p1 p2 p3 front -> strip_while p1 p2 p3 (front ++ s) = strip_while p1 p2 p3 s.
Proof.
  intros H2 H3. induction 1 as [|c t Hc _ IH|c d t Hc _ IH|c d e t Hc _ IH]; [done|..]; cbn [app strip_while].
  - by rewrite Hc.
  - by rewrite (H2 c d Hc), Hc.
  - destruct (H3 c d e Hc) as [-> ->]. by rewrite Hc.
Qed.

(** No unit begins, or ends, another. *)
Lemma whitespace_units :
  (forall c d, ws2 c d = true -> ws1 c = false /\ ws1 d = false)
  /\ forall c d e, ws3 c d e = true -> ws1 c = false /\ ws1 e = false /\ ws2 c d = false /\ ws2 d e = false.
Proof.
  unfold ws1, ws2, ws3, in_range. split; intros; rewrite ?orb_false_iff, ?andb_false_iff, ?Z.eqb_neq, ?Z.leb_gt; bool_prop;
    rewrite ?orb_true_iff, ?andb_true_iff, ?Z.eqb_eq, ?Z.leb_le in *; intuition lia.
Qed.

(** What [trim] takes off is whitespace, and it finds a visible text between whitespace. *)
Lemma trim_split s : exists before after, Spaces before /\ Spaces after /\ s = before ++ trim s ++ after.
Proof.
  destruct (strip_while_split ws1 ws2 ws3 s) as (before & Hb & Hs).
  destruct (strip_while_split ws1 (fun c d => ws2 d c) (fun c d e => ws3 e d c) (reverse (trim_start s))) as (front & Hf & Ht).
  exists before, (reverse front). split; [done|]. split; [exact (units_reverse _ _ _ _ Hf)|].
  rewrite Hs at 1. f_equal. fold (trim_start s). unfold trim, trim_end. by rewrite <- reverse_app, <- Ht, reverse_involutive.
Qed.

Lemma trim_between before t after : Spaces before -> Spaces after -> Forall (fun c => visible c = true) t -> trim (before ++ t ++ after) = t.
Proof.
  intros Hb Ha Ht. destruct whitespace_units as [H2 H3]. unfold trim, trim_start.
  rewrite (strip_while_units ws1 ws2 ws3 before) by (done || (intros c d Hc; by apply (H2 c d)) || (intros c d e Hc; by destruct (H3 c d e Hc) as (? & _ & ? & _))).
  assert (Hrev : trim_end (t ++ after) = t).
  { unfold trim_end. rewrite reverse_app.
    rewrite (strip_while_units ws1 (fun c d => ws2 d c) (fun c d e => ws3 e d c) (reverse after));
      [| intros c d Hc; by apply (H2 d c) | intros c d e Hc; by destruct (H3 e d c Hc) as (_ & ? & _ & ?) | by apply units_reverse].
    rewrite strip_while_visible, reverse_involutive; [done | | by apply Forall_reverse]. intros c Hc. pose proof (ws_visible c Hc). naive_solver. }
  destruct Ht as [|c t Hc Ht].
  - cbn [app] in *. rewrite <- (app_nil_r after). rewrite (strip_while_units ws1 ws2 ws3 after); [done | | | done].
    + intros c d Hc. by apply (H2 c d).
    + intros c d e Hc. by destruct (H3 c d e Hc) as (? & _ & ? & _).
  - destruct (ws_visible c Hc) as (V1 & V2 & _ & V3 & _). replace (strip_while ws1 ws2 ws3 ((c :: t) ++ after)) with ((c :: t) ++ after); [done|].
    cbn [app strip_while]. rewrite V1. destruct (t ++ after) as [|d s]; [done|]. rewrite V2. destruct s as [|e s]; [done|]. by rewrite V3.
Qed.

Lemma lowercase_visible s t : to_ascii_lowercase s = t -> Forall (fun c => visible c = true) t -> Forall (fun c => visible c = true) s.
Proof.
  intros <-. unfold to_ascii_lowercase. induction s as [|c s IH]; intros H; [constructor|]. cbn in H. apply Forall_cons in H as [Hc H].
  constructor; [|by apply IH]. unfold ascii_lower in Hc. destruct (is_ascii_uppercase c) eqn:Eu; [|done].
  unfold is_ascii_uppercase in Eu. apply in_range_spec in Eu. apply in_range_spec. lia.
Qed.

Lemma ascii_lower_idemp c : ascii_lower (ascii_lower c) = ascii_lower c.
Proof.
  unfold ascii_lower at 2 3. destruct (is_ascii_uppercase c) eqn:E; unfold ascii_lower.
  - unfold is_ascii_uppercase in *. apply in_range_spec in E.
    rewrite byte_val_of, Z.mod_small by lia.
    rewrite (proj2 (in_range_false _ _ _)); [done | lia].
  - by rewrite E.
Qed.

Lemma to_ascii_lowercase_idemp s : to_ascii_lowercase (to_ascii_lowercase s) = to_ascii_lowercase s.
Proof.
  unfold to_ascii_lowercase. rewrite map_map. apply map_ext. intros; apply ascii_lower_idemp.
Qed.

Lemma eq_ignore_ascii_case_spec a b :
  eq_ignore_ascii_case a b = true <-> to_ascii_lowercase a = to_ascii_lowercase b.
Proof. apply bool_decide_eq_true. Qed.

(** ** Lemmas on text *)

Lemma split_once_Some c s a b : split_once c s = Some (a, b) <-> s = a ++ c :: b /\ c ∉ a.
Proof.
  revert a; induction s as [|d s IH]; intros a; cbn.
  - split; [done|]. intros [H _]. by destruct a.
  - destruct (decide (d = c)) as [->|Hne].
    + split.
      * intros [= <- <-]. split; [done | set_solver].
      * intros [H Ha]. destruct a as [|x a]; simplify_eq/=; [done | set_solver].
    + rewrite fmap_Some. split.
      * intros ([x y] & Hx & [= -> ->]). apply IH in Hx as [-> Hx]. set_solver.
      * intros [H Ha]. destruct a as [|x a]; simplify_eq/=.
        exists (a, b). split; [|done]. apply IH. set_solver.
Qed.

Lemma split_once_None c s : split_once c s = None <-> c ∉ s.
Proof.
  destruct (split_once c s) as [[a b]|] eqn:E.
  - apply split_once_Some in E as [-> _]. set_solver.
  - split; [intros _ | done]. intros H. apply list_elem_of_split_l in H as (a & b & -> & Ha).
    assert (split_once c (a ++ c :: b) = Some (a, b)) by by apply split_once_Some. congruence.
Qed.

Lemma split_not_nil c s : split c s <> [].
Proof. destruct s as [|d s]; cbn; [done|]. repeat case_match; done. Qed.

Lemma split_join c s : join [c] (split c s) = s.
Proof.
  induction s as [|d s IH]; cbn; [done|].
  pose proof (split_not_nil c s). destruct (split c s) as [|p ps] eqn:Es; [done|].
  destruct (decide (d = c)) as [->|].
  - cbn in IH |- *. by rewrite <- IH.
  - cbn in IH |- *. rewrite <- IH. by destruct ps.
Qed.

Lemma split_pieces c s : Forall (fun p => c ∉ p) (split c s).
Proof.
  induction s as [|d s IH]; cbn; [constructor; [set_solver | done]|].
  destruct (decide (d = c)); [constructor; [set_solver | done]|].
  destruct (split c s); [constructor; set_solver|].
  apply Forall_cons in IH as [Hp IH]. constructor; [set_solver | done].
Qed.

Lemma strip_prefix_Some p s t : strip_prefix p s = Some t <-> s = p ++ t.
Proof.
  revert s; induction p as [|a p IH]; intros s; cbn; [naive_solver|].
  destruct s as [|b s]; [done|]. destruct (decide (a = b)) as [->|].
  - rewrite IH. naive_solver.
  - naive_solver.
Qed.

Lemma strip_suffix_Some p s t : strip_suffix p s = Some t <-> s = t ++ p.
Proof.
  unfold strip_suffix. rewrite fmap_Some. split.
  - intros (u & Hu & ->). apply strip_prefix_Some in Hu.
    rewrite <- (reverse_involutive s), Hu, reverse_app, reverse_involutive. done.
  - intros ->. exists (reverse t). rewrite reverse_involutive. split; [|done].
    apply strip_prefix_Some. by rewrite reverse_app.
Qed.

Lemma starts_with_spec p s : starts_with p s = true <-> exists t, s = p ++ t.
Proof.
  unfold starts_with. destruct (strip_prefix p s) as [t|] eqn:E.
  - apply strip_prefix_Some in E. naive_solver.
  - split; [done|]. intros [t H]. apply strip_prefix_Some in H. congruence.
Qed.

(** Text without the first byte of the pattern is copied, and an occurrence is replaced. *)
Lemma replace_plain c pattern to s r : c ∉ s -> replace (c :: pattern) to (s ++ r) = s ++ replace (c :: pattern) to r.
Proof.
  unfold replace. induction s as [|d s IH]; intros Hc; [done|]. apply not_elem_of_cons in Hc as [Hd Hc]. cbn [app replace_from].
  destruct (starts_with (c :: pattern) (d :: s ++ r)) eqn:E; [|by rewrite IH].
  apply starts_with_spec in E as [t [= -> _]]. done.
Qed.

Lemma replace_from_skip u pattern to r : replace_from (length u) pattern to (u ++ r) = replace pattern to r.
Proof. induction u as [|c u IH]; [done|]. exact IH. Qed.

Lemma replace_match c pattern to r : replace (c :: pattern) to ((c :: pattern) ++ r) = to ++ replace (c :: pattern) to r.
Proof.
  unfold replace at 1. cbn [app replace_from]. rewrite (proj2 (starts_with_spec _ _)) by (by exists r).
  f_equal. cbn [length]. rewrite Nat.sub_succ, Nat.sub_0_r. apply replace_from_skip.
Qed.

Lemma contains_any_false cs s : contains_any cs s = false <-> Forall (fun c => c ∉ cs) s.
Proof.
  unfold contains_any. induction s as [|c s IH]; cbn; [done|].
  rewrite orb_false_iff, IH, bool_decide_eq_false, Forall_cons. done.
Qed.

Lemma is_empty_spec {A} (l : list A) : is_empty l = true <-> l = [].
Proof. by destruct l. Qed.

(** ** Text order *)

#[global] Instance str_le_refl : Reflexive str_le.
Proof.
  intros s. unfold str_le. induction s as [|c s IH]; cbn; [done|].
  by rewrite Z.ltb_irrefl.
Qed.

#[global] Instance str_le_trans : Transitive str_le.
Proof.
  intros a b c. unfold str_le. revert b c.
  induction a as [|x a IH]; intros [|y b] [|z c]; cbn; try done.
  destruct (Z.ltb_spec (byte_val x) (byte_val y)), (Z.ltb_spec (byte_val y) (byte_val x)),
    (Z.ltb_spec (byte_val y) (byte_val z)), (Z.ltb_spec (byte_val z) (byte_val y)),
    (Z.ltb_spec (byte_val x) (byte_val z)), (Z.ltb_spec (byte_val z) (byte_val x));
    intros; try done; try lia; eauto.
Qed.

#[global] Instance str_le_total : Total str_le.
Proof.
  intros a b. unfold str_le. revert b.
  induction a as [|x a IH]; intros [|y b]; cbn; auto.
  destruct (Z.ltb_spec (byte_val x) (byte_val y)), (Z.ltb_spec (byte_val y) (byte_val x));
    auto; lia.
Qed.

#[global] Instance str_le_antisym : AntiSymm (=) str_le.
Proof.
  intros a b. unfold str_le. revert b.
  induction a as [|x a IH]; intros [|y b]; cbn; try done.
  destruct (Z.ltb_spec (byte_val x) (byte_val y)), (Z.ltb_spec (byte_val y) (byte_val x));
    intros; try done; try lia.
  f_equal; [apply byte_val_inj; lia | eauto].
Qed.

(** ** Decimal rendering *)

Lemma is_ascii_digit_of d : (0 <= d < 10)%Z -> is_ascii_digit (byte_of (48 + d)) = true.
Proof.
  intros. unfold is_ascii_digit. rewrite byte_val_of, Z.mod_small by lia.
  apply in_range_spec. lia.
Qed.

Lemma log2_div10 n : (10 <= n)%Z -> (Z.log2 (n / 10) < Z.log2 n)%Z.
Proof.
  intros. assert (0 < n / 10)%Z by (apply Z.div_str_pos; lia).
  assert (n / 10 <= n / 2)%Z by (apply Z.div_le_compat_l; lia).
  enough (Z.log2 (n / 2) < Z.log2 n)%Z by (pose proof (Z.log2_le_mono (n / 10) (n / 2)); lia).
  rewrite <- Z.div2_div. rewrite Z.div2_spec, Z.log2_shiftr by lia.
  pose proof (Z.log2_le_mono 10 n). change (Z.log2 10) with 3%Z in *. lia.
Qed.

(** Reading back the digits: the running value when [acc] is read after [n]'s digits. *)
Lemma parse_digits_aux fuel max n acc :
  (0 <= n <= max)%Z -> (Z.log2 n <= Z.of_nat fuel)%Z ->
  parse_digits max 0 (digits_aux fuel n acc) = parse_digits max n acc.
Proof.
  revert n acc; induction fuel as [|fuel IH]; intros n acc Hn Hf; cbn [digits_aux].
  all: assert (Hd : (0 <= n mod 10 < 10)%Z) by (apply Z.mod_pos_bound; lia).
  all: assert (Hm := Z.div_mod n 10).
  - assert (n < 10)%Z.
    { destruct (Z.le_gt_cases 10 n); [|done].
      pose proof (Z.log2_le_mono 10 n). change (Z.log2 10) with 3%Z in *. lia. }
    cbn [parse_digits]. rewrite is_ascii_digit_of, byte_val_of, Z.mod_small by lia.
    rewrite Z.mod_small by lia.
    replace (0 * 10 + (48 + n - 48))%Z with n by lia.
    rewrite (proj2 (Z.leb_le _ _)); [done | lia].
  - destruct (Z.eqb_spec (n / 10) 0) as [E|E].
    + cbn [parse_digits]. rewrite is_ascii_digit_of, byte_val_of by lia.
      rewrite (Z.mod_small (48 + _)) by lia.
      replace (0 * 10 + (48 + n mod 10 - 48))%Z with n by lia.
      rewrite (proj2 (Z.leb_le _ _)); [done | lia].
    + assert (10 <= n)%Z.
      { destruct (Z.le_gt_cases 10 n); [done|]. rewrite Z.div_small in E; lia. }
      pose proof (log2_div10 n). rewrite IH.
      2: { assert (n / 10 <= n)%Z by (apply Z.div_le_upper_bound; lia).
           pose proof (Z.div_pos n 10). lia. }
      2: lia.
      cbn [parse_digits]. rewrite is_ascii_digit_of, byte_val_of by lia.
      rewrite (Z.mod_small (48 + _)) by lia.
      replace (n / 10 * 10 + (48 + n mod 10 - 48))%Z with n by lia.
      rewrite (proj2 (Z.leb_le _ _)); [done | lia].
Qed.

Lemma digits_aux_digits fuel n acc :
  Forall (fun c => is_ascii_digit c = true) acc ->
  Forall (fun c => is_ascii_digit c = true) (digits_aux fuel n acc).
Proof.
  revert n acc; induction fuel as [|fuel IH]; intros n acc H; cbn [digits_aux];
    (assert (Hd : (0 <= n mod 10 < 10)%Z) by (apply Z.mod_pos_bound; lia)).
  - constructor; [by apply is_ascii_digit_of | done].
  - destruct (n / 10 =? 0)%Z; [|apply IH]; (constructor; [by apply is_ascii_digit_of | done]).
Qed.

Lemma digits_aux_not_nil fuel n acc : digits_aux fuel n acc <> [].
Proof.
  revert n acc; induction fuel as [|fuel IH]; intros n acc; cbn [digits_aux]; [done|].
  case_match; [done | apply IH].
Qed.

Lemma show_Z_digits n : Forall (fun c => is_ascii_digit c = true) (show_Z n).
Proof. apply digits_aux_digits. constructor. Qed.

Lemma parse_show_Z max n : (0 <= n <= max)%Z -> parse_unsigned max (show_Z n) = Some n.
Proof.
  intros Hn. unfold parse_unsigned.
  destruct (show_Z n) as [|c s] eqn:E; [by apply digits_aux_not_nil in E|].
  pose proof (show_Z_digits n) as Hd. rewrite E in Hd. apply Forall_cons in Hd as [Hc _].
  destruct (decide (c = "+"%char)) as [->|]; [done|].
  rewrite <- E. unfold show_Z. rewrite parse_digits_aux; [done | lia|].
  pose proof (Z.log2_nonneg n). lia.
Qed.

Lemma show_Z_inj m n : (0 <= m)%Z -> (0 <= n)%Z -> show_Z m = show_Z n -> m = n.
Proof.
  intros. pose proof (parse_show_Z (Z.max m n) m). pose proof (parse_show_Z (Z.max m n) n).
  assert (Some m = Some n) by (rewrite <- H2, <- H3 by lia; by rewrite H1). congruence.
Qed.
