(* ===== verification/HttpCrate.v ===== *)
(** * The [http] crate, as an interface

    The sources use the third-party crate [http] for header names, header values,
    header maps, methods, status codes and URIs. [HttpCrate] lists the operations the
    sources call; [HttpLaws] lists what the crate documents about them and the sources
    rely on. Everything that handles headers is proved against this interface; the
    instance [ref_http] of [RefHttp.v] shows that the laws can hold together and
    evaluates the witnesses. *)
From S2P Require Import Prelude RustStd.

(** [tchar] of RFC 9110: the bytes of a header name or a method. *)
Definition tchar (c : ascii) : bool :=
  is_ascii_alphanumeric c || bool_decide (c ∈ lit "!#$%&'*+-.^_`|~").

(** What [HeaderName::from_bytes] accepts: a token of at most 65535 bytes. *)
Definition valid_name (s : str) : bool :=
  negb (is_empty s) && (len s <=? u16_max)%Z && forallb tchar s.

(** What [Method::from_bytes] accepts: a token. *)
Definition valid_method (s : str) : bool := negb (is_empty s) && forallb tchar s.

(** What [HeaderValue::to_str] accepts: visible ASCII, space and tab. *)
Definition visible_ascii (c : ascii) : bool :=
  in_range 32 126 (byte_val c) || (byte_val c =? 9)%Z.

(** [http::Version]. *)
Inductive Version := HTTP_09 | HTTP_10 | HTTP_11 | HTTP_2 | HTTP_3.
#[global] Instance Version_eq_dec : EqDecision Version.
Proof. solve_decision. Defined.

(** A status code is the number it stands for. *)
Abbreviation StatusCode := Z (only parsing).
Definition SWITCHING_PROTOCOLS : StatusCode := 101.
Definition STATUS_OK : StatusCode := 200.
Definition NO_CONTENT : StatusCode := 204.
Definition NOT_MODIFIED : StatusCode := 304.
Definition BAD_REQUEST : StatusCode := 400.
Definition UNAUTHORIZED : StatusCode := 401.
Definition FORBIDDEN : StatusCode := 403.
Definition NOT_FOUND : StatusCode := 404.
Definition METHOD_NOT_ALLOWED : StatusCode := 405.
Definition REQUEST_TIMEOUT : StatusCode := 408.
Definition PAYLOAD_TOO_LARGE : StatusCode := 413.
Definition UPGRADE_REQUIRED : StatusCode := 426.
Definition REQUEST_HEADER_FIELDS_TOO_LARGE : StatusCode := 431.
Definition NOT_IMPLEMENTED : StatusCode := 501.
Definition BAD_GATEWAY : StatusCode := 502.
Definition SERVICE_UNAVAILABLE : StatusCode := 503.
Definition GATEWAY_TIMEOUT : StatusCode := 504.

(** ** The operations *)

Class HttpCrate := {
  (* header names *)
  HeaderName : Type;
  HeaderName_eq_dec :: EqDecision HeaderName;
  hn_as_str : HeaderName -> str;
  hn_from_bytes : str -> option HeaderName;
  hn_from_static : str -> HeaderName;
  (* header values *)
  HeaderValue : Type;
  hv_as_bytes : HeaderValue -> str;
  hv_to_str : HeaderValue -> option str;
  hv_from_bytes : str -> option HeaderValue;
  hv_from_str : str -> option HeaderValue;
  hv_from_static : str -> HeaderValue;
  hv_set_sensitive : HeaderValue -> HeaderValue;
  hv_is_sensitive : HeaderValue -> bool;
  (* header maps *)
  HeaderMap : Type;
  hm_new : HeaderMap;
  hm_iter : HeaderMap -> list (HeaderName * HeaderValue);
  hm_get_all : HeaderName -> HeaderMap -> list HeaderValue;
  hm_keys : HeaderMap -> list HeaderName;
  hm_insert : HeaderName -> HeaderValue -> HeaderMap -> HeaderMap;
  hm_append : HeaderName -> HeaderValue -> HeaderMap -> HeaderMap;
  hm_remove : HeaderName -> HeaderMap -> HeaderMap;
  (* [for (name, value) in map.iter_mut() { .. }]: a pure update of every value *)
  hm_iter_mut : (HeaderName -> HeaderValue -> HeaderValue) -> HeaderMap -> HeaderMap;
  (* whether the map can take a field: [append] and [entry] panic on a map that has reached its maximum capacity *)
  hm_has_room : HeaderMap -> bool;
  (* methods *)
  Method : Type;
  Method_eq_dec :: EqDecision Method;
  Method_countable :: Countable Method;
  m_as_str : Method -> str;
  m_from_bytes : str -> option Method;
  m_const : str -> Method;
  (* status codes *)
  status_from_u16 : Z -> option StatusCode;
  status_is_informational : StatusCode -> bool;
  (* URIs *)
  Uri : Type;
  uri_parse : str -> option Uri;
  uri_path : Uri -> str;
  uri_query : Uri -> option str;
  uri_scheme_str : Uri -> option str;
  uri_authority : Uri -> option str;
  uri_path_and_query : Uri -> option str;
}.

(** ** What the crate documents *)

Class HttpLaws `{HttpCrate} := {
  hn_as_str_inj : forall m n, hn_as_str m = hn_as_str n -> m = n;
  hn_as_str_valid : forall n, valid_name (hn_as_str n) = true;
  hn_from_bytes_spec : forall s n, hn_from_bytes s = Some n <->
    valid_name s = true /\ hn_as_str n = to_ascii_lowercase s;
  hn_as_str_lower : forall n, to_ascii_lowercase (hn_as_str n) = hn_as_str n;
  hn_from_static_spec : forall s, valid_name s = true -> to_ascii_lowercase s = s ->
    hn_as_str (hn_from_static s) = s;
  hv_to_str_spec : forall v,
    hv_to_str v = if forallb visible_ascii (hv_as_bytes v) then Some (hv_as_bytes v) else None;
  hv_from_bytes_bytes : forall s v, hv_from_bytes s = Some v -> hv_as_bytes v = s;
  hv_from_bytes_ok : forall s, forallb visible_ascii s = true -> is_Some (hv_from_bytes s);
  hv_from_str_bytes : forall s v, hv_from_str s = Some v -> hv_as_bytes v = s;
  hv_from_str_ok : forall s, forallb visible_ascii s = true -> is_Some (hv_from_str s);
  hv_from_static_bytes : forall s, forallb visible_ascii s = true -> hv_as_bytes (hv_from_static s) = s;
  hv_set_sensitive_bytes : forall v, hv_as_bytes (hv_set_sensitive v) = hv_as_bytes v;
  hv_set_sensitive_set : forall v, hv_is_sensitive (hv_set_sensitive v) = true;
  hm_iter_new : hm_iter hm_new = [];
  hm_get_all_iter : forall n m, hm_get_all n m = (filter (fun e => e.1 = n) (hm_iter m)).*2;
  hm_keys_spec : forall n m, n ∈ hm_keys m <-> hm_get_all n m <> [];
  hm_insert_eq : forall n v m, hm_get_all n (hm_insert n v m) = [v];
  hm_insert_ne : forall n n' v m, n <> n' -> hm_get_all n' (hm_insert n v m) = hm_get_all n' m;
  hm_append_eq : forall n v m, hm_get_all n (hm_append n v m) = hm_get_all n m ++ [v];
  hm_append_ne : forall n n' v m, n <> n' -> hm_get_all n' (hm_append n v m) = hm_get_all n' m;
  hm_remove_eq : forall n m, hm_get_all n (hm_remove n m) = [];
  hm_remove_ne : forall n n' m, n <> n' -> hm_get_all n' (hm_remove n m) = hm_get_all n' m;
  hm_iter_mut_iter : forall f m, hm_iter (hm_iter_mut f m) = (fun e => (e.1, f e.1 e.2)) <$> hm_iter m;
  m_as_str_inj : forall a b, m_as_str a = m_as_str b -> a = b;
  m_as_str_valid : forall m, valid_method (m_as_str m) = true;
  m_from_bytes_spec : forall s m, m_from_bytes s = Some m <-> valid_method s = true /\ m_as_str m = s;
  m_from_bytes_ok : forall s, valid_method s = true -> is_Some (m_from_bytes s);
  m_const_str : forall s, valid_method s = true -> m_as_str (m_const s) = s;
  status_from_u16_spec : forall z s, status_from_u16 z = Some s <-> s = z /\ (100 <= z < 1000)%Z;
  status_is_informational_spec : forall s, status_is_informational s = in_range 100 199 s;
  (* the path and the query of an accepted origin-form or absolute-form target form a
     target with that path and that query *)
  uri_path_query_parse : forall u, uri_path u <> [] ->
    exists u', uri_parse (uri_path u ++ match uri_query u with
                                        | Some q => "?"%char :: q
                                        | None => [] end) = Some u'
      /\ uri_path u' = uri_path u /\ uri_query u' = uri_query u;
  (* only a target in authority form has no path; it has no query either, and the empty text is no target *)
  uri_query_no_path : forall u, uri_path u = [] -> uri_query u = None;
  uri_parse_empty : uri_parse [] = None;
}.

Section derived.
Context `{HttpCrate}.

(** Header names and methods the sources name. *)
Definition AUTHORIZATION : HeaderName := hn_from_static (lit "authorization").
Definition COOKIE : HeaderName := hn_from_static (lit "cookie").
Definition CONNECTION : HeaderName := hn_from_static (lit "connection").
Definition CONTENT_LENGTH : HeaderName := hn_from_static (lit "content-length").
Definition CONTENT_TYPE : HeaderName := hn_from_static (lit "content-type").
Definition HOST : HeaderName := hn_from_static (lit "host").
Definition TE : HeaderName := hn_from_static (lit "te").
Definition TRAILER : HeaderName := hn_from_static (lit "trailer").
Definition TRANSFER_ENCODING : HeaderName := hn_from_static (lit "transfer-encoding").
Definition UPGRADE : HeaderName := hn_from_static (lit "upgrade").
Definition ALLOW : HeaderName := hn_from_static (lit "allow").

Definition GET : Method := m_const (lit "GET").
Definition HEAD : Method := m_const (lit "HEAD").
Definition OPTIONS : Method := m_const (lit "OPTIONS").
Definition TRACE : Method := m_const (lit "TRACE").
Definition CONNECT : Method := m_const (lit "CONNECT").

(** [map.get(name)] and [map.contains_key(name)]. *)
Definition hm_get (n : HeaderName) (m : HeaderMap) : option HeaderValue := head (hm_get_all n m).
Definition hm_contains_key (n : HeaderName) (m : HeaderMap) : bool := negb (is_empty (hm_get_all n m)).

(** Removing a list of names, as the loops over collected keys do. *)
Definition hm_remove_all (ns : list HeaderName) (m : HeaderMap) : HeaderMap :=
  foldl (fun m n => hm_remove n m) m ns.

(** Appending a list of fields. *)
Definition hm_append_all (fs : list (HeaderName * HeaderValue)) (m : HeaderMap) : HeaderMap :=
  foldl (fun m f => hm_append f.1 f.2 m) m fs.

(** Two header maps are equivalent when every name has the same values in the same
    order: the order in which different names are iterated is not documented. *)
#[global] Instance hm_equiv : Equiv HeaderMap := fun m1 m2 => forall n, hm_get_all n m1 = hm_get_all n m2.

#[global] Instance hm_equivalence : Equivalence (≡@{HeaderMap}).
Proof. split; [intros m n; done | intros m1 m2 E n; by rewrite E | intros m1 m2 m3 E1 E2 n; by rewrite E1, E2]. Qed.

#[global] Instance hm_get_all_proper n : Proper ((≡) ==> (=)) (hm_get_all n).
Proof. intros m1 m2 E. apply E. Qed.

#[global] Instance hm_get_proper n : Proper ((≡) ==> (=)) (hm_get n).
Proof. intros m1 m2 E. unfold hm_get. by rewrite E. Qed.

#[global] Instance hm_contains_key_proper n : Proper ((≡) ==> (=)) (hm_contains_key n).
Proof. intros m1 m2 E. unfold hm_contains_key. by rewrite E. Qed.

Context `{!HttpLaws}.

#[global] Instance hm_insert_proper n v : Proper ((≡) ==> (≡)) (hm_insert n v).
Proof.
  intros m1 m2 E n'. destruct (decide (n = n')) as [->|]; [by rewrite !hm_insert_eq|].
  by rewrite !hm_insert_ne by done.
Qed.

#[global] Instance hm_append_proper n v : Proper ((≡) ==> (≡)) (hm_append n v).
Proof.
  intros m1 m2 E n'. destruct (decide (n = n')) as [->|]; [by rewrite !hm_append_eq, E|].
  by rewrite !hm_append_ne by done.
Qed.

#[global] Instance hm_remove_proper n : Proper ((≡) ==> (≡)) (hm_remove n).
Proof.
  intros m1 m2 E n'. destruct (decide (n = n')) as [->|]; [by rewrite !hm_remove_eq|].
  by rewrite !hm_remove_ne by done.
Qed.

(** ** Consequences *)

Lemma hm_get_all_new n : hm_get_all n hm_new = [].
Proof. by rewrite hm_get_all_iter, hm_iter_new. Qed.

Lemma elem_of_hm_iter n v m : (n, v) ∈ hm_iter m <-> v ∈ hm_get_all n m.
Proof.
  rewrite hm_get_all_iter, list_elem_of_fmap. split.
  - intros Hin. exists (n, v). by rewrite list_elem_of_filter.
  - intros ([n' v'] & -> & Hin). apply list_elem_of_filter in Hin as [Hn Hin].
    cbn in *. by subst.
Qed.

Lemma hm_contains_key_false n m : hm_contains_key n m = false <-> hm_get_all n m = [].
Proof. unfold hm_contains_key. by rewrite negb_false_iff, is_empty_spec. Qed.

Lemma hm_get_insert_eq n v m : hm_get n (hm_insert n v m) = Some v.
Proof. unfold hm_get. by rewrite hm_insert_eq. Qed.

Lemma hm_get_insert_ne n n' v m : n <> n' -> hm_get n' (hm_insert n v m) = hm_get n' m.
Proof. intros. unfold hm_get. by rewrite hm_insert_ne. Qed.

Lemma hm_remove_all_get ns m n :
  hm_get_all n (hm_remove_all ns m) = if decide (n ∈ ns) then [] else hm_get_all n m.
Proof.
  unfold hm_remove_all. revert m; induction ns as [|k ns IH]; intros m; cbn.
  - by destruct (decide (n ∈ [])) as [Hin|]; [apply not_elem_of_nil in Hin|].
  - rewrite IH. destruct (decide (n ∈ ns)), (decide (n ∈ k :: ns)); try done; try set_solver.
    + assert (n = k) as -> by set_solver. apply hm_remove_eq.
    + apply hm_remove_ne. set_solver.
Qed.

Lemma hm_append_all_get fs m n :
  hm_get_all n (hm_append_all fs m) = hm_get_all n m ++ (filter (fun f => f.1 = n) fs).*2.
Proof.
  unfold hm_append_all. revert m; induction fs as [|[k v] fs IH]; intros m; cbn [foldl fst snd].
  - by rewrite app_nil_r.
  - rewrite IH, filter_cons. cbn [fst]. destruct (decide (k = n)) as [->|].
    + by rewrite hm_append_eq, <- app_assoc.
    + by rewrite hm_append_ne.
Qed.

(** Appending one field after another, the map can take each. *)
Fixpoint room_for (m : HeaderMap) (fs : list (HeaderName * HeaderValue)) : bool :=
  match fs with
  | [] => true
  | f :: fs => hm_has_room m && room_for (hm_append f.1 f.2 m) fs
  end.

Lemma room_for_snoc m fs f : room_for m (fs ++ [f]) = room_for m fs && hm_has_room (hm_append_all fs m).
Proof.
  revert m; induction fs as [|g fs IH]; intros m; cbn; [by rewrite andb_true_r|]. by rewrite IH, andb_assoc.
Qed.

Lemma hm_append_all_app fs gs m : hm_append_all (fs ++ gs) m = hm_append_all gs (hm_append_all fs m).
Proof. unfold hm_append_all. apply foldl_app. Qed.

Lemma hv_to_str_Some v s : hv_to_str v = Some s <-> s = hv_as_bytes v /\ forallb visible_ascii s = true.
Proof. rewrite hv_to_str_spec. case_match; naive_solver congruence. Qed.

Lemma hv_from_str_to_str s : forallb visible_ascii s = true ->
  exists v, hv_from_str s = Some v /\ hv_to_str v = Some s.
Proof.
  intros Hs. destruct (hv_from_str_ok s Hs) as [v Hv]. exists v. split; [done|].
  apply hv_to_str_Some. by rewrite (hv_from_str_bytes _ _ Hv).
Qed.

Lemma hn_from_bytes_as_str n : hn_from_bytes (hn_as_str n) = Some n.
Proof. apply hn_from_bytes_spec. by rewrite hn_as_str_valid, hn_as_str_lower. Qed.

Lemma hn_from_static_eq s n : valid_name s = true -> to_ascii_lowercase s = s ->
  n = hn_from_static s <-> hn_as_str n = s.
Proof.
  intros Hv Hl. split; [intros ->; by apply hn_from_static_spec|].
  intros Hn. apply hn_as_str_inj. by rewrite hn_from_static_spec.
Qed.

Lemma hn_from_static_inj s t : valid_name s = true -> to_ascii_lowercase s = s ->
  valid_name t = true -> to_ascii_lowercase t = t -> hn_from_static s = hn_from_static t -> s = t.
Proof. intros ? ? ? ? E. by rewrite <- (hn_from_static_spec s), E, hn_from_static_spec. Qed.

Lemma m_from_bytes_as_str m : m_from_bytes (m_as_str m) = Some m.
Proof. apply m_from_bytes_spec. by rewrite m_as_str_valid. Qed.

Lemma m_const_eq s m : valid_method s = true -> m = m_const s <-> m_as_str m = s.
Proof.
  intros Hv. split; [intros ->; by apply m_const_str|].
  intros Hm. apply m_as_str_inj. by rewrite m_const_str.
Qed.
End derived.

(** Two static header names are different when their texts are. *)
Ltac name_ne :=
  match goal with
  | |- ?a <> ?b => intros ?Hne; apply (f_equal hn_as_str) in Hne;
      unfold AUTHORIZATION, COOKIE, CONNECTION, CONTENT_LENGTH, CONTENT_TYPE, HOST, TE, TRAILER,
        TRANSFER_ENCODING, UPGRADE, ALLOW in Hne;
      rewrite !hn_from_static_spec in Hne by (vm_compute; reflexivity);
      vm_compute in Hne; discriminate Hne
  end.
