(* ===== verification/RefHttp.v ===== *)
(** * A reference instance of the [http] interface

    Lists and checked strings that satisfy every law of [HttpLaws]. It shows that the
    laws are consistent and gives the witnesses something to evaluate; it is not a model
    of the crate's own code. *)
From S2P Require Import Prelude RustStd HttpCrate.

Lemma tchar_lower c : tchar (ascii_lower c) = tchar c.
Proof. destruct c as [[] [] [] [] [] [] [] []]; vm_compute; reflexivity. Qed.

Lemma valid_name_lower s : valid_name (to_ascii_lowercase s) = valid_name s.
Proof.
  unfold valid_name, to_ascii_lowercase. f_equal; [f_equal|].
  - by destruct s.
  - unfold len. by rewrite length_map.
  - induction s as [|c s IH]; cbn; [done|]. by rewrite tchar_lower, IH.
Qed.

(** ** Checked strings *)

Definition name_ok (s : str) : bool := valid_name s && bool_decide (to_ascii_lowercase s = s).

Definition ref_name := { s : str | name_ok s = true }.
Definition ref_method := { s : str | valid_method s = true }.

Definition checked (P : str -> bool) (s : str) : option { s : str | P s = true } :=
  match bool_dec (P s) true with left H => Some (exist _ s H) | right _ => None end.

Lemma checked_Some (P : str -> bool) s x : checked P s = Some x <-> proj1_sig x = s.
Proof.
  unfold checked. destruct x as [t Ht]; cbn. split.
  - case_match; [intros E | done]. by simplify_eq.
  - intros ->. destruct (bool_dec (P s) true) as [E|]; [|done].
    f_equal. by apply (sig_eq_pi _).
Qed.

Lemma checked_ok (P : str -> bool) s : P s = true -> is_Some (checked P s).
Proof. intros H. unfold checked. case_match; [by eexists | congruence]. Qed.

Lemma checked_countable_proof (P : str -> bool) (x : { s : str | P s = true }) :
  checked P (proj1_sig x) = Some x.
Proof. by apply checked_Some. Qed.

Definition static_name (s : str) : ref_name :=
  default (exist _ (lit "x") eq_refl) (checked name_ok s).
Definition static_method (s : str) : ref_method :=
  default (exist _ (lit "GET") eq_refl) (checked valid_method s).

#[global] Instance ref_name_eq_dec : EqDecision ref_name.
Proof.
  intros x y. destruct (decide (proj1_sig x = proj1_sig y)) as [E|E].
  - left. by apply (sig_eq_pi _).
  - right. by intros ->.
Defined.
#[global] Instance ref_method_eq_dec : EqDecision ref_method.
Proof.
  intros x y. destruct (decide (proj1_sig x = proj1_sig y)) as [E|E].
  - left. by apply (sig_eq_pi _).
  - right. by intros ->.
Defined.
#[global] Instance ref_method_countable : Countable ref_method :=
  inj_countable (@proj1_sig str _) (checked valid_method) (checked_countable_proof valid_method).

(** ** Values, maps and URIs *)

Record ref_value := RefValue { rv_bytes : str; rv_sensitive : bool }.

(** [is_valid] of a header value: no control character but tab. *)
Definition value_byte (c : ascii) : bool :=
  let b := byte_val c in ((32 <=? b) && negb (b =? 127) || (b =? 9))%Z.
Definition ref_value_from (s : str) : option ref_value :=
  if forallb value_byte s then Some (RefValue s false) else None.

Abbreviation ref_map := (list (ref_name * ref_value)) (only parsing).
Definition ref_without (n : ref_name) (m : ref_map) : ref_map := filter (fun e => e.1 <> n) m.

Record ref_uri := RefUri {
  ru_scheme : option str; ru_authority : option str;
  ru_path : option str; (* the text after the leading slash *)
  ru_query : option str }.

Definition no_mark (s : str) : str := filter (fun c => c <> "?"%char) s.
Definition ref_path (u : ref_uri) : str :=
  match ru_path u with Some p => "/"%char :: no_mark p | None => [] end.

Definition ref_query (u : ref_uri) : option str :=
  match ru_path u with Some _ => ru_query u | None => None end.

Definition ref_target (s : str) : option (str * option str) :=
  match s with
  | "/"%char :: rest =>
      match split_once "?" rest with
      | Some (p, q) => Some (p, Some q)
      | None => Some (rest, None)
      end
  | _ => None
  end.
Fixpoint span_authority (s : str) : str * str :=
  match s with
  | [] => ([], [])
  | c :: s' => if bool_decide (c ∈ lit "/?") then ([], s)
               else let '(a, b) := span_authority s' in (c :: a, b)
  end.
Definition ref_uri_parse (s : str) : option ref_uri :=
  match ref_target s with
  | Some (p, q) => Some (RefUri None None (Some p) q)
  | None =>
      match split_once ":" s with
      | Some (sch, "/"%char :: "/"%char :: rest) =>
          let '(a, t) := span_authority rest in
          if is_empty a then None else
          let t := match t with "/"%char :: _ => t | _ => "/"%char :: t end in
          (fun pq => RefUri (Some sch) (Some a) (Some pq.1) pq.2) <$> ref_target t
      | _ => None
      end
  end.

#[local] Instance ref_http : HttpCrate := {
  HeaderName := ref_name;
  hn_as_str := @proj1_sig _ _;
  hn_from_bytes s := if valid_name s then checked name_ok (to_ascii_lowercase s) else None;
  hn_from_static := static_name;
  HeaderValue := ref_value;
  hv_as_bytes := rv_bytes;
  hv_to_str v := if forallb visible_ascii (rv_bytes v) then Some (rv_bytes v) else None;
  hv_from_bytes := ref_value_from;
  hv_from_str := ref_value_from;
  hv_from_static s := RefValue s false;
  hv_set_sensitive v := RefValue (rv_bytes v) true;
  hv_is_sensitive := rv_sensitive;
  HeaderMap := ref_map;
  hm_new := [];
  hm_iter m := m;
  hm_get_all n m := (filter (fun e => e.1 = n) m).*2;
  hm_keys m := remove_dups m.*1;
  hm_insert n v m := ref_without n m ++ [(n, v)];
  hm_append n v m := m ++ [(n, v)];
  hm_remove n m := ref_without n m;
  hm_iter_mut f m := (fun e => (e.1, f e.1 e.2)) <$> m;
  hm_has_room m := (len (remove_dups m.*1) <? 24576)%Z;
  Method := ref_method;
  m_as_str := @proj1_sig _ _;
  m_from_bytes := checked valid_method;
  m_const := static_method;
  status_from_u16 z := if in_range 100 999 z then Some z else None;
  status_is_informational s := in_range 100 199 s;
  Uri := ref_uri;
  uri_parse := ref_uri_parse;
  uri_path := ref_path;
  uri_query := ref_query;
  uri_scheme_str := ru_scheme;
  uri_authority := ru_authority;
  uri_path_and_query u :=
    match ru_path u with
    | Some _ => Some (ref_path u ++ match ref_query u with Some q => "?"%char :: q | None => [] end)
    | None => None
    end;
}.

(** ** The laws hold *)

Lemma ref_without_get_eq n m : (filter (fun e => e.1 = n) (ref_without n m)).*2 = [].
Proof.
  unfold ref_without. induction m as [|[k v] m IH]; [done|].
  rewrite filter_cons. case_decide; [|done]. rewrite filter_cons. case_decide; [done|apply IH].
Qed.

Lemma ref_without_get_ne n n' m : n <> n' ->
  (filter (fun e => e.1 = n') (ref_without n m)).*2 = (filter (fun e => e.1 = n') m).*2.
Proof.
  intros Hne. unfold ref_without. induction m as [|[k v] m IH]; [done|].
  rewrite (filter_cons (fun e => e.1 <> n)), (filter_cons _ (k, v) m). cbn [fst].
  destruct (decide (k <> n)), (decide (k = n')); rewrite ?filter_cons; cbn [fst];
    rewrite ?decide_True, ?decide_False by done; cbn; try by rewrite IH.
  subst. by exfalso.
Qed.

Lemma no_mark_id p : "?"%char ∉ p -> no_mark p = p.
Proof.
  intros Hp. unfold no_mark. induction p as [|c p IH]; [done|].
  rewrite filter_cons, decide_True by set_solver. f_equal. apply IH. set_solver.
Qed.

Lemma no_mark_not_in p : "?"%char ∉ no_mark p.
Proof. unfold no_mark. rewrite list_elem_of_filter. naive_solver. Qed.

Lemma ref_target_no_mark p q :
  ref_target ("/"%char :: no_mark p ++ match q with Some q => "?"%char :: q | None => [] end)
  = Some (no_mark p, q).
Proof.
  cbn [ref_target]. destruct q as [q|].
  - assert (split_once "?" (no_mark p ++ "?"%char :: q) = Some (no_mark p, q)) as ->; [|done].
    apply split_once_Some. split; [done | apply no_mark_not_in].
  - rewrite app_nil_r, (proj2 (split_once_None _ _) (no_mark_not_in p)). done.
Qed.

Lemma static_name_str s : valid_name s = true -> to_ascii_lowercase s = s ->
  proj1_sig (static_name s) = s.
Proof.
  intros Hv Hl. destruct (checked_ok name_ok s) as [x Hx].
  { unfold name_ok. by rewrite Hv, bool_decide_true. }
  unfold static_name. rewrite Hx. by apply checked_Some in Hx.
Qed.

Lemma visible_value s : forallb visible_ascii s = true -> forallb value_byte s = true.
Proof.
  rewrite !forallb_forall. intros Hs c Hc. specialize (Hs c Hc). unfold visible_ascii, value_byte in *.
  apply orb_prop in Hs as [Hs|Hs]; [|by rewrite Hs, orb_true_r].
  apply in_range_spec in Hs. rewrite (proj2 (Z.leb_le 32 _)), (proj2 (Z.eqb_neq _ 127)) by lia. done.
Qed.

Lemma ref_value_ok s : forallb visible_ascii s = true -> is_Some (ref_value_from s).
Proof. intros Hs. unfold ref_value_from. rewrite visible_value by done. by eexists. Qed.

Lemma ref_value_bytes s v : ref_value_from s = Some v -> rv_bytes v = s.
Proof. unfold ref_value_from. case_match; [by intros [= <-] | done]. Qed.

#[local] Instance ref_http_laws : HttpLaws.
Proof.
  split; cbn.
  - intros m n E. by apply (sig_eq_pi _).
  - intros [s Hs]; cbn. unfold name_ok in Hs. by bool_prop.
  - intros s n. destruct (valid_name s) eqn:Hv; [|naive_solver].
    pose proof (checked_Some name_ok (to_ascii_lowercase s) n). naive_solver.
  - intros [s Hs]; cbn. unfold name_ok in Hs. by bool_prop.
  - apply static_name_str.
  - done.
  - apply ref_value_bytes.
  - apply ref_value_ok.
  - apply ref_value_bytes.
  - apply ref_value_ok.
  - done.
  - done.
  - done.
  - done.
  - done.
  - intros n m. rewrite elem_of_remove_dups, list_elem_of_fmap. split.
    + intros ([k v] & -> & Hin) E. apply fmap_nil_inv in E.
      apply (not_elem_of_nil (k, v)). rewrite <- E. by apply list_elem_of_filter.
    + intros Hne. destruct (filter _ m) as [|[k v] l] eqn:E; [done|].
      exists (k, v). assert (Hin : (k, v) ∈ filter (fun e => e.1 = n) m) by (rewrite E; left).
      apply list_elem_of_filter in Hin. naive_solver.
  - intros n v m. rewrite filter_app, fmap_app, ref_without_get_eq.
    rewrite filter_cons, decide_True by done. done.
  - intros n n' v m Hne. rewrite filter_app, fmap_app, ref_without_get_ne by done.
    rewrite filter_cons, decide_False by done. by rewrite app_nil_r.
  - intros n v m. rewrite filter_app, fmap_app, filter_cons, decide_True by done. done.
  - intros n n' v m Hne. rewrite filter_app, fmap_app, filter_cons, decide_False by done.
    by rewrite app_nil_r.
  - intros n m. apply ref_without_get_eq.
  - intros n n' m Hne. by apply ref_without_get_ne.
  - done.
  - intros a b E. by apply (sig_eq_pi _).
  - by intros [s Hs].
  - intros s m. pose proof (checked_Some valid_method s m). destruct m as [t Ht]; cbn in *. naive_solver.
  - intros s. apply checked_ok.
  - intros s Hs. destruct (checked_ok valid_method s Hs) as [x Hx].
    unfold static_method. rewrite Hx. by apply checked_Some in Hx.
  - intros z s. destruct (in_range 100 999 z) eqn:E.
    + apply in_range_spec in E. naive_solver lia.
    + apply in_range_false in E. naive_solver lia.
  - done.
  - intros [sch a [p|] q] Hp; cbn in *; [|done]. unfold ref_path, ref_uri_parse in *; cbn in *.
    pose proof (ref_target_no_mark p q) as E; cbn in E. rewrite E.
    eexists. split; [done|]. cbn. by rewrite no_mark_id by apply no_mark_not_in.
  - by intros [sch a [p|] q].
  - done.
Qed.

(** Building a header map from literals. *)
Definition ref_headers (l : list (string * string)) : ref_map :=
  (fun e => (static_name (lit e.1), RefValue (lit e.2) false)) <$> l.

Example parse_origin :
  (fun u => (ru_scheme u, ru_authority u, ref_path u)) <$> ref_uri_parse (lit "https://a.example:80")
  = Some (Some (lit "https"), Some (lit "a.example:80"), lit "/").
Proof. vm_compute. reflexivity. Qed.
