(* ===== verification/Kernel.v ===== *)
(** * The kernel's runtime, as the plugins see it

    [lenso_kernel] is not part of the repository. The plugins use its failure type, its
    native streams, its cancellation tokens and the semaphores of [tokio]. A stream is
    represented by what it will deliver: the results its [receive] calls return, one
    after another, and the results its [send] calls return. A [receive] past the end of
    that script stays pending. Nothing is assumed about the script, so a theorem about
    all scripts is a theorem about every behaviour of the peer.

    Calls that act on the outside (cancelling a stream, returning a permit, reporting a
    failure) are recorded in a trace. *)
From S2P Require Import Prelude RustStd.

(** [lenso_kernel::RuntimeFailure]: the variants the sources build or match on, and one
    constructor for the others. *)
Inductive RuntimeFailure :=
| PluginFailure (detail : str)
| InvalidResolvedPlan (detail : str)
| Internal (detail : str)
| DeadlineExceeded (request_id : Z)
| Cancelled (request_id : Z)
| ResourceExhausted (capability operation : str)
| ProtocolViolation (capability : str)
| UnknownOperation (capability operation : str)
| UnavailableCapability (capability : str)
| OtherFailure (code : Z).
#[global] Instance RuntimeFailure_eq_dec : EqDecision RuntimeFailure.
Proof. solve_decision. Defined.

(** [plugin_failure] of the ingress plugin's [lib.rs]. *)
Definition plugin_failure (detail : str) : RuntimeFailure := PluginFailure detail.

(** [lenso_kernel::StreamEvent] with the frames of one stream; the terminal event
    carries the domain outcome, whose error payload the sources never read. *)
Inductive StreamEvent (F : Type) :=
| Message (frame : F)
| PeerHalfClosed
| Terminal (outcome : Result unit unit).
Arguments Message {F} frame.
Arguments PeerHalfClosed {F}.
Arguments Terminal {F} outcome.

Record NativeStream (F : Type) := mkStream {
  stream_id : Z;
  script : list (Result RuntimeFailure (StreamEvent F));
  send_script : list (Result RuntimeFailure unit);
  stream_sent : list F;
}.
Arguments mkStream {F} stream_id script send_script stream_sent.
Arguments stream_id {F} n.
Arguments script {F} n.
Arguments send_script {F} n.
Arguments stream_sent {F} n.

(** [stream.receive().await]; [None] while nothing has arrived. *)
Definition stream_receive {F} (s : NativeStream F) :
    option (Result RuntimeFailure (StreamEvent F) * NativeStream F) :=
  match script s with
  | [] => None
  | e :: rest => Some (e, mkStream (stream_id s) rest (send_script s) (stream_sent s))
  end.

(** [stream.send(frame).await]; [None] while the peer does not take it. *)
Definition stream_send {F} (f : F) (s : NativeStream F) :
    option (Result RuntimeFailure unit * NativeStream F) :=
  match send_script s with
  | [] => None
  | r :: rest => Some (r, mkStream (stream_id s) (script s) rest (stream_sent s ++ [f]))
  end.

(** One Endpoint failure as [WebIngressEndpointFailure] of [diagnostics.rs] reports it. *)
Record WebIngressEndpointFailure := mkEndpointFailure {
  ef_request_id : str;
  ef_route_id : str;
  ef_provider_index : nat;
  ef_failure : RuntimeFailure;
}.
#[global] Instance WebIngressEndpointFailure_eq_dec : EqDecision WebIngressEndpointFailure.
Proof. solve_decision. Defined.

Inductive Effect :=
| StreamCancelled (id : Z)
| PermitReleased
| PermitAcquired
| InvocationCancelled
| EndpointRuntimeFailure (event : WebIngressEndpointFailure).
#[global] Instance Effect_eq_dec : EqDecision Effect.
Proof. solve_decision. Defined.

(** The outside: an arbitrary state [ext] that providers and middleware act on, and the
    trace of effects. *)
Record World (X : Type) := mkWorld { ext : X; trace : list Effect }.
Arguments mkWorld {X} ext trace.
Arguments ext {X} w.
Arguments trace {X} w.

Definition emit {X} (es : list Effect) (w : World X) : World X := mkWorld (ext w) (trace w ++ es).
Definition set_ext {X} (x : X) (w : World X) : World X := mkWorld x (trace w).

(** Code outside the repository acts on the outside state only. *)
Definition lift {X A} (f : X -> X * A) (w : World X) : World X * A :=
  let '(x, a) := f (ext w) in (set_ext x w, a).

Lemma emit_nil {X} (w : World X) : emit [] w = w.
Proof. destruct w. unfold emit. by rewrite app_nil_r. Qed.

Lemma emit_emit {X} es fs (w : World X) : emit fs (emit es w) = emit (es ++ fs) w.
Proof. unfold emit; cbn. by rewrite app_assoc. Qed.

#[export] Hint Rewrite @emit_nil @emit_emit : rust.

(** How often an effect happened. *)
Definition count_effect (e : Effect) (es : list Effect) : nat := length (filter (fun x => x = e) es).

Lemma count_effect_app e es fs : count_effect e (es ++ fs) = count_effect e es + count_effect e fs.
Proof. unfold count_effect. by rewrite filter_app, length_app. Qed.
