(* ===== verification/Config.v ===== *)
(** * Ingress configuration ([lenso-web-ingress-plugin/src/config.rs])

    The three policy records, their validation, the builders and the accessors the
    other components use. [Built] is the set of configurations a host can assemble with
    the builders; [built_valid] shows that all of them pass validation, so the
    [expect]s of [server.rs] and [session_cookie.rs] that rely on it cannot fire. *)
From S2P Require Import Prelude RustStd HttpCrate RefHttp.

Module Config.

Definition MAX_TRANSFER_BYTES : Z := 64 * 1024 * 1024.
Definition MAX_HEAD_BYTES : Z := 1024 * 1024.
Definition MAX_CONCURRENT_REQUESTS : Z := 4096.
Definition MAX_CONNECTIONS : Z := 65536.
Definition MAX_TIMEOUT_MILLIS : Z := 300000.
Definition MAX_PROTOCOL_NAME_BYTES : Z := 128.

(** ** Helpers *)

Definition valid_http_token (value : str) : bool :=
  negb (is_empty value)
  && (len value <=? MAX_PROTOCOL_NAME_BYTES)%Z
  && forallb (fun byte => is_ascii_alphanumeric byte
                          || bool_decide (byte ∈ lit "!#$%&'*+-.^_`|~")) value.

Definition host_cookie_name (value : str) : bool :=
  starts_with (lit "__Host-") value && valid_http_token value.

(** [std::time::Duration] as its number of nanoseconds. *)
Abbreviation Duration := Z (only parsing).
Definition as_millis (d : Duration) : Z := (d / 1000000)%Z.
Definition from_millis (ms : Z) : Duration := (ms * 1000000)%Z.

Definition duration_millis (duration : Duration) : Result str Z :=
  ok_or (lit "Web Ingress timeout does not fit the Plan format")
    (try_from_range u64_max (as_millis duration)).

(** [std::net::SocketAddr]: the octets or segments of the address, and the port. *)
Inductive SocketAddr :=
| V4 (octets : list Z) (port : Z)
| V6 (segments : list Z) (port flowinfo scope_id : Z).
#[global] Instance SocketAddr_eq_dec : EqDecision SocketAddr.
Proof. solve_decision. Defined.

(** ** Session cookies *)

Record SessionCookieConfig := mkSessionCookieConfig {
  name : str;
  csrf_cookie_name : str;
  csrf_header_name : str;
}.
#[global] Instance SessionCookieConfig_eq_dec : EqDecision SessionCookieConfig.
Proof. solve_decision. Defined.

Definition reserved_csrf_headers : list str :=
  [lit "authorization"; lit "connection"; lit "content-length"; lit "cookie"; lit "host";
   lit "keep-alive"; lit "proxy-connection"; lit "te"; lit "trailer"; lit "transfer-encoding";
   lit "upgrade"; lit "x-request-id"].

Section config.
Context `{HttpCrate}.

Definition validate_session_cookie (self : SessionCookieConfig) : Result str unit :=
  if negb (host_cookie_name (name self))
     || negb (host_cookie_name (csrf_cookie_name self))
     || bool_decide (name self = csrf_cookie_name self)
  then Err (lit "Web Ingress requires distinct __Host- session and CSRF cookie names") else
  if is_empty (csrf_header_name self) || (MAX_PROTOCOL_NAME_BYTES <? len (csrf_header_name self))%Z
  then Err (lit "Web Ingress CSRF header name is invalid") else
  let! header := hn_from_bytes (csrf_header_name self)
    else Err (lit "Web Ingress CSRF header name is invalid") in
  if bool_decide (hn_as_str header ∈ reserved_csrf_headers)
  then Err (lit "Web Ingress CSRF header must be a dedicated request header")
  else Ok ().

Definition new_session_cookie (name csrf_cookie_name csrf_header_name : str) :
    Result str SessionCookieConfig :=
  let value := mkSessionCookieConfig name csrf_cookie_name csrf_header_name in
  let? _ := validate_session_cookie value in
  Ok value.

(** ** WebSocket policy *)

Record WebSocketConfig := mkWebSocketConfig {
  allowed_origins : list str;
  max_message_bytes : Z;
  max_session_bytes : Z;
}.

(** The loop body of [WebSocketConfig::validate]. *)
Definition validate_origin (origin : str) : Result str unit :=
  let! uri := uri_parse origin else Err (lit "Invalid WebSocket origin") in
  if negb (match uri_scheme_str uri with
           | Some s => bool_decide (s = lit "http") || bool_decide (s = lit "https")
           | None => false
           end)
     || match uri_authority uri with None => true | Some _ => false end
     || match uri_authority uri with
        | Some authority => contains_any ["@"%char] authority
        | None => false
        end
     || match uri_path_and_query uri with
        | Some path => negb (bool_decide (path = lit "/"))
        | None => false
        end
     || ends_with_char "/" origin
     || (2048 <? len origin)%Z
  then Err (lit "WebSocket origins must be exact serialized HTTP origins")
  else Ok ().

Definition validate_websocket (self : WebSocketConfig) : Result str unit :=
  if (max_message_bytes self =? 0)%Z
     || (1048576 <? max_message_bytes self)%Z
     || (max_session_bytes self <? max_message_bytes self)%Z
     || (MAX_TRANSFER_BYTES <? max_session_bytes self)%Z
     || (64 <? len (allowed_origins self))%Z
  then Err (lit "Invalid WebSocket bounds") else
  try_fold (fun _ origin => validate_origin origin) () (allowed_origins self).

Definition new_websocket (allowed_origins : list str) : Result str WebSocketConfig :=
  let policy := mkWebSocketConfig allowed_origins 65536 1048576 in
  let? _ := validate_websocket policy in
  Ok policy.

Definition with_limits (self : WebSocketConfig) (message_bytes session_bytes : Z) :
    Result str WebSocketConfig :=
  let self := mkWebSocketConfig (allowed_origins self) message_bytes session_bytes in
  let? _ := validate_websocket self in
  Ok self.

(** ** The ingress configuration *)

Record WebIngressConfig := mkWebIngressConfig {
  bind_address : SocketAddr;
  max_request_body_bytes : Z;
  max_request_head_bytes : Z;
  max_concurrent_requests : Z;
  max_connections : Z;
  request_head_timeout_millis : Z;
  request_body_timeout_millis : Z;
  connection_idle_timeout_millis : Z;
  shutdown_grace_timeout_millis : Z;
  request_timeout_millis : Z;
  session_cookie : option SessionCookieConfig;
  websocket : option WebSocketConfig;
}.

#[global] Instance WebSocketConfig_eq_dec : EqDecision WebSocketConfig.
Proof. solve_decision. Defined.
#[global] Instance WebIngressConfig_eq_dec : EqDecision WebIngressConfig.
Proof. solve_decision. Defined.

Definition default_bind_address : SocketAddr := V4 [127; 0; 0; 1]%Z 0.
Definition default_max_request_body_bytes : Z := 1024 * 1024.
Definition default_max_request_head_bytes : Z := 16 * 1024.
Definition default_max_concurrent_requests : Z := 128.
Definition default_max_connections : Z := 1024.
Definition default_request_head_timeout_millis : Z := 10000.
Definition default_request_body_timeout_millis : Z := 30000.
Definition default_connection_idle_timeout_millis : Z := 60000.
Definition default_request_timeout_millis : Z := 30000.
Definition default_shutdown_grace_timeout_millis : Z := default_request_timeout_millis.

Definition default_config : WebIngressConfig := {|
  bind_address := default_bind_address;
  max_request_body_bytes := default_max_request_body_bytes;
  max_request_head_bytes := default_max_request_head_bytes;
  max_concurrent_requests := default_max_concurrent_requests;
  max_connections := default_max_connections;
  request_head_timeout_millis := default_request_head_timeout_millis;
  request_body_timeout_millis := default_request_body_timeout_millis;
  connection_idle_timeout_millis := default_connection_idle_timeout_millis;
  shutdown_grace_timeout_millis := default_shutdown_grace_timeout_millis;
  request_timeout_millis := default_request_timeout_millis;
  session_cookie := None;
  websocket := None |}.

Definition validate (self : WebIngressConfig) : Result str unit :=
  if negb (in_range 1 MAX_TRANSFER_BYTES (max_request_body_bytes self))
     || negb (in_range 1 MAX_HEAD_BYTES (max_request_head_bytes self))
     || negb (in_range 1 MAX_CONCURRENT_REQUESTS (max_concurrent_requests self))
     || negb (in_range 1 MAX_CONNECTIONS (max_connections self))
     || negb (in_range 1 MAX_TIMEOUT_MILLIS (request_head_timeout_millis self))
     || negb (in_range 1 MAX_TIMEOUT_MILLIS (request_body_timeout_millis self))
     || negb (in_range 1 MAX_TIMEOUT_MILLIS (connection_idle_timeout_millis self))
     || negb (in_range 1 MAX_TIMEOUT_MILLIS (shutdown_grace_timeout_millis self))
     || negb (in_range 1 MAX_TIMEOUT_MILLIS (request_timeout_millis self))
  then Err (lit "Web Ingress limits or timeout are invalid") else
  let? _ := match websocket self with Some policy => validate_websocket policy | None => Ok () end in
  let? _ := match session_cookie self with Some policy => validate_session_cookie policy | None => Ok () end in
  Ok ().

(** [self.field = v; self.validate()?; Ok(self)]. *)
Definition checked_config (self : WebIngressConfig) : Result str WebIngressConfig :=
  let? _ := validate self in Ok self.

Definition with_websocket (self : WebIngressConfig) (policy : WebSocketConfig) :=
  let? _ := validate_websocket policy in
  Ok (mkWebIngressConfig (bind_address self) (max_request_body_bytes self)
        (max_request_head_bytes self) (max_concurrent_requests self) (max_connections self)
        (request_head_timeout_millis self) (request_body_timeout_millis self)
        (connection_idle_timeout_millis self) (shutdown_grace_timeout_millis self)
        (request_timeout_millis self) (session_cookie self) (Some policy)) : Result str _.

Definition with_bind_address (self : WebIngressConfig) (address : SocketAddr) :=
  checked_config
    (mkWebIngressConfig address (max_request_body_bytes self)
       (max_request_head_bytes self) (max_concurrent_requests self) (max_connections self)
       (request_head_timeout_millis self) (request_body_timeout_millis self)
       (connection_idle_timeout_millis self) (shutdown_grace_timeout_millis self)
       (request_timeout_millis self) (session_cookie self) (websocket self)).

Definition with_request_limits (self : WebIngressConfig) (body_bytes head_bytes : Z) :=
  checked_config
    (mkWebIngressConfig (bind_address self) body_bytes head_bytes
       (max_concurrent_requests self) (max_connections self)
       (request_head_timeout_millis self) (request_body_timeout_millis self)
       (connection_idle_timeout_millis self) (shutdown_grace_timeout_millis self)
       (request_timeout_millis self) (session_cookie self) (websocket self)).

Definition with_max_concurrent_requests (self : WebIngressConfig) (maximum : Z) :=
  checked_config
    (mkWebIngressConfig (bind_address self) (max_request_body_bytes self)
       (max_request_head_bytes self) maximum (max_connections self)
       (request_head_timeout_millis self) (request_body_timeout_millis self)
       (connection_idle_timeout_millis self) (shutdown_grace_timeout_millis self)
       (request_timeout_millis self) (session_cookie self) (websocket self)).

Definition with_connection_limits (self : WebIngressConfig) (maximum : Z) (idle_timeout : Duration) :=
  let? idle := duration_millis idle_timeout in
  checked_config
    (mkWebIngressConfig (bind_address self) (max_request_body_bytes self)
       (max_request_head_bytes self) (max_concurrent_requests self) maximum
       (request_head_timeout_millis self) (request_body_timeout_millis self)
       idle (shutdown_grace_timeout_millis self)
       (request_timeout_millis self) (session_cookie self) (websocket self)).

Definition with_request_read_timeouts (self : WebIngressConfig) (head_timeout body_timeout : Duration) :=
  let? head_millis := duration_millis head_timeout in
  let? body_millis := duration_millis body_timeout in
  checked_config
    (mkWebIngressConfig (bind_address self) (max_request_body_bytes self)
       (max_request_head_bytes self) (max_concurrent_requests self) (max_connections self)
       head_millis body_millis
       (connection_idle_timeout_millis self) (shutdown_grace_timeout_millis self)
       (request_timeout_millis self) (session_cookie self) (websocket self)).

Definition with_request_timeout (self : WebIngressConfig) (timeout : Duration) :=
  let? millis := duration_millis timeout in
  checked_config
    (mkWebIngressConfig (bind_address self) (max_request_body_bytes self)
       (max_request_head_bytes self) (max_concurrent_requests self) (max_connections self)
       (request_head_timeout_millis self) (request_body_timeout_millis self)
       (connection_idle_timeout_millis self) (shutdown_grace_timeout_millis self)
       millis (session_cookie self) (websocket self)).

Definition with_shutdown_grace_timeout (self : WebIngressConfig) (timeout : Duration) :=
  let? millis := duration_millis timeout in
  checked_config
    (mkWebIngressConfig (bind_address self) (max_request_body_bytes self)
       (max_request_head_bytes self) (max_concurrent_requests self) (max_connections self)
       (request_head_timeout_millis self) (request_body_timeout_millis self)
       (connection_idle_timeout_millis self) millis
       (request_timeout_millis self) (session_cookie self) (websocket self)).

Definition with_session_cookie (self : WebIngressConfig) (policy : SessionCookieConfig) :=
  checked_config
    (mkWebIngressConfig (bind_address self) (max_request_body_bytes self)
       (max_request_head_bytes self) (max_concurrent_requests self) (max_connections self)
       (request_head_timeout_millis self) (request_body_timeout_millis self)
       (connection_idle_timeout_millis self) (shutdown_grace_timeout_millis self)
       (request_timeout_millis self) (Some policy) (websocket self)).

(** ** Accessors *)

Definition endpoint_admission_limits (self : WebIngressConfig) : Z * Z :=
  (0, max_concurrent_requests self)%Z.
Definition request_head_timeout (self : WebIngressConfig) : Duration :=
  from_millis (request_head_timeout_millis self).
Definition request_body_timeout (self : WebIngressConfig) : Duration :=
  from_millis (request_body_timeout_millis self).
Definition connection_idle_timeout (self : WebIngressConfig) : Duration :=
  from_millis (connection_idle_timeout_millis self).
Definition request_timeout (self : WebIngressConfig) : Duration :=
  from_millis (request_timeout_millis self).
Definition shutdown_grace_timeout (self : WebIngressConfig) : Duration :=
  from_millis (shutdown_grace_timeout_millis self).

(** ** What a valid configuration is *)

Record SessionCookieOk (p : SessionCookieConfig) : Prop := {
  sc_name : host_cookie_name (name p) = true;
  sc_csrf_name : host_cookie_name (csrf_cookie_name p) = true;
  sc_distinct : name p <> csrf_cookie_name p;
  sc_header_len : (1 <= len (csrf_header_name p) <= MAX_PROTOCOL_NAME_BYTES)%Z;
  sc_header : exists h, hn_from_bytes (csrf_header_name p) = Some h
                        /\ hn_as_str h ∉ reserved_csrf_headers;
}.

Definition OriginOk (origin : str) : Prop :=
  exists uri authority,
    uri_parse origin = Some uri
    /\ uri_authority uri = Some authority
    /\ (uri_scheme_str uri = Some (lit "http") \/ uri_scheme_str uri = Some (lit "https"))
    /\ "@"%char ∉ authority
    /\ (uri_path_and_query uri = None \/ uri_path_and_query uri = Some (lit "/"))
    /\ last origin <> Some "/"%char
    /\ (len origin <= 2048)%Z.

Record WebSocketOk (p : WebSocketConfig) : Prop := {
  ws_message : max_message_bytes p <> 0%Z /\ (max_message_bytes p <= 1048576)%Z;
  ws_session : (max_message_bytes p <= max_session_bytes p <= MAX_TRANSFER_BYTES)%Z;
  ws_origins : (len (allowed_origins p) <= 64)%Z;
  ws_each : Forall OriginOk (allowed_origins p);
}.

Record LimitsOk (c : WebIngressConfig) : Prop := {
  lim_body : (1 <= max_request_body_bytes c <= MAX_TRANSFER_BYTES)%Z;
  lim_head : (1 <= max_request_head_bytes c <= MAX_HEAD_BYTES)%Z;
  lim_requests : (1 <= max_concurrent_requests c <= MAX_CONCURRENT_REQUESTS)%Z;
  lim_connections : (1 <= max_connections c <= MAX_CONNECTIONS)%Z;
  lim_head_timeout : (1 <= request_head_timeout_millis c <= MAX_TIMEOUT_MILLIS)%Z;
  lim_body_timeout : (1 <= request_body_timeout_millis c <= MAX_TIMEOUT_MILLIS)%Z;
  lim_idle_timeout : (1 <= connection_idle_timeout_millis c <= MAX_TIMEOUT_MILLIS)%Z;
  lim_grace_timeout : (1 <= shutdown_grace_timeout_millis c <= MAX_TIMEOUT_MILLIS)%Z;
  lim_request_timeout : (1 <= request_timeout_millis c <= MAX_TIMEOUT_MILLIS)%Z;
}.

Record Valid (c : WebIngressConfig) : Prop := {
  valid_limits : LimitsOk c;
  valid_websocket : forall p, websocket c = Some p -> WebSocketOk p;
  valid_session_cookie : forall p, session_cookie c = Some p -> SessionCookieOk p;
}.

Lemma validate_session_cookie_ok p : validate_session_cookie p = Ok () <-> SessionCookieOk p.
Proof.
  unfold validate_session_cookie. split.
  - intros Hv. inv_ok Hv. bool_prop. split; try done.
    + destruct (csrf_header_name p); cbn in *; [done|]. rewrite len_cons in *.
      pose proof (len_nonneg l). lia.
    + eauto.
  - intros [H1 H2 H3 H4 (h & Hh & Hr)]. rewrite H1, H2, bool_decide_false, Hh by done. cbn.
    rewrite (bool_decide_false (_ ∈ _)) by done.
    destruct (csrf_header_name p) as [|ch rest]; [vm_compute in H4; by destruct H4 as [[]]|]. cbn [is_empty orb] in *.
    by rewrite (proj2 (Z.ltb_ge _ _)) by lia.
Qed.

Lemma ends_with_char_false c s : ends_with_char c s = false <-> last s <> Some c.
Proof.
  unfold ends_with_char. destruct (last s); [|done].
  rewrite bool_decide_eq_false. split; congruence.
Qed.

Lemma contains_any_one_false c s : contains_any [c] s = false <-> c ∉ s.
Proof.
  rewrite contains_any_false, Forall_forall. split.
  - intros Hs Hc. apply (Hs c Hc). set_solver.
  - intros Hc d Hd E. assert (d = c) as -> by set_solver. done.
Qed.

Lemma validate_origin_ok o : validate_origin o = Ok () <-> OriginOk o.
Proof.
  unfold validate_origin, OriginOk. split.
  - intros Hv. inv_ok Hv. apply orb_false_iff in E0 as [E0 Elen].
    apply orb_false_iff in E0 as [E0 Elast]. apply orb_false_iff in E0 as [E0 Epath].
    apply orb_false_iff in E0 as [E0 Eat]. apply orb_false_iff in E0 as [Esch Eauth].
    destruct (uri_authority u) as [a|] eqn:Ea; [|done].
    exists u, a. repeat split; try done.
    + apply negb_false_iff in Esch. destruct (uri_scheme_str u) as [s|]; [|done].
      apply orb_prop in Esch as [Es|Es]; apply bool_decide_eq_true_1 in Es; subst; auto.
    + by apply contains_any_one_false.
    + destruct (uri_path_and_query u) as [p|]; [|by left].
      right. by bool_prop; subst.
    + by apply ends_with_char_false.
    + by apply Z.ltb_ge.
  - intros (u & a & Hp & Ha & Hs & Hat & Hpq & Hlast & Hlen). rewrite Hp, Ha.
    rewrite (proj2 (contains_any_one_false _ _) Hat), (proj2 (ends_with_char_false _ _) Hlast).
    rewrite (proj2 (Z.ltb_ge _ _) Hlen).
    destruct Hs as [-> | ->], Hpq as [-> | ->]; done.
Qed.

Lemma try_fold_unit_ok {A} (f : A -> Result str unit) l :
  try_fold (fun _ a => f a) () l = Ok () <-> Forall (fun a => f a = Ok ()) l.
Proof.
  induction l as [|a l IH]; cbn; [split; [constructor | done]|].
  rewrite Forall_cons, <- IH. destruct (f a) as [[]|]; naive_solver.
Qed.

Lemma validate_websocket_ok p : validate_websocket p = Ok () <-> WebSocketOk p.
Proof.
  unfold validate_websocket.
  assert (Hf : try_fold (fun _ o => validate_origin o) () (allowed_origins p) = Ok ()
               <-> Forall OriginOk (allowed_origins p)).
  { rewrite try_fold_unit_ok. apply Forall_iff. intros o. apply validate_origin_ok. }
  split.
  - intros Hv. inv_ok_step Hv. bool_prop. split; [lia | lia | lia | by apply Hf].
  - intros [[Hm Hm'] Hs Ho He]. rewrite (proj2 (Z.eqb_neq _ _) Hm).
    rewrite !(proj2 (Z.ltb_ge _ _)) by lia. by apply Hf.
Qed.

Lemma validate_ok c : validate c = Ok () <-> Valid c.
Proof.
  unfold validate. split.
  - intros Hv. inv_ok Hv. bool_prop. repeat match goal with
      | E : in_range _ _ _ = true |- _ => apply in_range_spec in E end.
    split; [by split | |]; intros p Hp; rewrite Hp in *; repeat match goal with
      | u : unit |- _ => destruct u end.
    + by apply validate_websocket_ok.
    + by apply validate_session_cookie_ok.
  - intros [[] Hw Hs].
    repeat match goal with E : (1 <= _ <= _)%Z |- _ => apply in_range_spec in E; rewrite E; clear E end.
    cbn [negb orb].
    destruct (websocket c) as [p|]; [rewrite (proj2 (validate_websocket_ok p)) by auto|];
      (destruct (session_cookie c) as [q|]; [rewrite (proj2 (validate_session_cookie_ok q)) by auto|]);
      done.
Qed.

Lemma checked_config_ok c c' : checked_config c = Ok c' <-> c' = c /\ Valid c.
Proof.
  unfold checked_config. rewrite <- validate_ok. destruct (validate c) as [[]|]; naive_solver.
Qed.

Lemma duration_millis_ok d ms :
  duration_millis d = Ok ms <-> ms = as_millis d /\ (0 <= as_millis d <= u64_max)%Z.
Proof.
  unfold duration_millis. rewrite <- try_from_range_Some.
  destruct (try_from_range u64_max (as_millis d)); cbn; naive_solver.
Qed.

(** ** The configurations a host can build *)

Inductive Built : WebIngressConfig -> Prop :=
| built_default : Built default_config
| built_websocket c p c' : Built c -> with_websocket c p = Ok c' -> Built c'
| built_bind c a c' : Built c -> with_bind_address c a = Ok c' -> Built c'
| built_limits c b h c' : Built c -> with_request_limits c b h = Ok c' -> Built c'
| built_concurrent c n c' : Built c -> with_max_concurrent_requests c n = Ok c' -> Built c'
| built_connections c n d c' : Built c -> with_connection_limits c n d = Ok c' -> Built c'
| built_read_timeouts c h b c' : Built c -> with_request_read_timeouts c h b = Ok c' -> Built c'
| built_timeout c d c' : Built c -> with_request_timeout c d = Ok c' -> Built c'
| built_grace c d c' : Built c -> with_shutdown_grace_timeout c d = Ok c' -> Built c'
| built_cookie c p c' : Built c -> with_session_cookie c p = Ok c' -> Built c'.

Lemma default_valid : Valid default_config.
Proof. split; [split; vm_compute; (split; discriminate) | |]; intros p Hp; discriminate Hp. Qed.

Lemma with_websocket_valid c p c' : Valid c -> with_websocket c p = Ok c' -> Valid c'.
Proof.
  intros [[] Hw Hs] Hv. unfold with_websocket in Hv. inv_ok Hv. subst c'.
  destruct value. apply validate_websocket_ok in E.
  split; [by split | intros q Hq; cbn in Hq; congruence | done].
Qed.

Lemma checked_after_millis d k c' :
  (let? ms := duration_millis d in checked_config (k ms)) = Ok c' ->
  c' = k (as_millis d) /\ Valid c'.
Proof.
  intros Hv. inv_ok_step Hv. apply duration_millis_ok in E as [-> _].
  apply checked_config_ok in Hv as [-> ?]. done.
Qed.

(** C40: validation accepts a configuration exactly when it satisfies all the documented bounds, its WebSocket policy
    lists only exact serialized HTTP origins within the message and session budgets, and its session policy names two
    distinct [__Host-] cookies and a dedicated CSRF header; and every configuration that the builders can produce from
    the default, in any order and number of steps, is accepted. *)
Theorem built_valid c : (validate c = Ok () <-> Valid c) /\ (Built c -> Valid c).
Proof.
  split; [apply validate_ok|].
  induction 1 as [| c p c' _ IH Hb | c a c' _ IH Hb | c b h c' _ IH Hb | c n c' _ IH Hb
    | c n d c' _ IH Hb | c h b c' _ IH Hb | c d c' _ IH Hb | c d c' _ IH Hb | c p c' _ IH Hb].
  - apply default_valid.
  - by eapply with_websocket_valid.
  - by apply checked_config_ok in Hb as [-> ?].
  - by apply checked_config_ok in Hb as [-> ?].
  - by apply checked_config_ok in Hb as [-> ?].
  - by apply checked_after_millis in Hb as [_ ?].
  - unfold with_request_read_timeouts in Hb. inv_ok_step Hb. by apply checked_after_millis in Hb as [_ ?].
  - by apply checked_after_millis in Hb as [_ ?].
  - by apply checked_after_millis in Hb as [_ ?].
  - by apply checked_config_ok in Hb as [-> ?].
Qed.

(** Replacing the request deadline of a valid configuration succeeds exactly for durations
    whose whole milliseconds lie in 1..=300000, and then the deadline in force is the requested
    one rounded down to a millisecond; everything else is rejected. *)
Lemma with_request_timeout_exact c d : Valid c ->
  (exists c', with_request_timeout c d = Ok c' /\ request_timeout c' = (d - d mod 1000000)%Z)
  <-> (1 <= as_millis d <= MAX_TIMEOUT_MILLIS)%Z.
Proof.
  intros [[] Hw Hs]. unfold with_request_timeout. split.
  - intros (c' & Hc & _). apply checked_after_millis in Hc as [-> [[] _ _]]. done.
  - intros Hd. rewrite (proj2 (duration_millis_ok d (as_millis d))).
    2: { split; [done|]. unfold MAX_TIMEOUT_MILLIS, u64_max in *. lia. }
    eexists. split; [apply checked_config_ok; split; [done|];
      split; [by split | exact Hw | exact Hs]|].
    unfold request_timeout, from_millis, as_millis in *; cbn.
    pose proof (Z.div_mod d 1000000). lia.
Qed.

Lemma concurrency_fits_u32 c : Valid c ->
  try_from_range u32_max (max_concurrent_requests c) = Some (max_concurrent_requests c).
Proof.
  intros [[] _ _]. apply try_from_range_Some. unfold MAX_CONCURRENT_REQUESTS, u32_max in *.
  split; [done | lia].
Qed.
End config.

(** ** Witnesses *)

#[local] Existing Instance ref_http.
#[local] Existing Instance ref_http_laws.

Definition sample_session_cookie : SessionCookieConfig :=
  mkSessionCookieConfig (lit "__Host-session") (lit "__Host-csrf") (lit "X-CSRF-Token").

Definition sample_websocket : WebSocketConfig := mkWebSocketConfig [lit "https://app.example"] 65536 1048576.

Definition sample_cookie_config : WebIngressConfig :=
  default default_config (ok (with_session_cookie default_config sample_session_cookie)).
Definition sample_config : WebIngressConfig :=
  default default_config (ok (with_websocket sample_cookie_config sample_websocket)).

Example sample_config_policies :
  session_cookie sample_config = Some sample_session_cookie /\ websocket sample_config = Some sample_websocket.
Proof. split; vm_compute; reflexivity. Qed.

Lemma built_valid_witness : Valid sample_config.
Proof.
  apply (proj2 (built_valid sample_config)), (built_websocket sample_cookie_config sample_websocket).
  - apply (built_cookie default_config sample_session_cookie); [apply built_default|].
    vm_compute; reflexivity.
  - vm_compute; reflexivity.
Defined.

End Config.
