(* ===== verification/SessionCookie.v ===== *)
(** * Credential selection ([lenso-web-ingress-plugin/src/session_cookie.rs])

    A request may carry an [Authorization] field or a session cookie; the component
    decides which one becomes the credential evidence of the endpoint call, and enforces
    the double-submit CSRF rule for cookies. The specification below describes the cookie
    headers as a list of entries, independently of the loop that scans them. *)
From S2P Require Import Prelude RustStd HttpCrate RefHttp Config.

Module SessionCookie.
Import Config.

Record CredentialEvidence := mkEvidence { scheme : str; value : str }.
#[global] Instance CredentialEvidence_eq_dec : EqDecision CredentialEvidence.
Proof. solve_decision. Defined.

Inductive CredentialRejection := BadRequest | CsrfForbidden.
#[global] Instance CredentialRejection_eq_dec : EqDecision CredentialRejection.
Proof. solve_decision. Defined.

Record SelectedCookies := mkSelected { session : option str; csrf : option str }.

(** [cookie_octet] of RFC 6265. *)
Definition cookie_octet (byte : ascii) : bool :=
  let b := byte_val byte in
  (b =? 33)%Z || in_range 35 43 b || in_range 45 58 b || in_range 60 91 b || in_range 93 126 b.

Definition quote : ascii := ascii_of_N 34.

Definition normalized_cookie_value (value : str) : Result CredentialRejection str :=
  let? value := if starts_with_char quote value || ends_with_char quote value
                then ok_or BadRequest (strip_prefix [quote] value ≫= strip_suffix [quote])
                else Ok value in
  if forallb cookie_octet value then Ok value else Err BadRequest.

(** Writing through [&mut Option<String>] is returning the new content. *)
Definition insert_cookie (target : option str) (value : str) : Result CredentialRejection (option str) :=
  match target with
  | Some _ => Err BadRequest
  | None =>
      let? value := normalized_cookie_value (trim value) in
      if is_empty value then Err BadRequest else Ok (Some value)
  end.

(** Constant-time comparison: the bytes are xored and the differences or-ed. *)
Definition tokens_match (left right : str) : bool :=
  if negb (len left =? len right)%Z then false
  else (foldl (fun difference p => Z.lor difference (Z.lxor (byte_val p.1) (byte_val p.2)))
          0%Z (zip left right) =? 0)%Z.

Section session_cookie.
Context `{HttpCrate}.

Record SessionCookiePolicy := mkPolicy {
  policy_name : str;
  policy_csrf_cookie_name : str;
  policy_csrf_header_name : HeaderName;
}.

(** [SessionCookiePolicy::from]; the [expect] panics on an invalid header name. *)
Definition policy_from (config : SessionCookieConfig) : Outcome SessionCookiePolicy :=
  let^ header := expect (hn_from_bytes (csrf_header_name config)) in
  Returned (mkPolicy (name config) (csrf_cookie_name config) header).

Definition safe_method (method : Method) : bool :=
  bool_decide (method = GET) || bool_decide (method = HEAD)
  || bool_decide (method = OPTIONS) || bool_decide (method = TRACE)
  || eq_ignore_ascii_case (m_as_str method) (lit "QUERY").

Definition single_header (headers : HeaderMap) (name : HeaderName) :
    Result CredentialRejection (option str) :=
  match hm_get_all name headers with
  | [] => Ok None
  | value :: rest =>
      if negb (is_empty rest) then Err BadRequest
      else let! s := hv_to_str value else Err BadRequest in Ok (Some s)
  end.

Definition authorization_credential (headers : HeaderMap) :
    Result CredentialRejection (option CredentialEvidence) :=
  let? found := single_header headers AUTHORIZATION in
  let! value := found else Ok None in
  let! (scheme, value) := split_once " " value else Err BadRequest in
  if is_empty scheme || is_empty value then Err BadRequest else
  if (eq_ignore_ascii_case scheme (lit "bearer") || eq_ignore_ascii_case scheme (lit "basic"))
     && existsb (fun byte => bool_decide (byte = ","%char) || is_ascii_whitespace byte) value
  then Err BadRequest else
  Ok (Some (mkEvidence (to_ascii_lowercase scheme) value)).

(** One trimmed, non-empty cookie pair. *)
Definition select_pair (policy : SessionCookiePolicy) (selected : SelectedCookies) (pair : str) :
    Result CredentialRejection SelectedCookies :=
  match split_once "=" pair with
  | None =>
      if bool_decide (pair = policy_name policy) || bool_decide (pair = policy_csrf_cookie_name policy)
      then Err BadRequest else Ok selected
  | Some (name, value) =>
      let name := trim name in
      if bool_decide (name = policy_name policy) then
        let? s := insert_cookie (session selected) value in
        Ok (mkSelected s (csrf selected))
      else if bool_decide (name = policy_csrf_cookie_name policy) then
        let? c := insert_cookie (csrf selected) value in
        Ok (mkSelected (session selected) c)
      else Ok selected
  end.

Definition cookie_pieces (header : str) : list str :=
  filter (fun pair => is_empty pair = false) (trim <$> split ";" header).

Definition selected_cookies (headers : HeaderMap) (policy : SessionCookiePolicy) :
    Result CredentialRejection SelectedCookies :=
  try_fold (fun selected header =>
      let! header := hv_to_str header else Err BadRequest in
      try_fold (select_pair policy) selected (cookie_pieces header))
    (mkSelected None None) (hm_get_all COOKIE headers).

Definition select_credential (method : Method) (headers : HeaderMap)
    (session_cookie : option SessionCookiePolicy) :
    Result CredentialRejection (option CredentialEvidence) :=
  let? authorization := authorization_credential headers in
  let! policy := session_cookie else Ok authorization in
  let? cookies := selected_cookies headers policy in
  let! session := session cookies else Ok authorization in
  if match authorization with Some _ => true | None => false end then Err BadRequest else
  let? _ :=
    if negb (safe_method method) then
      let? csrf_cookie := ok_or CsrfForbidden (csrf cookies) in
      let? found := single_header headers (policy_csrf_header_name policy) in
      let? csrf_header := ok_or CsrfForbidden found in
      if is_empty csrf_header || negb (tokens_match csrf_cookie csrf_header)
      then Err CsrfForbidden else Ok ()
    else Ok () in
  Ok (Some (mkEvidence (lit "session") session)).

(** ** Specification: the entries of the cookie headers *)

(** One entry: its trimmed name and, if it has a [=], its raw value. *)
Definition entry_of (pair : str) : str * option str :=
  match split_once "=" pair with
  | Some (name, value) => (trim name, Some value)
  | None => (pair, None)
  end.

(** All entries, when every cookie header is readable text. *)
Definition cookie_entries (headers : HeaderMap) : option (list (str * option str)) :=
  texts ← mapM hv_to_str (hm_get_all COOKIE headers);
  Some (entry_of <$> concat (cookie_pieces <$> texts)).

(** The raw values given to one name, in order. *)
Definition values_of (name : str) (entries : list (str * option str)) : list (option str) :=
  (filter (fun e => e.1 = name) entries).*2.

(** A cookie is absent, or given exactly once with a well-formed non-empty value. *)
Definition CookieIs (name : str) (entries : list (str * option str)) (o : option str) : Prop :=
  match values_of name entries with
  | [] => o = None
  | [Some raw] => exists v, normalized_cookie_value (trim raw) = Ok v /\ v <> [] /\ o = Some v
  | _ => False
  end.

Definition policy_distinct (p : SessionCookiePolicy) : Prop :=
  policy_name p <> policy_csrf_cookie_name p.

(** ** Lemmas *)

Lemma single_header_ok h n o :
  single_header h n = Ok o <->
  match hm_get_all n h with
  | [] => o = None
  | [v] => exists s, hv_to_str v = Some s /\ o = Some s
  | _ => False
  end.
Proof.
  unfold single_header. destruct (hm_get_all n h) as [|v [|w l]]; cbn.
  - naive_solver.
  - destruct (hv_to_str v); naive_solver.
  - naive_solver.
Qed.

Lemma insert_cookie_ok t raw o :
  insert_cookie t raw = Ok o <->
  t = None /\ exists v, normalized_cookie_value (trim raw) = Ok v /\ v <> [] /\ o = Some v.
Proof.
  unfold insert_cookie. destruct t; [naive_solver|].
  destruct (normalized_cookie_value (trim raw)) as [v|]; [|naive_solver].
  destruct v; cbn; naive_solver.
Qed.

Lemma select_pair_ok p sel pair sel' :
  select_pair p sel pair = Ok sel' <->
  let e := entry_of pair in
  if decide (e.1 = policy_name p) then
    csrf sel' = csrf sel /\ exists raw, e.2 = Some raw /\ insert_cookie (session sel) raw = Ok (session sel')
  else if decide (e.1 = policy_csrf_cookie_name p) then
    session sel' = session sel /\ exists raw, e.2 = Some raw /\ insert_cookie (csrf sel) raw = Ok (csrf sel')
  else sel' = sel.
Proof.
  unfold select_pair, entry_of. destruct sel' as [s' c']; cbn [session csrf].
  destruct (split_once "=" pair) as [[n v]|]; cbn [fst snd].
  - destruct (decide (trim n = policy_name p)); [rewrite bool_decide_true by done|rewrite bool_decide_false by done].
    + destruct (insert_cookie (session sel) v) as [s|] eqn:E; (split;
        [intros ?; simplify_eq; eauto | intros (? & raw & ? & Hi); simplify_eq; congruence]).
    + destruct (decide (trim n = policy_csrf_cookie_name p));
        [rewrite bool_decide_true by done | rewrite bool_decide_false by done].
      * destruct (insert_cookie (csrf sel) v) as [c|] eqn:E; (split;
          [intros ?; simplify_eq; eauto | intros (? & raw & ? & Hi); simplify_eq; congruence]).
      * split; [by intros [= ->] | by intros <-].
  - destruct (decide (pair = policy_name p)), (decide (pair = policy_csrf_cookie_name p));
      repeat case_bool_decide; cbn; try congruence;
      (split; [intros ?; simplify_eq; eauto | first [intros (? & raw & ? & Hi); simplify_eq | by intros <-]]).
Qed.

Lemma values_of_snoc n es e :
  values_of n (es ++ [e]) = values_of n es ++ (if decide (e.1 = n) then [e.2] else []).
Proof.
  unfold values_of. rewrite filter_app, fmap_app, filter_cons.
  by destruct (decide (e.1 = n)).
Qed.

Lemma CookieIs_None n es : CookieIs n es None <-> values_of n es = [].
Proof. unfold CookieIs. destruct (values_of n es) as [|[raw|] [|]]; naive_solver. Qed.

Lemma CookieIs_snoc n es e o :
  CookieIs n (es ++ [e]) o <->
  if decide (e.1 = n) then CookieIs n es None /\ exists raw, e.2 = Some raw /\ insert_cookie None raw = Ok o
  else CookieIs n es o.
Proof.
  unfold CookieIs at 1. rewrite values_of_snoc.
  destruct (decide (e.1 = n)); [|by rewrite app_nil_r].
  rewrite CookieIs_None.
  setoid_rewrite insert_cookie_ok. destruct e as [k [raw|]]; cbn [fst snd];
    destruct (values_of n es) as [|[?|] [|]]; cbn; naive_solver.
Qed.

Lemma CookieIs_functional n es o1 o2 : CookieIs n es o1 -> CookieIs n es o2 -> o1 = o2.
Proof. unfold CookieIs. destruct (values_of n es) as [|[raw|] [|]]; naive_solver congruence. Qed.

Lemma select_pairs_ok p pairs sel : policy_distinct p ->
  try_fold (select_pair p) (mkSelected None None) pairs = Ok sel <->
  CookieIs (policy_name p) (entry_of <$> pairs) (session sel)
  /\ CookieIs (policy_csrf_cookie_name p) (entry_of <$> pairs) (csrf sel).
Proof.
  intros Hd. revert sel; induction pairs as [|pair pairs IH] using rev_ind; intros sel.
  - cbn. unfold CookieIs. cbn. destruct sel; cbn. split; [by intros [= <- <-]|naive_solver].
  - rewrite try_fold_app, fmap_app. cbn [fmap list_fmap].
    rewrite !CookieIs_snoc.
    assert (E : (let? s' := try_fold (select_pair p) (mkSelected None None) pairs in
                 try_fold (select_pair p) s' [pair]) = Ok sel <->
      exists s, (CookieIs (policy_name p) (entry_of <$> pairs) (session s)
                 /\ CookieIs (policy_csrf_cookie_name p) (entry_of <$> pairs) (csrf s))
                /\ select_pair p s pair = Ok sel).
    { setoid_rewrite <- IH. destruct (try_fold _ _ pairs) as [s|]; cbn;
        [|split; [done | by intros (? & ? & ?)]].
      assert (Hid : (let? s' := select_pair p s pair in Ok s') = select_pair p s pair)
        by by destruct (select_pair p s pair).
      rewrite Hid. split; [by exists s | by intros (? & [= <-] & ?)]. }
    rewrite E. setoid_rewrite select_pair_ok. cbn zeta. clear E IH. unfold policy_distinct in Hd.
    destruct sel as [ss cc]; cbn [session csrf]. destruct (entry_of pair) as [k v]; cbn [fst snd].
    destruct (decide (k = policy_name p)) as [Hk|], (decide (k = policy_csrf_cookie_name p));
      [congruence| | |]; try setoid_rewrite insert_cookie_ok; split.
    + intros ([s c] & [Hs Hc] & Hx & raw & Hr & Hn & Hi); cbn in *. subst.
      split; [split; [done | by exists raw] | done].
    + intros [[Hs (raw & -> & _ & Hi)] Hc]. exists (mkSelected None cc); cbn.
      split; [done | split; [done | by exists raw]].
    + intros ([s c] & [Hs Hc] & Hx & raw & Hr & Hn & Hi); cbn in *. subst.
      split; [done | split; [done | by exists raw]].
    + intros [Hs [Hc (raw & -> & _ & Hi)]]. exists (mkSelected ss None); cbn.
      split; [done | split; [done | by exists raw]].
    + intros ([s c] & [Hs Hc] & Hx). by simplify_eq.
    + intros [Hs Hc]. by exists (mkSelected ss cc).
Qed.

Lemma selected_cookies_flat h p sel :
  selected_cookies h p = Ok sel <->
  exists texts, mapM hv_to_str (hm_get_all COOKIE h) = Some texts
    /\ try_fold (select_pair p) (mkSelected None None) (concat (cookie_pieces <$> texts)) = Ok sel.
Proof.
  unfold selected_cookies. generalize (mkSelected None None).
  induction (hm_get_all COOKIE h) as [|v vs IH]; intros s; cbn.
  - split; [intros Hs; by exists [] | by intros (ts & [= <-] & Hs)].
  - destruct (hv_to_str v) as [t|]; cbn; [|by split; [|intros (? & ? & ?)]].
    destruct (try_fold (select_pair p) s (cookie_pieces t)) as [s'|] eqn:E.
    + rewrite IH. split.
      * intros (ts & -> & Hf). exists (t :: ts). by rewrite fmap_cons, concat_cons, try_fold_app, E.
      * intros (ts & Hm & Hf). destruct (mapM hv_to_str vs) as [ts'|]; cbn in Hm; [|done].
        injection Hm as <-. exists ts'. split; [done|]. by rewrite fmap_cons, concat_cons, try_fold_app, E in Hf.
    + split; [done|]. intros (ts & Hm & Hf). destruct (mapM hv_to_str vs); cbn in Hm; [|done].
      injection Hm as <-. by rewrite fmap_cons, concat_cons, try_fold_app, E in Hf.
Qed.

Lemma selected_cookies_ok h p sel : policy_distinct p ->
  selected_cookies h p = Ok sel <->
  exists es, cookie_entries h = Some es
    /\ CookieIs (policy_name p) es (session sel) /\ CookieIs (policy_csrf_cookie_name p) es (csrf sel).
Proof.
  intros Hd. rewrite selected_cookies_flat. setoid_rewrite (select_pairs_ok p _ sel Hd).
  unfold cookie_entries. destruct (mapM hv_to_str (hm_get_all COOKIE h)) as [ts|]; cbn; naive_solver.
Qed.

Lemma fold_difference_0 acc l : (0 <= acc)%Z ->
  (foldl (fun d p => Z.lor d (Z.lxor (byte_val p.1) (byte_val p.2))) acc l = 0
   <-> acc = 0 /\ Forall (fun p => p.1 = p.2) l)%Z.
Proof.
  revert acc; induction l as [|[a b] l IH]; intros acc Hacc; cbn [foldl fst snd].
  - naive_solver.
  - rewrite IH, Z.lor_eq_0_iff, Z.lxor_eq_0_iff, Forall_cons; cbn [fst snd].
    + pose proof (byte_val_inj a b). naive_solver.
    + apply Z.lor_nonneg. split; [done|]. apply Z.lxor_nonneg.
      pose proof (byte_val_range a). pose proof (byte_val_range b). lia.
Qed.

Lemma tokens_match_spec l r : tokens_match l r = true <-> l = r.
Proof.
  unfold tokens_match. destruct (Z.eqb_spec (len l) (len r)) as [E|E]; cbn.
  - rewrite Z.eqb_eq, fold_difference_0 by done. unfold len in E. apply Nat2Z.inj in E.
    split.
    + intros [_ Hf]. revert r E Hf; induction l as [|a l IH]; intros [|b r] E Hf; try done.
      apply Forall_cons in Hf as [Hab Hf]. cbn in Hab. subst b. f_equal. apply IH; [by injection E|done].
    + intros <-. split; [done|]. clear E. induction l; cbn; by constructor.
  - split; [done|]. by intros ->.
Qed.

Lemma authorization_none h : hm_get_all AUTHORIZATION h = [] -> authorization_credential h = Ok None.
Proof. intros E. unfold authorization_credential, single_header. by rewrite E. Qed.

Lemma authorization_ok_none h : authorization_credential h = Ok None -> hm_get_all AUTHORIZATION h = [].
Proof.
  unfold authorization_credential, single_header.
  destruct (hm_get_all AUTHORIZATION h) as [|v [|w l]]; [done| |done]. cbn.
  repeat (case_match; try done).
Qed.

(** ** Properties *)

(** C1: when the session cookie is present, a request gets the session credential exactly when
    there is no [Authorization] field, both cookies are given at most once with well-formed
    non-empty values, and, for every method that is not safe, the single CSRF header repeats the
    value of the CSRF cookie. In every other case the request is rejected: no request with a session
    cookie passes as anonymous or with another credential. *)
Theorem session_credential_exact m h p es ev :
  policy_distinct p -> cookie_entries h = Some es -> values_of (policy_name p) es <> [] ->
  select_credential m h (Some p) = Ok ev <->
  exists v, ev = Some (mkEvidence (lit "session") v)
    /\ CookieIs (policy_name p) es (Some v)
    /\ hm_get_all AUTHORIZATION h = []
    /\ exists c, CookieIs (policy_csrf_cookie_name p) es c
       /\ (safe_method m = true
           \/ exists t hv, c = Some t /\ t <> []
                /\ hm_get_all (policy_csrf_header_name p) h = [hv] /\ hv_to_str hv = Some t).
Proof.
  intros Hd He Hv. unfold select_credential. split.
  - intros Hs. inv_ok_step Hs. destruct (selected_cookies h p) as [[s c]|] eqn:Ec; [|done].
    apply selected_cookies_ok in Ec as (es' & He' & Hn & Hc); [|done].
    assert (es' = es) as -> by congruence. cbn [session csrf] in *.
    destruct s as [v|]; [|by apply CookieIs_None in Hn].
    destruct value0 as [a|]; [done|]. apply authorization_ok_none in E.
    exists v. destruct (safe_method m) eqn:Em; cbn [negb] in Hs.
    + injection Hs as <-. naive_solver.
    + destruct c as [t|]; cbn in Hs; [|done].
      destruct (single_header h (policy_csrf_header_name p)) as [o|] eqn:Eh; [|done].
      destruct o as [t'|]; cbn in Hs; [|done].
      destruct (is_empty t' || negb (tokens_match t t')) eqn:Et; [done|]. injection Hs as <-.
      apply orb_false_elim in Et as [Et1 Et2]. apply negb_false_iff, tokens_match_spec in Et2 as ->.
      apply single_header_ok in Eh. destruct (hm_get_all (policy_csrf_header_name p) h) as [|hv [|]] eqn:Eg; try done.
      destruct Eh as (s & Hstr & [= ->]). repeat (split; [done|]). exists (Some s).
      split; [done|]. right. exists s, hv. split; [done|]. split; [by destruct s|]. done.
  - intros (v & -> & Hn & Ha & c & Hc & Hm). rewrite (authorization_none _ Ha).
    rewrite (proj2 (selected_cookies_ok h p (mkSelected (Some v) c) Hd)) by naive_solver.
    cbn [session csrf]. destruct Hm as [Hm | (t & hv & -> & Ht & Hg & Hs)]; [by rewrite Hm|].
    destruct (safe_method m); [done|]. cbn.
    rewrite (proj2 (single_header_ok h (policy_csrf_header_name p) (Some t))); cbn.
    2: { rewrite Hg. eauto. }
    rewrite (proj2 (tokens_match_spec t t) eq_refl). by destruct t.
Qed.

(** The [Authorization] field stands for this evidence: it is given once, is readable text
    with a scheme and a value separated by the first space, and, for [bearer] and [basic], the
    value has no comma and no whitespace (which a host that folds repeated fields would
    introduce); the scheme is lower-cased, the value is kept. *)
Definition AuthorizationIs (h : HeaderMap) (ev : CredentialEvidence) : Prop :=
  exists hv sch, hm_get_all AUTHORIZATION h = [hv]
    /\ hv_to_str hv = Some (sch ++ " "%char :: value ev)
    /\ " "%char ∉ sch /\ sch <> [] /\ value ev <> []
    /\ scheme ev = to_ascii_lowercase sch
    /\ (scheme ev = lit "bearer" \/ scheme ev = lit "basic" ->
        Forall (fun c => c <> ","%char /\ is_ascii_whitespace c = false) (value ev)).

Lemma authorization_evidence_exact h ev : authorization_credential h = Ok (Some ev) <-> AuthorizationIs h ev.
Proof.
  unfold authorization_credential, AuthorizationIs.
  assert (Hany : forall v, existsb (fun byte => bool_decide (byte = ","%char) || is_ascii_whitespace byte) v = false
      <-> Forall (fun c => c <> ","%char /\ is_ascii_whitespace c = false) v).
  { intros v. induction v as [|c v IH]; cbn; [done|].
    rewrite Forall_cons, orb_false_iff, IH, orb_false_iff, bool_decide_eq_false. done. }
  assert (Hsch : forall sch, eq_ignore_ascii_case sch (lit "bearer") || eq_ignore_ascii_case sch (lit "basic") = true
      <-> to_ascii_lowercase sch = lit "bearer" \/ to_ascii_lowercase sch = lit "basic").
  { intros sch. rewrite orb_true_iff, !eq_ignore_ascii_case_spec. done. }
  split.
  - intros Ha. destruct (single_header h AUTHORIZATION) as [[t|]|] eqn:Es; try done.
    apply single_header_ok in Es. destruct (hm_get_all AUTHORIZATION h) as [|hv [|]]; try done.
    destruct Es as (t' & Ht & [= ->]). destruct (split_once " " t') as [[sch v]|] eqn:Esp; [|done].
    apply split_once_Some in Esp as [-> Hsp]. inv_ok Ha.
    subst ev. bool_prop. exists hv, sch. cbn [value scheme]. repeat split; try done.
    + intros ->. done.
    + intros ->. done.
    + intros Hb. apply Hany. apply Hsch in Hb. by rewrite Hb in E0.
  - intros (hv & sch & Hg & Ht & Hsp & Hs & Hv & Hsc & Hf).
    rewrite (proj2 (single_header_ok h AUTHORIZATION (Some (sch ++ " "%char :: value ev)))).
    2: { rewrite Hg. eauto. }
    rewrite (proj2 (split_once_Some _ _ sch (value ev))) by done.
    destruct ev as [sc v]; cbn [scheme value] in *. subst sc.
    destruct (_ || _) eqn:Ee; [apply orb_prop in Ee as [Ee|Ee]; by apply is_empty_spec in Ee|].
    destruct (eq_ignore_ascii_case sch (lit "bearer") || eq_ignore_ascii_case sch (lit "basic")) eqn:Eb; [|done].
    apply Hsch in Eb. rewrite (proj2 (Hany v)) by auto. done.
Qed.

(** C2: without a session policy the credential is exactly the [Authorization] evidence: a scheme and a value, given
    once, with no comma or blank in a bearer or basic value; with a policy whose session cookie is absent it is the
    same, and a malformed cookie header still rejects the request. *)
Theorem authorization_credential_exact m h p :
  policy_distinct p ->
  (forall ev, select_credential m h None = Ok (Some ev) <-> AuthorizationIs h ev)
  /\ (forall es c, cookie_entries h = Some es -> values_of (policy_name p) es = [] ->
        CookieIs (policy_csrf_cookie_name p) es c ->
        select_credential m h (Some p) = select_credential m h None)
  /\ (cookie_entries h = None -> exists e, select_credential m h (Some p) = Err e).
Proof.
  intros Hd. split; [|split].
  - intros ev. rewrite <- authorization_evidence_exact. unfold select_credential. by destruct (authorization_credential h).
  - intros es c He Hv Hc. unfold select_credential.
    rewrite (proj2 (selected_cookies_ok h p (mkSelected None c) Hd)).
    2: { exists es. cbn. by rewrite CookieIs_None. }
    by destruct (authorization_credential h).
  - intros He. unfold select_credential. destruct (authorization_credential h); [|by eexists].
    destruct (selected_cookies h p) as [sel|] eqn:Es; [|by eexists].
    apply selected_cookies_ok in Es as (es & He' & _); [congruence | done].
Qed.

(** The [expect] in [SessionCookiePolicy::from] cannot fire on a validated configuration. *)
Lemma policy_from_valid p : SessionCookieOk p ->
  exists q, policy_from p = Returned q /\ policy_distinct q
    /\ hn_as_str (policy_csrf_header_name q) ∉ reserved_csrf_headers.
Proof.
  intros [_ _ Hd _ (h & Hh & Hr)]. unfold policy_from. rewrite Hh. cbn. eauto.
Qed.
End session_cookie.

(** ** Witnesses *)

#[local] Existing Instance ref_http.
#[local] Existing Instance ref_http_laws.

Definition sample_policy : SessionCookiePolicy :=
  mkPolicy (lit "__Host-session") (lit "__Host-csrf") (static_name (lit "x-csrf-token")).
Definition sample_headers : HeaderMap :=
  ref_headers [("cookie", "theme=dark; __Host-session=abc; __Host-csrf=tok")%string;
               ("x-csrf-token", "tok")%string].
Definition sample_entries : list (str * option str) :=
  [(lit "theme", Some (lit "dark")); (lit "__Host-session", Some (lit "abc"));
   (lit "__Host-csrf", Some (lit "tok"))].

Lemma session_credential_exact_witness :
  select_credential (m_const (lit "POST")) sample_headers (Some sample_policy)
    = Ok (Some (mkEvidence (lit "session") (lit "abc"))) <->
  exists v, Some (mkEvidence (lit "session") (lit "abc")) = Some (mkEvidence (lit "session") v)
    /\ CookieIs (policy_name sample_policy) sample_entries (Some v)
    /\ hm_get_all AUTHORIZATION sample_headers = []
    /\ exists c, CookieIs (policy_csrf_cookie_name sample_policy) sample_entries c
       /\ (safe_method (m_const (lit "POST")) = true
           \/ exists t hv, c = Some t /\ t <> []
                /\ hm_get_all (policy_csrf_header_name sample_policy) sample_headers = [hv]
                /\ hv_to_str hv = Some t).
Proof.
  apply (session_credential_exact (m_const (lit "POST")) sample_headers sample_policy sample_entries).
  - vm_compute. discriminate.
  - vm_compute. reflexivity.
  - vm_compute. discriminate.
Defined.

Example session_credential_accepted :
  select_credential (m_const (lit "POST")) sample_headers (Some sample_policy)
  = Ok (Some (mkEvidence (lit "session") (lit "abc"))).
Proof. vm_compute. reflexivity. Qed.

Example session_credential_forged :
  select_credential (m_const (lit "POST"))
    (hm_insert (static_name (lit "x-csrf-token")) (RefValue (lit "bad") false) sample_headers)
    (Some sample_policy) = Err CsrfForbidden.
Proof. vm_compute. reflexivity. Qed.

Lemma authorization_credential_exact_witness :
  (forall ev, select_credential GET sample_headers None = Ok (Some ev) <-> AuthorizationIs sample_headers ev)
  /\ (forall es c, cookie_entries sample_headers = Some es -> values_of (policy_name sample_policy) es = [] ->
        CookieIs (policy_csrf_cookie_name sample_policy) es c ->
        select_credential GET sample_headers (Some sample_policy) = select_credential GET sample_headers None)
  /\ (cookie_entries sample_headers = None ->
      exists e, select_credential GET sample_headers (Some sample_policy) = Err e).
Proof. apply (authorization_credential_exact GET sample_headers sample_policy). vm_compute. discriminate. Defined.

Example authorization_folded_bearer :
  authorization_credential (ref_headers [("authorization", "Bearer a, Bearer b")%string]) = Err BadRequest.
Proof. vm_compute. reflexivity. Qed.

End SessionCookie.
