(* ===== verification/WebSocket.v ===== *)
(** * WebSocket sessions ([lenso-web-ingress-plugin/src/websocket.rs])

    Frame validation and the session shared by the socket and event transports. The
    session is a single-threaded shared object: [send] and [receive] are futures that may
    be suspended at their [await], during which other calls run. Each call is therefore
    split at its suspension point ([send_begin]/[send_finish], [receive_begin]/
    [receive_event]); dropping a suspended future runs the [Active] guard ([send_drop],
    [receive_drop]). [Reachable] interleaves these pieces in every order; [send] and
    [receive] are the uninterrupted calls. *)
From S2P Require Import Prelude RustStd Kernel.

Module WebSocket.

(** [ConnectWebsocketResponseKind] and [ConnectWebsocketResponse] of the generated contract. *)
Inductive Kind := Accept | Text | Binary | Close.
#[global] Instance Kind_eq_dec : EqDecision Kind.
Proof. solve_decision. Defined.

Record Frame := mkFrame {
  kind : Kind;
  protocol : option str;
  text : option str;
  body : option str;
  code : option Z;
  reason : option str;
}.

Definition is_some {A} (o : option A) : bool := match o with Some _ => true | None => false end.
Definition is_none {A} (o : option A) : bool := negb (is_some o).
Definition is_some_and {A} (p : A -> bool) (o : option A) : bool := match o with Some a => p a | None => false end.
Definition is_none_or {A} (p : A -> bool) (o : option A) : bool := match o with Some a => p a | None => true end.

Definition failure : RuntimeFailure := plugin_failure (lit "invalid WebSocket session").

Definition no_payload (frame : Frame) : bool := is_none (text frame) && is_none (body frame).

Definition close_code (c : Z) : bool := in_range 1000 1003 c || in_range 1007 1014 c || in_range 3000 4999 c.

Definition validate_frame (frame : Frame) (limit : Z) : Result RuntimeFailure unit :=
  if is_some (protocol frame) then Err failure else
  let valid :=
    match kind frame with
    | Text => is_some_and (fun t => len t <=? limit)%Z (text frame)
              && is_none (body frame) && is_none (code frame) && is_none (reason frame)
    | Binary => is_some_and (fun b => len b <=? limit)%Z (body frame)
              && is_none (text frame) && is_none (code frame) && is_none (reason frame)
    | Close => no_payload frame && is_some_and close_code (code frame)
              && is_none_or (fun r => len r <=? 123)%Z (reason frame)
    | Accept => false
    end in
  if valid then Ok () else Err failure.

(** [permit] says whether the session holds its semaphore permit. *)
Record WebSocketSession := mkSession {
  permit : bool;
  stream : NativeStream Frame;
  session_protocol : option str;
  message_limit : Z;
  session_limit : Z;
  transferred : Z;
  cancelled : bool;
  terminal : bool;
  sent_close : bool;
  received_close : bool;
  reading : bool;
  writing : bool;
}.

Definition set_permit b s := mkSession b (stream s) (session_protocol s) (message_limit s) (session_limit s)
  (transferred s) (cancelled s) (terminal s) (sent_close s) (received_close s) (reading s) (writing s).
Definition set_stream st s := mkSession (permit s) st (session_protocol s) (message_limit s) (session_limit s)
  (transferred s) (cancelled s) (terminal s) (sent_close s) (received_close s) (reading s) (writing s).
Definition set_transferred n s := mkSession (permit s) (stream s) (session_protocol s) (message_limit s) (session_limit s)
  n (cancelled s) (terminal s) (sent_close s) (received_close s) (reading s) (writing s).
Definition set_cancelled b s := mkSession (permit s) (stream s) (session_protocol s) (message_limit s) (session_limit s)
  (transferred s) b (terminal s) (sent_close s) (received_close s) (reading s) (writing s).
Definition set_terminal b s := mkSession (permit s) (stream s) (session_protocol s) (message_limit s) (session_limit s)
  (transferred s) (cancelled s) b (sent_close s) (received_close s) (reading s) (writing s).
Definition set_sent_close b s := mkSession (permit s) (stream s) (session_protocol s) (message_limit s) (session_limit s)
  (transferred s) (cancelled s) (terminal s) b (received_close s) (reading s) (writing s).
Definition set_received_close b s := mkSession (permit s) (stream s) (session_protocol s) (message_limit s) (session_limit s)
  (transferred s) (cancelled s) (terminal s) (sent_close s) b (reading s) (writing s).
Definition set_reading b s := mkSession (permit s) (stream s) (session_protocol s) (message_limit s) (session_limit s)
  (transferred s) (cancelled s) (terminal s) (sent_close s) (received_close s) b (writing s).
Definition set_writing b s := mkSession (permit s) (stream s) (session_protocol s) (message_limit s) (session_limit s)
  (transferred s) (cancelled s) (terminal s) (sent_close s) (received_close s) (reading s) b.

(** [permit.borrow_mut().take()]. *)
Definition take_permit (s : WebSocketSession) : WebSocketSession * list Effect :=
  (set_permit false s, if permit s then [PermitReleased] else []).

Definition cancel (s : WebSocketSession) : WebSocketSession * list Effect :=
  let '(s, es) := take_permit s in
  (set_cancelled true s, es ++ [StreamCancelled (stream_id (stream s))]).

Definition retain_permit (p : bool) (s : WebSocketSession) : WebSocketSession * list Effect :=
  (set_permit p s, if permit s then [PermitReleased] else []).

(** [Drop]: the stream is cancelled and the fields are dropped. *)
Definition drop_session (s : WebSocketSession) : list Effect :=
  StreamCancelled (stream_id (stream s)) :: (if permit s then [PermitReleased] else []).

(** [accept], from the first event on; [None] while it has not arrived. *)
Definition accept (st : NativeStream Frame) (offered : list str) (message_limit session_limit : Z) :
    option (Result RuntimeFailure WebSocketSession * list Effect) :=
  let! (event, st) := stream_receive st else None in
  match event with
  | Ok (Message frame) =>
      if negb (bool_decide (kind frame = Accept)) || negb (no_payload frame)
         || is_some (code frame) || is_some (reason frame)
         || is_some_and (fun p => negb (bool_decide (p ∈ offered))) (protocol frame)
      then Some (Err failure, [StreamCancelled (stream_id st)])
      else Some (Ok (mkSession false st (protocol frame) message_limit session_limit
                       0 false false false false false false), [])
  | _ => Some (Err failure, [StreamCancelled (stream_id st)])
  end.

Definition frame_bytes (frame : Frame) : Z :=
  (match text frame with Some t => len t | None => 0 end
   + match body frame with Some b => len b | None => 0 end)%Z.

Definition validate_data (s : WebSocketSession) (frame : Frame) : Result RuntimeFailure WebSocketSession :=
  let? _ := validate_frame frame (message_limit s) in
  if (saturating_sub (session_limit s) (transferred s) <? frame_bytes frame)%Z then Err failure
  else Ok (set_transferred (transferred s + frame_bytes frame) s).

(** [send] up to its [await]: [Err] when it returned, [Ok] when the frame is with the stream. *)
Definition send_begin (s : WebSocketSession) (frame : Frame) :
    WebSocketSession * list Effect * Result RuntimeFailure unit :=
  if cancelled s || terminal s || sent_close s || writing s then (s, [], Err failure) else
  let s := set_writing true s in
  match validate_data s frame with
  | Err error => let '(s, es) := cancel s in (set_writing false s, es, Err error)
  | Ok s => (if bool_decide (kind frame = Close) then set_sent_close true s else s, [], Ok ())
  end.

(** [send] from its [await] on. *)
Definition send_finish (s : WebSocketSession) (r : Result RuntimeFailure unit) :
    WebSocketSession * list Effect * Result RuntimeFailure unit :=
  match r with
  | Err error => let '(s, es) := cancel s in (set_writing false s, es, Err error)
  | Ok _ => (set_writing false s, [], Ok ())
  end.

Definition send_drop (s : WebSocketSession) : WebSocketSession := set_writing false s.

(** [receive] up to its loop: [Some] when it returned, [None] when it awaits the stream. *)
Definition receive_begin (s : WebSocketSession) :
    WebSocketSession * option (Result RuntimeFailure (option Frame)) :=
  if cancelled s then (s, Some (Err failure)) else
  if terminal s then (s, Some (Ok None)) else
  if reading s then (s, Some (Err failure)) else
  (set_reading true s, None).

(** One iteration of the loop; [None] when the loop goes round. *)
Definition receive_event (s : WebSocketSession) (event : Result RuntimeFailure (StreamEvent Frame)) :
    WebSocketSession * list Effect * option (Result RuntimeFailure (option Frame)) :=
  match event with
  | Ok (Message frame) =>
      if received_close s
      then let '(s, es) := cancel s in (set_reading false s, es, Some (Err failure)) else
      match validate_data s frame with
      | Err error => let '(s, es) := cancel s in (set_reading false s, es, Some (Err error))
      | Ok s =>
          let s := if bool_decide (kind frame = Close) then set_received_close true s else s in
          (set_reading false s, [], Some (Ok (Some frame)))
      end
  | Ok PeerHalfClosed => (s, [], None)
  | Ok (Terminal (Ok _)) =>
      let '(s, es) := take_permit (set_terminal true s) in (set_reading false s, es, Some (Ok None))
  | Ok (Terminal (Err _)) => let '(s, es) := cancel s in (set_reading false s, es, Some (Err failure))
  | Err error => let '(s, es) := cancel s in (set_reading false s, es, Some (Err error))
  end.

Definition receive_drop (s : WebSocketSession) : WebSocketSession := set_reading false s.

(** ** Uninterrupted calls *)

(** [None]: the stream has not taken the frame yet. *)
Definition send (s : WebSocketSession) (frame : Frame) :
    option (WebSocketSession * list Effect * Result RuntimeFailure unit) :=
  match send_begin s frame with
  | (s, es, Err e) => Some (s, es, Err e)
  | (s, es, Ok _) =>
      let! (r, st) := stream_send frame (stream s) else None in
      let '(s, es', r) := send_finish (set_stream st s) r in
      Some (s, es ++ es', r)
  end.

(** The loop over what the stream delivers. *)
Fixpoint receive_loop (fuel : nat) (s : WebSocketSession) :
    option (WebSocketSession * list Effect * Result RuntimeFailure (option Frame)) :=
  match fuel with
  | O => None
  | S fuel =>
      let! (event, st) := stream_receive (stream s) else None in
      match receive_event (set_stream st s) event with
      | (s, es, Some r) => Some (s, es, r)
      | (s, _, None) => receive_loop fuel s
      end
  end.

(** As many iterations as there are events, so fuel never decides. *)
Definition receive (s : WebSocketSession) :
    option (WebSocketSession * list Effect * Result RuntimeFailure (option Frame)) :=
  match receive_begin s with
  | (s, Some r) => Some (s, [], r)
  | (s, None) => receive_loop (S (length (script (stream s)))) s
  end.

Record WebSocketUpgrade := mkUpgrade { session : WebSocketSession; accept_key : str }.

(** ** Frames *)

Inductive FrameOk (limit : Z) : Frame -> Prop :=
| ok_text t : (len t <= limit)%Z -> FrameOk limit (mkFrame Text None (Some t) None None None)
| ok_binary b : (len b <= limit)%Z -> FrameOk limit (mkFrame Binary None None (Some b) None None)
| ok_close c r : close_code c = true -> (forall r', r = Some r' -> (len r' <= 123)%Z) ->
    FrameOk limit (mkFrame Close None None None (Some c) r).

Lemma validate_frame_ok f limit : validate_frame f limit = Ok () <-> FrameOk limit f.
Proof.
  unfold validate_frame. split.
  - intros Hv. inv_ok Hv. destruct f as [k [p|] t b c r]; [done|]. clear E.
    destruct k, t, b, c, r; cbn in E0; try done; bool_prop; try done; constructor; try done; intros; by simplify_eq.
  - destruct 1 as [t Ht | b Hb | c r Hc Hr]; cbn.
    + by rewrite (proj2 (Z.leb_le _ _) Ht).
    + by rewrite (proj2 (Z.leb_le _ _) Hb).
    + rewrite Hc. cbn. destruct r as [r|]; [|done]. cbn.
      by rewrite (proj2 (Z.leb_le _ _)) by auto.
Qed.

Lemma FrameOk_bytes limit f : FrameOk limit f -> (0 <= limit)%Z -> (0 <= frame_bytes f <= limit)%Z.
Proof.
  destruct 1 as [t Ht | b Hb | c r Hc Hr]; unfold frame_bytes; cbn; intros.
  - pose proof (len_nonneg t). lia.
  - pose proof (len_nonneg b). lia.
  - lia.
Qed.

Lemma frame_bytes_nonneg f : (0 <= frame_bytes f)%Z.
Proof.
  unfold frame_bytes. destruct (text f) as [t|], (body f) as [b|];
    try pose proof (len_nonneg t); try pose proof (len_nonneg b); lia.
Qed.

Lemma validate_data_ok s f s' : validate_data s f = Ok s' <->
  FrameOk (message_limit s) f /\ (frame_bytes f <= saturating_sub (session_limit s) (transferred s))%Z
  /\ s' = set_transferred (transferred s + frame_bytes f) s.
Proof.
  unfold validate_data. rewrite <- validate_frame_ok, <- Z.ltb_ge.
  destruct (validate_frame f (message_limit s)) as [[]|]; [|naive_solver].
  destruct (_ <? _)%Z; naive_solver.
Qed.

(** ** All interleavings *)

(** [Step s sent received effects s']: one piece of a call runs; [sent] and [received] are the
    frames it hands to the stream and to the caller. Events and results of the stream are
    arbitrary. The permit is retained by the transport before it uses the session. *)
Inductive Step : WebSocketSession -> list Frame -> list Frame -> list Effect -> WebSocketSession -> Prop :=
| step_send s f s' es : send_begin s f = (s', es, Ok ()) -> Step s [f] [] es s'
| step_send_err s f s' es e : send_begin s f = (s', es, Err e) -> Step s [] [] es s'
| step_send_finish s r s' es r' : writing s = true -> send_finish s r = (s', es, r') -> Step s [] [] es s'
| step_send_drop s : writing s = true -> Step s [] [] [] (send_drop s)
| step_receive s s' o : receive_begin s = (s', o) -> Step s [] [] [] s'
| step_event s ev s' es o : reading s = true -> receive_event s ev = (s', es, o) ->
    Step s [] (match o with Some (Ok (Some f)) => [f] | _ => [] end) es s'
| step_receive_drop s : reading s = true -> Step s [] [] [] (receive_drop s)
| step_cancel s s' es : cancel s = (s', es) -> Step s [] [] es s'
| step_retain s s' es : cancelled s = false -> terminal s = false -> permit s = false ->
    retain_permit true s = (s', es) -> Step s [] [] (PermitAcquired :: es) s'.

(** What a session has done since it was accepted. *)
Inductive Reachable (s0 : WebSocketSession) :
    list Frame -> list Frame -> list Effect -> WebSocketSession -> Prop :=
| reach_init : Reachable s0 [] [] [] s0
| reach_step sent received es s fs gs es' s' :
    Reachable s0 sent received es s -> Step s fs gs es' s' ->
    Reachable s0 (sent ++ fs) (received ++ gs) (es ++ es') s'.

Definition total_bytes (fs : list Frame) : Z := foldr (fun f n => (frame_bytes f + n)%Z) 0%Z fs.

(** No frame follows a close frame. *)
Definition close_last (fs : list Frame) : Prop :=
  forall l f r, fs = l ++ f :: r -> kind f = Close -> r = [].
Definition has_close (fs : list Frame) : bool := existsb (fun f => bool_decide (kind f = Close)) fs.

Record Inv (s0 : WebSocketSession) (sent received : list Frame) (es : list Effect) (s : WebSocketSession) : Prop := {
  inv_limits : message_limit s = message_limit s0 /\ session_limit s = session_limit s0;
  inv_transferred : transferred s = (total_bytes sent + total_bytes received)%Z;
  inv_budget : (transferred s <= Z.max (session_limit s) 0)%Z;
  inv_frames : Forall (FrameOk (message_limit s0)) (sent ++ received);
  inv_sent_close : sent_close s = has_close sent;
  inv_received_close : received_close s = has_close received;
  inv_sent_last : close_last sent;
  inv_received_last : close_last received;
  inv_permit : permit s = true -> cancelled s = false /\ terminal s = false;
  inv_conserved : count_effect PermitAcquired es
    = count_effect PermitReleased es + (if permit s then 1 else 0);
  inv_cancelled : cancelled s = true -> StreamCancelled (stream_id (stream s0)) ∈ es;
  inv_stream : stream_id (stream s) = stream_id (stream s0);
}.

Lemma total_bytes_app fs gs : total_bytes (fs ++ gs) = (total_bytes fs + total_bytes gs)%Z.
Proof. induction fs as [|f fs IH]; cbn; [done|]. unfold total_bytes in *. lia. Qed.

Lemma total_bytes_nonneg fs : (0 <= total_bytes fs)%Z.
Proof. induction fs as [|f fs IH]; cbn; [done|]. pose proof (frame_bytes_nonneg f). unfold total_bytes in *. lia. Qed.

Lemma has_close_app fs gs : has_close (fs ++ gs) = has_close fs || has_close gs.
Proof. apply existsb_app. Qed.

Lemma close_last_snoc fs f : has_close fs = false -> close_last fs -> close_last (fs ++ [f]).
Proof.
  intros Hc _ l g r E Hg. destruct r as [|x r] using rev_ind; [done|]. clear IHr.
  rewrite app_comm_cons, app_assoc in E. apply app_inj_tail in E as [E _].
  exfalso. assert (has_close fs = true); [|congruence].
  subst fs. rewrite has_close_app. cbn. rewrite bool_decide_true by done. by rewrite orb_true_r.
Qed.

Lemma accept_init st offered ml sl s es :
  accept st offered ml sl = Some (Ok s, es) ->
  s = mkSession false (stream s) (session_protocol s) ml sl 0 false false false false false false /\ es = [].
Proof. unfold accept. intros Ha. repeat case_match; simplify_eq; done. Qed.

Lemma Inv_init s0 : permit s0 = false -> transferred s0 = 0%Z -> cancelled s0 = false ->
  sent_close s0 = false -> received_close s0 = false -> Inv s0 [] [] [] s0.
Proof.
  intros Hp Ht Hc Hs Hr. split; try done; rewrite ?Hp, ?Ht, ?Hc, ?Hs, ?Hr; try done.
  - lia.
  - intros l g r E; by destruct l.
  - intros l g r E; by destruct l.
Qed.

(** A step that moves no frame. *)
Lemma Inv_quiet s0 sent received es s es' s' :
  Inv s0 sent received es s ->
  message_limit s' = message_limit s -> session_limit s' = session_limit s ->
  transferred s' = transferred s -> sent_close s' = sent_close s -> received_close s' = received_close s ->
  stream_id (stream s') = stream_id (stream s) ->
  (permit s' = true -> cancelled s' = false /\ terminal s' = false) ->
  count_effect PermitAcquired es' + (if permit s then 1 else 0)
    = count_effect PermitReleased es' + (if permit s' then 1 else 0) ->
  (cancelled s' = true -> cancelled s = true \/ StreamCancelled (stream_id (stream s)) ∈ es') ->
  Inv s0 sent received (es ++ es') s'.
Proof.
  intros [[] ? ? ? ? ? ? ? ? Hcons Hcan Hst] E1 E2 E3 E4 E5 E6 Hp Hn Hc.
  split; rewrite ?E1, ?E2, ?E3, ?E4, ?E5, ?E6; try done.
  - rewrite !count_effect_app. lia.
  - intros Hx. destruct (Hc Hx) as [Hy|Hy]; rewrite elem_of_app; [left; auto|right; by rewrite <- Hst].
Qed.

(** [cancel], whatever flags the guards reset afterwards. *)
Lemma Inv_cancel s0 sent received es s r w :
  Inv s0 sent received es s ->
  Inv s0 sent received (es ++ (cancel s).2) (set_writing w (set_reading r (cancel s).1)).
Proof.
  intros HI. eapply Inv_quiet; [done|..]; try done; cbn.
  - destruct (permit s); done.
  - intros _. right. rewrite elem_of_app. right. by left.
Qed.

(** A frame that passed [validate_data] and was sent. *)
Lemma Inv_sent s0 sent received es s f w : Inv s0 sent received es s -> sent_close s = false ->
  validate_data s f = Ok (set_transferred (transferred s + frame_bytes f) s) ->
  Inv s0 (sent ++ [f]) received es
    (set_writing w (set_sent_close (bool_decide (kind f = Close))
                      (set_transferred (transferred s + frame_bytes f) s))).
Proof.
  intros [[] Ht Hb Hf Hsc Hrc Hsl Hrl Hp Hcons Hcan Hst] Hs Hv.
  apply validate_data_ok in Hv as (Hok & Hle & _).
  assert (Hc : has_close sent = false) by congruence.
  split; cbn; try done.
  - rewrite total_bytes_app. cbn. lia.
  - unfold saturating_sub in Hle. pose proof (frame_bytes_nonneg f). lia.
  - rewrite <- app_assoc, Forall_app in *. destruct Hf as [Hf1 Hf2]. split; [done|].
    constructor; [congruence | done].
  - rewrite has_close_app, Hc. cbn. by rewrite orb_false_r.
  - by apply close_last_snoc.
Qed.

Lemma Inv_received s0 sent received es s f r : Inv s0 sent received es s -> received_close s = false ->
  validate_data s f = Ok (set_transferred (transferred s + frame_bytes f) s) ->
  Inv s0 sent (received ++ [f]) es
    (set_reading r (set_received_close (bool_decide (kind f = Close))
                      (set_transferred (transferred s + frame_bytes f) s))).
Proof.
  intros [[] Ht Hb Hf Hsc Hrc Hsl Hrl Hp Hcons Hcan Hst] Hs Hv.
  apply validate_data_ok in Hv as (Hok & Hle & _).
  assert (Hc : has_close received = false) by congruence.
  split; cbn; try done.
  - rewrite total_bytes_app. cbn. lia.
  - unfold saturating_sub in Hle. pose proof (frame_bytes_nonneg f). lia.
  - rewrite app_assoc, Forall_app. split; [done|]. constructor; [congruence | done].
  - rewrite has_close_app, Hc. cbn. by rewrite orb_false_r.
  - by apply close_last_snoc.
Qed.

Lemma set_sent_close_if s (b : bool) : sent_close s = false ->
  (if b then set_sent_close true s else s) = set_sent_close b s.
Proof. destruct s; cbn; intros ->. by destruct b. Qed.

Lemma set_received_close_if s (b : bool) : received_close s = false ->
  (if b then set_received_close true s else s) = set_received_close b s.
Proof. destruct s; cbn; intros ->. by destruct b. Qed.

Lemma Inv_send_begin s0 sent received es s f s' es' r : Inv s0 sent received es s ->
  send_begin s f = (s', es', r) ->
  Inv s0 (sent ++ match r with Ok _ => [f] | Err _ => [] end) received (es ++ es') s'.
Proof.
  intros HI. unfold send_begin. destruct (_ || _) eqn:Eg; [intros [= <- <- <-]|].
  { rewrite !app_nil_r. done. }
  bool_prop. destruct (validate_data (set_writing true s) f) as [s1|e] eqn:Ev.
  - intros Hx. injection Hx as <- <- <-. apply validate_data_ok in Ev as (Hok & Hle & ->).
    rewrite set_sent_close_if, app_nil_r by done.
    apply (Inv_sent s0 sent received es s f true HI); [done|].
    by apply validate_data_ok.
  - intros Hx. injection Hx as <- <- <-. rewrite app_nil_r.
    pose proof (Inv_cancel s0 sent received es s (reading s) false HI) as HC. by destruct s.
Qed.

Lemma Inv_receive_event s0 sent received es s ev s' es' o : Inv s0 sent received es s ->
  receive_event s ev = (s', es', o) ->
  Inv s0 sent (received ++ match o with Some (Ok (Some f)) => [f] | _ => [] end) (es ++ es') s'.
Proof.
  intros HI.
  assert (HC : Inv s0 sent received (es ++ (cancel s).2) (set_reading false (cancel s).1)).
  { pose proof (Inv_cancel s0 sent received es s false (writing s) HI) as HC. by destruct s. }
  unfold receive_event. destruct ev as [[f| |[[]|[]]]|e].
  - destruct (received_close s) eqn:Er; [intros Hx; injection Hx as <- <- <-; by rewrite app_nil_r|].
    destruct (validate_data s f) as [s1|] eqn:Ev; intros Hx; injection Hx as <- <- <-; [|by rewrite app_nil_r].
    pose proof Ev as Ev'. apply validate_data_ok in Ev' as (Hok & Hle & ->).
    rewrite set_received_close_if, app_nil_r by done. by apply Inv_received.
  - intros Hx; injection Hx as <- <- <-. by rewrite !app_nil_r.
  - intros Hx; injection Hx as <- <- <-. rewrite app_nil_r.
    eapply Inv_quiet; [done|..]; try done; cbn; [by destruct (permit s)|]. auto.
  - intros Hx; injection Hx as <- <- <-. by rewrite app_nil_r.
  - intros Hx; injection Hx as <- <- <-. by rewrite app_nil_r.
Qed.

Ltac quiet HI :=
  apply (Inv_quiet _ _ _ _ _ _ _ HI); try done; cbn; try (by auto); try apply (inv_permit _ _ _ _ _ HI).

Lemma Inv_step s0 sent received es s fs gs es' s' :
  Inv s0 sent received es s -> Step s fs gs es' s' ->
  Inv s0 (sent ++ fs) (received ++ gs) (es ++ es') s'.
Proof.
  intros HI HS. destruct HS as [s f s' es' Hb | s f s' es' e Hb | s r s' es' r' Hw Hf | s Hw
    | s s' o Hr | s ev s' es' o Hr He | s Hr | s s' es' Hc | s s' es' Hc Ht Hp Hr];
    rewrite ?(app_nil_r sent), ?(app_nil_r received).
  - by apply (Inv_send_begin _ _ _ _ _ _ _ _ _ HI) in Hb.
  - apply (Inv_send_begin _ _ _ _ _ _ _ _ _ HI) in Hb. by rewrite app_nil_r in Hb.
  - unfold send_finish in Hf. destruct r; injection Hf as <- <- <-.
    + quiet HI.
    + pose proof (Inv_cancel s0 sent received es s (reading s) false HI) as HC. by destruct s.
  - quiet HI.
  - unfold receive_begin in Hr.
    repeat (case_match; simplify_eq; try by rewrite app_nil_r).
    quiet HI.
  - by eapply Inv_receive_event.
  - quiet HI.
  - pose proof (Inv_cancel s0 sent received es s (reading s) (writing s) HI) as HC.
    unfold cancel in *. injection Hc as <- <-. by destruct s.
  - injection Hr as <- <-. rewrite Hp.
    apply (Inv_quiet _ _ _ _ _ _ _ HI); try done; cbn; rewrite ?Hp, ?Hc; done.
Qed.

Lemma Reachable_Inv s0 sent received es s : permit s0 = false -> transferred s0 = 0%Z ->
  cancelled s0 = false -> sent_close s0 = false -> received_close s0 = false ->
  Reachable s0 sent received es s -> Inv s0 sent received es s.
Proof.
  intros. match goal with H : Reachable _ _ _ _ _ |- _ => induction H end.
  - by apply Inv_init.
  - by eapply Inv_step.
Qed.

Lemma reachable_trans s0 sent received es s sent' received' es' s' :
  Reachable s0 sent received es s -> Reachable s sent' received' es' s' ->
  Reachable s0 (sent ++ sent') (received ++ received') (es ++ es') s'.
Proof.
  intros HR HR'. induction HR' as [|? ? ? ? ? ? ? ? _ IH]; [by rewrite !app_nil_r|].
  rewrite !app_assoc. by eapply reach_step.
Qed.

Lemma accepted_Inv st offered ml sl s0 es0 sent received es s :
  accept st offered ml sl = Some (Ok s0, es0) ->
  Reachable s0 sent received es s -> Inv s0 sent received es s.
Proof. intros Ha. apply accept_init in Ha as [Ha _]. rewrite Ha. by apply Reachable_Inv. Qed.

(** ** Properties *)

(** C31: whatever the peer, the endpoint and the host do and however their calls interleave, the
    frames an accepted session passes in both directions together stay within the session budget,
    each of them is a well-formed text, binary or close frame within the message limit, and no frame
    follows a close frame in its direction. *)
Theorem session_budget st offered ml sl s0 es0 sent received es s :
  accept st offered ml sl = Some (Ok s0, es0) -> (0 <= sl)%Z ->
  Reachable s0 sent received es s ->
  (total_bytes sent + total_bytes received <= sl)%Z
  /\ Forall (FrameOk ml) (sent ++ received) /\ close_last sent /\ close_last received.
Proof.
  intros Ha Hsl HR. pose proof (accepted_Inv _ _ _ _ _ _ _ _ _ _ Ha HR) as HI.
  apply accept_init in Ha as [Ha _]. destruct HI as [[Hm Hs] Ht Hb Hf _ _ Hsl' Hrl _ _ _ _].
  rewrite Ha in Hm, Hs, Hf; cbn in *. split; [lia|]. done.
Qed.

(** C32: the concurrency permit handed to an accepted session is returned exactly once: at every
    moment the permits received are those returned plus the one still held, and a cancelled or
    terminated session holds none; a cancelled session has cancelled its stream. *)
Theorem session_permit_conserved st offered ml sl s0 es0 sent received es s :
  accept st offered ml sl = Some (Ok s0, es0) -> Reachable s0 sent received es s ->
  count_effect PermitAcquired es = count_effect PermitReleased es + (if permit s then 1 else 0)
  /\ (cancelled s = true \/ terminal s = true -> permit s = false)
  /\ (cancelled s = true -> StreamCancelled (stream_id (stream s0)) ∈ es).
Proof.
  intros Ha HR. destruct (accepted_Inv _ _ _ _ _ _ _ _ _ _ Ha HR) as [_ _ _ _ _ _ _ _ Hp Hc Hx _].
  split; [done|]. split; [|done]. destruct (permit s); [|done].
  destruct (Hp eq_refl) as [-> ->]. by intros [|].
Qed.

(** A session that was handed a permit when it was accepted gives it back: when it is cancelled or terminated, at the latest when
    it is dropped, and never twice. *)
Lemma retained_returned st offered ml sl s0 es0 sent received es s :
  accept st offered ml sl = Some (Ok s0, es0) -> Reachable (set_permit true s0) sent received es s ->
  (cancelled s = true \/ terminal s = true -> count_effect PermitReleased es = S (count_effect PermitAcquired es))
  /\ count_effect PermitReleased (es ++ drop_session s) = S (count_effect PermitAcquired es).
Proof.
  intros Ha HR. assert (HS : Step s0 [] [] [PermitAcquired] (set_permit true s0)).
  { pose proof Ha as Hi. apply accept_init in Hi as [-> _]. by eapply (step_retain _ _ []). }
  pose proof (reachable_trans _ _ _ _ _ _ _ _ _ (reach_step _ _ _ _ _ _ _ _ _ (reach_init s0) HS) HR) as HR'.
  destruct (accepted_Inv _ _ _ _ _ _ _ _ _ _ Ha HR') as [_ _ _ _ _ _ _ _ Hp Hc _ _].
  rewrite !count_effect_app in Hc. rewrite count_effect_app.
  change (count_effect PermitAcquired [PermitAcquired]) with 1 in Hc. change (count_effect PermitReleased [PermitAcquired]) with 0 in Hc.
  change (count_effect PermitAcquired []) with 0 in Hc. change (count_effect PermitReleased []) with 0 in Hc.
  assert (Hd : count_effect PermitReleased (drop_session s) = if permit s then 1 else 0) by (unfold drop_session; by destruct (permit s)).
  rewrite Hd. split; [|lia].
  intros Hend. destruct (permit s); [destruct (Hp eq_refl) as [? ?], Hend; congruence | lia].
Qed.

Lemma cancel_cancelled s : cancelled (cancel s).1 = true.
Proof. done. Qed.

Lemma send_begin_refuses s f : cancelled s || terminal s || sent_close s = true ->
  send_begin s f = (s, [], Err failure).
Proof. intros Hg. unfold send_begin. by rewrite Hg. Qed.

Lemma send_begin_flags s f s' es r : send_begin s f = (s', es, r) ->
  (cancelled s = true -> cancelled s' = true) /\ (sent_close s = true -> sent_close s' = true)
  /\ (terminal s = true -> terminal s' = true).
Proof.
  unfold send_begin, validate_data, cancel, take_permit. intros Hb.
  repeat case_match; simplify_eq; cbn; auto.
Qed.

Lemma receive_event_flags s ev s' es r : receive_event s ev = (s', es, r) ->
  (cancelled s = true -> cancelled s' = true) /\ (sent_close s = true -> sent_close s' = true)
  /\ (terminal s = true -> terminal s' = true).
Proof.
  unfold receive_event, validate_data, cancel, take_permit. intros Hb.
  repeat case_match; simplify_eq; cbn; auto.
Qed.

(** Cancellation, termination and the close handshake are final: no interleaving resets them,
    and once one of them holds no further frame is handed to the stream. *)
Lemma session_closed_final s fs gs es s' :
  Step s fs gs es s' ->
  (cancelled s = true -> cancelled s' = true)
  /\ (terminal s = true -> terminal s' = true)
  /\ (sent_close s = true -> sent_close s' = true)
  /\ (cancelled s || terminal s || sent_close s = true -> fs = []).
Proof.
  intros HS. destruct HS as [s f s' es Hb | s f s' es e Hb | s r s' es r' Hw Hf | s Hw
    | s s' o Hr | s ev s' es o Hr He | s Hr | s s' es Hc | s s' es Hc Ht Hp Hr]; try (by cbn; auto).
  - pose proof (send_begin_flags _ _ _ _ _ Hb). repeat split; try tauto.
    intros Hg. by rewrite send_begin_refuses in Hb.
  - pose proof (send_begin_flags _ _ _ _ _ Hb). repeat split; tauto.
  - unfold send_finish, cancel, take_permit in Hf. repeat case_match; simplify_eq; cbn; split_and!; by auto.
  - unfold receive_begin in Hr. repeat case_match; simplify_eq; cbn; split_and!; by auto.
  - pose proof (receive_event_flags _ _ _ _ _ He). repeat split; tauto.
  - injection Hc as <- <-. cbn. auto.
  - injection Hr as <- <-. cbn. auto.
Qed.

(** A session is accepted exactly when the endpoint's first event is a bare accept frame whose
    subprotocol, if any, the client offered; any other first event cancels the stream. The accepted
    session starts with an empty budget and no permit. *)
Lemma accept_exact st offered ml sl event rest :
  script st = event :: rest ->
  let st' := mkStream (stream_id st) rest (send_script st) (stream_sent st) in
  (exists p, event = Ok (Message (mkFrame Accept p None None None None))
     /\ (forall q, p = Some q -> q ∈ offered)
     /\ accept st offered ml sl
        = Some (Ok (mkSession false st' p ml sl 0 false false false false false false), []))
  \/ ((forall p, event = Ok (Message (mkFrame Accept p None None None None)) ->
         exists q, p = Some q /\ q ∉ offered)
      /\ accept st offered ml sl = Some (Err failure, [StreamCancelled (stream_id st)])).
Proof.
  intros Es st'. unfold accept, stream_receive. rewrite Es.
  destruct event as [[f| |o]|e]; [| right; split; [intros ? [=] | done] ..].
  destruct f as [k p t b c r]; cbn [kind protocol text body code reason].
  destruct (decide (k = Accept)) as [->|Hk].
  2: { right. split; [intros p' [= -> _ _ _ _ _]; done|]. by rewrite bool_decide_false. }
  rewrite bool_decide_true by done. unfold no_payload; cbn.
  destruct t, b, c, r; cbn; try (right; split; [intros ? [=] | done]).
  destruct p as [q|]; cbn.
  - destruct (bool_decide_reflect (q ∈ offered)); cbn.
    + left. exists (Some q). split; [done|]. split; [intros ? [= <-]; done | done].
    + right. split; [intros ? [= <-]; eauto | done].
  - left. exists None. done.
Qed.

(** What a stream still has to deliver after half-close notices. *)
Definition drop_events (n : nat) (s : WebSocketSession) : WebSocketSession :=
  set_stream (mkStream (stream_id (stream s)) (drop n (script (stream s)))
                (send_script (stream s)) (stream_sent (stream s))) s.

Lemma receive_loop_skip n fuel s rest :
  script (stream s) = replicate n (Ok PeerHalfClosed) ++ rest ->
  receive_loop (n + fuel) s = receive_loop fuel (drop_events n s).
Proof.
  revert s rest; induction n as [|n IH]; intros s rest Hs; cbn.
  - f_equal. destruct s as [? [] ? ? ? ? ? ? ? ? ? ?]; unfold drop_events; cbn. by rewrite drop_0.
  - unfold stream_receive. rewrite Hs; cbn. rewrite (IH _ rest); [|done].
    f_equal. unfold drop_events; cbn. by rewrite Hs.
Qed.

(** An uninterrupted [receive] on an open, idle session skips half-close notices and returns
    what the first other event leads to; it waits exactly when the stream has nothing else yet. *)
Lemma receive_exact s n rest :
  cancelled s = false -> terminal s = false -> reading s = false ->
  script (stream s) = replicate n (Ok PeerHalfClosed) ++ rest ->
  match rest with
  | [] => receive s = None
  | event :: rest' => event <> Ok PeerHalfClosed ->
      exists s' es r, receive_event (drop_events (S n) (set_reading true s)) event = (s', es, Some r)
                      /\ receive s = Some (s', es, r)
  end.
Proof.
  intros Hc Ht Hr Hs. unfold receive, receive_begin. rewrite Hc, Ht, Hr.
  change (script (stream (set_reading true s))) with (script (stream s)).
  assert (Hl : S (length (script (stream s))) = n + S (length rest)).
  { rewrite Hs, length_app, length_replicate. lia. }
  rewrite Hl, (receive_loop_skip n _ (set_reading true s) rest) by done.
  cbn [receive_loop]. unfold stream_receive.
  assert (Hd : script (stream (drop_events n (set_reading true s))) = rest).
  { cbn. rewrite Hs. by rewrite drop_app_length' by by rewrite length_replicate. }
  rewrite Hd. destruct rest as [|event rest']; [done|]. intros Hne.
  assert (Hd' : drop (S n) (script (stream s)) = rest').
  { rewrite Hs. rewrite drop_app_ge; rewrite length_replicate; [|lia].
    by replace (S n - n) with 1 by lia. }
  replace (set_stream _ _) with (drop_events (S n) (set_reading true s)).
  2: { unfold drop_events. cbn [stream set_reading set_stream stream_id send_script stream_sent script].
       rewrite Hd'. done. }
  destruct (receive_event _ event) as [[s' es] [r|]] eqn:Ee; [by exists s', es, r|].
  exfalso. unfold receive_event, cancel, take_permit in Ee. repeat case_match; simplify_eq.
Qed.

(** ** Witnesses *)

Definition accept_frame : Frame := mkFrame Accept (Some (lit "chat")) None None None None.
Definition text_frame (s : string) : Frame := mkFrame Text None (Some (lit s)) None None None.
Definition sample_stream : NativeStream Frame :=
  mkStream 7 [Ok (Message accept_frame); Ok PeerHalfClosed; Ok (Message (text_frame "hello"))] [Ok ()] [].
Definition sample_session : WebSocketSession :=
  mkSession false (mkStream 7 [Ok PeerHalfClosed; Ok (Message (text_frame "hello"))] [Ok ()] [])
    (Some (lit "chat")) 16 32 0 false false false false false false.

Example sample_accept : accept sample_stream [lit "chat"] 16 32 = Some (Ok sample_session, []).
Proof. vm_compute. reflexivity. Qed.

Definition sample_sent : WebSocketSession := (send_begin sample_session (text_frame "hi")).1.1.

Lemma sample_reachable : Reachable sample_session [text_frame "hi"] [] [] sample_sent.
Proof.
  apply (reach_step _ [] [] [] sample_session [text_frame "hi"] [] [] sample_sent).
  - apply reach_init.
  - apply step_send. vm_compute. reflexivity.
Qed.

Lemma session_budget_witness :
  (total_bytes [text_frame "hi"] + total_bytes [] <= 32)%Z
  /\ Forall (FrameOk 16) ([text_frame "hi"] ++ []) /\ close_last [text_frame "hi"] /\ close_last [].
Proof.
  apply (session_budget sample_stream [lit "chat"] 16 32 sample_session [] _ _ [] sample_sent).
  - vm_compute. reflexivity.
  - lia.
  - apply sample_reachable.
Defined.

Lemma session_permit_conserved_witness :
  count_effect PermitAcquired [] = count_effect PermitReleased [] + (if permit sample_sent then 1 else 0)
  /\ (cancelled sample_sent = true \/ terminal sample_sent = true -> permit sample_sent = false)
  /\ (cancelled sample_sent = true -> StreamCancelled (stream_id (stream sample_session)) ∈ []).
Proof.
  apply (session_permit_conserved sample_stream [lit "chat"] 16 32 sample_session [] [text_frame "hi"] []).
  - vm_compute. reflexivity.
  - apply sample_reachable.
Defined.

End WebSocket.
