(* ===== verification/WebSocketNative.v ===== *)
(** * The socket pump of a WebSocket session ([lenso-web-ingress-plugin/src/websocket_native.rs])

    Two loops run side by side on one task: [incoming] hands the messages of the socket to the session, [outgoing]
    writes the frames of the session to the socket. [pump_step] resumes the loop whose await has ended and runs it up
    to its next await; an event sequence is an interleaving. [tungstenite] and the socket are outside: messages and
    the results of the sink are arbitrary. *)
From S2P Require Import Prelude RustStd Kernel WebSocket.

Module WebSocketNative.
Import WebSocket.

(** [tungstenite::Message]; a close frame is its code and its reason. *)
Inductive Message :=
| TextMessage (text : str)
| BinaryMessage (bytes : str)
| CloseMessage (close : option (Z * str))
| PingMessage
| PongMessage
| RawFrame.

(** The result of a [Sink] operation: [SinkClosed] is an error for which [closed] holds. *)
Inductive SinkResult := SinkOk | SinkClosed | SinkFailed.

Definition frame (kind : Kind) : Frame := mkFrame kind None None None None None.

Inductive Converted := Frames (f : Frame) | Skipped | Refused.

(** The [match] of [incoming]; a received message that carries a frame. *)
Definition message_frame (message : Message) : Converted :=
  match message with
  | TextMessage text => Frames (mkFrame Text None (Some text) None None None)
  | BinaryMessage bytes => Frames (mkFrame Binary None None (Some bytes) None None)
  | CloseMessage (Some (code, reason)) => Frames (mkFrame Close None None None (Some code) (Some reason))
  | CloseMessage None => Frames (mkFrame Close None None None (Some 1000%Z) None)
  | PingMessage | PongMessage => Skipped
  | RawFrame => Refused
  end.

Inductive Incoming := Reading | Sending (closing : bool) | InDone | InFailed.
Inductive Outgoing := Receiving | Writing | Flushing | Closing | OutDone | OutFailed.

Record Pump := mkPump {
  p_session : WebSocketSession;
  p_peer_closed : bool;
  p_in : Incoming;
  p_out : Outgoing;
  p_read : list Message;    (* taken from the socket *)
  p_written : list Message; (* handed to the socket *)
  p_effects : list Effect;
}.

Definition set_in (i : Incoming) (p : Pump) : Pump :=
  mkPump (p_session p) (p_peer_closed p) i (p_out p) (p_read p) (p_written p) (p_effects p).
Definition set_out (o : Outgoing) (p : Pump) : Pump :=
  mkPump (p_session p) (p_peer_closed p) (p_in p) o (p_read p) (p_written p) (p_effects p).
Definition set_session (s : WebSocketSession) (es : list Effect) (p : Pump) : Pump :=
  mkPump s (p_peer_closed p) (p_in p) (p_out p) (p_read p) (p_written p) (p_effects p ++ es).
Definition set_peer_closed (p : Pump) : Pump :=
  mkPump (p_session p) true (p_in p) (p_out p) (p_read p) (p_written p) (p_effects p).
Definition push_read (m : Message) (p : Pump) : Pump :=
  mkPump (p_session p) (p_peer_closed p) (p_in p) (p_out p) (p_read p ++ [m]) (p_written p) (p_effects p).
Definition push_written (m : Message) (p : Pump) : Pump :=
  mkPump (p_session p) (p_peer_closed p) (p_in p) (p_out p) (p_read p) (p_written p ++ [m]) (p_effects p).

(** One turn of [incoming] with what [receiver.next().await] returned. *)
Definition incoming (p : Pump) (item : option (Result unit Message)) : Pump :=
  match item with
  | None | Some (Err _) => set_in InFailed p
  | Some (Ok message) =>
      let p := push_read message p in
      match message_frame message with
      | Skipped => p
      | Refused => set_in InFailed p
      | Frames value =>
          let p := if bool_decide (kind value = Close) then set_peer_closed p else p in
          match send_begin (p_session p) value with
          | (s, es, Err _) => set_in InFailed (set_session s es p)
          | (s, es, Ok _) => set_in (Sending (bool_decide (kind value = Close))) (set_session s es p)
          end
      end
  end.

(** [session.send(..).await] has ended. *)
Definition incoming_sent (p : Pump) (closing : bool) (r : Result RuntimeFailure unit) : Pump :=
  let '(s, es, r) := send_finish (p_session p) r in
  let p := set_session s es p in
  match r with
  | Err _ => set_in InFailed p
  | Ok _ => set_in (if closing then InDone else Reading) p
  end.

(** The message of a frame that the session returned. *)
Definition frame_message (f : Frame) : option Message :=
  match kind f with
  | Text => TextMessage <$> text f
  | Binary => BinaryMessage <$> body f
  | Close =>
      let! code := code f else None in
      let! code := try_from_range u16_max code else None in
      Some (CloseMessage (Some (code, default [] (reason f))))
  | Accept => None
  end.

(** The body of [outgoing] with what [session.receive().await] returned. *)
Definition outgoing (p : Pump) (value : Result RuntimeFailure (option Frame)) : Pump :=
  match value with
  | Err _ => set_out OutFailed p
  | Ok None => set_out Closing p
  | Ok (Some f) =>
      if bool_decide (kind f = Close) && p_peer_closed p then set_out Flushing p else
      match frame_message f with
      | Some m => set_out Writing (push_written m p)
      | None => set_out OutFailed p
      end
  end.

(** The next turn of [outgoing]: [session.receive()] up to its await. *)
Definition outgoing_receive (p : Pump) : Pump :=
  match receive_begin (p_session p) with
  | (s, Some r) => outgoing (set_session s [] p) r
  | (s, None) => set_out Receiving (set_session s [] p)
  end.

Definition outgoing_event (p : Pump) (event : Result RuntimeFailure (StreamEvent Frame)) : Pump :=
  match receive_event (p_session p) event with
  | (s, es, Some r) => outgoing (set_session s es p) r
  | (s, es, None) => set_session s es p
  end.

(** [if let Err(error) = .. && !closed(&error) { return Err(()) }]. *)
Definition sink_failed (r : SinkResult) : bool := match r with SinkFailed => true | _ => false end.

Definition outgoing_sunk (p : Pump) (r : SinkResult) : Pump :=
  if sink_failed r then set_out OutFailed p else
  match p_out p with
  | Closing => set_out OutDone p
  | _ => outgoing_receive p
  end.

(** [tokio::try_join!]: the first failure ends both loops. *)
Definition joined (p : Pump) : option (Result unit unit) :=
  match p_in p, p_out p with
  | InFailed, _ | _, OutFailed => Some (Err ())
  | InDone, OutDone => Some (Ok ())
  | _, _ => None
  end.

Inductive PumpEvent :=
| Arrived (item : option (Result unit Message))
| SessionSent (r : Result RuntimeFailure unit)
| SessionEvent (event : Result RuntimeFailure (StreamEvent Frame))
| Sunk (r : SinkResult).

(** An event resumes the loop that waits for it; once the exchange has ended nothing is polled any more. *)
Definition pump_step (p : Pump) (e : PumpEvent) : Pump :=
  match joined p with
  | Some _ => p
  | None =>
      match e, p_in p, p_out p with
      | Arrived item, Reading, _ => incoming p item
      | SessionSent r, Sending closing, _ => incoming_sent p closing r
      | SessionEvent event, _, Receiving => outgoing_event p event
      | Sunk r, _, (Writing | Flushing | Closing) => outgoing_sunk p r
      | _, _, _ => p
      end
  end.

Definition pump_start (s : WebSocketSession) (es : list Effect) : Pump :=
  outgoing_receive (mkPump s false Reading Receiving [] [] es).

(** How the exchange ended: by itself ([None] while it has not), by the lifetime, or by the App's cancellation. *)
Inductive Stop := Joined | LifetimeElapsed | AppCancelled.

Definition outcome (p : Pump) (stop : Stop) : option (Result unit unit) :=
  match stop with Joined => joined p | _ => Some (Err ()) end.

(** Dropping the loops runs the guards of a suspended [send] or [receive]. *)
Definition drop_loops (p : Pump) : WebSocketSession :=
  let s := match p_in p with Sending _ => send_drop (p_session p) | _ => p_session p end in
  match p_out p with Receiving => receive_drop s | _ => s end.

Definition SESSION_UNAVAILABLE : Message := CloseMessage (Some (1011%Z, lit "session unavailable")).

(** The end of [run]: the close frame that is attempted, and the session. *)
Definition finish (p : Pump) (result : Result unit unit) : option Message * WebSocketSession * list Effect :=
  let '(s, es) := cancel (drop_loops p) in
  (match result with Err _ => Some SESSION_UNAVAILABLE | Ok _ => None end, s, p_effects p ++ es).

(** [run]: [upgraded] says whether the upgrade came in time. *)
Definition run (s : WebSocketSession) (es : list Effect) (upgraded : bool) (events : list PumpEvent) (stop : Stop) :
    option (list Message * option Message * WebSocketSession * list Effect) :=
  if upgraded then
    let p := foldl pump_step (pump_start s es) events in
    let! result := outcome p stop else None in
    let '(last, s, es) := finish p result in
    Some (p_written p, last, s, es)
  else let '(s, es') := cancel s in Some ([], None, s, es ++ es').

(** ** Specification *)

(** The frame a message of the socket carries. *)
Definition carried (m : Message) : option Frame := match message_frame m with Frames f => Some f | _ => None end.

(** [Relays peer_closed fs ms]: the messages [ms] are those of the frames [fs], in order; a close frame that answers the
    peer's close may be left to [tungstenite], which answers by itself. *)
Inductive Relays (peer_closed : bool) : list Frame -> list Message -> Prop :=
| relays_nil : Relays peer_closed [] []
| relays_frame fs ms f m : Relays peer_closed fs ms -> frame_message f = Some m -> Relays peer_closed (fs ++ [f]) (ms ++ [m])
| relays_echo fs ms f : peer_closed = true -> Relays peer_closed fs ms -> kind f = Close -> Relays peer_closed (fs ++ [f]) ms.

Lemma Relays_closed b fs ms : Relays b fs ms -> Relays true fs ms.
Proof. induction 1; econstructor; eauto. Qed.

Lemma frame_message_ok limit f : FrameOk limit f -> is_Some (frame_message f).
Proof.
  destruct 1 as [t _ | b _ | c r Hc _]; unfold frame_message; cbn [kind text body code reason]; [by eexists..|].
  assert (Ht : try_from_range u16_max c = Some c).
  { apply try_from_range_Some. unfold close_code in Hc. rewrite !orb_true_iff, !in_range_spec in Hc. unfold u16_max. lia. }
  rewrite Ht. by eexists.
Qed.

(** ** Flags that the other loop's calls leave alone *)

Lemma send_begin_frame s f s' es r : send_begin s f = (s', es, r) ->
  reading s' = reading s /\ terminal s' = terminal s /\ (r = Ok () -> writing s' = true).
Proof. unfold send_begin, validate_data, cancel, take_permit. intros Hb. repeat case_match; simplify_eq; cbn; naive_solver. Qed.

Lemma send_finish_frame s r s' es r' : send_finish s r = (s', es, r') -> reading s' = reading s /\ terminal s' = terminal s.
Proof. unfold send_finish, cancel, take_permit. intros Hb. repeat case_match; simplify_eq; cbn; naive_solver. Qed.

Lemma receive_begin_frame s s' o : receive_begin s = (s', o) ->
  writing s' = writing s /\ terminal s' = terminal s /\ (o = None -> reading s' = true)
  /\ (o = Some (Ok None) -> terminal s' = true) /\ (forall f, o <> Some (Ok (Some f))).
Proof. unfold receive_begin. intros Hb. repeat case_match; simplify_eq; cbn; naive_solver. Qed.

Lemma receive_event_frame s ev s' es o : receive_event s ev = (s', es, o) ->
  writing s' = writing s /\ (o = None -> s' = s /\ es = []) /\ (o = Some (Ok None) -> terminal s' = true).
Proof. unfold receive_event, validate_data, cancel, take_permit. intros Hb. repeat case_match; simplify_eq; cbn; naive_solver. Qed.

(** ** The invariant of the pump *)

Section invariant.
Context (s0 : WebSocketSession).
Hypothesis accepted : forall sent received es s, Reachable s0 sent received es s -> Inv s0 sent received es s.

Record PumpInv (p : Pump) (sent received : list Frame) : Prop := {
  pi_reach : Reachable s0 sent received (p_effects p) (p_session p);
  pi_read : exists rest, omap carried (p_read p) = sent ++ rest /\ (rest = [] \/ p_in p = InFailed);
  pi_written : Relays (p_peer_closed p) received (p_written p);
  pi_sending : forall b, p_in p = Sending b -> writing (p_session p) = true;
  pi_receiving : p_out p = Receiving -> reading (p_session p) = true;
  pi_done : p_in p = InDone \/ p_in p = Sending true -> has_close sent = true;
  pi_out : p_out p = Closing \/ p_out p = OutDone -> terminal (p_session p) = true;
}.

(** One more piece of a session call. *)
Lemma reach_more sent received es s fs gs es' s' : Reachable s0 sent received es s -> Step s fs gs es' s' ->
  Reachable s0 (sent ++ fs) (received ++ gs) (es ++ es') s'.
Proof. intros. by eapply reach_step. Qed.

Lemma incoming_inv p item sent received : PumpInv p sent received -> p_in p = Reading ->
  exists sent', PumpInv (incoming p item) sent' received.
Proof.
  intros [Hr (rest & Hrd & Hrest) Hw Hs Hv Hd Ho] Hin. destruct Hrest as [->|?]; [|congruence]. rewrite app_nil_r in Hrd.
  assert (Hfail : forall p', p' = p \/ (exists m, p' = push_read m p) -> PumpInv (set_in InFailed p') sent received).
  { intros p' Hp'. destruct Hp' as [->|[m ->]]; split; cbn; try done; try assumption.
    - exists []. rewrite app_nil_r. auto.
    - by intros [|].
    - rewrite omap_app, Hrd. eexists. auto.
    - by intros [|]. }
  unfold incoming. destruct item as [[m|e]|]; [|exists sent; auto..].
  destruct (message_frame m) as [f| |] eqn:Em; [| |exists sent; apply Hfail; eauto].
  - set (p1 := if bool_decide (kind f = Close) then _ else _).
    assert (Hp1 : p_session p1 = p_session p /\ p_effects p1 = p_effects p /\ p_in p1 = p_in p /\ p_out p1 = p_out p
        /\ p_written p1 = p_written p /\ omap carried (p_read p1) = sent ++ [f] /\ Relays (p_peer_closed p1) received (p_written p)).
    { subst p1. assert (Hc : omap carried (p_read p ++ [m]) = sent ++ [f]).
      { rewrite omap_app, Hrd. f_equal. cbn. unfold carried. by rewrite Em. }
      case_bool_decide; cbn; split_and!; try done. by eapply Relays_closed. }
    clearbody p1. destruct Hp1 as (E1 & E2 & E3 & E4 & E5 & E6 & E7). rewrite E1.
    destruct (send_begin (p_session p) f) as [[s' es] r] eqn:Eb.
    pose proof (send_begin_frame _ _ _ _ _ Eb) as (Hrd' & Ht & Hwr). destruct r as [[]|e].
    + exists (sent ++ [f]). split; cbn; rewrite ?E2, ?E4, ?E5, ?Hrd', ?Ht; auto.
      * rewrite <- (app_nil_r received). apply (reach_more _ _ _ _ _ _ _ _ Hr). by apply (step_send _ f).
      * exists []. rewrite app_nil_r. auto.
      * intros [?|[= Hk]]; [done|]. rewrite has_close_app. cbn. by rewrite Hk, orb_true_r.
    + exists sent. split; cbn; rewrite ?E2, ?E4, ?E5, ?Hrd', ?Ht; auto; try done.
      * rewrite <- (app_nil_r sent), <- (app_nil_r received). apply (reach_more _ _ _ _ _ _ _ _ Hr). by eapply step_send_err.
      * exists [f]. auto.
      * naive_solver.
  - exists sent. split; cbn; auto. exists []. rewrite omap_app, Hrd, app_nil_r. cbn. unfold carried. rewrite Em, app_nil_r. auto.
Qed.

Lemma incoming_sent_inv p b r sent received : PumpInv p sent received -> p_in p = Sending b ->
  PumpInv (incoming_sent p b r) sent received.
Proof.
  intros [Hr (rest & Hrd & Hrest) Hw Hs Hv Hd Ho] Hin. destruct Hrest as [->|?]; [|congruence].
  unfold incoming_sent. destruct (send_finish (p_session p) r) as [[s' es] r'] eqn:Ef.
  pose proof (send_finish_frame _ _ _ _ _ Ef) as [Hrd' Ht].
  assert (HR : Reachable s0 sent received (p_effects p ++ es) s').
  { rewrite <- (app_nil_r sent), <- (app_nil_r received). apply (reach_more _ _ _ _ _ _ _ _ Hr).
    eapply step_send_finish; [by eapply Hs | done]. }
  assert (Hc : forall i, (i = InDone \/ i = Sending true -> b = true) -> (forall b', i <> Sending b') ->
    PumpInv (set_in i (set_session s' es p)) sent received).
  { intros i Hi Hn. split; cbn; rewrite ?Hrd', ?Ht; auto.
    - exists []. auto.
    - intros b' Hb'. by destruct (Hn b').
    - intros H. apply Hd. right. by rewrite Hin, (Hi H). }
  destruct r' as [[]|e]; apply Hc; destruct b; try done; by intros [?|?].
Qed.

Lemma outgoing_inv p value sent received :
  Reachable s0 sent (received ++ match value with Ok (Some f) => [f] | _ => [] end) (p_effects p) (p_session p) ->
  (exists rest, omap carried (p_read p) = sent ++ rest /\ (rest = [] \/ p_in p = InFailed)) ->
  Relays (p_peer_closed p) received (p_written p) ->
  (forall b, p_in p = Sending b -> writing (p_session p) = true) ->
  (p_in p = InDone \/ p_in p = Sending true -> has_close sent = true) ->
  (value = Ok None -> terminal (p_session p) = true) ->
  exists received', PumpInv (outgoing p value) sent received'.
Proof.
  intros Hr Hrd Hw Hs Hd Ht. pose proof (accepted _ _ _ _ Hr) as HI. unfold outgoing. destruct value as [[f|]|e].
  - assert (Hf : FrameOk (message_limit s0) f).
    { destruct HI as [_ _ _ Hok _ _ _ _ _ _ _ _]. rewrite app_assoc in Hok. apply Forall_app in Hok as [_ Hok].
      by inversion Hok. }
    exists (received ++ [f]). destruct (bool_decide (kind f = Close) && p_peer_closed p) eqn:Ec.
    + bool_prop. split; cbn; auto; [|done|by intros [?|?]]. by apply relays_echo.
    + destruct (frame_message_ok _ _ Hf) as [m Hm]. rewrite Hm. split; cbn; auto; [|done|by intros [?|?]]. by apply relays_frame.
  - rewrite app_nil_r in Hr. exists received. split; cbn; auto; done.
  - rewrite app_nil_r in Hr. exists received. split; cbn; auto; [done|by intros [?|?]].
Qed.

Lemma outgoing_receive_inv p sent received :
  Reachable s0 sent received (p_effects p) (p_session p) ->
  (exists rest, omap carried (p_read p) = sent ++ rest /\ (rest = [] \/ p_in p = InFailed)) ->
  Relays (p_peer_closed p) received (p_written p) ->
  (forall b, p_in p = Sending b -> writing (p_session p) = true) ->
  (p_in p = InDone \/ p_in p = Sending true -> has_close sent = true) ->
  exists received', PumpInv (outgoing_receive p) sent received'.
Proof.
  intros Hr Hrd Hw Hs Hd. unfold outgoing_receive. destruct (receive_begin (p_session p)) as [s' o] eqn:Eb.
  pose proof (receive_begin_frame _ _ _ Eb) as (Hwr & _ & Hn & Ht & Hf).
  assert (HR : Reachable s0 sent received (p_effects p ++ []) s').
  { rewrite <- (app_nil_r sent), <- (app_nil_r received). apply (reach_more _ _ _ _ _ _ _ _ Hr). by eapply step_receive. }
  destruct o as [r|].
  - apply (outgoing_inv _ _ sent received); cbn; rewrite ?Hwr; auto; [|by intros ->; apply Ht].
    destruct r as [[f|]|e]; [by destruct (Hf f)| |]; by rewrite app_nil_r.
  - exists received. split; cbn; rewrite ?Hwr; auto. by intros [?|?].
Qed.

Lemma outgoing_event_inv p ev sent received : PumpInv p sent received -> p_out p = Receiving ->
  exists received', PumpInv (outgoing_event p ev) sent received'.
Proof.
  intros [Hr Hrd Hw Hs Hv Hd Ho] Hout. unfold outgoing_event. destruct (receive_event (p_session p) ev) as [[s' es] o] eqn:Ee.
  pose proof (receive_event_frame _ _ _ _ _ Ee) as (Hwr & Hn & Ht). destruct o as [r|].
  - apply (outgoing_inv _ _ sent received); cbn; rewrite ?Hwr; auto; [|by intros ->; apply Ht].
    rewrite <- (app_nil_r sent). apply (reach_more _ _ _ _ _ _ _ _ Hr).
    apply (step_event _ ev s' es (Some r)); [by apply Hv | done].
  - destruct (Hn eq_refl) as [-> ->]. exists received. split; cbn; rewrite ?app_nil_r; auto.
Qed.

Lemma outgoing_sunk_inv p r sent received : PumpInv p sent received ->
  p_out p = Writing \/ p_out p = Flushing \/ p_out p = Closing -> exists received', PumpInv (outgoing_sunk p r) sent received'.
Proof.
  intros [Hr Hrd Hw Hs Hv Hd Ho] Hout. unfold outgoing_sunk. destruct (sink_failed r).
  { exists received. split; cbn; auto; [done | by intros [?|?]]. }
  destruct (p_out p); try (by apply (outgoing_receive_inv _ sent received)). exists received. split; cbn; auto; done.
Qed.

Lemma pump_step_inv p e sent received : PumpInv p sent received ->
  exists sent' received', PumpInv (pump_step p e) sent' received'.
Proof.
  intros HP. unfold pump_step. destruct (joined p); [by eauto|].
  assert (Hsame : exists sent' received', PumpInv p sent' received') by eauto.
  destruct e as [item|r|ev|r].
  - destruct (p_in p) eqn:Ei; try done. destruct (incoming_inv p item _ _ HP Ei) as [sent' H]. eauto.
  - destruct (p_in p) eqn:Ei; try done. exists sent, received. by apply incoming_sent_inv.
  - destruct (p_out p) eqn:Eo; try (by destruct (p_in p)).
    destruct (outgoing_event_inv p ev _ _ HP Eo) as [received' H]. destruct (p_in p); eauto.
  - destruct (p_out p) eqn:Eo; try (by destruct (p_in p));
      (destruct (outgoing_sunk_inv p r _ _ HP) as [received' H]; [by auto | destruct (p_in p); eauto]).
Qed.

Lemma pump_run_inv s es events : Reachable s0 [] [] es s ->
  exists sent received, PumpInv (foldl pump_step (pump_start s es) events) sent received.
Proof.
  intros Hr. assert (Hstart : exists sent received, PumpInv (pump_start s es) sent received).
  { exists []. apply (outgoing_receive_inv _ [] []); cbn; auto; [by exists []; auto | constructor | done | by intros [?|?]]. }
  revert Hstart. generalize (pump_start s es). induction events as [|e events IH]; intros p Hp; cbn; [done|].
  destruct Hp as (sent & received & Hp). apply IH. by eapply pump_step_inv.
Qed.

(** The end of a run is the drop of the loops followed by a cancellation. *)
Lemma finish_reach p sent received r last s es : PumpInv p sent received -> finish p r = (last, s, es) ->
  Reachable s0 sent received es s /\ cancelled s = true.
Proof.
  intros [Hr _ _ Hs Hv _ _]. unfold finish. destruct (cancel (drop_loops p)) as [s' es'] eqn:Ec. intros [= <- <- <-].
  split; [|by injection Ec as <- <-].
  assert (Hd : Reachable s0 sent received (p_effects p) (drop_loops p)).
  { assert (Hq : forall s1 s2, Reachable s0 sent received (p_effects p) s1 -> Step s1 [] [] [] s2 ->
      Reachable s0 sent received (p_effects p) s2).
    { intros s1 s2 H1 H2. pose proof (reach_more _ _ _ _ _ _ _ _ H1 H2) as H. by rewrite !app_nil_r in H. }
    unfold drop_loops. destruct (p_in p) as [|b| |] eqn:Ei, (p_out p); try done;
      try (apply (Hq (p_session p)); [done|]; constructor; by eauto).
    apply (Hq (send_drop (p_session p))); [apply (Hq (p_session p)); [done | constructor; by eauto]|].
    apply step_receive_drop. cbn. by auto. }
  rewrite <- (app_nil_r sent), <- (app_nil_r received). apply (reach_more _ _ _ _ _ _ _ _ Hd). by apply step_cancel.
Qed.

End invariant.

(** ** Properties *)

(** The socket pump is a faithful, bounded relay. Whatever the socket and the endpoint deliver and however the two
    loops interleave, the frames handed to the endpoint are those of the socket's messages in order (only a last,
    refused one may be missing), the messages written to the socket are those of the endpoint's frames in order (only
    the answer to the peer's close may be left to the protocol), and all of them are well formed and fit the limits. An
    exchange that ends by itself has seen the peer's close and the endpoint's end, any other end attempts one
    [session unavailable] close. Every end cancels the session and has returned its permit. *)
Lemma pump_faithful st offered ml sl s0 es0 s es events stop p :
  accept st offered ml sl = Some (Ok s0, es0) -> (0 <= sl)%Z -> Reachable s0 [] [] es s ->
  p = foldl pump_step (pump_start s es) events ->
  exists sent received rest,
    omap carried (p_read p) = sent ++ rest /\ (rest = [] \/ p_in p = InFailed)
    /\ Relays (p_peer_closed p) received (p_written p)
    /\ Forall (FrameOk ml) (sent ++ received) /\ (total_bytes sent + total_bytes received <= sl)%Z
    /\ close_last sent /\ close_last received
    /\ (forall r last s' es', outcome p stop = Some r -> finish p r = (last, s', es') ->
          cancelled s' = true /\ permit s' = false
          /\ count_effect PermitAcquired es' = count_effect PermitReleased es'
          /\ StreamCancelled (stream_id (stream s0)) ∈ es'
          /\ match r with
             | Ok _ => last = None /\ has_close sent = true /\ terminal (p_session p) = true
             | Err _ => last = Some SESSION_UNAVAILABLE
             end).
Proof.
  intros Ha Hsl Hr ->. assert (Hacc : forall sent received es s, Reachable s0 sent received es s -> Inv s0 sent received es s)
    by (intros; by eapply accepted_Inv).
  destruct (pump_run_inv s0 Hacc s es events Hr) as (sent & received & HP).
  set (p := foldl pump_step (pump_start s es) events) in *.
  pose proof HP as [Hreach (rest & Hrd & Hrest) Hw _ _ Hd Ho].
  exists sent, received, rest. split; [done|]. split; [done|]. split; [done|].
  pose proof (Hacc _ _ _ _ Hreach) as [[Hm Hs] Ht Hb Hf _ _ Hcs Hcr _ _ _ _].
  apply accept_init in Ha as [Ha _]. rewrite Ha in Hm, Hs, Hf; cbn in Hm, Hs, Hf. split; [done|]. split; [lia|]. split; [done|]. split; [done|].
  intros r last s' es' Hout Hfin. destruct (finish_reach s0 _ _ _ _ _ _ _ HP Hfin) as [HR Hc].
  pose proof (Hacc _ _ _ _ HR) as [_ _ _ _ _ _ _ _ Hp Hn Hx _].
  assert (Hpf : permit s' = false) by (destruct (permit s'); [destruct (Hp eq_refl); congruence | done]).
  split; [done|]. split; [done|]. split; [rewrite Hpf in Hn; lia|]. split; [by apply Hx|].
  unfold finish in Hfin. destruct (cancel _) as [s2 es2]. injection Hfin as <- <- <-.
  destruct r as [[]|[]]; [|done]. split; [done|].
  destruct stop; try done. cbn in Hout. unfold joined in Hout. destruct (p_in p), (p_out p); try done. auto.
Qed.

(** ** Witnesses *)

Definition pump_stream : NativeStream Frame :=
  mkStream 4 [Ok (Kernel.Message (mkFrame Accept None None None None None))] [] [].
Definition pump_session : WebSocketSession :=
  mkSession false (mkStream 4 [] [] []) None 16 64 0 false false false false false false.
Definition pump_retained : WebSocketSession :=
  mkSession true (mkStream 4 [] [] []) None 16 64 0 false false false false false false.
Definition pump_events : list PumpEvent :=
  [Arrived (Some (Ok (TextMessage (lit "hi")))); SessionSent (Ok ());
   SessionEvent (Ok (Kernel.Message (mkFrame Binary None None (Some (lit "ok")) None None))); Sunk SinkOk;
   Arrived (Some (Ok PingMessage)); Arrived (Some (Ok (CloseMessage None))); SessionSent (Ok ());
   SessionEvent (Ok (Kernel.Message (mkFrame Close None None None (Some 1000%Z) None))); Sunk SinkOk;
   SessionEvent (Ok (Terminal (Ok ()))); Sunk SinkClosed].
Definition pump_end : Pump := foldl pump_step (pump_start pump_retained [PermitAcquired]) pump_events.

Example pump_ends : joined pump_end = Some (Ok ()) /\ p_written pump_end = [BinaryMessage (lit "ok")].
Proof. split; reflexivity. Qed.

End WebSocketNative.
