(* ===== verification/ResponseStream.v ===== *)
(** * Streaming responses ([response_stream.rs] and [StreamingBody] of [server.rs])

    [WebIngressResponseStream] validates the frames a stream endpoint produces and hands
    their bytes to the transport; [StreamingBody] is the [hyper] body built on it. Like
    a WebSocket session, the stream is a shared object whose [receive] may be suspended;
    its pieces are interleaved by [Reachable]. *)
From S2P Require Import Prelude RustStd Kernel.

Module ResponseStream.

(** [HandleResponseKind] and [HandleResponse] of the generated stream contract. *)
Inductive FrameKind := Head | Chunk.
#[global] Instance FrameKind_eq_dec : EqDecision FrameKind.
Proof. solve_decision. Defined.

Record StreamFrame := mkStreamFrame {
  kind : FrameKind;
  status : option Z;
  headers : option (list (str * str));
  body : option str;
}.

Record WebIngressResponseStream := mkResponseStream {
  permit : bool;
  stream : NativeStream StreamFrame;
  done : bool;
  cancelled : bool;
  receiving : bool;
}.

Definition new (st : NativeStream StreamFrame) : WebIngressResponseStream :=
  mkResponseStream false st false false false.

Definition set_permit b s := mkResponseStream b (stream s) (done s) (cancelled s) (receiving s).
Definition set_stream st s := mkResponseStream (permit s) st (done s) (cancelled s) (receiving s).
Definition set_done b s := mkResponseStream (permit s) (stream s) b (cancelled s) (receiving s).
Definition set_receiving b s := mkResponseStream (permit s) (stream s) (done s) (cancelled s) b.

Definition released (s : WebIngressResponseStream) : list Effect := if permit s then [PermitReleased] else [].

Definition cancel (s : WebIngressResponseStream) : WebIngressResponseStream * list Effect :=
  (mkResponseStream false (stream s) true true (receiving s),
   released s ++ [StreamCancelled (stream_id (stream s))]).

Definition retain_permit (p : bool) (s : WebIngressResponseStream) : WebIngressResponseStream * list Effect :=
  (set_permit p s, released s).

Definition is_closed (s : WebIngressResponseStream) : bool := done s.

Definition drop_stream (s : WebIngressResponseStream) : list Effect :=
  StreamCancelled (stream_id (stream s)) :: released s.

Definition stream_cancelled : RuntimeFailure := plugin_failure (lit "HTTP response stream cancelled").
Definition concurrent_read : RuntimeFailure := plugin_failure (lit "concurrent HTTP response stream read").
Definition invalid_termination : RuntimeFailure :=
  plugin_failure (lit "invalid HTTP response stream termination").

(** [receive] up to its loop; [None] when it awaits the stream. *)
Definition receive_begin (s : WebIngressResponseStream) :
    WebIngressResponseStream * option (Result RuntimeFailure (option str)) :=
  if cancelled s then (s, Some (Err stream_cancelled)) else
  if done s then (s, Some (Ok None)) else
  if receiving s then (s, Some (Err concurrent_read)) else
  (set_receiving true s, None).

(** A frame the transport may forward. *)
Definition is_chunk (f : StreamFrame) : bool :=
  bool_decide (kind f = Chunk)
  && match status f with None => true | Some _ => false end
  && match headers f with None => true | Some _ => false end.

(** One iteration of the loop; [None] when it goes round. *)
Definition receive_event (s : WebIngressResponseStream)
    (event : Result RuntimeFailure (StreamEvent StreamFrame)) :
    WebIngressResponseStream * list Effect * option (Result RuntimeFailure (option str)) :=
  match event with
  | Ok (Message f) =>
      if is_chunk f then (set_receiving false s, [], Some (Ok (Some (default [] (body f)))))
      else let '(s, es) := cancel s in (set_receiving false s, es, Some (Err invalid_termination))
  | Ok PeerHalfClosed => (s, [], None)
  | Ok (Terminal (Ok _)) =>
      (set_receiving false (set_permit false (set_done true s)), released s, Some (Ok None))
  | Ok (Terminal (Err _)) =>
      let '(s, es) := cancel s in (set_receiving false s, es, Some (Err invalid_termination))
  | Err error => let '(s, es) := cancel s in (set_receiving false s, es, Some (Err error))
  end.

(** The loop over what has arrived; [None] when it is still waiting. *)
Fixpoint receive_loop (events : list (Result RuntimeFailure (StreamEvent StreamFrame)))
    (s : WebIngressResponseStream) :
    WebIngressResponseStream * list Effect * option (Result RuntimeFailure (option str)) :=
  match events with
  | [] => (set_stream (mkStream (stream_id (stream s)) [] (send_script (stream s)) (stream_sent (stream s))) s, [], None)
  | event :: rest =>
      let s := set_stream (mkStream (stream_id (stream s)) rest (send_script (stream s)) (stream_sent (stream s))) s in
      match receive_event s event with
      | (s, es, Some r) => (s, es, Some r)
      | (s, _, None) => receive_loop rest s
      end
  end.

(** One poll of the future [receive()]: the loop runs on what has arrived. *)
Definition receive_poll (s : WebIngressResponseStream) :
    WebIngressResponseStream * list Effect * option (Result RuntimeFailure (option str)) :=
  receive_loop (script (stream s)) s.

(** ** [StreamingBody] *)

Inductive Poll := Pending | ReadyNone | ReadyData (bytes : str) | ReadyError.

(** [receive_pending] says whether [self.receive] holds a future. *)
Record StreamingBody := mkBody {
  body_stream : WebIngressResponseStream;
  receive_pending : bool;
  body_done : bool;
}.

Definition new_body (st : NativeStream StreamFrame) : StreamingBody := mkBody (new st) false false.

(** The result of the future. *)
Definition body_ready (s : WebIngressResponseStream) (r : Result RuntimeFailure (option str)) : StreamingBody * Poll :=
  match r with
  | Ok (Some bytes) => (mkBody s false false, ReadyData bytes)
  | Ok None => (mkBody s false true, ReadyNone)
  | Err _ => (mkBody s false true, ReadyError)
  end.

Definition poll_frame (b : StreamingBody) : StreamingBody * list Effect * Poll :=
  if body_done b then (b, [], ReadyNone) else
  let '(s, started) := if receive_pending b then (body_stream b, None) else receive_begin (body_stream b) in
  match started with
  | Some r => let '(b, p) := body_ready s r in (b, [], p)
  | None =>
      match receive_poll s with
      | (s, es, Some r) => let '(b, p) := body_ready s r in (b, es, p)
      | (s, es, None) => (mkBody s true false, es, Pending)
      end
  end.

Definition is_end_stream (b : StreamingBody) : bool := body_done b.

(** The transport polls until the body is pending or over. *)
Fixpoint poll_all (fuel : nat) (b : StreamingBody) : StreamingBody * list Effect * list str * Poll :=
  match fuel with
  | O => (b, [], [], Pending)
  | S fuel =>
      match poll_frame b with
      | (b, es, ReadyData bytes) =>
          let '(b, es', chunks, p) := poll_all fuel b in (b, es ++ es', bytes :: chunks, p)
      | (b, es, p) => (b, es, [], p)
      end
  end.

(** ** Specification: what the frames of an endpoint mean *)

(** The bytes before the first event that is not a chunk or a half-close notice, and how the body
    ends there: with the clean end of the stream, with an error, or not yet. *)
Fixpoint body_spec (events : list (Result RuntimeFailure (StreamEvent StreamFrame))) : list str * Poll :=
  match events with
  | [] => ([], Pending)
  | Ok (Message f) :: rest =>
      if is_chunk f then let '(chunks, p) := body_spec rest in (default [] (body f) :: chunks, p)
      else ([], ReadyError)
  | Ok PeerHalfClosed :: rest => body_spec rest
  | Ok (Terminal (Ok _)) :: _ => ([], ReadyNone)
  | _ :: _ => ([], ReadyError)
  end.

(** A body between two polls, fresh or suspended. *)
Definition body_open (b : StreamingBody) : Prop :=
  body_done b = false /\ done (body_stream b) = false /\ cancelled (body_stream b) = false
  /\ receiving (body_stream b) = receive_pending b.

(** Polling once consumes the half-close notices and one more event. *)
Lemma receive_loop_spec events s :
  done s = false -> cancelled s = false ->
  match receive_loop events s with
  | (s', es, None) => body_spec events = ([], Pending) /\ es = [] /\ s' = set_stream
      (mkStream (stream_id (stream s)) [] (send_script (stream s)) (stream_sent (stream s))) s
  | (s', es, Some (Ok (Some bytes))) =>
      (let '(chunks, p) := body_spec (script (stream s')) in body_spec events = (bytes :: chunks, p))
      /\ length (script (stream s')) < length events /\ es = []
      /\ done s' = false /\ cancelled s' = false /\ receiving s' = false /\ permit s' = permit s
      /\ stream_id (stream s') = stream_id (stream s)
  | (s', es, Some (Ok None)) => body_spec events = ([], ReadyNone) /\ es = released s /\ permit s' = false
      /\ done s' = true /\ cancelled s' = false
  | (s', es, Some (Err _)) => body_spec events = ([], ReadyError) /\ permit s' = false
      /\ es = released s ++ [StreamCancelled (stream_id (stream s))]
      /\ done s' = true /\ cancelled s' = true
  end.
Proof.
  revert s; induction events as [|ev events IH]; intros s Hd Hc; cbn; [done|].
  destruct ev as [[f| |[[]|[]]]|e]; cbn; try done.
  - destruct (is_chunk f); cbn; [|done]. destruct (body_spec events) as [chunks p]. repeat split; auto.
  - specialize (IH (set_stream (mkStream (stream_id (stream s)) events (send_script (stream s))
                                  (stream_sent (stream s))) s) Hd Hc).
    destruct (receive_loop events _) as [[s' es] [[[bytes|]|]|]]; cbn in *; try done.
    destruct (body_spec (script (stream s'))). intuition lia.
Qed.

Lemma poll_frame_open b : body_open b ->
  exists s, (if receive_pending b then (body_stream b, None) else receive_begin (body_stream b)) = (s, None)
    /\ s = set_receiving true (body_stream b).
Proof.
  intros (Hb & Hd & Hc & Hr). destruct b as [[pm st d c r] rp bd]; cbn in *; subst.
  destruct rp; cbn; eauto.
Qed.

(** The body's chunks, ending and effects, for any number of polls beyond the number of events. *)
Lemma poll_all_spec fuel b : body_open b ->
  length (script (stream (body_stream b))) < fuel ->
  let '(b', es, chunks, p) := poll_all fuel b in
  body_spec (script (stream (body_stream b))) = (chunks, p)
  /\ es = match p with
          | ReadyNone => released (body_stream b)
          | ReadyError => released (body_stream b) ++ [StreamCancelled (stream_id (stream (body_stream b)))]
          | _ => []
          end
  /\ is_end_stream b' = match p with ReadyNone | ReadyError => true | _ => false end.
Proof.
  revert b; induction fuel as [|fuel IH]; intros b Ho Hf; [lia|]. cbn [poll_all].
  unfold poll_frame. destruct (poll_frame_open b Ho) as (s & -> & ->).
  destruct Ho as (Hb & Hd & Hc & Hr). rewrite Hb. unfold receive_poll.
  pose proof (receive_loop_spec (script (stream (body_stream b))) (set_receiving true (body_stream b)) Hd Hc) as HL.
  change (script (stream (set_receiving true (body_stream b)))) with (script (stream (body_stream b))).
  destruct (receive_loop _ _) as [[s' es] [[[bytes|]|e]|]]; cbn [body_ready] in *.
  - destruct (body_spec (script (stream s'))) as [chunks p] eqn:Es.
    destruct HL as (HL & Hlen & -> & Hd' & Hc' & Hr' & Hp' & Hi').
    specialize (IH (mkBody s' false false)). cbn [body_stream] in IH.
    assert (Ho' : body_open (mkBody s' false false)) by (repeat split; done).
    specialize (IH Ho'). destruct (poll_all fuel (mkBody s' false false)) as [[[b'' es''] chunks''] p''].
    destruct IH as (IH1 & IH2 & IH3); [lia|]. rewrite Es in IH1. injection IH1 as -> ->.
    split; [done|]. split; [|done]. cbn [app]. rewrite IH2. unfold released. by rewrite Hp', Hi'.
  - destruct HL as (HL & -> & _). done.
  - destruct HL as (HL & _ & -> & _). done.
  - destruct HL as (HL & -> & _). done.
Qed.

(** ** Properties *)

(** Polling a fresh streaming body delivers exactly the chunks the endpoint sent, in order and
    complete, up to the first event that is not a chunk; the body ends cleanly only when that event is
    the endpoint's successful termination, and every other one (a second head, a domain rejection, a
    runtime failure) surfaces as an error after cancelling the stream. One poll more than there are
    events is always enough. *)
Lemma streaming_body_exact st fuel :
  length (script st) < fuel ->
  let '(b, es, chunks, p) := poll_all fuel (new_body st) in
  body_spec (script st) = (chunks, p)
  /\ es = match p with ReadyError => [StreamCancelled (stream_id st)] | _ => [] end
  /\ is_end_stream b = match p with ReadyNone | ReadyError => true | _ => false end.
Proof.
  intros Hf. pose proof (poll_all_spec fuel (new_body st)) as HP.
  destruct (poll_all fuel (new_body st)) as [[[b es] chunks] p].
  destruct HP as (H1 & H2 & H3); [repeat split | done | ].
  split; [done|]. split; [|done]. rewrite H2. by destruct p.
Qed.

(** ** All interleavings of the shared stream *)

Inductive Step : WebIngressResponseStream -> list Effect -> WebIngressResponseStream -> Prop :=
| step_receive s s' o : receive_begin s = (s', o) -> Step s [] s'
| step_event s ev s' es o : receiving s = true -> receive_event s ev = (s', es, o) -> Step s es s'
| step_drop s : receiving s = true -> Step s [] (set_receiving false s)
| step_cancel s s' es : cancel s = (s', es) -> Step s es s'
| step_retain s s' es : done s = false -> permit s = false -> retain_permit true s = (s', es) ->
    Step s (PermitAcquired :: es) s'.

Inductive Reachable (s0 : WebIngressResponseStream) : list Effect -> WebIngressResponseStream -> Prop :=
| reach_init : Reachable s0 [] s0
| reach_step es s es' s' : Reachable s0 es s -> Step s es' s' -> Reachable s0 (es ++ es') s'.

Record Inv (es : list Effect) (s : WebIngressResponseStream) : Prop := {
  sinv_cancelled : cancelled s = true -> done s = true;
  sinv_permit : done s = true -> permit s = false;
  sinv_conserved : count_effect PermitAcquired es = count_effect PermitReleased es + (if permit s then 1 else 0);
}.

Lemma stream_inv_quiet es s es' s' : Inv es s ->
  (cancelled s' = true -> done s' = true) -> (done s' = true -> permit s' = false) ->
  count_effect PermitAcquired es' + (if permit s then 1 else 0)
    = count_effect PermitReleased es' + (if permit s' then 1 else 0) ->
  Inv (es ++ es') s'.
Proof.
  intros [_ _ Hc] H1 H2 H3. split; try done.
  rewrite !count_effect_app. lia.
Qed.

Lemma stream_inv_step es s es' s' : Inv es s -> Step s es' s' -> Inv (es ++ es') s'.
Proof.
  intros HI HS. pose proof (sinv_cancelled _ _ HI). pose proof (sinv_permit _ _ HI).
  destruct HS as [s s' o Hr | s ev s' es' o Hr He | s Hr | s s' es' Hc | s s' es' Hd Hp Hr].
  - unfold receive_begin in Hr. repeat case_match; simplify_eq;
      apply (stream_inv_quiet _ _ _ _ HI); cbn; destruct HI; auto.
  - unfold receive_event, cancel in He. repeat case_match; simplify_eq;
      apply (stream_inv_quiet _ _ _ _ HI); cbn; auto; unfold released; by destruct (permit s).
  - apply (stream_inv_quiet _ _ _ _ HI); auto.
  - injection Hc as <- <-. apply (stream_inv_quiet _ _ _ _ HI); cbn; auto.
    unfold released. by destruct (permit s).
  - injection Hr as <- <-. apply (stream_inv_quiet _ _ _ _ HI); cbn; auto; [congruence|].
    unfold released. by rewrite Hp.
Qed.

(** However reads, cancellations and dropped reads interleave, a closed response stream holds no
    permit, a cancelled one is closed, and every permit it was given is returned exactly once. *)
Lemma response_stream_permit_conserved st es s :
  Reachable (new st) es s ->
  (cancelled s = true -> is_closed s = true) /\ (is_closed s = true -> permit s = false)
  /\ count_effect PermitAcquired es = count_effect PermitReleased es + (if permit s then 1 else 0).
Proof.
  intros HR. assert (HI : Inv es s); [|by destruct HI].
  induction HR; [by split|]. by eapply stream_inv_step.
Qed.

Lemma stream_reachable_trans s0 es s es' s' : Reachable s0 es s -> Reachable s es' s' -> Reachable s0 (es ++ es') s'.
Proof. intros HR HR'. induction HR' as [|? ? ? ? _ IH]; [by rewrite app_nil_r|]. rewrite app_assoc. by eapply reach_step. Qed.

(** A fresh stream that was handed a permit gives it back: when it is closed, at the latest when it is dropped, and never twice. *)
Lemma stream_retained_returned st es s : Reachable (set_permit true (new st)) es s ->
  (is_closed s = true -> count_effect PermitReleased es = S (count_effect PermitAcquired es))
  /\ count_effect PermitReleased (es ++ drop_stream s) = S (count_effect PermitAcquired es).
Proof.
  intros HR. assert (HS : Step (new st) [PermitAcquired] (set_permit true (new st))) by by eapply (step_retain _ _ []).
  destruct (response_stream_permit_conserved _ _ _ (stream_reachable_trans _ _ _ _ _ (reach_step _ _ _ _ _ (reach_init _) HS) HR)) as (_ & Hp & Hc).
  rewrite !count_effect_app in Hc. rewrite count_effect_app.
  change (count_effect PermitAcquired [PermitAcquired]) with 1 in Hc. change (count_effect PermitReleased [PermitAcquired]) with 0 in Hc.
  change (count_effect PermitAcquired []) with 0 in Hc. change (count_effect PermitReleased []) with 0 in Hc.
  assert (Hd : count_effect PermitReleased (drop_stream s) = if permit s then 1 else 0) by (unfold drop_stream, released; by destruct (permit s)).
  rewrite Hd. split; [|lia].
  intros Hend. rewrite (Hp Hend) in Hc. lia.
Qed.

(** ** Witnesses *)

Definition chunk (s : string) : Result RuntimeFailure (StreamEvent StreamFrame) :=
  Ok (Message (mkStreamFrame Chunk None None (Some (lit s)))).
Definition sample_stream : NativeStream StreamFrame :=
  mkStream 3 [chunk "ab"; Ok PeerHalfClosed; chunk "c"; Ok (Terminal (Ok ()))] [] [].

Example sample_body : (let '(_, _, chunks, p) := poll_all 5 (new_body sample_stream) in (chunks, p))
  = ([lit "ab"; lit "c"], ReadyNone).
Proof. vm_compute. reflexivity. Qed.

End ResponseStream.
