(* ===== verification/Handshake.v ===== *)
(** * WebSocket handshakes ([lenso-web-ingress-plugin/src/websocket_handshake.rs])

    [base64] and [sha1] are third-party crates: the functions the code calls are an
    interface, [Digests], about which nothing is assumed. *)
From S2P Require Import Prelude RustStd HttpCrate RefHttp.

Class Digests := {
  base64_decode : str -> option str;
  base64_encode : str -> str;
  sha1_digest : str -> str;
}.

Module Handshake.

Record Handshake := mkHandshake { accept : str; protocols : list str }.

Definition token (value : str) : bool :=
  negb (is_empty value) && (len value <=? 128)%Z
  && forallb (fun byte => is_ascii_alphanumeric byte || bool_decide (byte ∈ lit "!#$%&'*+-.^_`|~")) value.

(** [protocols[..index].contains(value)] for some index. *)
Definition has_repeat (protocols : list str) : bool :=
  existsb (fun '(index, value) => bool_decide (value ∈ take index protocols)) (enumerate protocols).

Definition GUID : str := lit "258EAFA5-E914-47DA-95CA-C5AB0DC85B11".

Section handshake.
Context `{HttpCrate} `{Digests}.

Definition single (headers : HeaderMap) (name : str) : Result unit (option str) :=
  match hm_get_all (hn_from_static name) headers with
  | [] => Ok None
  | value :: rest =>
      let! s := hv_to_str value else Err () in
      if negb (is_empty rest) then Err () else Ok (Some s)
  end.

Definition parse (headers : HeaderMap) (allowed_origins : list str) : Result unit Handshake :=
  let? upgrade := single headers (lit "upgrade") in
  if negb (match upgrade with Some v => eq_ignore_ascii_case v (lit "websocket") | None => false end)
  then Err () else
  let? version := single headers (lit "sec-websocket-version") in
  if negb (bool_decide (version = Some (lit "13"))) then Err () else
  let? connection := try_map (fun v => ok_or () (hv_to_str v))
                       (hm_get_all (hn_from_static (lit "connection")) headers) in
  if negb (existsb (fun v => existsb (fun t => eq_ignore_ascii_case (trim t) (lit "upgrade")) (split "," v)) connection)
  then Err () else
  let? origin := single headers (lit "origin") in
  if match origin with Some o => negb (bool_decide (o ∈ allowed_origins)) | None => false end
  then Err () else
  let? found := single headers (lit "sec-websocket-key") in
  let! key := found else Err () in
  let! decoded := base64_decode key else Err () in
  if negb (len decoded =? 16)%Z || negb (bool_decide (base64_encode decoded = key)) then Err () else
  let? offered := single headers (lit "sec-websocket-protocol") in
  let protocols := match offered with Some v => trim <$> split "," v | None => [] end in
  if (16 <? len protocols)%Z || existsb (fun v => negb (token v)) protocols || has_repeat protocols
  then Err () else
  Ok (mkHandshake (base64_encode (sha1_digest (key ++ GUID))) protocols).

(** ** Lemmas *)

Lemma single_ok h n o : single h n = Ok o <->
  match hm_get_all (hn_from_static n) h with
  | [] => o = None
  | [v] => exists s, hv_to_str v = Some s /\ o = Some s
  | _ => False
  end.
Proof.
  unfold single. destruct (hm_get_all _ h) as [|v [|w l]]; cbn.
  - naive_solver.
  - destruct (hv_to_str v); naive_solver.
  - destruct (hv_to_str v); naive_solver.
Qed.

(** The field [n] is given once, as the readable text [s]. *)
Definition field_is (h : HeaderMap) (n s : str) : Prop :=
  exists v, hm_get_all (hn_from_static n) h = [v] /\ hv_to_str v = Some s.
Definition field_absent (h : HeaderMap) (n : str) : Prop := hm_get_all (hn_from_static n) h = [].

Lemma single_Some h n s : single h n = Ok (Some s) <-> field_is h n s.
Proof.
  rewrite single_ok. unfold field_is. destruct (hm_get_all _ h) as [|v [|w l]]; naive_solver.
Qed.

Lemma single_None h n : single h n = Ok None <-> field_absent h n.
Proof.
  rewrite single_ok. unfold field_absent. destruct (hm_get_all _ h) as [|v [|w l]]; naive_solver.
Qed.

Lemma has_repeat_false l : has_repeat l = false <-> NoDup l.
Proof.
  unfold has_repeat. split.
  - intros Hr. apply NoDup_alt. intros i j x Hi Hj.
    assert (Hlt : forall a b, l !! a = Some x -> l !! b = Some x -> a < b -> False).
    { intros a b Ha Hb Hab. assert (Ht : existsb (fun '(index, value) => bool_decide (value ∈ take index l)) (enumerate l) = true); [|congruence].
      apply existsb_exists. exists (b, x). rewrite <- list_elem_of_In, elem_of_enumerate. split; [done|].
      apply bool_decide_true. apply list_elem_of_lookup. exists a. by rewrite lookup_take_lt. }
    destruct (decide (i = j)); [done|]. exfalso.
    destruct (decide (i < j)); [eapply (Hlt i j) | eapply (Hlt j i)]; try done; lia.
  - intros Hn. apply not_true_iff_false. intros Hr.
    apply existsb_exists in Hr as ([i x] & Hin & Hd). rewrite <- list_elem_of_In, elem_of_enumerate in Hin.
    apply bool_decide_eq_true_1, list_elem_of_lookup in Hd as [j Hj].
    apply lookup_take_Some in Hj as [Hj Hlt].
    pose proof (proj1 (NoDup_alt l) Hn i j x Hin Hj). lia.
Qed.

Lemma existsb_negb_token l : existsb (fun v => negb (token v)) l = false <-> Forall (fun v => token v = true) l.
Proof.
  induction l as [|v l IH]; cbn; [done|]. rewrite orb_false_iff, IH, negb_false_iff, Forall_cons. done.
Qed.

(** The client asked for an upgrade of this connection, in readable text. *)
Definition asks_upgrade (h : HeaderMap) : Prop :=
  exists texts, Forall2 (fun v s => hv_to_str v = Some s) (hm_get_all (hn_from_static (lit "connection")) h) texts
    /\ exists t piece, t ∈ texts /\ piece ∈ split "," t
       /\ to_ascii_lowercase (trim piece) = lit "upgrade".

Lemma asks_upgrade_ok h :
  asks_upgrade h <->
  exists texts, try_map (fun v => ok_or () (hv_to_str v)) (hm_get_all (hn_from_static (lit "connection")) h) = Ok texts
    /\ existsb (fun v => existsb (fun t => eq_ignore_ascii_case (trim t) (lit "upgrade")) (split "," v)) texts = true.
Proof.
  unfold asks_upgrade. apply exist_proper. intros texts. rewrite try_map_Forall2.
  assert (E1 : Forall2 (fun v s => hv_to_str v = Some s) (hm_get_all (hn_from_static (lit "connection")) h) texts
    <-> Forall2 (fun a b => ok_or () (hv_to_str a) = Ok b) (hm_get_all (hn_from_static (lit "connection")) h) texts).
  { split; intros HF; (eapply Forall2_impl; [exact HF|]); intros v s; cbn; destruct (hv_to_str v); cbn; naive_solver. }
  rewrite E1, existsb_exists. setoid_rewrite <- list_elem_of_In. setoid_rewrite existsb_exists.
  setoid_rewrite <- list_elem_of_In. setoid_rewrite eq_ignore_ascii_case_spec.
  split; [intros (? & t & piece & ? & ? & ?) | intros (? & t & ? & piece & ? & ?)]; split; eauto 8.
Qed.

(** The answer of an accepted handshake. *)
Lemma parse_ok_fields h origins hs : parse h origins = Ok hs ->
  exists key, accept hs = base64_encode (sha1_digest (key ++ GUID))
    /\ Forall (fun p => token p = true) (protocols hs).
Proof.
  unfold parse. intros Hp. repeat (inv_ok_step Hp; cbn zeta in Hp). subst hs.
  bool_prop. rewrite existsb_negb_token in *. cbn. eauto.
Qed.

(** The fields a handshake is read from. *)
Definition control_fields : list str := [lit "upgrade"; lit "sec-websocket-version"; lit "connection"; lit "origin";
  lit "sec-websocket-key"; lit "sec-websocket-protocol"].

(** Only the bytes of these fields matter: not their sensitivity, and no other field. *)
Lemma parse_bytes `{!HttpLaws} h h' origins :
  (forall n, n ∈ control_fields -> hv_as_bytes <$> hm_get_all (hn_from_static n) h = hv_as_bytes <$> hm_get_all (hn_from_static n) h') ->
  parse h origins = parse h' origins.
Proof.
  intros Hb.
  assert (Hsame : forall v v', hv_as_bytes v = hv_as_bytes v' -> hv_to_str v = hv_to_str v') by (intros v v' Hv; by rewrite !hv_to_str_spec, Hv).
  assert (Hs : forall n, n ∈ control_fields -> single h n = single h' n).
  { intros n Hn. specialize (Hb n Hn). unfold single.
    destruct (hm_get_all (hn_from_static n) h) as [|v l], (hm_get_all (hn_from_static n) h') as [|v' l']; try done.
    rewrite !fmap_cons in Hb. injection Hb as Hv Hl. rewrite (Hsame v v' Hv). by destruct l, l'. }
  assert (Hc : try_map (fun v => ok_or () (hv_to_str v)) (hm_get_all (hn_from_static (lit "connection")) h)
             = try_map (fun v => ok_or () (hv_to_str v)) (hm_get_all (hn_from_static (lit "connection")) h')).
  { specialize (Hb (lit "connection") ltac:(unfold control_fields; set_solver)). revert Hb.
    generalize (hm_get_all (hn_from_static (lit "connection")) h'). generalize (hm_get_all (hn_from_static (lit "connection")) h).
    intros l. induction l as [|v l IH]; intros [|v' l'] Hl; try done. rewrite !fmap_cons in Hl. injection Hl as Hv Hl.
    cbn [try_map]. by rewrite (Hsame v v' Hv), (IH l' Hl). }
  unfold parse. rewrite Hc. do 5 (rewrite (Hs (lit _)) by (unfold control_fields; set_solver)). done.
Qed.

(** ** Properties *)

(** The offers a handshake may be made from: each control field is given at most once, the request asks for the [websocket]
    upgrade at version 13, the origin is absent or listed, the key is the canonical encoding of sixteen bytes, and the offered
    subprotocols are at most sixteen distinct tokens; the answer is the digest of the key and the protocol's identifier, with
    the subprotocols in the order of the offer. *)
Definition Accepts (h : HeaderMap) (origins : list str) (hs : Handshake) : Prop :=
  (exists v, field_is h (lit "upgrade") v /\ to_ascii_lowercase v = lit "websocket")
  /\ field_is h (lit "sec-websocket-version") (lit "13")
  /\ asks_upgrade h
  /\ (field_absent h (lit "origin") \/ exists o, field_is h (lit "origin") o /\ o ∈ origins)
  /\ exists key decoded, field_is h (lit "sec-websocket-key") key
     /\ base64_decode key = Some decoded /\ len decoded = 16%Z /\ base64_encode decoded = key
     /\ accept hs = base64_encode (sha1_digest (key ++ GUID))
  /\ (field_absent h (lit "sec-websocket-protocol") /\ protocols hs = []
      \/ exists v, field_is h (lit "sec-websocket-protocol") v /\ protocols hs = trim <$> split "," v)
  /\ (len (protocols hs) <= 16)%Z /\ Forall (fun p => token p = true) (protocols hs) /\ NoDup (protocols hs).

(** A handshake is accepted exactly from such an offer. *)
Lemma parse_exact h origins hs : parse h origins = Ok hs <-> Accepts h origins hs.
Proof.
  unfold Accepts. setoid_rewrite <- single_Some. setoid_rewrite <- single_None. rewrite asks_upgrade_ok. unfold parse. split.
  - intros Hp. inv_ok_step Hp. rename value into up, E into Eup. inv_ok_step Hp. rename E into Eup'.
    inv_ok_step Hp. rename value into ver, E into Ever. inv_ok_step Hp. rename E into Ever'.
    inv_ok_step Hp. rename value into con, E into Econ. inv_ok_step Hp. rename E into Econ'.
    inv_ok_step Hp. rename value into org, E into Eorg. inv_ok_step Hp. rename E into Eorg'.
    inv_ok_step Hp. rename value into fk, E into Ekey. inv_ok_step Hp. rename l into key, E into Efk. subst fk.
    inv_ok_step Hp. rename l into decoded, E into Edec. inv_ok_step Hp. rename E into Ecanon.
    inv_ok_step Hp. rename value into off, E into Eoff. cbn zeta in Hp. inv_ok_step Hp. rename E into Epr.
    injection Hp as <-. bool_prop. subst ver. rewrite has_repeat_false, existsb_negb_token in *. cbn [accept protocols].
    repeat split; try done.
    + destruct up as [v|]; [|done]. exists v. by apply eq_ignore_ascii_case_spec in Eup'.
    + by exists con.
    + destruct org as [o|]; [|by left]. bool_prop. right. by exists o.
    + exists key, decoded. repeat split; try done. destruct off as [v|]; [|by left]. right. by exists v.
  - intros ((v & Hup & Hv) & Hver & (con & Hcon & Hconu) & Horg & key & decoded & Hkey & Hdec & Hlen & Hcan
      & Hacc & Hoff & Hn & Htok & Hdup).
    rewrite Hup, (proj2 (eq_ignore_ascii_case_spec v (lit "websocket"))) by done. cbn [negb].
    rewrite Hver, bool_decide_true by done. cbn [negb]. rewrite Hcon, Hconu. cbn [negb].
    assert (Ho : exists org, single h (lit "origin") = Ok org
      /\ match org with Some o => negb (bool_decide (o ∈ origins)) | None => false end = false).
    { destruct Horg as [Ho | (o & Ho & Hin)]; [by exists None|]. exists (Some o). by rewrite bool_decide_true. }
    destruct Ho as (org & -> & ->). rewrite Hkey, Hdec, Hlen, Hcan, bool_decide_true by done.
    change (16 =? 16)%Z with true. cbn [negb orb].
    assert (Hoff' : exists off, single h (lit "sec-websocket-protocol") = Ok off
      /\ match off with Some v => trim <$> split "," v | None => [] end = protocols hs).
    { destruct Hoff as [[Ho Hp] | (w & Ho & Hp)]; [by exists None | by exists (Some w)]. }
    destruct Hoff' as (off & -> & ->).
    rewrite (proj2 (Z.ltb_ge _ _) Hn), (proj2 (existsb_negb_token _) Htok), (proj2 (has_repeat_false _) Hdup).
    cbn. destruct hs; cbn in *. by subst.
Qed.
End handshake.
End Handshake.
