(* ===== verification/Request.v ===== *)
(** * Inbound requests ([lenso-web-ingress-plugin/src/ingress.rs], the request side)

    Request identifiers, the normalization of an accepted HTTP request into the request an
    endpoint may see, and the two conversions around the middleware. Cancellation tokens
    and the disconnect receiver are opaque handles, numbered by [Z]. *)
From S2P Require Import Prelude RustStd HttpCrate RefHttp Config SessionCookie.

Module Request.
Import SessionCookie.

Inductive RequestRejection := BadRequest | CsrfForbidden.
#[global] Instance RequestRejection_eq_dec : EqDecision RequestRejection.
Proof. solve_decision. Defined.

(** [impl From<CredentialRejection> for RequestRejection]. *)
Definition rejection_from (value : CredentialRejection) : RequestRejection :=
  match value with
  | SessionCookie.BadRequest => BadRequest
  | SessionCookie.CsrfForbidden => CsrfForbidden
  end.

(** ** Request identifiers *)

(** The shared counter; both variants of the enum wrap around at 64 bits. *)
Inductive RequestIdSequence := Local (next : Z) | Replicated (next : Z).

Definition next (self : RequestIdSequence) : Z * RequestIdSequence :=
  match self with
  | Local v => (v, Local (wrapping_add v 1))
  | Replicated v => (v, Replicated (wrapping_add v 1))
  end.

(** The loop that writes decimal digits from the end of the buffer. [start -= 1] underflows at zero. *)
Fixpoint write_digits (start : nat) (buffer : str) (value : Z) : Outcome (str * nat) :=
  match start with
  | O => Panicked
  | S start =>
      let buffer := <[start := byte_of (48 + value mod 10)]> buffer in
      let value := (value / 10)%Z in
      if (value =? 0)%Z then Returned (buffer, start) else write_digits start buffer value
  end.

Definition id_prefix : str := lit "lenso-".

(** The bytes [&buffer[start..]] given to the header value. *)
Definition request_id_bytes (value : Z) : Outcome str :=
  let^ (buffer, start) := write_digits 26 (replicate 26 (byte_of 0)) value in
  if decide (start < length id_prefix) then Panicked else
  let start := start - length id_prefix in
  let buffer := take start buffer ++ id_prefix ++ drop (start + length id_prefix) buffer in
  Returned (drop start buffer).

Record InboundHeader := mkInboundHeader { header_name : str; header_value : str }.
#[global] Instance InboundHeader_eq_dec : EqDecision InboundHeader.
Proof. solve_decision. Defined.

Section request.
Context `{HttpCrate}.

Definition REQUEST_ID_HEADER : HeaderName := hn_from_static (lit "x-request-id").

Definition request_id_header_value (value : Z) : Outcome HeaderValue :=
  let^ bytes := request_id_bytes value in expect (hv_from_bytes bytes).

Definition replace_request_id (headers : HeaderMap) (ids : RequestIdSequence) :
    Outcome (HeaderValue * HeaderMap * RequestIdSequence) :=
  let '(value, ids) := next ids in
  let^ request_id := request_id_header_value value in
  Returned (request_id, hm_insert REQUEST_ID_HEADER request_id headers, ids).

Definition request_id (headers : HeaderMap) : Result RequestRejection str :=
  let! request_id := hm_get REQUEST_ID_HEADER headers ≫= hv_to_str else Err BadRequest in
  if is_empty request_id || (128 <? len request_id)%Z then Err BadRequest else Ok request_id.

(** ** Header classes *)

Definition is_static_hop_by_hop_name (name : str) : bool :=
  eq_ignore_ascii_case name (lit "connection") || eq_ignore_ascii_case name (lit "te")
  || eq_ignore_ascii_case name (lit "trailer") || eq_ignore_ascii_case name (lit "transfer-encoding")
  || eq_ignore_ascii_case name (lit "upgrade") || eq_ignore_ascii_case name (lit "keep-alive")
  || eq_ignore_ascii_case name (lit "proxy-connection").

Definition is_static_hop_by_hop_header (name : HeaderName) : bool :=
  bool_decide (name = CONNECTION) || bool_decide (name = TE) || bool_decide (name = TRAILER)
  || bool_decide (name = TRANSFER_ENCODING) || bool_decide (name = UPGRADE)
  || bool_decide (hn_as_str name = lit "keep-alive")
  || bool_decide (hn_as_str name = lit "proxy-connection").

Definition is_filtered_request_header (name : HeaderName) : bool :=
  bool_decide (name = AUTHORIZATION) || bool_decide (name = COOKIE)
  || is_static_hop_by_hop_header name || bool_decide (name = CONTENT_LENGTH)
  || bool_decide (name = HOST) || bool_decide (name = REQUEST_ID_HEADER).

(** The set of names is the list of insertions; only membership is asked. *)
Definition connection_owned_headers (headers : HeaderMap) : Result RequestRejection (list HeaderName) :=
  try_fold (fun owned value =>
      let! value := hv_to_str value else Err BadRequest in
      try_fold (fun owned name =>
          if is_static_hop_by_hop_name name then Ok owned else
          let! name := hn_from_bytes name else Err BadRequest in
          Ok (owned ++ [name]))
        owned (filter (fun name => is_empty name = false) (trim <$> split "," value)))
    [] (hm_get_all CONNECTION headers).

Definition normalized_method (method : Method) : Outcome Method :=
  if existsb is_ascii_lowercase (m_as_str method)
  then expect (m_from_bytes (to_ascii_uppercase (m_as_str method)))
  else Returned method.

Record InboundRequest := mkInbound {
  body : str;
  cancellation : Z;
  credential : option CredentialEvidence;
  disconnected : Z;
  csrf_header_name : option HeaderName;
  headers : list InboundHeader;
  method : Method;
  path : str;
  query : option str;
  inbound_request_id : str;
}.

(** The fields an endpoint may see, as both conversions compute them. *)
Definition forwarded_headers (csrf_header_name : option HeaderName) (connection_owned : list HeaderName)
    (headers : HeaderMap) : Result RequestRejection (list InboundHeader) :=
  try_map (fun '(name, value) =>
      let! value := hv_to_str value else Err BadRequest in
      Ok (mkInboundHeader (hn_as_str name) value))
    (filter (fun '(name, _) =>
       negb (is_filtered_request_header name)
       && negb (match csrf_header_name with Some csrf => bool_decide (csrf = name) | None => false end)
       && negb (bool_decide (name ∈ connection_owned)) = true) (hm_iter headers)).

Definition inbound_request (method : Method) (uri : Uri) (headers : HeaderMap) (body : str)
    (cancellation disconnected : Z) (session_cookie : option SessionCookiePolicy) :
    Outcome (Result RequestRejection InboundRequest) :=
  match request_id headers with
  | Err e => Returned (Err e)
  | Ok request_id =>
  match select_credential method headers session_cookie with
  | Err e => Returned (Err (rejection_from e))
  | Ok credential =>
  let csrf_header_name := policy_csrf_header_name <$> session_cookie in
  match connection_owned_headers headers with
  | Err e => Returned (Err e)
  | Ok connection_owned =>
  match forwarded_headers csrf_header_name connection_owned headers with
  | Err e => Returned (Err e)
  | Ok fields =>
  let^ method := normalized_method method in
  Returned (Ok {|
    body := body; cancellation := cancellation; credential := credential;
    disconnected := disconnected; csrf_header_name := csrf_header_name; headers := fields;
    method := method; path := uri_path uri; query := uri_query uri;
    inbound_request_id := request_id |})
  end end end end.

(** ** Around the middleware *)

(** [http::Request<Bytes>]. *)
Record WebIngressRequest := mkRequest {
  req_method : Method; req_uri : Uri; req_version : Version; req_headers : HeaderMap; req_body : str }.

Record InboundRequestControl := mkControl {
  ctl_cancellation : Z;
  ctl_credential : option CredentialEvidence;
  ctl_csrf_header_name : option HeaderName;
  ctl_disconnected : Z;
  ctl_request_id : str;
}.

Definition middleware_request (request : InboundRequest) (version : Version) :
    Outcome (WebIngressRequest * InboundRequestControl) :=
  let uri := match query request with
             | None => path request
             | Some query => path request ++ "?"%char :: query
             end in
  let^ uri := expect (uri_parse uri) in
  let^ fields := panic_fold (fun fields header =>
      let^ name := expect (hn_from_bytes (header_name header)) in
      let^ value := expect (hv_from_str (header_value header)) in
      Returned (hm_append name value fields)) hm_new (headers request) in
  let^ id := expect (hv_from_str (inbound_request_id request)) in
  Returned (mkRequest (method request) uri version (hm_insert REQUEST_ID_HEADER id fields) (body request),
            mkControl (cancellation request) (credential request) (csrf_header_name request)
              (disconnected request) (inbound_request_id request)).

Definition restore_inbound_request (request : WebIngressRequest) (control : InboundRequestControl) :
    Outcome (Result RequestRejection InboundRequest) :=
  match connection_owned_headers (req_headers request) with
  | Err e => Returned (Err e)
  | Ok connection_owned =>
  match forwarded_headers (ctl_csrf_header_name control) connection_owned (req_headers request) with
  | Err e => Returned (Err e)
  | Ok fields =>
  let^ method := normalized_method (req_method request) in
  Returned (Ok {|
    body := req_body request; cancellation := ctl_cancellation control;
    credential := ctl_credential control; disconnected := ctl_disconnected control;
    csrf_header_name := ctl_csrf_header_name control; headers := fields;
    method := method; path := uri_path (req_uri request); query := uri_query (req_uri request);
    inbound_request_id := ctl_request_id control |})
  end end.

(** ** Request head *)

Definition mark_sensitive_headers (headers : HeaderMap) (session_cookie : option SessionCookiePolicy) : HeaderMap :=
  hm_iter_mut (fun name value =>
    if bool_decide (name = AUTHORIZATION) || bool_decide (name = COOKIE)
       || match session_cookie with
          | Some policy => bool_decide (name = policy_csrf_header_name policy)
          | None => false
          end
    then hv_set_sensitive value else value) headers.

Definition serialized_uri_len (uri : Uri) : Z :=
  let size := match uri_path_and_query uri with Some pq => len pq | None => 0%Z end in
  let size := match uri_scheme_str uri with Some scheme => (size + (len scheme + 3))%Z | None => size end in
  match uri_authority uri with Some authority => (size + len authority)%Z | None => size end.

Definition version_len (version : Version) : Z := 8.

Definition canonical_request_head_len (request : WebIngressRequest) : Z :=
  (len (m_as_str (req_method request)) + 1 + serialized_uri_len (req_uri request) + 1
   + version_len (req_version request) + 2
   + foldr Z.add 0 ((fun '(name, value) => len (hn_as_str name) + 2 + len (hv_as_bytes value) + 2)
                      <$> hm_iter (req_headers request))
   + 2)%Z.

Context `{!HttpLaws}.

(** ** Lemmas: request identifiers *)

Lemma write_digits_spec k start buffer value fuel :
  1 <= k <= start -> start <= length buffer -> (0 <= value < 10 ^ Z.of_nat k)%Z ->
  (Z.log2 value <= Z.of_nat fuel)%Z ->
  exists buffer' start', write_digits start buffer value = Returned (buffer', start')
    /\ start - k <= start' <= start /\ length buffer' = length buffer
    /\ drop start' buffer' = digits_aux fuel value (drop start buffer).
Proof.
  revert k buffer value fuel; induction start as [|start IH]; intros k buffer value fuel Hk Hb Hv Hf; [lia|].
  cbn [write_digits]. set (c := byte_of (48 + value mod 10)).
  assert (Hdrop : drop start (<[start := c]> buffer) = c :: drop (S start) buffer).
  { rewrite drop_insert_ge by lia. rewrite Nat.sub_diag.
    destruct (lookup_lt_is_Some_2 buffer start) as [x Hx]; [lia|]. by rewrite (drop_S _ _ _ Hx). }
  assert (Hdig : forall acc, digits_aux fuel value acc =
    if (value / 10 =? 0)%Z then byte_of (48 + value mod 10) :: acc
    else digits_aux (pred fuel) (value / 10) (byte_of (48 + value mod 10) :: acc)).
  { intros acc. destruct fuel as [|fuel]; [|done]. cbn. destruct (Z.eqb_spec (value / 10) 0); [done|].
    assert (10 <= value)%Z by (destruct (Z.le_gt_cases 10 value); [done|]; rewrite Z.div_small in *; lia).
    pose proof (Z.log2_le_mono 10 value). change (Z.log2 10) with 3%Z in *. lia. }
  rewrite Hdig. destruct (Z.eqb_spec (value / 10) 0) as [E|E].
  - exists (<[start := c]> buffer), start. split; [done|]. split; [lia|].
    by rewrite length_insert.
  - assert (10 <= value)%Z by (destruct (Z.le_gt_cases 10 value); [done|]; rewrite Z.div_small in *; lia).
    destruct k as [|[|k]]; [lia| |].
    { change (10 ^ Z.of_nat 1)%Z with 10%Z in Hv. lia. }
    pose proof (log2_div10 value).
    destruct (IH (S k) (<[start := c]> buffer) (value / 10)%Z (pred fuel)) as (b' & s' & Hw & Hs & Hl & Hd).
    + lia.
    + rewrite length_insert. lia.
    + replace (Z.of_nat (S (S k))) with (1 + Z.of_nat (S k))%Z in Hv by lia.
      rewrite Z.pow_add_r in Hv by lia. change (10 ^ 1)%Z with 10%Z in Hv.
      split; [apply Z.div_pos; lia | apply Z.div_lt_upper_bound; lia].
    + lia.
    + exists b', s'. rewrite length_insert in Hl. rewrite Hdrop in Hd. split; [done|]. split; [lia|]. done.
Qed.

Lemma request_id_bytes_spec value : (0 <= value <= u64_max)%Z ->
  request_id_bytes value = Returned (id_prefix ++ show_Z value).
Proof.
  intros Hv. unfold request_id_bytes.
  destruct (write_digits_spec 20 26 (replicate 26 (byte_of 0)) value (Z.to_nat (Z.log2 value)))
    as (b & s & -> & Hs & Hl & Hd).
  - lia.
  - by rewrite length_replicate.
  - unfold u64_max in Hv. change (10 ^ Z.of_nat 20)%Z with 100000000000000000000%Z.
    change (2 ^ 64)%Z with 18446744073709551616%Z in Hv. lia.
  - pose proof (Z.log2_nonneg value). lia.
  - rewrite length_replicate in Hl. change (length id_prefix) with 6.
    rewrite decide_False by lia. f_equal.
    rewrite drop_app_length' by (rewrite length_take; lia).
    replace (s - 6 + 6) with s by lia. rewrite Hd. done.
Qed.

Lemma digit_visible c : is_ascii_digit c = true -> visible_ascii c = true.
Proof.
  unfold is_ascii_digit, visible_ascii. rewrite in_range_spec. intros.
  rewrite (proj2 (in_range_spec 32 126 _)); [done | lia].
Qed.

Lemma request_id_visible value : forallb visible_ascii (id_prefix ++ show_Z value) = true.
Proof.
  rewrite forallb_app. apply andb_true_intro. split; [done|]. apply forallb_forall. intros c Hc.
  apply digit_visible. pose proof (show_Z_digits value) as Hd. rewrite Forall_forall in Hd.
  apply Hd. by apply list_elem_of_In.
Qed.

Lemma request_id_header_value_spec value : (0 <= value <= u64_max)%Z ->
  exists hv, request_id_header_value value = Returned hv
    /\ hv_as_bytes hv = id_prefix ++ show_Z value /\ hv_to_str hv = Some (id_prefix ++ show_Z value).
Proof.
  intros Hv. unfold request_id_header_value. rewrite request_id_bytes_spec by done.
  destruct (hv_from_bytes_ok _ (request_id_visible value)) as [hv Hhv]. rewrite Hhv.
  exists hv. split; [done|]. pose proof (hv_from_bytes_bytes _ _ Hhv) as Hb. split; [done|].
  apply hv_to_str_Some. by rewrite Hb, request_id_visible.
Qed.

(** The identifiers handed out after [n] requests. *)
Fixpoint nth_id (n : nat) (ids : RequestIdSequence) : Z :=
  match n with O => (next ids).1 | S n => nth_id n (next ids).2 end.

Definition id_value (ids : RequestIdSequence) : Z := match ids with Local v | Replicated v => v end.

Lemma nth_id_spec n ids : (0 <= id_value ids <= u64_max)%Z ->
  nth_id n ids = ((id_value ids + Z.of_nat n) mod 2 ^ 64)%Z.
Proof.
  revert ids; induction n as [|n IH]; intros ids Hi; cbn [nth_id].
  - rewrite Z.add_0_r, Z.mod_small by (unfold u64_max in *; lia). by destruct ids.
  - assert (Hn : id_value (next ids).2 = ((id_value ids + 1) mod 2 ^ 64)%Z) by by destruct ids.
    rewrite IH.
    + rewrite Hn, Zplus_mod_idemp_l. f_equal. lia.
    + rewrite Hn. unfold u64_max. pose proof (Z.mod_pos_bound (id_value ids + 1) (2 ^ 64)). lia.
Qed.

(** Assigning a request identifier never panics (the 26-byte buffer holds every 64-bit value),
    the identifier is [lenso-] followed by the decimal counter, and the identifiers of fewer than 2^64
    consecutive requests are pairwise distinct. *)
Lemma request_ids_distinct ids i j :
  (0 <= id_value ids <= u64_max)%Z -> i < j -> (Z.of_nat j - Z.of_nat i < 2 ^ 64)%Z ->
  exists hi hj, request_id_header_value (nth_id i ids) = Returned hi
    /\ request_id_header_value (nth_id j ids) = Returned hj
    /\ hv_to_str hi = Some (id_prefix ++ show_Z ((id_value ids + Z.of_nat i) mod 2 ^ 64))
    /\ hv_as_bytes hi <> hv_as_bytes hj.
Proof.
  intros Hids Hij Hd. rewrite !nth_id_spec by done.
  assert (Hr : forall n, (0 <= (id_value ids + Z.of_nat n) mod 2 ^ 64 <= u64_max)%Z).
  { intros n. unfold u64_max. pose proof (Z.mod_pos_bound (id_value ids + Z.of_nat n) (2 ^ 64)). lia. }
  destruct (request_id_header_value_spec _ (Hr i)) as (hi & -> & Hbi & Hsi).
  destruct (request_id_header_value_spec _ (Hr j)) as (hj & -> & Hbj & _).
  exists hi, hj. do 3 (split; [done|]). rewrite Hbi, Hbj. intros E.
  apply app_inv_head, show_Z_inj in E; [|apply Hr|apply Hr].
  assert (Hm : ((Z.of_nat j - Z.of_nat i) mod 2 ^ 64 = 0)%Z).
  { replace (Z.of_nat j - Z.of_nat i)%Z
      with ((id_value ids + Z.of_nat j) - (id_value ids + Z.of_nat i))%Z by lia.
    rewrite Zminus_mod, E, Z.sub_diag. done. }
  rewrite Z.mod_small in Hm; lia.
Qed.

(** ** Lemmas: header classes *)

Definition hop_by_hop_names : list str :=
  [lit "connection"; lit "te"; lit "trailer"; lit "transfer-encoding"; lit "upgrade";
   lit "keep-alive"; lit "proxy-connection"].

(** The fields no endpoint and no middleware may see: credentials, the fields of this connection,
    framing, and the request identifier. *)
Definition forbidden_names : list str :=
  [lit "authorization"; lit "cookie"] ++ hop_by_hop_names
  ++ [lit "content-length"; lit "host"; lit "x-request-id"].

Lemma static_name_test n s : valid_name s = true -> to_ascii_lowercase s = s ->
  bool_decide (n = hn_from_static s) = bool_decide (hn_as_str n = s).
Proof. intros Hv Hl. apply bool_decide_ext. by apply hn_from_static_eq. Qed.

Lemma hop_by_hop_spec n : is_static_hop_by_hop_header n = true <-> hn_as_str n ∈ hop_by_hop_names.
Proof.
  unfold is_static_hop_by_hop_header, hop_by_hop_names, CONNECTION, TE, TRAILER, TRANSFER_ENCODING, UPGRADE.
  rewrite !static_name_test by (vm_compute; reflexivity).
  rewrite !orb_true_iff, !bool_decide_eq_true. set_solver.
Qed.

Lemma filtered_spec n : is_filtered_request_header n = true <-> hn_as_str n ∈ forbidden_names.
Proof.
  unfold is_filtered_request_header, forbidden_names, AUTHORIZATION, COOKIE, CONTENT_LENGTH, HOST, REQUEST_ID_HEADER.
  rewrite !static_name_test by (vm_compute; reflexivity).
  rewrite !orb_true_iff, hop_by_hop_spec, !bool_decide_eq_true, !elem_of_app. set_solver.
Qed.

Lemma hop_by_hop_name_spec s : is_static_hop_by_hop_name s = true <-> to_ascii_lowercase s ∈ hop_by_hop_names.
Proof.
  unfold is_static_hop_by_hop_name. rewrite !orb_true_iff, !eq_ignore_ascii_case_spec.
  unfold hop_by_hop_names. rewrite !elem_of_cons, elem_of_nil.
  assert (forall a b, a = to_ascii_lowercase b <-> a = to_ascii_lowercase b) by done.
  change (to_ascii_lowercase (lit "connection")) with (lit "connection").
  change (to_ascii_lowercase (lit "te")) with (lit "te").
  change (to_ascii_lowercase (lit "trailer")) with (lit "trailer").
  change (to_ascii_lowercase (lit "transfer-encoding")) with (lit "transfer-encoding").
  change (to_ascii_lowercase (lit "upgrade")) with (lit "upgrade").
  change (to_ascii_lowercase (lit "keep-alive")) with (lit "keep-alive").
  change (to_ascii_lowercase (lit "proxy-connection")) with (lit "proxy-connection").
  tauto.
Qed.

(** The [Connection] field names [n]. *)
Definition connection_lists (h : HeaderMap) (n : HeaderName) : Prop :=
  exists v t piece, v ∈ hm_get_all CONNECTION h /\ hv_to_str v = Some t /\ piece ∈ split "," t
    /\ to_ascii_lowercase (trim piece) = hn_as_str n.

Lemma name_not_empty n : hn_as_str n <> [].
Proof. pose proof (hn_as_str_valid n) as Hv. unfold valid_name in Hv. by destruct (hn_as_str n). Qed.

Lemma owned_pieces pieces owned owned' n :
  try_fold (fun owned name =>
      if is_static_hop_by_hop_name name then Ok owned else
      let! name := hn_from_bytes name else Err BadRequest in Ok (owned ++ [name])) owned pieces = Ok owned' ->
  n ∈ owned' <-> n ∈ owned \/ exists piece, piece ∈ pieces /\ is_static_hop_by_hop_name piece = false
                                           /\ to_ascii_lowercase piece = hn_as_str n.
Proof.
  revert owned; induction pieces as [|p pieces IH]; intros owned Hf; cbn in Hf.
  - injection Hf as <-. set_solver.
  - destruct (is_static_hop_by_hop_name p) eqn:Ep.
    + rewrite (IH _ Hf). setoid_rewrite elem_of_cons. naive_solver congruence.
    + destruct (hn_from_bytes p) as [m|] eqn:Em; [|done]. rewrite (IH _ Hf), elem_of_app, list_elem_of_singleton.
      apply hn_from_bytes_spec in Em as [_ Em]. setoid_rewrite elem_of_cons.
      split.
      * intros [[?| -> ]|(q & ? & ? & ?)]; [by left | right; by exists p; auto | right; exists q; auto].
      * intros [?|(q & [ -> |?] & ? & Hq)]; [by left; left| |right; by exists q].
        left; right. apply hn_as_str_inj. congruence.
Qed.

Lemma owned_values values owned owned' n :
  try_fold (fun owned value =>
      let! value := hv_to_str value else Err BadRequest in
      try_fold (fun owned name =>
          if is_static_hop_by_hop_name name then Ok owned else
          let! name := hn_from_bytes name else Err BadRequest in Ok (owned ++ [name]))
        owned (filter (fun name => is_empty name = false) (trim <$> split "," value))) owned values = Ok owned' ->
  n ∈ owned' <-> n ∈ owned \/ exists v t piece, v ∈ values /\ hv_to_str v = Some t /\ piece ∈ split "," t
    /\ is_static_hop_by_hop_name (trim piece) = false /\ to_ascii_lowercase (trim piece) = hn_as_str n.
Proof.
  revert owned; induction values as [|v values IH]; intros owned Hf; cbn in Hf.
  - injection Hf as <-. set_solver.
  - destruct (hv_to_str v) as [t|] eqn:Ev; [|done].
    match type of Hf with match ?x with _ => _ end = _ => destruct x as [o1|] eqn:E1; [|done] end.
    rewrite (IH _ Hf), (owned_pieces _ _ _ n E1). clear IH Hf E1.
    setoid_rewrite elem_of_cons. setoid_rewrite list_elem_of_filter. setoid_rewrite list_elem_of_fmap.
    split.
    + intros [[?|(q & [_ (p & -> & ?)] & ? & ?)]|(w & t' & p & ? & ? & ?)]; [by left| |]; right.
      * exists v, t, p. auto.
      * exists w, t', p. auto.
    + intros [?|(w & t' & p & [ -> |?] & Ht & Hp & Hs & Hl)]; [by left; left| |].
      * left; right. exists (trim p). split; [|done]. split; [|exists p; split; [done|congruence]].
        destruct (trim p) eqn:Etp; [|done]. by destruct (name_not_empty n).
      * right. by exists w, t', p.
Qed.

Lemma connection_owned_spec h owned n : connection_owned_headers h = Ok owned ->
  connection_lists h n <-> n ∈ owned \/ connection_lists h n /\ is_static_hop_by_hop_header n = true.
Proof.
  intros Ho. apply (owned_values _ _ _ n) in Ho. unfold connection_lists. split.
  - intros (v & t & p & Hv & Ht & Hp & Hn). destruct (is_static_hop_by_hop_name (trim p)) eqn:Es.
    + right. split; [by exists v, t, p|]. apply hop_by_hop_spec. apply hop_by_hop_name_spec in Es. congruence.
    + left. apply Ho. right. by exists v, t, p.
  - intros [Hn | [Hn _]]; [|done]. apply Ho in Hn as [Hn|(v & t & p & ? & ? & ? & ? & ?)];
      [by apply not_elem_of_nil in Hn|]. by exists v, t, p.
Qed.

(** Which fields are forwarded. *)
Definition Forwardable (csrf : option HeaderName) (h : HeaderMap) (n : HeaderName) : Prop :=
  hn_as_str n ∉ forbidden_names /\ csrf <> Some n /\ ~ connection_lists h n.

Definition keep (csrf : option HeaderName) (owned : list HeaderName) (n : HeaderName) : bool :=
  negb (is_filtered_request_header n)
  && negb (match csrf with Some c => bool_decide (c = n) | None => false end)
  && negb (bool_decide (n ∈ owned)).

Lemma keep_spec csrf owned h n : connection_owned_headers h = Ok owned ->
  keep csrf owned n = true <-> Forwardable csrf h n.
Proof.
  intros Ho. unfold keep, Forwardable. rewrite !andb_true_iff, !negb_true_iff.
  rewrite (connection_owned_spec h owned n Ho), <- filtered_spec, bool_decide_eq_false, not_true_iff_false.
  assert (Hc : match csrf with Some c => bool_decide (c = n) | None => false end = false <-> csrf <> Some n).
  { destruct csrf; [rewrite bool_decide_eq_false|]; naive_solver. }
  rewrite Hc. split; [|tauto]. intros [[Hf Hcs] Hn]. repeat split; try done.
  intros [?|[_ Hs]]; [done|]. unfold is_filtered_request_header in Hf. rewrite Hs in Hf.
  by rewrite !orb_true_r in Hf.
Qed.

(** ** Lemmas: forwarded fields *)

Definition field_of (e : HeaderName * HeaderValue) (f : InboundHeader) : Prop :=
  header_name f = hn_as_str e.1 /\ hv_to_str e.2 = Some (header_value f).

(** The values forwarded under one name. *)
Definition values_named (s : str) (fs : list InboundHeader) : list str :=
  header_value <$> filter (fun f => header_name f = s) fs.

Lemma forwarded_headers_ok csrf owned h fs :
  forwarded_headers csrf owned h = Ok fs <->
  Forall2 field_of (filter (fun e => keep csrf owned e.1 = true) (hm_iter h)) fs.
Proof.
  unfold forwarded_headers. rewrite try_map_Forall2.
  assert (Ef : filter (fun '(name, _) =>
       negb (is_filtered_request_header name)
       && negb (match csrf with Some csrf => bool_decide (csrf = name) | None => false end)
       && negb (bool_decide (name ∈ owned)) = true) (hm_iter h)
    = filter (fun e => keep csrf owned e.1 = true) (hm_iter h)).
  { apply list_filter_iff. by intros [n v]. }
  rewrite Ef. clear Ef. unfold field_of. split; intros HF; (eapply Forall2_impl; [exact HF|]).
  - intros [n v] [fn fv] He; cbn in *. destruct (hv_to_str v); [|done]. by injection He as <- <-.
  - intros [n v] [fn fv] [Hn Hv]; cbn in *. by rewrite Hn, Hv.
Qed.

Lemma field_of_values l fs n : Forall2 field_of l fs ->
  Forall2 (fun v s => hv_to_str v = Some s) (filter (fun e => e.1 = n) l).*2 (values_named (hn_as_str n) fs).
Proof.
  induction 1 as [|[k v] f l fs [Hn Hv] HF IH]; [constructor|]; cbn in Hn, Hv.
  unfold values_named in *. rewrite !filter_cons. cbn [fst].
  destruct (decide (k = n)) as [->|Hne].
  - rewrite decide_True by done. cbn. by constructor.
  - rewrite decide_False; [done|]. intros E. apply Hne, hn_as_str_inj. congruence.
Qed.

Lemma filter_keep_get csrf owned h n :
  (filter (fun e => e.1 = n) (filter (fun e => keep csrf owned e.1 = true) (hm_iter h))).*2
  = if keep csrf owned n then hm_get_all n h else [].
Proof.
  rewrite hm_get_all_iter. induction (hm_iter h) as [|[k v] l IH].
  - by destruct (keep csrf owned n).
  - rewrite (filter_cons (fun e => keep csrf owned e.1 = true)), (filter_cons _ (k, v) l). cbn [fst].
    destruct (decide (k = n)) as [->|Hne]; destruct (keep csrf owned _) eqn:Ek; cbn [decide];
      repeat case_decide; try congruence; rewrite ?filter_cons; cbn [fst];
      rewrite ?decide_True, ?decide_False by done; cbn; rewrite ?IH, ?Ek; try done.
Qed.

Lemma values_named_names s fs : (forall f, f ∈ fs -> header_name f <> s) -> values_named s fs = [].
Proof.
  intros Hs. unfold values_named. induction fs as [|f fs IH]; [done|].
  rewrite filter_cons, decide_False; [apply IH|]; intros; apply Hs; set_solver.
Qed.

Lemma forwarded_exact csrf owned h fs :
  connection_owned_headers h = Ok owned -> forwarded_headers csrf owned h = Ok fs ->
  (forall f, f ∈ fs -> exists n, header_name f = hn_as_str n /\ Forwardable csrf h n)
  /\ (forall n, Forwardable csrf h n ->
        Forall2 (fun v s => hv_to_str v = Some s) (hm_get_all n h) (values_named (hn_as_str n) fs)).
Proof.
  intros Ho Hf. apply forwarded_headers_ok in Hf. split.
  - intros f Hin. apply list_elem_of_lookup in Hin as [i Hi].
    destruct (Forall2_lookup_r _ _ _ _ _ Hf Hi) as ([n v] & Hl & Hn & _).
    apply list_elem_of_lookup_2, list_elem_of_filter in Hl as [Hk _].
    exists n. split; [done|]. by apply (keep_spec csrf owned).
  - intros n Hn. apply (keep_spec csrf owned) in Hn; [|done].
    pose proof (field_of_values _ _ n Hf) as HF. by rewrite filter_keep_get, Hn in HF.
Qed.

(** Every forwarded field is allowed and every allowed field is forwarded, value by value. *)
Definition ForwardsExactly (csrf : option HeaderName) (h : HeaderMap) (fs : list InboundHeader) : Prop :=
  (forall f, f ∈ fs -> exists n, header_name f = hn_as_str n /\ Forwardable csrf h n)
  /\ (forall n, Forwardable csrf h n ->
        Forall2 (fun v s => hv_to_str v = Some s) (hm_get_all n h) (values_named (hn_as_str n) fs)).

(** What [inbound_request] returns, decomposed. *)
Lemma inbound_request_ok m u h b c d p r :
  inbound_request m u h b c d p = Returned (Ok r) ->
  exists owned, request_id h = Ok (inbound_request_id r)
    /\ select_credential m h p = Ok (credential r)
    /\ connection_owned_headers h = Ok owned
    /\ forwarded_headers (policy_csrf_header_name <$> p) owned h = Ok (headers r)
    /\ normalized_method m = Returned (method r)
    /\ r = mkInbound b c (credential r) d (policy_csrf_header_name <$> p) (headers r) (method r)
             (uri_path u) (uri_query u) (inbound_request_id r).
Proof.
  unfold inbound_request. intros Hr.
  destruct (request_id h) as [rid|]; [|done]. destruct (select_credential m h p) as [cr|]; [|done].
  destruct (connection_owned_headers h) as [owned|]; [|done].
  destruct (forwarded_headers _ owned h) as [fs|] eqn:Ef; [|done].
  destruct (normalized_method m) as [m'| |]; [|done|done]. injection Hr as <-. exists owned. done.
Qed.

Lemma restore_ok req ctl r :
  restore_inbound_request req ctl = Returned (Ok r) ->
  exists owned, connection_owned_headers (req_headers req) = Ok owned
    /\ forwarded_headers (ctl_csrf_header_name ctl) owned (req_headers req) = Ok (headers r)
    /\ normalized_method (req_method req) = Returned (method r)
    /\ r = mkInbound (req_body req) (ctl_cancellation ctl) (ctl_credential ctl) (ctl_disconnected ctl)
             (ctl_csrf_header_name ctl) (headers r) (method r)
             (uri_path (req_uri req)) (uri_query (req_uri req)) (ctl_request_id ctl).
Proof.
  unfold restore_inbound_request. intros Hr.
  destruct (connection_owned_headers _) as [owned|]; [|done].
  destruct (forwarded_headers _ owned _) as [fs|] eqn:Ef; [|done].
  destruct (normalized_method _) as [m'| |]; [|done|done]. injection Hr as <-. exists owned. done.
Qed.

(** ** Properties *)

(** C8: a request that reaches middleware and endpoints carries exactly the client's fields that are
    neither credentials ([Authorization], [Cookie], the CSRF header), nor connection-specific
    (hop-by-hop names and every name the [Connection] field lists), nor framing or identity fields set
    by the ingress; those it carries have all their values in the client's order. *)
Theorem inbound_fields_exact m u h b c d p r :
  inbound_request m u h b c d p = Returned (Ok r) ->
  ForwardsExactly (policy_csrf_header_name <$> p) h (headers r).
Proof.
  intros Hr. apply inbound_request_ok in Hr as (owned & _ & _ & Ho & Hf & _). by apply (forwarded_exact _ owned).
Qed.

(** Middleware cannot forge identity: whatever request a middleware chain produces, the restored
    request keeps the credential, the CSRF policy, the request identifier and the cancellation handles
    of the original one, and its fields again exclude every credential and connection field. *)
Lemma restore_keeps_identity req ctl r :
  restore_inbound_request req ctl = Returned (Ok r) ->
  credential r = ctl_credential ctl /\ inbound_request_id r = ctl_request_id ctl
  /\ csrf_header_name r = ctl_csrf_header_name ctl
  /\ cancellation r = ctl_cancellation ctl /\ disconnected r = ctl_disconnected ctl
  /\ ForwardsExactly (ctl_csrf_header_name ctl) (req_headers req) (headers r).
Proof.
  intros Hr. apply restore_ok in Hr as (owned & Ho & Hf & _ & Hr).
  pose proof (forwarded_exact _ _ _ _ Ho Hf) as HE. rewrite Hr. done.
Qed.

(** ** Lemmas: the round trip *)

Lemma tchar_upper c : tchar (ascii_upper c) = tchar c.
Proof. destruct c as [[] [] [] [] [] [] [] []]; vm_compute; reflexivity. Qed.

Lemma upper_not_lower c : is_ascii_lowercase (ascii_upper c) = false.
Proof. destruct c as [[] [] [] [] [] [] [] []]; vm_compute; reflexivity. Qed.

Lemma upper_id s : existsb is_ascii_lowercase s = false -> to_ascii_uppercase s = s.
Proof.
  unfold to_ascii_uppercase. induction s as [|c s IH]; cbn; [done|]. intros Hs. apply orb_false_elim in Hs as [Hc Hs].
  rewrite IH by done. unfold ascii_upper. by rewrite Hc.
Qed.

(** [normalized_method] upper-cases; its [expect] cannot fire. *)
Lemma normalized_method_spec m : exists m', normalized_method m = Returned m'
  /\ m_as_str m' = to_ascii_uppercase (m_as_str m) /\ existsb is_ascii_lowercase (m_as_str m') = false.
Proof.
  unfold normalized_method. destruct (existsb is_ascii_lowercase (m_as_str m)) eqn:El.
  - assert (Hv : valid_method (to_ascii_uppercase (m_as_str m)) = true).
    { pose proof (m_as_str_valid m) as Hv. unfold valid_method, to_ascii_uppercase in *. bool_prop.
      rewrite andb_true_iff. split; [by destruct (m_as_str m)|].
      match goal with Hf : forallb tchar _ = true |- _ => revert Hf end. clear.
      induction (m_as_str m) as [|c t IH]; cbn; [done|]. rewrite tchar_upper, !andb_true_iff. tauto. }
    destruct (m_from_bytes_ok _ Hv) as [m' Hm]. rewrite Hm. exists m'. split; [done|].
    apply m_from_bytes_spec in Hm as [_ Hm]. rewrite Hm. split; [done|].
    unfold to_ascii_uppercase. clear. induction (m_as_str m) as [|c s IH]; cbn; [done|].
    by rewrite upper_not_lower, IH.
  - exists m. split; [done|]. by rewrite upper_id.
Qed.

Lemma append_fields_spec fs m0 :
  (forall f, f ∈ fs -> (exists n, header_name f = hn_as_str n) /\ forallb visible_ascii (header_value f) = true) ->
  exists l, panic_fold (fun fields header =>
      let^ name := expect (hn_from_bytes (header_name header)) in
      let^ value := expect (hv_from_str (header_value header)) in
      Returned (hm_append name value fields)) m0 fs = Returned (hm_append_all l m0)
    /\ Forall2 field_of l fs.
Proof.
  revert m0; induction fs as [|f fs IH]; intros m0 Hfs; cbn.
  - exists []. by split.
  - destruct (Hfs f) as [[n Hn] Hv]; [by left|]. rewrite Hn, hn_from_bytes_as_str. cbn.
    destruct (hv_from_str_to_str _ Hv) as (v & Ev & Hs). rewrite Ev. cbn.
    destruct (IH (hm_append n v m0)) as (l & Hl & HF); [intros g Hg; apply Hfs; by right|].
    exists ((n, v) :: l). rewrite Hl. split; [done|]. constructor; [done|]. done.
Qed.

Lemma request_id_ok h s : request_id h = Ok s -> exists v, hm_get REQUEST_ID_HEADER h = Some v
  /\ hv_to_str v = Some s /\ s <> [] /\ (len s <= 128)%Z.
Proof.
  unfold request_id. destruct (hm_get REQUEST_ID_HEADER h) as [v|]; cbn; [|done].
  destruct (hv_to_str v) as [t|] eqn:Ev; [|done]. intros Hs. inv_ok Hs. subst t. bool_prop.
  exists v. repeat split; try done. by destruct s.
Qed.

Lemma Forall2_functional {A} (l : list A) f (xs ys : list str) :
  Forall2 (fun v s => f v = Some s) l xs -> Forall2 (fun v s => f v = Some s) l ys -> xs = ys.
Proof.
  intros Hx. revert ys; induction Hx as [|v s l xs Hv Hx IH]; intros ys Hy; inversion Hy; [done|].
  subst. f_equal; [congruence | auto].
Qed.

(** The headers a middleware sees. *)
Lemma middleware_headers_get l id n :
  hm_get_all n (hm_insert REQUEST_ID_HEADER id (hm_append_all l hm_new))
  = if decide (n = REQUEST_ID_HEADER) then [id] else (filter (fun e => e.1 = n) l).*2.
Proof.
  destruct (decide (n = REQUEST_ID_HEADER)) as [->|Hne]; [apply hm_insert_eq|].
  rewrite hm_insert_ne by done. by rewrite hm_append_all_get, hm_get_all_new.
Qed.

(** A map without [Connection] field. *)
Lemma no_connection h : hm_get_all CONNECTION h = [] ->
  connection_owned_headers h = Ok [] /\ forall n, ~ connection_lists h n.
Proof.
  intros Hc. unfold connection_owned_headers, connection_lists. rewrite Hc. split; [done|].
  intros n (v & t & q & Hv & _). by apply not_elem_of_nil in Hv.
Qed.

Lemma forwarded_total csrf owned h :
  (forall n v, v ∈ hm_get_all n h -> keep csrf owned n = true -> is_Some (hv_to_str v)) ->
  exists fs, forwarded_headers csrf owned h = Ok fs.
Proof.
  intros Hr. setoid_rewrite forwarded_headers_ok.
  assert (HF : Forall (fun e => is_Some (hv_to_str e.2)) (filter (fun e => keep csrf owned e.1 = true) (hm_iter h))).
  { apply Forall_forall. intros [n v] Hin. apply list_elem_of_filter in Hin as [Hk Hin].
    apply (Hr n v); [by apply elem_of_hm_iter | done]. }
  induction HF as [|e l [s Hs] HF [fs IH]]; [by exists []|].
  exists (mkInboundHeader (hn_as_str e.1) s :: fs). by constructor.
Qed.

Section view.
Variables (csrf : option HeaderName) (h : HeaderMap) (fs : list InboundHeader)
  (l : list (HeaderName * HeaderValue)) (idv : HeaderValue).
Hypothesis Hnames : forall f, f ∈ fs -> exists n, header_name f = hn_as_str n /\ Forwardable csrf h n.
Hypothesis HF : Forall2 field_of l fs.

(** The header map a middleware sees for the forwarded fields [fs]. *)
Let view := hm_insert REQUEST_ID_HEADER idv (hm_append_all l hm_new).

Lemma view_values n : n <> REQUEST_ID_HEADER ->
  Forall2 (fun v s => hv_to_str v = Some s) (hm_get_all n view) (values_named (hn_as_str n) fs).
Proof.
  intros Hn. unfold view. rewrite middleware_headers_get, decide_False by done. by apply field_of_values.
Qed.

Lemma view_no_connection : hm_get_all CONNECTION view = [].
Proof.
  apply (Forall2_nil_inv_r (fun v s => hv_to_str v = Some s)).
  rewrite <- (values_named_names (hn_as_str CONNECTION) fs); [apply view_values; unfold REQUEST_ID_HEADER; name_ne|].
  intros f Hin E. destruct (Hnames f Hin) as (n & Hn & Hk & _). apply Hk. rewrite <- Hn, E.
  apply filtered_spec. unfold is_filtered_request_header, is_static_hop_by_hop_header.
  rewrite (bool_decide_true (CONNECTION = CONNECTION)) by done. by rewrite !orb_true_r.
Qed.

Lemma forwardable_not_id g n : Forwardable csrf g n -> n <> REQUEST_ID_HEADER.
Proof.
  intros [Hk _] ->. apply Hk, filtered_spec. unfold is_filtered_request_header.
  rewrite (bool_decide_true (REQUEST_ID_HEADER = REQUEST_ID_HEADER)) by done. by rewrite !orb_true_r.
Qed.

Lemma view_restores : exists fs', connection_owned_headers view = Ok []
  /\ forwarded_headers csrf [] view = Ok fs' /\ forall s, values_named s fs' = values_named s fs.
Proof.
  destruct (no_connection view view_no_connection) as [Hco Hcl].
  destruct (forwarded_total csrf [] view) as [fs' Hfs'].
  { intros n v Hv Hk. apply (keep_spec csrf [] view n Hco), forwardable_not_id, view_values in Hk.
    apply list_elem_of_lookup in Hv as [i Hi].
    destruct (Forall2_lookup_l _ _ _ _ _ Hk Hi) as (s & _ & ->). by eexists. }
  exists fs'. split; [done|]. split; [done|]. intros s.
  destruct (forwarded_exact _ _ _ _ Hco Hfs') as [Hn' Hv'].
  assert (Hcase : forall n, hn_as_str n = s -> Forwardable csrf view n -> values_named s fs' = values_named s fs).
  { intros n <- Hk. eapply Forall2_functional; [by apply Hv'|]. apply view_values. by apply (forwardable_not_id view). }
  destruct (decide (s ∈ header_name <$> (fs' ++ fs))) as [Hin|Hin].
  - apply list_elem_of_fmap in Hin as (f & -> & Hin). apply elem_of_app in Hin as [Hin|Hin].
    + destruct (Hn' f Hin) as (n & Hn & Hk). by apply (Hcase n).
    + destruct (Hnames f Hin) as (n & Hn & Hk & Hcs & _). apply (Hcase n); [done|]. by split.
  - rewrite !values_named_names; [done| |]; intros f Hf E; apply Hin, list_elem_of_fmap;
      exists f; rewrite elem_of_app; auto.
Qed.
End view.

Lemma middleware_request_total m u h b c d p r version :
  inbound_request m u h b c d p = Returned (Ok r) -> uri_path u <> [] ->
  exists req ctl l idv, middleware_request r version = Returned (req, ctl)
    /\ Forall2 field_of l (headers r)
    /\ req_headers req = hm_insert REQUEST_ID_HEADER idv (hm_append_all l hm_new)
    /\ req_method req = method r /\ req_body req = body r
    /\ uri_path (req_uri req) = path r /\ uri_query (req_uri req) = query r
    /\ ctl = mkControl (cancellation r) (credential r) (csrf_header_name r) (disconnected r) (inbound_request_id r).
Proof.
  intros Hr Hp. apply inbound_request_ok in Hr as (owned & Hid & _ & Ho & Hf & Hm & Hr).
  pose proof (forwarded_exact _ _ _ _ Ho Hf) as [Hnames _].
  destruct (uri_path_query_parse u Hp) as (u' & Hu & Hup & Huq).
  destruct (append_fields_spec (headers r) hm_new) as (l & Hl & HF).
  { intros f Hin. destruct (Hnames f Hin) as (n & Hn & _). split; [eauto|].
    apply forwarded_headers_ok in Hf. apply list_elem_of_lookup in Hin as [i Hi].
    destruct (Forall2_lookup_r _ _ _ _ _ Hf Hi) as (e & _ & _ & Hs). by apply hv_to_str_Some in Hs as [_ ?]. }
  apply request_id_ok in Hid as (v & _ & Hv & _). apply hv_to_str_Some in Hv as [_ Hvis].
  destruct (hv_from_str_to_str _ Hvis) as (idv & Hidv & _).
  rewrite Hr in Hl |- *. cbn [headers] in Hl. unfold middleware_request; cbn.
  replace (match uri_query u with Some q => uri_path u ++ "?"%char :: q | None => uri_path u end)
    with (uri_path u ++ match uri_query u with Some q => "?"%char :: q | None => [] end).
  2: { destruct (uri_query u); [done | by rewrite app_nil_r]. }
  rewrite Hu; cbn. rewrite Hl, Hidv; cbn. eexists _, _, l, idv. by split_and!.
Qed.

(** Normalization is stable: an accepted request passes through the middleware conversion without
    panicking, and when no middleware changes it, the restored request is the accepted one, field by
    field and value by value. *)
Lemma middleware_round_trip m u h b c d p r version :
  inbound_request m u h b c d p = Returned (Ok r) -> uri_path u <> [] ->
  exists req ctl r', middleware_request r version = Returned (req, ctl)
    /\ restore_inbound_request req ctl = Returned (Ok r')
    /\ body r' = body r /\ credential r' = credential r /\ method r' = method r /\ path r' = path r
    /\ query r' = query r /\ inbound_request_id r' = inbound_request_id r
    /\ csrf_header_name r' = csrf_header_name r
    /\ (forall s, values_named s (headers r') = values_named s (headers r)).
Proof.
  intros Hin Hp. destruct (middleware_request_total _ _ _ _ _ _ _ _ version Hin Hp)
    as (req & ctl & l & idv & Hreq & HF & Hh & Hmeth & Hbody & Hpath & Hquery & ->).
  apply inbound_request_ok in Hin as (owned & _ & _ & Ho & Hf & Hm & Hr).
  pose proof (forwarded_exact _ _ _ _ Ho Hf) as [Hnames _].
  destruct (view_restores _ h (headers r) l idv Hnames HF) as (fs' & Hco & Hfw & Hvals).
  destruct (normalized_method_spec m) as (m' & Hm' & _ & Hlow). rewrite Hm in Hm'. injection Hm' as <-.
  assert (Hnm : normalized_method (method r) = Returned (method r)) by (unfold normalized_method; by rewrite Hlow).
  assert (Hcsrf : csrf_header_name r = policy_csrf_header_name <$> p) by by rewrite Hr.
  eexists _, _, _. split; [exact Hreq|].
  unfold restore_inbound_request; cbn [ctl_csrf_header_name]. rewrite Hh, Hco, Hcsrf, Hfw, Hmeth, Hnm.
  split; [done|]. cbn. done.
Qed.

(** ** Request heads *)

(** The head as HTTP/1.1 writes it. *)
Definition version_str (v : Version) : str :=
  match v with
  | HTTP_09 => lit "HTTP/0.9" | HTTP_10 => lit "HTTP/1.0" | HTTP_11 => lit "HTTP/1.1"
  | HTTP_2 => lit "HTTP/2.0" | HTTP_3 => lit "HTTP/3.0"
  end.
Definition crlf : str := [byte_of 13; byte_of 10].
Definition render_uri (u : Uri) : str :=
  match uri_scheme_str u with Some s => s ++ lit "://" | None => [] end
  ++ default [] (uri_authority u) ++ default [] (uri_path_and_query u).
Definition render_head (r : WebIngressRequest) : str :=
  m_as_str (req_method r) ++ lit " " ++ render_uri (req_uri r) ++ lit " " ++ version_str (req_version r) ++ crlf
  ++ concat ((fun '(n, v) => hn_as_str n ++ lit ": " ++ hv_as_bytes v ++ crlf) <$> hm_iter (req_headers r))
  ++ crlf.

(** The head limit is checked against the exact size of the head: the computed length is the number
    of bytes of the request line, the fields and the blank line as HTTP/1.1 serializes them. *)
Lemma head_len_exact r : canonical_request_head_len r = len (render_head r).
Proof.
  unfold canonical_request_head_len, render_head. rewrite !len_app.
  assert (Hu : serialized_uri_len (req_uri r) = len (render_uri (req_uri r))).
  { unfold serialized_uri_len, render_uri. rewrite !len_app.
    destruct (uri_scheme_str _), (uri_authority _), (uri_path_and_query _); cbn [default];
      rewrite ?len_app; change (len (lit "://")) with 3%Z; change (len (@nil ascii)) with 0%Z; unfold id; lia. }
  assert (Hh : forall l, foldr Z.add 0%Z ((fun '(n, v) => len (hn_as_str n) + 2 + len (hv_as_bytes v) + 2)%Z <$> l)
     = len (concat ((fun '(n, v) => hn_as_str n ++ lit ": " ++ hv_as_bytes v ++ crlf) <$> l))).
  { induction l as [|[n v] l IH]; [done|]. rewrite !fmap_cons, concat_cons. cbn [foldr]. rewrite IH, !len_app.
    change (len (lit ": ")) with 2%Z. change (len crlf) with 2%Z. lia. }
  rewrite Hu, <- Hh. assert (Hv : len (version_str (req_version r)) = 8%Z) by by destruct (req_version r).
  rewrite Hv. unfold version_len. change (len (lit " ")) with 1%Z. change (len crlf) with 2%Z. lia.
Qed.

Lemma mark_sensitive_bytes h p n :
  hv_as_bytes <$> hm_get_all n (mark_sensitive_headers h p) = hv_as_bytes <$> hm_get_all n h.
Proof.
  unfold mark_sensitive_headers. rewrite !hm_get_all_iter, hm_iter_mut_iter.
  induction (hm_iter h) as [|[k v] l IH]; [done|]. rewrite fmap_cons, !filter_cons. cbn [fst].
  destruct (decide (k = n)); [|done]. rewrite !fmap_cons, IH. f_equal. cbn.
  match goal with |- context [if ?b then _ else _] => destruct b end; [apply hv_set_sensitive_bytes | done].
Qed.

Lemma mark_sensitive_marks h p n v : n = AUTHORIZATION \/ n = COOKIE \/ policy_csrf_header_name <$> p = Some n ->
  v ∈ hm_get_all n (mark_sensitive_headers h p) -> hv_is_sensitive v = true.
Proof.
  intros Hn Hv. apply elem_of_hm_iter in Hv. unfold mark_sensitive_headers in Hv. rewrite hm_iter_mut_iter in Hv.
  apply list_elem_of_fmap in Hv as ([k w] & Hv & _); cbn in Hv. injection Hv as -> ->.
  destruct (_ || _) eqn:E; [apply hv_set_sensitive_set|]. bool_prop.
  destruct Hn as [->|[->|Hn]]; [done | done |]. destruct p; [|done]. cbn in Hn. injection Hn as <-. by bool_prop.
Qed.

End request.

(** ** Witnesses *)

#[local] Existing Instance ref_http.
#[local] Existing Instance ref_http_laws.

Definition sample_uri : Uri := RefUri None None (Some (lit "items")) (Some (lit "page=2")).
Definition sample_request_headers : HeaderMap :=
  ref_headers [("x-request-id", "lenso-7")%string; ("authorization", "Bearer token")%string;
               ("accept", "text/html")%string; ("connection", "close, X-Trace")%string;
               ("x-trace", "1")%string; ("accept", "*/*")%string].
Definition sample_inbound : InboundRequest := mkInbound [] 1
  (Some (mkEvidence (lit "bearer") (lit "token"))) 2 None
  [mkInboundHeader (lit "accept") (lit "text/html"); mkInboundHeader (lit "accept") (lit "*/*")]
  (m_const (lit "GET")) (lit "/items") (Some (lit "page=2")) (lit "lenso-7").

Example sample_inbound_request :
  match inbound_request (m_const (lit "get")) sample_uri sample_request_headers [] 1 2 None with
  | Returned (Ok r) => (headers r, m_as_str (method r), credential r)
                       = (headers sample_inbound, lit "GET", credential sample_inbound)
  | _ => False
  end.
Proof. vm_compute. reflexivity. Qed.

Lemma inbound_fields_exact_witness :
  ForwardsExactly None sample_request_headers
    [mkInboundHeader (lit "accept") (lit "text/html"); mkInboundHeader (lit "accept") (lit "*/*")].
Proof.
  apply (inbound_fields_exact (m_const (lit "GET")) sample_uri sample_request_headers [] 1 2 None sample_inbound).
  reflexivity.
Defined.


End Request.
