(* ===== verification/Response.v ===== *)
(** * Responses ([lenso-web-ingress-plugin/src/ingress.rs], the response side)

    The ingress response with its three kinds of bodies, the conversions from endpoint and
    middleware responses, the safe error responses, the final normalization and the
    transport headers. Operations that cancel a stream or a session return the effects of
    doing so. *)
From S2P Require Import Prelude RustStd HttpCrate RefHttp Kernel WebSocket ResponseStream Request.

Module Response.
Import Request.

(** [HandleResponse] of the endpoint contract. *)
Record HandleResponse := mkHandleResponse {
  handle_status : Z;
  handle_headers : list (str * str);
  handle_body : str;
}.

(** [StreamingResponse], [DispatchResponse] and [DispatchError] of [routing.rs]. *)
Record StreamingResponse := mkStreamingResponse {
  streaming_headers : list (str * str);
  streaming_status : Z;
  streaming_stream : NativeStream ResponseStream.StreamFrame;
}.

Inductive DispatchResponse :=
| DispatchBuffered (response : HandleResponse)
| DispatchStreaming (response : StreamingResponse)
| DispatchWebSocket (upgrade : WebSocket.WebSocketUpgrade).

Inductive IngressBody :=
| Buffered (bytes : str)
| Streaming (stream : NativeStream ResponseStream.StreamFrame)
| WebSocketBody (upgrade : WebSocket.WebSocketUpgrade).

Section response.
Context `{HttpCrate}.

Inductive DispatchError :=
| NotFound
| UpgradeRequired
| BadHandshake
| Unauthorized
| Forbidden
| MethodNotAllowed (allowed : list Method)
| Rejected
| TimedOut
| Unavailable.

Definition NOSNIFF_HEADER : HeaderName := hn_from_static (lit "x-content-type-options").

Record IngressResponse := mkResponse { status : StatusCode; headers : HeaderMap; body : IngressBody }.

(** [http::Response<Bytes>]. *)
Record WebIngressResponse := mkWebResponse {
  web_status : StatusCode; web_headers : HeaderMap; web_body : str }.

Definition json (status : StatusCode) (body : str) : IngressResponse :=
  mkResponse status (hm_insert CONTENT_TYPE (hv_from_static (lit "application/json; charset=utf-8")) hm_new)
    (Buffered body).

(** The JSON bodies quote their keys with the byte 34. *)
Definition error_json (code : string) : str :=
  let q := ascii_of_N 34 in
  lit "{" ++ [q] ++ lit "error" ++ [q] ++ lit ":" ++ [q] ++ lit code ++ [q] ++ lit "}".

Definition bad_request : IngressResponse := json BAD_REQUEST (error_json "bad_request").
Definition csrf_forbidden : IngressResponse := json FORBIDDEN (error_json "csrf_rejected").
Definition request_rejection (rejection : RequestRejection) : IngressResponse :=
  match rejection with
  | BadRequest => bad_request
  | CsrfForbidden => csrf_forbidden
  end.
Definition payload_too_large : IngressResponse := json PAYLOAD_TOO_LARGE (error_json "payload_too_large").
Definition request_timeout : IngressResponse := json REQUEST_TIMEOUT (error_json "request_timeout").
Definition unavailable : IngressResponse := json SERVICE_UNAVAILABLE (error_json "endpoint_unavailable").
Definition invalid_endpoint_response : IngressResponse :=
  json BAD_GATEWAY (error_json "invalid_endpoint_response").

Definition method_not_allowed (allowed : list Method) : IngressResponse :=
  let response := json METHOD_NOT_ALLOWED (error_json "method_not_allowed") in
  let value := join (lit ", ") (m_as_str <$> allowed) in
  match hv_from_str value with
  | Some value => mkResponse (status response) (hm_insert ALLOW value (headers response)) (body response)
  | None => response
  end.

Definition is_ingress_owned_response_header (name : HeaderName) : bool :=
  is_static_hop_by_hop_header name || bool_decide (name = CONTENT_LENGTH)
  || bool_decide (name = NOSNIFF_HEADER) || bool_decide (name = REQUEST_ID_HEADER).

(** [u16::try_from(status).ok().and_then(StatusCode::from_u16)]. *)
Definition endpoint_status (s : Z) : option StatusCode := try_from_range u16_max s ≫= status_from_u16.

(** The loop that copies the endpoint's fields; an [Err] leaves with the 502 response. *)
Definition endpoint_headers (fields : list (str * str)) : Result unit HeaderMap :=
  try_fold (fun headers '(name, value) =>
      let! name := hn_from_bytes name else Err () in
      if is_ingress_owned_response_header name then Err () else
      let! value := hv_from_str value else Err () in
      Ok (hm_append name value headers)) hm_new fields.

Definition from_endpoint (response : HandleResponse) : IngressResponse :=
  let! status := endpoint_status (handle_status response) else invalid_endpoint_response in
  match endpoint_headers (handle_headers response) with
  | Err _ => invalid_endpoint_response
  | Ok headers => mkResponse status headers (Buffered (handle_body response))
  end.

Definition from_stream_endpoint (response : StreamingResponse) : IngressResponse * list Effect :=
  let cancelled := [StreamCancelled (stream_id (streaming_stream response))] in
  let! status := endpoint_status (streaming_status response)
    else (invalid_endpoint_response, cancelled) in
  match endpoint_headers (streaming_headers response) with
  | Err _ => (invalid_endpoint_response, cancelled)
  | Ok headers => (mkResponse status headers (Streaming (streaming_stream response)), [])
  end.

Definition dispatch_response (result : Result DispatchError DispatchResponse) : IngressResponse * list Effect :=
  match result with
  | Ok (DispatchBuffered response) => (from_endpoint response, [])
  | Ok (DispatchStreaming response) => from_stream_endpoint response
  | Ok (DispatchWebSocket upgrade) =>
      (mkResponse SWITCHING_PROTOCOLS hm_new (WebSocketBody upgrade), [])
  | Err Unauthorized => (json UNAUTHORIZED (error_json "unauthorized"), [])
  | Err Forbidden => (json FORBIDDEN (error_json "forbidden"), [])
  | Err UpgradeRequired => (json UPGRADE_REQUIRED (error_json "websocket_upgrade_required"), [])
  | Err BadHandshake => (json BAD_REQUEST (error_json "invalid_websocket_handshake"), [])
  | Err NotFound => (json NOT_FOUND (error_json "not_found"), [])
  | Err (MethodNotAllowed allowed) => (method_not_allowed allowed, [])
  | Err Rejected => (json BAD_GATEWAY (error_json "endpoint_rejected"), [])
  | Err TimedOut => (json GATEWAY_TIMEOUT (error_json "endpoint_timeout"), [])
  | Err Unavailable => (unavailable, [])
  end.

(** ** Around the middleware *)

Definition into_middleware_response (self : IngressResponse) : WebIngressResponse * option IngressBody :=
  let '(bytes, stream) :=
    match body self with
    | Buffered bytes => (bytes, None)
    | Streaming _ | WebSocketBody _ => ([], Some (body self))
    end in
  (mkWebResponse (status self) (headers self) bytes, stream).

Definition from_middleware_response (response : WebIngressResponse) : IngressResponse :=
  let ingress_owned := filter (fun name => is_ingress_owned_response_header name = true)
                         (hm_keys (web_headers response)) in
  mkResponse (web_status response) (hm_remove_all ingress_owned (web_headers response))
    (Buffered (web_body response)).

(** A discarded upgrade cancels its session, which is then dropped. *)
Definition discard_upgrade (upgrade : WebSocket.WebSocketUpgrade) : list Effect :=
  let '(session, es) := WebSocket.cancel (WebSocket.session upgrade) in es ++ WebSocket.drop_session session.

Definition with_session (self : IngressResponse) (new_body : IngressBody) :
    Outcome (IngressResponse * list Effect) :=
  match new_body with
  | WebSocketBody upgrade =>
      if negb (bool_decide (status self = SWITCHING_PROTOCOLS))
      then Returned (self, discard_upgrade upgrade) else
      let hs := hm_insert UPGRADE (hv_from_static (lit "websocket")) (headers self) in
      let hs := hm_insert CONNECTION (hv_from_static (lit "Upgrade")) hs in
      let^ key := expect (hv_from_str (WebSocket.accept_key upgrade)) in
      let hs := hm_insert (hn_from_static (lit "sec-websocket-accept")) key hs in
      let^ hs := match WebSocket.session_protocol (WebSocket.session upgrade) with
                 | Some protocol =>
                     let^ protocol := expect (hv_from_str protocol) in
                     Returned (hm_insert (hn_from_static (lit "sec-websocket-protocol")) protocol hs)
                 | None => Returned hs
                 end in
      Returned (mkResponse (status self) hs new_body, [])
  | _ => Returned (mkResponse (status self) (headers self) new_body, [])
  end.

(** ** Towards the transport *)

Definition is_websocket (b : IngressBody) : bool := match b with WebSocketBody _ => true | _ => false end.

Definition normalize_body (self : IngressResponse) (method : Method) : IngressResponse * list Effect :=
  if bool_decide (method = HEAD)
     || (status_is_informational (status self) && negb (is_websocket (body self)))
     || bool_decide (status self = NO_CONTENT) || bool_decide (status self = NOT_MODIFIED)
  then
    let es := match body self with
              | Streaming stream => [StreamCancelled (stream_id stream)]
              | WebSocketBody upgrade => discard_upgrade upgrade
              | Buffered _ => []
              end in
    (mkResponse (status self) (headers self) (Buffered []), es)
  else (self, []).

(** [Response<B>] for any body. *)
Definition with_transport_headers (headers : HeaderMap) (request_id : HeaderValue) : HeaderMap :=
  hm_insert NOSNIFF_HEADER (hv_from_static (lit "nosniff"))
    (hm_insert REQUEST_ID_HEADER request_id headers).

Context `{!HttpLaws}.

(** ** Lemmas *)

(** The names only the ingress may set on a response. *)
Definition owned_names : list str :=
  hop_by_hop_names ++ [lit "content-length"; lit "x-content-type-options"; lit "x-request-id"].

Lemma owned_spec n : is_ingress_owned_response_header n = true <-> hn_as_str n ∈ owned_names.
Proof.
  unfold is_ingress_owned_response_header, owned_names, CONTENT_LENGTH, NOSNIFF_HEADER, REQUEST_ID_HEADER.
  rewrite !static_name_test by (vm_compute; reflexivity).
  rewrite !orb_true_iff, hop_by_hop_spec, !bool_decide_eq_true, elem_of_app. set_solver.
Qed.

Lemma endpoint_status_spec s t : endpoint_status s = Some t <-> t = s /\ (100 <= s < 1000)%Z.
Proof.
  unfold endpoint_status. rewrite bind_Some. setoid_rewrite try_from_range_Some. setoid_rewrite status_from_u16_spec.
  unfold u16_max. split; [intros (x & [-> _] & -> & ?); done | intros [-> ?]; exists s; split_and!; lia].
Qed.

(** A field the endpoint may set, as the header it becomes. *)
Definition field_ok (f : str * str) (e : HeaderName * HeaderValue) : Prop :=
  hn_from_bytes f.1 = Some e.1 /\ hn_as_str e.1 ∉ owned_names /\ hv_from_str f.2 = Some e.2.

Lemma endpoint_headers_fold fields m0 m :
  try_fold (fun headers '(name, value) =>
      let! name := hn_from_bytes name else Err () in
      if is_ingress_owned_response_header name then Err () else
      let! value := hv_from_str value else Err () in
      Ok (hm_append name value headers)) m0 fields = Ok m <->
  exists es, Forall2 field_ok fields es /\ m = hm_append_all es m0.
Proof.
  revert m0; induction fields as [|[n v] fields IH]; intros m0; cbn.
  - split; [intros [= <-]; by exists [] | intros (es & HF & ->); by inversion HF].
  - assert (Hown : forall hn, is_ingress_owned_response_header hn = false <-> hn_as_str hn ∉ owned_names).
    { intros hn. rewrite <- owned_spec. by destruct (is_ingress_owned_response_header hn). }
    destruct (hn_from_bytes n) as [hn|] eqn:En.
    2: { split; [done|]. intros (es & HF & _). inversion HF as [|? ? ? ? [Hx _]]; cbn in Hx. congruence. }
    destruct (is_ingress_owned_response_header hn) eqn:Eo.
    { split; [done|]. intros (es & HF & _). inversion HF as [|? [k w] ? ? [Hx [Hy _]]]; cbn in *. simplify_eq.
      apply Hown in Hy. congruence. }
    destruct (hv_from_str v) as [hv|] eqn:Ev.
    2: { split; [done|]. intros (es & HF & _). inversion HF as [|? ? ? ? [_ [_ Hx]]]; cbn in Hx. congruence. }
    rewrite IH. split.
    + intros (es & HF & ->). exists ((hn, hv) :: es). split; [|done]. constructor; [|done].
      split; [done|]. split; [by apply Hown | done].
    + intros (es & HF & ->). inversion HF as [|? [k w] ? es' [Hx [_ Hy]] HF']; cbn in *; simplify_eq.
      by exists es'.
Qed.

(** What the contract asks of a response: a three-digit status and fields the ingress does not own. *)
Definition ValidHead (status : Z) (fields : list (str * str)) (es : list (HeaderName * HeaderValue)) : Prop :=
  (100 <= status < 1000)%Z /\ Forall2 field_ok fields es.

Lemma head_valid status fields es : ValidHead status fields es ->
  endpoint_status status = Some status /\ endpoint_headers fields = Ok (hm_append_all es hm_new).
Proof.
  intros [Hs HF]. split; [by apply endpoint_status_spec|]. apply endpoint_headers_fold. eauto.
Qed.

Lemma head_invalid status fields : (forall es, ~ ValidHead status fields es) ->
  endpoint_status status = None \/ exists u, endpoint_headers fields = Err u.
Proof.
  intros Hn. destruct (endpoint_status status) as [s|] eqn:Es; [|by left]. right.
  apply endpoint_status_spec in Es as [-> Hs].
  destruct (endpoint_headers fields) as [m|u] eqn:Eh; [|by exists u].
  apply endpoint_headers_fold in Eh as (es & HF & _). by destruct (Hn es).
Qed.

(** ** Properties *)

(** An endpoint response with a three-digit status and fields outside the ingress's own is passed on
    unchanged: its status, its body and every field with all its values in order; any other response,
    buffered or streaming, is replaced by the generic 502 and a streaming one is cancelled. *)
Lemma endpoint_response_exact status fields bytes st :
  (forall es, ValidHead status fields es ->
     from_endpoint (mkHandleResponse status fields bytes) = mkResponse status (hm_append_all es hm_new) (Buffered bytes)
     /\ from_stream_endpoint (mkStreamingResponse fields status st)
        = (mkResponse status (hm_append_all es hm_new) (Streaming st), [])
     /\ forall n, hm_get_all n (hm_append_all es hm_new) = (filter (fun e => e.1 = n) es).*2)
  /\ ((forall es, ~ ValidHead status fields es) ->
      from_endpoint (mkHandleResponse status fields bytes) = invalid_endpoint_response
      /\ from_stream_endpoint (mkStreamingResponse fields status st)
         = (invalid_endpoint_response, [StreamCancelled (stream_id st)])).
Proof.
  unfold from_endpoint, from_stream_endpoint.
  cbn [handle_status handle_headers handle_body streaming_status streaming_headers streaming_stream]. split.
  - intros es HV. destruct (head_valid _ _ _ HV) as [-> ->]. do 2 (split; [done|]).
    intros n. by rewrite hm_append_all_get, hm_get_all_new.
  - intros Hn. destruct (head_invalid _ _ Hn) as [->|[u Hu]]; [done|].
    rewrite Hu. by destruct (endpoint_status status).
Qed.

Lemma from_middleware_headers r n :
  hm_get_all n (headers (from_middleware_response r))
  = if decide (hn_as_str n ∈ owned_names) then [] else hm_get_all n (web_headers r).
Proof.
  unfold from_middleware_response; cbn [headers]. rewrite hm_remove_all_get.
  destruct (decide (hn_as_str n ∈ owned_names)) as [Ho|Ho].
  - case_decide as Hd; [done|]. rewrite list_elem_of_filter, hm_keys_spec, owned_spec in Hd.
    by destruct (hm_get_all n (web_headers r)); [|exfalso; apply Hd].
  - rewrite decide_False; [done|]. rewrite list_elem_of_filter, owned_spec. by intros [? _].
Qed.

Lemma transport_headers_get hs id n :
  hm_get_all n (with_transport_headers hs id)
  = if decide (n = NOSNIFF_HEADER) then [hv_from_static (lit "nosniff")]
    else if decide (n = REQUEST_ID_HEADER) then [id] else hm_get_all n hs.
Proof.
  unfold with_transport_headers. destruct (decide (n = NOSNIFF_HEADER)) as [->|Hn]; [apply hm_insert_eq|].
  rewrite hm_insert_ne by done. destruct (decide (n = REQUEST_ID_HEADER)) as [->|Hr]; [apply hm_insert_eq|].
  by rewrite hm_insert_ne.
Qed.

(** Whatever a middleware chain or endpoint put into a response, what leaves the ingress carries
    exactly one request identifier (the assigned one) and exactly one [nosniff] directive, no framing or
    hop-by-hop field of theirs, and all their other fields unchanged. *)
Lemma transport_headers_exact r id n :
  hm_get_all n (with_transport_headers (headers (from_middleware_response r)) id)
  = if decide (hn_as_str n = lit "x-content-type-options") then [hv_from_static (lit "nosniff")]
    else if decide (hn_as_str n = lit "x-request-id") then [id]
    else if decide (hn_as_str n ∈ owned_names) then []
    else hm_get_all n (web_headers r).
Proof.
  rewrite transport_headers_get, from_middleware_headers.
  assert (H1 : n = NOSNIFF_HEADER <-> hn_as_str n = lit "x-content-type-options") by by apply hn_from_static_eq.
  assert (H2 : n = REQUEST_ID_HEADER <-> hn_as_str n = lit "x-request-id") by by apply hn_from_static_eq.
  repeat case_decide; try done; tauto.
Qed.

(** A response that must not have a body ([HEAD], 1xx other than a WebSocket upgrade, 204, 304)
    loses it and whatever produced it is cancelled; every other response is left alone. *)
Lemma normalize_body_exact r m :
  normalize_body r m =
    if decide (m = HEAD \/ ((100 <= status r <= 199)%Z /\ is_websocket (body r) = false)
               \/ status r = NO_CONTENT \/ status r = NOT_MODIFIED)
    then (mkResponse (status r) (headers r) (Buffered []),
          match body r with
          | Streaming s => [StreamCancelled (stream_id s)]
          | WebSocketBody u => discard_upgrade u
          | Buffered _ => [] end)
    else (r, []).
Proof.
  unfold normalize_body. rewrite status_is_informational_spec.
  match goal with |- (if ?b then _ else _) = (if decide ?P then _ else _) => assert (Hb : b = true <-> P) end.
  { rewrite !orb_true_iff, andb_true_iff, !bool_decide_eq_true, in_range_spec, negb_true_iff. tauto. }
  destruct (_ || _ || _ || _); case_decide; tauto || (exfalso; intuition congruence).
Qed.

(** A discarded WebSocket session returns its permit and cancels its stream. *)
Lemma discard_upgrade_effects u : discard_upgrade u =
  (if WebSocket.permit (WebSocket.session u) then [PermitReleased] else [])
  ++ [StreamCancelled (stream_id (WebSocket.stream (WebSocket.session u)));
      StreamCancelled (stream_id (WebSocket.stream (WebSocket.session u)))].
Proof. unfold discard_upgrade, WebSocket.cancel, WebSocket.take_permit, WebSocket.drop_session; cbn. by rewrite <- app_assoc. Qed.

End response.

(** ** Witnesses *)

#[local] Existing Instance ref_http.
#[local] Existing Instance ref_http_laws.


End Response.
