(* ===== verification/Middleware.v ===== *)
(** * Global middleware ([lenso-web-ingress-plugin/src/middleware.rs])

    A middleware layer is host code: it reads and rewrites the request and the response,
    acts on the outside state, may fail and may panic. The model quantifies over all such
    layers. [onion] is the specification: each layer wraps what is inside it. *)
From S2P Require Import Prelude RustStd HttpCrate Kernel Request Response.

Module Middleware.
Import Request Response.

Section middleware.
Context `{HttpCrate} {X : Type}.

(** A computation that may fail or panic; a middleware layer acts on the outside state. *)
Definition Run (A : Type) : Type := World X -> World X * Outcome (Result RuntimeFailure A).
Definition ExtRun (A : Type) : Type := X -> X * Outcome (Result RuntimeFailure A).

Definition ret {A} (a : A) : Run A := fun w => (w, Returned (Ok a)).
Definition bind {A B} (c : Run A) (k : A -> Run B) : Run B := fun w =>
  match c w with
  | (w, Returned (Ok a)) => k a w
  | (w, Returned (Err e)) => (w, Returned (Err e))
  | (w, Panicked) => (w, Panicked)
  | (w, Waiting) => (w, Waiting)
  end.

Inductive WebIngressMiddlewareOutcome :=
| Continue
| Respond (response : WebIngressResponse).

(** [trait WebIngressMiddleware]. The mutable request and response are returned. *)
Record WebIngressMiddleware := mkMiddleware {
  identity : str;
  before_request : WebIngressRequest -> ExtRun (WebIngressRequest * WebIngressMiddlewareOutcome);
  after_response : WebIngressRequest -> WebIngressResponse -> ExtRun WebIngressResponse;
}.

(** The trait's default [after_response]. *)
Definition default_after_response (_ : WebIngressRequest) (response : WebIngressResponse) : ExtRun WebIngressResponse :=
  fun x => (x, Returned (Ok response)).

Definition identities (middleware : list WebIngressMiddleware) : list str := identity <$> middleware.

Definition validate (middleware : list WebIngressMiddleware) : Result str unit :=
  if existsb (fun m => is_empty (trim (identity m))) middleware
  then Err (lit "Web Ingress middleware identity must not be empty") else Ok ().

(** The first loop: how many layers were entered, the request they left, and the response of a
    layer that short-circuits. *)
Fixpoint enter (layers : list WebIngressMiddleware) (request : WebIngressRequest) (entered : nat) :
    Run (WebIngressRequest * nat * option WebIngressResponse) :=
  match layers with
  | [] => ret (request, entered, None)
  | layer :: layers =>
      bind (lift (before_request layer request)) (fun '(request, outcome) =>
      match outcome with
      | Continue => enter layers request (S entered)
      | Respond value => ret (request, S entered, Some value)
      end)
  end.

(** The second loop. *)
Fixpoint leave (layers : list WebIngressMiddleware) (request : WebIngressRequest) (response : WebIngressResponse) :
    Run WebIngressResponse :=
  match layers with
  | [] => ret response
  | layer :: layers => bind (lift (after_response layer request response)) (leave layers request)
  end.

Definition run (middleware : list WebIngressMiddleware) (request : WebIngressRequest)
    (dispatch : WebIngressRequest -> Run WebIngressResponse) : Run WebIngressResponse :=
  bind (enter middleware request 0) (fun '(request, entered, response) =>
  bind (match response with Some response => ret response | None => dispatch request end) (fun response =>
  leave (rev (take entered middleware)) request response)).

(** ** Specification *)

(** Each layer runs before what it wraps and, unless something inside failed, after it; a layer that
    answers itself still runs its own response step, and nothing inside it runs. *)
Fixpoint onion (dispatch : WebIngressRequest -> Run WebIngressResponse)
    (layers : list WebIngressMiddleware) (request : WebIngressRequest) : Run (WebIngressRequest * WebIngressResponse) :=
  match layers with
  | [] => bind (dispatch request) (fun response => ret (request, response))
  | layer :: layers =>
      bind (lift (before_request layer request)) (fun '(request, outcome) =>
      bind (match outcome with
            | Continue => onion dispatch layers request
            | Respond value => ret (request, value)
            end) (fun '(request, response) =>
      bind (lift (after_response layer request response)) (fun response => ret (request, response))))
  end.

(** ** Lemmas: the monad, pointwise *)

Lemma bind_ret_r {A} (c : Run A) w : bind c ret w = c w.
Proof. unfold bind, ret. destruct (c w) as [w' [[a|e]| |]]; done. Qed.

Lemma bind_assoc {A B C} (c : Run A) (k : A -> Run B) (l : B -> Run C) w :
  bind (bind c k) l w = bind c (fun a => bind (k a) l) w.
Proof. unfold bind. destruct (c w) as [w' [[a|e]| |]]; done. Qed.

Lemma bind_ext {A B} (c : Run A) (k l : A -> Run B) w : (forall a w, k a w = l a w) -> bind c k w = bind c l w.
Proof. intros Hk. unfold bind. destruct (c w) as [w' [[a|e]| |]]; auto. Qed.

Lemma bind_ext_at {A B} (c : Run A) (k l : A -> Run B) w :
  (forall a w', c w = (w', Returned (Ok a)) -> k a w' = l a w') -> bind c k w = bind c l w.
Proof. intros Hk. unfold bind. destruct (c w) as [w' [[a|e]| |]] eqn:E; auto. Qed.

Lemma bind_cong {A B} (c d : Run A) (k : A -> Run B) w : c w = d w -> bind c k w = bind d k w.
Proof. intros E. unfold bind. by rewrite E. Qed.

Lemma leave_snoc layers layer request response w :
  leave (layers ++ [layer]) request response w
  = bind (leave layers request response) (fun response => lift (after_response layer request response)) w.
Proof.
  revert response w; induction layers as [|l layers IH]; intros response w; cbn [app leave].
  - by rewrite bind_ret_r.
  - rewrite bind_assoc. apply bind_ext. intros r w'. apply IH.
Qed.

(** The code after the first loop, with the final request kept. *)
Definition finish (dispatch : WebIngressRequest -> Run WebIngressResponse) (inner : list WebIngressMiddleware)
    (n : nat) (r : WebIngressRequest * nat * option WebIngressResponse) : Run (WebIngressRequest * WebIngressResponse) :=
  let '(request, entered, response) := r in
  bind (match response with Some response => ret response | None => dispatch request end) (fun response =>
  bind (leave (rev (take (entered - n) inner)) request response) (fun response => ret (request, response))).

Lemma enter_entered layers request n w :
  match enter layers request n w with
  | (_, Returned (Ok (_, entered, _))) => n <= entered
  | _ => True
  end.
Proof.
  revert request n w; induction layers as [|l layers IH]; intros request n w; cbn; [lia|].
  unfold bind. destruct (lift (before_request l request) w) as [w' [[[q [|v]]|e]| |]]; try done.
  - specialize (IH q (S n) w'). repeat case_match; try done. lia.
  - cbn. lia.
Qed.

Lemma enter_onion dispatch layers n request w :
  bind (enter layers request n) (finish dispatch layers n) w = onion dispatch layers request w.
Proof.
  revert n request w; induction layers as [|l layers IH]; intros n request w.
  - cbn [enter onion]. change (bind (dispatch request) (fun response => ret (request, response)) w)
      with (onion dispatch [] request w). unfold bind at 1, ret at 1. unfold finish. rewrite take_nil. cbn [rev leave].
    apply bind_ext. done.
  - cbn [enter onion]. rewrite bind_assoc. apply bind_ext. intros [q o] w'. destruct o as [|v].
    + transitivity (bind (bind (enter layers q (S n)) (finish dispatch layers (S n))) (fun '(request, response) =>
        bind (lift (after_response l request response)) (fun response => ret (request, response))) w').
      2: { apply bind_cong, IH. }
      rewrite bind_assoc. apply bind_ext_at. intros [[q' k] r] w'' Ee.
      pose proof (enter_entered layers q (S n) w') as He. rewrite Ee in He. unfold finish.
      rewrite bind_assoc. apply bind_ext. intros resp w3. rewrite bind_assoc.
      destruct k as [|k]; [lia|]. replace (S k - n) with (S (S k - S n)) by lia. cbn [take rev].
      transitivity (bind (bind (leave (rev (take (S k - S n) layers)) q' resp) (fun response => lift (after_response l q' response)))
        (fun response => ret (q', response)) w3).
      * apply bind_cong, leave_snoc.
      * rewrite bind_assoc. apply bind_ext. done.
    + transitivity (bind (bind (lift (after_response l q v)) (leave [] q)) (fun response => ret (q, response)) w').
      * change (finish dispatch (l :: layers) n (q, S n, Some v) w'
          = bind (leave [l] q v) (fun response => ret (q, response)) w').
        unfold finish. by replace (S n - n) with 1 by lia.
      * rewrite bind_assoc.
        change (bind (lift (after_response l q v)) (fun a => bind (leave [] q a) (fun response => ret (q, response))) w'
          = bind (lift (after_response l q v)) (fun response => ret (q, response)) w').
        by apply bind_ext.
Qed.

(** What every layer and the dispatcher preserve, the whole run preserves. *)
Lemma bind_preserves {A B} (I : World X -> Prop) (c : Run A) (k : A -> Run B) w :
  (forall w, I w -> I (c w).1) -> (forall a w, I w -> I (k a w).1) -> I w -> I (bind c k w).1.
Proof.
  intros Hc Hk Hw. unfold bind. specialize (Hc w Hw). destruct (c w) as [w' [[a|e]| |]]; cbn in *; auto.
Qed.

Lemma run_preserves (I : World X -> Prop) layers request dispatch w :
  (forall layer request w, layer ∈ layers -> I w -> I (lift (before_request layer request) w).1) ->
  (forall layer request response w, layer ∈ layers -> I w -> I (lift (after_response layer request response) w).1) ->
  (forall request w, I w -> I (dispatch request w).1) ->
  I w -> I (run layers request dispatch w).1.
Proof.
  intros Hb Ha Hd.
  assert (He : forall ls, (forall l, l ∈ ls -> l ∈ layers) -> forall q n w, I w -> I (enter ls q n w).1).
  { induction ls as [|l ls IH]; intros Hin q n w' Hw; [done|]. cbn [enter]. apply bind_preserves; [|intros [q' [|v]] w''|done].
    - intros w'' Hw''. apply Hb; [|done]. apply Hin. by left.
    - apply IH. intros l' Hl'. apply Hin. by right.
    - done. }
  assert (Hl : forall ls, (forall l, l ∈ ls -> l ∈ layers) -> forall q r w, I w -> I (leave ls q r w).1).
  { induction ls as [|l ls IH]; intros Hin q r w' Hw; [done|]. cbn [leave]. apply bind_preserves; [| |done].
    - intros w'' Hw''. apply Ha; [|done]. apply Hin. by left.
    - intros a w''. apply IH. intros l' Hl'. apply Hin. by right. }
  intros Hw. unfold run. apply bind_preserves; [by apply He | | done].
  intros [[q k] r] w' Hw'. apply bind_preserves; [| |done].
  - intros w'' Hw''. destruct r; [done | by apply Hd].
  - intros resp w''. apply Hl. intros l Hin. apply list_elem_of_In, in_rev, list_elem_of_In in Hin.
    apply elem_of_take in Hin as (? & ? & ?). by eapply list_elem_of_lookup_2.
Qed.

(** A layer that lets requests and responses through as they are and does nothing else. *)
Definition Transparent (layer : WebIngressMiddleware) : Prop :=
  (forall request x, before_request layer request x = (x, Returned (Ok (request, Continue))))
  /\ forall request response x, after_response layer request response x = (x, Returned (Ok response)).

Lemma lift_same {A} (f : X -> X * A) a w : f (ext w) = (ext w, a) -> lift f w = (w, a).
Proof. unfold lift. intros ->. by destruct w. Qed.

Lemma enter_transparent layers request n w : Forall Transparent layers ->
  enter layers request n w = (w, Returned (Ok (request, n + length layers, None))).
Proof.
  intros HF. revert n; induction HF as [|layer layers [Hb _] _ IH]; intros n; cbn [enter length]; [by rewrite Nat.add_0_r|].
  unfold bind. rewrite (lift_same _ _ w (Hb request (ext w))), IH. do 4 f_equal. f_equal. lia.
Qed.

Lemma leave_transparent layers request response w : Forall Transparent layers ->
  leave layers request response w = (w, Returned (Ok response)).
Proof.
  intros HF. induction HF as [|layer layers [_ Ha] _ IH]; [done|]. cbn [leave]. unfold bind.
  by rewrite (lift_same _ _ w (Ha request response (ext w))).
Qed.

(** Transparent layers change nothing. *)
Lemma run_transparent layers request dispatch w : Forall Transparent layers -> run layers request dispatch w = dispatch request w.
Proof.
  intros HF. unfold run. unfold bind at 1. rewrite enter_transparent by done. cbn. unfold bind.
  destruct (dispatch request w) as [w' [[response|e]| |]]; try done. rewrite firstn_all. apply leave_transparent.
  by apply Forall_rev.
Qed.

(** ** Properties *)

(** C39: the two loops over the middleware list implement nesting: for any layers, which may rewrite the
    messages, act on the outside, fail or panic, the run visits the layers in declaration order, calls
    the dispatcher exactly when none of them answered, runs the response steps of exactly the layers
    entered in reverse order with the request as the innermost of them left it, and stops at the first
    failure or panic. *)
Theorem run_onion dispatch layers request w :
  run layers request dispatch w = bind (onion dispatch layers request) (fun '(_, response) => ret response) w.
Proof.
  rewrite <- (bind_cong _ _ _ _ (enter_onion dispatch layers 0 request w)).
  rewrite bind_assoc. unfold run. apply bind_ext. intros [[q k] r] w'. unfold finish. rewrite Nat.sub_0_r, bind_assoc.
  apply bind_ext. intros resp w''. rewrite bind_assoc. symmetry. apply bind_ret_r.
Qed.

End middleware.
Arguments WebIngressMiddleware {H} X.
Arguments Run X A : clear implicits.

End Middleware.
