(* ===== verification/Manifest.v ===== *)
(** * Route manifests ([lenso-web-ingress-plugin/src/manifest.rs])

    The routing identity of a replica: its routes in canonical order. *)
From S2P Require Import Prelude RustStd.

Module Manifest.

Record WebIngressRoute := mkRoute { method : str; path : str; route_id : str }.
#[global] Instance WebIngressRoute_eq_dec : EqDecision WebIngressRoute.
Proof. solve_decision. Defined.

Definition new_route (method path route_id : str) : WebIngressRoute := mkRoute method path route_id.

(** The derived [Ord]: the fields in order, each byte by byte. *)
Definition lex {A} (field : A -> str) (rest : A -> A -> bool) (a b : A) : bool :=
  if decide (field a = field b) then rest a b else str_leb (field a) (field b).
Definition route_leb : WebIngressRoute -> WebIngressRoute -> bool :=
  lex method (lex path (fun a b => str_leb (route_id a) (route_id b))).
Definition route_le (a b : WebIngressRoute) : Prop := route_leb a b = true.
#[global] Instance route_le_dec : RelDecision route_le := fun a b => decide (route_leb a b = true).

Record WebIngressRouteManifest := mkManifest { routes : list WebIngressRoute }.
#[global] Instance WebIngressRouteManifest_eq_dec : EqDecision WebIngressRouteManifest.
Proof. solve_decision. Defined.

Inductive WebIngressReplicaMismatch := ReplicaMismatch.

(** [sort_unstable] under a total order that distinguishes different routes: its result is
    determined, whatever the algorithm. *)
Definition new (routes : list WebIngressRoute) : WebIngressRouteManifest :=
  mkManifest (merge_sort route_le routes).

Definition ensure_equivalent (self replica : WebIngressRouteManifest) : Result WebIngressReplicaMismatch unit :=
  if bool_decide (self = replica) then Ok () else Err ReplicaMismatch.

(** ** Lemmas *)

Section lex.
Context {A : Type} (f : A -> str) (R : A -> A -> bool).

Lemma lex_total : (forall a b, R a b = true \/ R b a = true) ->
  forall a b, lex f R a b = true \/ lex f R b a = true.
Proof.
  intros HR a b. unfold lex. destruct (decide (f a = f b)), (decide (f b = f a)); try congruence.
  - apply HR.
  - apply str_le_total.
Qed.

Lemma lex_trans : (forall a b c, R a b = true -> R b c = true -> R a c = true) ->
  forall a b c, lex f R a b = true -> lex f R b c = true -> lex f R a c = true.
Proof.
  intros HR a b c. unfold lex.
  destruct (decide (f a = f b)) as [E1|E1], (decide (f b = f c)) as [E2|E2], (decide (f a = f c)) as [E3|E3];
    try congruence; intros H1 H2.
  - by apply (HR a b c).
  - exfalso. apply E1. apply (anti_symm str_le); [done|]. unfold str_le. by rewrite E3.
  - by apply (str_le_trans (f a) (f b) (f c)).
Qed.

Lemma lex_antisym a b : lex f R a b = true -> lex f R b a = true -> f a = f b /\ R a b = true /\ R b a = true.
Proof.
  unfold lex. destruct (decide (f a = f b)), (decide (f b = f a)); try congruence; [done|].
  intros H1 H2. exfalso. by apply n, (anti_symm str_le).
Qed.
End lex.

#[global] Instance route_le_total : Total route_le.
Proof. unfold route_le, route_leb. intros a b. do 2 (apply lex_total; clear; intros a b). apply str_le_total. Qed.

#[global] Instance route_le_trans : Transitive route_le.
Proof.
  unfold route_le, route_leb. intros a b c. do 2 (apply lex_trans; clear; intros a b c).
  apply (str_le_trans (route_id a) (route_id b) (route_id c)).
Qed.

#[global] Instance route_le_antisym : AntiSymm (=) route_le.
Proof.
  intros a b H1 H2. apply lex_antisym in H1 as (Em & H1 & H2'); [|done].
  apply lex_antisym in H1 as (Ep & H1 & H3); [|done].
  assert (Ei : route_id a = route_id b) by by apply (anti_symm str_le).
  destruct a, b; cbn in *. congruence.
Qed.

(** ** Properties *)

(** The manifest is a canonical form of the declared routes: it lists exactly them in sorted order,
    and two replicas are accepted as equivalent exactly when they declare the same routes the same number of
    times, in whatever order their providers listed them. *)
Lemma manifest_canonical rs1 rs2 :
  Sorted route_le (routes (new rs1)) /\ routes (new rs1) ≡ₚ rs1
  /\ (ensure_equivalent (new rs1) (new rs2) = Ok () <-> rs1 ≡ₚ rs2).
Proof.
  split; [apply Sorted_merge_sort, _|]. split; [apply merge_sort_Permutation|].
  unfold ensure_equivalent, new. assert (E : mkManifest (merge_sort route_le rs1) = mkManifest (merge_sort route_le rs2)
    <-> rs1 ≡ₚ rs2).
  { split.
    - intros [= Hs]. by rewrite <- (merge_sort_Permutation route_le rs1), Hs, merge_sort_Permutation.
    - intros Hp. f_equal. apply (Sorted_unique route_le); [apply Sorted_merge_sort, _ .. |].
      by rewrite !merge_sort_Permutation. }
  rewrite <- E. case_bool_decide; split; done.
Qed.

Example manifest_example :
  ensure_equivalent (new [mkRoute (lit "POST") (lit "/a") (lit "x"); mkRoute (lit "GET") (lit "/a") (lit "y")])
    (new [mkRoute (lit "GET") (lit "/a") (lit "y"); mkRoute (lit "POST") (lit "/a") (lit "x")]) = Ok ().
Proof. vm_compute. reflexivity. Qed.

End Manifest.
