(* ===== verification/Routing.v ===== *)
(** * Routing ([lenso-web-ingress-plugin/src/routing.rs])

    The route table built from what the bound endpoint providers describe, and the dispatch of one
    request through it. Three parties are outside the repository: the [matchit] router (the interface
    [Matchit] with its one law), the endpoint providers (functions on the outside state) and the
    kernel's invocation contexts. The race between an invocation and its cancellation is an argument:
    [cancel_first] says whether the client or the app went away first. *)
From S2P Require Import Prelude RustStd HttpCrate RefHttp Kernel Config SessionCookie.
From S2P Require Import WebSocket ResponseStream Handshake Request Response Manifest.

Class Matchit := {
  Router : Type -> Type;
  router_new : forall {T}, Router T;
  (* the error is the text of [InsertError] *)
  router_insert : forall {T}, str -> T -> Router T -> Result str (Router T);
  router_at : forall {T}, Router T -> str -> option (T * list (str * str));
}.

(** The router after a sequence of successful insertions. *)
Definition router_of `{Matchit} {T} (l : list (str * T)) : Result str (Router T) :=
  try_fold (fun r '(path, v) => router_insert path v r) router_new l.

(** A match yields a value that was inserted. *)
Class MatchitLaws `{Matchit} := {
  router_at_inserted : forall T (l : list (str * T)) r path v params,
    router_of l = Ok r -> router_at r path = Some (v, params) -> v ∈ l.*2;
}.

Module Routing.
Import Config SessionCookie Request Response.

Inductive RouteProvider :=
| BufferedProvider (index : nat)
| StreamingProvider (index : nat)
| WebSocketProvider (index : nat).

Record RouteTarget := mkTarget { target_route_id : str; target_provider : RouteProvider }.

(** One described route of the contracts. *)
Record RouteDescription := mkDescription { described_method : str; described_path : str; described_route_id : str }.

Inductive InvocationError (E : Type) := Domain (error : E) | Runtime (failure : RuntimeFailure).
Arguments Domain {E} error.
Arguments Runtime {E} failure.

Inductive ConnectWebsocketError := WsUnauthorized | WsRejected | WsUnsupportedProtocol | WsUnknown.

(** [HandleRequest] of the buffered and the stream contract. *)
Record HandleRequest := mkHandleRequest {
  hr_body : str;
  hr_credential : option (str * str);
  hr_headers : list (str * str);
  hr_method : str;
  hr_path : str;
  hr_path_parameters : list (str * str);
  hr_query : option str;
  hr_request_id : str;
  hr_route_id : str;
}.

Record ConnectWebsocketRequest := mkConnectRequest {
  cr_credential : option (str * str);
  cr_headers : list (str * str);
  cr_path : str;
  cr_query : option str;
  cr_request_id : str;
  cr_route_id : str;
  cr_path_parameters : list (str * str);
  cr_protocols : list str;
}.

Section routing.
Context `{HttpCrate} `{Matchit} {X : Type}.

(** The bound providers. The first argument of an invocation says whether its context is cancelled
    while it runs. *)
Record EndpointClient := mkEndpointClient {
  describe : X -> X * Result (InvocationError str) (list RouteDescription);
  handle : bool -> HandleRequest -> X -> X * Result (InvocationError unit) HandleResponse;
}.
Record StreamEndpointClient := mkStreamEndpointClient {
  describe_stream : X -> X * Result (InvocationError str) (list RouteDescription);
  handle_stream : bool -> HandleRequest -> X ->
    X * Result (InvocationError unit) (NativeStream ResponseStream.StreamFrame);
}.
Record WebSocketEndpointClient := mkWebSocketEndpointClient {
  describe_websocket : X -> X * Result (InvocationError unit) (list (str * str));
  connect_websocket : bool -> ConnectWebsocketRequest -> X ->
    X * Result (InvocationError ConnectWebsocketError) (NativeStream WebSocket.Frame);
}.

Record RouteTable := mkTable {
  (* [dependencies.invocation_context_after(request_timeout, ..)] *)
  invocation_context : X -> X * Result RuntimeFailure unit;
  providers : list EndpointClient;
  stream_providers : list StreamEndpointClient;
  websocket_providers : list WebSocketEndpointClient;
  websocket_policy : option WebSocketConfig;
  methods : gmap Method (Router RouteTarget);
  manifest : Manifest.WebIngressRouteManifest;
}.

(** ** Resolution *)

(** The routers and the manifest entries collected so far. *)
Definition Collected : Type := gmap Method (Router RouteTarget) * list Manifest.WebIngressRoute.

(** [methods.entry(method).or_default().insert(path, target)]. *)
Definition insert_route (methods : gmap Method (Router RouteTarget)) (method : Method) (path : str)
    (target : RouteTarget) : Result str (gmap Method (Router RouteTarget)) :=
  let? router := router_insert path target (default router_new (methods !! method)) in
  Ok (<[method := router]> methods).

Definition invalid_path (route_id path : str) : bool :=
  is_empty (trim route_id) || negb (starts_with_char "/" path) || contains_any ["?"; "#"]%char path.

(** The loop body over the routes one HTTP provider describes; [label] starts the error texts. *)
Definition add_http_route (label : str) (provider : RouteProvider) (provider_index : nat) (st : Collected)
    (route : RouteDescription) : Result RuntimeFailure Collected :=
  let invalid := plugin_failure (label ++ show_Z (Z.of_nat provider_index) ++ lit " declared an invalid route") in
  let! method := m_from_bytes (to_ascii_uppercase (trim (described_method route))) else Err invalid in
  if invalid_path (described_route_id route) (described_path route) then Err invalid else
  let '(methods, manifest) := st in
  let manifest := manifest ++ [Manifest.new_route (m_as_str method) (described_path route) (described_route_id route)] in
  match insert_route methods method (described_path route) (mkTarget (described_route_id route) provider) with
  | Err error => Err (plugin_failure (lit "HTTP route collision for " ++ m_as_str method ++ lit " "
                                      ++ described_path route ++ lit ": " ++ error))
  | Ok methods => Ok (methods, manifest)
  end.

Fixpoint resolve_http (label : str) (mk : nat -> RouteProvider)
    (described : list (nat * (X -> X * Result (InvocationError str) (list RouteDescription))))
    (st : Collected) (w : World X) : World X * Result RuntimeFailure Collected :=
  match described with
  | [] => (w, Ok st)
  | (provider_index, describe) :: described =>
      match lift describe w with
      | (w, Err (Domain error)) =>
          (w, Err (plugin_failure (label ++ show_Z (Z.of_nat provider_index)
                                   ++ lit " rejected its description: " ++ error)))
      | (w, Err (Runtime error)) => (w, Err error)
      | (w, Ok routes) =>
          match try_fold (add_http_route label (mk provider_index) provider_index) st routes with
          | Err e => (w, Err e)
          | Ok st => resolve_http label mk described st w
          end
      end
  end.

Definition add_websocket_route (provider_index : nat) (st : Collected) (route : str * str) :
    Result RuntimeFailure Collected :=
  let '(path, route_id) := route in
  if invalid_path route_id path then Err (plugin_failure (lit "invalid WebSocket route")) else
  let '(methods, manifest) := st in
  match insert_route methods GET path (mkTarget route_id (WebSocketProvider provider_index)) with
  | Err _ => Err (plugin_failure (lit "conflicting WebSocket route"))
  | Ok methods => Ok (methods, manifest ++ [Manifest.new_route (lit "GET") path route_id])
  end.

Fixpoint resolve_websocket (policy : option WebSocketConfig)
    (described : list (nat * (X -> X * Result (InvocationError unit) (list (str * str)))))
    (st : Collected) (w : World X) : World X * Result RuntimeFailure Collected :=
  match described with
  | [] => (w, Ok st)
  | (provider_index, describe) :: described =>
      match policy with
      | None => (w, Err (plugin_failure (lit "WebSocket routes require explicit transport policy")))
      | Some _ =>
          match lift describe w with
          | (w, Err _) => (w, Err (plugin_failure (lit "WebSocket route description failed")))
          | (w, Ok routes) =>
              match try_fold (add_websocket_route provider_index) st routes with
              | Err e => (w, Err e)
              | Ok st => resolve_websocket policy described st w
              end
          end
      end
  end.

Definition http_label : str := lit "HTTP Endpoint provider ".
Definition stream_label : str := lit "streaming HTTP Endpoint provider ".

Definition resolve (providers : list EndpointClient) (stream_providers : list StreamEndpointClient)
    (websocket_providers : list WebSocketEndpointClient) (websocket_policy : option WebSocketConfig)
    (invocation_context : X -> X * Result RuntimeFailure unit) (w : World X) :
    World X * Result RuntimeFailure RouteTable :=
  match resolve_http http_label BufferedProvider (enumerate (describe <$> providers)) (∅, []) w with
  | (w, Err e) => (w, Err e)
  | (w, Ok st) =>
  match resolve_http stream_label StreamingProvider (enumerate (describe_stream <$> stream_providers)) st w with
  | (w, Err e) => (w, Err e)
  | (w, Ok st) =>
  if bool_decide (st.1 = ∅)
  then (w, Err (plugin_failure (lit "Web Ingress requires at least one bound HTTP Endpoint route"))) else
  match resolve_websocket websocket_policy (enumerate (describe_websocket <$> websocket_providers)) st w with
  | (w, Err e) => (w, Err e)
  | (w, Ok (methods, manifest)) =>
      (w, Ok (mkTable invocation_context providers stream_providers websocket_providers websocket_policy
                methods (Manifest.new manifest)))
  end end end.

(** ** Dispatch *)

Definition method_le (a b : Method) : Prop := str_le (m_as_str a) (m_as_str b).
#[local] Instance method_le_dec : RelDecision method_le := fun a b => str_le_dec (m_as_str a) (m_as_str b).

Definition matches (router : Router RouteTarget) (path : str) : bool :=
  match router_at router path with Some _ => true | None => false end.

Definition allowed_methods (table : RouteTable) (path : str) : list Method :=
  merge_sort method_le
    (filter (fun '(_, router) => matches router path = true) (map_to_list (methods table))).*1.

(** The answer when no route of the request's method matches. *)
Definition unmatched (table : RouteTable) (path : str) : DispatchError :=
  let allowed := allowed_methods table path in
  if is_empty allowed then NotFound else MethodNotAllowed allowed.

Definition provider_index (p : RouteProvider) : nat :=
  match p with BufferedProvider i | StreamingProvider i | WebSocketProvider i => i end.

(** [observe_failure]: the diagnostics observer records the event. *)
Definition observe_failure (request_id route_id : str) (provider_index : nat) (failure : RuntimeFailure)
    (w : World X) : World X :=
  emit [EndpointRuntimeFailure (mkEndpointFailure request_id route_id provider_index failure)] w.

Definition runtime_dispatch_error (request_id route_id : str) (provider_index : nat) (failure : RuntimeFailure)
    (w : World X) : World X * DispatchError :=
  (observe_failure request_id route_id provider_index failure w,
   match failure with DeadlineExceeded _ => TimedOut | _ => Unavailable end).

(** The loop that reads the response head of a stream. *)
Fixpoint read_head (events : list (Result RuntimeFailure (StreamEvent ResponseStream.StreamFrame))) :
    option (Result RuntimeFailure (option ResponseStream.StreamFrame)
            * list (Result RuntimeFailure (StreamEvent ResponseStream.StreamFrame))) :=
  match events with
  | [] => None
  | Err failure :: rest => Some (Err failure, rest)
  | Ok (Message frame) :: rest =>
      if bool_decide (ResponseStream.kind frame = ResponseStream.Head) then Some (Ok (Some frame), rest)
      else Some (Ok None, rest)
  | Ok PeerHalfClosed :: rest => read_head rest
  | Ok (Terminal _) :: rest => Some (Ok None, rest)
  end.

Definition Dispatched : Type := Outcome (Result DispatchError DispatchResponse).

(** What the endpoint is told about the request. *)
Definition handle_request (request : InboundRequest) (params : list (str * str)) (route_id : str) : HandleRequest := {|
  hr_body := Request.body request;
  hr_credential := (fun c => (scheme c, value c)) <$> credential request;
  hr_headers := (fun h => (header_name h, header_value h)) <$> Request.headers request;
  hr_method := m_as_str (method request);
  hr_path := path request;
  hr_path_parameters := params;
  hr_query := query request;
  hr_request_id := inbound_request_id request;
  hr_route_id := route_id |}.

Definition connect_request (request : InboundRequest) (params : list (str * str)) (route_id : str)
    (protocols : list str) : ConnectWebsocketRequest := {|
  cr_credential := (fun c => (scheme c, value c)) <$> credential request;
  cr_headers := (fun h => (header_name h, header_value h)) <$> Request.headers request;
  cr_path := path request;
  cr_query := query request;
  cr_request_id := inbound_request_id request;
  cr_route_id := route_id;
  cr_path_parameters := params;
  cr_protocols := protocols |}.

Section invoke.
Context (table : RouteTable) (request : InboundRequest) (params : list (str * str)) (route_id : str)
  (cancel_first : bool).

Definition runtime_error (index : nat) (failure : RuntimeFailure) (w : World X) : World X * Dispatched :=
  let '(w, e) := runtime_dispatch_error (inbound_request_id request) route_id index failure w in
  (w, Returned (Err e)).

Definition invoke_buffered (index : nat) (w : World X) : World X * Dispatched :=
  match providers table !! index with
  | None => (w, Panicked)
  | Some provider =>
      match lift (handle provider cancel_first (handle_request request params route_id)) w with
      | (w, Ok response) => (w, Returned (Ok (DispatchBuffered response)))
      | (w, Err (Domain _)) => (w, Returned (Err Rejected))
      | (w, Err (Runtime failure)) => runtime_error index failure w
      end
  end.

Definition invoke_streaming (index : nat) (w : World X) : World X * Dispatched :=
  match stream_providers table !! index with
  | None => (w, Panicked)
  | Some provider =>
      match lift (handle_stream provider cancel_first (handle_request request params route_id)) w with
      | (w, Err (Domain _)) => (w, Returned (Err Rejected))
      | (w, Err (Runtime failure)) => runtime_error index failure w
      | (w, Ok stream) =>
          let cancel := emit [StreamCancelled (stream_id stream)] in
          match read_head (script stream) with
          | None => (w, Waiting)
          | Some (Err failure, _) => runtime_error index failure w
          | Some (Ok None, _) => (cancel w, Returned (Err Rejected))
          | Some (Ok (Some head), rest) =>
              match ResponseStream.status head, ResponseStream.headers head, ResponseStream.body head with
              | Some status, Some headers, None =>
                  (w, Returned (Ok (DispatchStreaming (mkStreamingResponse headers status
                        (mkStream (stream_id stream) rest (send_script stream) (stream_sent stream))))))
              | _, _, _ => (cancel w, Returned (Err Rejected))
              end
          end
      end
  end.

Definition invoke_websocket (handshake : option Handshake.Handshake) (index : nat) (w : World X) : World X * Dispatched :=
  match handshake with
  | None => (w, Returned (Err UpgradeRequired))
  | Some handshake =>
      if negb (is_empty (Request.body request)) then (w, Returned (Err BadHandshake)) else
      match websocket_providers table !! index with
      | None => (w, Panicked)
      | Some provider =>
          match lift (connect_websocket provider cancel_first
                  (connect_request request params route_id (Handshake.protocols handshake))) w with
          | (w, Err (Domain WsUnauthorized)) => (w, Returned (Err Unauthorized))
          | (w, Err (Domain WsRejected)) => (w, Returned (Err Forbidden))
          | (w, Err (Domain WsUnsupportedProtocol)) => (w, Returned (Err BadHandshake))
          | (w, Err (Domain WsUnknown)) => (w, Returned (Err Rejected))
          | (w, Err (Runtime failure)) => runtime_error index failure w
          | (w, Ok stream) =>
              match websocket_policy table with
              | None => (w, Returned (Err Unavailable))
              | Some policy =>
                  match WebSocket.accept stream (Handshake.protocols handshake)
                          (max_message_bytes policy) (max_session_bytes policy) with
                  | None => (w, Waiting)
                  | Some (Err _, es) => (emit es w, Returned (Err Rejected))
                  | Some (Ok session, es) =>
                      (emit es w, Returned (Ok (DispatchWebSocket
                         (WebSocket.mkUpgrade session (Handshake.accept handshake)))))
                  end
              end
          end
      end
  end.

Definition invoke (handshake : option Handshake.Handshake) (provider : RouteProvider) (w : World X) : World X * Dispatched :=
  match provider with
  | WebSocketProvider index => invoke_websocket handshake index w
  | BufferedProvider index => invoke_buffered index w
  | StreamingProvider index => invoke_streaming index w
  end.
End invoke.

Definition dispatch (table : RouteTable) (cancel_first : bool) (request : InboundRequest)
    (handshake : option Handshake.Handshake) (w : World X) : World X * Dispatched :=
  match methods table !! method request with
  | None => (w, Returned (Err (unmatched table (path request))))
  | Some router =>
  match router_at router (path request) with
  | None => (w, Returned (Err (unmatched table (path request))))
  | Some (target, params) =>
      let route_id := target_route_id target in
      let provider := target_provider target in
      match lift (invocation_context table) w with
      | (w, Err failure) =>
          (observe_failure (inbound_request_id request) route_id (provider_index provider) failure w,
           Returned (Err Unavailable))
      | (w, Ok _) =>
          (* a cancellation that wins the race cancels the context and still awaits the invocation *)
          let w := if cancel_first then emit [InvocationCancelled] w else w in
          invoke table request params route_id cancel_first handshake provider w
      end
  end end.

(** ** What a route table holds *)

Record Registration := mkRegistration { reg_method : Method; reg_path : str; reg_target : RouteTarget }.

Definition routes_of (m : Method) (rs : list Registration) : list (str * RouteTarget) :=
  (fun r => (reg_path r, reg_target r)) <$> filter (fun r => reg_method r = m) rs.

(** Each method's router holds the registrations of that method, and there is no other router. *)
Definition Registered (methods : gmap Method (Router RouteTarget)) (rs : list Registration) : Prop :=
  forall m, if decide (routes_of m rs = []) then methods !! m = None
            else exists r, methods !! m = Some r /\ router_of (routes_of m rs) = Ok r.

Definition manifest_entry (r : Registration) : Manifest.WebIngressRoute :=
  Manifest.new_route (m_as_str (reg_method r)) (reg_path r) (target_route_id (reg_target r)).

Lemma routes_of_snoc m rs r : routes_of m (rs ++ [r])
  = routes_of m rs ++ (if decide (reg_method r = m) then [(reg_path r, reg_target r)] else []).
Proof.
  unfold routes_of. rewrite filter_app, fmap_app, filter_cons. by destruct (decide (reg_method r = m)).
Qed.

Lemma insert_route_registered methods rs m p t methods' :
  Registered methods rs -> insert_route methods m p t = Ok methods' ->
  Registered methods' (rs ++ [mkRegistration m p t]).
Proof.
  intros HR Hi. unfold insert_route in Hi. inv_ok Hi. subst methods'. intros m'. rewrite routes_of_snoc; cbn.
  destruct (decide (m = m')) as [<-|Hne].
  - rewrite lookup_insert_eq, decide_False by by destruct (routes_of m rs).
    eexists. split; [done|]. unfold router_of. rewrite try_fold_app.
    specialize (HR m). destruct (decide (routes_of m rs = [])) as [Hnil|Hnil].
    + rewrite Hnil. cbn. rewrite HR in E. cbn in E. by rewrite E.
    + destruct HR as (r & Hm & Hr). unfold router_of in Hr. rewrite Hr. cbn. rewrite Hm in E. cbn in E. by rewrite E.
  - rewrite lookup_insert_ne, app_nil_r by done. apply HR.
Qed.

(** The routes collected so far satisfy [P]. *)
Definition CollectedOk (P : Registration -> Prop) (st : Collected) : Prop :=
  exists rs, Registered st.1 rs /\ st.2 = manifest_entry <$> rs /\ Forall P rs.

Lemma collected_init P : CollectedOk P (∅, []).
Proof. exists []. split; [|done]. intros m. rewrite decide_True by done. apply lookup_empty. Qed.

Lemma collected_snoc P st m p t methods' :
  CollectedOk P st -> insert_route st.1 m p t = Ok methods' -> P (mkRegistration m p t) ->
  CollectedOk P (methods', st.2 ++ [Manifest.new_route (m_as_str m) p (target_route_id t)]).
Proof.
  intros (rs & HR & Hm & HP) Hi Hp. exists (rs ++ [mkRegistration m p t]). cbn.
  split; [by eapply insert_route_registered|]. rewrite fmap_app, Hm. split; [done|].
  by apply Forall_app_2; [|constructor].
Qed.

(** The path of a route is absolute and has neither query nor fragment; its id is not blank. *)
Definition PathOk (route_id path : str) : Prop := invalid_path route_id path = false.

Lemma add_http_route_ok P label provider i st route st' :
  (forall m, m_from_bytes (to_ascii_uppercase (trim (described_method route))) = Some m ->
     PathOk (described_route_id route) (described_path route) ->
     P (mkRegistration m (described_path route) (mkTarget (described_route_id route) provider))) ->
  CollectedOk P st -> add_http_route label provider i st route = Ok st' -> CollectedOk P st'.
Proof.
  intros HP HC Ha. unfold add_http_route in Ha. inv_ok_step Ha. inv_ok_step Ha. destruct st as [ms mf].
  destruct (insert_route ms m _ _) eqn:Ei; [|done]. injection Ha as <-.
  by apply (collected_snoc P (ms, mf) m (described_path route) (mkTarget (described_route_id route) provider));
    [| |apply HP].
Qed.

Lemma add_websocket_route_ok `{!HttpLaws} P i st route st' :
  (PathOk route.2 route.1 -> P (mkRegistration GET route.1 (mkTarget route.2 (WebSocketProvider i)))) ->
  CollectedOk P st -> add_websocket_route i st route = Ok st' -> CollectedOk P st'.
Proof.
  intros HP HC Ha. unfold add_websocket_route in Ha. destruct route as [p id]. inv_ok_step Ha. destruct st as [ms mf].
  destruct (insert_route ms GET _ _) eqn:Ei; [|done]. injection Ha as <-.
  pose proof (collected_snoc P (ms, mf) GET p (mkTarget id (WebSocketProvider i)) _ HC Ei) as HX.
  assert (HG : m_as_str GET = lit "GET") by by apply m_const_str. rewrite HG in HX. by apply HX, HP.
Qed.

Lemma try_fold_preserves {E A S} (I : S -> Prop) (f : S -> A -> Result E S) s l s' :
  (forall s a s', a ∈ l -> I s -> f s a = Ok s' -> I s') -> I s -> try_fold f s l = Ok s' -> I s'.
Proof.
  revert s; induction l as [|a l IH]; intros s Hf HI Hl; cbn in Hl; [by injection Hl as <-|].
  inv_ok_step Hl. eapply IH; [|eapply Hf; [by left | exact HI | done] | done]. intros ? ? ? Hin. apply Hf. by right.
Qed.

(** The route is among those the provider returned when it was asked. *)
Definition Described {E A} (d : X -> X * Result E (list A)) (route : A) : Prop :=
  exists x x' routes, d x = (x', Ok routes) /\ route ∈ routes.

Lemma lift_described {E A} (d : X -> X * Result E (list A)) w w' routes route :
  lift d w = (w', Ok routes) -> route ∈ routes -> Described d route.
Proof.
  unfold lift. destruct (d (ext w)) as [x r] eqn:Ed. intros [= _ ->] Hin. by exists (ext w), x, routes.
Qed.

(** An invariant of the loop bodies is an invariant of resolution. *)
Lemma resolve_http_inv (I : Collected -> Prop) label mk described st w w' st' :
  (forall i d s route s', (i, d) ∈ described -> Described d route -> I s -> add_http_route label (mk i) i s route = Ok s' -> I s') ->
  I st -> resolve_http label mk described st w = (w', Ok st') -> I st'.
Proof.
  revert st w; induction described as [|[i d] described IH]; intros st w HP HC Hr; cbn in Hr; [by injection Hr as _ <-|].
  destruct (lift d w) as [w1 [routes|[e|e]]] eqn:El; [|done|done].
  destruct (try_fold _ st routes) as [st1|] eqn:Ef; [|done]. eapply IH; [|..|done].
  - intros j d' s route s' Hin. apply (HP j d'). by right.
  - eapply (try_fold_preserves I); [|done|done]. intros s a s' Ha Hs Hadd.
    eapply (HP i d); [by left | by eapply lift_described | done | done].
Qed.

Lemma resolve_websocket_inv (I : Collected -> Prop) policy described st w w' st' :
  (forall i d s route s', (i, d) ∈ described -> Described d route -> is_Some policy -> I s ->
     add_websocket_route i s route = Ok s' -> I s') ->
  I st -> resolve_websocket policy described st w = (w', Ok st') -> I st'.
Proof.
  revert st w; induction described as [|[i d] described IH]; intros st w HP HC Hr; cbn in Hr; [by injection Hr as _ <-|].
  destruct policy as [pol|]; [|done]. destruct (lift d w) as [w1 [routes|e]] eqn:El; [|done].
  destruct (try_fold _ st routes) as [st1|] eqn:Ef; [|done]. eapply IH; [|..|done].
  - intros j d' s route s' Hin. apply (HP j d'). by right.
  - eapply (try_fold_preserves I); [|done|done]. intros s a s' Ha Hs Hadd.
    eapply (HP i d); [by left | by eapply lift_described | by eexists | done | done].
Qed.

Lemma add_websocket_route_nonempty i st route st' :
  add_websocket_route i st route = Ok st' -> st'.1 <> ∅.
Proof.
  unfold add_websocket_route, insert_route. destruct route as [p id], st as [ms mf]. intros Ha. inv_ok_step Ha.
  destruct (router_insert _ _ _); [|done]. injection Ha as <-. apply insert_non_empty.
Qed.

Lemma enumerate_fmap {A B} (f : A -> B) l i b : (i, b) ∈ enumerate (f <$> l) -> exists a, l !! i = Some a /\ b = f a.
Proof.
  rewrite elem_of_enumerate, list_lookup_fmap. destruct (l !! i) as [a|]; [|done]. intros [= <-]. by exists a.
Qed.

(** A registration stands for a route as it was described. *)
Definition FromRoute (r : Registration) (route : RouteDescription) : Prop :=
  described_route_id route = target_route_id (reg_target r) /\ described_path route = reg_path r
  /\ m_from_bytes (to_ascii_uppercase (trim (described_method route))) = Some (reg_method r).

(** A registration a table can serve: a bound provider described it. *)
Definition RouteOk (ps : list EndpointClient) (ss : list StreamEndpointClient) (wss : list WebSocketEndpointClient)
    (policy : option WebSocketConfig) (r : Registration) : Prop :=
  PathOk (target_route_id (reg_target r)) (reg_path r)
  /\ match target_provider (reg_target r) with
     | BufferedProvider i => exists p route, ps !! i = Some p /\ Described (describe p) route /\ FromRoute r route
     | StreamingProvider i => exists p route, ss !! i = Some p /\ Described (describe_stream p) route /\ FromRoute r route
     | WebSocketProvider i =>
         (exists p, wss !! i = Some p /\ Described (describe_websocket p) (reg_path r, target_route_id (reg_target r)))
         /\ reg_method r = GET /\ is_Some policy
     end.

Definition TableOk (t : RouteTable) (rs : list Registration) : Prop :=
  Registered (methods t) rs /\ manifest t = Manifest.new (manifest_entry <$> rs)
  /\ Forall (RouteOk (providers t) (stream_providers t) (websocket_providers t) (websocket_policy t)) rs.

Context `{!HttpLaws} `{!MatchitLaws}.

Lemma resolve_table_ok ps ss wss policy ctx w w' t :
  resolve ps ss wss policy ctx w = (w', Ok t) -> exists rs, TableOk t rs /\ rs <> [].
Proof.
  unfold resolve. set (P := RouteOk ps ss wss policy).
  destruct (resolve_http http_label _ _ _ w) as [w1 [st1|]] eqn:E1; [|done].
  destruct (resolve_http stream_label _ _ st1 w1) as [w2 [st2|]] eqn:E2; [|done].
  case_bool_decide as Hne; [done|].
  destruct (resolve_websocket policy _ st2 w2) as [w3 [[ms mf]|]] eqn:E3; [|done].
  intros Hr. injection Hr as _ <-.
  assert (Hc1 : CollectedOk P st1).
  { eapply (resolve_http_inv (CollectedOk P)); [|apply collected_init|exact E1].
    intros i d s route s' Hin Hd Hs. apply add_http_route_ok; [|done]. intros m Hm Hp.
    apply enumerate_fmap in Hin as (p & Hi & ->). split; [done|]. by exists p, route. }
  assert (Hc2 : CollectedOk P st2).
  { eapply (resolve_http_inv (CollectedOk P)); [|exact Hc1|exact E2].
    intros i d s route s' Hin Hd Hs. apply add_http_route_ok; [|done]. intros m Hm Hp.
    apply enumerate_fmap in Hin as (p & Hi & ->). split; [done|]. by exists p, route. }
  assert (Hc3 : CollectedOk P (ms, mf) /\ ms <> ∅).
  { eapply (resolve_websocket_inv (fun st => CollectedOk P st /\ st.1 <> ∅)); [|by split|exact E3].
    intros i d s [path id] s' Hin Hd Hpol [Hs _] Ha. split; [|by eapply add_websocket_route_nonempty].
    eapply add_websocket_route_ok; [|done|done]. intros Hp.
    apply enumerate_fmap in Hin as (p & Hi & ->). split; [done|]. cbn. eauto. }
  destruct Hc3 as [(rs & HR & Hm & HP) Hms]. cbn in HR, Hm. exists rs.
  split; [split; [done|]; split; [by rewrite Hm | done]|].
  intros ->. apply Hms, map_empty. intros m. specialize (HR m). by rewrite decide_True in HR.
Qed.

Lemma matched_target t rs m router path target params :
  TableOk t rs -> methods t !! m = Some router -> router_at router path = Some (target, params) ->
  exists r, r ∈ rs /\ reg_method r = m /\ reg_target r = target
    /\ RouteOk (providers t) (stream_providers t) (websocket_providers t)
         (websocket_policy t) r.
Proof.
  intros (HR & _ & HP) Hm Hat. specialize (HR m). destruct (decide (routes_of m rs = [])); [congruence|].
  destruct HR as (r' & Hm' & Hr). assert (r' = router) as -> by congruence.
  apply (router_at_inserted _ _ _ _ _ _ Hr) in Hat. unfold routes_of in Hat.
  apply list_elem_of_fmap in Hat as ([p tg] & Htg & Hin). apply list_elem_of_fmap in Hin as (r & Hrr & Hin).
  apply list_elem_of_filter in Hin as [Hmm Hin]. injection Hrr as -> ->. cbn in Htg. subst target.
  exists r. rewrite Forall_forall in HP. auto.
Qed.

(** ** Properties *)

(** C12: a table that resolution returns is sound: every route it can match comes from a description of a
    bound provider of the right kind, with the method, the path and the identifier described, an absolute path without query or fragment and a non-blank
    identifier; WebSocket routes exist only under [GET] and only with an explicit transport policy; and
    the manifest lists exactly the registered routes. *)
Theorem resolve_sound ps ss wss policy ctx w w' t :
  resolve ps ss wss policy ctx w = (w', Ok t) ->
  exists rs, rs <> [] /\ Registered (methods t) rs
    /\ manifest t = Manifest.new (manifest_entry <$> rs)
    /\ Forall (RouteOk (providers t) (stream_providers t) (websocket_providers t)
                 (websocket_policy t)) rs.
Proof. intros Hr. apply resolve_table_ok in Hr as (rs & (? & ? & ?) & ?). by exists rs. Qed.

Lemma allowed_methods_spec t path m :
  m ∈ allowed_methods t path <-> exists router, methods t !! m = Some router /\ matches router path = true.
Proof.
  unfold allowed_methods. rewrite merge_sort_Permutation, list_elem_of_fmap. split.
  - intros ([m' r] & -> & Hin). apply list_elem_of_filter in Hin as [Hm Hin].
    apply elem_of_map_to_list in Hin. eauto.
  - intros (r & Hm & Hr). exists (m, r). split; [done|]. apply list_elem_of_filter.
    by rewrite elem_of_map_to_list.
Qed.

Lemma allowed_methods_NoDup t path : NoDup (allowed_methods t path).
Proof.
  unfold allowed_methods. rewrite merge_sort_Permutation.
  apply NoDup_fmap_fst.
  - intros m r1 r2 Hin1 Hin2. apply list_elem_of_filter in Hin1 as [_ Hin1], Hin2 as [_ Hin2].
    apply elem_of_map_to_list in Hin1, Hin2. congruence.
  - apply NoDup_filter, NoDup_map_to_list.
Qed.

#[local] Instance method_le_total : Total method_le.
Proof. intros a b. apply str_le_total. Qed.

(** An unmatched request is answered exactly: 404 when no method of the path exists, and otherwise 405
    whose [Allow] list is, without repetition and in byte order, the methods under which the path is
    served; the request's own method is never among them. *)
Lemma unmatched_exact t c request handshake w :
  (forall router, methods t !! method request = Some router -> matches router (path request) = false) ->
  (forall m, m ∈ allowed_methods t (path request) <->
     exists router, methods t !! m = Some router /\ matches router (path request) = true)
  /\ NoDup (allowed_methods t (path request)) /\ Sorted method_le (allowed_methods t (path request))
  /\ method request ∉ allowed_methods t (path request)
  /\ dispatch t c request handshake w
     = (w, Returned (Err (if is_empty (allowed_methods t (path request)) then NotFound
                          else MethodNotAllowed (allowed_methods t (path request))))).
Proof.
  intros Hno. split; [apply allowed_methods_spec|]. split; [apply allowed_methods_NoDup|].
  split; [apply Sorted_merge_sort, _|]. split.
  - rewrite allowed_methods_spec. intros (r & Hr & Hm). rewrite (Hno r Hr) in Hm. done.
  - unfold dispatch, unmatched. destruct (methods t !! method request) as [r|] eqn:Er; [|done].
    specialize (Hno r eq_refl). unfold matches in Hno. by destruct (router_at r (path request)).
Qed.

Lemma lift_trace {A} (f : X -> X * A) w w' a : lift f w = (w', a) -> trace w' = trace w.
Proof. unfold lift. destruct (f (ext w)) as [x b]. by intros [= <- <-]. Qed.

Lemma invoke_no_panic t request params id c handshake provider w m p :
  RouteOk (providers t) (stream_providers t) (websocket_providers t)
    (websocket_policy t) (mkRegistration m p (mkTarget id provider)) ->
  (invoke t request params id c handshake provider w).2 <> Panicked.
Proof.
  intros [_ Hb]. cbn in Hb. destruct provider as [i|i|i]; cbn in *.
  - unfold invoke_buffered, runtime_error. destruct Hb as (x & route & -> & _).
    destruct (lift _ w) as [w' [r|[|f]]]; done.
  - unfold invoke_streaming, runtime_error. destruct Hb as (x & route & -> & _).
    destruct (lift _ w) as [w' [r|[|f]]]; [|done..]. repeat case_match; done.
  - unfold invoke_websocket, runtime_error. destruct Hb as [(x & Hx & _) _].
    destruct handshake; [|done]. destruct (negb _); [done|]. rewrite Hx.
    destruct (lift _ w) as [w' [r|[[]|f]]]; try done. repeat case_match; done.
Qed.

(** Dispatch through a resolved table never panics: no index is out of range, whatever the request,
    the providers and the cancellation do. *)
Lemma dispatch_no_panic ps ss wss policy ctx w0 w1 t c request handshake w :
  resolve ps ss wss policy ctx w0 = (w1, Ok t) -> (dispatch t c request handshake w).2 <> Panicked.
Proof.
  intros Hr. apply resolve_table_ok in Hr as (rs & HT & _). unfold dispatch. destruct (methods t !! method request) as [router|] eqn:Em; [|done].
  destruct (router_at router (path request)) as [[target params]|] eqn:Ea; [|done].
  destruct (matched_target _ _ _ _ _ _ _ HT Em Ea) as ([m p tg] & _ & _ & <- & Hok); cbn.
  destruct (lift _ w) as [w' [u|f]]; [|done]. destruct tg as [id pr].
  by eapply invoke_no_panic.
Qed.

Definition failure_events (es : list Effect) : list WebIngressEndpointFailure :=
  omap (fun e => match e with EndpointRuntimeFailure ev => Some ev | _ => None end) es.

(** Where the router sends a request. *)
Definition Routed (t : RouteTable) (request : InboundRequest) (id : str) (provider : RouteProvider) (params : list (str * str)) : Prop :=
  exists router, methods t !! method request = Some router
    /\ router_at router (path request) = Some (mkTarget id provider, params).

Definition failure_error (failure : RuntimeFailure) : DispatchError :=
  match failure with DeadlineExceeded _ => TimedOut | _ => Unavailable end.

(** The runtime failures that end a request before its answer begins, with the error each becomes: there is no context to invoke
    the endpoint in, the invocation fails, or a failure comes, after half-close notices at most, where the head of a stream should. *)
Inductive Fails (t : RouteTable) (c : bool) (request : InboundRequest) (handshake : option Handshake.Handshake) (x : X) :
    str -> nat -> RuntimeFailure -> DispatchError -> Prop :=
| fails_context id provider params x' failure :
    Routed t request id provider params -> invocation_context t x = (x', Err failure) ->
    Fails t c request handshake x id (provider_index provider) failure Unavailable
| fails_buffered id i params p x1 x2 failure :
    Routed t request id (BufferedProvider i) params -> invocation_context t x = (x1, Ok tt) -> providers t !! i = Some p ->
    handle p c (handle_request request params id) x1 = (x2, Err (Runtime failure)) ->
    Fails t c request handshake x id i failure (failure_error failure)
| fails_opening id i params p x1 x2 failure :
    Routed t request id (StreamingProvider i) params -> invocation_context t x = (x1, Ok tt) -> stream_providers t !! i = Some p ->
    handle_stream p c (handle_request request params id) x1 = (x2, Err (Runtime failure)) ->
    Fails t c request handshake x id i failure (failure_error failure)
| fails_head id i params p x1 x2 stream n rest failure :
    Routed t request id (StreamingProvider i) params -> invocation_context t x = (x1, Ok tt) -> stream_providers t !! i = Some p ->
    handle_stream p c (handle_request request params id) x1 = (x2, Ok stream) ->
    script stream = replicate n (Ok PeerHalfClosed) ++ Err failure :: rest ->
    Fails t c request handshake x id i failure (failure_error failure)
| fails_connecting id i params p x1 x2 hs failure :
    Routed t request id (WebSocketProvider i) params -> invocation_context t x = (x1, Ok tt) -> websocket_providers t !! i = Some p ->
    handshake = Some hs -> Request.body request = [] ->
    connect_websocket p c (connect_request request params id (Handshake.protocols hs)) x1 = (x2, Err (Runtime failure)) ->
    Fails t c request handshake x id i failure (failure_error failure).

(** The one that is lost: a failure in place of the frame with which a WebSocket endpoint accepts. *)
Inductive Lost (t : RouteTable) (c : bool) (request : InboundRequest) (handshake : option Handshake.Handshake) (x : X) :
    RuntimeFailure -> Prop :=
| lost_accepting id i params p x1 x2 hs stream rest failure :
    Routed t request id (WebSocketProvider i) params -> invocation_context t x = (x1, Ok tt) -> websocket_providers t !! i = Some p ->
    handshake = Some hs -> Request.body request = [] ->
    connect_websocket p c (connect_request request params id (Handshake.protocols hs)) x1 = (x2, Ok stream) ->
    script stream = Err failure :: rest -> Lost t c request handshake x failure.

Lemma read_head_failure events failure rest : read_head events = Some (Err failure, rest) <->
  exists n, events = replicate n (Ok PeerHalfClosed) ++ Err failure :: rest.
Proof.
  split.
  - induction events as [|[[f| |o]|e] events IH]; cbn; try done.
    + by case_bool_decide.
    + intros Hr. destruct (IH Hr) as [n ->]. by exists (S n).
    + intros [= -> ->]. by exists 0.
  - intros [n ->]. by induction n.
Qed.

(** What one dispatch answers, and the failures [es] it reports. *)
Definition Reported (t : RouteTable) (c : bool) (request : InboundRequest) (handshake : option Handshake.Handshake) (x : X)
    (r : Dispatched) (es : list Effect) : Prop :=
  ((exists id i failure error, Fails t c request handshake x id i failure error /\ r = Returned (Err error)
      /\ failure_events es = [mkEndpointFailure (inbound_request_id request) id i failure])
   \/ (forall id i failure error, ~ Fails t c request handshake x id i failure error) /\ failure_events es = []
      /\ r <> Returned (Err Unavailable) /\ r <> Returned (Err TimedOut))
  /\ forall failure, Lost t c request handshake x failure -> r = Returned (Err Rejected) /\ failure_events es = [].

Lemma runtime_error_reported request id i failure w :
  runtime_error request id i failure w
  = (emit [EndpointRuntimeFailure (mkEndpointFailure (inbound_request_id request) id i failure)] w, Returned (Err (failure_error failure))).
Proof. done. Qed.

Lemma accept_no_failure stream offered ml sl r es :
  WebSocket.accept stream offered ml sl = Some (r, es) -> failure_events es = [].
Proof. unfold WebSocket.accept. intros Ha. repeat case_match; simplify_eq; done. Qed.

Lemma routed_unique t request id provider params id' provider' params' :
  Routed t request id provider params -> Routed t request id' provider' params' -> id = id' /\ provider = provider' /\ params = params'.
Proof. intros (r & Hm & Ha) (r' & Hm' & Ha'). rewrite Hm in Hm'. injection Hm' as <-. rewrite Ha in Ha'. by injection Ha' as <- <- <-. Qed.

(** Makes what a hypothesis says about the route what [Hr] says about it. *)
Ltac routed Hr :=
  match goal with H : Routed _ _ _ _ _ |- _ =>
    tryif constr_eq H Hr then fail else (destruct (routed_unique _ _ _ _ _ _ _ _ Hr H) as (? & ? & ?); clear H; simplify_eq;
      repeat match goal with H1 : ?call = (_, _), H2 : ?call = (_, _) |- _ => rewrite H1 in H2; simplify_eq end; try congruence) end.

(** Refutes that a request on the route [Hr] fails or loses a failure. *)
Ltac refuted Hr := intros; match goal with
  | |- ~ Fails _ _ _ _ _ _ _ _ _ => intros []; routed Hr
  | |- ~ Lost _ _ _ _ _ _ => intros []; routed Hr
  end.

Section reported.
Context (t : RouteTable) (c : bool) (request : InboundRequest) (handshake : option Handshake.Handshake) (x : X).
Context (id : str) (provider : RouteProvider) (params : list (str * str)).
Hypothesis (Hroute : Routed t request id provider params).

(** A request that fails. *)
Lemma reported_failure i failure error es : Fails t c request handshake x id i failure error ->
  (forall f, ~ Lost t c request handshake x f) ->
  failure_events es = [mkEndpointFailure (inbound_request_id request) id i failure] ->
  Reported t c request handshake x (Returned (Err error)) es.
Proof. intros HF HL He. split; [left; by do 4 eexists | by intros f Hf; destruct (HL f)]. Qed.

Lemma reported_none r es : (forall i failure error, ~ Fails t c request handshake x id i failure error) ->
  (forall f, Lost t c request handshake x f -> r = Returned (Err Rejected)) ->
  failure_events es = [] -> r <> Returned (Err Unavailable) -> r <> Returned (Err TimedOut) ->
  Reported t c request handshake x r es.
Proof.
  intros HF HL He Hu Ht. split; [right | intros f Hf; by rewrite (HL f Hf)]. split; [|done].
  intros id' i f e Hf. assert (id' = id) as -> by (destruct Hf; by routed Hroute). by eapply HF.
Qed.
End reported.

(** A request the router does not know. *)
Lemma reported_unrouted t c request handshake (w : World X) error : (forall id provider params, ~ Routed t request id provider params) ->
  error <> Unavailable -> error <> TimedOut ->
  exists es, trace w = trace w ++ es /\ Reported t c request handshake (ext w) (Returned (Err error)) es.
Proof.
  intros Hn Hu Ht. exists []. rewrite app_nil_r. split; [done|]. split.
  - right. split_and!; [|done|congruence..]. by intros id i f e []; eapply Hn.
  - by intros f []; edestruct Hn.
Qed.

(** What invoking the provider of the route reports, once there is a context. *)
Section invoked.
Context (t : RouteTable) (c : bool) (request : InboundRequest) (handshake : option Handshake.Handshake) (x x1 : X).
Context (id : str) (params : list (str * str)) (w : World X).
Hypothesis (Hctx : invocation_context t x = (x1, Ok tt)) (Hw : ext w = x1).

Let Reports (r : World X * Dispatched) : Prop :=
  exists es, trace r.1 = trace w ++ es /\ Reported t c request handshake x r.2 es.

(** Nothing fails and nothing is lost. *)
Lemma reports_none provider r es : Routed t request id provider params ->
  (forall i failure error, ~ Fails t c request handshake x id i failure error) -> (forall f, ~ Lost t c request handshake x f) ->
  trace r.1 = trace w ++ es -> failure_events es = [] -> r.2 <> Returned (Err Unavailable) -> r.2 <> Returned (Err TimedOut) -> Reports r.
Proof.
  intros Hr HF HL Ht He Hu Hto. exists es. split; [done|]. apply (reported_none t c request handshake x id provider params Hr); try done.
  intros f Hf. by destruct (HL f).
Qed.

Lemma reports_failure i failure w' : trace w' = trace w -> (forall f, ~ Lost t c request handshake x f) ->
  Fails t c request handshake x id i failure (failure_error failure) -> Reports (runtime_error request id i failure w').
Proof.
  intros Ht HL HF. rewrite runtime_error_reported. eexists. cbn. rewrite Ht. split; [done|]. by eapply reported_failure.
Qed.

Lemma buffered_reported i : Routed t request id (BufferedProvider i) params -> is_Some (providers t !! i) ->
  Reports (invoke_buffered t request params id c i w).
Proof.
  intros Hr [p Hp]. unfold invoke_buffered, lift. rewrite Hp, Hw.
  assert (HL : forall f, ~ Lost t c request handshake x f) by refuted Hr.
  destruct (handle p c (handle_request request params id) x1) as [x2 [response|[e|failure]]] eqn:Eh.
  - apply (reports_none _ _ [] Hr); [refuted Hr | done | by rewrite app_nil_r | done..].
  - apply (reports_none _ _ [] Hr); [refuted Hr | done | by rewrite app_nil_r | done..].
  - apply reports_failure; [done..|]. by eapply fails_buffered.
Qed.

Lemma streaming_reported i : Routed t request id (StreamingProvider i) params -> is_Some (stream_providers t !! i) ->
  Reports (invoke_streaming t request params id c i w).
Proof.
  intros Hr [p Hp]. unfold invoke_streaming, lift. rewrite Hp, Hw.
  assert (HL : forall f, ~ Lost t c request handshake x f) by refuted Hr.
  destruct (handle_stream p c (handle_request request params id) x1) as [x2 [stream|[e|failure]]] eqn:Eh.
  2: { apply (reports_none _ _ [] Hr); [refuted Hr | done | by rewrite app_nil_r | done..]. }
  2: { apply reports_failure; [done..|]. by eapply fails_opening. }
  assert (HF : (forall failure rest, read_head (script stream) <> Some (Err failure, rest)) ->
    forall j f e, ~ Fails t c request handshake x id j f e).
  { intros Hh j f e []; routed Hr.
    match goal with Es : script _ = _ |- _ =>
      destruct (Hh _ _ (proj2 (read_head_failure _ _ _) (ex_intro _ _ Es))) end. }
  destruct (read_head (script stream)) as [[[[h|]|f] rest]|] eqn:Es.
  - destruct (ResponseStream.status h), (ResponseStream.headers h), (ResponseStream.body h);
      first [by eapply (reports_none _ _ [] Hr); [by apply HF | done | by rewrite app_nil_r | done..]
            | by eapply (reports_none _ _ [_] Hr); [by apply HF | done..]].
  - by eapply (reports_none _ _ [_] Hr); [by apply HF | done..].
  - apply reports_failure; [done..|]. apply read_head_failure in Es as [n Es]. by eapply fails_head.
  - by eapply (reports_none _ _ [] Hr); [by apply HF | done | by rewrite app_nil_r | done..].
Qed.

(** A failure in place of the accepting frame is what [accept] was given. *)
#[local] Ltac lost_event Ea :=
  match goal with Es : script _ = _ |- _ => unfold WebSocket.accept, stream_receive in Ea; by rewrite Es in Ea end.

Lemma websocket_reported i : Routed t request id (WebSocketProvider i) params -> is_Some (websocket_providers t !! i) ->
  is_Some (websocket_policy t) -> Reports (invoke_websocket t request params id c handshake i w).
Proof.
  intros Hr [p Hp] [policy Hpol]. unfold invoke_websocket, lift.
  assert (Hh : handshake = None \/ exists hs, handshake = Some hs) by (destruct handshake; eauto).
  destruct Hh as [Hh|[hs Hh]]; rewrite Hh.
  { by apply (reports_none _ _ [] Hr); [refuted Hr | refuted Hr | by rewrite app_nil_r | done..]. }
  destruct (Request.body request) as [|b bs] eqn:Eb; cbn [is_empty negb].
  2: { by apply (reports_none _ _ [] Hr); [refuted Hr | refuted Hr | by rewrite app_nil_r | done..]. }
  rewrite Hp, Hw.
  destruct (connect_websocket p c _ x1) as [x2 [stream|[e|failure]]] eqn:Eh.
  2: { destruct e; by apply (reports_none _ _ [] Hr); [refuted Hr | refuted Hr | by rewrite app_nil_r | done..]. }
  2: { apply reports_failure; [done | refuted Hr |]. by eapply fails_connecting. }
  rewrite Hpol. assert (HF : forall j f e, ~ Fails t c request handshake x id j f e) by refuted Hr.
  destruct (WebSocket.accept _ _ _ _) as [[[s|e] es]|] eqn:Ea.
  - apply (reports_none _ _ es Hr); [done | | done | by eapply accept_no_failure | done..].
    intros f []; routed Hr. lost_event Ea.
  - exists es. split; [done|]. eapply (reported_none t c request handshake x id); [exact Hr | done | done | by eapply accept_no_failure | done | done].
  - apply (reports_none _ _ [] Hr); [done | | by rewrite app_nil_r | done..].
    intros f []; routed Hr. lost_event Ea.
Qed.
End invoked.

(** C35: the runtime failures that are reported are exactly those that a request fails with, and one is lost. A dispatch through a
    resolved table reports a failure exactly when there is no context for the invocation, the invocation fails, or a stream fails
    where its head should be: once, under the request's own identifier, with the matched route and its provider. The answer is then
    504 for an exceeded deadline and 503 for any other (and 503 when there is no context), and no other answer is a 503 or a 504. A
    runtime failure that a WebSocket endpoint gives in place of its accepting frame is not reported and becomes a 502. *)
Theorem dispatch_reports ps ss wss policy ctx w0 w1 t c request handshake w :
  resolve ps ss wss policy ctx w0 = (w1, Ok t) ->
  exists es, trace (dispatch t c request handshake w).1 = trace w ++ es
    /\ Reported t c request handshake (ext w) (dispatch t c request handshake w).2 es.
Proof.
  intros Hr. apply resolve_table_ok in Hr as (rs & HT & _). unfold dispatch, unmatched.
  destruct (methods t !! method request) as [router|] eqn:Em.
  2: { destruct (is_empty _); (apply reported_unrouted; [|done..]); intros id pr params (router & Hm & _); congruence. }
  destruct (router_at router (path request)) as [[target params]|] eqn:Ea.
  2: { destruct (is_empty _); (apply reported_unrouted; [|done..]); intros id pr params (router' & Hm & Ha); congruence. }
  destruct (matched_target _ _ _ _ _ _ _ HT Em Ea) as ([m p [id pr]] & _ & _ & <- & [_ Hok]); cbn -[invoke] in *.
  assert (Hroute : Routed t request id pr params) by by exists router. unfold lift.
  destruct (invocation_context t (ext w)) as [x1 [[]|f]] eqn:Ec.
  - set (w' := if c then _ else _).
    assert (Hw' : ext w' = x1 /\ exists es, trace w' = trace w ++ es /\ failure_events es = []).
    { subst w'. destruct c; (split; [done|]); [by eexists | exists []; by rewrite app_nil_r]. }
    destruct Hw' as (Hx & es0 & Ht0 & He0).
    assert (HR : exists es, trace (invoke t request params id c handshake pr w').1 = trace w' ++ es
      /\ Reported t c request handshake (ext w) (invoke t request params id c handshake pr w').2 es).
    { destruct pr as [i|i|i]; cbn [invoke].
      - destruct Hok as (q & route & Hq & _). by eapply buffered_reported.
      - destruct Hok as (q & route & Hq & _). by eapply streaming_reported.
      - destruct Hok as ((q & Hq & _) & _ & Hpol). by eapply websocket_reported. }
    destruct HR as (es & Ht & HR). exists (es0 ++ es). rewrite Ht, Ht0, app_assoc. split; [done|].
    unfold Reported, failure_events in *. by rewrite omap_app, He0.
  - eexists. split; [done|]. apply (reported_failure t c request handshake (ext w) id (provider_index pr) f); [by eapply fails_context | | done].
    intros f' []; routed Hroute.
Qed.
End routing.
Arguments EndpointClient X : clear implicits.
Arguments StreamEndpointClient X : clear implicits.
Arguments WebSocketEndpointClient X : clear implicits.
Arguments RouteTable {H H0} X.

(** ** Witnesses *)

#[local] Existing Instance ref_http.
#[local] Existing Instance ref_http_laws.

(** A router that matches paths literally. *)
#[local] Instance ref_matchit : Matchit := {
  Router T := list (str * T);
  router_new _ := [];
  router_insert T path v r :=
    if bool_decide (path ∈ r.*1) then Err (lit "conflict") else Ok (r ++ [(path, v)]);
  router_at T r path := (fun e => (e.2, [])) <$> head (filter (fun e => e.1 = path) r);
}.

Lemma ref_router_of T (l r0 r : list (str * T)) :
  try_fold (fun r '(path, v) => router_insert path v r) (r0 : Router T) l = Ok (r : Router T) -> r = r0 ++ l.
Proof.
  revert r0; induction l as [|[p v] l IH]; intros r0 Hr; cbn in Hr.
  - injection Hr as <-. by rewrite app_nil_r.
  - case_bool_decide; [done|]. apply IH in Hr. by rewrite Hr, <- app_assoc.
Qed.

#[local] Instance ref_matchit_laws : MatchitLaws.
Proof.
  split. intros T l r path v params Hr Hat. apply (ref_router_of T l []) in Hr. cbn in Hr. subst r.
  cbn in Hat. destruct (filter _ l) as [|[p w] rest] eqn:Ef; [done|]. injection Hat as <- <-.
  apply list_elem_of_fmap. exists (p, w). split; [done|].
  assert (Hin : (p, w) ∈ filter (fun e => e.1 = path) l) by (rewrite Ef; left).
  by apply list_elem_of_filter in Hin as [_ ?].
Qed.

Definition sample_provider : EndpointClient unit := mkEndpointClient
  (fun x => (x, Ok [mkDescription (lit " get ") (lit "/items") (lit "items.list")]))
  (fun _ request x => (x, Err (Runtime (DeadlineExceeded 8)))).
Definition sample_context (x : unit) : unit * Result RuntimeFailure unit := (x, Ok ()).
Definition sample_world : World unit := mkWorld () [].
Definition empty_table : RouteTable unit := mkTable sample_context [] [] [] None ∅ (Manifest.mkManifest []).
Definition sample_table : RouteTable unit :=
  match (resolve [sample_provider] [] [] None sample_context sample_world).2 with Ok t => t | Err _ => empty_table end.

Lemma sample_resolved : resolve [sample_provider] [] [] None sample_context sample_world = (sample_world, Ok sample_table).
Proof. reflexivity. Qed.

Example sample_manifest : Manifest.routes (manifest sample_table)
  = [Manifest.mkRoute (lit "GET") (lit "/items") (lit "items.list")].
Proof. vm_compute. reflexivity. Qed.

Definition post_items : InboundRequest := mkInbound [] 1 None 2 None []
  (m_const (lit "POST")) (lit "/items") None (lit "lenso-7").

Lemma resolve_sound_witness :
  exists rs, rs <> [] /\ Registered (methods sample_table) rs
    /\ manifest sample_table = Manifest.new (manifest_entry <$> rs)
    /\ Forall (RouteOk (providers sample_table) (stream_providers sample_table)
                 (websocket_providers sample_table) (websocket_policy sample_table)) rs.
Proof. apply (resolve_sound [sample_provider] [] [] None sample_context sample_world sample_world). reflexivity. Defined.

Definition get_items : InboundRequest := mkInbound [] 1 None 2 None []
  (m_const (lit "GET")) (lit "/items") None (lit "lenso-8").

Lemma dispatch_reports_witness :
  exists es, trace (dispatch sample_table true get_items None sample_world).1 = trace sample_world ++ es
    /\ Reported sample_table true get_items None () (dispatch sample_table true get_items None sample_world).2 es.
Proof. apply (dispatch_reports [sample_provider] [] [] None sample_context sample_world sample_world). reflexivity. Defined.

Example sample_dispatch_timeout :
  trace (dispatch sample_table false get_items None sample_world).1
  = [EndpointRuntimeFailure (mkEndpointFailure (lit "lenso-8") (lit "items.list") 0 (DeadlineExceeded 8))].
Proof. vm_compute. reflexivity. Qed.

End Routing.
