(* ===== verification/Dispatch.v ===== *)
(** * One buffered request through the ingress ([dispatch_buffered] of [ingress.rs])

    The shared path of the socket and event transports: handshake, normalization, middleware,
    routing, and the way back. The [stream_slot] cell that carries a streaming body around the
    middleware is part of the state the middleware runs in, out of the layers' reach. *)
From S2P Require Import Prelude RustStd HttpCrate RefHttp Kernel Config SessionCookie.
From S2P Require Import WebSocket ResponseStream Handshake Request Response Middleware Manifest Routing.

(** [base64] writes its alphabet, which is visible ASCII. *)
Class DigestLaws `{Digests} := {
  base64_encode_visible : forall s, forallb visible_ascii (base64_encode s) = true;
}.

Module Dispatch.
Import SessionCookie Request Response Middleware Routing.

Section dispatch.
Context `{HttpCrate} `{Matchit} `{Digests} {X : Type}.

(** [http::request::Parts]. *)
Record Parts := mkParts {
  part_method : Method; part_uri : Uri; part_version : Version; part_headers : HeaderMap }.

(** The state the middleware runs in: the outside, and the slot. *)
Abbreviation Slot := (option IngressBody) (only parsing).
Abbreviation XS := (X * option IngressBody)%type (only parsing).

Definition hide_slot {A} (f : X -> X * A) (xs : XS) : XS * A :=
  let '(x, a) := f xs.1 in ((x, xs.2), a).

Definition lift_layer (layer : WebIngressMiddleware X) : WebIngressMiddleware XS :=
  mkMiddleware (identity layer)
    (fun request => hide_slot (before_request layer request))
    (fun request response => hide_slot (after_response layer request response)).

Definition open_world (w : World X) : World XS := mkWorld (ext w, None) (trace w).
Definition close_world (w : World XS) : World X := mkWorld (ext w).1 (trace w).

(** The closure given to [middleware::run]. *)
Definition dispatch_closure (routes : RouteTable X) (cancel_first : bool) (handshake : option Handshake.Handshake)
    (control : InboundRequestControl) (request : WebIngressRequest) (w : World XS) :
    World XS * Outcome (Result RuntimeFailure WebIngressResponse) :=
  let finish (response : IngressResponse) (w : World X) :=
    let '(response, stream) := into_middleware_response response in
    (mkWorld (ext w, stream) (trace w), Returned (Ok response)) in
  match restore_inbound_request request control with
  | Panicked => (w, Panicked)
  | Waiting => (w, Waiting)
  | Returned (Err rejection) => finish (request_rejection rejection) (close_world w)
  | Returned (Ok request) =>
      match Routing.dispatch routes cancel_first request handshake (close_world w) with
      | (w', Returned result) =>
          let '(response, es) := dispatch_response result in finish response (emit es w')
      | (w', Panicked) => (mkWorld (ext w', (ext w).2) (trace w'), Panicked)
      | (w', Waiting) => (mkWorld (ext w', (ext w).2) (trace w'), Waiting)
      end
  end.

(** Dropping what the slot still holds. *)
Definition drop_slot (slot : Slot) : list Effect :=
  match slot with Some (WebSocketBody upgrade) => WebSocket.drop_session (WebSocket.session upgrade) | _ => [] end.

(** The code after [catch_unwind]. *)
Definition finish_response (slot : Slot) (result : Outcome (Result RuntimeFailure WebIngressResponse)) :
    Outcome (IngressResponse * list Effect) :=
  match result with
  | Waiting => Waiting
  | Panicked | Returned (Err _) => Returned (unavailable, drop_slot slot)
  | Returned (Ok response) =>
      let response := from_middleware_response response in
      match slot with
      | Some stream => with_session response stream
      | None => Returned (response, [])
      end
  end.

Definition dispatch_buffered (parts : Parts) (body : str) (cancellation disconnected : Z)
    (session_cookie : option SessionCookiePolicy) (routes : RouteTable X) (middleware : list (WebIngressMiddleware X))
    (cancel_first : bool) (w : World X) : World X * Outcome IngressResponse :=
  if bool_decide (part_method parts = CONNECT)
     || (hm_contains_key UPGRADE (part_headers parts)
         && match websocket_policy routes with None => true | Some _ => false end)
  then (w, Returned (json NOT_IMPLEMENTED (error_json "unsupported_interaction"))) else
  let handshake :=
    if hm_contains_key UPGRADE (part_headers parts) then
      if negb (bool_decide (part_method parts = GET)) || negb (bool_decide (part_version parts = HTTP_11))
         || negb (is_empty body)
      then Returned (Err ()) else
      let^ policy := expect (websocket_policy routes) in
      Returned (result_map Some (Handshake.parse (part_headers parts) (Config.allowed_origins policy)))
    else Returned (Ok None) in
  match handshake with
  | Panicked => (w, Panicked)
  | Waiting => (w, Waiting)
  | Returned (Err _) => (w, Returned bad_request)
  | Returned (Ok handshake) =>
  match inbound_request (part_method parts) (part_uri parts) (part_headers parts) body cancellation disconnected
          session_cookie with
  | Panicked => (w, Panicked)
  | Waiting => (w, Waiting)
  | Returned (Err rejection) => (w, Returned (request_rejection rejection))
  | Returned (Ok request) =>
  match middleware_request request (part_version parts) with
  | Panicked => (w, Panicked)
  | Waiting => (w, Waiting)
  | Returned (request, control) =>
      let '(w, result) := run (lift_layer <$> middleware) request
                            (dispatch_closure routes cancel_first handshake control) (open_world w) in
      match finish_response (ext w).2 result with
      | Panicked => (close_world w, Panicked)
      | Waiting => (close_world w, Waiting)
      | Returned (response, es) => (emit es (close_world w), Returned response)
      end
  end end end.

Context `{!HttpLaws} `{!MatchitLaws} `{!DigestLaws}.

(** ** Lemmas: accepted upgrades carry valid header values *)

(** How a session comes to be: the router sends the request to a WebSocket provider, which opens a stream on the
    subprotocols of the handshake, and the stream's first event accepts it within the limits of the policy. *)
Inductive Opened (t : RouteTable X) (h : Handshake.Handshake) (policy : Config.WebSocketConfig) (s : WebSocket.WebSocketSession) : Prop :=
| opened request router id i params p cancel_first x x' stream es :
    methods t !! Request.method request = Some router ->
    router_at router (Request.path request) = Some (mkTarget id (WebSocketProvider i), params) ->
    websocket_providers t !! i = Some p ->
    connect_websocket p cancel_first (connect_request request params id (Handshake.protocols h)) x = (x', Ok stream) ->
    WebSocket.accept stream (Handshake.protocols h) (Config.max_message_bytes policy) (Config.max_session_bytes policy) = Some (Ok s, es) ->
    Opened t h policy s.

(** An upgrade answers a handshake [hs]. *)
Definition UpgradeOk (t : RouteTable X) (hs : option Handshake.Handshake) (u : WebSocket.WebSocketUpgrade) : Prop :=
  exists h policy, hs = Some h /\ websocket_policy t = Some policy /\ WebSocket.accept_key u = Handshake.accept h
    /\ Opened t h policy (WebSocket.session u).

Definition SlotOk (t : RouteTable X) (hs : option Handshake.Handshake) (slot : Slot) : Prop :=
  match slot with Some (WebSocketBody u) => UpgradeOk t hs u | _ => True end.

Definition HandshakeOk (hs : option Handshake.Handshake) : Prop :=
  forall h, hs = Some h -> forallb visible_ascii (Handshake.accept h) = true
    /\ Forall (fun p => forallb visible_ascii p = true) (Handshake.protocols h).

Lemma token_char_visible c :
  is_ascii_alphanumeric c || bool_decide (c ∈ lit "!#$%&'*+-.^_`|~") = true -> visible_ascii c = true.
Proof. destruct c as [[] [] [] [] [] [] [] []]; vm_compute; done. Qed.

Lemma token_visible s : Handshake.token s = true -> forallb visible_ascii s = true.
Proof.
  unfold Handshake.token. intros Ht. bool_prop. rewrite forallb_forall in *. intros c Hc.
  apply token_char_visible. auto.
Qed.

Lemma parse_handshake_ok h origins hs : Handshake.parse h origins = Ok hs -> HandshakeOk (Some hs).
Proof.
  intros Hp h' [= <-]. apply Handshake.parse_ok_fields in Hp as (key & -> & Ht).
  split; [apply base64_encode_visible|]. eapply Forall_impl; [exact Ht|]. apply token_visible.
Qed.

Lemma accept_protocol st offered ml sl s es :
  WebSocket.accept st offered ml sl = Some (Ok s, es) ->
  forall p, WebSocket.session_protocol s = Some p -> p ∈ offered.
Proof.
  unfold WebSocket.accept. intros Ha p Hp. repeat case_match; simplify_eq; cbn in *.
  rewrite Hp in *. cbn in *. bool_prop. done.
Qed.

Lemma opened_protocol t h policy s : Opened t h policy s ->
  forall p, WebSocket.session_protocol s = Some p -> p ∈ Handshake.protocols h.
Proof. intros [] q Hq. by eapply accept_protocol. Qed.

Lemma dispatch_upgrade_ok (t : RouteTable X) c request hs w w' u :
  Routing.dispatch t c request hs w = (w', Returned (Ok (DispatchWebSocket u))) -> UpgradeOk t hs u.
Proof.
  unfold Routing.dispatch. destruct (methods t !! _) as [router|] eqn:Em; [|done].
  destruct (router_at _ _) as [[[id provider] ps]|] eqn:Er; [|done].
  destruct (lift _ w) as [w1 [?|?]]; [|done]. cbn [target_provider target_route_id]. destruct provider as [i|i|i]; cbn [invoke].
  - unfold invoke_buffered, runtime_error, runtime_dispatch_error. repeat case_match; intros; simplify_eq.
  - unfold invoke_streaming, runtime_error, runtime_dispatch_error. repeat case_match; intros; simplify_eq.
  - unfold invoke_websocket, runtime_error, runtime_dispatch_error, lift.
    repeat case_match; intros; simplify_eq; (do 2 eexists; split_and!; [done..|]; by econstructor).
Qed.

Lemma dispatch_response_slot result :
  match body (dispatch_response result).1 with
  | WebSocketBody u => result = Ok (DispatchWebSocket u)
  | _ => True
  end.
Proof.
  destruct result as [[r|r|u]|[]]; cbn; try done.
  - unfold from_endpoint. repeat case_match; done.
  - unfold from_stream_endpoint. repeat case_match; done.
  - unfold method_not_allowed. repeat case_match; done.
Qed.

Lemma closure_slot (t : RouteTable X) c hs ctl request w : SlotOk t hs (ext w).2 ->
  SlotOk t hs (ext (dispatch_closure t c hs ctl request w).1).2.
Proof.
  intros Hw. unfold dispatch_closure. destruct (restore_inbound_request request ctl) as [[r|e]| |]; try done.
  2: { unfold into_middleware_response. by destruct e. }
  destruct (Routing.dispatch t c r hs (close_world w)) as [w' [result| |]] eqn:Ed; try done.
  pose proof (dispatch_response_slot result) as Hs. destruct (dispatch_response result) as [resp es]; cbn in Hs.
  unfold into_middleware_response. destruct (body resp) as [b|s|u]; cbn; try done.
  subst result. by eapply dispatch_upgrade_ok.
Qed.

Lemma lift_hide_slot {A} (f : X -> X * A) (w : World XS) : (ext (lift (hide_slot f) w).1).2 = (ext w).2.
Proof. unfold lift, hide_slot. by destruct (f (ext w).1). Qed.

Lemma run_slot (t : RouteTable X) c hs ctl middleware request w : SlotOk t hs (ext w).2 ->
  SlotOk t hs (ext (run (lift_layer <$> middleware) request (dispatch_closure t c hs ctl) w).1).2.
Proof.
  apply (run_preserves (fun w => SlotOk t hs (ext w).2)).
  - intros layer q w' Hin Hw. apply list_elem_of_fmap in Hin as (l & -> & _). cbn.
    by rewrite lift_hide_slot.
  - intros layer q r w' Hin Hw. apply list_elem_of_fmap in Hin as (l & -> & _). cbn.
    by rewrite lift_hide_slot.
  - intros q w' Hw. by apply closure_slot.
Qed.

(** The fields of the answer to an upgrade. *)
Definition SwitchHeaders (u : WebSocket.WebSocketUpgrade) (hs : HeaderMap) : Prop :=
  hm_get_all UPGRADE hs = [hv_from_static (lit "websocket")] /\ hm_get_all CONNECTION hs = [hv_from_static (lit "Upgrade")]
  /\ (exists key, hm_get_all (hn_from_static (lit "sec-websocket-accept")) hs = [key] /\ hv_as_bytes key = WebSocket.accept_key u)
  /\ forall p, WebSocket.session_protocol (WebSocket.session u) = Some p ->
       exists v, hm_get_all (hn_from_static (lit "sec-websocket-protocol")) hs = [v] /\ hv_as_bytes v = p.

(** Reads a field set by a chain of insertions under literal names. *)
Ltac inserted := repeat (apply hm_insert_eq || (rewrite hm_insert_ne by name_ne)).

(** Attaching an upgrade to a response: only a 101 carries it, and then with its fields; any other response drops it. *)
Lemma with_session_upgrade h r u : HandshakeOk (Some h) -> WebSocket.accept_key u = Handshake.accept h ->
  (forall p, WebSocket.session_protocol (WebSocket.session u) = Some p -> p ∈ Handshake.protocols h) ->
  exists r' es, with_session r (WebSocketBody u) = Returned (r', es) /\ Response.status r' = Response.status r
    /\ if decide (Response.status r = SWITCHING_PROTOCOLS) then es = [] /\ Response.body r' = WebSocketBody u /\ SwitchHeaders u (Response.headers r')
       else r' = r.
Proof.
  intros Hh Hk Ho. destruct (Hh h eq_refl) as [Hacc Hpr].
  unfold with_session. destruct (decide (Response.status r = SWITCHING_PROTOCOLS)) as [E|E].
  2: { rewrite bool_decide_false by done. do 2 eexists. done. }
  rewrite bool_decide_true by done. cbn [negb]. destruct (hv_from_str_ok (WebSocket.accept_key u)) as [k Hv]; [by rewrite Hk|].
  rewrite Hv. cbn [expect]. apply hv_from_str_bytes in Hv.
  destruct (WebSocket.session_protocol (WebSocket.session u)) as [p|] eqn:Ep.
  - assert (Hp : forallb visible_ascii p = true) by (apply (proj1 (Forall_forall _ _) Hpr); by apply Ho).
    destruct (hv_from_str_ok p Hp) as [v Hvp]. rewrite Hvp. apply hv_from_str_bytes in Hvp. do 2 eexists. split; [done|].
    split; [done|]. split; [done|]. split; [done|]. unfold SwitchHeaders. cbn [Response.headers]. split_and!.
    + inserted.
    + inserted.
    + exists k. split; [inserted | done].
    + rewrite Ep. intros q [= <-]. exists v. split; [inserted | done].
  - do 2 eexists. split; [done|]. split; [done|]. split; [done|]. split; [done|]. unfold SwitchHeaders. cbn [Response.headers]. split_and!.
    + inserted.
    + inserted.
    + exists k. split; [inserted | done].
    + by rewrite Ep.
Qed.

Lemma with_session_no_panic (t : RouteTable X) hs r b : HandshakeOk hs -> SlotOk t hs (Some b) -> with_session r b <> Panicked.
Proof.
  intros Hh Hs. destruct b as [bs|s|u]; [done..|]. destruct Hs as (h & policy & -> & _ & Hk & Ho).
  by destruct (with_session_upgrade h r u Hh Hk (opened_protocol _ _ _ _ Ho)) as (r' & es & -> & _).
Qed.

Lemma inbound_no_panic m u h b c d p : inbound_request m u h b c d p <> Panicked
  /\ inbound_request m u h b c d p <> Waiting.
Proof.
  unfold inbound_request. destruct (normalized_method_spec m) as (m' & -> & _). repeat case_match; done.
Qed.

Lemma middleware_no_panic m u h b c d p r version :
  inbound_request m u h b c d p = Returned (Ok r) -> uri_path u <> [] ->
  exists req ctl, middleware_request r version = Returned (req, ctl).
Proof. intros Hr Hp. destruct (middleware_request_total _ _ _ _ _ _ _ _ version Hr Hp) as (req & ctl & _ & _ & Hq & _). eauto. Qed.

(** ** Lemmas: fields of the answers *)

(** Refutes a decidable hypothesis on literals. *)
Ltac decided H :=
  let P := type of H in
  assert (~ P) by (apply (bool_decide_eq_false_1 P); vm_compute; reflexivity).


Lemma json_owned s b n : hn_as_str n ∈ owned_names -> hm_get_all n (headers (json s b)) = [].
Proof.
  intros Hn. cbn. rewrite hm_insert_ne; [apply hm_get_all_new|]. intros <-.
  unfold CONTENT_TYPE in Hn. rewrite hn_from_static_spec in Hn by (vm_compute; reflexivity).
  by decided Hn.
Qed.

(** The fields an upgrade answer sets itself. *)
Definition upgrade_names : list str := [lit "upgrade"; lit "connection"].

Definition OwnedAbsent (r : IngressResponse) : Prop :=
  forall n, hn_as_str n ∈ owned_names ->
    hm_get_all n (headers r) = [] \/ (is_websocket (body r) = true /\ hn_as_str n ∈ upgrade_names).

Lemma json_absent s b : OwnedAbsent (json s b).
Proof. intros n Hn. left. by apply json_owned. Qed.

Lemma rejection_absent e : OwnedAbsent (request_rejection e).
Proof. destruct e; apply json_absent. Qed.

Lemma insert_owned n s v m : valid_name s = true -> to_ascii_lowercase s = s -> hn_as_str n <> s ->
  hm_get_all n (hm_insert (hn_from_static s) v m) = hm_get_all n m.
Proof. intros Hv Hl Hn. apply hm_insert_ne. intros <-. by rewrite hn_from_static_spec in Hn. Qed.

Lemma session_absent r b r' es : OwnedAbsent r -> is_websocket (body r) = false ->
  with_session r b = Returned (r', es) -> OwnedAbsent r'.
Proof.
  intros Hr Hb Hw n Hn. destruct (Hr n Hn) as [Hg|[Hx _]]; [|congruence]. unfold with_session in Hw.
  destruct b as [bs|s|u]; [injection Hw as <- _; by left.. |].
  destruct (negb _); [injection Hw as <- _; by left|].
  destruct (hv_from_str (WebSocket.accept_key u)) as [k|]; [|done]. cbn in Hw.
  destruct (decide (hn_as_str n ∈ upgrade_names)) as [Hu|Hu].
  { right. split; [|done]. repeat case_match; simplify_eq; done. }
  left. unfold upgrade_names in Hu. assert (hn_as_str n <> lit "upgrade" /\ hn_as_str n <> lit "connection") as [Hn1 Hn2] by set_solver.
  assert (Hn3 : hn_as_str n <> lit "sec-websocket-accept").
  { intros E. rewrite E in Hn. by decided Hn. }
  assert (Hn4 : hn_as_str n <> lit "sec-websocket-protocol").
  { intros E. rewrite E in Hn. by decided Hn. }
  unfold UPGRADE, CONNECTION in Hw.
  destruct (WebSocket.session_protocol (WebSocket.session u)) as [p|].
  - destruct (hv_from_str p); [|done]. cbn in Hw. injection Hw as <- _. cbn [headers].
    by rewrite !insert_owned by (done || (vm_compute; reflexivity)).
  - injection Hw as <- _. cbn [headers]. by rewrite !insert_owned by (done || (vm_compute; reflexivity)).
Qed.

Lemma finish_absent slot result r es : finish_response slot result = Returned (r, es) -> OwnedAbsent r.
Proof.
  unfold finish_response. intros Hf. destruct result as [[resp|e]| |]; try (injection Hf as <- _; apply json_absent); [|done].
  assert (Ho : OwnedAbsent (from_middleware_response resp)).
  { intros n Hn. left. by rewrite from_middleware_headers, decide_True. }
  destruct slot as [b|]; [by eapply session_absent | by injection Hf as <- _].
Qed.

(** ** Properties *)

(** The handshake step of [dispatch_buffered]: what it decides about the request. *)
Definition RejectedEarly (parts : Parts) (bytes : str) (session_cookie : option SessionCookiePolicy)
    (routes : RouteTable X) (answer : IngressResponse) : Prop :=
  (part_method parts = CONNECT
     \/ hm_get_all UPGRADE (part_headers parts) <> [] /\ websocket_policy routes = None)
    /\ answer = json NOT_IMPLEMENTED (error_json "unsupported_interaction")
  \/ part_method parts <> CONNECT /\ answer = bad_request
     /\ (exists policy, hm_get_all UPGRADE (part_headers parts) <> [] /\ websocket_policy routes = Some policy
        /\ (part_method parts <> GET \/ part_version parts <> HTTP_11 \/ bytes <> []
            \/ forall hs, Handshake.parse (part_headers parts) (Config.allowed_origins policy) <> Ok hs))
  \/ part_method parts <> CONNECT
     /\ (hm_get_all UPGRADE (part_headers parts) = []
         \/ exists policy hs, websocket_policy routes = Some policy /\ part_method parts = GET
              /\ part_version parts = HTTP_11 /\ bytes = []
              /\ Handshake.parse (part_headers parts) (Config.allowed_origins policy) = Ok hs)
     /\ exists c d e, inbound_request (part_method parts) (part_uri parts) (part_headers parts) bytes c d session_cookie
          = Returned (Err e) /\ answer = request_rejection e.

Lemma inbound_rejection_handles m u h b c d c' d' p e :
  inbound_request m u h b c d p = Returned (Err e) -> inbound_request m u h b c' d' p = Returned (Err e).
Proof. unfold inbound_request. repeat case_match; naive_solver. Qed.

(** A request that is refused before dispatch (an unsupported interaction, an invalid WebSocket
    handshake, malformed or ambiguous credentials, a CSRF violation) is answered without any middleware
    layer or endpoint running: the outside state and the trace are untouched. *)
Lemma early_rejection_isolated parts bytes c d session_cookie routes middleware cancel_first w answer :
  RejectedEarly parts bytes session_cookie routes answer ->
  dispatch_buffered parts bytes c d session_cookie routes middleware cancel_first w = (w, Returned answer).
Proof.
  unfold dispatch_buffered. intros [[Hc ->] | [(Hc & -> & policy & Hu & Hp & Hbad) | (Hc & Hu & c' & d' & e & Hi & ->)]].
  - destruct Hc as [-> | [Hu Hp]]; [by rewrite bool_decide_true|]. rewrite Hp.
    destruct (hm_contains_key UPGRADE (part_headers parts)) eqn:E; [by rewrite orb_true_r|].
    by apply hm_contains_key_false in E.
  - rewrite bool_decide_false by done. rewrite Hp. cbn [orb]. rewrite andb_false_r.
    destruct (hm_contains_key UPGRADE (part_headers parts)) eqn:E; [|by apply hm_contains_key_false in E].
    destruct (negb _ || negb _ || negb _) eqn:Eg; [done|]. bool_prop. cbn [expect].
    destruct (Handshake.parse _ _) as [hs|u] eqn:Eh; [|done]. exfalso.
    destruct Hbad as [?|[?|[Hb|Hx]]]; [done | done | | by apply (Hx hs)].
    apply Hb. by apply is_empty_spec.
  - rewrite bool_decide_false by done. rewrite (inbound_rejection_handles _ _ _ _ _ _ c d _ _ Hi).
    destruct (hm_contains_key UPGRADE (part_headers parts)) eqn:E; [|done].
    destruct Hu as [Hu | (policy & hs & Hp & Hm & Hv & Hb & Hh)].
    { apply hm_contains_key_false in Hu. congruence. }
    rewrite Hp, Hm, Hv, Hb, !bool_decide_true by done. cbn. by rewrite Hh.
Qed.

(** The ingress does not panic: with any middleware and providers (whose own panics are caught),
    serving a request with a non-empty path never fails at one of its [expect]s; in particular every
    accepted handshake key and subprotocol is a valid header value. *)
Lemma dispatch_buffered_safe routes parts bytes c d session_cookie middleware cancel_first (w : World X) :
  uri_path (part_uri parts) <> [] ->
  (dispatch_buffered parts bytes c d session_cookie routes middleware cancel_first w).2 <> Panicked.
Proof.
  intros Hpath. unfold dispatch_buffered. destruct (bool_decide _ || _) eqn:E0; [done|].
  apply orb_false_elim in E0 as [_ E0].
  match goal with |- context [match ?x with Returned _ => _ | Panicked => (w, Panicked) | Waiting => _ end] =>
    assert (Hh : exists r, x = Returned r /\ forall hs, r = Ok hs -> HandshakeOk hs) end.
  { destruct (hm_contains_key UPGRADE (part_headers parts)) eqn:Eu.
    - destruct (negb _ || negb _ || negb _); [by eexists|]. destruct (websocket_policy routes) as [pol|]; [|done].
      cbn. eexists. split; [done|]. intros hs Hr. destruct (Handshake.parse _ _) as [h|] eqn:Ep; [|done].
      injection Hr as <-. by eapply parse_handshake_ok.
    - eexists. split; [done|]. by intros hs [= <-]. }
  destruct Hh as ([hs|u] & -> & Hh); [|done]. specialize (Hh hs eq_refl).
  destruct (inbound_request _ _ _ _ _ _ _) as [[r|e]| |] eqn:Ei; [|done|by destruct (inbound_no_panic (part_method parts) (part_uri parts) (part_headers parts) bytes c d session_cookie)|done].
  destruct (middleware_no_panic _ _ _ _ _ _ _ _ (part_version parts) Ei Hpath) as (req & ctl & ->).
  pose proof (run_slot routes cancel_first hs ctl middleware req (open_world w) I) as Hs.
  destruct (run _ _ _ _) as [w' result]. cbn in Hs.
  destruct (finish_response (ext w').2 result) as [[resp es]| |] eqn:Ef; [done| |done].
  unfold finish_response in Ef. destruct result as [[resp|e]| |]; try done.
  destruct (ext w').2 as [b|]; [|done]. by apply (with_session_no_panic routes hs) in Ef.
Qed.

(** The only request that makes it panic has a target without a path and is not a [CONNECT]. *)
Lemma dispatch_buffered_panics routes parts bytes c d session_cookie middleware cancel_first (w : World X) :
  (dispatch_buffered parts bytes c d session_cookie routes middleware cancel_first w).2 = Panicked ->
  uri_path (part_uri parts) = [] /\ part_method parts <> CONNECT.
Proof.
  intros Hd. split.
  - apply dec_stable. intros Hp. by eapply dispatch_buffered_safe.
  - intros Hm. unfold dispatch_buffered in Hd. by rewrite bool_decide_true in Hd.
Qed.

(** And such a request does, once its fields have been accepted: the middleware's view of it has no target. *)
Lemma no_path_panics routes parts bytes c d session_cookie middleware cancel_first (w : World X) request :
  part_method parts <> CONNECT -> hm_contains_key UPGRADE (part_headers parts) = false -> uri_path (part_uri parts) = [] ->
  inbound_request (part_method parts) (part_uri parts) (part_headers parts) bytes c d session_cookie = Returned (Ok request) ->
  dispatch_buffered parts bytes c d session_cookie routes middleware cancel_first w = (w, Panicked).
Proof.
  intros Hm Hu Hp Hi. unfold dispatch_buffered. rewrite bool_decide_false, Hu, Hi by done. cbn [orb andb].
  apply inbound_request_ok in Hi as (owned & _ & _ & _ & _ & _ & ->). unfold middleware_request. cbn [path query].
  by rewrite uri_query_no_path, Hp, uri_parse_empty.
Qed.

(** Without an upgrade request the answer is never a WebSocket session. *)
Lemma dispatch_plain parts bytes c d session_cookie routes middleware cancel_first (w w' : World X) r :
  hm_contains_key UPGRADE (part_headers parts) = false ->
  dispatch_buffered parts bytes c d session_cookie routes middleware cancel_first w = (w', Returned r) ->
  is_websocket (body r) = false.
Proof.
  intros Hu Hd. unfold dispatch_buffered in Hd. rewrite Hu in Hd.
  destruct (bool_decide _ || _); [by injection Hd as _ <-|].
  destruct (inbound_request _ _ _ _ _ _ _) as [[q|e]| |]; try done; [|by injection Hd as _ <-; destruct e].
  destruct (middleware_request _ _) as [[req ctl]| |]; try done.
  pose proof (run_slot routes cancel_first None ctl middleware req (open_world w) I) as Hs.
  destruct (run _ _ _ _) as [w2 result]. cbn in Hs.
  destruct (finish_response (ext w2).2 result) as [[resp es]| |] eqn:Ef; try done. injection Hd as _ <-.
  unfold finish_response in Ef. destruct result as [[resp'|e]| |]; simplify_eq; try done.
  destruct (ext w2).2 as [[b|s|u]|]; cbn in Ef; simplify_eq; try done. by destruct Hs as (? & ? & [=] & _).
Qed.

(** What the buffered dispatch has checked when it answers with an upgrade. *)
Inductive Upgraded (t : RouteTable X) (parts : Parts) (bytes : str) (r : IngressResponse) (u : WebSocket.WebSocketUpgrade) : Prop :=
| upgraded policy h :
    part_method parts = GET -> part_version parts = HTTP_11 -> bytes = [] -> websocket_policy t = Some policy ->
    Handshake.parse (part_headers parts) (Config.allowed_origins policy) = Ok h ->
    WebSocket.accept_key u = Handshake.accept h -> Opened t h policy (WebSocket.session u) ->
    Response.status r = SWITCHING_PROTOCOLS -> SwitchHeaders u (Response.headers r) -> Upgraded t parts bytes r u.

Lemma finish_upgraded (t : RouteTable X) hs slot result r es u : HandshakeOk hs -> SlotOk t hs slot ->
  finish_response slot result = Returned (r, es) -> Response.body r = WebSocketBody u ->
  UpgradeOk t hs u /\ Response.status r = SWITCHING_PROTOCOLS /\ SwitchHeaders u (Response.headers r).
Proof.
  intros Hh Hs Hf Hb. unfold finish_response in Hf. destruct result as [[resp|e]| |]; simplify_eq.
  destruct slot as [[b|s|u']|]; try (cbn in Hf; injection Hf as <- <-; done).
  assert (Hs' := Hs). destruct Hs' as (h & policy & -> & _ & Hk & Ho).
  destruct (with_session_upgrade h (from_middleware_response resp) u' Hh Hk (opened_protocol _ _ _ _ Ho)) as (r' & es' & Hw & Hst & Hd).
  rewrite Hw in Hf. injection Hf as -> ->. case_decide as Hc; [|by subst r].
  destruct Hd as (_ & Hb' & HH). rewrite Hb in Hb'. injection Hb' as ->. split; [done|]. split; [by rewrite Hst | done].
Qed.

Lemma dispatch_upgraded parts bytes c d session_cookie t middleware cancel_first (w w' : World X) r u :
  dispatch_buffered parts bytes c d session_cookie t middleware cancel_first w = (w', Returned r) ->
  Response.body r = WebSocketBody u -> Upgraded t parts bytes r u.
Proof.
  intros Hd Hb. destruct (hm_contains_key UPGRADE (part_headers parts)) eqn:Eu.
  2: { pose proof (dispatch_plain _ _ _ _ _ _ _ _ _ _ _ Eu Hd) as Hp. by rewrite Hb in Hp. }
  unfold dispatch_buffered in Hd. rewrite Eu in Hd. destruct (bool_decide _ || _); [by injection Hd as _ <-|].
  destruct (negb _ || negb _ || negb _) eqn:Eg; [by injection Hd as _ <-|]. bool_prop.
  destruct (websocket_policy t) as [policy|] eqn:Ep; [|done]. cbn [expect] in Hd.
  destruct (Handshake.parse _ _) as [h|] eqn:Eh; [|by injection Hd as _ <-]. cbn [result_map] in Hd.
  destruct (inbound_request _ _ _ _ _ _ _) as [[q|e]| |]; try done; [|by injection Hd as _ <-; destruct e].
  destruct (middleware_request _ _) as [[req ctl]| |]; try done.
  pose proof (run_slot t cancel_first (Some h) ctl middleware req (open_world w) I) as Hs.
  destruct (run _ _ _ _) as [w2 result]. cbn [fst] in Hs.
  destruct (finish_response (ext w2).2 result) as [[resp es]| |] eqn:Ef; try done. injection Hd as _ <-.
  destruct (finish_upgraded t (Some h) _ _ _ _ u (parse_handshake_ok _ _ _ Eh) Hs Ef Hb) as ((h' & p' & [= <-] & Hp' & Hk & Ho) & Hst & HH).
  rewrite Ep in Hp'. injection Hp' as <-. econstructor; eauto. by apply is_empty_spec.
Qed.

(** C9: no endpoint, streaming endpoint or middleware can smuggle a framing, hop-by-hop, sniffing or
    identity field into an answer: whatever they return, such a field is absent, except the two upgrade
    fields the ingress itself sets on an accepted WebSocket handshake. *)
Theorem answers_exclude_owned_fields parts bytes c d session_cookie routes middleware cancel_first (w w' : World X) r :
  dispatch_buffered parts bytes c d session_cookie routes middleware cancel_first w = (w', Returned r) ->
  forall n, hn_as_str n ∈ owned_names ->
    hm_get_all n (headers r) = [] \/ (is_websocket (body r) = true /\ hn_as_str n ∈ upgrade_names).
Proof.
  intros Hd. change (OwnedAbsent r). unfold dispatch_buffered in Hd.
  destruct (bool_decide _ || _); [injection Hd as _ <-; apply json_absent|].
  destruct (if hm_contains_key UPGRADE (part_headers parts) then _ else _) as [[hs|u]| |]; try done;
    [|injection Hd as _ <-; apply json_absent].
  destruct (inbound_request _ _ _ _ _ _ _) as [[q|e]| |]; try done; [|injection Hd as _ <-; apply rejection_absent].
  destruct (middleware_request _ _) as [[req ctl]| |]; try done.
  destruct (run _ _ _ _) as [w2 result].
  destruct (finish_response (ext w2).2 result) as [[resp es]| |] eqn:Ef; try done.
  injection Hd as _ <-. by eapply finish_absent.
Qed.

End dispatch.

(** ** Witnesses *)

#[local] Existing Instance ref_http.
#[local] Existing Instance ref_http_laws.
#[local] Existing Instance ref_matchit.
#[local] Existing Instance ref_matchit_laws.

(** Encoders that keep the text: enough for the laws. *)
#[local] Instance ref_digests : Digests := {
  base64_decode s := Some s;
  base64_encode s := filter (fun c => visible_ascii c = true) s;
  sha1_digest s := s;
}.

#[local] Instance ref_digest_laws : DigestLaws.
Proof.
  split. intros s. cbn. apply forallb_forall. intros c Hc. apply list_elem_of_In, list_elem_of_filter in Hc. tauto.
Qed.

Definition allowed_parts : Parts :=
  mkParts (m_const (lit "GET")) sample_uri HTTP_11 (ref_headers [("x-request-id", "lenso-1")%string]).

(** A layer that stamps every answer with a forged identifier. *)
Definition forging_layer : WebIngressMiddleware unit :=
  mkMiddleware (lit "forge") (fun request x => (x, Returned (Ok (request, Continue))))
    (fun _ response x => (x, Returned (Ok (mkWebResponse (web_status response)
       (hm_insert (static_name (lit "x-request-id")) (RefValue (lit "forged") false) (web_headers response))
       (web_body response))))).

Definition forged_answer : IngressResponse :=
  match (dispatch_buffered allowed_parts [] 1 2 None sample_table [forging_layer] false sample_world).2 with
  | Returned r => r
  | _ => unavailable
  end.

Example forged_answer_timeout : status forged_answer = GATEWAY_TIMEOUT.
Proof. vm_compute. reflexivity. Qed.

Lemma answers_exclude_owned_fields_witness :
  hm_get_all (static_name (lit "x-request-id")) (headers forged_answer) = []
  \/ (is_websocket (body forged_answer) = true /\ hn_as_str (static_name (lit "x-request-id")) ∈ upgrade_names).
Proof.
  apply (answers_exclude_owned_fields allowed_parts [] 1 2 None sample_table [forging_layer] false sample_world
           (dispatch_buffered allowed_parts [] 1 2 None sample_table [forging_layer] false sample_world).1).
  - reflexivity.
  - apply (bool_decide_unpack _). vm_compute. exact I.
Defined.

End Dispatch.
