(* ===== verification/Server.v ===== *)
(** * The socket transport ([lenso-web-ingress-plugin/src/server.rs] and [acquire_request_permit])

    Bounded body collection, idle tracking, connection admission and the service that turns a [hyper]
    request into a response. What the sockets deliver and who wins a race ([tokio::select!], timeouts,
    semaphore queues) are arguments of the definitions. *)
From S2P Require Import Prelude RustStd HttpCrate RefHttp Kernel Config SessionCookie.
From S2P Require Import WebSocket ResponseStream Handshake Request Response Middleware Manifest Routing Dispatch.

Module Body.

Inductive BodyReadError := TooLarge | Invalid.
#[global] Instance BodyReadError_eq_dec : EqDecision BodyReadError.
Proof. solve_decision. Defined.

(** What [body.frame().await] yields: data, a frame that is not data, or an error. *)
Inductive BodyEvent := Data (bytes : str) | Trailers | ReadError.

(** [BytesMut] with the capacity it was requested with. *)
Record Buffer := mkBuffer { bytes : str; capacity : Z }.

Record Collector := mkCollector { first : option str; combined : option Buffer; total : Z }.

Definition collect_event (content_length : option Z) (limit : Z) (c : Collector) (event : BodyEvent) :
    Result BodyReadError Collector :=
  match event with
  | ReadError => Err Invalid
  | Trailers => Ok c
  | Data data =>
      let! total := checked_add (total c) (len data) else Err TooLarge in
      if (limit <? total)%Z then Err TooLarge else
      if is_empty data then Ok (mkCollector (first c) (combined c) total) else
      match combined c with
      | Some buffer => Ok (mkCollector (first c) (Some (mkBuffer (bytes buffer ++ data) (capacity buffer))) total)
      | None =>
          match first c with
          | Some initial =>
              let capacity := Z.max (Z.min (default total content_length) limit) total in
              Ok (mkCollector None (Some (mkBuffer (initial ++ data) capacity)) total)
          | None => Ok (mkCollector (Some data) None total)
          end
      end
  end.

Definition collect_bounded_body (events : list BodyEvent) (content_length : option Z) (limit : Z) :
    Result BodyReadError str :=
  let? c := try_fold (collect_event content_length limit) (mkCollector None None 0) events in
  Ok (match combined c, first c with
      | Some buffer, _ => bytes buffer
      | None, Some data => data
      | None, None => []
      end).

(** ** Specification *)

Definition data_of (events : list BodyEvent) : str :=
  concat ((fun e => match e with Data b => b | _ => [] end) <$> events).

(** Reading stops at the first error, or as soon as more than [limit] bytes have arrived. *)
Inductive Collects (limit : Z) (events : list BodyEvent) : Result BodyReadError str -> Prop :=
| collects_all : ReadError ∉ events -> (len (data_of events) <= limit)%Z -> Collects limit events (Ok (data_of events))
| collects_invalid before after : events = before ++ ReadError :: after -> ReadError ∉ before ->
    (len (data_of before) <= limit)%Z -> Collects limit events (Err Invalid)
| collects_large before after : events = before ++ after -> ReadError ∉ before ->
    (limit < len (data_of before))%Z -> Collects limit events (Err TooLarge).

Record Inv (limit : Z) (events : list BodyEvent) (c : Collector) : Prop := {
  col_total : total c = len (data_of events);
  col_limit : (total c <= limit)%Z;
  col_no_error : ReadError ∉ events;
  col_data : match combined c, first c with
             | Some buffer, _ => bytes buffer = data_of events
             | None, Some data => data = data_of events
             | None, None => data_of events = []
             end;
  col_capacity : forall b, combined c = Some b -> (capacity b <= Z.max limit 0)%Z;
}.

Lemma data_of_app es fs : data_of (es ++ fs) = data_of es ++ data_of fs.
Proof. unfold data_of. by rewrite fmap_app, concat_app. Qed.

Lemma collect_event_inv cl limit events c e c' : Inv limit events c ->
  collect_event cl limit c e = Ok c' -> Inv limit (events ++ [e]) c'.
Proof.
  intros [Ht Hl He Hd Hc] Hx. destruct e as [data| |]; cbn in Hx; [| injection Hx as <- | done].
  2: { split; rewrite ?data_of_app; cbn; rewrite ?app_nil_r; try done. rewrite elem_of_app. set_solver. }
  destruct (checked_add (total c) (len data)) as [t|] eqn:Ec; [|done]. apply checked_add_Some in Ec as [-> Hmax].
  destruct (Z.ltb_spec limit (total c + len data)); [done|].
  assert (Hds : data_of (events ++ [Data data]) = data_of events ++ data) by (rewrite data_of_app; cbn; by rewrite app_nil_r).
  assert (Hne : ReadError ∉ events ++ [Data data]) by (rewrite elem_of_app; set_solver).
  destruct data as [|x data]; cbn [is_empty] in Hx.
  { injection Hx as <-. change (len (@nil ascii)) with 0%Z in *. split; rewrite ?Hds, ?app_nil_r; cbn; try done; lia. }
  destruct (combined c) as [b|] eqn:Eb.
  - injection Hx as <-. split; rewrite ?Hds; cbn [total combined first bytes]; try done.
    + rewrite len_app. lia.
    + by rewrite Hd.
    + intros b' [= <-]. cbn. by apply Hc.
  - destruct (first c) as [i|] eqn:Ef; injection Hx as <-; (split; rewrite ?Hds; cbn [total combined first bytes]; try done).
    + rewrite len_app. lia.
    + by rewrite Hd.
    + intros b' [= <-]. cbn. lia.
    + rewrite len_app. lia.
    + by rewrite Hd.
Qed.

Lemma collect_event_err cl limit events c e err : Inv limit events c -> (limit <= usize_max)%Z ->
  collect_event cl limit c e = Err err ->
  match err with
  | Invalid => e = ReadError
  | TooLarge => e <> ReadError /\ (limit < len (data_of (events ++ [e])))%Z
  end.
Proof.
  intros [Ht Hl He Hd Hc] Hmax Hx. destruct e as [data| |]; cbn in Hx; [|done|by injection Hx as <-].
  assert (Hds : len (data_of (events ++ [Data data])) = (total c + len data)%Z).
  { rewrite data_of_app, len_app, Ht. cbn. by rewrite app_nil_r. }
  destruct (checked_add (total c) (len data)) as [t|] eqn:Ec.
  - apply checked_add_Some in Ec as [-> _]. destruct (Z.ltb_spec limit (total c + len data)).
    + injection Hx as <-. split; [done | lia].
    + repeat case_match; done.
  - injection Hx as <-. split; [done|]. rewrite Hds. unfold checked_add in Ec.
    destruct (Z.leb_spec (total c + len data) usize_max); [done | lia].
Qed.

Lemma collect_run cl limit events done_events c : (limit <= usize_max)%Z -> Inv limit done_events c ->
  match try_fold (collect_event cl limit) c events with
  | Ok c' => Inv limit (done_events ++ events) c'
  | Err Invalid => exists before after, events = before ++ ReadError :: after
      /\ ReadError ∉ done_events ++ before /\ (len (data_of (done_events ++ before)) <= limit)%Z
  | Err TooLarge => exists before after, events = before ++ after
      /\ ReadError ∉ done_events ++ before /\ (limit < len (data_of (done_events ++ before)))%Z
  end.
Proof.
  intros Hmax. revert done_events c; induction events as [|e events IH]; intros d c HI; cbn [try_fold].
  - by rewrite app_nil_r.
  - destruct (collect_event cl limit c e) as [c'|err] eqn:Ee.
    + specialize (IH _ _ (collect_event_inv _ _ _ _ _ _ HI Ee)).
      rewrite <- app_assoc in IH. cbn in IH.
      destruct (try_fold _ c' events) as [c2|[|]]; [done| |];
        destruct IH as (before & after & -> & H1 & H2); exists (e :: before), after;
        rewrite <- app_assoc in H1, H2; done.
    + pose proof (collect_event_err _ _ _ _ _ _ HI Hmax Ee) as Herr.
      destruct HI as [Ht Hl He Hd Hc]. destruct err.
      * destruct Herr as [Hne Hlt]. exists [e], events. split; [done|]. split; [|done].
        rewrite elem_of_app. intros [?|Hin]; [done|]. apply list_elem_of_singleton in Hin. congruence.
      * subst e. exists [], events. rewrite app_nil_r. split; [done|]. split; [done|]. lia.
Qed.

(** A body of which more than [limit] bytes arrive before any error can only be too large. *)
Lemma collects_large_only limit events r : Collects limit events (Err TooLarge) -> Collects limit events r ->
  r = Err TooLarge.
Proof.
  intros Hl Hr. inversion Hl as [| | before after -> Hne Hlen]; subst.
  inversion Hr as [Hn Hle | before' after' E Hn Hle | ]; subst; [| |done]; exfalso.
  - rewrite data_of_app, len_app in Hle. unfold len in *. lia.
  - assert (exists l, before' = before ++ l) as [l ->].
    { clear -E Hne. revert before' E; induction before as [|e before IH]; intros before' E; [by exists before'|].
      destruct before' as [|e' before']; cbn in E; injection E as -> E; [set_solver|].
      destruct (IH ltac:(set_solver) _ E) as [l ->]. by exists l. }
    rewrite data_of_app, len_app in Hle. unfold len in *. lia.
Qed.

Lemma collect_bounded_body_collects events content_length limit : (0 <= limit <= usize_max)%Z ->
  Collects limit events (collect_bounded_body events content_length limit).
Proof.
  intros Hl. assert (HI : Inv limit [] (mkCollector None None 0)) by (split; try done; cbn; [lia | set_solver]).
  pose proof (collect_run content_length limit events [] _ (proj2 Hl) HI) as HR. cbn [app] in HR.
  unfold collect_bounded_body. destruct (try_fold _ _ events) as [c|err].
  - destruct HR as [Ht Hlim He Hd Hc].
    assert (E : match combined c, first c with
                | Some buffer, _ => bytes buffer | None, Some data => data | None, None => [] end = data_of events).
    { destruct (combined c), (first c); done. }
    rewrite E. constructor; [done | lia].
  - destruct err; destruct HR as (before & after & -> & ? & ?); [by econstructor 3 | by econstructor 2].
Qed.

(** Collecting a body is exactly bounded concatenation: the result is all the data bytes when the body
    ends without error within the limit, and otherwise reports the first of the two events "a read error" and
    "more than [limit] bytes"; in particular no more than [limit] bytes are ever kept, whatever lengths the
    client announces. *)
Lemma collect_bounded_body_exact events content_length limit :
  (0 <= limit <= usize_max)%Z ->
  Collects limit events (collect_bounded_body events content_length limit)
  /\ forall c, try_fold (collect_event content_length limit) (mkCollector None None 0) events = Ok c ->
       (total c <= limit)%Z /\ forall b, combined c = Some b -> (capacity b <= limit)%Z.
Proof.
  intros Hl. split; [by apply collect_bounded_body_collects|]. intros c Hc.
  assert (HI : Inv limit [] (mkCollector None None 0)) by (split; try done; cbn; [lia | set_solver]).
  pose proof (collect_run content_length limit events [] _ (proj2 Hl) HI) as HR. rewrite Hc in HR.
  destruct HR as [_ Hlim _ _ Hcap]. split; [lia|]. intros b Hb. specialize (Hcap b Hb). lia.
Qed.

Example collect_sample :
  collect_bounded_body [Data (lit "ab"); Trailers; Data []; Data (lit "cd")] (Some 99%Z) 4 = Ok (lit "abcd").
Proof. vm_compute. reflexivity. Qed.

End Body.

Module Activity.

(** [ConnectionActivityState]; instants are numbers. *)
Record ConnectionActivity := mkActivity { active_requests : Z; idle_since : Z }.

Definition new (now : Z) : ConnectionActivity := mkActivity 0 now.

Definition begin (self : ConnectionActivity) : ConnectionActivity :=
  mkActivity (saturating_add (active_requests self) 1) (idle_since self).

(** [impl Drop for ActiveRequest]. *)
Definition drop_request (self : ConnectionActivity) (now : Z) : ConnectionActivity :=
  let remaining := saturating_sub (active_requests self) 1 in
  mkActivity remaining (if (remaining =? 0)%Z then now else idle_since self).

(** One iteration of [wait_for_connection_idle]: the state and time when it starts to sleep, and when the
    sleep ends. *)
Record Wake := mkWake { slept_on : ConnectionActivity; started : Z; woke_on : ConnectionActivity; woke : Z }.

Definition deadline (a : ConnectionActivity) (now timeout : Z) : Z :=
  if (active_requests a =? 0)%Z then (idle_since a + timeout)%Z else (now + timeout)%Z.

(** [Instant::duration_since] saturates at zero. *)
Definition idle (a : ConnectionActivity) (now timeout : Z) : bool :=
  ((active_requests a =? 0) && (timeout <=? Z.max (now - idle_since a) 0))%Z.

(** The time the wait returns at; [None] while it is still waiting. *)
Fixpoint wait_for_connection_idle (timeout : Z) (wakes : list Wake) : option Z :=
  match wakes with
  | [] => None
  | k :: wakes =>
      if (woke k <? deadline (slept_on k) (started k) timeout)%Z then None
      else if idle (woke_on k) (woke k) timeout then Some (woke k)
      else wait_for_connection_idle timeout wakes
  end.

(** ** The requests of one connection *)

Inductive Event := Begin (at_time : Z) | End (at_time : Z).
Definition time (e : Event) : Z := match e with Begin t | End t => t end.

Definition step (a : ConnectionActivity) (e : Event) : ConnectionActivity :=
  match e with Begin _ => begin a | End t => drop_request a t end.

(** Requests in flight after the events. *)
Definition in_flight (es : list Event) : Z :=
  foldr (fun e n => match e with Begin _ => n + 1 | End _ => n - 1 end)%Z 0%Z es.

(** A history the runtime can produce: a guard is dropped after it was created, time does not go back, and
    there are fewer than 2^64 requests at once. *)
Inductive History (t0 : Z) : list Event -> Prop :=
| history_nil : History t0 []
| history_begin es t : History t0 es -> (in_flight es < usize_max)%Z ->
    (forall e, e ∈ es -> time e <= t)%Z -> (t0 <= t)%Z -> History t0 (es ++ [Begin t])
| history_end es t : History t0 es -> (0 < in_flight es)%Z ->
    (forall e, e ∈ es -> time e <= t)%Z -> (t0 <= t)%Z -> History t0 (es ++ [End t]).

Lemma in_flight_snoc es e : in_flight (es ++ [e]) = (in_flight es + match e with Begin _ => 1 | End _ => -1 end)%Z.
Proof. unfold in_flight. induction es as [|x es IH]; cbn; [by destruct e|]. rewrite IH. destruct x, e; lia. Qed.

Lemma history_state t0 es : History t0 es ->
  let a := foldl step (new t0) es in
  active_requests a = in_flight es /\ (0 <= in_flight es <= usize_max)%Z
  /\ (in_flight es = 0 -> idle_since a >= t0 /\ forall e, e ∈ es -> time e <= idle_since a)%Z.
Proof.
  induction 1 as [|es t HH IH Hlt Ht Ht0|es t HH IH Hlt Ht Ht0]; cbn zeta in *.
  - cbn. split; [done|]. split; [unfold usize_max; lia|]. intros _. split; [lia | set_solver].
  - destruct IH as (Ha & Hr & _). rewrite foldl_snoc, in_flight_snoc. cbn [step]. unfold begin, saturating_add.
    cbn. rewrite Ha. split; [lia|]. split; lia.
  - destruct IH as (Ha & Hr & _). rewrite foldl_snoc, in_flight_snoc. cbn [step]. unfold drop_request, saturating_sub.
    cbn. rewrite Ha. split; [lia|]. split; [lia|]. intros Hz.
    replace (Z.max (in_flight es - 1) 0 =? 0)%Z with true by (symmetry; apply Z.eqb_eq; lia).
    split; [lia|]. intros e He. apply elem_of_app in He as [He|He]; [by apply Ht|].
    apply list_elem_of_singleton in He as ->. cbn. lia.
Qed.

Lemma wait_returns timeout wakes now : wait_for_connection_idle timeout wakes = Some now ->
  exists k, k ∈ wakes /\ woke k = now /\ idle (woke_on k) now timeout = true.
Proof.
  induction wakes as [|k wakes IH]; intros Hw; cbn in Hw; [done|].
  destruct (woke k <? _)%Z; [done|]. destruct (idle (woke_on k) (woke k) timeout) eqn:Ei.
  - injection Hw as <-. exists k. split; [by left|]. done.
  - destruct (IH Hw) as (k' & Hin & Hk). exists k'. split; [by right|]. done.
Qed.

(** A connection is closed as idle only if it is: let [past k] be what happened on the connection before
    the waiter's wake-up [k]; when the waiter returns, it does so at a wake-up at which no request is in
    flight and none has started or ended during the whole idle timeout before. *)
Lemma idle_close_sound t0 timeout wakes now (past : Wake -> list Event) :
  (0 < timeout)%Z ->
  (forall k, k ∈ wakes -> History t0 (past k) /\ woke_on k = foldl step (new t0) (past k)) ->
  wait_for_connection_idle timeout wakes = Some now ->
  exists k, k ∈ wakes /\ woke k = now /\ in_flight (past k) = 0%Z
    /\ forall e, e ∈ past k -> (time e <= now - timeout)%Z.
Proof.
  intros Ht Hp Hw. apply wait_returns in Hw as (k & Hin & <- & Hi). exists k. do 2 (split; [done|]).
  destruct (Hp k Hin) as [HH Hs]. rewrite Hs in Hi. unfold idle in Hi. bool_prop.
  destruct (history_state t0 (past k) HH) as (Ha & _ & Hidle). rewrite Ha in *. split; [done|].
  intros e He. destruct (Hidle ltac:(done)) as [_ Hle]. specialize (Hle e He). lia.
Qed.

End Activity.

(** The accept loop of [serve]. *)
Module Admission.

Inductive Phase :=
| Serving
| Draining (result : Result str unit)   (* shutdown announced; waiting for the connections *)
| Finished (result : Result str unit).

(** [available] permits of the connection semaphore, [live] connection tasks. *)
Record ServeState := mkServe { available : Z; live : Z; phase : Phase }.

(** What the loop's [select!] can see. *)
Inductive ServeEvent :=
| AppCancelled
| Accepted                       (* a connection without a permit *)
| AcceptedWithPermit             (* a distributed connection *)
| SourceClosed
| SourceFailed (error : str)
| ConnectionDone
| ConnectionPanicked (error : str).

Definition task_failed (error : str) : str := lit "Web Ingress connection task failed: " ++ error.

(** A finished task drops its permit. *)
Definition connection_ends (s : ServeState) : ServeState := mkServe (available s + 1) (live s - 1) (phase s).

Definition serve_step (s : ServeState) (e : ServeEvent) : ServeState :=
  match phase s with
  | Serving =>
      match e with
      | AppCancelled | SourceClosed => mkServe (available s) (live s) (Draining (Ok ()))
      | SourceFailed error => mkServe (available s) (live s) (Draining (Err error))
      | Accepted => if (0 <? available s)%Z then mkServe (available s - 1) (live s + 1) Serving
                    else s (* [try_acquire_owned] failed: the connection is dropped *)
      | AcceptedWithPermit => mkServe (available s) (live s + 1) Serving
      | ConnectionDone => connection_ends s
      | ConnectionPanicked error =>
          let s := connection_ends s in mkServe (available s) (live s) (Finished (Err (task_failed error)))
      end
  | Draining result =>
      (* [while connections.next().await.is_some() {}] *)
      match e with
      | ConnectionDone | ConnectionPanicked _ => connection_ends s
      | _ => s
      end
  | Finished _ =>
      (* a task that is still running when the loop has returned gives its permit back all the same *)
      match e with
      | ConnectionDone | ConnectionPanicked _ => connection_ends s
      | _ => s
      end
  end.

(** The loops end when no connection is left. *)
Definition settle (s : ServeState) : ServeState :=
  match phase s with
  | Draining result => if (live s =? 0)%Z then mkServe (available s) (live s) (Finished result) else s
  | _ => s
  end.

Definition serve_from (s : ServeState) (events : list ServeEvent) : ServeState :=
  foldl (fun s e => settle (serve_step s e)) (settle s) events.

(** Events a listener can lead to: a task ends only if one is alive, and connections come without a permit
    (those that come with one are distributed by the coordinator, which took it). *)
Definition possible (s : ServeState) (e : ServeEvent) : Prop :=
  match e with
  | ConnectionDone | ConnectionPanicked _ => (0 < live s)%Z
  | AcceptedWithPermit => False
  | _ => True
  end.

Inductive Serves (limit : Z) : list ServeEvent -> ServeState -> Prop :=
| serves_init : Serves limit [] (mkServe limit 0 Serving)
| serves_step es s e : Serves limit es s -> possible s e -> Serves limit (es ++ [e]) (settle (serve_step s e)).

Record Inv (limit : Z) (s : ServeState) : Prop := {
  srv_conserved : (available s + live s = limit)%Z;
  srv_live : (0 <= live s)%Z;
  srv_available : (0 <= available s)%Z;
  srv_finished : phase s = Finished (Ok ()) -> live s = 0%Z;
}.

Lemma serve_step_inv limit s e : Inv limit s -> possible s e -> Inv limit (settle (serve_step s e)).
Proof.
  intros [Hc Hl Ha Hf] Hp. destruct s as [a l ph]. unfold serve_step, settle, connection_ends; cbn in *.
  destruct ph as [|r|r]; destruct e as [| | | |err| |err]; cbn in *; try done;
    repeat match goal with
      | |- context [(0 <? ?x)%Z] => destruct (Z.ltb_spec 0 x); cbn
      | |- context [(?x =? 0)%Z] => destruct (Z.eqb_spec x 0); cbn
      end; split; cbn; try lia; try done; try (intros [= ]; lia); try (intros E; specialize (Hf E); lia); auto.
Qed.

(** The event of a connection that ends. *)
Definition Ends (e : ServeEvent) : Prop := e = ConnectionDone \/ exists error, e = ConnectionPanicked error.

(** After shutdown begins the loop terminates: as soon as each of the connections alive at that moment has
    finished, it has returned the result that started the shutdown. *)
Lemma admission_drains s result es :
  phase s = Draining result -> (0 <= live s)%Z ->
  Forall Ends es ->
  Z.of_nat (length es) = live s ->
  phase (serve_from s es) = Finished result /\ live (serve_from s es) = 0%Z.
Proof.
  unfold serve_from. revert s; induction es as [|e es IH]; intros s Hp Hl Hf Hn.
  - cbn in *. unfold settle. rewrite Hp, <- Hn. done.
  - apply Forall_cons in Hf as [He Hf]. cbn [length] in Hn. destruct s as [a l ph]; cbn in *. subst ph.
    assert (Hset : settle (mkServe a l (Draining result)) = mkServe a l (Draining result)).
    { unfold settle; cbn. destruct (Z.eqb_spec l 0); [lia | done]. }
    rewrite Hset. destruct (IH (mkServe (a + 1) (l - 1) (Draining result))) as [H1 H2]; [done | cbn; lia | done | cbn; lia|].
    assert (Hstep : serve_step (mkServe a l (Draining result)) e = mkServe (a + 1) (l - 1) (Draining result)).
    { destruct He as [->|[err ->]]; done. }
    by rewrite Hstep.
Qed.

(** The accept loop never serves more than [limit] connections at a time, whatever arrives and however
    the tasks end: every permit is either available or held by one live connection. Once shutdown has begun no
    connection is admitted any more, the loop returns successfully only when the last one has finished, and it does
    return the result that started the shutdown as soon as each connection alive at that moment has ended. *)
Lemma admission_bounded limit es s :
  (0 <= limit)%Z -> Serves limit es s ->
  (available s + live s = limit)%Z /\ (0 <= live s <= limit)%Z
  /\ (phase s = Finished (Ok ()) -> live s = 0%Z)
  /\ (forall e, phase s <> Serving -> (live (serve_step s e) <= live s)%Z)
  /\ (forall result ends, phase s = Draining result -> Forall Ends ends -> Z.of_nat (length ends) = live s ->
        phase (serve_from s ends) = Finished result /\ live (serve_from s ends) = 0%Z).
Proof.
  intros Hl HS. assert (HI : Inv limit s).
  { induction HS; [split; cbn; try lia; done | by apply serve_step_inv]. }
  destruct HI as [Hc H1 H2 H3]. split; [done|]. split; [lia|]. split; [done|]. split.
  - intros e Hp. destruct s as [a l [|r|r]]; [done| |]; destruct e; cbn; lia.
  - intros result ends Hp Hf Hn. by apply admission_drains; [| lia | |].
Qed.

End Admission.

(** [IngressService]. *)
Module Service.
Import Config SessionCookie Request Response Middleware Routing Dispatch.

(** [acquire_request_permit]: [waited] says how a wait ends ([None]: not yet). *)
Definition acquire_request_permit (available : Z) (is_cancelled : bool) (waited : option bool) : Z * Outcome bool :=
  if is_cancelled then (available, Returned false) else
  if (0 <? available)%Z then ((available - 1)%Z, Returned true) else
  match waited with
  | Some acquired => (available, Returned acquired)
  | None => (available, Waiting)
  end.

Inductive BodyRace := BodyFinished | BodyTimedOut | BodyCancelled.

Inductive ResponseBody :=
| BufferedBody (bytes : str)
| StreamedBody (body : ResponseStream.StreamingBody).

Section service.
Context `{HttpCrate} `{Matchit} `{Digests} {X : Type}.

(** [Response<ResponseBody>]. *)
Record TransportResponse := mkTransport { t_status : Z; t_headers : HeaderMap; t_body : ResponseBody }.

Definition into_response (self : IngressResponse) : TransportResponse * list Effect :=
  match body self with
  | Buffered bytes => (mkTransport (status self) (headers self) (BufferedBody bytes), [])
  | WebSocketBody upgrade => (mkTransport (status self) (headers self) (BufferedBody []), discard_upgrade upgrade)
  | Streaming stream =>
      (mkTransport (status self) (headers self) (StreamedBody (ResponseStream.new_body stream)), [])
  end.

(** What does not change between requests. *)
Record IngressService := mkService {
  config : WebIngressConfig;
  session_policy : option SessionCookiePolicy;
  routes : RouteTable X;
  middleware : list (WebIngressMiddleware X);
}.

(** The shared counters: identifiers and the two request semaphores. *)
Record Shared := mkShared { ids : RequestIdSequence; local : option Z; global : Z }.

(** One request, and how its races end. *)
Record Call := mkCall {
  c_parts : Parts;
  c_events : list Body.BodyEvent;
  c_end_of_stream : bool;
  c_body_race : BodyRace;
  c_cancelled_local : bool;
  c_local_wait : option bool;
  c_cancelled_global : bool;
  c_global_wait : option bool;
  c_cancel_first : bool;
  c_cancellation : Z;
  c_disconnected : Z;
}.

Definition content_length (headers : HeaderMap) : option Z :=
  v ← hm_get CONTENT_LENGTH headers; s ← hv_to_str v; parse_unsigned usize_max s.

(** [IngressService::dispatch]. *)
Definition dispatch (self : IngressService) (c : Call) (parts : Parts) (w : World X) : World X * Outcome IngressResponse :=
  let announced := content_length (part_headers parts) in
  let limit := max_request_body_bytes (config self) in
  if match announced with Some length => (limit <? length)%Z | None => false end
  then (w, Returned payload_too_large) else
  let read :=
    if c_end_of_stream c then Ok (Ok [])
    else match c_body_race c with
         | BodyFinished => Ok (Body.collect_bounded_body (c_events c) announced limit)
         | BodyTimedOut => Err request_timeout
         | BodyCancelled => Err unavailable
         end in
  match read with
  | Err answer => (w, Returned answer)
  | Ok (Err Body.TooLarge) => (w, Returned payload_too_large)
  | Ok (Err Body.Invalid) => (w, Returned bad_request)
  | Ok (Ok bytes) =>
      dispatch_buffered parts bytes (c_cancellation c) (c_disconnected c) (session_policy self) (routes self)
        (middleware self) (c_cancel_first c) w
  end.

(** The response is finished by every path of [call]. *)
Definition finish_call (response : IngressResponse) (method : Method) (request_id : HeaderValue) (w : World X) :
    World X * TransportResponse :=
  let '(response, es) := normalize_body response method in
  let '(t, es') := into_response response in
  (emit (es ++ es') w, mkTransport (t_status t) (with_transport_headers (t_headers t) request_id) (t_body t)).

(** The handover of an accepted WebSocket session to its socket task. *)
Definition upgrade_socket (self : IngressService) (upgrading : bool) (response : IngressResponse) :
    IngressResponse * option WebSocket.WebSocketSession * list Effect :=
  match body response with
  | WebSocketBody upgrade =>
      if upgrading && match websocket (config self) with Some _ => true | None => false end
      then (mkResponse (status response) (headers response) (Buffered []), Some (WebSocket.session upgrade), [])
      else (unavailable, None, discard_upgrade upgrade)
  | _ => (response, None, [])
  end.

(** The end of [call], after the answer is known. *)
Definition finish_request (self : IngressService) (upgrading : bool) (method : Method) (request_id : HeaderValue)
    (response : IngressResponse) (st : Shared) (w : World X) :
    Shared * World X * Outcome (TransportResponse * option WebSocket.WebSocketSession) :=
  let '(response, session, es) := upgrade_socket self upgrading response in
  let '(w, t) := finish_call response method request_id (emit es w) in
  (st, w, Returned (t, session)).

(** [IngressService::call]: the new counters, the session for the socket task, and the response. Permits are
    guards: they are returned when the block that holds them ends. *)
Definition call (self : IngressService) (c : Call) (st : Shared) (w : World X) :
    Shared * World X * Outcome (TransportResponse * option WebSocket.WebSocketSession) :=
  let method := part_method (c_parts c) in
  let upgrading := hm_contains_key UPGRADE (part_headers (c_parts c)) in
  let hs := mark_sensitive_headers (part_headers (c_parts c)) (session_policy self) in
  let head_len := canonical_request_head_len
    (mkRequest method (part_uri (c_parts c)) (part_version (c_parts c)) hs []) in
  match replace_request_id hs (ids st) with
  | Panicked => (st, w, Panicked)
  | Waiting => (st, w, Waiting)
  | Returned (request_id, hs, ids) =>
  let parts := mkParts method (part_uri (c_parts c)) (part_version (c_parts c)) hs in
  let finish := finish_request self upgrading method request_id in
  let st := mkShared ids (local st) (global st) in
  if (max_request_head_bytes (config self) <? head_len)%Z
  then finish (json REQUEST_HEADER_FIELDS_TOO_LARGE (error_json "request_header_fields_too_large")) st w else
  let '(local', local_permit) :=
    match local st with
    | Some available =>
        let '(available, r) := acquire_request_permit available (c_cancelled_local c) (c_local_wait c) in
        (Some available, r)
    | None => (None, Returned true)
    end in
  let held := match local st with Some _ => [PermitAcquired] | None => [] end in
  let returned := match local st with Some _ => [PermitReleased] | None => [] end in
  let st := mkShared ids local' (global st) in
  let release_local (st : Shared) := mkShared ids ((fun n => n + 1)%Z <$> local st) (global st) in
  match local_permit with
  | Panicked => (st, w, Panicked)
  | Waiting => (st, w, Waiting)
  | Returned false =>
      (* the early [return] does not go through [normalize_body] *)
      let '(t, es) := into_response unavailable in
      (st, emit es w,
       Returned (mkTransport (t_status t) (with_transport_headers (t_headers t) request_id) (t_body t), None))
  | Returned true =>
      let w := emit held w in
      let '(global', global_permit) := acquire_request_permit (global st) (c_cancelled_global c) (c_global_wait c) in
      let st := mkShared ids local' global' in
      match global_permit with
      | Panicked => (st, w, Panicked)
      | Waiting => (st, w, Waiting)
      | Returned false => finish unavailable (release_local st) (emit returned w)
      | Returned true =>
          match dispatch self c parts (emit [PermitAcquired] w) with
          | (w, Waiting) => (st, w, Waiting)
          | (w, Panicked) => (* unwinding drops the guards *)
              (release_local (mkShared ids local' (global' + 1)%Z), emit (PermitReleased :: returned) w, Panicked)
          | (w, Returned response) =>
              let st := release_local (mkShared ids local' (global' + 1)%Z) in
              finish response st (emit (PermitReleased :: returned) w)
          end
      end
  end end.

(** [configure_protocol_limits]: the HTTP/1 head timeout and the HTTP/2 [SETTINGS] value. *)
Definition configure_protocol_limits (config : WebIngressConfig) : Outcome (Duration * Z) :=
  let^ streams := expect (try_from_range u32_max (max_concurrent_requests config)) in
  Returned (request_head_timeout config, streams).

Context `{!HttpLaws} `{!MatchitLaws} `{!DigestLaws}.

(** A semaphore after a request: as before, or one more if the permit was handed over by another request. *)
Definition Restored (before : Z) (waited : option bool) (after : Z) : Prop :=
  after = before \/ ((before <= 0)%Z /\ waited = Some true /\ after = (before + 1)%Z).

(** The same for a semaphore that may not be there. *)
Definition RestoredOpt (before : option Z) (waited : option bool) (after : option Z) : Prop :=
  match before, after with
  | Some before, Some after => Restored before waited after
  | None, None => True
  | _, _ => False
  end.

Lemma restored_refl b waited : RestoredOpt b waited b.
Proof. destruct b; [by left | done]. Qed.

(** What every response of the transport carries. *)
Definition Stamped (id : Z) (headers : HeaderMap) : Prop :=
  hm_get_all NOSNIFF_HEADER headers = [hv_from_static (lit "nosniff")]
  /\ exists hv, hm_get_all REQUEST_ID_HEADER headers = [hv] /\ hv_as_bytes hv = id_prefix ++ show_Z id.

Lemma replace_request_id_spec hs seq : (0 <= id_value seq <= u64_max)%Z ->
  exists hv, replace_request_id hs seq = Returned (hv, hm_insert REQUEST_ID_HEADER hv hs, (next seq).2)
    /\ hv_as_bytes hv = id_prefix ++ show_Z (id_value seq).
Proof.
  intros Hi. destruct (request_id_header_value_spec _ Hi) as (hv & Hv & Hb & _). exists hv. split; [|done].
  unfold replace_request_id. destruct seq as [v|v]; cbn in *; by rewrite Hv.
Qed.

Lemma stamped hs hv id : hv_as_bytes hv = id_prefix ++ show_Z id -> Stamped id (with_transport_headers hs hv).
Proof.
  intros Hb. unfold Stamped. rewrite !transport_headers_get, decide_True by done. split; [done|].
  exists hv. split; [|done]. rewrite decide_False by (unfold REQUEST_ID_HEADER, NOSNIFF_HEADER; name_ne). by rewrite decide_True.
Qed.

Lemma finish_call_stamped response m hv id (w : World X) : hv_as_bytes hv = id_prefix ++ show_Z id ->
  Stamped id (t_headers (finish_call response m hv w).2).
Proof.
  intros Hb. unfold finish_call. destruct (normalize_body response m) as [r es].
  destruct (into_response r) as [t es']. by apply stamped.
Qed.

Lemma acquire_spec available cancelled waited available' r :
  acquire_request_permit available cancelled waited = (available', r) ->
  r <> Panicked /\ match r with
  | Returned true => Restored available waited (available' + 1)
  | _ => available' = available
  end.
Proof.
  unfold acquire_request_permit, Restored. intros Ha. destruct cancelled; [by injection Ha as <- <-|].
  destruct (Z.ltb_spec 0 available); [injection Ha as <- <-; split; [done | left; lia]|].
  destruct waited as [[]|]; injection Ha as <- <-; (split; [done|]); auto.
Qed.

Lemma service_dispatch_panics self c parts w : (dispatch self c parts w).2 = Panicked ->
  uri_path (part_uri parts) = [] /\ part_method parts <> CONNECT.
Proof.
  unfold dispatch. destruct (match content_length _ with Some _ => _ | None => _ end); [done|].
  destruct (if c_end_of_stream c then _ else _) as [[bytes|[]]|answer]; try done. by apply dispatch_buffered_panics.
Qed.

Lemma finish_stamped self upgrading m hv id response st (w : World X) :
  hv_as_bytes hv = id_prefix ++ show_Z id ->
  exists t session w', finish_request self upgrading m hv response st w = (st, w', Returned (t, session)) /\ Stamped id (t_headers t).
Proof.
  intros Hb. unfold finish_request. destruct (upgrade_socket self upgrading response) as [[r s] es].
  pose proof (finish_call_stamped r m hv id (emit es w) Hb) as Hs. destruct (finish_call _ _ _ _) as [w' t]. by eauto 6.
Qed.

(** C10: every response of the service, early rejections included, carries exactly one request identifier (the counter's value) and
    one [nosniff] directive. Serving a request panics only when its target has no path and it is not a [CONNECT]: a target in
    authority form. However serving ends, in a response or in that panic, the counter has advanced by one, and both request
    semaphores are back where they were (or one permit up when the permit had been handed over by a finishing request), so no path
    leaks a permit. *)
Theorem call_stamped self c st w :
  (0 <= id_value (ids st) <= u64_max)%Z ->
  let '(st', _, r) := call self c st w in
  match r with
  | Returned (t, _) => Stamped (id_value (ids st)) (t_headers t)
  | Panicked => uri_path (part_uri (c_parts c)) = [] /\ part_method (c_parts c) <> CONNECT
  | Waiting => True
  end
  /\ (r <> Waiting -> ids st' = (next (ids st)).2 /\ Restored (global st) (c_global_wait c) (global st')
                      /\ RestoredOpt (local st) (c_local_wait c) (local st')).
Proof.
  intros Hid. unfold call.
  destruct (replace_request_id_spec (mark_sensitive_headers (part_headers (c_parts c)) (session_policy self))
              (ids st) Hid) as (hv & -> & Hb).
  set (finish := finish_request _ _ _ _).
  assert (Hfin : forall response st' w', exists t s w'', finish response st' w' = (st', w'', Returned (t, s))
            /\ Stamped (id_value (ids st)) (t_headers t)) by (intros; by apply finish_stamped).
  destruct (_ <? _)%Z.
  { destruct (Hfin (json REQUEST_HEADER_FIELDS_TOO_LARGE (error_json "request_header_fields_too_large"))
      (mkShared (next (ids st)).2 (local st) (global st)) w) as (t & s & w'' & -> & Ht).
    split; [done|]. split; [done|]. split; [by left | apply restored_refl]. }
  cbn [local global ids].
  destruct (match local st with Some _ => _ | None => _ end) as [local' lp] eqn:El.
  assert (Hl : lp <> Panicked /\ match lp with
    | Returned true => RestoredOpt (local st) (c_local_wait c) ((fun n => n + 1)%Z <$> local')
    | _ => local' = local st end).
  { destruct (local st) as [a|]; [|by injection El as <- <-].
    destruct (acquire_request_permit a _ _) as [a' r] eqn:Ea. injection El as <- <-.
    apply acquire_spec in Ea as [? Ha]. split; [done|]. destruct r as [[]| |]; cbn; congruence. }
  destruct Hl as [Hnp Hl]. destruct lp as [[]| |]; try done; [|rewrite Hl; split; [by apply stamped | split; [done|split; [by left | apply restored_refl]]]].
  destruct (acquire_request_permit (global st) _ _) as [g' gp] eqn:Eg. apply acquire_spec in Eg as [Hg Hg'].
  destruct gp as [[]| |]; try done.
  - match goal with |- context [dispatch self c ?p ?w0] =>
      pose proof (service_dispatch_panics self c p w0) as Hd; destruct (dispatch self c p w0) as [w1 [r| |]] end;
      [|by split; [apply Hd|]|done].
    match goal with |- context [finish ?r0 ?st0 ?w0] => destruct (Hfin r0 st0 w0) as (t & s & w'' & -> & Ht) end. done.
  - match goal with |- context [finish ?r0 ?st0 ?w0] => destruct (Hfin r0 st0 w0) as (t & s & w'' & -> & Ht) end.
    rewrite Hg'. do 2 (split; [done|]). split; [by left | done].
Qed.

(** The effects of holding the request permits. *)
Definition permits_taken (st : Shared) : list Effect :=
  (match local st with Some _ => [PermitAcquired] | None => [] end) ++ [PermitAcquired].
Definition permits_returned (st : Shared) : list Effect :=
  PermitReleased :: match local st with Some _ => [PermitReleased] | None => [] end.

(** More bytes than the limit were announced or arrive. *)
Definition BodyTooLarge (self : IngressService) (c : Call) (headers : HeaderMap) : Prop :=
  let limit := max_request_body_bytes (config self) in
  (exists length, content_length headers = Some length /\ (limit < length)%Z)
  \/ (c_end_of_stream c = false /\ c_body_race c = BodyFinished
      /\ Body.Collects limit (c_events c) (Err Body.TooLarge)).

Lemma content_length_marked h p hv :
  content_length (hm_insert REQUEST_ID_HEADER hv (mark_sensitive_headers h p)) = content_length h.
Proof.
  unfold content_length. rewrite hm_get_insert_ne by (unfold REQUEST_ID_HEADER; name_ne). unfold hm_get.
  pose proof (mark_sensitive_bytes h p CONTENT_LENGTH) as Hb. revert Hb.
  destruct (hm_get_all CONTENT_LENGTH (mark_sensitive_headers h p)) as [|v l],
    (hm_get_all CONTENT_LENGTH h) as [|v' l']; try done.
  rewrite !fmap_cons. intros [= Hv _]. cbn. by rewrite !hv_to_str_spec, Hv.
Qed.

Lemma head_len_marked m u v h p b :
  canonical_request_head_len (mkRequest m u v (mark_sensitive_headers h p) b)
  = canonical_request_head_len (mkRequest m u v h b).
Proof.
  unfold canonical_request_head_len, mark_sensitive_headers. cbn [req_method req_uri req_version req_headers].
  rewrite hm_iter_mut_iter, <- list_fmap_compose. do 3 f_equal. apply list_fmap_ext. intros _ [n x] _. cbn.
  case_match; [by rewrite hv_set_sensitive_bytes | done].
Qed.

Lemma json_finish self upgrading m hv s b st (w : World X) :
  exists t, finish_request self upgrading m hv (json s b) st w = (st, w, Returned (t, None)) /\ t_status t = s.
Proof.
  unfold finish_request, upgrade_socket, finish_call, normalize_body. cbn [body json status].
  destruct (_ || _); cbn; rewrite !emit_nil; by eexists.
Qed.

Lemma dispatch_too_large self c parts w : Config.Valid (config self) -> BodyTooLarge self c (part_headers parts) ->
  dispatch self c parts w = (w, Returned payload_too_large).
Proof.
  intros [[] _ _] [(length & Hc & Hl) | (He & Hr & Hc)]; unfold dispatch.
  - rewrite Hc. apply Z.ltb_lt in Hl. by rewrite Hl.
  - assert (Hmax : (0 <= max_request_body_bytes (config self) <= usize_max)%Z)
      by (unfold MAX_TRANSFER_BYTES, usize_max in *; lia).
    rewrite He, Hr. cbv zeta.
    rewrite (Body.collects_large_only _ _ _ Hc
      (Body.collect_bounded_body_collects _ (content_length (part_headers parts)) _ Hmax)).
    by destruct (match content_length _ with Some _ => _ | None => _ end).
Qed.

Lemma protocol_limits_total config : Config.Valid config ->
  configure_protocol_limits config = Returned (request_head_timeout config, max_concurrent_requests config).
Proof. intros Hv. unfold configure_protocol_limits. by rewrite concurrency_fits_u32. Qed.

(** C34: the size limits bind before anything is forwarded. A request whose serialized head exceeds the configured
    bound is answered 431 without taking a permit or touching the outside; one whose announced or actual body
    exceeds its bound is answered 413 with the permits returned and no middleware, endpoint or other outside
    action. *)
Theorem oversize_rejected self c st w :
  Config.Valid (config self) -> (0 <= id_value (ids st) <= u64_max)%Z ->
  let received := mkRequest (part_method (c_parts c)) (part_uri (c_parts c)) (part_version (c_parts c))
                    (part_headers (c_parts c)) [] in
  if decide (max_request_head_bytes (config self) < canonical_request_head_len received)%Z then
    exists t, call self c st w = (mkShared (next (ids st)).2 (local st) (global st), w, Returned (t, None))
      /\ t_status t = REQUEST_HEADER_FIELDS_TOO_LARGE
  else
    c_cancelled_local c = false -> c_cancelled_global c = false ->
    (forall n, local st = Some n -> (0 < n)%Z) -> (0 < global st)%Z ->
    BodyTooLarge self c (part_headers (c_parts c)) ->
    exists t, call self c st w = (mkShared (next (ids st)).2 (local st) (global st),
                                  emit (permits_taken st ++ permits_returned st) w, Returned (t, None))
      /\ t_status t = PAYLOAD_TOO_LARGE.
Proof.
  intros Hv Hid received. unfold call. rewrite head_len_marked. fold received.
  destruct (replace_request_id_spec (mark_sensitive_headers (part_headers (c_parts c)) (session_policy self))
              (ids st) Hid) as (hv & -> & _).
  destruct (decide _) as [Hlt|Hge].
  { apply Z.ltb_lt in Hlt. rewrite Hlt. apply json_finish. }
  apply Z.nlt_ge, Z.ltb_ge in Hge. rewrite Hge. intros Hcl Hcg Hl Hg HB.
  set (hs := hm_insert REQUEST_ID_HEADER hv _).
  assert (HB' : BodyTooLarge self c hs) by (unfold BodyTooLarge; subst hs; by rewrite content_length_marked).
  destruct st as [seq loc g]. cbn [local global ids] in *. unfold acquire_request_permit. rewrite Hcl, Hcg.
  rewrite (proj2 (Z.ltb_lt 0 g) Hg).
  destruct loc as [n|].
  - rewrite (proj2 (Z.ltb_lt 0 n) (Hl n eq_refl)). rewrite dispatch_too_large by done. cbn [fmap option_fmap option_map local global].
    rewrite !emit_emit. replace (n - 1 + 1)%Z with n by lia. replace (g - 1 + 1)%Z with g by lia. apply json_finish.
  - rewrite dispatch_too_large by done. cbn [fmap option_fmap option_map local global].
    rewrite !emit_emit. replace (g - 1 + 1)%Z with g by lia. apply json_finish.
Qed.

End service.

(** ** Witnesses *)

#[local] Existing Instance ref_http.
#[local] Existing Instance ref_http_laws.
#[local] Existing Instance ref_matchit.
#[local] Existing Instance ref_matchit_laws.
#[local] Existing Instance Dispatch.ref_digests.
#[local] Existing Instance Dispatch.ref_digest_laws.

Definition sample_service : IngressService := mkService default_config None sample_table [].
Definition sample_call : Call :=
  mkCall allowed_parts [Body.Data (lit "x")] false BodyFinished false None false None true 1 2.
Definition large_call : Call :=
  mkCall (mkParts (m_const (lit "POST")) sample_uri HTTP_11 (ref_headers [("content-length", "99999999999")%string]))
    [] false BodyFinished false None false None true 1 2.

Lemma call_stamped_witness :
  let '(st', _, r) := call sample_service sample_call (mkShared (Local 7) (Some 1%Z) 1) sample_world in
  match r with
  | Returned (t, _) => Stamped 7 (t_headers t)
  | Panicked => uri_path (part_uri (c_parts sample_call)) = [] /\ part_method (c_parts sample_call) <> CONNECT
  | Waiting => True
  end
  /\ (r <> Waiting -> ids st' = (next (Local 7)).2 /\ Restored 1 (c_global_wait sample_call) (global st')
                      /\ RestoredOpt (Some 1%Z) (c_local_wait sample_call) (local st')).
Proof. apply (call_stamped sample_service sample_call (mkShared (Local 7) (Some 1%Z) 1) sample_world). cbn. unfold u64_max. lia. Defined.

(** A [GET] whose target is an authority, as in [GET foo HTTP/1.1], panics; its permits come back. *)
Definition authority_call : Call :=
  mkCall (mkParts (m_const (lit "GET")) (RefUri None (Some (lit "foo")) None None) HTTP_11 hm_new)
    [] true BodyFinished false None false None false 1 2.

Example authority_form_panics :
  (let '(st', _, r) := call sample_service authority_call (mkShared (Local 7) (Some 1%Z) 1) sample_world in
   (local st', global st', match r with Panicked => true | _ => false end)) = (Some 1%Z, 1%Z, true).
Proof. vm_compute. reflexivity. Qed.

Lemma oversize_rejected_witness :
  exists t, call sample_service large_call (mkShared (Local 7) (Some 1%Z) 1) sample_world
            = (mkShared (next (Local 7)).2 (Some 1%Z) 1,
               emit (permits_taken (mkShared (Local 7) (Some 1%Z) 1) ++ permits_returned (mkShared (Local 7) (Some 1%Z) 1))
                 sample_world, Returned (t, None))
      /\ t_status t = PAYLOAD_TOO_LARGE.
Proof.
  pose proof (oversize_rejected sample_service large_call (mkShared (Local 7) (Some 1%Z) 1) sample_world default_valid)
    as Hw. cbv zeta in Hw. rewrite decide_False in Hw.
  - apply Hw; [split; vm_compute; discriminate | reflexivity | reflexivity | intros n [= <-]; lia | cbn; lia |].
    left. exists 99999999999%Z. split; reflexivity.
  - apply Z.nlt_ge, Z.leb_le. vm_compute. reflexivity.
Defined.

End Service.
