(* ===== verification/Replication.v ===== *)
(** * Same-port replicas ([lenso-web-ingress-plugin/src/replication.rs])

    One listener shared by several lanes. The coordinator's shared state (its mutex, atomics, semaphores and
    channels) is one record; each method is a function on it. Channels live in an arena, because a slot's
    sender and a replica's receiver are two handles of one queue. A connection is the identity of its socket;
    while it is queued it holds one permit of the connection semaphore. *)
From S2P Require Import Prelude RustStd HttpCrate RefHttp Kernel Config Manifest.

Module Replication.
Import Config Manifest.

Record WebIngressReplicaManifest := mkReplicaManifest {
  rm_middleware : list str; rm_routes : WebIngressRouteManifest }.
#[global] Instance WebIngressReplicaManifest_eq_dec : EqDecision WebIngressReplicaManifest.
Proof. solve_decision. Defined.

(** A bounded [mpsc] channel. *)
Record Channel := mkChannel { capacity : Z; queue : list Z; receiver_alive : bool }.

Record ReplicaSlot := mkSlot {
  allocated : bool; manifest : option WebIngressReplicaManifest; connections : option nat }.

(** [ListenerCoordinatorInner] with its [CoordinatorState]; a semaphore is its available permits. *)
Record Coordinator := mkCoordinator {
  co_config : WebIngressConfig;
  local_address : SocketAddr;
  slots : list ReplicaSlot;
  canonical_manifest : option WebIngressReplicaManifest;
  next_slot : Z;
  next_connection : Z;
  next_request_id : Z;
  request_concurrency : Z;
  connection_concurrency : Z;
  local_request_limit : Z;
  acceptor_failure : option str;
  ready_signal : bool;
  channels : list Channel;
}.

(** [CoordinatorState::ready]. *)
Definition ready (slots : list ReplicaSlot) : bool :=
  forallb (fun slot => match manifest slot with Some _ => true | None => false end) slots.

Section replication.
Context `{HttpCrate}.

(** [bind]: what the operating system answers to each call. *)
Record BindCalls := mkBindCalls {
  os_bind : Result str unit; os_local_addr : Result str SocketAddr; os_into_std : Result str unit;
  os_spawn : Result str unit }.

Definition bind (config : WebIngressConfig) (replica_count : Z) (os : BindCalls) :
    Result RuntimeFailure Coordinator :=
  let? _ := map_err plugin_failure (validate config) in
  if (replica_count =? 0)%Z
  then Err (plugin_failure (lit "Web Ingress listener coordinator requires at least one replica")) else
  let? _ := map_err (fun error => plugin_failure (lit "Web Ingress bind failed: " ++ error)) (os_bind os) in
  let? address := map_err (fun error => plugin_failure (lit "Web Ingress address failed: " ++ error))
                    (os_local_addr os) in
  let? _ := map_err (fun error => plugin_failure (lit "Web Ingress listener transfer failed: " ++ error))
              (os_into_std os) in
  let inner := {|
    co_config := config;
    local_address := address;
    slots := replicate (Z.to_nat replica_count) (mkSlot false None None);
    canonical_manifest := None;
    next_slot := 0;
    next_connection := 0;
    next_request_id := 0;
    request_concurrency := max_concurrent_requests config;
    connection_concurrency := max_connections config;
    local_request_limit := div_ceil (max_concurrent_requests config) replica_count;
    acceptor_failure := None;
    ready_signal := false;
    channels := [] |} in
  let? _ := map_err (fun error => plugin_failure (lit "Web Ingress acceptor could not start: " ++ error))
              (os_spawn os) in
  Ok inner.
End replication.

(** ** Field updates *)

Definition with_slots (st : Coordinator) (slots : list ReplicaSlot) : Coordinator :=
  mkCoordinator (co_config st) (local_address st) slots (canonical_manifest st) (next_slot st) (next_connection st)
    (next_request_id st) (request_concurrency st) (connection_concurrency st) (local_request_limit st)
    (acceptor_failure st) (ready_signal st) (channels st).
Definition with_next_slot (st : Coordinator) (next_slot : Z) : Coordinator :=
  mkCoordinator (co_config st) (local_address st) (slots st) (canonical_manifest st) next_slot (next_connection st)
    (next_request_id st) (request_concurrency st) (connection_concurrency st) (local_request_limit st)
    (acceptor_failure st) (ready_signal st) (channels st).
Definition with_connections (st : Coordinator) (next_connection available : Z) (channels : list Channel) : Coordinator :=
  mkCoordinator (co_config st) (local_address st) (slots st) (canonical_manifest st) (next_slot st) next_connection
    (next_request_id st) (request_concurrency st) available (local_request_limit st)
    (acceptor_failure st) (ready_signal st) channels.
Definition with_registration (st : Coordinator) (slots : list ReplicaSlot) (canonical : option WebIngressReplicaManifest)
    (ready_signal : bool) (channels : list Channel) : Coordinator :=
  mkCoordinator (co_config st) (local_address st) slots canonical (next_slot st) (next_connection st)
    (next_request_id st) (request_concurrency st) (connection_concurrency st) (local_request_limit st)
    (acceptor_failure st) ready_signal channels.
Definition with_failure (st : Coordinator) (failure : option str) : Coordinator :=
  mkCoordinator (co_config st) (local_address st) (slots st) (canonical_manifest st) (next_slot st) (next_connection st)
    (next_request_id st) (request_concurrency st) (connection_concurrency st) (local_request_limit st)
    failure (ready_signal st) (channels st).

(** ** Slots *)

Definition allocate_replica_at (st : Coordinator) (slot : Z) : Coordinator * Result RuntimeFailure Z :=
  match slots st !! Z.to_nat slot with
  | None =>
      (st, Err (plugin_failure (lit "Web Ingress listener coordinator expected " ++ show_Z (len (slots st))
                                ++ lit " replicas")))
  | Some replica =>
      if allocated replica
      then (st, Err (plugin_failure (lit "Web Ingress listener coordinator replica slot " ++ show_Z slot
                                     ++ lit " is already allocated")))
      else (with_slots st (<[Z.to_nat slot := mkSlot true (manifest replica) (connections replica)]> (slots st)), Ok slot)
  end.

Definition allocate_replica (st : Coordinator) : Coordinator * Result RuntimeFailure Z :=
  let slot := next_slot st in
  allocate_replica_at (with_next_slot st (wrapping_add slot 1)) slot.

Definition validate_config (st : Coordinator) (config : WebIngressConfig) : Result str unit :=
  if bool_decide (config = co_config st) then Ok ()
  else Err (lit "same-port Web Ingress replicas must use the coordinator configuration").

(** What a replica gets: its receiver and its own request limit; the rest is shared. *)
Record ReplicaConnectionSource := mkSource { receiver : nat; local_request_concurrency : Z }.

Definition queue_capacity (st : Coordinator) : Z :=
  Z.max (div_ceil (max_connections (co_config st)) (len (slots st))) 1.

(** The second half of [register], after the manifests agree: indexing [slots] out of range panics. *)
Definition register_slot (st : Coordinator) (slot : Z) (replica_manifest : WebIngressReplicaManifest) :
    Coordinator * Outcome (Result RuntimeFailure ReplicaConnectionSource) :=
  match slots st !! Z.to_nat slot with
  | None => (st, Panicked)
  | Some replica =>
      let receiver := length (channels st) in
      let slots' := <[Z.to_nat slot := mkSlot (allocated replica) (Some replica_manifest) (Some receiver)]> (slots st) in
      (with_registration st slots' (Some replica_manifest) (ready_signal st || ready slots')
         (channels st ++ [mkChannel (queue_capacity st) [] true]),
       Returned (Ok (mkSource receiver (local_request_limit st))))
  end.

(** [register]; [div_ceil] by no slots panics. *)
Definition register (st : Coordinator) (slot : Z) (routes : WebIngressRouteManifest) (middleware : list str) :
    Coordinator * Outcome (Result RuntimeFailure ReplicaConnectionSource) :=
  let replica_manifest := mkReplicaManifest middleware routes in
  if (len (slots st) =? 0)%Z then (st, Panicked) else
  match canonical_manifest st with
  | Some canonical =>
      if bool_decide (canonical = replica_manifest) then register_slot st slot replica_manifest
      else (st, Returned (Err (plugin_failure
              (lit "same-port Web Ingress replicas have different route or middleware manifests"))))
  | None => register_slot st slot replica_manifest
  end.

(** ** Connections *)

Inductive TrySend := SentTo (channel : Channel) | Full | Closed.

Definition try_send (channel : Channel) (connection : Z) : TrySend :=
  if negb (receiver_alive channel) then Closed else
  if (capacity channel <=? len (queue channel))%Z then Full
  else SentTo (mkChannel (capacity channel) (queue channel ++ [connection]) true).

Inductive Distributed :=
| Dropped                        (* the socket is closed and its permit, if any, returned *)
| Delivered (channel : nat)
| Reserving (senders : list nat). (* every open queue is full: waiting for the first with room *)

(** The loop over the slots, with the connection still in hand. *)
Fixpoint offer (slots : list ReplicaSlot) (channels : list Channel) (connection : Z) (order waiting : list nat) :
    Outcome (list Channel * Distributed) :=
  match order with
  | [] => Returned (channels, match waiting with [] => Dropped | _ => Reserving waiting end)
  | slot :: order =>
      let^ replica := expect (slots !! slot) in
      match connections replica with
      | None => offer slots channels connection order waiting
      | Some sender =>
          match channels !! sender with
          | None => offer slots channels connection order waiting
          | Some channel =>
              match try_send channel connection with
              | SentTo channel => Returned (<[sender := channel]> channels, Delivered sender)
              | Full => offer slots channels connection order (waiting ++ [sender])
              | Closed => offer slots channels connection order waiting
              end
          end
      end
  end.

(** [distribute_connection] up to its wait; [alive] is whether the coordinator still exists. *)
Definition distribute_connection (alive : bool) (st : Coordinator) (connection : Z) :
    Coordinator * Outcome Distributed :=
  if negb alive then (st, Returned Dropped) else
  if (connection_concurrency st <=? 0)%Z then (st, Returned Dropped) else
  let available := (connection_concurrency st - 1)%Z in
  let slot_count := len (slots st) in
  if (slot_count =? 0)%Z then (st, Panicked) else
  let start := (next_connection st mod slot_count)%Z in
  let next := wrapping_add (next_connection st) 1 in
  let order := (fun offset => Z.to_nat ((start + Z.of_nat offset) mod slot_count)) <$> seq 0 (length (slots st)) in
  match offer (slots st) (channels st) connection order [] with
  | Panicked => (st, Panicked)
  | Waiting => (st, Waiting)
  | Returned (channels, Dropped) => (with_connections st next (connection_concurrency st) channels, Returned Dropped)
  | Returned (channels, outcome) => (with_connections st next available channels, Returned outcome)
  end.

(** One result of [reservations.next()]: a reserved place, in which the connection is sent, or a closed channel.
    The result is what is still being waited for. *)
Definition reservation (st : Coordinator) (connection : Z) (senders : list nat) (sender : nat) (reserved : bool) :
    Coordinator * Distributed :=
  if reserved
  then (match channels st !! sender with
        | Some c => with_connections st (next_connection st) (connection_concurrency st)
                      (<[sender := mkChannel (capacity c) (queue c ++ [connection]) (receiver_alive c)]> (channels st))
        | None => st
        end, Delivered sender)
  else match filter (fun s => s <> sender) senders with
       | [] => (with_connections st (next_connection st) (connection_concurrency st + 1) (channels st), Dropped)
       | rest => (st, Reserving rest)
       end.

(** [ReplicaConnectionSource::receive]: what its [select!] finds. *)
Inductive Wakeup := QueueReady | FailureChanged | CoordinatorGone.

Definition receive (st : Coordinator) (self : nat) (wakeup : Wakeup) :
    Coordinator * Outcome (Result str (option Z)) :=
  match acceptor_failure st with
  | Some detail => (st, Returned (Err detail))
  | None =>
      match wakeup with
      | QueueReady =>
          match channels st !! self with
          | Some c =>
              match queue c with
              | connection :: rest =>
                  (with_connections st (next_connection st) (connection_concurrency st)
                     (<[self := mkChannel (capacity c) rest (receiver_alive c)]> (channels st)),
                   Returned (Ok (Some connection)))
              | [] => (st, if bool_decide (Exists (fun s => connections s = Some self) (slots st)) then Waiting
                           else Returned (Ok None)) (* no sender is left *)
              end
          | None => (st, Returned (Ok None))
          end
      | FailureChanged => (st, Waiting) (* the loop reads the failure again *)
      | CoordinatorGone => (st, Returned (Ok None))
      end
  end.

(** A replica that stops drops its receiver, and with it the queued connections. *)
Definition drop_receiver (st : Coordinator) (self : nat) : Coordinator :=
  match channels st !! self with
  | Some c => with_connections st (next_connection st) (connection_concurrency st + len (queue c))
                (<[self := mkChannel (capacity c) [] false]> (channels st))
  | None => st
  end.

(** The permit of a finished connection. *)
Definition connection_finished (st : Coordinator) : Coordinator :=
  with_connections st (next_connection st) (connection_concurrency st + 1) (channels st).

Definition report_acceptor_failure (alive : bool) (st : Coordinator) (detail : str) : Coordinator :=
  if alive then with_failure st (Some detail) else st.

(** ** The acceptor thread and the system around the coordinator *)

Inductive AcceptorPhase :=
| Starting
| AwaitReady
| Accepting
| Distributing (connection : Z) (senders : list nat)
| AcceptorStopped.

(** Whatever can happen: calls of the hosts and replicas, what the acceptor's waits deliver, and the sockets. *)
Inductive Event :=
| AllocateAt (slot : Z)
| Allocate
| Register (slot : Z) (routes : WebIngressRouteManifest) (middleware : list str)
| RuntimeBuilt (result : Result str unit)
| ReadyChecked (transfer : Result str unit)
| SignalClosed                                 (* a watch channel closed, or shutdown *)
| SocketAccepted (result : Result str (Result str Z)) (* [accept], then [into_std] *)
| Reserved (sender : nat) (reserved : bool)
| Received (source : nat) (wakeup : Wakeup)
| ReceiverDropped (source : nat)
| Finished (index : nat).                       (* the live connection at this position ends *)

(** [live]: connections a replica has received; [given]: slots handed out. *)
Record System := mkSystem {
  coordinator : Coordinator; acceptor : AcceptorPhase; live : list Z; given : list Z }.

Definition phase_after (connection : Z) (outcome : Distributed) : AcceptorPhase :=
  match outcome with Reserving senders => Distributing connection senders | _ => Accepting end.

(** [spawn_acceptor]'s thread. *)
Definition acceptor_step (st : Coordinator) (phase : AcceptorPhase) (e : Event) : Coordinator * AcceptorPhase :=
  match phase, e with
  | Starting, RuntimeBuilt (Ok _) => (st, AwaitReady)
  | Starting, RuntimeBuilt (Err error) =>
      (report_acceptor_failure true st (lit "Web Ingress acceptor runtime failed: " ++ error), AcceptorStopped)
  | AwaitReady, ReadyChecked transfer =>
      if ready_signal st then
        match transfer with
        | Ok _ => (st, Accepting)
        | Err error => (report_acceptor_failure true st
                          (lit "Web Ingress acceptor listener transfer failed: " ++ error), AcceptorStopped)
        end
      else (st, AwaitReady)
  | AwaitReady, SignalClosed | Accepting, SignalClosed => (st, AcceptorStopped)
  | Accepting, SocketAccepted (Err error) =>
      (report_acceptor_failure true st (lit "Web Ingress accept failed: " ++ error), AcceptorStopped)
  | Accepting, SocketAccepted (Ok (Err error)) =>
      (report_acceptor_failure true st (lit "Web Ingress accepted socket transfer failed: " ++ error), AcceptorStopped)
  | Accepting, SocketAccepted (Ok (Ok connection)) =>
      match distribute_connection true st connection with
      | (st, Returned outcome) => (st, phase_after connection outcome)
      | (st, _) => (st, AcceptorStopped)
      end
  | Distributing connection senders, Reserved sender reserved =>
      let '(st, outcome) := reservation st connection senders sender reserved in (st, phase_after connection outcome)
  | _, _ => (st, phase)
  end.

Definition system_step (s : System) (e : Event) : System :=
  let allocating '(st, r) :=
    mkSystem st (acceptor s) (live s) (given s ++ match r : Result RuntimeFailure Z with Ok slot => [slot] | Err _ => [] end) in
  match e with
  | AllocateAt slot => allocating (allocate_replica_at (coordinator s) slot)
  | Allocate => allocating (allocate_replica (coordinator s))
  | Register slot routes middleware =>
      mkSystem (register (coordinator s) slot routes middleware).1 (acceptor s) (live s) (given s)
  | Received source wakeup =>
      let '(st, r) := receive (coordinator s) source wakeup in
      mkSystem st (acceptor s) (live s ++ match r with Returned (Ok (Some c)) => [c] | _ => [] end) (given s)
  | ReceiverDropped source => mkSystem (drop_receiver (coordinator s) source) (acceptor s) (live s) (given s)
  | Finished index =>
      mkSystem (connection_finished (coordinator s)) (acceptor s) (delete index (live s)) (given s)
  | _ => let '(st, phase) := acceptor_step (coordinator s) (acceptor s) e in mkSystem st phase (live s) (given s)
  end.

(** When an event can happen: replicas act on slots and receivers they own, a reservation succeeds on an open
    channel with room and fails on a closed one, and only a live connection ends. *)
Definition possible (s : System) (e : Event) : Prop :=
  match e with
  | AllocateAt slot => (0 <= slot)%Z
  | Register slot _ _ => slot ∈ given s
  | Reserved sender reserved =>
      exists c, channels (coordinator s) !! sender = Some c
        /\ if reserved then receiver_alive c = true /\ (len (queue c) < capacity c)%Z else receiver_alive c = false
  | Received source _ => exists c, channels (coordinator s) !! source = Some c /\ receiver_alive c = true
  | Finished index => index < length (live s)
  | _ => True
  end.

Section system.
Context `{HttpCrate}.

(** A system that started with [bind]. *)
Inductive Reachable (config : WebIngressConfig) (replica_count : Z) : System -> Prop :=
| reachable_bind os st : (0 <= replica_count <= usize_max)%Z -> bind config replica_count os = Ok st ->
    Reachable config replica_count (mkSystem st Starting [] [])
| reachable_step s e : Reachable config replica_count s -> possible s e ->
    Reachable config replica_count (system_step s e).

(** ** Invariant *)

Definition queued (channels : list Channel) : Z := foldr Z.add 0%Z ((fun c => len (queue c)) <$> channels).
Definition pending (phase : AcceptorPhase) : Z := match phase with Distributing _ _ => 1 | _ => 0 end.

Record SlotOk (st : Coordinator) (given : list Z) (i : nat) (slot : ReplicaSlot) : Prop := {
  slot_given : allocated slot = true <-> Z.of_nat i ∈ given;
  slot_registered : is_Some (manifest slot) <-> is_Some (connections slot);
  slot_owner : is_Some (manifest slot) -> allocated slot = true;
  slot_canonical : forall m, manifest slot = Some m -> canonical_manifest st = Some m;
  slot_channel : forall ch, connections slot = Some ch -> ch < length (channels st);
}.

Record Registry (config : WebIngressConfig) (count : Z) (st : Coordinator) (given : list Z) : Prop := {
  reg_config : co_config st = config;
  reg_count : len (slots st) = count /\ (1 <= count)%Z;
  reg_limit : local_request_limit st = div_ceil (max_concurrent_requests config) count;
  reg_slot : forall i slot, slots st !! i = Some slot -> SlotOk st given i slot;
  reg_distinct : forall i j a b ch, slots st !! i = Some a -> slots st !! j = Some b ->
    connections a = Some ch -> connections b = Some ch -> i = j;
  reg_given : NoDup given /\ forall slot, slot ∈ given -> (0 <= slot < count)%Z;
  reg_next : (0 <= next_slot st)%Z;
  reg_ready : ready_signal st = ready (slots st);
}.

Record Permits (config : WebIngressConfig) (count : Z) (st : Coordinator) (live : list Z) (phase : AcceptorPhase) : Prop := {
  per_capacity : forall ch c, channels st !! ch = Some c ->
    capacity c = Z.max (div_ceil (max_connections config) count) 1;
  per_conserved : (connection_concurrency st + queued (channels st) + len live + pending phase
                   = max_connections config)%Z;
  per_available : (0 <= connection_concurrency st)%Z;
  per_next : (0 <= next_connection st)%Z;
}.

Definition serving (phase : AcceptorPhase) : bool :=
  match phase with Accepting | Distributing _ _ => true | _ => false end.

Record Inv (config : WebIngressConfig) (count : Z) (s : System) : Prop := {
  inv_registry : Registry config count (coordinator s) (given s);
  inv_permits : Permits config count (coordinator s) (live s) (acceptor s);
  inv_serving : serving (acceptor s) = true -> ready_signal (coordinator s) = true;
}.

(** ** Lemmas: channels and permits *)

Lemma len_singleton {A} (a : A) : len [a] = 1%Z.
Proof. done. Qed.

Lemma queued_app a b : queued (a ++ b) = (queued a + queued b)%Z.
Proof. unfold queued. induction a as [|c a IH]; cbn in *; lia. Qed.

Lemma queued_nonneg l : (0 <= queued l)%Z.
Proof. unfold queued. induction l; cbn in *; unfold len in *; lia. Qed.

Lemma queued_insert l i c c' : l !! i = Some c ->
  queued (<[i := c']> l) = (queued l - len (queue c) + len (queue c'))%Z.
Proof.
  intros Hi. rewrite <- (take_drop_middle l i c Hi) at 2.
  rewrite insert_take_drop by by eapply lookup_lt_Some. rewrite !queued_app. unfold queued; cbn. lia.
Qed.

Lemma registry_connections config count st given next available chs :
  length chs = length (channels st) -> Registry config count st given ->
  Registry config count (with_connections st next available chs) given.
Proof.
  intros Hl []. split; try done. intros i slot Hi. destruct (reg_slot0 i slot Hi). split; try done.
  cbn. by rewrite Hl.
Qed.

Lemma registry_failure config count st given failure : Registry config count st given ->
  Registry config count (with_failure st failure) given.
Proof. intros []. split; try done. intros i slot Hi. by destruct (reg_slot0 i slot Hi). Qed.

(** Changing one queue changes the queued permits by the difference of its lengths. *)
Lemma permits_queue config count st live phase i c c' available next live' phase' :
  Permits config count st live phase -> channels st !! i = Some c -> capacity c' = capacity c ->
  (0 <= available)%Z -> (0 <= next)%Z ->
  (available + len (queue c') + len live' + pending phase'
   = connection_concurrency st + len (queue c) + len live + pending phase)%Z ->
  Permits config count (with_connections st next available (<[i := c']> (channels st))) live' phase'.
Proof.
  intros [Hc Hp Ha Hn] Hi Hcap H1 H2 He. split; cbn [channels connection_concurrency next_connection with_connections]; try done.
  - intros ch x Hx. apply list_lookup_insert_Some in Hx as [(-> & <- & _)|(_ & Hx)]; [rewrite Hcap|]; eauto.
  - rewrite (queued_insert _ _ _ _ Hi). lia.
Qed.

Lemma permits_same config count st live phase available next live' phase' :
  Permits config count st live phase -> (0 <= available)%Z -> (0 <= next)%Z ->
  (available + len live' + pending phase' = connection_concurrency st + len live + pending phase)%Z ->
  Permits config count (with_connections st next available (channels st)) live' phase'.
Proof.
  intros [Hc Hp Ha Hn] H1 H2 He. split; cbn [channels connection_concurrency next_connection with_connections]; try done. lia.
Qed.

Lemma permits_phase config count st live phase phase' : Permits config count st live phase ->
  pending phase' = pending phase -> Permits config count st live phase'.
Proof. intros [] Hp. split; try done. by rewrite Hp. Qed.

(** ** Lemmas: slots *)

Lemma ready_insert_same l i slot slot' : l !! i = Some slot -> manifest slot' = manifest slot ->
  ready (<[i := slot']> l) = ready l.
Proof.
  intros Hi Hm. unfold ready. rewrite insert_take_drop by by eapply lookup_lt_Some.
  rewrite <- (take_drop_middle l i slot Hi) at 3. rewrite !forallb_app. cbn. by rewrite Hm.
Qed.

Lemma ready_insert_registered l i slot slot' : l !! i = Some slot -> is_Some (manifest slot') ->
  ready l = true -> ready (<[i := slot']> l) = true.
Proof.
  intros Hi [m Hm]. unfold ready. rewrite insert_take_drop by by eapply lookup_lt_Some.
  rewrite <- (take_drop_middle l i slot Hi) at 1. rewrite !forallb_app. cbn. rewrite Hm, !andb_true_iff. naive_solver.
Qed.

Lemma allocate_at_registry config count st given slot st' r : (0 <= slot)%Z -> Registry config count st given ->
  allocate_replica_at st slot = (st', r) ->
  Registry config count st' (given ++ match r with Ok slot => [slot] | Err _ => [] end)
  /\ channels st' = channels st /\ connection_concurrency st' = connection_concurrency st
  /\ next_connection st' = next_connection st /\ ready_signal st' = ready_signal st.
Proof.
  intros Hz [Hcfg [Hn1 Hn2] Hl Hs Hd [Hg1 Hg2] Hx Hr]. unfold allocate_replica_at.
  destruct (slots st !! Z.to_nat slot) as [rep|] eqn:E; [|intros [= <- <-]; rewrite app_nil_r; split; [by split|done]].
  destruct (allocated rep) eqn:Ea; intros [= <- <-]; [rewrite app_nil_r; split; [by split|done]|].
  pose proof (lookup_lt_Some _ _ _ E) as Hlt. destruct (Hs _ _ E) as [Hg Hreg Hown Hcan Hch].
  rewrite Z2Nat.id in Hg by done. split; [|done]. split; cbn [with_slots co_config slots canonical_manifest channels
    local_request_limit next_slot ready_signal]; try done.
  - unfold len in *. by rewrite length_insert.
  - intros i s Hi. apply list_lookup_insert_Some in Hi as [(<- & <- & _)|(Hne & Hi)].
    + split; cbn; try done. rewrite Z2Nat.id, elem_of_app, list_elem_of_singleton by done. tauto.
    + destruct (Hs _ _ Hi) as [Hg' ? ? ? ?]. split; try done.
      rewrite Hg', elem_of_app, list_elem_of_singleton. split; [tauto|]. intros [?|Hz']; [done|]. lia.
  - intros i j a b ch Hi Hj Ha Hb.
    assert (Hk : forall k c, <[Z.to_nat slot := mkSlot true (manifest rep) (connections rep)]> (slots st) !! k = Some c ->
              connections c = Some ch -> exists c', slots st !! k = Some c' /\ connections c' = Some ch).
    { intros k c Hk Hc. apply list_lookup_insert_Some in Hk as [(<- & <- & _)|(_ & Hk)]; eauto. }
    destruct (Hk _ _ Hi Ha) as (? & ? & ?), (Hk _ _ Hj Hb) as (? & ? & ?). by eapply Hd.
  - split.
    + apply NoDup_app. split; [done|]. split; [|apply NoDup_singleton].
      intros x Hx1 Hx2. apply list_elem_of_singleton in Hx2 as ->. apply Hg in Hx1. congruence.
    + intros x. rewrite elem_of_app, list_elem_of_singleton. intros [?| ->]; [by apply Hg2|]. unfold len in *. lia.
  - by rewrite (ready_insert_same _ _ _ _ E).
Qed.

Lemma registry_next_slot config count st given n : (0 <= n)%Z -> Registry config count st given ->
  Registry config count (with_next_slot st n) given.
Proof. intros Hn []. split; try done. intros i slot Hi. by destruct (reg_slot0 i slot Hi). Qed.

Lemma wrapping_add_nonneg a b : (0 <= wrapping_add a b)%Z.
Proof. unfold wrapping_add. apply Z.mod_pos_bound. lia. Qed.

(** A slot that was handed out can register without a panic. *)
Lemma given_lookup config count st given slot : Registry config count st given -> slot ∈ given ->
  exists rep, slots st !! Z.to_nat slot = Some rep /\ allocated rep = true.
Proof.
  intros [_ [Hn _] _ Hs _ [_ Hg] _ _] Hin. specialize (Hg slot Hin).
  destruct (slots st !! Z.to_nat slot) as [rep|] eqn:E.
  - exists rep. split; [done|]. apply (Hs _ _ E). by rewrite Z2Nat.id by lia.
  - apply lookup_ge_None in E. unfold len in *. lia.
Qed.

Lemma register_no_panic config count st given slot routes middleware : Registry config count st given -> slot ∈ given ->
  (exists r, (register st slot routes middleware).2 = Returned r)
  /\ ((register st slot routes middleware).1 = st
      \/ (register st slot routes middleware = register_slot st slot (mkReplicaManifest middleware routes)
          /\ (canonical_manifest st = None \/ canonical_manifest st = Some (mkReplicaManifest middleware routes)))).
Proof.
  intros HR Hin. destruct (given_lookup _ _ _ _ _ HR Hin) as (rep & E & _). destruct HR as [_ [Hn Hn1] _ _ _ _ _ _].
  unfold register. destruct (Z.eqb_spec (len (slots st)) 0); [lia|].
  assert (Hr : exists r, (register_slot st slot (mkReplicaManifest middleware routes)).2 = Returned r).
  { unfold register_slot. rewrite E. by eexists. }
  destruct (canonical_manifest st) as [m|]; [|auto].
  case_bool_decide as Hm; [|cbn; eauto]. split; [done|]. right. split; [done|]. right. congruence.
Qed.

Lemma register_slot_registry config count st given slot m : Registry config count st given -> slot ∈ given ->
  canonical_manifest st = None \/ canonical_manifest st = Some m ->
  Registry config count (register_slot st slot m).1 given.
Proof.
  intros HR Hin Hcan. destruct (given_lookup _ _ _ _ _ HR Hin) as (rep & E & Ha).
  destruct HR as [Hcfg [Hn1 Hn2] Hl Hs Hd Hg Hx Hr].
  assert (Hz : (0 <= slot)%Z) by by apply (proj2 Hg).
  unfold register_slot. rewrite E. cbn [fst].
  split; cbn [with_registration co_config slots canonical_manifest channels local_request_limit next_slot ready_signal]; try done.
  - unfold len in *. by rewrite length_insert.
  - intros i s Hi. apply list_lookup_insert_Some in Hi as [(<- & <- & _)|(Hne & Hi)].
    + split; cbn; try done.
      * rewrite Z2Nat.id by done. tauto.
      * intros ch [= <-]. rewrite length_app. cbn. lia.
    + destruct (Hs _ _ Hi) as [? ? ? Hc Hch]. split; try done; cbn.
      * intros m' Hm'. apply Hc in Hm'. destruct Hcan; congruence.
      * intros ch Hch'. apply Hch in Hch'. rewrite length_app. lia.
  - assert (Hfresh : forall k c, slots st !! k = Some c -> connections c <> Some (length (channels st))).
    { intros k c Hk Hc. apply (Hs _ _ Hk) in Hc. lia. }
    intros i j a b ch Hi Hj Hca Hcb.
    apply list_lookup_insert_Some in Hi as [(<- & <- & _)|(Hne & Hi)],
      Hj as [(<- & <- & _)|(Hne' & Hj)]; [done | | | by eapply Hd]; cbn in *; exfalso; [eapply Hfresh; [exact Hj|] | eapply Hfresh; [exact Hi|]]; congruence.
  - rewrite Hr. destruct (ready (slots st)) eqn:Er; [|done].
    cbn. symmetry. apply (ready_insert_registered _ _ _ _ E); [by eexists | done].
Qed.

Lemma register_slot_permits config count st given slot m live phase : Registry config count st given -> slot ∈ given ->
  Permits config count st live phase -> Permits config count (register_slot st slot m).1 live phase.
Proof.
  intros HR Hin [Hc Hp Ha Hn]. destruct (given_lookup _ _ _ _ _ HR Hin) as (rep & E & _).
  unfold register_slot. rewrite E. split; cbn [fst with_registration channels connection_concurrency next_connection]; try done.
  - intros ch c Hch. apply lookup_app_Some in Hch as [Hch|[_ Hch]]; [by eapply Hc|].
    apply list_lookup_singleton_Some in Hch as [_ <-]. cbn. unfold queue_capacity. by destruct HR as [-> [-> _] _ _ _ _ _ _].
  - rewrite queued_app. assert (Hq : queued [mkChannel (queue_capacity st) [] true] = 0%Z) by done. lia.
Qed.

(** The loop either fills one place of an open channel or leaves the channels alone. *)
Lemma offer_effect slots chs c order waiting chs' d : offer slots chs c order waiting = Returned (chs', d) ->
  (chs' = chs /\ forall ch, d <> Delivered ch) \/
  exists ch chan, d = Delivered ch /\ chs !! ch = Some chan /\ receiver_alive chan = true
    /\ (len (queue chan) < capacity chan)%Z
    /\ chs' = <[ch := mkChannel (capacity chan) (queue chan ++ [c]) true]> chs.
Proof.
  revert waiting; induction order as [|i order IH]; intros waiting Ho; cbn in Ho.
  { injection Ho as <- <-. left. split; [done|]. by destruct waiting. }
  destruct (slots !! i) as [rep|]; [|done]. cbn in Ho. destruct (connections rep) as [ch|]; [|by eapply IH].
  destruct (chs !! ch) as [chan|] eqn:Ec; [|by eapply IH]. unfold try_send in Ho.
  destruct (receiver_alive chan) eqn:Ea; cbn in Ho; [|by eapply IH].
  destruct (Z.leb_spec (capacity chan) (len (queue chan))); [by eapply IH|].
  injection Ho as <- <-. right. exists ch, chan. done.
Qed.

Lemma offer_no_panic slots chs c order waiting : Forall (fun i => i < length slots) order ->
  exists r, offer slots chs c order waiting = Returned r.
Proof.
  intros Hf. revert waiting; induction Hf as [|i order Hi Hf IH]; intros waiting; cbn; [by eexists|].
  destruct (lookup_lt_is_Some_2 slots i Hi) as [rep ->]. cbn. repeat case_match; try apply IH. by eexists.
Qed.

Definition slot_order (st : Coordinator) : list nat :=
  (fun offset => Z.to_nat ((next_connection st mod len (slots st) + Z.of_nat offset) mod len (slots st)))
    <$> seq 0 (length (slots st)).

Lemma slot_order_lookup st k : slot_order st !! k =
  if decide (k < length (slots st))
  then Some (Z.to_nat ((next_connection st + Z.of_nat k) mod len (slots st))) else None.
Proof.
  unfold slot_order. rewrite list_lookup_fmap. case_decide.
  - rewrite lookup_seq_lt by done. cbn. do 2 f_equal. apply Z.add_mod_idemp_l. unfold len. lia.
  - by rewrite lookup_seq_ge by lia.
Qed.

Lemma slot_order_range st : len (slots st) <> 0%Z -> Forall (fun i => i < length (slots st)) (slot_order st).
Proof.
  intros Hn. apply Forall_lookup. intros k i Hk. rewrite slot_order_lookup in Hk. case_decide; [|done].
  injection Hk as <-. pose proof (Z.mod_pos_bound (next_connection st + Z.of_nat k) (len (slots st))).
  unfold len in *. lia.
Qed.

(** ** Lemmas: every step keeps the invariant *)

Lemma distribute_unfold st c : (0 < connection_concurrency st)%Z -> len (slots st) <> 0%Z ->
  distribute_connection true st c =
  match offer (slots st) (channels st) c (slot_order st) [] with
  | Panicked => (st, Panicked)
  | Waiting => (st, Waiting)
  | Returned (channels, Dropped) =>
      (with_connections st (wrapping_add (next_connection st) 1) (connection_concurrency st) channels, Returned Dropped)
  | Returned (channels, outcome) =>
      (with_connections st (wrapping_add (next_connection st) 1) (connection_concurrency st - 1) channels, Returned outcome)
  end.
Proof.
  intros Ha Hn. unfold distribute_connection. cbn. destruct (Z.leb_spec (connection_concurrency st) 0); [lia|].
  by destruct (Z.eqb_spec (len (slots st)) 0).
Qed.

Lemma distribute_inv config count st given live c :
  Registry config count st given -> Permits config count st live Accepting ->
  exists outcome, (distribute_connection true st c).2 = Returned outcome
  /\ Registry config count (distribute_connection true st c).1 given
  /\ Permits config count (distribute_connection true st c).1 live (phase_after c outcome)
  /\ ready_signal (distribute_connection true st c).1 = ready_signal st.
Proof.
  intros HR HP. pose proof HR as [_ [Hn Hn1] _ _ _ _ _ _].
  destruct (decide (0 < connection_concurrency st)%Z) as [Ha|Ha].
  2: { unfold distribute_connection. cbn. destruct (Z.leb_spec (connection_concurrency st) 0); [|lia].
       exists Dropped. done. }
  rewrite distribute_unfold by lia.
  destruct (offer_no_panic (slots st) (channels st) c (slot_order st) [] ltac:(apply slot_order_range; lia)) as [[chs d] Ho].
  rewrite Ho. pose proof (wrapping_add_nonneg (next_connection st) 1) as Hw.
  apply offer_effect in Ho as [[-> Hd]|(ch & chan & -> & Hch & Hal & Hlt & ->)].
  - destruct d as [|ch|w]; [| by destruct (Hd ch) |]; eexists; (split; [done|]); cbn [fst];
      (split; [by apply registry_connections|]); (split; [|done]);
      eapply permits_same; try done; try (cbn; lia); apply HP.
  - eexists. split; [done|]. cbn [fst]. split; [apply registry_connections; [by rewrite length_insert | done]|].
    split; [|done]. eapply permits_queue; try done; [lia|]. cbn [queue]. rewrite len_app, len_singleton. cbn. lia.
Qed.

Lemma reservation_inv config count st given live c senders sender reserved :
  Registry config count st given -> Permits config count st live (Distributing c senders) ->
  (exists chan, channels st !! sender = Some chan) ->
  let '(st', outcome) := reservation st c senders sender reserved in
  Registry config count st' given /\ Permits config count st' live (phase_after c outcome)
  /\ ready_signal st' = ready_signal st.
Proof.
  intros HR HP [chan Hch]. pose proof HP as [_ _ Ha Hn]. unfold reservation. destruct reserved.
  - rewrite Hch. split; [apply registry_connections; [by rewrite length_insert | done]|]. split; [|done].
    eapply permits_queue; try done. cbn [queue]. rewrite len_app, len_singleton. cbn. lia.
  - destruct (filter _ senders) as [|s rest]; [|split; [done|]; split; [by apply (permits_phase _ _ _ _ _ _ HP) | done]].
    split; [by apply registry_connections|]. split; [|done]. eapply permits_same; try done; cbn; lia.
Qed.

Lemma receive_inv config count st given live phase source wakeup :
  Registry config count st given -> Permits config count st live phase ->
  let '(st', r) := receive st source wakeup in
  Registry config count st' given
  /\ Permits config count st' (live ++ match r with Returned (Ok (Some c)) => [c] | _ => [] end) phase
  /\ ready_signal st' = ready_signal st.
Proof.
  intros HR HP. pose proof HP as [_ _ Ha Hn]. unfold receive.
  destruct (acceptor_failure st); [by rewrite app_nil_r|]. destruct wakeup; try by rewrite app_nil_r.
  destruct (channels st !! source) as [c|] eqn:Ec; [|by rewrite app_nil_r].
  destruct (queue c) as [|x rest] eqn:Eq; [by case_bool_decide; rewrite app_nil_r|].
  split; [apply registry_connections; [by rewrite length_insert | done]|]. split; [|done].
  eapply permits_queue; try done. cbn [queue]. rewrite Eq, len_app, !len_cons. change (len (@nil Z)) with 0%Z. lia.
Qed.

Lemma drop_receiver_inv config count st given live phase source :
  Registry config count st given -> Permits config count st live phase ->
  Registry config count (drop_receiver st source) given /\ Permits config count (drop_receiver st source) live phase
  /\ ready_signal (drop_receiver st source) = ready_signal st.
Proof.
  intros HR HP. pose proof HP as [_ _ Ha Hn]. unfold drop_receiver. destruct (channels st !! source) as [c|] eqn:Ec; [|done].
  split; [apply registry_connections; [by rewrite length_insert | done]|]. split; [|done].
  pose proof (len_nonneg (queue c)). eapply permits_queue; try done; [lia|]. cbn [queue].
  change (len (@nil Z)) with 0%Z. lia.
Qed.

Lemma permits_failure config count st live phase failure : Permits config count st live phase ->
  Permits config count (with_failure st failure) live phase.
Proof. by intros []. Qed.

(** The acceptor gives up: it reports why, or not. *)
Lemma stopped_inv config count st lv gv phase d : Registry config count st gv ->
  Permits config count st lv phase -> pending phase = 0%Z ->
  Inv config count (mkSystem (report_acceptor_failure true st d) AcceptorStopped lv gv)
  /\ Inv config count (mkSystem st AcceptorStopped lv gv).
Proof.
  intros HR HP H0. assert (HP' : Permits config count st lv AcceptorStopped) by by apply (permits_phase _ _ _ _ _ _ HP).
  split; (split; cbn [coordinator acceptor live given]; [|try done|done]); [by apply registry_failure | by apply permits_failure | done].
Qed.

Lemma acceptor_inv config count s e : Inv config count s -> possible s e ->
  let '(st, phase) := acceptor_step (coordinator s) (acceptor s) e in
  Inv config count (mkSystem st phase (live s) (given s)).
Proof.
  intros [HR HP HS] Hp. destruct s as [st phase lv gv]; cbn [coordinator acceptor live given] in *.
  destruct phase as [| | |c senders|], e as [slot| |slot routes mw|[]|[]| |[[c'|]|]|sender res|src wk|src|ix];
    cbn [acceptor_step]; try by split.
  all: try by apply (stopped_inv _ _ _ _ _ _ [] HR HP).
  all: try by apply (stopped_inv _ _ _ _ _ _ _ HR HP).
  - split; [done | by apply (permits_phase _ _ _ _ _ _ HP) | done].
  - destruct (ready_signal st) eqn:Er; (split; [done | by apply (permits_phase _ _ _ _ _ _ HP) | done]).
  - destruct (ready_signal st) eqn:Er; [by apply (stopped_inv _ _ _ _ _ _ _ HR HP) | by split].
  - destruct (distribute_inv _ _ _ _ _ c' HR HP) as (outcome & Ho & HR' & HP' & Hs).
    destruct (distribute_connection true st c') as [st' r]; cbn in *. subst r. split; cbn; try done.
    intros _. rewrite Hs. by apply HS.
  - destruct Hp as (chan & Hch & _). pose proof (reservation_inv _ _ _ _ _ _ _ sender res HR HP ltac:(by exists chan)) as Hi.
    destruct (reservation st c senders sender res) as [st' outcome]. destruct Hi as (HR' & HP' & Hs).
    split; cbn; try done. intros _. rewrite Hs. by apply HS.
Qed.

Lemma system_step_inv config count s e : Inv config count s -> possible s e -> Inv config count (system_step s e).
Proof.
  intros HI Hp. pose proof (acceptor_inv _ _ _ _ HI Hp) as Hacc. pose proof HI as [HR HP HS].
  destruct e as [slot| |slot routes mw|r|r| |r|sender res|src wk|src|ix]; cbn [system_step]; cbn in Hp;
    try (by destruct (acceptor_step _ _ _)).
  - destruct (allocate_replica_at (coordinator s) slot) as [st r] eqn:E.
    destruct (allocate_at_registry _ _ _ _ _ _ _ Hp HR E) as (HR' & Hc & Ha & Hn & Hs).
    split; cbn; try done; [|by rewrite Hs]. destruct HP. split; rewrite ?Hc, ?Ha, ?Hn; done.
  - unfold allocate_replica. destruct (allocate_replica_at _ _) as [st r] eqn:E.
    assert (HRn : Registry config count (with_next_slot (coordinator s) (wrapping_add (next_slot (coordinator s)) 1)) (given s))
      by (apply registry_next_slot; [apply wrapping_add_nonneg | done]).
    destruct (allocate_at_registry _ _ _ _ _ _ _ (reg_next _ _ _ _ HR) HRn E) as (HR' & Hc & Ha & Hn & Hs).
    split; cbn; try done; [|by rewrite Hs]. destruct HP. split; rewrite ?Hc, ?Ha, ?Hn; done.
  - destruct (register_no_panic _ _ _ _ slot routes mw HR Hp) as [_ [E|[E Hcan]]]; [by rewrite E; destruct s|].
    rewrite E. split; cbn [coordinator acceptor live given]; [by apply register_slot_registry | by eapply register_slot_permits |].
    intros Hsv. apply HS in Hsv. destruct (given_lookup _ _ _ _ _ HR Hp) as (rep & Er & _).
    unfold register_slot. rewrite Er. cbn. by rewrite Hsv.
  - pose proof (receive_inv _ _ _ _ _ _ src wk HR HP) as Hr. destruct (receive _ _ _) as [st r].
    destruct Hr as (? & ? & Hs). split; cbn; try done. by rewrite Hs.
  - destruct (drop_receiver_inv _ _ _ _ _ _ src HR HP) as (? & ? & Hs). split; cbn; try done. by rewrite Hs.
  - split; cbn [coordinator acceptor live given]; [by apply registry_connections| |done].
    pose proof HP as [_ _ Ha Hn]. eapply permits_same; try done; [lia|].
    destruct (lookup_lt_is_Some_2 (live s) ix Hp) as [c Hc].
    pose proof (length_delete (live s) ix ltac:(by eexists)) as Hl. unfold len. rewrite Hl. lia.
Qed.

Lemma bind_inv config count os st : (0 <= count <= usize_max)%Z -> bind config count os = Ok st ->
  Inv config count (mkSystem st Starting [] []).
Proof.
  intros Hc Hb. unfold bind in Hb. inv_ok Hb. bool_prop.
  destruct (validate config) as [[]|] eqn:Ev; [|done]. apply validate_ok in Ev as [[] _ _].
  subst st. split; [split|split|]; cbn [coordinator acceptor live given co_config slots canonical_manifest channels
    local_request_limit next_slot ready_signal connection_concurrency next_connection]; try done.
  - unfold len. rewrite length_replicate. lia.
  - intros i slot Hi. apply lookup_replicate in Hi as [-> Hi].
    split; cbn; try done. by rewrite elem_of_nil.
  - intros i j a b ch Ha Hb' Hca. apply lookup_replicate in Ha as [-> _]. done.
  - split; [constructor|]. intros slot Hs. by apply not_elem_of_nil in Hs.
  - destruct (Z.to_nat count) eqn:Ez; [lia | done].
  - unfold queued, len; cbn. lia.
  - lia.
Qed.

Lemma reachable_inv config count s : Reachable config count s -> Inv config count s.
Proof. induction 1; [by eapply bind_inv | by apply system_step_inv]. Qed.

(** ** Properties *)

(** C24: replicas of one port agree. In every reachable state each slot belongs to at most one replica, a replica
    that owns its slot registers without a panic, every registered replica has the same route and middleware
    manifest, and the listener accepts sockets only once every slot has registered. *)
Theorem replicas_agree config count s :
  Reachable config count s ->
  NoDup (given s) /\ (forall slot, slot ∈ given s -> (0 <= slot < count)%Z)
  /\ (forall slot routes middleware, slot ∈ given s ->
       exists r, (register (coordinator s) slot routes middleware).2 = Returned r)
  /\ (forall a b m n, a ∈ slots (coordinator s) -> b ∈ slots (coordinator s) ->
       manifest a = Some m -> manifest b = Some n -> m = n)
  /\ (acceptor s = Accepting -> forall slot, slot ∈ slots (coordinator s) ->
       allocated slot = true /\ is_Some (manifest slot)).
Proof.
  intros Hr. apply reachable_inv in Hr as [HR _ HS]. pose proof HR as [_ _ _ Hs _ [Hg1 Hg2] _ Hready].
  split; [done|]. split; [done|]. split; [intros; by eapply register_no_panic|]. split.
  - intros a b m n Ha Hb Hm Hn. apply list_elem_of_lookup in Ha as [i Hi], Hb as [j Hj].
    apply (Hs _ _ Hi) in Hm. apply (Hs _ _ Hj) in Hn. congruence.
  - intros Hacc slot Hslot. rewrite Hacc in HS. specialize (HS eq_refl). rewrite Hready in HS.
    assert (Hm : is_Some (manifest slot)).
    { unfold ready in HS. rewrite forallb_forall in HS. specialize (HS slot ltac:(by apply list_elem_of_In)).
      by destruct (manifest slot). }
    apply list_elem_of_lookup in Hslot as [i Hi]. split; [|done]. by eapply slot_owner; [apply (Hs _ _ Hi)|].
Qed.

(** C21: the replicas of one port share one connection budget: in every reachable state the available permits, the
    queued connections, the live ones and the one being placed add up to the configured maximum. *)
Theorem connection_budget config count s :
  Reachable config count s ->
  (connection_concurrency (coordinator s) + queued (channels (coordinator s)) + len (live s) + pending (acceptor s)
   = max_connections config)%Z
  /\ (len (live s) <= max_connections config)%Z.
Proof.
  intros Hr. apply reachable_inv in Hr as [_ [_ Hp Ha _] _]. split; [done|].
  pose proof (queued_nonneg (channels (coordinator s))). assert (0 <= pending (acceptor s))%Z by by destruct (acceptor s).
  lia.
Qed.

(** Pigeonhole: distinct channels that are all full hold as many connections as there are channels, times the
    capacity. *)
Lemma full_channels chs cap (l : list nat) : NoDup l -> (0 <= cap)%Z ->
  Forall (fun ch => exists c, chs !! ch = Some c /\ (cap <= len (queue c))%Z) l ->
  (cap * len l <= queued chs)%Z.
Proof.
  intros Hnd Hcap Hf. revert chs Hf; induction Hnd as [|ch l Hin Hnd IH]; intros chs Hf.
  - pose proof (queued_nonneg chs). unfold len; cbn. lia.
  - apply Forall_cons in Hf as [(c & Hc & Hlen) Hf]. rewrite len_cons.
    pose proof (queued_insert chs ch c (mkChannel 0 [] true) Hc) as Hq. cbn [queue] in Hq.
    change (len (@nil Z)) with 0%Z in Hq.
    assert (cap * len l <= queued (<[ch := mkChannel 0 [] true]> chs))%Z; [|lia]. apply IH.
    apply Forall_forall. intros x Hx. rewrite Forall_forall in Hf. destruct (Hf x Hx) as (c' & Hc' & Hl').
    exists c'. split; [|done]. rewrite list_lookup_insert_ne; [done|]. intros ->. done.
Qed.

(** The loop delivers to the first slot with room. *)
Lemma offer_first slots chs c order waiting :
  (forall i, i ∈ order -> exists rep ch chan, slots !! i = Some rep /\ connections rep = Some ch
     /\ chs !! ch = Some chan /\ receiver_alive chan = true) ->
  (exists i rep ch chan, i ∈ order /\ slots !! i = Some rep /\ connections rep = Some ch /\ chs !! ch = Some chan
     /\ (len (queue chan) < capacity chan)%Z) ->
  exists k i rep ch chan, order !! k = Some i /\ slots !! i = Some rep /\ connections rep = Some ch
    /\ chs !! ch = Some chan /\ (len (queue chan) < capacity chan)%Z
    /\ offer slots chs c order waiting
       = Returned (<[ch := mkChannel (capacity chan) (queue chan ++ [c]) true]> chs, Delivered ch)
    /\ forall j i', j < k -> order !! j = Some i' -> exists rep' ch' chan', slots !! i' = Some rep'
         /\ connections rep' = Some ch' /\ chs !! ch' = Some chan' /\ (capacity chan' <= len (queue chan'))%Z.
Proof.
  revert waiting; induction order as [|i order IH]; intros waiting Hopen (i0 & rep0 & ch0 & chan0 & Hin & H0);
    [by apply not_elem_of_nil in Hin|].
  destruct (Hopen i ltac:(left)) as (rep & ch & chan & Hr & Hc & Hch & Hal).
  destruct (decide (capacity chan <= len (queue chan))%Z) as [Hfull|Hroom].
  - destruct (IH (waiting ++ [ch])) as (k & i1 & rep1 & ch1 & chan1 & Hk & H1 & H2 & H3 & H4 & Ho & Hb).
    + intros j Hj. apply Hopen. by right.
    + exists i0, rep0, ch0, chan0. split; [|done]. apply elem_of_cons in Hin as [->|?]; [|done].
      destruct H0 as (Ha & Hb & Hd & He). simplify_eq. lia.
    + exists (S k), i1, rep1, ch1, chan1. cbn [lookup list_lookup]. do 5 (split; [done|]). split.
      * cbn [offer]. rewrite Hr. cbn [expect]. rewrite Hc, Hch. unfold try_send. rewrite Hal. cbn [negb].
        by rewrite (proj2 (Z.leb_le _ _) Hfull).
      * intros [|j] i' Hj Hi'; cbn in Hi'; [|eapply (Hb j); [lia | done]]. injection Hi' as <-. by exists rep, ch, chan.
  - exists 0, i, rep, ch, chan. split; [done|]. do 4 (split; [done || lia|]). split; [|intros; lia].
    cbn [offer]. rewrite Hr. cbn [expect]. rewrite Hc, Hch. unfold try_send. rewrite Hal. cbn [negb].
    by rewrite (proj2 (Z.leb_gt _ _)) by lia.
Qed.

Definition slot_channel_of (st : Coordinator) (i : nat) : nat := default 0 (slots st !! i ≫= connections).

Definition slot_full (st : Coordinator) (i : nat) : bool :=
  match slots st !! i ≫= connections with
  | Some ch => match channels st !! ch with Some chan => (capacity chan <=? len (queue chan))%Z | None => false end
  | None => false
  end.

Lemma slot_full_spec st i : slot_full st i = true <-> exists rep ch chan, slots st !! i = Some rep
  /\ connections rep = Some ch /\ channels st !! ch = Some chan /\ (capacity chan <= len (queue chan))%Z.
Proof.
  unfold slot_full. split.
  - destruct (slots st !! i) as [rep|]; [|done]. cbn. destruct (connections rep) as [ch|] eqn:Ec; [|done].
    destruct (channels st !! ch) as [chan|] eqn:Eh; [|done]. intros Hl. apply Z.leb_le in Hl. by exists rep, ch, chan.
  - intros (rep & ch & chan & -> & Hc & Hh & Hl). cbn. rewrite Hc, Hh. by apply Z.leb_le.
Qed.

(** Every slot has a registered replica that still receives. *)
Definition Connected (st : Coordinator) : Prop :=
  forall i, i < length (slots st) -> exists rep ch chan, slots st !! i = Some rep /\ connections rep = Some ch
    /\ channels st !! ch = Some chan /\ receiver_alive chan = true.

(** If every slot were full, the queues would hold more than the budget. *)
Lemma all_full_queued config count st given live phase : Registry config count st given ->
  Permits config count st live phase -> Connected st -> (forall i, i < length (slots st) -> slot_full st i = true) ->
  (Z.max (div_ceil (max_connections config) count) 1 * count <= queued (channels st))%Z.
Proof.
  intros [_ [Hn Hn1] _ _ Hd _ _ _] [Hcap _ _ _] Hopen Hf.
  assert (Hlen : len (slot_channel_of st <$> seq 0 (length (slots st))) = count).
  { unfold len in *. by rewrite length_fmap, length_seq. }
  rewrite <- Hlen at 2. apply full_channels; [| lia |].
  - apply NoDup_fmap_2_strong; [|apply NoDup_seq]. intros i j Hi Hj Hij. apply elem_of_seq in Hi, Hj.
    destruct (Hopen i ltac:(lia)) as (ri & ci & ? & Hri & Hci & _), (Hopen j ltac:(lia)) as (rj & cj & ? & Hrj & Hcj & _).
    unfold slot_channel_of in Hij. rewrite Hri, Hrj in Hij. cbn in Hij. rewrite Hci, Hcj in Hij. cbn in Hij. subst cj.
    by eapply Hd.
  - rewrite Forall_fmap. apply Forall_forall. intros i Hi. apply elem_of_seq in Hi. cbn.
    destruct (proj1 (slot_full_spec st i) (Hf i ltac:(lia))) as (rep & ch & chan & Hr & Hc & Hh & Hl).
    exists chan. unfold slot_channel_of. rewrite Hr. cbn. rewrite Hc. cbn. split; [done|]. by rewrite <- (Hcap _ _ Hh).
Qed.

(** With every replica connected and a permit available, some queue has room. *)
Lemma room_exists config count st given live phase : Registry config count st given ->
  Permits config count st live phase -> (0 < connection_concurrency st)%Z -> Connected st ->
  exists i, i < length (slots st) /\ slot_full st i = false.
Proof.
  intros HR HP Hav Hopen. pose proof HR as [_ [Hn Hn1] _ _ _ _ _ _]. pose proof HP as [_ Hcon _ _].
  pose proof (queued_nonneg (channels st)). pose proof (len_nonneg live).
  assert (0 <= pending phase)%Z by by destruct phase.
  destruct (forallb (slot_full st) (seq 0 (length (slots st)))) eqn:Ef.
  - exfalso. rewrite forallb_forall in Ef.
    pose proof (all_full_queued _ _ _ _ _ _ HR HP Hopen ltac:(intros i Hi; apply Ef, in_seq; lia)).
    pose proof (div_ceil_bounds (max_connections config) count ltac:(lia) ltac:(lia)). nia.
  - destruct (existsb (fun i => negb (slot_full st i)) (seq 0 (length (slots st)))) eqn:Ex.
    + apply existsb_exists in Ex as (i & Hi & Hnf). apply in_seq in Hi. exists i. split; [lia|]. by apply negb_true_iff.
    + exfalso. assert (forallb (slot_full st) (seq 0 (length (slots st))) = true); [|congruence].
      apply forallb_forall. intros i Hi. apply not_false_iff_true. intros Hnf.
      assert (existsb (fun i => negb (slot_full st i)) (seq 0 (length (slots st))) = true); [|congruence].
      apply existsb_exists. exists i. by rewrite Hnf.
Qed.

(** C20: while every replica is connected, an accepted socket never waits and is never dropped for lack of room:
    whenever a permit is available it goes at once to the first slot, in round-robin order from the connection
    counter, whose queue has room. (The queues, of capacity ⌈max/n⌉, hold every connection the budget admits.) *)
Theorem distribution_immediate config count s connection :
  Reachable config count s -> (0 < connection_concurrency (coordinator s))%Z -> Connected (coordinator s) ->
  let st := coordinator s in
  let slot k := Z.to_nat ((next_connection st + Z.of_nat k) mod count) in
  exists k rep ch chan, (Z.of_nat k < count)%Z /\ slots st !! slot k = Some rep /\ connections rep = Some ch
    /\ channels st !! ch = Some chan /\ (forall j, j < k -> slot_full st (slot j) = true)
    /\ distribute_connection true st connection
       = (with_connections st (wrapping_add (next_connection st) 1) (connection_concurrency st - 1)
            (<[ch := mkChannel (capacity chan) (queue chan ++ [connection]) true]> (channels st)),
          Returned (Delivered ch)).
Proof.
  intros Hr Hav Hopen st slot. apply reachable_inv in Hr as [HR HP _]. fold st in HR, HP, Hav, Hopen.
  destruct (room_exists _ _ _ _ _ _ HR HP Hav Hopen) as (i & Hi & Hroom).
  pose proof HR as [_ [Hn Hn1] _ _ _ _ _ _].
  assert (Hord : forall k i, slot_order st !! k = Some i <-> (Z.of_nat k < count)%Z /\ i = slot k).
  { intros k j. rewrite slot_order_lookup, Hn. unfold len in Hn. case_decide; split; try done; try lia.
    - intros [= <-]. split; [lia | done].
    - by intros [_ ->]. }
  assert (Hall : forall j, j ∈ slot_order st <-> j < length (slots st)).
  { intros j. split.
    - intros Hj. pose proof (slot_order_range st ltac:(lia)) as Hrng. rewrite Forall_forall in Hrng. by apply Hrng.
    - intros Hj. apply list_elem_of_lookup. exists (Z.to_nat ((Z.of_nat j - next_connection st) mod count)).
      pose proof (Z.mod_pos_bound (Z.of_nat j - next_connection st) count ltac:(lia)).
      apply Hord. split; [lia|]. unfold slot. rewrite Z2Nat.id by lia.
      rewrite Z.add_mod_idemp_r by lia. unfold len in Hn.
      replace (next_connection st + (Z.of_nat j - next_connection st))%Z with (Z.of_nat j) by lia.
      rewrite Z.mod_small by lia. lia. }
  destruct (offer_first (slots st) (channels st) connection (slot_order st) []) as
    (k & j & rep & ch & chan & Hk & H1 & H2 & H3 & H4 & Ho & Hb).
  - intros j Hj. apply Hopen. by apply Hall.
  - destruct (Hopen i Hi) as (rep & ch & chan & Hrep & Hc & Hch & _). exists i, rep, ch, chan.
    split; [by apply Hall|]. do 3 (split; [done|]). apply Z.nle_gt. intros Hle.
    assert (slot_full st i = true); [|congruence]. apply slot_full_spec. by exists rep, ch, chan.
  - apply Hord in Hk as [Hk ->]. exists k, rep, ch, chan. do 4 (split; [done|]). split.
    + intros j Hj. apply slot_full_spec. apply (Hb j); [done|]. apply Hord. split; [lia | done].
    + rewrite distribute_unfold by lia. by rewrite Ho.
Qed.

End system.

(** ** Witnesses: two replicas that register the same manifest *)

#[local] Existing Instance ref_http.

Definition bind_ok : BindCalls := mkBindCalls (Ok ()) (Ok (V4 [127; 0; 0; 1]%Z 8080)) (Ok ()) (Ok ()).
Definition sample_manifest : WebIngressRouteManifest := new [mkRoute (lit "GET") (lit "/orders") (lit "orders.list")].
Definition sample_start : System :=
  match bind default_config 2 bind_ok with
  | Ok st => mkSystem st Starting [] []
  | Err _ => mkSystem (mkCoordinator default_config (V4 [] 0) [] None 0 0 0 0 0 0 None false []) AcceptorStopped [] []
  end.
Definition sample_events : list Event :=
  [Allocate; Register 0 sample_manifest []; AllocateAt 1; Register 1 sample_manifest []; RuntimeBuilt (Ok ());
   ReadyChecked (Ok ()); SocketAccepted (Ok (Ok 41%Z)); SocketAccepted (Ok (Ok 42%Z)); Received 1 QueueReady].
Definition sample_system : System := foldl system_step sample_start sample_events.

Example sample_system_state :
  (acceptor sample_system, live sample_system, given sample_system, queue <$> channels (coordinator sample_system))
  = (Accepting, [42%Z], [0%Z; 1%Z], [[41%Z]; []]).
Proof. vm_compute. reflexivity. Qed.

Lemma sample_system_reachable : Reachable default_config 2 sample_system.
Proof.
  assert (H0 : Reachable default_config 2 sample_start).
  { apply (reachable_bind default_config 2 bind_ok); [unfold usize_max; lia | reflexivity]. }
  unfold sample_system, sample_events. cbn [foldl].
  repeat (apply reachable_step); try exact H0; cbn [possible]; try exact I; try lia.
  - vm_compute. left.
  - vm_compute. right; left.
  - eexists. split; [vm_compute; reflexivity | reflexivity].
Qed.

Lemma replicas_agree_witness :
  NoDup (given sample_system) /\ (forall slot, slot ∈ given sample_system -> (0 <= slot < 2)%Z)
  /\ (forall slot routes middleware, slot ∈ given sample_system ->
       exists r, (register (coordinator sample_system) slot routes middleware).2 = Returned r)
  /\ (forall a b m n, a ∈ slots (coordinator sample_system) -> b ∈ slots (coordinator sample_system) ->
       manifest a = Some m -> manifest b = Some n -> m = n)
  /\ (acceptor sample_system = Accepting -> forall slot, slot ∈ slots (coordinator sample_system) ->
       allocated slot = true /\ is_Some (manifest slot)).
Proof. apply (replicas_agree default_config 2 sample_system). apply sample_system_reachable. Defined.

Lemma connection_budget_witness :
  (connection_concurrency (coordinator sample_system) + queued (channels (coordinator sample_system))
   + len (live sample_system) + pending (acceptor sample_system) = max_connections default_config)%Z
  /\ (len (live sample_system) <= max_connections default_config)%Z.
Proof. apply (connection_budget default_config 2 sample_system). apply sample_system_reachable. Defined.

Lemma sample_connected : Connected (coordinator sample_system).
Proof.
  intros [|[|i]] Hi; [| |exfalso; vm_compute in Hi; lia]; do 3 eexists; split; try (vm_compute; reflexivity);
    (split; [vm_compute; reflexivity|]); (split; [vm_compute; reflexivity | reflexivity]).
Qed.

Lemma distribution_immediate_witness :
  let st := coordinator sample_system in
  let slot k := Z.to_nat ((next_connection st + Z.of_nat k) mod 2) in
  exists k rep ch chan, (Z.of_nat k < 2)%Z /\ slots st !! slot k = Some rep /\ connections rep = Some ch
    /\ channels st !! ch = Some chan /\ (forall j, j < k -> slot_full st (slot j) = true)
    /\ distribute_connection true st 43
       = (with_connections st (wrapping_add (next_connection st) 1) (connection_concurrency st - 1)
            (<[ch := mkChannel (capacity chan) (queue chan ++ [43%Z]) true]> (channels st)),
          Returned (Delivered ch)).
Proof.
  apply (distribution_immediate default_config 2 sample_system 43);
    [apply sample_system_reachable | vm_compute; reflexivity | apply sample_connected].
Defined.

End Replication.
