(* ===== verification/Event.v ===== *)
(** * The event host ([lenso-web-ingress-plugin/src/event.rs])

    The same ingress without sockets: a host hands over buffered requests and receives normalized responses.
    The factory's shared cells are one record; readiness, cancellation and the semaphore's queue are read
    where the code reads them, so they are arguments. *)
From S2P Require Import Prelude RustStd HttpCrate RefHttp Kernel Config SessionCookie.
From S2P Require Import WebSocket ResponseStream Handshake Request Response Middleware Manifest Routing Dispatch Server.

Module Event.
Import Config SessionCookie Request Response Middleware Routing Dispatch.

Inductive WebIngressEventBody :=
| EventBuffered (bytes : str)
| EventStreaming (stream : ResponseStream.WebIngressResponseStream)
| EventWebSocket (session : WebSocket.WebSocketSession).

Section event.
Context `{HttpCrate} `{Matchit} `{Digests} {X : Type}.

Record EventResponse := mkEventResponse { ev_status : Z; ev_headers : HeaderMap; ev_body : WebIngressEventBody }.

Record EventState := mkEventState {
  config : WebIngressConfig;
  routes : RouteTable X;
  concurrency : Z;
  middleware : list (WebIngressMiddleware X);
  next_request_id : RequestIdSequence;
}.

Record EventFactory := mkFactory {
  instantiated : bool;
  state : option EventState;
  factory_middleware : list (WebIngressMiddleware X);
}.

Definition new_factory : EventFactory := mkFactory false None [].
Definition with_middleware (self : EventFactory) (layer : WebIngressMiddleware X) : EventFactory :=
  mkFactory (instantiated self) (state self) (factory_middleware self ++ [layer]).
Definition set_state (st : option EventState) (self : EventFactory) : EventFactory :=
  mkFactory (instantiated self) st (factory_middleware self).
Definition route_manifest (self : EventFactory) : option Manifest.WebIngressRouteManifest :=
  (fun st => manifest (routes st)) <$> state self.

(** One request of the host, and what its awaits and signals turn out to be. *)
Record EventCall := mkEventCall {
  e_parts : Parts;
  e_body : str;
  e_open : bool;
  e_accepting : bool;            (* before a permit is taken *)
  e_cancelled : bool;
  e_wait : option bool;          (* how the wait for a permit ends; [None]: it has not *)
  e_accepting_later : bool;      (* after a permit is taken *)
  e_cancel_first : bool;
  e_cancellation : Z;
  e_disconnected : Z;
}.

(** [config.session_cookie().map(SessionCookiePolicy::from)]. *)
Definition session_policy (config : WebIngressConfig) : Outcome (option SessionCookiePolicy) :=
  match session_cookie config with
  | Some c => let^ policy := policy_from c in Returned (Some policy)
  | None => Returned None
  end.

(** The [work] future: the permits left, whether [body_permit] holds one, and the answer. *)
Definition event_work (st : EventState) (c : EventCall) (policy : option SessionCookiePolicy) (head_len : Z) (parts : Parts)
    (w : World X) : Z * bool * World X * Outcome IngressResponse :=
  let available := concurrency st in
  if negb (e_open c) || negb (e_accepting c) then (available, false, w, Returned unavailable) else
  if (max_request_head_bytes (config st) <? head_len)%Z
  then (available, false, w,
        Returned (json REQUEST_HEADER_FIELDS_TOO_LARGE (error_json "request_header_fields_too_large"))) else
  if e_cancelled c then (available, false, w, Returned unavailable) else
  let '(available, acquired) := Service.acquire_request_permit available false (e_wait c) in
  match acquired with
  | Panicked => (available, false, w, Panicked)
  | Waiting => (available, false, w, Waiting)
  | Returned false => (available, false, w, Returned unavailable)
  | Returned true =>
      let w := emit [PermitAcquired] w in
      if negb (e_accepting_later c) then (available, true, w, Returned unavailable) else
      if (max_request_body_bytes (config st) <? len (e_body c))%Z
         || match Service.content_length (part_headers parts) with
            | Some length => (max_request_body_bytes (config st) <? length)%Z
            | None => false
            end
      then (available, true, w, Returned payload_too_large) else
      let '(w, r) := dispatch_buffered parts (e_body c) (e_cancellation c) (e_disconnected c) policy (routes st)
                       (middleware st) (e_cancel_first c) w in
      (available, true, w, r)
  end.

(** The normalized body of the host's response; [permit] is [body_permit]. *)
Definition event_body (b : IngressBody) (permit : bool) : WebIngressEventBody * bool * list Effect :=
  match b with
  | WebSocketBody upgrade =>
      let '(session, es) := WebSocket.retain_permit permit (WebSocket.session upgrade) in
      (EventWebSocket session, false, es)
  | Buffered bytes => (EventBuffered bytes, permit, [])
  | Streaming stream =>
      let '(stream, es) := ResponseStream.retain_permit permit (ResponseStream.new stream) in
      (EventStreaming stream, false, es)
  end.

(** The end of [handle_response]; a permit left in [body_permit] is dropped with it. *)
Definition finish_event (response : IngressResponse) (method : Method) (request_id : HeaderValue) (available : Z)
    (permit : bool) (w : World X) : Z * World X * EventResponse :=
  let '(response, es) := normalize_body response method in
  let '(b, kept, es') := event_body (body response) permit in
  ((if kept then available + 1 else available)%Z,
   emit (es ++ es' ++ (if kept then [PermitReleased] else [])) w,
   mkEventResponse (status response) (with_transport_headers (headers response) request_id) b).

(** Losing the race against the App's cancellation only cancels the caller's token, which [event_work] and the
    dispatch read where the code reads it ([e_cancelled], [e_wait], [e_cancel_first]). *)
Definition handle_response (self : EventFactory) (c : EventCall) (w : World X) :
    EventFactory * World X * Outcome (Result RuntimeFailure EventResponse) :=
  match state self with
  | None => (self, w, Returned (Err (plugin_failure (lit "event ingress is not active"))))
  | Some st =>
  match session_policy (config st) with
  | Panicked => (self, w, Panicked)
  | Waiting => (self, w, Waiting)
  | Returned policy =>
  let parts := e_parts c in
  let hs := mark_sensitive_headers (part_headers parts) policy in
  let head_len := canonical_request_head_len
    (mkRequest (part_method parts) (part_uri parts) (part_version parts) hs (e_body c)) in
  match replace_request_id hs (next_request_id st) with
  | Panicked => (self, w, Panicked)
  | Waiting => (self, w, Waiting)
  | Returned (request_id, hs, ids) =>
      let parts := mkParts (part_method parts) (part_uri parts) (part_version parts) hs in
      let keep available := set_state (Some (mkEventState (config st) (routes st) available (middleware st) ids)) self in
      match event_work st c policy head_len parts w with
      | (available, permit, w, Panicked) => (* unwinding drops [body_permit] *)
          (keep (if permit then available + 1 else available)%Z, emit (if permit then [PermitReleased] else []) w, Panicked)
      | (available, _, w, Waiting) => (keep available, w, Waiting)
      | (available, permit, w, Returned response) =>
          let '(available, w, r) := finish_event response (part_method parts) request_id available permit w in
          (keep available, w, Returned (Ok r))
      end
  end end end.

(** Dropping a response that is not buffered. *)
Definition drop_event_body (b : WebIngressEventBody) : list Effect :=
  match b with
  | EventBuffered _ => []
  | EventStreaming stream => ResponseStream.drop_stream stream
  | EventWebSocket session => WebSocket.drop_session session
  end.

(** [handle]: the buffered entry point. *)
Definition handle (self : EventFactory) (c : EventCall) (w : World X) :
    EventFactory * World X * Outcome (Result RuntimeFailure (Z * HeaderMap * str)) :=
  match handle_response self c w with
  | (self, w, Panicked) => (self, w, Panicked)
  | (self, w, Waiting) => (self, w, Waiting)
  | (self, w, Returned (Err e)) => (self, w, Returned (Err e))
  | (self, w, Returned (Ok r)) =>
      match ev_body r with
      | EventBuffered bytes => (self, w, Returned (Ok (ev_status r, ev_headers r, bytes)))
      | b => (self, emit (drop_event_body b) w,
              Returned (Err (plugin_failure (lit "streaming response requires handle_response"))))
      end
  end.

(** ** Life cycle *)

(** [instantiate]: [parsed] is what [serde_json] makes of the configuration; the result is the lifecycle's
    configuration. *)
Definition instantiate (self : EventFactory) (parsed : Result str WebIngressConfig) :
    EventFactory * Result RuntimeFailure WebIngressConfig :=
  let checked :=
    let? config := map_err (fun error => InvalidResolvedPlan (lit "Web Ingress configuration is invalid: " ++ error)) parsed in
    let? _ := map_err InvalidResolvedPlan (Config.validate config) in
    let? _ := map_err InvalidResolvedPlan (Middleware.validate (factory_middleware self)) in
    Ok config in
  match checked with
  | Err e => (self, Err e)
  | Ok config =>
      let self' := mkFactory true (state self) (factory_middleware self) in
      if instantiated self then (self', Err (plugin_failure (lit "create a fresh WebIngressEventFactory for each event App")))
      else (self', Ok config)
  end.

(** What [context.dependencies()] provides: connecting the three ports, and the bound clients. *)
Record Dependencies := mkDependencies {
  connect_websockets : Result RuntimeFailure (list (WebSocketEndpointClient X));
  connect_endpoints : Result RuntimeFailure (list (EndpointClient X));
  connect_streams : Result RuntimeFailure (list (StreamEndpointClient X));
  invocation_context_after : Duration -> X -> X * Result RuntimeFailure unit;
}.

Definition activate (self : EventFactory) (cfg : WebIngressConfig) (deps : Dependencies) (w : World X) :
    EventFactory * World X * Result RuntimeFailure unit :=
  match connect_websockets deps, connect_endpoints deps, connect_streams deps with
  | Err e, _, _ | Ok _, Err e, _ | Ok _, Ok _, Err e => (self, w, Err e)
  | Ok websockets, Ok endpoints, Ok streams =>
      match resolve endpoints streams websockets (websocket cfg) (invocation_context_after deps (Config.request_timeout cfg)) w with
      | (w, Err e) => (self, w, Err e)
      | (w, Ok routes) =>
          (set_state (Some (mkEventState cfg routes (max_concurrent_requests cfg) (factory_middleware self) (Local 0))) self,
           w, Ok ())
      end
  end.

Definition deactivate (self : EventFactory) : EventFactory := set_state None self.

Context `{!HttpLaws} `{!MatchitLaws} `{!DigestLaws}.

(** ** Lemmas *)

Lemma session_policy_total cfg : Config.Valid cfg -> exists p, session_policy cfg = Returned p.
Proof.
  intros [_ _ Hs]. unfold session_policy. destruct (session_cookie cfg) as [sc|]; [|by eexists].
  destruct (Hs _ eq_refl) as [_ _ _ _ (h & Hh & _)]. unfold policy_from. rewrite Hh. cbn. by eexists.
Qed.

(** An answer given before a permit is taken. *)
#[local] Ltac early_answer :=
  intros [= <- <- <- <-]; split; [done|]; split; [done|]; intros _ ? [= <-]; by eexists.

(** A body that is still producing holds the permit. *)
Definition body_permit (b : WebIngressEventBody) : option bool :=
  match b with
  | EventBuffered _ => None
  | EventStreaming s => Some (ResponseStream.permit s)
  | EventWebSocket s => Some (WebSocket.permit s)
  end.

(** A body gives its permit back, however it is read: once it is over, at the latest when it is dropped, and never twice (permits
    it might be handed again are counted). *)
Definition GivesBack (b : WebIngressEventBody) : Prop :=
  match b with
  | EventBuffered _ => True
  | EventStreaming s => forall es s', ResponseStream.Reachable s es s' ->
      (ResponseStream.is_closed s' = true -> count_effect PermitReleased es = S (count_effect PermitAcquired es))
      /\ count_effect PermitReleased (es ++ drop_event_body (EventStreaming s')) = S (count_effect PermitAcquired es)
  | EventWebSocket s => forall sent received es s', WebSocket.Reachable s sent received es s' ->
      (WebSocket.cancelled s' = true \/ WebSocket.terminal s' = true ->
         count_effect PermitReleased es = S (count_effect PermitAcquired es))
      /\ count_effect PermitReleased (es ++ drop_event_body (EventWebSocket s')) = S (count_effect PermitAcquired es)
  end.

Lemma event_body_gives_back b b' kept es : event_body b true = (b', kept, es) ->
  (forall u, b = WebSocketBody u -> exists st offered ml sl es0, WebSocket.accept st offered ml sl = Some (Ok (WebSocket.session u), es0)) ->
  GivesBack b'.
Proof.
  destruct b as [bytes|stream|u]; cbn; intros [= <- <- <-] Hu; [done | | ].
  - intros es s'. by apply ResponseStream.stream_retained_returned.
  - destruct (Hu u eq_refl) as (st & offered & ml & sl & es0 & Ha). intros sent received es s'. by eapply WebSocket.retained_returned.
Qed.

(** The sessions of the answers were accepted. *)
Lemma event_work_accepted st c policy head_len parts w available permit w' resp u :
  event_work st c policy head_len parts w = (available, permit, w', Returned resp) -> body resp = WebSocketBody u ->
  exists st offered ml sl es0, WebSocket.accept st offered ml sl = Some (Ok (WebSocket.session u), es0).
Proof.
  unfold event_work. intros Hw Hb. destruct (_ || negb _); [by injection Hw as <- <- <- <-|].
  destruct (_ <? _)%Z; [by injection Hw as <- <- <- <-|]. destruct (e_cancelled c); [by injection Hw as <- <- <- <-|].
  destruct (Service.acquire_request_permit _ _ _) as [a [[]| |]]; try done; [|by injection Hw as <- <- <- <-].
  destruct (negb _); [by injection Hw as <- <- <- <-|]. destruct (_ || _); [by injection Hw as <- <- <- <-|].
  destruct (dispatch_buffered _ _ _ _ _ _ _ _ _) as [w1 r1] eqn:Ed. injection Hw as <- <- <- ->.
  destruct (dispatch_upgraded _ _ _ _ _ _ _ _ _ _ _ _ Ed Hb) as [policy' h _ _ _ _ _ _ [] _ _]. eauto 8.
Qed.

Lemma event_work_permits st c policy head_len parts w available permit w' r :
  event_work st c policy head_len parts w = (available, permit, w', r) ->
  (r = Panicked -> uri_path (part_uri parts) = [] /\ part_method parts <> CONNECT)
  /\ (if permit then Service.Restored (concurrency st) (e_wait c) (available + 1) else available = concurrency st)
  /\ (permit = false -> forall resp, r = Returned resp -> exists bytes, body resp = Buffered bytes).
Proof.
  unfold event_work.
  destruct (negb (e_open c) || negb (e_accepting c)); [early_answer|].
  destruct (_ <? _)%Z; [early_answer|].
  destruct (e_cancelled c); [early_answer|].
  destruct (Service.acquire_request_permit (concurrency st) false (e_wait c)) as [a r0] eqn:Ea.
  apply Service.acquire_spec in Ea as [Hnp Ha].
  destruct r0 as [[]| |]; [|early_answer|done|by intros [= <- <- <- <-]].
  destruct (negb (e_accepting_later c)); [by intros [= <- <- <- <-]|].
  destruct (_ || _); [by intros [= <- <- <- <-]|].
  pose proof (dispatch_buffered_panics (routes st) parts (e_body c) (e_cancellation c) (e_disconnected c) policy
    (middleware st) (e_cancel_first c) (emit [PermitAcquired] w)) as Hd.
  destruct (dispatch_buffered _ _ _ _ _ _ _ _ _) as [w1 r1]. by intros [= <- <- <- <-].
Qed.

(** The end of a request: the permit goes to the body or back. *)
Lemma finish_event_permits response m hv available permit w available' w' r :
  finish_event response m hv available permit w = (available', w', r) ->
  match body_permit (ev_body r) with
  | Some p => p = permit /\ available' = available
  | None => available' = (if permit then available + 1 else available)%Z
  end.
Proof.
  unfold finish_event. destruct (normalize_body response m) as [resp es]. unfold event_body.
  destruct (body resp) as [bytes|stream|upgrade]; cbn; by intros [= <- <- <-].
Qed.

(** ** Properties *)

(** C33: the event host conserves its permits. An active factory with a valid configuration answers every request that it does not still
    wait for, or panics, which it does only for a request whose target has no path and that is not a [CONNECT]. The answer carries exactly one assigned identifier and one [nosniff]
    directive. A panic and a buffered answer have returned the permit of their request; a streaming or WebSocket answer holds exactly
    one, which comes back exactly once however its body is read and cancelled: as soon as the body is over, and at the latest when
    it is dropped. *)
Theorem event_permits self st c w :
  state self = Some st -> Config.Valid (config st) -> (0 <= id_value (next_request_id st) <= u64_max)%Z ->
  match handle_response self c w with
  | (self', _, Returned (Ok r)) =>
      Service.Stamped (id_value (next_request_id st)) (ev_headers r) /\ GivesBack (ev_body r)
      /\ exists st', state self' = Some st' /\ next_request_id st' = (next (next_request_id st)).2
         /\ match body_permit (ev_body r) with
            | None => Service.Restored (concurrency st) (e_wait c) (concurrency st')
            | Some held => held = true /\ Service.Restored (concurrency st) (e_wait c) (concurrency st' + 1)
            end
  | (_, _, Returned (Err _)) => False
  | (self', _, Panicked) =>
      uri_path (part_uri (e_parts c)) = [] /\ part_method (e_parts c) <> CONNECT
      /\ exists st', state self' = Some st' /\ next_request_id st' = (next (next_request_id st)).2
         /\ Service.Restored (concurrency st) (e_wait c) (concurrency st')
  | (_, _, Waiting) => True
  end.
Proof.
  intros Hs Hv Hid. unfold handle_response. rewrite Hs.
  destruct (session_policy_total _ Hv) as [policy ->].
  destruct (Service.replace_request_id_spec (mark_sensitive_headers (part_headers (e_parts c)) policy) _ Hid) as (hv & -> & Hb).
  match goal with |- context [event_work st c policy ?h ?p w] => destruct (event_work st c policy h p w) as [[[a permit] w1] r] eqn:Ew end.
  pose proof Ew as Hw. apply event_work_permits in Ew as (Hnp & Hperm & Hbuf).
  destruct r as [response| |]; [| |done].
  2: { destruct (Hnp eq_refl) as [? ?]. do 2 (split; [done|]). eexists. do 2 (split; [done|]). cbn [concurrency].
       destruct permit; [done | rewrite Hperm; by left]. }
  destruct (finish_event _ _ _ _ _ _) as [[a' w2] r] eqn:Ef. pose proof (finish_event_permits _ _ _ _ _ _ _ _ _ Ef) as Hp.
  unfold finish_event in Ef. destruct (normalize_body response _) as [resp es] eqn:En.
  destruct (event_body (body resp) permit) as [[b kept] es'] eqn:Eb. injection Ef as <- <- <-.
  assert (Hpb : permit = false -> exists bytes, b = EventBuffered bytes).
  { intros ->. destruct (Hbuf eq_refl _ eq_refl) as [bytes Hbytes]. unfold normalize_body in En.
    destruct (_ || _); injection En as <- <-; cbn in Eb; [|rewrite Hbytes in Eb; cbn in Eb]; injection Eb as <- <- <-; by eexists. }
  split; [by apply Service.stamped|]. cbn [ev_body] in *. split.
  { destruct permit; [|by destruct (Hpb eq_refl) as [bytes ->]]. eapply event_body_gives_back; [exact Eb|].
    intros u Hu. eapply event_work_accepted; [exact Hw|]. unfold normalize_body in En. destruct (_ || _); by injection En as <- <-. }
  eexists. split; [done|]. split; [done|]. cbn [concurrency] in *.
  destruct permit.
  - destruct (body_permit b); [destruct Hp as [-> Hp] | rewrite Hp]; [by rewrite Hp | done].
  - destruct (Hpb eq_refl) as [bytes ->]. cbn in *. rewrite Hp, Hperm. by left.
Qed.

(** ** The event host against the socket transport *)

(** The same request, configuration and plan on both transports, neither of them shutting down. *)
Record Mirrors (st : EventState) (c : EventCall) (svc : Service.IngressService) (nc : Service.Call) : Prop := {
  mi_config : Service.config svc = config st;
  mi_routes : Service.routes svc = routes st;
  mi_middleware : Service.middleware svc = middleware st;
  mi_policy : session_policy (config st) = Returned (Service.session_policy svc);
  mi_parts : Service.c_parts nc = e_parts c;
  mi_body : if Service.c_end_of_stream nc then e_body c = []
            else Service.c_body_race nc = Service.BodyFinished
                 /\ Body.collect_bounded_body (Service.c_events nc) (Service.content_length (part_headers (e_parts c)))
                      (max_request_body_bytes (config st)) = Ok (e_body c);
  mi_race : Service.c_cancel_first nc = e_cancel_first c /\ Service.c_cancellation nc = e_cancellation c
            /\ Service.c_disconnected nc = e_disconnected c;
  mi_running : e_open c = true /\ e_accepting c = true /\ e_accepting_later c = true /\ e_cancelled c = false
               /\ Service.c_cancelled_global nc = false;
}.

Definition SameBody (native : Service.ResponseBody) (event : WebIngressEventBody) : Prop :=
  match native, event with
  | Service.BufferedBody a, EventBuffered b => a = b
  | Service.StreamedBody a, EventStreaming b => b = ResponseStream.set_permit true (ResponseStream.body_stream a)
  | _, _ => False
  end.

Lemma finish_parity svc upgrading m hv response shared available permit (w1 w2 : World X) :
  is_websocket (body response) = false -> (forall s, body response = Streaming s -> permit = true) ->
  ext w1 = ext w2 ->
  exists t w1', Service.finish_request svc upgrading m hv response shared w1 = (shared, w1', Returned (t, None))
    /\ let '(_, w2', r) := finish_event response m hv available permit w2 in
       Service.t_status t = ev_status r /\ Service.t_headers t = ev_headers r /\ ext w1' = ext w2'
       /\ SameBody (Service.t_body t) (ev_body r).
Proof.
  intros Hw Hp He. unfold Service.finish_request, Service.upgrade_socket, finish_event, Service.finish_call.
  destruct response as [s hs b]. cbn [body status headers] in *.
  destruct b as [bytes|stream|u]; [| |done]; unfold normalize_body; cbn [body status headers];
    destruct (_ || _); cbn; do 2 eexists; (split; [done|]); try done.
  by rewrite (Hp stream eq_refl).
Qed.

Lemma collected_bounded events cl limit bytes : (0 <= limit <= usize_max)%Z ->
  Body.collect_bounded_body events cl limit = Ok bytes -> (len bytes <= limit)%Z.
Proof.
  intros Hl Hc. pose proof (Body.collect_bounded_body_collects events cl limit Hl) as Hb. rewrite Hc in Hb. by inversion Hb.
Qed.

(** On both transports a running request with a permit reaches the same dispatch. *)
Lemma native_dispatch st c svc nc hv (w : World X) : Mirrors st c svc nc -> Config.Valid (config st) ->
  let parts := mkParts (part_method (e_parts c)) (part_uri (e_parts c)) (part_version (e_parts c))
    (hm_insert REQUEST_ID_HEADER hv (mark_sensitive_headers (part_headers (e_parts c)) (Service.session_policy svc))) in
  Service.dispatch svc nc parts w =
    if (max_request_body_bytes (config st) <? len (e_body c))%Z
       || match Service.content_length (part_headers parts) with
          | Some length => (max_request_body_bytes (config st) <? length)%Z
          | None => false
          end
    then (w, Returned payload_too_large)
    else dispatch_buffered parts (e_body c) (e_cancellation c) (e_disconnected c) (Service.session_policy svc) (routes st)
           (middleware st) (e_cancel_first c) w.
Proof.
  intros [Hc Hr Hm Hp Hparts Hb (Hcf & Hca & Hdi) _] [[] _ _] parts. unfold Service.dispatch. rewrite Hc, Hr, Hm, Hcf, Hca, Hdi.
  assert (Hcl : Service.content_length (part_headers parts) = Service.content_length (part_headers (e_parts c)))
    by apply Service.content_length_marked.
  rewrite Hcl. assert (Hlen : (max_request_body_bytes (config st) <? len (e_body c))%Z = false).
  { apply Z.ltb_ge. destruct (Service.c_end_of_stream nc); [rewrite Hb; unfold len; cbn; lia|].
    destruct Hb as [_ Hb]. apply collected_bounded in Hb; [done|]. unfold MAX_TRANSFER_BYTES, usize_max in *. lia. }
  rewrite Hlen. cbn [orb]. destruct (match Service.content_length _ with Some _ => _ | None => _ end); [done|].
  destruct (Service.c_end_of_stream nc); [by rewrite Hb|]. destruct Hb as [-> ->]. done.
Qed.

Lemma head_len_body m u v h b b' :
  canonical_request_head_len (mkRequest m u v h b) = canonical_request_head_len (mkRequest m u v h b').
Proof. done. Qed.

Lemma upgrade_kept h p hv :
  hm_contains_key UPGRADE (hm_insert REQUEST_ID_HEADER hv (mark_sensitive_headers h p)) = hm_contains_key UPGRADE h.
Proof.
  unfold hm_contains_key. rewrite hm_insert_ne by (unfold REQUEST_ID_HEADER; name_ne).
  pose proof (mark_sensitive_bytes h p UPGRADE) as Hb. revert Hb.
  by destruct (hm_get_all UPGRADE (mark_sensitive_headers h p)), (hm_get_all UPGRADE h).
Qed.

(** C11: both transports serve a request the same way: for the same configuration, routes, middleware and request
    identifier, a request without an upgrade gets from the event host the status, header fields and body that the
    socket transport gives it, with the same actions on the outside; they also agree on when they are still waiting. *)
Theorem event_native_parity self st c svc nc shared w :
  state self = Some st -> Mirrors st c svc nc -> Config.Valid (config st) ->
  uri_path (part_uri (e_parts c)) <> [] -> hm_contains_key UPGRADE (part_headers (e_parts c)) = false ->
  Service.ids shared = next_request_id st -> (0 <= id_value (next_request_id st) <= u64_max)%Z ->
  Service.local shared = None -> (0 < Service.global shared)%Z -> (0 < concurrency st)%Z ->
  match Service.call svc nc shared w, handle_response self c w with
  | (_, w1, Returned (t, session)), (_, w2, Returned (Ok r)) =>
      session = None /\ Service.t_status t = ev_status r /\ Service.t_headers t = ev_headers r /\ ext w1 = ext w2
      /\ SameBody (Service.t_body t) (ev_body r)
  | (_, _, Waiting), (_, _, Waiting) => True
  | _, _ => False
  end.
Proof.
  intros Hs HM Hv Hpath Hup Hids Hid Hloc Hg Hc. pose proof HM as [Hcfg Hr Hm Hp Hparts Hb Hrace (Ho & Ha & Hal & Hcan & Hcg)].
  unfold Service.call, handle_response. rewrite Hs, Hp, Hids, Hloc, Hparts, Hcfg, Hup.
  destruct (Service.replace_request_id_spec (mark_sensitive_headers (part_headers (e_parts c)) (Service.session_policy svc)) _ Hid)
    as (hv & -> & _).
  set (parts := mkParts _ _ _ _).
  unfold event_work. rewrite Ho, Ha, Hcan. cbn [negb orb].
  change (part_method parts) with (part_method (e_parts c)). rewrite (head_len_body _ _ _ _ (e_body c) []).
  destruct (max_request_head_bytes (config st) <? _)%Z.
  { match goal with |- context [finish_event ?resp ?m _ ?a ?p _] =>
      destruct (finish_parity svc false m hv resp (Service.mkShared (next (next_request_id st)).2 None (Service.global shared))
        a p w w eq_refl ltac:(done) eq_refl) as (t & w1' & Hf & Hrest) end.
    cbn [Service.global]. rewrite Hf. destruct (finish_event _ _ _ _ _ _) as [[a' w2'] r]. done. }
  cbn [Service.local Service.global].
  unfold Service.acquire_request_permit. rewrite Hcg, (proj2 (Z.ltb_lt 0 _) Hg), (proj2 (Z.ltb_lt 0 _) Hc), Hal.
  cbn [negb]. rewrite !emit_nil. rewrite (native_dispatch _ _ _ _ hv _ HM Hv). fold parts.
  set (too_large := (_ || _)).
  assert (Hplain : forall w' r, dispatch_buffered parts (e_body c) (e_cancellation c) (e_disconnected c)
      (Service.session_policy svc) (routes st) (middleware st) (e_cancel_first c) (emit [PermitAcquired] w) = (w', Returned r) ->
      is_websocket (body r) = false).
  { intros w' r. apply dispatch_plain. subst parts. cbn [part_headers]. rewrite <- Hup. apply upgrade_kept. }
  pose proof (dispatch_buffered_safe (routes st) parts (e_body c) (e_cancellation c) (e_disconnected c)
    (Service.session_policy svc) (middleware st) (e_cancel_first c) (emit [PermitAcquired] w) Hpath) as Hsafe.
  set (shared' := Service.mkShared _ (_ <$> None) _).
  assert (Hfin : forall resp w0, is_websocket (body resp) = false ->
    exists t w1', Service.finish_request svc false (part_method (e_parts c)) hv resp shared' (emit [PermitReleased] w0)
      = (shared', w1', Returned (t, None))
      /\ let '(_, w2', r) := finish_event resp (part_method (e_parts c)) hv (concurrency st - 1) true w0 in
         Service.t_status t = ev_status r /\ Service.t_headers t = ev_headers r /\ ext w1' = ext w2'
         /\ SameBody (Service.t_body t) (ev_body r)) by (intros; by apply finish_parity).
  destruct too_large.
  - destruct (Hfin payload_too_large (emit [PermitAcquired] w) eq_refl) as (t & w1' & -> & Hrest).
    destruct (finish_event _ _ _ _ _ _) as [[a' w2'] r]. done.
  - destruct (dispatch_buffered _ _ _ _ _ _ _ _ _) as [w0 [r| |]]; [|done|done].
    destruct (Hfin r w0 (Hplain _ _ eq_refl)) as (t & w1' & -> & Hrest).
    destruct (finish_event _ _ _ _ _ _) as [[a' w2'] r']. done.
Qed.

(** The event factory's life cycle. [instantiate] succeeds exactly once, with a parsed and valid configuration and
    named middleware, and a refused configuration does not use the factory up; a failed activation publishes nothing,
    a successful one starts with all permits and a fresh identifier sequence; and a deactivated factory answers nothing
    and touches nothing. *)
Lemma event_lifecycle self parsed cfg deps c w :
  ((instantiate self parsed).2 = Ok cfg <->
     parsed = Ok cfg /\ Config.Valid cfg /\ Middleware.validate (factory_middleware self) = Ok ()
     /\ instantiated self = false)
  /\ (forall e, (instantiate self parsed).2 = Err e -> instantiated self = false -> (instantiate self parsed).1 = self)
  /\ ((instantiate self parsed).2 = Ok cfg ->
      forall parsed' cfg', (instantiate (instantiate self parsed).1 parsed').2 <> Ok cfg')
  /\ (let '(self', _, r) := activate self cfg deps w in
      match r with
      | Err _ => self' = self
      | Ok _ => exists st, state self' = Some st /\ config st = cfg /\ concurrency st = max_concurrent_requests cfg
          /\ id_value (next_request_id st) = 0%Z /\ middleware st = factory_middleware self
      end)
  /\ handle_response (deactivate self) c w
     = (deactivate self, w, Returned (Err (plugin_failure (lit "event ingress is not active")))).
Proof.
  split; [|split; [|split; [|split]]].
  - unfold instantiate. destruct parsed as [cfg'|e]; cbn; [|naive_solver].
    destruct (Config.validate cfg') as [[]|e] eqn:Ev; cbn.
    + destruct (Middleware.validate _) as [[]|e] eqn:Em; cbn; [|split; [done|]; by intros (_ & _ & ? & _)].
      destruct (instantiated self); cbn; (split; [|by intros (? & _ & _ & ?); simplify_eq]); [done|].
      intros [= ->]. split; [done|]. split; [by apply validate_ok|]. done.
    + split; [done|]. intros ([= ->] & Hv & _). apply validate_ok in Hv. congruence.
  - unfold instantiate. intros e. destruct (match map_err _ parsed with Ok _ => _ | Err _ => _ end); [|done].
    destruct (instantiated self); done.
  - unfold instantiate at 1 3. intros Hi parsed' cfg'. destruct (match map_err _ parsed with Ok _ => _ | Err _ => _ end); [|done].
    destruct (instantiated self); [done|]. cbn [fst]. unfold instantiate. cbn [instantiated].
    destruct (match map_err _ parsed' with Ok _ => _ | Err _ => _ end); done.
  - unfold activate. destruct (connect_websockets deps), (connect_endpoints deps), (connect_streams deps); try done.
    destruct (resolve _ _ _ _ _ _) as [w' [t|e]]; [|done]. eexists. done.
  - done.
Qed.

End event.

(** ** Witnesses *)

#[local] Existing Instance ref_http.
#[local] Existing Instance ref_http_laws.
#[local] Existing Instance ref_matchit.
#[local] Existing Instance ref_matchit_laws.
#[local] Existing Instance Dispatch.ref_digests.
#[local] Existing Instance Dispatch.ref_digest_laws.

Definition sample_event_state : EventState := mkEventState default_config sample_table 3 [] (Local 7).
Definition sample_factory : EventFactory := mkFactory true (Some sample_event_state) [].
Definition sample_event : EventCall := mkEventCall allowed_parts [] true true false None true true 1 2.
Definition mirrored_call : Service.Call :=
  Service.mkCall allowed_parts [] true Service.BodyFinished false None false None true 1 2.

Lemma event_permits_witness :
  match handle_response sample_factory sample_event sample_world with
  | (self', _, Returned (Ok r)) =>
      Service.Stamped (id_value (next_request_id sample_event_state)) (ev_headers r) /\ GivesBack (ev_body r)
      /\ exists st', state self' = Some st' /\ next_request_id st' = (next (next_request_id sample_event_state)).2
         /\ match body_permit (ev_body r) with
            | None => Service.Restored (concurrency sample_event_state) (e_wait sample_event) (concurrency st')
            | Some held => held = true
                /\ Service.Restored (concurrency sample_event_state) (e_wait sample_event) (concurrency st' + 1)
            end
  | (_, _, Returned (Err _)) => False
  | (self', _, Panicked) =>
      uri_path (part_uri (e_parts sample_event)) = [] /\ part_method (e_parts sample_event) <> CONNECT
      /\ exists st', state self' = Some st' /\ next_request_id st' = (next (next_request_id sample_event_state)).2
         /\ Service.Restored (concurrency sample_event_state) (e_wait sample_event) (concurrency st')
  | (_, _, Waiting) => True
  end.
Proof.
  apply (event_permits sample_factory sample_event_state sample_event sample_world).
  - reflexivity.
  - apply default_valid.
  - cbn. unfold u64_max. lia.
Defined.

Lemma sample_mirrors : Mirrors sample_event_state sample_event Service.sample_service mirrored_call.
Proof. split; try reflexivity; repeat split. Qed.

Lemma event_native_parity_witness :
  match Service.call Service.sample_service mirrored_call (Service.mkShared (Local 7) None 2) sample_world,
        handle_response sample_factory sample_event sample_world with
  | (_, w1, Returned (t, session)), (_, w2, Returned (Ok r)) =>
      session = None /\ Service.t_status t = ev_status r /\ Service.t_headers t = ev_headers r /\ ext w1 = ext w2
      /\ SameBody (Service.t_body t) (ev_body r)
  | (_, _, Waiting), (_, _, Waiting) => True
  | _, _ => False
  end.
Proof.
  apply (event_native_parity sample_factory sample_event_state sample_event Service.sample_service mirrored_call
           (Service.mkShared (Local 7) None 2) sample_world).
  - reflexivity.
  - apply sample_mirrors.
  - apply default_valid.
  - discriminate.
  - reflexivity.
  - reflexivity.
  - cbn. unfold u64_max. lia.
  - reflexivity.
  - cbn. lia.
  - cbn. lia.
Defined.

End Event.
