(* ===== verification/Native.v ===== *)
(** * The socket host ([lenso-web-ingress-plugin/src/native.rs])

    The plugin factory and its life cycle: it binds a listener of its own or takes a slot of a shared coordinator,
    resolves the routes, publishes the manifest and starts the serving task. What the factory and its lifecycle share
    (the observer cells) is one record; the coordinator is the state of [Replication]; the answers of the operating
    system and of the task spawner are arguments. *)
From S2P Require Import Prelude RustStd HttpCrate RefHttp Kernel Config SessionCookie.
From S2P Require Import WebSocket ResponseStream Handshake Request Response Middleware Manifest Routing Dispatch Server.
From S2P Require Import Replication Event.

Module Native.
Import Config Middleware Routing.

(** [WebIngressState]: the cells both the factory and the lifecycle hold. *)
Record WebIngressState := mkState {
  local_address : option SocketAddr; route_manifest : option Manifest.WebIngressRouteManifest }.

Inductive ConnectionSource :=
| ReplicaSource (source : Replication.ReplicaConnectionSource)
| Listener (address : SocketAddr).

Section native.
Context `{HttpCrate} `{Matchit} {X : Type}.

Record WebIngressFactory := mkFactory {
  factory_middleware : list (WebIngressMiddleware X);
  factory_replica : option Z; (* its slot *)
}.

Record WebIngressLifecycle := mkLifecycle {
  lc_config : WebIngressConfig;
  lc_middleware : list (WebIngressMiddleware X);
  lc_listener : option SocketAddr; (* the bound listener *)
  lc_replica : option Z;
}.

Definition new_state : WebIngressState := mkState None None.
Definition new_factory : WebIngressFactory := mkFactory [] None.

Definition replicated (coordinator : Replication.Coordinator) :
    Replication.Coordinator * Result RuntimeFailure WebIngressFactory :=
  let '(coordinator, slot) := Replication.allocate_replica coordinator in
  (coordinator, let? slot := slot in Ok (mkFactory [] (Some slot))).

Definition replicated_at (coordinator : Replication.Coordinator) (replica_index : Z) :
    Replication.Coordinator * Result RuntimeFailure WebIngressFactory :=
  let '(coordinator, slot) := Replication.allocate_replica_at coordinator replica_index in
  (coordinator, let? slot := slot in Ok (mkFactory [] (Some slot))).

Definition with_middleware (self : WebIngressFactory) (layer : WebIngressMiddleware X) : WebIngressFactory :=
  mkFactory (factory_middleware self ++ [layer]) (factory_replica self).

(** [instantiate]: [parsed] is what [serde_json] makes of the configuration. *)
Definition instantiate (coordinator : Replication.Coordinator) (self : WebIngressFactory)
    (parsed : Result str WebIngressConfig) : Result RuntimeFailure WebIngressLifecycle :=
  let invalid error := InvalidResolvedPlan (lit "Web Ingress configuration is invalid: " ++ error) in
  let? config := map_err invalid parsed in
  let? _ := map_err invalid (Config.validate config) in
  let? _ := map_err InvalidResolvedPlan (Middleware.validate (factory_middleware self)) in
  let? _ := match factory_replica self with
            | Some _ => map_err (fun detail => InvalidResolvedPlan (lit "Web Ingress replica configuration is invalid: " ++ detail))
                          (Replication.validate_config coordinator config)
            | None => Ok ()
            end in
  Ok (mkLifecycle config (factory_middleware self) None (factory_replica self)).

(** [prepare]: [bound] is the answer of [TcpListener::bind], [address] that of [local_addr]. *)
Definition prepare (coordinator : Replication.Coordinator) (self : WebIngressLifecycle) (observer : WebIngressState)
    (bound : Result str unit) (address : Result str SocketAddr) :
    WebIngressLifecycle * WebIngressState * Result RuntimeFailure unit :=
  match lc_replica self with
  | Some _ => (self, mkState (Some (Replication.local_address coordinator)) (route_manifest observer), Ok ())
  | None =>
      match bound with
      | Err error => (self, observer, Err (plugin_failure (lit "Web Ingress bind failed: " ++ error)))
      | Ok _ =>
          match address with
          | Err error => (self, observer, Err (plugin_failure (lit "Web Ingress address failed: " ++ error)))
          | Ok address =>
              (mkLifecycle (lc_config self) (lc_middleware self) (Some address) (lc_replica self),
               mkState (Some address) (route_manifest observer), Ok ())
          end
      end
  end.

(** What [activate] acts on, and what the serving task was started with. *)
Record Activation := mkActivation {
  ac_coordinator : Replication.Coordinator;
  ac_lifecycle : WebIngressLifecycle;
  ac_observer : WebIngressState;
  ac_world : World X;
}.

(** [Listener] stands for the socket the lifecycle had bound. *)
Definition connection_source (coordinator : Replication.Coordinator) (replica : option Z) (listener : option SocketAddr)
    (manifest : Manifest.WebIngressRouteManifest) (middleware : list (WebIngressMiddleware X)) :
    Replication.Coordinator * Outcome (Result RuntimeFailure ConnectionSource) :=
  match replica with
  | Some slot =>
      let '(coordinator, r) := Replication.register coordinator slot manifest (identities middleware) in
      (coordinator, let^ source := r in Returned (result_map ReplicaSource source))
  | None => (coordinator, let^ address := expect listener in Returned (Ok (Listener address)))
  end.

Definition activate (coordinator : Replication.Coordinator) (self : WebIngressLifecycle) (observer : WebIngressState)
    (deps : Event.Dependencies (X := X)) (spawned : Result str unit) (w : World X) :
    Activation * Outcome (Result RuntimeFailure (ConnectionSource * RouteTable X)) :=
  let listener := lc_listener self in
  let self := mkLifecycle (lc_config self) (lc_middleware self) None (lc_replica self) in
  let stop coordinator observer w r := (mkActivation coordinator self observer w, r) in
  match listener, lc_replica self with
  | None, None => stop coordinator observer w (Returned (Err (Internal (lit "Web Ingress listener was not prepared"))))
  | _, _ =>
      match Event.connect_endpoints deps, Event.connect_streams deps, Event.connect_websockets deps with
      | Err e, _, _ | Ok _, Err e, _ | Ok _, Ok _, Err e => stop coordinator observer w (Returned (Err e))
      | Ok endpoints, Ok streams, Ok websockets =>
          match resolve endpoints streams websockets (websocket (lc_config self))
                  (Event.invocation_context_after deps (Config.request_timeout (lc_config self))) w with
          | (w, Err e) => stop coordinator observer w (Returned (Err e))
          | (w, Ok routes) =>
              let observer := mkState (local_address observer) (Some (manifest routes)) in
              match connection_source coordinator (lc_replica self) listener (manifest routes) (lc_middleware self) with
              | (coordinator, Returned (Ok source)) =>
                  stop coordinator observer w
                    (Returned (match spawned with
                               | Ok _ => Ok (source, routes)
                               | Err error => Err (plugin_failure (lit "Web Ingress task could not start: " ++ error))
                               end))
              | (coordinator, Returned (Err e)) => stop coordinator observer w (Returned (Err e))
              | (coordinator, Panicked) => stop coordinator observer w Panicked
              | (coordinator, Waiting) => stop coordinator observer w Waiting
              end
          end
      end
  end.

(** ** Lemmas *)

Lemma instantiate_ok coordinator self parsed lc : instantiate coordinator self parsed = Ok lc <->
  parsed = Ok (lc_config lc) /\ Config.Valid (lc_config lc) /\ Middleware.validate (factory_middleware self) = Ok ()
  /\ (is_Some (factory_replica self) -> lc_config lc = Replication.co_config coordinator)
  /\ lc = mkLifecycle (lc_config lc) (factory_middleware self) None (factory_replica self).
Proof.
  unfold instantiate. destruct parsed as [c|e]; cbn; [|naive_solver]. rewrite <- Config.validate_ok. split.
  - intros Hi. destruct (Config.validate c) as [[]|] eqn:Ev; cbn in Hi; [|done].
    destruct (Middleware.validate _) as [[]|]; cbn in Hi; [|done]. unfold Replication.validate_config in Hi.
    destruct (factory_replica self) as [slot|]; cbn in Hi.
    + case_bool_decide; cbn in Hi; [|done]. injection Hi as <-. done.
    + injection Hi as <-. cbn. split_and!; try done; by intros [? [=]].
  - destruct lc as [c' mw l r]. cbn. intros ([= <-] & Hv & Hm & Hr & [= -> -> ->]). rewrite Hv, Hm. cbn.
    unfold Replication.validate_config. destruct (factory_replica self) as [slot|]; [|done].
    rewrite bool_decide_true by (apply Hr; by eexists). done.
Qed.

Lemma register_ok st slot routes mw st' src : Replication.register st slot routes mw = (st', Returned (Ok src)) ->
  Replication.canonical_manifest st' = Some (Replication.mkReplicaManifest mw routes)
  /\ (Replication.canonical_manifest st = None
      \/ Replication.canonical_manifest st = Some (Replication.mkReplicaManifest mw routes)).
Proof.
  unfold Replication.register. destruct (_ =? _)%Z; [done|].
  assert (Hs : Replication.register_slot st slot (Replication.mkReplicaManifest mw routes) = (st', Returned (Ok src)) ->
    Replication.canonical_manifest st' = Some (Replication.mkReplicaManifest mw routes)).
  { unfold Replication.register_slot. destruct (_ !! _); [|done]. by intros [= <- <-]. }
  destruct (Replication.canonical_manifest st) as [m|]; [|auto].
  case_bool_decide as Hm; [|done]. intros Hr. split; [by apply Hs|]. right. congruence.
Qed.

(** What a successful activation has done. *)
Definition Activated (coordinator : Replication.Coordinator) (lc : WebIngressLifecycle) (a : Activation)
    (source : ConnectionSource) (routes : RouteTable X) : Prop :=
  route_manifest (ac_observer a) = Some (manifest routes)
  /\ match lc_replica lc with
     | Some _ =>
         Replication.canonical_manifest (ac_coordinator a)
         = Some (Replication.mkReplicaManifest (identities (lc_middleware lc)) (manifest routes))
         /\ (Replication.canonical_manifest coordinator = None
             \/ Replication.canonical_manifest coordinator = Replication.canonical_manifest (ac_coordinator a))
         /\ exists src, source = ReplicaSource src
     | None => ac_coordinator a = coordinator /\ exists address, lc_listener lc = Some address /\ source = Listener address
     end.

Lemma connection_source_ok coordinator lc m st source :
  connection_source coordinator (lc_replica lc) (lc_listener lc) m (lc_middleware lc) = (st, Returned (Ok source)) ->
  match lc_replica lc with
  | Some _ =>
      Replication.canonical_manifest st = Some (Replication.mkReplicaManifest (identities (lc_middleware lc)) m)
      /\ (Replication.canonical_manifest coordinator = None
          \/ Replication.canonical_manifest coordinator = Replication.canonical_manifest st)
      /\ exists src, source = ReplicaSource src
  | None => st = coordinator /\ exists address, lc_listener lc = Some address /\ source = Listener address
  end.
Proof.
  unfold connection_source. destruct (lc_replica lc) as [slot|].
  - destruct (Replication.register _ _ _ _) as [st' [[src|e]| |]] eqn:Er; intros [= <- <-].
    apply register_ok in Er as [Hc Ho]. rewrite Hc. split; [done|]. split; [done | by eexists].
  - destruct (lc_listener lc); cbn; intros [= <- <-]. split; [done|]. by eexists.
Qed.

Lemma activate_ok coordinator lc observer deps spawned w a source routes :
  activate coordinator lc observer deps spawned w = (a, Returned (Ok (source, routes))) ->
  Activated coordinator lc a source routes
  /\ exists endpoints streams websockets,
       Event.connect_endpoints deps = Ok endpoints /\ Event.connect_streams deps = Ok streams
       /\ Event.connect_websockets deps = Ok websockets
       /\ resolve endpoints streams websockets (websocket (lc_config lc))
            (Event.invocation_context_after deps (Config.request_timeout (lc_config lc))) w = (ac_world a, Ok routes).
Proof.
  unfold activate. destruct lc as [cfg mw listener replica]. cbn.
  set (rest := match Event.connect_endpoints deps with Ok _ => _ | Err _ => _ end).
  intros Ha. assert (Hrest : rest = (a, Returned (Ok (source, routes)))) by (by destruct listener, replica). clear Ha. subst rest.
  destruct (Event.connect_endpoints deps) as [eps|], (Event.connect_streams deps) as [sts|], (Event.connect_websockets deps) as [wss|];
    try done. destruct (resolve _ _ _ _ _ _) as [w' [t|e]] eqn:Er; [|done].
  destruct (connection_source coordinator replica listener (manifest t) mw) as [st [[src|e]| |]] eqn:Ec; try done.
  destruct spawned as [[]|]; [|done]. injection Hrest as <- <- <-.
  apply (connection_source_ok coordinator (mkLifecycle cfg mw listener replica)) in Ec.
  split; [by split|]. by exists eps, sts, wss.
Qed.

(** The socket plugin's life cycle. It is instantiated exactly from a parsed, valid configuration with named
    middleware that, for a replica, is the coordinator's; preparing binds and publishes the bound address, or the
    coordinator's for a replica; activation without a preparation fails and touches nothing, uses the listener up
    whatever happens, and when it succeeds has published the manifest of the routes it resolved and serves the prepared
    listener, or is registered with the coordinator under exactly that manifest and middleware. A replica that owns its
    slot never makes the plugin panic. *)
Lemma native_lifecycle (self : WebIngressFactory) parsed lc coordinator observer bound address deps spawned w :
  (instantiate coordinator self parsed = Ok lc <->
     parsed = Ok (lc_config lc) /\ Config.Valid (lc_config lc) /\ Middleware.validate (factory_middleware self) = Ok ()
     /\ (is_Some (factory_replica self) -> lc_config lc = Replication.co_config coordinator)
     /\ lc = mkLifecycle (lc_config lc) (factory_middleware self) None (factory_replica self))
  /\ (forall lc' observer', prepare coordinator lc observer bound address = (lc', observer', Ok ()) ->
       is_Some (local_address observer')
       /\ local_address observer' = match lc_replica lc with
                                    | Some _ => Some (Replication.local_address coordinator)
                                    | None => lc_listener lc'
                                    end)
  /\ (lc_listener lc = None -> lc_replica lc = None ->
       activate coordinator lc observer deps spawned w
       = (mkActivation coordinator lc observer w, Returned (Err (Internal (lit "Web Ingress listener was not prepared")))))
  /\ (forall a r, activate coordinator lc observer deps spawned w = (a, r) ->
       lc_listener (ac_lifecycle a) = None
       /\ (forall source routes, r = Returned (Ok (source, routes)) -> Activated coordinator lc a source routes)
       /\ (forall config count sys, Replication.Reachable config count sys -> coordinator = Replication.coordinator sys ->
             (forall slot, lc_replica lc = Some slot -> slot ∈ Replication.given sys) -> exists res, r = Returned res)).
Proof.
  split; [apply instantiate_ok|]. split; [|split].
  - intros lc' observer'. unfold prepare. destruct (lc_replica lc) as [slot|].
    + intros [= <- <-]. split; [by eexists | done].
    + destruct bound as [[]|]; [|done]. destruct address as [adr|]; [|done]. intros [= <- <-]. split; [by eexists | done].
  - destruct lc as [cfg mw l r]. cbn. by intros -> ->.
  - intros a r Ha. split; [|split].
    + unfold activate in Ha. repeat case_match; simplify_eq; done.
    + intros source routes ->. by eapply activate_ok.
    + intros config count sys HR -> Hslot. apply Replication.reachable_inv in HR as [HR _ _].
      destruct (lc_replica lc) as [slot|] eqn:Erep.
      * unfold activate in Ha. cbn [lc_replica] in Ha. rewrite Erep in Ha. unfold connection_source in Ha.
        match type of Ha with (match ?l with Some _ => ?x | None => _ end) = _ => assert (Hx : x = (a, r)) by by destruct l end.
        clear Ha. destruct (Event.connect_endpoints deps), (Event.connect_streams deps), (Event.connect_websockets deps);
          try (injection Hx as <- <-; by eexists).
        destruct (resolve _ _ _ _ _ _) as [w' [t|e]]; [|injection Hx as <- <-; by eexists].
        destruct (Replication.register_no_panic _ _ _ _ slot (manifest t) (identities (lc_middleware lc)) HR (Hslot _ eq_refl))
          as [[res Hres] _].
        cbn [lc_middleware] in Hx. destruct (Replication.register _ _ _ _) as [st o]. cbn in Hres. subst o.
        destruct res; cbn in Hx; injection Hx as <- <-; by eexists.
      * unfold activate in Ha. cbn [lc_replica] in Ha. rewrite Erep in Ha. unfold connection_source in Ha.
        destruct (lc_listener lc); cbn in Ha; repeat case_match; simplify_eq; by eexists.
Qed.

End native.
End Native.
