(* ===== verification/Json.v ===== *)
(** * JSON values ([serde_json::Value] and [serde_json::Map])

    The sources build, inspect and compare JSON values. [Value] has the constructors of the crate's public enum; the type
    of numbers and the rendering of a value as text are outside ([Serde]). [Map] keeps its default order, the order of
    the keys, so a map is a list of fields sorted by key without repetition. *)
From S2P Require Import Prelude RustStd.

Module Json.

Inductive Value (N : Type) : Type :=
| Null
| Bool (b : bool)
| Number (n : N)
| String (s : str)
| Array (values : list (Value N))
| Object (fields : list (str * Value N)).
Arguments Null {N}.
Arguments Bool {N} b.
Arguments Number {N} n.
Arguments String {N} s.
Arguments Array {N} values.
Arguments Object {N} fields.

(** [serde_json::Map<String, Value>]. *)
Abbreviation Map N := (list (str * Value N)) (only parsing).

(** The parts of [serde_json] that are not data: its numbers and its compact rendering. *)
Class Serde (N : Type) := {
  number_eq_dec :: EqDecision N;
  number_of : Z -> N;
  to_string : Value N -> str;
}.

Section induction.
Context {N : Type} (P : Value N -> Prop).
Hypothesis (Hnull : P Null) (Hbool : forall b, P (Bool b)) (Hnumber : forall n, P (Number n)) (Hstring : forall s, P (String s)).
Hypothesis Harray : forall l, Forall P l -> P (Array l).
Hypothesis Hobject : forall m, Forall (fun f => P f.2) m -> P (Object m).

(** Induction through the lists. *)
Fixpoint Value_ind' (v : Value N) : P v :=
  match v with
  | Null => Hnull
  | Bool b => Hbool b
  | Number n => Hnumber n
  | String s => Hstring s
  | Array l => Harray l ((fix go l := match l return Forall P l with
                                      | [] => Forall_nil_2 P
                                      | v :: l => Forall_cons_2 P v l (Value_ind' v) (go l)
                                      end) l)
  | Object m => Hobject m ((fix go m := match m return Forall (fun f => P f.2) m with
                                        | [] => Forall_nil_2 _
                                        | f :: m => Forall_cons_2 _ f m (Value_ind' f.2) (go m)
                                        end) m)
  end.
End induction.

#[global] Instance Value_eq_dec {N} `{EqDecision N} : EqDecision (Value N).
Proof.
  refine (fix go a b : Decision (a = b) :=
    let _ : EqDecision (Value N) := @go in
    match a, b with
    | Null, Null => left eq_refl
    | Bool x, Bool y => cast_if (decide (x = y))
    | Number x, Number y => cast_if (decide (x = y))
    | String x, String y => cast_if (decide (x = y))
    | Array x, Array y => cast_if (decide (x = y))
    | Object x, Object y => cast_if (decide (x = y))
    | _, _ => right _
    end); abstract congruence.
Defined.

Section json.
Context {N : Type}.

(** [Value::as_str], [as_bool], [as_array] and [as_object]. *)
Definition as_str (v : Value N) : option str := match v with String s => Some s | _ => None end.
Definition as_bool (v : Value N) : option bool := match v with Bool b => Some b | _ => None end.
Definition as_array (v : Value N) : option (list (Value N)) := match v with Array l => Some l | _ => None end.
Definition as_object (v : Value N) : option (Map N) := match v with Object m => Some m | _ => None end.

(** ** Maps *)

Definition map_get {A} (key : str) (m : list (str * A)) : option A := snd <$> find (fun f => bool_decide (f.1 = key)) m.
Definition map_contains_key {A} (key : str) (m : list (str * A)) : bool :=
  match map_get key m with Some _ => true | None => false end.
Fixpoint map_insert {A} (key : str) (value : A) (m : list (str * A)) : list (str * A) :=
  match m with
  | [] => [(key, value)]
  | f :: m' =>
      if decide (f.1 = key) then (key, value) :: m' else
      if str_leb key f.1 then (key, value) :: m else f :: map_insert key value m'
  end.
Definition map_remove {A} (key : str) (m : list (str * A)) : list (str * A) := filter (fun f => f.1 <> key) m.

(** [collect::<Map<_, _>>()]. *)
Definition map_of_list {A} (fields : list (str * A)) : list (str * A) :=
  foldl (fun m f => map_insert f.1 f.2 m) [] fields.

(** [value.get(key)]: only objects have fields. *)
Definition get (key : str) (v : Value N) : option (Value N) := as_object v |> map_get key.

(** A strictly sorted list of keys. *)
Definition key_lt (a b : str) : Prop := str_le a b /\ a <> b.
Definition MapOk {A} (m : list (str * A)) : Prop := StronglySorted key_lt m.*1.

(** Every map inside the value is one. *)
Fixpoint Wf (v : Value N) : Prop :=
  match v with
  | Array l => (fix all l := match l with [] => True | v :: l => Wf v /\ all l end) l
  | Object m => MapOk m /\ (fix all m := match m with [] => True | f :: m => Wf f.2 /\ all m end) m
  | _ => True
  end.

(** Nesting depth. *)
Fixpoint height (v : Value N) : nat :=
  match v with
  | Array l => S ((fix go l := match l with [] => 0 | v :: l => Nat.max (height v) (go l) end) l)
  | Object m => S ((fix go m := match m with [] => 0 | f :: m => Nat.max (height f.2) (go m) end) m)
  | _ => 0
  end.

Definition max_height (l : list (Value N)) : nat := foldr (fun v n => Nat.max (height v) n) 0 l.

Lemma height_array l : height (Array l) = S (max_height l).
Proof. reflexivity. Qed.
Lemma height_object m : height (Object m) = S (max_height m.*2).
Proof. cbn. f_equal. induction m as [|f m IH]; [done|]. cbn. by rewrite IH. Qed.

Lemma max_height_le v l : v ∈ l -> height v <= max_height l.
Proof. unfold max_height. induction 1 as [|w l v' Hv IH]; cbn [foldr]; lia. Qed.
Lemma max_height_lub l n : (forall v, v ∈ l -> height v <= n) -> max_height l <= n.
Proof.
  unfold max_height. induction l as [|v l IH]; cbn [foldr]; intros H; [lia|]. pose proof (H v ltac:(by left)).
  assert (foldr (fun v n => Nat.max (height v) n) 0 l <= n) by (apply IH; intros w Hw; apply H; by right). lia.
Qed.

Lemma Wf_array l : Wf (Array l) <-> Forall Wf l.
Proof. cbn. induction l as [|v l IH]; [split; [constructor | done]|]. by rewrite Forall_cons, IH. Qed.
Lemma Wf_object m : Wf (Object m) <-> MapOk m /\ Forall (fun f => Wf f.2) m.
Proof.
  cbn. apply and_iff_compat_l. induction m as [|f m IH]; [split; [constructor | done]|]. by rewrite Forall_cons, IH.
Qed.

(** ** Laws of maps *)

Lemma str_leb_false a b : str_leb a b = false -> str_le b a /\ a <> b.
Proof.
  intros Hf. destruct (str_le_total a b) as [H|H]; [unfold str_le in H; congruence|]. split; [done|]. intros ->.
  pose proof (str_le_refl b) as Hr. unfold str_le in Hr. congruence.
Qed.

#[global] Instance key_lt_trans : Transitive key_lt.
Proof.
  intros a b c [Hab Hn] [Hbc Hm]. split; [by etrans|]. intros ->. apply Hn. by apply (anti_symm str_le).
Qed.

Lemma map_get_nil {A} k : map_get k (@nil (str * A)) = None.
Proof. done. Qed.

Lemma map_get_cons {A} k f (m : list (str * A)) : map_get k (f :: m) = if decide (f.1 = k) then Some f.2 else map_get k m.
Proof. unfold map_get. cbn. case_bool_decide; case_decide; done. Qed.

Lemma map_get_elem {A} k v (m : list (str * A)) : map_get k m = Some v -> (k, v) ∈ m.
Proof.
  induction m as [|[k' v'] m IH]; [done|]. rewrite map_get_cons; cbn. case_decide as E; [subst; intros [= ->]; left | right; auto].
Qed.

Lemma map_get_None {A} k (m : list (str * A)) : map_get k m = None <-> k ∉ m.*1.
Proof.
  induction m as [|[k' v'] m IH]; [split; [intros _; apply not_elem_of_nil | done]|].
  rewrite map_get_cons, fmap_cons, elem_of_cons; cbn.
  case_decide; [naive_solver|]. rewrite IH. naive_solver.
Qed.

Lemma MapOk_cons {A} f (m : list (str * A)) : MapOk (f :: m) <-> MapOk m /\ Forall (key_lt f.1) m.*1.
Proof.
  unfold MapOk. rewrite fmap_cons. split; [by inversion 1 | intros [? ?]; by constructor].
Qed.

Lemma MapOk_NoDup {A} (m : list (str * A)) : MapOk m -> NoDup m.*1.
Proof.
  unfold MapOk. induction 1 as [|k l _ IH Hk]; constructor; [|done]. intros Hin. rewrite Forall_forall in Hk.
  by destruct (Hk _ Hin).
Qed.

Lemma map_get_ok {A} k v (m : list (str * A)) : MapOk m -> map_get k m = Some v <-> (k, v) ∈ m.
Proof.
  intros Hm. split; [apply map_get_elem|]. induction m as [|[k' v'] m IH]; [by rewrite elem_of_nil|].
  apply MapOk_cons in Hm as [Hm Hf]. rewrite elem_of_cons, map_get_cons; cbn in *. intros [[= -> ->]|Hin]; [by rewrite decide_True|].
  rewrite decide_False; [by apply IH|]. intros ->. rewrite Forall_forall in Hf.
  destruct (Hf k) as [_ Hn]; [|done]. apply list_elem_of_fmap. by exists (k, v).
Qed.

Lemma map_insert_keys {A} k (v : A) m x : x ∈ (map_insert k v m).*1 <-> x = k \/ x ∈ m.*1.
Proof.
  induction m as [|[k' v'] m IH]; cbn [map_insert]; [cbn; rewrite list_elem_of_singleton, elem_of_nil; naive_solver|]. cbn [fst].
  case_decide as E; [subst; rewrite !fmap_cons, !elem_of_cons; cbn; naive_solver|].
  destruct (str_leb k k'); rewrite !fmap_cons, !elem_of_cons, ?IH; cbn; [|rewrite ?elem_of_cons]; naive_solver.
Qed.

Lemma map_insert_ok {A} k (v : A) m : MapOk m -> MapOk (map_insert k v m).
Proof.
  induction m as [|[k' v'] m IH]; intros Hm; cbn [map_insert]; [by repeat constructor|]. cbn [fst].
  apply MapOk_cons in Hm as [Hm Hf]; cbn in Hf. case_decide as E; [subst; by apply MapOk_cons|].
  destruct (str_leb k k') eqn:El; apply MapOk_cons; cbn.
  - split; [by apply MapOk_cons|]. constructor; [by split|]. eapply Forall_impl; [exact Hf|]. intros x Hx. by etrans.
  - split; [by apply IH|]. apply Forall_forall. intros x Hx. apply map_insert_keys in Hx as [->|Hx].
    + by apply str_leb_false in El as [? ?].
    + rewrite Forall_forall in Hf. by apply Hf.
Qed.

Lemma map_get_insert_eq {A} k (v : A) m : MapOk m -> map_get k (map_insert k v m) = Some v.
Proof.
  induction m as [|[k' v'] m IH]; intros Hm; cbn [map_insert]; [by rewrite map_get_cons, decide_True|]. cbn [fst].
  apply MapOk_cons in Hm as [Hm Hf]. case_decide as E; [by rewrite map_get_cons, decide_True|].
  destruct (str_leb k k'); rewrite map_get_cons; [by rewrite decide_True|]. rewrite decide_False by done. auto.
Qed.

Lemma map_get_insert_ne {A} k k' (v : A) m : k <> k' -> map_get k' (map_insert k v m) = map_get k' m.
Proof.
  intros Hn. induction m as [|[k2 v2] m IH]; cbn [map_insert]; [by rewrite map_get_cons, decide_False|]. cbn [fst].
  case_decide as E; [subst; by rewrite !map_get_cons, !decide_False by done|].
  destruct (str_leb k k2); rewrite !map_get_cons; [by rewrite decide_False|]. case_decide; [done | apply IH].
Qed.

Lemma map_get_remove_eq {A} k (m : list (str * A)) : map_get k (map_remove k m) = None.
Proof. apply map_get_None. unfold map_remove. rewrite list_elem_of_fmap. intros ([k' v] & -> & [Hn _]%list_elem_of_filter). done. Qed.

Lemma map_get_remove_ne {A} k k' (m : list (str * A)) : k <> k' -> map_get k' (map_remove k m) = map_get k' m.
Proof.
  intros Hn. unfold map_remove. induction m as [|[k2 v2] m IH]; [done|]. rewrite filter_cons. cbn [fst]. rewrite map_get_cons. cbn [fst].
  case_decide; [rewrite map_get_cons; cbn; by rewrite IH|]. case_decide; [congruence | done].
Qed.

Lemma map_remove_ok {A} k (m : list (str * A)) : MapOk m -> MapOk (map_remove k m).
Proof.
  unfold map_remove. induction m as [|f m IH]; [done|]. intros [Hm Hf]%MapOk_cons. rewrite filter_cons.
  case_decide; [|by apply IH]. apply MapOk_cons. split; [by apply IH|]. rewrite Forall_forall in *. intros x Hx. apply Hf.
  apply list_elem_of_fmap in Hx as (g & -> & [_ Hg]%list_elem_of_filter). apply list_elem_of_fmap. by exists g.
Qed.

Lemma map_of_list_ok {A} (fields : list (str * A)) : MapOk (map_of_list fields).
Proof.
  unfold map_of_list. assert (Hg : forall m, MapOk m -> MapOk (foldl (fun m f => map_insert f.1 f.2 m) m fields)).
  { induction fields as [|f fields IH]; intros m Hm; [done|]. cbn. apply IH. by apply map_insert_ok. }
  apply Hg. constructor.
Qed.

Lemma map_insert_length {A} k (v : A) m : k ∉ m.*1 -> length (map_insert k v m) = S (length m).
Proof.
  induction m as [|f m IH]; intros Hk; cbn [map_insert]; [done|]. rewrite fmap_cons in Hk. apply not_elem_of_cons in Hk as [Hne Hk].
  rewrite decide_False by done. destruct (str_leb k f.1); [done|]. cbn. by rewrite IH.
Qed.

(** A key after all others goes to the end. *)
Lemma map_insert_last {A} k (v : A) m : Forall (fun k' => key_lt k' k) m.*1 -> map_insert k v m = m ++ [(k, v)].
Proof.
  induction m as [|f m IH]; [done|]. rewrite fmap_cons. intros [[Hle Hne] Hm]%Forall_cons. cbn [map_insert app].
  rewrite decide_False by done. destruct (str_leb k f.1) eqn:El; [by destruct Hne; apply (anti_symm str_le)|]. by rewrite IH.
Qed.

(** Collecting fields with distinct keys loses none. *)
Lemma map_of_list_distinct {A} (fields : list (str * A)) : NoDup fields.*1 ->
  length (map_of_list fields) = length fields /\ forall k v, map_get k (map_of_list fields) = Some v <-> (k, v) ∈ fields.
Proof.
  induction fields as [|[k0 v0] fields IH] using rev_ind; [intros _; split; [done|]; intros k v; by rewrite elem_of_nil|].
  rewrite fmap_app. intros (Hnd & Hd & _)%NoDup_app. specialize (IH Hnd) as [Hlen Hget].
  assert (Hno : k0 ∉ fields.*1) by (intros Hin; eapply Hd; [exact Hin | by left]).
  assert (He : map_of_list (fields ++ [(k0, v0)]) = map_insert k0 v0 (map_of_list fields)) by (unfold map_of_list; by rewrite foldl_app).
  assert (Hno' : map_get k0 (map_of_list fields) = None).
  { destruct (map_get k0 _) as [v|] eqn:Eg; [|done]. apply Hget in Eg. destruct Hno. by apply (list_elem_of_fmap_2 fst _ (k0, v)). }
  rewrite He. split.
  - rewrite map_insert_length, Hlen, length_app; [cbn; lia | by apply map_get_None].
  - intros k v. rewrite elem_of_app, list_elem_of_singleton. destruct (decide (k0 = k)) as [<-|Hn].
    + rewrite map_get_insert_eq by apply map_of_list_ok. split; [intros [= ->]; by right|].
      intros [Hin|[= ->]]; [|done]. destruct Hno. by apply (list_elem_of_fmap_2 fst _ (k0, v)).
    + rewrite map_get_insert_ne, Hget by done. split; [by left|]. by intros [?|[= -> ->]].
Qed.

(** A property of all fields is kept by an insertion that has it. *)
Lemma map_insert_Forall {A} (P : str * A -> Prop) k v m : P (k, v) -> Forall P m -> Forall P (map_insert k v m).
Proof.
  intros Hk. induction m as [|f m IH]; intros Hm; cbn [map_insert]; [by constructor|]. apply Forall_cons in Hm as [Hf Hm].
  case_decide; [by constructor|]. destruct (str_leb k f.1); by repeat constructor; auto.
Qed.

Lemma map_of_list_Forall {A} (P : str * A -> Prop) fields : Forall P fields -> Forall P (map_of_list fields).
Proof.
  unfold map_of_list. assert (Hg : forall m, Forall P m -> Forall P fields -> Forall P (foldl (fun m f => map_insert f.1 f.2 m) m fields)).
  { induction fields as [|f fields IH]; intros m Hm Hf; [done|]. apply Forall_cons in Hf as [Hf Hfs]. cbn. apply IH; [|done].
    apply map_insert_Forall; [by destruct f | done]. }
  by apply Hg.
Qed.

Lemma Wf_insert k (v : Value N) m : Wf v -> Wf (Object m) -> Wf (Object (map_insert k v m)).
Proof.
  rewrite !Wf_object. intros Hv [Hm Hf]. split; [by apply map_insert_ok | by apply map_insert_Forall].
Qed.

(** Maps with the same lookups are equal. *)
Lemma map_ext {A} (m1 m2 : list (str * A)) : MapOk m1 -> MapOk m2 -> (forall k, map_get k m1 = map_get k m2) -> m1 = m2.
Proof.
  revert m2; induction m1 as [|[k1 v1] m1 IH]; intros [|[k2 v2] m2] H1 H2 He; [done|..].
  - specialize (He k2). rewrite map_get_nil, map_get_cons, decide_True in He; done.
  - specialize (He k1). rewrite map_get_nil, map_get_cons, decide_True in He; done.
  - pose proof H1 as [H1' Hf1]%MapOk_cons. pose proof H2 as [H2' Hf2]%MapOk_cons. cbn in Hf1, Hf2. rewrite Forall_forall in Hf1, Hf2.
    assert (Hk : k1 = k2).
    { destruct (decide (k1 = k2)) as [|Hn]; [done|]. exfalso.
      pose proof (He k1) as E1. pose proof (He k2) as E2. rewrite !map_get_cons in E1, E2. cbn in E1, E2.
      rewrite decide_True, decide_False in E1 by done. rewrite decide_False, decide_True in E2 by done.
      symmetry in E1. apply map_get_elem in E1. apply map_get_elem in E2.
      destruct (Hf2 k1) as [Hlt Hne]; [apply list_elem_of_fmap; by exists (k1, v1)|].
      destruct (Hf1 k2) as [Hlt' _]; [apply list_elem_of_fmap; by exists (k2, v2)|].
      apply Hn. by apply (anti_symm str_le). }
    subst k2. f_equal.
    + specialize (He k1). rewrite !map_get_cons, !decide_True in He by done. cbn in He. congruence.
    + apply IH; [done..|]. intros k. specialize (He k). rewrite !map_get_cons in He. cbn in He. destruct (decide (k1 = k)) as [<-|]; [|done].
      assert (Hno : forall m : list (str * A), (forall x, x ∈ m.*1 -> key_lt k1 x) -> map_get k1 m = None).
      { intros m Hm. apply map_get_None. intros Hin. by destruct (Hm _ Hin). }
      by rewrite !Hno.
Qed.

End json.

(** ** A reference instance, for concrete evaluations *)

Fixpoint ref_to_string (v : Value Z) : str :=
  match v with
  | Null => lit "null"
  | Bool b => if b then lit "true" else lit "false"
  | Number n => show_Z n
  | String s => "034"%char :: s ++ ["034"%char]
  | Array l => lit "[" ++ concat ((fun v => ref_to_string v ++ lit ",") <$> l) ++ lit "]"
  | Object m => lit "{" ++ concat ((fun f => f.1 ++ lit ":" ++ ref_to_string f.2 ++ lit ",") <$> m) ++ lit "}"
  end.
#[local] Instance ref_serde : Serde Z := { number_of := fun z => z; to_string := ref_to_string }.

(** Literals. *)
Definition object {N} (fields : list (string * Value N)) : Value N :=
  Object (map_of_list ((fun f => (lit f.1, f.2)) <$> fields)).
Definition text {N} (s : string) : Value N := String (lit s).

Lemma object_wf {N} (fields : list (string * Value N)) : Forall (fun f => Wf f.2) fields -> Wf (object fields).
Proof.
  intros Hf. apply Wf_object. split; [apply map_of_list_ok|]. apply map_of_list_Forall. by apply Forall_fmap.
Qed.
End Json.
