(* ===== verification/Derive.v ===== *)
(** * Derived codecs ([serde])

    The messages of the contracts and the configurations derive their codecs. What the sources say of a codec is data:
    the names of the fields, which may be missing, whether others are refused, the default of each. That is written down
    here as a [Schema] with a writer and a reader of the fields. What [serde] makes of a schema is [SerdeDerive], an interface
    with its documented behaviour as laws ([SerdeDeriveLaws]); [RefDerive] satisfies them. *)
From stdpp Require Import countable strings.
From S2P Require Import Prelude RustStd Json.

Create HintDb codec.

Module Derive.
Import Json.

(** A field that is not [required] is of type [Option] or has a default. *)
Record Field := mkField { key : str; required : bool }.
Record Schema := mkSchema { deny_unknown_fields : bool; fields : list Field }.

Definition keys (s : Schema) : list str := key <$> fields s.

(** The struct whose fields the entries are, in their order; the values found for the fields of a schema; the name of a
    variant; [lenso_contract_runtime]'s reader of a field that must be there, and its bytes. *)
Class SerdeDerive (N : Type) := {
  serialize_struct : list (str * Value N) -> Value N;
  deserialize_struct : Schema -> Value N -> option (list (option (Value N)));
  deserialize_variant : list str -> Value N -> option str;
  as_integer : N -> option Z;
  deserialize_required {A} : (Value N -> option A) -> Value N -> option A;
  serialize_bytes : str -> Value N;
  deserialize_bytes : Value N -> option str;
}.

(** A text form of values: one that is printed is parsed. *)
Class JsonText (N : Type) := { print : Value N -> option str; parse : str -> option (Value N) }.
Class JsonTextLaws (N : Type) `{!JsonText N} : Prop := {
  parse_print v text : Wf v -> print v = Some text -> parse text = Some v }.

Definition i64_min : Z := - 2 ^ 63.
Definition i64_max : Z := 2 ^ 63 - 1.

Class SerdeDeriveLaws (N : Type) `{Serde N} `{SerdeDerive N} : Prop := {
  struct_object entries : NoDup entries.*1 -> serialize_struct entries = Object (map_of_list entries);
  struct_fields s m : MapOk m -> NoDup (keys s) ->
    deserialize_struct s (Object m) =
      if forallb (fun f => negb (required f) || map_contains_key (key f) m) (fields s)
         && (negb (deny_unknown_fields s) || forallb (fun k => bool_decide (k ∈ keys s)) m.*1)
      then Some ((fun f => map_get (key f) m) <$> fields s) else None;
  variant_name names name : deserialize_variant names (String name) = if decide (name ∈ names) then Some name else None;
  integer_read z : (i64_min <= z <= u64_max)%Z -> as_integer (number_of z) = Some z;
  required_read A (read : Value N -> option A) v : v <> Null -> deserialize_required read v = read v;
  bytes_read b : deserialize_bytes (serialize_bytes b) = Some b /\ serialize_bytes b <> Null /\ Wf (serialize_bytes b);
}.

Section codecs.
Context {N : Type} `{Serde N} `{!SerdeDerive N}.

Record Codec (A : Type) := mkCodec { write : A -> Value N; read : Value N -> option A }.
Arguments mkCodec {A} write read.
Arguments write {A} c a.
Arguments read {A} c v.

(** ** The types of the fields *)

Definition string_codec : Codec str := mkCodec String as_str.
Definition bytes_codec : Codec str := mkCodec serialize_bytes deserialize_bytes.
(** A machine integer with its range. *)
Definition integer_codec (low high : Z) : Codec Z :=
  mkCodec (fun z => Number (number_of z))
    (fun v => match v with
              | Number n => z ← as_integer n; if in_range low high z then Some z else None
              | _ => None
              end).
Definition i64_codec : Codec Z := integer_codec i64_min i64_max.
Definition unsigned_codec : Codec Z := integer_codec 0 u64_max.
Definition list_codec {A} (c : Codec A) : Codec (list A) :=
  mkCodec (fun l => Array (write c <$> l)) (fun v => as_array v ≫= mapM (read c)).
(** [BTreeMap<String, Value>] and [Map<String, Value>]. *)
Definition map_codec : Codec (Map N) := mkCodec Object as_object.
(** An enum without payloads. *)
Definition variant_codec {A} (name : A -> str) (variants : list A) : Codec A :=
  mkCodec (fun a => String (name a))
    (fun v => s ← deserialize_variant (name <$> variants) v; find (fun a => bool_decide (name a = s)) variants).

(** ** Structs *)

Definition struct_codec {A} (s : Schema) (put : A -> list (str * Value N)) (take : list (option (Value N)) -> option A) : Codec A :=
  mkCodec (fun a => serialize_struct (put a)) (fun v => deserialize_struct s v ≫= take).

Definition put {A} (k : str) (c : Codec A) (a : A) : list (str * Value N) := [(k, write c a)].
(** [skip_serializing_if = "Option::is_none"]. *)
Definition put_some {A} (k : str) (c : Codec A) (o : option A) : list (str * Value N) :=
  match o with Some a => [(k, write c a)] | None => [] end.

(** A field read by its type, by [deserialize_required], with a default, and as an [Option]. *)
Definition take {A} (c : Codec A) (found : option (Value N)) : option A := found ≫= read c.
Definition take_required {A} (c : Codec A) (found : option (Value N)) : option A := found ≫= deserialize_required (read c).
Definition take_default {A} (c : Codec A) (default : A) (found : option (Value N)) : option A :=
  match found with Some v => read c v | None => Some default end.
Definition take_option {A} (c : Codec A) (found : option (Value N)) : option (option A) :=
  match found with
  | None | Some Null => Some None
  | Some v => Some <$> read c v
  end.

(** ** What is written is read *)

(** What is written for [a] is a value, not [null], and [a] is read back. *)
Definition Written {A} (c : Codec A) (a : A) : Prop := read c (write c a) = Some a /\ write c a <> Null /\ Wf (write c a).

Context `{!SerdeDeriveLaws N}.

Lemma string_written s : Written string_codec s.
Proof. done. Qed.

Lemma bytes_written b : Written bytes_codec b.
Proof. apply bytes_read. Qed.

Lemma map_written m : Wf (Object m) -> Written map_codec m.
Proof. done. Qed.

Lemma integer_written low high z : (i64_min <= low <= z)%Z -> (z <= high <= u64_max)%Z -> Written (integer_codec low high) z.
Proof.
  intros Hl Hh. split; [|done]. cbn [read write integer_codec]. rewrite integer_read by lia. cbn. unfold in_range.
  by rewrite (proj2 (Z.leb_le _ _)), (proj2 (Z.leb_le _ _)) by lia.
Qed.

Lemma i64_written z : (i64_min <= z <= i64_max)%Z -> Written i64_codec z.
Proof. intros Hz. apply integer_written; unfold i64_max, i64_min, u64_max in *; lia. Qed.
Lemma unsigned_written z : (0 <= z <= u64_max)%Z -> Written unsigned_codec z.
Proof. intros Hz. apply integer_written; unfold i64_min, u64_max in *; lia. Qed.

Lemma list_written {A} (c : Codec A) l : Forall (Written c) l -> Written (list_codec c) l.
Proof.
  intros Hl. unfold Written. cbn [read write list_codec as_array mbind option_bind]. rewrite Wf_array. split_and!; [|done|].
  - induction Hl as [|a l Ha Hl IH]; [done|]. cbn. rewrite (proj1 Ha). cbn. by rewrite IH.
  - apply Forall_fmap. eapply Forall_impl; [exact Hl|]. intros a Ha. apply Ha.
Qed.

Lemma list_all_written {A} (c : Codec A) l : (forall a, Written c a) -> Written (list_codec c) l.
Proof. intros Hc. apply list_written, Forall_forall. auto. Qed.

Lemma variant_written {A} (name : A -> str) variants a : Inj (=) (=) name -> a ∈ variants -> Written (variant_codec name variants) a.
Proof.
  intros Hinj Hin. split; [|done]. cbn. rewrite variant_name, decide_True by (apply list_elem_of_fmap; by exists a). cbn.
  destruct (find _ variants) as [b|] eqn:Ef.
  - apply find_some in Ef as [_ Hb]. bool_prop. by f_equal; apply Hinj.
  - apply find_none with (x := a) in Ef; [|by apply list_elem_of_In]. by rewrite bool_decide_true in Ef.
Qed.

Section written.
Context {A : Type} (c : Codec A).

Lemma take_write a : Written c a -> take c (Some (write c a)) = Some a.
Proof. by intros []. Qed.
Lemma take_required_write a : Written c a -> take_required c (Some (write c a)) = Some a.
Proof. intros (Hr & Hn & _). cbn. by rewrite required_read. Qed.
Lemma take_default_write d a : Written c a -> take_default c d (Some (write c a)) = Some a.
Proof. by intros []. Qed.
Lemma take_option_write a : Written c a -> take_option c (Some (write c a)) = Some (Some a).
Proof. intros (Hr & Hn & _). cbn. destruct (write c a); by rewrite ?Hr. Qed.
Lemma put_wf k a : Written c a -> Forall (fun f => Wf f.2) (put k c a).
Proof. intros (_ & _ & Hw). by repeat constructor. Qed.
Lemma put_some_wf k a : Written c a -> Forall (fun f => Wf f.2) (put_some k c (Some a)).
Proof. apply put_wf. Qed.
Lemma put_none_wf k : Forall (fun f => Wf f.2) (put_some k c None).
Proof. constructor. Qed.
End written.

(** The keys written for a value of the struct: no key twice, none that the schema does not have, and every required one. *)
Definition fits (s : Schema) (written : list str) : bool :=
  bool_decide (NoDup written) && forallb (fun k => bool_decide (k ∈ keys s)) written
  && forallb (fun f => negb (required f) || bool_decide (key f ∈ written)) (fields s).

Lemma map_get_distinct {A} k (m : list (str * A)) : NoDup m.*1 -> map_get k (map_of_list m) = map_get k m.
Proof.
  intros Hn. pose proof (map_of_list_distinct m Hn) as [_ Hg]. destruct (map_get k m) as [v|] eqn:E.
  - apply Hg. by apply map_get_elem.
  - destruct (map_get k (map_of_list m)) as [v|] eqn:E'; [|done]. apply Hg in E'. apply map_get_None in E.
    destruct E. apply list_elem_of_fmap. by exists (k, v).
Qed.

Lemma map_of_list_keys {A} k (m : list (str * A)) : NoDup m.*1 -> k ∈ (map_of_list m).*1 <-> k ∈ m.*1.
Proof.
  intros Hn. pose proof (map_get_None k (map_of_list m)) as Ha. pose proof (map_get_None k m) as Hb.
  rewrite map_get_distinct in Ha by done. destruct (decide (k ∈ (map_of_list m).*1)), (decide (k ∈ m.*1)); tauto.
Qed.

(** What is written is read back field by field. *)
Lemma struct_written s entries : NoDup (keys s) -> fits s entries.*1 = true ->
  Forall (fun f => Wf f.2) entries ->
  deserialize_struct s (serialize_struct entries) = Some ((fun f => map_get (key f) entries) <$> fields s)
  /\ serialize_struct entries <> Null /\ Wf (serialize_struct entries).
Proof.
  intros Hk Hf Hw. unfold fits in Hf. rewrite !andb_true_iff, !forallb_forall in Hf. destruct Hf as [[Hn%bool_decide_eq_true Hin] Hreq].
  rewrite struct_object by done. split; [|split; [done | apply Wf_object; split; [apply map_of_list_ok | by apply map_of_list_Forall]]].
  rewrite struct_fields by (apply map_of_list_ok || done).
  rewrite (proj2 (forallb_forall _ _)), (proj2 (forallb_forall _ _)), orb_true_r.
  - cbn. f_equal. apply list_fmap_ext. intros i f _. by apply map_get_distinct.
  - intros k Hin'. apply Hin. apply list_elem_of_In in Hin'. apply list_elem_of_In. by apply map_of_list_keys.
  - intros f Hin'. specialize (Hreq f Hin'). apply orb_true_iff in Hreq as [->|Hreq]; [done|]. apply orb_true_iff. right.
    bool_prop. unfold map_contains_key. rewrite map_get_distinct by done. destruct (map_get _ _) eqn:E; [done|]. by apply map_get_None in E.
Qed.

Lemma struct_codec_written {A} s put take (a : A) : NoDup (keys s) -> fits s (put a).*1 = true ->
  Forall (fun f => Wf f.2) (put a) -> take ((fun f => map_get (key f) (put a)) <$> fields s) = Some a ->
  Written (struct_codec s put take) a.
Proof.
  intros Hk Hf Hw Ht. destruct (struct_written s (put a) Hk Hf Hw) as [Hr Hn].
  split; [|done]. cbn [read write struct_codec]. by rewrite Hr.
Qed.

Lemma forallb_agree {A} (p q : A -> bool) l : (forall a, a ∈ l -> p a = q a) -> forallb p l = forallb q l.
Proof. induction l as [|a l IH]; intros He; [done|]. cbn. rewrite He by left. f_equal. apply IH. intros b Hb. apply He. by right. Qed.

(** A peer may send more: without [deny_unknown_fields] only the fields of the schema are read. *)
Lemma extra_fields_ignored s m m' : deny_unknown_fields s = false -> NoDup (keys s) -> MapOk m -> MapOk m' ->
  (forall k, k ∈ keys s -> map_get k m' = map_get k m) -> deserialize_struct s (Object m') = deserialize_struct s (Object m).
Proof.
  intros Hd Hk Hm Hm' He. rewrite !struct_fields, Hd by done. cbn [negb orb].
  assert (Hf : forall f, f ∈ fields s -> map_get (key f) m' = map_get (key f) m) by (intros f Hf; apply He; by apply list_elem_of_fmap_2).
  assert ((fun f => map_get (key f) m') <$> fields s = (fun f => map_get (key f) m) <$> fields s) as ->.
  { apply list_fmap_ext. intros i f Hi. apply Hf. by eapply list_elem_of_lookup_2. }
  assert (forallb (fun f => negb (required f) || map_contains_key (key f) m') (fields s)
          = forallb (fun f => negb (required f) || map_contains_key (key f) m) (fields s)) as ->; [|done].
  apply forallb_agree. intros f Hin. unfold map_contains_key. by rewrite Hf.
Qed.

End codecs.
Arguments Codec N A : clear implicits.
Arguments mkCodec {N A} write read.
Arguments write {N A} c a.
Arguments read {N A} c v.

#[export] Hint Resolve string_written bytes_written map_written i64_written unsigned_written list_all_written put_wf put_some_wf put_none_wf : codec.

(** The fields found among written entries: the values stay folded while the keys are compared. *)
Ltac find_fields :=
  repeat match goal with |- context [write ?c ?a] => let v := fresh "v" in let e := fresh "e" in remember (write c a) as v eqn:e end;
  match goal with |- context [fmap ?g (fields ?s)] => let l := eval vm_compute in (fmap g (fields s)) in change (fmap g (fields s)) with l end;
  subst.

(** A value of a struct, its optional fields destructed: its keys fit, its values are maps throughout, each field is read back. *)
Tactic Notation "solve_struct" reference(puts) reference(takes) :=
  apply struct_codec_written;
  [ by apply (bool_decide_unpack _); vm_compute
  | cbv beta iota delta [puts put put_some]; reflexivity
  | cbv beta delta [puts]; repeat (apply Forall_app; split); eauto with codec
  | cbv beta iota delta [puts put put_some]; cbn -[write map_get lit fields takes]; find_fields; cbv beta iota delta [takes];
    repeat (rewrite ?take_required_write, ?take_option_write, ?take_default_write, ?take_write by eauto with codec; cbn [mbind option_bind]);
    reflexivity ].

(** ** A reference instance *)

Module RefDerive.
#[export] Existing Instance ref_serde.

#[export] Instance ref_derive : SerdeDerive Z := {
  serialize_struct entries := Object (map_of_list entries);
  deserialize_struct s v :=
    match v with
    | Object m =>
        if forallb (fun f => negb (required f) || map_contains_key (key f) m) (fields s)
           && (negb (deny_unknown_fields s) || forallb (fun k => bool_decide (k ∈ keys s)) m.*1)
        then Some ((fun f => map_get (key f) m) <$> fields s) else None
    | _ => None
    end;
  deserialize_variant names v := match v with String name => if decide (name ∈ names) then Some name else None | _ => None end;
  as_integer n := if in_range i64_min u64_max n then Some n else None;
  deserialize_required A read v := read v;
  serialize_bytes b := String b;
  deserialize_bytes v := as_str v;
}.

#[export] Instance ref_derive_laws : SerdeDeriveLaws Z.
Proof.
  split; try done. intros z [Hl Hh]. cbn. unfold in_range. by rewrite (proj2 (Z.leb_le _ _)), (proj2 (Z.leb_le _ _)) by lia.
Qed.

(** A text form: the value as a tree of [stdpp], and the number of the tree in binary. *)
Fixpoint to_tree (v : Value Z) : gen_tree (unit + bool + Z + str) :=
  match v with
  | Null => GenLeaf (inl (inl (inl ())))
  | Bool b => GenLeaf (inl (inl (inr b)))
  | Number z => GenLeaf (inl (inr z))
  | String s => GenLeaf (inr s)
  | Array l => GenNode 0 (to_tree <$> l)
  | Object m => GenNode 1 (concat ((fun f => [GenLeaf (inr f.1); to_tree f.2]) <$> m))
  end.
Fixpoint of_tree (t : gen_tree (unit + bool + Z + str)) : Value Z :=
  match t with
  | GenLeaf (inl (inl (inl ()))) => Null
  | GenLeaf (inl (inl (inr b))) => Bool b
  | GenLeaf (inl (inr z)) => Number z
  | GenLeaf (inr s) => String s
  | GenNode 0 l => Array (of_tree <$> l)
  | GenNode _ l => Object ((fix fields l := match l with GenLeaf (inr k) :: t :: l => (k, of_tree t) :: fields l | _ => [] end) l)
  end.

Lemma of_to_tree v : of_tree (to_tree v) = v.
Proof.
  induction v as [| | | |l Hl|m Hm] using Value_ind'; try done; cbn; f_equal.
  - induction Hl as [|v l Hv Hl IH]; [done|]. cbn. by rewrite Hv, IH.
  - induction Hm as [|[k v] m Hv Hm IH]; [done|]. cbn in *. by rewrite Hv, IH.
Qed.
#[export] Instance value_countable : Countable (Value Z) := inj_countable' to_tree of_tree of_to_tree.

Fixpoint digits (p : positive) : str := match p with xH => [] | xO p => "0"%char :: digits p | xI p => "1"%char :: digits p end.
Fixpoint of_digits (s : str) : positive :=
  match s with [] => xH | c :: s => if decide (c = "0"%char) then xO (of_digits s) else xI (of_digits s) end.
Lemma of_digits_digits p : of_digits (digits p) = p.
Proof. induction p; cbn; by rewrite ?IHp. Qed.

Definition ref_print (v : Value Z) : str := digits (encode v).
#[export] Instance ref_text : JsonText Z := { print v := Some (ref_print v); parse text := decode (of_digits text) }.
#[export] Instance ref_text_laws : JsonTextLaws Z.
Proof. split. intros v text _ [= <-]. cbn. unfold ref_print. by rewrite of_digits_digits, decode_encode. Qed.
End RefDerive.
End Derive.
