(* ===== verification/OpenApiContract.v ===== *)
(** * Strict OpenAPI contracts ([lenso-openapi-plugin/src/config.rs] and [contract.rs])

    The document policy, and the validation of the contract fragment that a typed endpoint carries: both surfaces, the
    generated one and the authored one, are brought into a canonical form and compared. Resolving schema references is
    a recursion that is not structural; [canonical_schema_with_root] takes a fuel, and [canonical_schema_terminates]
    shows that [schema_fuel] is always enough. *)
From S2P Require Import Prelude RustStd Json.

Module OpenApiContract.
Import Json.

Section contract.
Context {N : Type} `{Serde N}.

Record OpenApiServer := mkServer { server_url : str; server_description : option str }.

Record OpenApiConfig := mkOpenApiConfig {
  title : str; version : str; description : option str; document_path : str; servers : list OpenApiServer;
  components : option (Map N) }.

Definition default_config : OpenApiConfig :=
  mkOpenApiConfig (lit "Lenso App") (lit "0.0.0") None (lit "/openapi.json") [] None.

Definition validate_config (self : OpenApiConfig) : Result str unit :=
  if is_empty (trim (title self)) then Err (lit "title must not be empty") else
  if is_empty (trim (version self)) then Err (lit "version must not be empty") else
  if negb (starts_with_char "/" (document_path self)) || contains_any ["?"; "#"; "{"; "}"]%char (document_path self)
  then Err (lit "document_path must be one static absolute path") else
  if existsb (fun server => is_empty (trim (server_url server))) (servers self)
  then Err (lit "server URLs must not be empty") else
  Ok ().

(** ** Schemas *)

Definition ignored_schema_keyword (key : str) : bool :=
  bool_decide (key ∈ [lit "$schema"; lit "$id"; lit "title"; lit "description"; lit "examples"; lit "example";
                      lit "default"; lit "deprecated"; lit "readOnly"; lit "writeOnly"]).

(** [values.sort_by_key(ToString::to_string)], a stable sort. *)
Fixpoint insert_by_text (v : Value N) (l : list (Value N)) : list (Value N) :=
  match l with
  | [] => [v]
  | w :: l' => if str_leb (to_string v) (to_string w) then v :: l else w :: insert_by_text v l'
  end.
Definition sort_json_array (v : Value N) : Value N :=
  match v with Array l => Array (foldr insert_by_text [] l) | _ => v end.

Definition route_error (route_id detail : str) : str := lit "route " ++ route_id ++ detail.

(** The named component of a section. *)
Definition component (config : OpenApiConfig) (section name : str) : option (Value N) :=
  components config |> map_get section |> as_object |> map_get name.

Definition resolve_schema_reference (config : OpenApiConfig) (reference : str) (local_root : Value N) (route_id : str) :
    Result str (Value N * Value N * str) :=
  match strip_prefix (lit "#/$defs/") reference with
  | Some name =>
      let! target := get (lit "$defs") local_root |> as_object |> map_get name
        else Err (route_error route_id (lit " references missing local OpenAPI definition " ++ reference)) in
      Ok (target, local_root, lit "local:" ++ reference)
  | None =>
      let! name := strip_prefix (lit "#/components/schemas/") reference
        else Err (route_error route_id (lit " uses unsupported OpenAPI schema reference " ++ reference)) in
      if is_empty name || contains_any ["/"%char] name
      then Err (route_error route_id (lit " uses invalid OpenAPI schema reference " ++ reference)) else
      let! target := component config (lit "schemas") name
        else Err (route_error route_id (lit " references missing OpenAPI schema component " ++ reference)) in
      Ok (target, target, lit "component:" ++ reference)
  end.

(** A call's result with the references being resolved; [None]: out of fuel. *)
Definition Canonical (A : Type) : Type := option (Result str A * gset str).

(** The loop over the fields of a schema. *)
Fixpoint canonical_fields (rec : Value N -> gset str -> Canonical (Value N)) (skip : str -> bool)
    (finish : str -> Value N -> Value N) (fields normalized : Map N) (references : gset str) :
    Canonical (Map N) :=
  match fields with
  | [] => Some (Ok normalized, references)
  | (key, value) :: fields =>
      if skip key then canonical_fields rec skip finish fields normalized references else
      match rec value references with
      | None => None
      | Some (Err e, references) => Some (Err e, references)
      | Some (Ok value, references) =>
          canonical_fields rec skip finish fields (map_insert key (finish key value) normalized) references
      end
  end.

Fixpoint canonical_values (rec : Value N -> gset str -> Canonical (Value N)) (values : list (Value N))
    (references : gset str) : Canonical (list (Value N)) :=
  match values with
  | [] => Some (Ok [], references)
  | value :: values =>
      match rec value references with
      | None => None
      | Some (Err e, references) => Some (Err e, references)
      | Some (Ok value, references) =>
          match canonical_values rec values references with
          | Some (Ok values, references) => Some (Ok (value :: values), references)
          | r => r
          end
      end
  end.

(** [$ref] with its text. *)
Definition reference_of (object : Map N) : option str := map_get (lit "$ref") object |> as_str.

Definition sort_keyword (key : str) (value : Value N) : Value N :=
  if bool_decide (key ∈ [lit "required"; lit "enum"]) then sort_json_array value else value.

Fixpoint canonical_schema_with_root (fuel : nat) (config : OpenApiConfig) (schema local_root : Value N) (route_id : str)
    (references : gset str) : Canonical (Value N) :=
  match fuel with
  | O => None
  | S fuel =>
      match schema with
      | Object object =>
          match reference_of object with
          | Some reference =>
              match resolve_schema_reference config reference local_root route_id with
              | Err e => Some (Err e, references)
              | Ok (target, target_root, key) =>
                  if bool_decide (key ∈ references)
                  then Some (Err (route_error route_id (lit " has a cyclic OpenAPI schema reference " ++ reference)), references)
                  else
                  match canonical_schema_with_root fuel config target target_root route_id ({[key]} ∪ references) with
                  | None => None
                  | Some (Err e, references) => Some (Err e, references)
                  | Some (Ok normalized, references) =>
                      let references := references ∖ {[key]} in
                      match as_object normalized with
                      | None => Some (Err (route_error route_id (lit " OpenAPI schema reference " ++ reference
                                             ++ lit " did not resolve to an object")), references)
                      | Some normalized =>
                          match canonical_fields (fun v => canonical_schema_with_root fuel config v local_root route_id)
                                  (fun key => bool_decide (key = lit "$ref") || ignored_schema_keyword key)
                                  (fun _ value => value) object normalized references with
                          | None => None
                          | Some (r, references) => Some (result_map Object r, references)
                          end
                      end
                  end
              end
          | None =>
              match canonical_fields (fun v => canonical_schema_with_root fuel config v local_root route_id)
                      (fun key => ignored_schema_keyword key || bool_decide (key = lit "$defs"))
                      sort_keyword object [] references with
              | None => None
              | Some (r, references) => Some (result_map Object r, references)
              end
          end
      | Array values =>
          match canonical_values (fun v => canonical_schema_with_root fuel config v local_root route_id) values references with
          | None => None
          | Some (r, references) => Some (result_map Array r, references)
          end
      | _ => Some (Ok schema, references)
      end
  end.

(** ** Fuel *)

Definition defs_keys (root : Value N) : list str :=
  match get (lit "$defs") root |> as_object with
  | Some definitions => (fun name => lit "local:" ++ lit "#/$defs/" ++ name) <$> definitions.*1
  | None => []
  end.

Definition schema_components (config : OpenApiConfig) : Map N :=
  default [] (components config |> map_get (lit "schemas") |> as_object).

(** The references that can ever be resolved. *)
Definition reference_keys (config : OpenApiConfig) (schema : Value N) : gset str :=
  list_to_set (defs_keys schema ++ ((fun f => lit "component:" ++ lit "#/components/schemas/" ++ f.1) <$> schema_components config)
               ++ concat (defs_keys <$> (schema_components config).*2)).

Definition schema_height (config : OpenApiConfig) (schema : Value N) : nat :=
  Nat.max (height schema) (max_height (schema_components config).*2).

Definition schema_fuel (config : OpenApiConfig) (schema : Value N) : nat :=
  S (size (reference_keys config schema) * S (schema_height config schema) + schema_height config schema).

(** The [None] case never happens ([canonical_schema_terminates]). *)
Definition canonical_schema (config : OpenApiConfig) (schema : Value N) (route_id : str) : Result str (Value N) :=
  match canonical_schema_with_root (schema_fuel config schema) config schema schema route_id ∅ with
  | Some (r, _) => r
  | None => Err (lit "out of fuel")
  end.

(** ** Surfaces *)

Definition resolve_component (config : OpenApiConfig) (value : Value N) (section route_id : str) : Result str (Value N) :=
  match get (lit "$ref") value |> as_str with
  | None => Ok value
  | Some reference =>
      let prefix := lit "#/components/" ++ section ++ lit "/" in
      let! name := strip_prefix prefix reference
        else Err (route_error route_id (lit " uses unsupported OpenAPI reference " ++ reference)) in
      if is_empty name || contains_any ["/"%char] name
      then Err (route_error route_id (lit " uses invalid OpenAPI reference " ++ reference)) else
      ok_or (route_error route_id (lit " references missing OpenAPI component " ++ reference)) (component config section name)
  end.

Definition media_schema (config : OpenApiConfig) (route_id : str) (object : Map N) (expected_media_type origin : str) :
    Result str (Value N) :=
  let message detail := route_error route_id (lit " " ++ origin ++ lit " OpenAPI " ++ detail) in
  let! content := map_get (lit "content") object |> as_object else Err (message (lit "content must be an object")) in
  if negb (len content =? 1)%Z || negb (map_contains_key expected_media_type content)
  then Err (message (lit "content must contain only " ++ expected_media_type)) else
  let! media := map_get expected_media_type content |> as_object
    else Err (message (expected_media_type ++ lit " content must be an object")) in
  let! schema := map_get (lit "schema") media else Err (message (expected_media_type ++ lit " content has no schema")) in
  canonical_schema config schema route_id.

Record ParameterSpec := mkParameter { parameter_required : bool; parameter_schema : Value N }.
#[global] Instance ParameterSpec_eq_dec : EqDecision ParameterSpec.
Proof. solve_decision. Defined.

Definition validate_parameter_serialization (parameter : Map N) (location route_id name : str) : Result str unit :=
  let message detail := route_error route_id (lit " strict OpenAPI " ++ location ++ lit " parameter " ++ name ++ detail) in
  let default_style := if bool_decide (location = lit "path") then lit "simple" else lit "form" in
  if match map_get (lit "style") parameter |> as_str with Some style => negb (bool_decide (style = default_style)) | None => false end
  then Err (message (lit " uses a non-default serialization style")) else
  let default_explode := bool_decide (location = lit "query") in
  if match map_get (lit "explode") parameter |> as_bool with
     | Some explode => negb (Bool.eqb explode default_explode) | None => false end
  then Err (message (lit " uses a non-default explode setting")) else
  if default false (map_get (lit "allowReserved") parameter |> as_bool) then Err (message (lit " sets allowReserved")) else
  Ok ().

(** The body of the loop of [parameter_map]. *)
Definition add_parameter (config : OpenApiConfig) (route_id origin : str) (parameters : gmap (str * str) ParameterSpec)
    (value : Value N) : Result str (gmap (str * str) ParameterSpec) :=
  let? value := resolve_component config value (lit "parameters") route_id in
  let! object := as_object value
    else Err (route_error route_id (lit " has a non-object " ++ origin ++ lit " OpenAPI parameter")) in
  let! location := map_get (lit "in") object |> as_str
    else Err (route_error route_id (lit " has an OpenAPI parameter without a location")) in
  if negb (bool_decide (location ∈ [lit "path"; lit "query"])) then Ok parameters else
  let! name := map_get (lit "name") object |> as_str
    else Err (route_error route_id (lit " has a " ++ location ++ lit " parameter without a name")) in
  let! required := map_get (lit "required") object |> as_bool
    else Err (route_error route_id (lit " " ++ location ++ lit " parameter " ++ name ++ lit " must declare required")) in
  if bool_decide (location = lit "path") && negb required
  then Err (route_error route_id (lit " path parameter " ++ name ++ lit " must be required")) else
  let? _ := validate_parameter_serialization object location route_id name in
  let! schema := map_get (lit "schema") object
    else Err (route_error route_id (lit " " ++ location ++ lit " parameter " ++ name ++ lit " has no schema")) in
  let? schema := canonical_schema config schema route_id in
  match parameters !! (location, name) with
  | Some _ => Err (route_error route_id (lit " declares the same " ++ location ++ lit " parameter " ++ name
                     ++ lit " more than once"))
  | None => Ok (<[(location, name) := mkParameter required schema]> parameters)
  end.

Definition parameter_map (config : OpenApiConfig) (route_id : str) (value : option (Value N)) (origin : str) :
    Result str (gmap (str * str) ParameterSpec) :=
  match value with
  | None => Ok ∅
  | Some value =>
      let! values := as_array value
        else Err (route_error route_id (lit " has non-array " ++ origin ++ lit " OpenAPI parameters")) in
      try_fold (add_parameter config route_id origin) ∅ values
  end.

Record RequestBody := mkRequestBody { body_required : bool; body_schema : Value N }.
#[global] Instance RequestBody_eq_dec : EqDecision RequestBody.
Proof. solve_decision. Defined.

Definition request_body (config : OpenApiConfig) (route_id : str) (value : Value N) (origin : str) : Result str RequestBody :=
  let! object := as_object value
    else Err (route_error route_id (lit " has a non-object " ++ origin ++ lit " OpenAPI requestBody")) in
  let required := default false (map_get (lit "required") object |> as_bool) in
  let? schema := media_schema config route_id object (lit "application/json") origin in
  Ok (mkRequestBody required schema).

Record Response := mkResponse { media_type : str; response_schema : Value N }.
#[global] Instance Response_eq_dec : EqDecision Response.
Proof. solve_decision. Defined.

Definition is_status_code (status : str) : bool :=
  (len status =? 3)%Z
  && match parse_unsigned u16_max status with Some status => in_range 100 599 status | None => false end.

(** The body of the loop of [response_map]. *)
Definition add_response (config : OpenApiConfig) (route_id origin : str) (responses : gmap str Response)
    (field : str * Value N) : Result str (gmap str Response) :=
  let '(status, value) := field in
  if negb (is_status_code status)
  then Err (route_error route_id (lit " strict OpenAPI response key " ++ status ++ lit " is not an explicit HTTP status")) else
  let? value := resolve_component config value (lit "responses") route_id in
  let! object := as_object value
    else Err (route_error route_id (lit " has a non-object " ++ origin ++ lit " response " ++ status)) in
  let media_type := if starts_with_char "2" status then lit "application/json" else lit "application/problem+json" in
  let? schema := media_schema config route_id object media_type origin in
  Ok (<[status := mkResponse media_type schema]> responses).

Definition response_map (config : OpenApiConfig) (route_id : str) (value : option (Value N)) (origin : str) :
    Result str (gmap str Response) :=
  let! object := value |> as_object
    else Err (route_error route_id (lit " has a non-object " ++ origin ++ lit " OpenAPI responses field")) in
  try_fold (add_response config route_id origin) ∅ object.

(** ** Validation *)

Definition require_string (contract : Map N) (field actual route_id : str) : Result str unit :=
  let! expected := map_get field contract |> as_str
    else Err (route_error route_id (lit " has a generated contract without string " ++ field)) in
  if bool_decide (expected = actual) then Ok () else
  Err (route_error route_id (lit " strict OpenAPI contract drifted " ++ field ++ lit ": generated `" ++ expected
         ++ lit "`, declared `" ++ actual ++ lit "`")).

(** The order of the keys of a [BTreeMap<(String, String), _>]. *)
Definition pair_le (a b : str * str) : Prop := str_leb a.1 b.1 = true /\ (a.1 = b.1 -> str_leb a.2 b.2 = true).
#[local] Instance pair_le_dec : RelDecision (fun a b : (str * str) * ParameterSpec => pair_le a.1 b.1).
Proof. intros a b. unfold pair_le. apply _. Defined.

Definition validate_parameters (config : OpenApiConfig) (route_id : str) (expected operation : Map N) : Result str unit :=
  let? expected := parameter_map config route_id (map_get (lit "parameters") expected) (lit "generated") in
  let? actual := parameter_map config route_id (map_get (lit "parameters") operation) (lit "authored") in
  if negb (bool_decide (dom expected = dom actual))
  then Err (route_error route_id (lit " strict OpenAPI path or query parameters differ from its typed handler")) else
  match find (fun e => negb (bool_decide (Some e.2 = actual !! e.1)))
          (merge_sort (fun a b => pair_le a.1 b.1) (map_to_list expected)) with
  | Some (key, _) => Err (route_error route_id (lit " strict OpenAPI " ++ key.1 ++ lit " parameter `" ++ key.2
                            ++ lit "` differs from its typed handler"))
  | None => Ok ()
  end.

Definition validate_request_body (config : OpenApiConfig) (route_id : str) (expected operation : Map N) : Result str unit :=
  match map_get (lit "requestBody") expected, map_get (lit "requestBody") operation with
  | None, None => Ok ()
  | None, Some _ | Some _, None =>
      Err (route_error route_id (lit " strict OpenAPI request body differs from its typed handler"))
  | Some expected, Some actual =>
      let? expected := resolve_component config expected (lit "requestBodies") route_id in
      let? actual := resolve_component config actual (lit "requestBodies") route_id in
      let? expected := request_body config route_id expected (lit "generated") in
      let? actual := request_body config route_id actual (lit "authored") in
      if bool_decide (expected = actual) then Ok ()
      else Err (route_error route_id (lit " strict OpenAPI JSON request body differs from its typed handler"))
  end.

#[local] Instance status_le_dec : RelDecision (fun a b : str * Response => str_le a.1 b.1) := fun a b => str_le_dec a.1 b.1.

Definition validate_responses (config : OpenApiConfig) (route_id : str) (expected operation : Map N) : Result str unit :=
  let? expected := response_map config route_id (map_get (lit "responses") expected) (lit "generated") in
  let? actual := response_map config route_id (map_get (lit "responses") operation) (lit "authored") in
  if negb (bool_decide (dom expected = dom actual))
  then Err (route_error route_id (lit " strict OpenAPI success or known error responses differ from its typed handler")) else
  match find (fun e => negb (bool_decide (Some e.2 = actual !! e.1)))
          (merge_sort (fun a b => str_le a.1 b.1) (map_to_list expected)) with
  | Some (status, _) => Err (route_error route_id (lit " strict OpenAPI response " ++ status
                               ++ lit " differs from its typed handler"))
  | None => Ok ()
  end.

Definition validate (config : OpenApiConfig) (route_id method path : str) (operation : Map N) (contract : Value N) :
    Result str unit :=
  let! contract := as_object contract
    else Err (route_error route_id (lit " has a non-object generated strict OpenAPI contract")) in
  let? _ := require_string contract (lit "route_id") route_id route_id in
  let? _ := require_string contract (lit "method") method route_id in
  let? _ := require_string contract (lit "path") path route_id in
  let! expected := map_get (lit "operation") contract |> as_object
    else Err (route_error route_id (lit " has a generated contract without an operation")) in
  let? _ := validate_parameters config route_id expected operation in
  let? _ := validate_request_body config route_id expected operation in
  validate_responses config route_id expected operation.

(** ** Termination *)

Lemma insert_remove (key : str) (X : gset str) : key ∉ X -> ({[key]} ∪ X) ∖ {[key]} = X.
Proof. set_solver. Qed.

Lemma size_difference_insert (key : str) (U X : gset str) : key ∈ U -> key ∉ X -> size (U ∖ X) = S (size (U ∖ ({[key]} ∪ X))).
Proof.
  intros HU HX. assert (Hu : U ∖ X = {[key]} ∪ U ∖ ({[key]} ∪ X)).
  { apply set_eq. intros x. destruct (decide (x = key)) as [->|]; set_solver. }
  rewrite Hu, size_union, size_singleton by set_solver. lia.
Qed.

Lemma canonical_fields_references rec skip finish fields m references r references' :
  (forall v refs r refs', rec v refs = Some (Ok r, refs') -> refs' = refs) ->
  canonical_fields rec skip finish fields m references = Some (Ok r, references') -> references' = references.
Proof.
  intros Hrec. revert m; induction fields as [|[k v] fields IH]; intros m Hc; cbn in Hc; [by injection Hc as _ <-|].
  destruct (skip k); [by eapply IH|]. destruct (rec v references) as [[[v'|e] refs]|] eqn:Er; [|done|done].
  apply Hrec in Er as ->. by eapply IH.
Qed.

Lemma canonical_values_references rec values references r references' :
  (forall v refs r refs', rec v refs = Some (Ok r, refs') -> refs' = refs) ->
  canonical_values rec values references = Some (Ok r, references') -> references' = references.
Proof.
  intros Hrec. revert r; induction values as [|v values IH]; intros r Hc; cbn in Hc; [by injection Hc as _ <-|].
  destruct (rec v references) as [[[v'|e] refs]|] eqn:Er; [|done|done]. apply Hrec in Er as ->.
  destruct (canonical_values rec values references) as [[[vs|e] refs]|]; [|done|done].
  injection Hc as <- <-. by eapply IH.
Qed.

(** A successful call leaves the set of references as it was. *)
Lemma canonical_references fuel config schema root route_id references v references' :
  canonical_schema_with_root fuel config schema root route_id references = Some (Ok v, references') ->
  references' = references.
Proof.
  revert schema root references v references'; induction fuel as [|fuel IH]; intros schema root references v references' Hc; [done|].
  cbn [canonical_schema_with_root] in Hc. destruct schema as [| | | |values|object]; try by injection Hc as _ <-.
  - destruct (canonical_values _ values references) as [[r refs]|] eqn:Ev; [|done]. destruct r; [|done]. injection Hc as _ <-.
    eapply canonical_values_references; [|exact Ev]. intros ? ? ? ?; apply IH.
  - destruct (reference_of object) as [reference|].
    + destruct (resolve_schema_reference _ _ _ _) as [[[target target_root] key]|e]; [|done].
      case_bool_decide as Hk; [done|].
      destruct (canonical_schema_with_root fuel _ target _ _ _) as [[[normalized|e] refs]|] eqn:Et; [|done|done].
      apply IH in Et as ->. assert (Hrefs : ({[key]} ∪ references) ∖ {[key]} = references) by (by apply insert_remove).
      rewrite Hrefs in Hc. destruct (as_object normalized) as [m|]; [|done].
      destruct (canonical_fields _ _ _ object m references) as [[r refs]|] eqn:Ef; [|done]. destruct r; [|done]. injection Hc as _ <-.
      eapply canonical_fields_references; [|exact Ef]. intros ? ? ? ?; apply IH.
    + destruct (canonical_fields _ _ _ object [] references) as [[r refs]|] eqn:Ef; [|done]. destruct r; [|done]. injection Hc as _ <-.
      eapply canonical_fields_references; [|exact Ef]. intros ? ? ? ?; apply IH.
Qed.

Lemma canonical_fields_total rec skip finish fields m references :
  (forall v refs r refs', rec v refs = Some (Ok r, refs') -> refs' = refs) ->
  (forall v, v ∈ fields.*2 -> rec v references <> None) ->
  canonical_fields rec skip finish fields m references <> None.
Proof.
  intros Hrec. revert m; induction fields as [|[k v] fields IH]; intros m Hn; cbn; [done|].
  destruct (skip k); [apply IH; intros w Hw; apply Hn; by right|].
  destruct (rec v references) as [[[v'|e] refs]|] eqn:Er; [|done|].
  - apply Hrec in Er as ->. apply IH. intros w Hw. apply Hn. by right.
  - by destruct (Hn v ltac:(by left)).
Qed.

Lemma canonical_values_total rec values references :
  (forall v refs r refs', rec v refs = Some (Ok r, refs') -> refs' = refs) ->
  (forall v, v ∈ values -> rec v references <> None) ->
  canonical_values rec values references <> None.
Proof.
  intros Hrec. induction values as [|v values IH]; intros Hn; cbn; [done|].
  destruct (rec v references) as [[[v'|e] refs]|] eqn:Er; [|done|].
  - apply Hrec in Er as ->. assert (H1 : canonical_values rec values references <> None) by (apply IH; intros w Hw; apply Hn; by right).
    destruct (canonical_values rec values references) as [[[vs|e] refs]|]; done.
  - by destruct (Hn v ltac:(by left)).
Qed.

(** The roots local references are resolved in: the given schema, or a schema component. *)
Definition RootOk (config : OpenApiConfig) (schema root : Value N) : Prop :=
  root = schema \/ root ∈ (schema_components config).*2.

Lemma definition_height name root target :
  get (lit "$defs") root |> as_object |> map_get name = Some target ->
  lit "local:" ++ lit "#/$defs/" ++ name ∈ defs_keys root /\ height target <= height root.
Proof.
  unfold defs_keys, get. destruct root as [| | | | |m]; cbn [as_object mbind option_bind]; try done.
  destruct (map_get (lit "$defs") m) as [d|] eqn:Ed; cbn [mbind option_bind]; [|done].
  destruct d as [| | | | |defs]; cbn [as_object mbind option_bind]; try done. intros Ht. split.
  - apply list_elem_of_fmap. exists name. split; [done|]. apply map_get_elem in Ht. apply list_elem_of_fmap. by exists (name, target).
  - apply map_get_elem in Ht, Ed. rewrite height_object.
    pose proof (max_height_le (Object defs) m.*2 ltac:(apply list_elem_of_fmap; by exists (lit "$defs", Object defs))) as H1.
    rewrite height_object in H1.
    pose proof (max_height_le target defs.*2 ltac:(apply list_elem_of_fmap; by exists (name, target))). lia.
Qed.

Lemma root_bounded config schema root : RootOk config schema root ->
  height root <= schema_height config schema /\ list_to_set (defs_keys root) ⊆ reference_keys config schema.
Proof.
  unfold schema_height, reference_keys. intros [->|Hr].
  - split; [lia|]. rewrite !list_to_set_app_L. set_solver.
  - split; [pose proof (max_height_le _ _ Hr); lia|]. rewrite !list_to_set_app_L. intros k Hk.
    apply elem_of_union_r, elem_of_union_r. rewrite elem_of_list_to_set in *. apply list_elem_of_In, in_concat.
    exists (defs_keys root). rewrite <- !list_elem_of_In. split; [|done]. apply list_elem_of_fmap. by exists root.
Qed.

Lemma strip_prefix_app p s s' : strip_prefix p s = Some s' -> s = p ++ s'.
Proof.
  revert s; induction p as [|a p IH]; intros s; cbn; [by intros [= ->]|]. destruct s as [|b s]; [done|].
  case_decide; [subst|done]. intros Hs. cbn. f_equal. by apply IH.
Qed.

Lemma resolve_bounded config schema root route_id reference target target_root key : RootOk config schema root ->
  resolve_schema_reference config reference root route_id = Ok (target, target_root, key) ->
  key ∈ reference_keys config schema /\ RootOk config schema target_root /\ height target <= schema_height config schema.
Proof.
  intros Hr. pose proof (root_bounded _ _ _ Hr) as [Hh Hk]. unfold resolve_schema_reference.
  destruct (strip_prefix (lit "#/$defs/") reference) as [name|] eqn:Es.
  - apply strip_prefix_app in Es. destruct (_ |> map_get name) as [t|] eqn:Et; [|done]. intros [= <- <- <-].
    apply definition_height in Et as [Hin Ht]. rewrite Es. split; [|split; [done | lia]]. apply Hk. by apply elem_of_list_to_set.
  - clear Es. destruct (strip_prefix (lit "#/components/schemas/") reference) as [name|] eqn:Es; [|done].
    apply strip_prefix_app in Es. destruct (_ || _); [done|].
    destruct (component config (lit "schemas") name) as [t|] eqn:Et; [|done]. intros [= <- <- <-].
    assert (Hc : map_get name (schema_components config) = Some t).
    { unfold component in Et. unfold schema_components. destruct (_ |> as_object); [done | discriminate Et]. }
    apply map_get_elem in Hc. assert (Ht : t ∈ (schema_components config).*2) by (apply list_elem_of_fmap; by exists (name, t)).
    split; [|split; [by right | by apply root_bounded; right]]. unfold reference_keys. apply elem_of_list_to_set, elem_of_app. right.
    apply elem_of_app. left. apply list_elem_of_fmap. exists (name, t). split; [by rewrite Es | done].
Qed.

(** Every step lowers the number of references left, or keeps it and descends into the value. *)
Lemma canonical_total fuel config schema0 schema root route_id references : RootOk config schema0 root ->
  height schema <= schema_height config schema0 ->
  size (reference_keys config schema0 ∖ references) * S (schema_height config schema0) + height schema < fuel ->
  canonical_schema_with_root fuel config schema root route_id references <> None.
Proof.
  set (U := reference_keys config schema0). set (M := schema_height config schema0).
  revert schema root references; induction fuel as [|fuel IH]; intros schema root references Hroot Hh Hf; [lia|].
  cbn [canonical_schema_with_root].
  pose proof (canonical_references fuel config) as Hrefs.
  assert (Hsub : forall v, height v < height schema -> canonical_schema_with_root fuel config v root route_id references <> None).
  { intros v Hv. apply IH; [done | lia | lia]. }
  destruct schema as [| | | |values|object]; try done.
  - rewrite height_array in *. assert (Hv : canonical_values (fun v => canonical_schema_with_root fuel config v root route_id)
      values references <> None).
    { apply canonical_values_total; [by intros ? ? ? ?; apply Hrefs|]. intros v Hv. apply Hsub. pose proof (max_height_le _ _ Hv). lia. }
    destruct (canonical_values _ values references) as [[r refs]|]; done.
  - rewrite height_object in *.
    assert (Hv : forall skip finish m, canonical_fields (fun v => canonical_schema_with_root fuel config v root route_id)
      skip finish object m references <> None).
    { intros skip finish m. apply canonical_fields_total; [by intros ? ? ? ?; apply Hrefs|]. intros v Hv. apply Hsub. pose proof (max_height_le _ _ Hv). lia. }
    destruct (reference_of object) as [reference|].
    + destruct (resolve_schema_reference _ _ _ _) as [[[target target_root] key]|e] eqn:Er; [|done].
      apply (resolve_bounded _ schema0) in Er as (Hkey & Htr & Hth); [|done]. case_bool_decide as Hk; [done|].
      assert (Hsize : size (U ∖ references) = S (size (U ∖ ({[key]} ∪ references)))) by (by apply size_difference_insert).
      assert (Ht : canonical_schema_with_root fuel config target target_root route_id ({[key]} ∪ references) <> None).
      { apply IH; [done | done |]. rewrite Hsize in Hf. lia. }
      destruct (canonical_schema_with_root fuel config target _ _ _) as [[[normalized|e] refs]|] eqn:Et; [|done|done].
      apply canonical_references in Et as ->. assert (Heq : ({[key]} ∪ references) ∖ {[key]} = references) by (by apply insert_remove).
      rewrite Heq. destruct (as_object normalized) as [m|]; [|done]. specialize (Hv (fun key => bool_decide (key = lit "$ref") || ignored_schema_keyword key) (fun _ value => value) m).
      destruct (canonical_fields _ _ _ object m references) as [[r refs]|]; done.
    + specialize (Hv (fun key => ignored_schema_keyword key || bool_decide (key = lit "$defs")) sort_keyword []).
      destruct (canonical_fields _ _ _ object [] references) as [[r refs]|]; done.
Qed.

(** More fuel does not change a result. *)
Lemma canonical_fields_mono (rec rec' : Value N -> gset str -> Canonical (Value N)) skip finish fields m references r :
  (forall v refs r, rec v refs = Some r -> rec' v refs = Some r) ->
  canonical_fields rec skip finish fields m references = Some r ->
  canonical_fields rec' skip finish fields m references = Some r.
Proof.
  intros Hrec. revert m references; induction fields as [|[k v] fields IH]; intros m references; cbn; [done|].
  destruct (skip k); [apply IH|]. destruct (rec v references) as [[[v'|e] refs]|] eqn:Er; [| |done];
    rewrite (Hrec _ _ _ Er); [apply IH | done].
Qed.

Lemma canonical_values_mono (rec rec' : Value N -> gset str -> Canonical (Value N)) values references r :
  (forall v refs r, rec v refs = Some r -> rec' v refs = Some r) ->
  canonical_values rec values references = Some r -> canonical_values rec' values references = Some r.
Proof.
  intros Hrec. revert references r; induction values as [|v values IH]; intros references r; cbn; [done|].
  destruct (rec v references) as [[[v'|e] refs]|] eqn:Er; [| |done]; rewrite (Hrec _ _ _ Er); [|done].
  destruct (canonical_values rec values refs) as [[[vs|e] refs']|] eqn:Ev; [| |done]; by rewrite (IH _ _ Ev).
Qed.

Lemma canonical_mono fuel fuel' config schema root route_id references r : fuel <= fuel' ->
  canonical_schema_with_root fuel config schema root route_id references = Some r ->
  canonical_schema_with_root fuel' config schema root route_id references = Some r.
Proof.
  revert fuel' schema root references r; induction fuel as [|fuel IH]; intros [|fuel'] schema root references r Hle; [done|done|lia|].
  assert (Hrec : forall root v refs r, canonical_schema_with_root fuel config v root route_id refs = Some r ->
    canonical_schema_with_root fuel' config v root route_id refs = Some r) by (intros; apply IH; [lia | done]).
  cbn [canonical_schema_with_root]. destruct schema as [| | | |values|object]; try done.
  - destruct (canonical_values _ values references) as [r'|] eqn:Ev; [|done].
    erewrite canonical_values_mono; [done | | exact Ev]. intros ? ? ?; apply Hrec.
  - destruct (reference_of object) as [reference|].
    + destruct (resolve_schema_reference _ _ _ _) as [[[target target_root] key]|e]; [|done]. case_bool_decide; [done|].
      destruct (canonical_schema_with_root fuel config target _ _ _) as [[[normalized|e] refs]|] eqn:Et; [| |done];
        rewrite (Hrec _ _ _ _ Et); [|done]. destruct (as_object normalized) as [m|]; [|done].
      destruct (canonical_fields _ _ _ object m _) as [r'|] eqn:Ef; [|done].
      erewrite canonical_fields_mono; [done | | exact Ef]. intros ? ? ?; apply Hrec.
    + destruct (canonical_fields _ _ _ object [] references) as [r'|] eqn:Ef; [|done].
      erewrite canonical_fields_mono; [done | | exact Ef]. intros ? ? ?; apply Hrec.
Qed.

Lemma canonical_enough fuel config schema route_id : schema_fuel config schema <= fuel ->
  exists references, canonical_schema_with_root fuel config schema schema route_id ∅
                     = Some (canonical_schema config schema route_id, references).
Proof.
  intros Hf. unfold canonical_schema.
  assert (Ht : canonical_schema_with_root (schema_fuel config schema) config schema schema route_id ∅ <> None).
  { apply (canonical_total _ _ schema); [by left | unfold schema_height; lia |].
    unfold schema_fuel. rewrite difference_empty_L. unfold schema_height. lia. }
  destruct (canonical_schema_with_root (schema_fuel config schema) _ _ _ _ _) as [[r refs]|] eqn:Ec; [|done].
  exists refs. by apply (canonical_mono (schema_fuel config schema)).
Qed.

(** ** The canonical form *)

(** No reference is left, no annotation keyword, and every map is one. *)
Fixpoint CanonicalForm (v : Value N) : Prop :=
  match v with
  | Array l => (fix all l := match l with [] => True | v :: l => CanonicalForm v /\ all l end) l
  | Object m => (MapOk m /\ reference_of m = None /\ Forall (fun key => ignored_schema_keyword key = false) m.*1)
      /\ (fix all m := match m with [] => True | f :: m => CanonicalForm f.2 /\ all m end) m
  | _ => True
  end.

Definition MapCanonical (m : Map N) : Prop :=
  (MapOk m /\ reference_of m = None /\ Forall (fun key => ignored_schema_keyword key = false) m.*1)
  /\ Forall (fun f => CanonicalForm f.2) m.

Lemma CanonicalForm_array l : CanonicalForm (Array l) <-> Forall CanonicalForm l.
Proof. cbn. induction l as [|v l IH]; [split; [constructor | done]|]. by rewrite Forall_cons, IH. Qed.
Lemma CanonicalForm_object m : CanonicalForm (Object m) <-> MapCanonical m.
Proof.
  unfold MapCanonical. cbn. apply and_iff_compat_l.
  induction m as [|f m IH]; [split; [constructor | done]|]. by rewrite Forall_cons, IH.
Qed.

Lemma map_canonical_insert k v m : MapCanonical m -> CanonicalForm v -> ignored_schema_keyword k = false ->
  (k = lit "$ref" -> as_str v = None) -> MapCanonical (map_insert k v m).
Proof.
  intros [(Hm & Hr & Hk) Hf] Hv Hi Href. split; [split; [by apply map_insert_ok | split]|].
  - unfold reference_of in *. destruct (decide (k = lit "$ref")) as [->|Hn].
    + rewrite map_get_insert_eq by done. cbn. by apply Href.
    + by rewrite map_get_insert_ne.
  - apply Forall_forall. intros x Hx. apply map_insert_keys in Hx as [->|Hx]; [done|]. rewrite Forall_forall in Hk. by apply Hk.
  - by apply map_insert_Forall.
Qed.

Lemma insert_by_text_Forall P v l : P v -> Forall P l -> Forall P (insert_by_text v l).
Proof.
  intros Hv. induction 1 as [|w l Hw Hl IH]; cbn; [by repeat constructor|]. destruct (str_leb _ _); repeat constructor; auto.
Qed.

Lemma sort_keyword_canonical key v : CanonicalForm v ->
  CanonicalForm (sort_keyword key v) /\ (as_str v = None -> as_str (sort_keyword key v) = None).
Proof.
  unfold sort_keyword. intros Hv. case_bool_decide; [|done]. destruct v as [| | | |l|]; try done. split; [|done].
  apply CanonicalForm_array in Hv. apply CanonicalForm_array. induction Hv as [|v l Hv Hl IH]; cbn; [constructor|].
  by apply insert_by_text_Forall.
Qed.

Lemma canonical_fields_form rec skip finish fields m references r references' :
  (forall v refs r refs', v ∈ fields.*2 -> rec v refs = Some (Ok r, refs') -> CanonicalForm r /\ (as_str v = None -> as_str r = None)) ->
  (forall k v, CanonicalForm v -> CanonicalForm (finish k v) /\ (as_str v = None -> as_str (finish k v) = None)) ->
  (forall k, skip k = false -> ignored_schema_keyword k = false) ->
  (forall k v, (k, v) ∈ fields -> skip k = false -> k = lit "$ref" -> as_str v = None) ->
  MapCanonical m -> canonical_fields rec skip finish fields m references = Some (Ok r, references') -> MapCanonical r.
Proof.
  intros Hrec Hfin Hskip. revert m references; induction fields as [|[k v] fields IH]; intros m references Href Hm Hc; cbn in Hc.
  - by injection Hc as <- _.
  - assert (Href' : forall k v, (k, v) ∈ fields -> skip k = false -> k = lit "$ref" -> as_str v = None)
      by (intros k0 v0 Hin; apply Href; by right).
    assert (Hrec' : forall v refs r refs', v ∈ fields.*2 -> rec v refs = Some (Ok r, refs') ->
      CanonicalForm r /\ (as_str v = None -> as_str r = None)) by (intros ? ? ? ? Hin; eapply Hrec; by right).
    destruct (skip k) eqn:Ek; [by eapply IH|]. destruct (rec v references) as [[[v'|e] refs]|] eqn:Er; [|done|done].
    apply Hrec in Er as [Hv' Hs]; [|by left]. destruct (Hfin k v' Hv') as [Hf1 Hf2].
    eapply IH; [done | done | | exact Hc]. apply map_canonical_insert; auto. intros ->. apply Hf2, Hs. by apply (Href (lit "$ref")); [left|..].
Qed.

Lemma canonical_values_form rec values references r references' :
  (forall v refs r refs', v ∈ values -> rec v refs = Some (Ok r, refs') -> CanonicalForm r) ->
  canonical_values rec values references = Some (Ok r, references') -> Forall CanonicalForm r.
Proof.
  revert references r references'; induction values as [|v values IH]; intros references r references' Hrec Hc; cbn in Hc.
  - injection Hc as <- _. constructor.
  - destruct (rec v references) as [[[v'|e] refs]|] eqn:Er; [|done|done].
    destruct (canonical_values rec values refs) as [[[vs|e] refs']|] eqn:Ev; [|done|done]. injection Hc as <- _.
    constructor; [eapply Hrec; [by left | exact Er] | eapply IH; [|exact Ev]]. intros ? ? ? ? Hin. apply Hrec. by right.
Qed.

(** The configuration's components are well-formed JSON. *)
Definition ConfigWf (config : OpenApiConfig) : Prop := forall m, components config = Some m -> Wf (Object m).

Lemma Wf_field k (m : Map N) v : Wf (Object m) -> map_get k m = Some v -> Wf v.
Proof.
  intros [_ Hf]%Wf_object Hg. rewrite Forall_forall in Hf. apply map_get_elem in Hg. apply (Hf _ Hg).
Qed.

Lemma component_wf config section name t : ConfigWf config -> component config section name = Some t -> Wf t.
Proof.
  intros Hc. unfold component. destruct (components config) as [m|] eqn:Em; [|done]. cbn [mbind option_bind].
  destruct (map_get section m) as [v|] eqn:Ev; [|done]. apply (Wf_field _ _ _ (Hc _ Em)) in Ev. cbn [mbind option_bind].
  destruct v; try done. cbn. by apply Wf_field.
Qed.

Lemma resolve_wf config reference root route_id target target_root key : ConfigWf config -> Wf root ->
  resolve_schema_reference config reference root route_id = Ok (target, target_root, key) -> Wf target /\ Wf target_root.
Proof.
  intros Hc Hr. unfold resolve_schema_reference. destruct (strip_prefix (lit "#/$defs/") reference) as [name|].
  - unfold get. destruct root as [| | | | |m]; try done. cbn [as_object mbind option_bind].
    destruct (map_get (lit "$defs") m) as [d|] eqn:Ed; [|done]. pose proof (Wf_field _ _ _ Hr Ed) as Hd. cbn [mbind option_bind].
    destruct d as [| | | | |defs]; try done. cbn [as_object mbind option_bind].
    destruct (map_get name defs) as [t|] eqn:Et; [|done]. intros [= <- <- <-]. split; [by eapply Wf_field | done].
  - destruct (strip_prefix _ reference) as [name|]; [|done]. destruct (_ || _); [done|].
    destruct (component _ _ name) as [t|] eqn:Et; [|done]. intros [= <- <- <-]. by apply component_wf in Et.
Qed.

Lemma canonical_form fuel config schema root route_id references v references' : ConfigWf config -> Wf schema -> Wf root ->
  canonical_schema_with_root fuel config schema root route_id references = Some (Ok v, references') ->
  CanonicalForm v /\ (as_str schema = None -> as_str v = None).
Proof.
  intros Hc. revert schema root references v references'; induction fuel as [|fuel IH]; intros schema root references v references' Hs Hr Hv; [done|].
  cbn [canonical_schema_with_root] in Hv. destruct schema as [| | | |values|object]; try by injection Hv as <- _.
  - destruct (canonical_values _ values references) as [[[vs|e] refs]|] eqn:Ev; [|done|done]. injection Hv as <- _. split; [|done].
    apply CanonicalForm_array. eapply canonical_values_form; [|exact Ev]. intros w refs' w' refs'' Hin Hw. apply Wf_array in Hs.
    rewrite Forall_forall in Hs. eapply IH; [by apply Hs | exact Hr | exact Hw].
  - pose proof Hs as [Hm Hf]%Wf_object. rewrite Forall_forall in Hf.
    assert (Hrec : forall w refs w' refs', w ∈ object.*2 -> canonical_schema_with_root fuel config w root route_id refs = Some (Ok w', refs') ->
      CanonicalForm w' /\ (as_str w = None -> as_str w' = None)).
    { intros w refs w' refs' Hin. apply IH; [|done]. apply list_elem_of_fmap in Hin as (f & -> & Hin). by apply Hf. }
    destruct (reference_of object) as [reference|] eqn:Eref.
    + destruct (resolve_schema_reference _ _ _ _) as [[[target target_root] key]|e] eqn:Er; [|done].
      apply resolve_wf in Er as [Ht Htr]; [|done|done]. case_bool_decide; [done|].
      destruct (canonical_schema_with_root fuel config target _ _ _) as [[[normalized|e] refs]|] eqn:Et; [|done|done].
      apply IH in Et as [Hn _]; [|done|done]. destruct normalized as [| | | | |m]; try done. cbn [as_object] in Hv.
      destruct (canonical_fields _ _ _ object m _) as [[[r|e] refs']|] eqn:Ef; [|done|done]. injection Hv as <- _. split; [|done].
      apply CanonicalForm_object. apply CanonicalForm_object in Hn. eapply canonical_fields_form; [exact Hrec | intros k w Hw; split; [exact Hw | intros Hx; exact Hx] | | | exact Hn | exact Ef]; cbn beta.
      * intros k [_ Hk]%orb_false_iff. done.
      * intros k w _ [Hk _]%orb_false_iff ->. by rewrite bool_decide_true in Hk.
    + destruct (canonical_fields _ _ _ object [] references) as [[[r|e] refs']|] eqn:Ef; [|done|done]. injection Hv as <- _. split; [|done].
      apply CanonicalForm_object. eapply canonical_fields_form; [exact Hrec | intros; by apply sort_keyword_canonical | | | | exact Ef]; cbn beta.
      * intros k [Hk _]%orb_false_iff. done.
      * intros k w Hin _ ->. unfold reference_of in Eref. apply map_get_ok in Hin; [|done]. by rewrite Hin in Eref.
      * split; [split; [constructor | split; [done | constructor]] | constructor].
Qed.

(** ** Schemas without references *)

Fixpoint NoRef (v : Value N) : Prop :=
  match v with
  | Array l => (fix all l := match l with [] => True | v :: l => NoRef v /\ all l end) l
  | Object m => reference_of m = None /\ (fix all m := match m with [] => True | f :: m => NoRef f.2 /\ all m end) m
  | _ => True
  end.

Lemma NoRef_array l : NoRef (Array l) <-> Forall NoRef l.
Proof. cbn. induction l as [|v l IH]; [split; [constructor | done]|]. by rewrite Forall_cons, IH. Qed.
Lemma NoRef_object m : NoRef (Object m) <-> reference_of m = None /\ Forall (fun f => NoRef f.2) m.
Proof.
  cbn. apply and_iff_compat_l. induction m as [|f m IH]; [split; [constructor | done]|]. by rewrite Forall_cons, IH.
Qed.

Lemma canonical_fields_fine rec skip finish fields m references x :
  (forall v refs r, v ∈ fields.*2 -> rec v refs = Some r -> exists w, r = (Ok w, refs)) ->
  canonical_fields rec skip finish fields m references = Some x -> exists m', x = (Ok m', references).
Proof.
  revert m references; induction fields as [|[k v] fields IH]; intros m references Hrec; cbn; [intros [= <-]; eauto|].
  assert (Hrec' : forall v refs r, v ∈ fields.*2 -> rec v refs = Some r -> exists w, r = (Ok w, refs)) by (intros ? ? ? Hin; apply Hrec; by right).
  destruct (skip k); [by apply IH|]. destruct (rec v references) as [r|] eqn:Er; [|done].
  destruct (Hrec v references r) as [w ->]; [by left | done |]. by apply IH.
Qed.

Lemma canonical_values_fine rec values references x :
  (forall v refs r, v ∈ values -> rec v refs = Some r -> exists w, r = (Ok w, refs)) ->
  canonical_values rec values references = Some x -> exists l, x = (Ok l, references).
Proof.
  revert references x; induction values as [|v values IH]; intros references x Hrec; cbn; [intros [= <-]; eauto|].
  destruct (rec v references) as [r|] eqn:Er; [|done]. destruct (Hrec v references r) as [w ->]; [by left | done |].
  destruct (canonical_values rec values references) as [y|] eqn:Ev; [|done].
  apply IH in Ev as [l ->]; [intros [= <-]; eauto|]. intros ? ? ? Hin. apply Hrec. by right.
Qed.

Lemma canonical_fine fuel config schema root route_id references x : NoRef schema ->
  canonical_schema_with_root fuel config schema root route_id references = Some x -> exists v, x = (Ok v, references).
Proof.
  revert schema references x; induction fuel as [|fuel IH]; intros schema references x Hn; cbn [canonical_schema_with_root]; [done|].
  destruct schema as [| | | |values|object]; try by (intros [= <-]; eauto).
  - apply NoRef_array in Hn. rewrite Forall_forall in Hn.
    destruct (canonical_values _ values references) as [y|] eqn:Ev; [|done].
    apply canonical_values_fine in Ev as [l ->]; [intros [= <-]; by eexists|]. intros v refs r Hin. by apply IH, Hn.
  - apply NoRef_object in Hn as [-> Hn]. rewrite Forall_forall in Hn.
    destruct (canonical_fields _ _ _ object [] references) as [y|] eqn:Ev; [|done].
    apply canonical_fields_fine in Ev as [l ->]; [intros [= <-]; by eexists|].
    intros v refs r (f & -> & Hin)%list_elem_of_fmap. apply IH. by apply (Hn f).
Qed.

(** A schema without references always has a canonical form. *)
Lemma canonical_schema_fine config schema route_id : NoRef schema -> exists v, canonical_schema config schema route_id = Ok v.
Proof.
  intros Hn. destruct (canonical_enough (schema_fuel config schema) config schema route_id) as [refs Hr]; [done|].
  apply canonical_fine in Hr as [v Hv]; [|done]. exists v. congruence.
Qed.

(** ** Surfaces *)

(** The request body an operation declares, if any. *)
Definition operation_body (config : OpenApiConfig) (route_id : str) (operation : Map N) (origin : str) :
    Result str (option RequestBody) :=
  match map_get (lit "requestBody") operation with
  | None => Ok None
  | Some value =>
      let? value := resolve_component config value (lit "requestBodies") route_id in
      let? body := request_body config route_id value origin in
      Ok (Some body)
  end.

(** The part of an operation that a client generator consumes. *)
Definition surface (config : OpenApiConfig) (route_id : str) (operation : Map N) (origin : str) :
    Result str (gmap (str * str) ParameterSpec * option RequestBody * gmap str Response) :=
  let? parameters := parameter_map config route_id (map_get (lit "parameters") operation) origin in
  let? body := operation_body config route_id operation origin in
  let? responses := response_map config route_id (map_get (lit "responses") operation) origin in
  Ok (parameters, body, responses).

Lemma find_None {A} (p : A -> bool) l : find p l = None <-> forall x, x ∈ l -> p x = false.
Proof.
  induction l as [|y l IH]; cbn; [split; [intros _ x Hx; by apply elem_of_nil in Hx | done]|]. destruct (p y) eqn:E.
  - split; [done|]. intros Hx. specialize (Hx y ltac:(by left)). congruence.
  - rewrite IH. split; intros Hx x; [intros [->|]%elem_of_cons; auto | intros; apply Hx; by right].
Qed.

(** Same keys and no differing entry: the maps are equal. *)
Lemma no_difference {K A} `{Countable K, EqDecision A} (le : K * A -> K * A -> Prop) `{!RelDecision le} (m1 m2 : gmap K A) :
  dom m1 = dom m2 ->
  find (fun e => negb (bool_decide (Some e.2 = m2 !! e.1))) (merge_sort le (map_to_list m1)) = None <-> m1 = m2.
Proof.
  intros Hd. rewrite find_None. split.
  - intros Hx. apply map_eq. intros k. destruct (m1 !! k) as [v|] eqn:E1.
    + specialize (Hx (k, v)). rewrite merge_sort_Permutation in Hx. rewrite elem_of_map_to_list in Hx. specialize (Hx E1).
      apply negb_false_iff, bool_decide_eq_true in Hx. done.
    + symmetry. apply not_elem_of_dom. rewrite <- Hd. by apply not_elem_of_dom.
  - intros -> [k v]. rewrite merge_sort_Permutation, elem_of_map_to_list. cbn. intros ->. apply negb_false_iff. by apply bool_decide_eq_true.
Qed.

Lemma validate_parameters_ok config route_id expected operation : validate_parameters config route_id expected operation = Ok () <->
  exists ps, parameter_map config route_id (map_get (lit "parameters") expected) (lit "generated") = Ok ps
    /\ parameter_map config route_id (map_get (lit "parameters") operation) (lit "authored") = Ok ps.
Proof.
  unfold validate_parameters. destruct (parameter_map _ _ _ (lit "generated")) as [e|]; [|naive_solver].
  destruct (parameter_map _ _ _ (lit "authored")) as [a|]; [|naive_solver]. case_bool_decide as Hd; cbn.
  - pose proof (no_difference (fun a b => pair_le a.1 b.1) e a Hd) as Hn. destruct (find _ _) as [[k v]|].
    + split; [done|]. intros (ps & H1 & H2). assert (He : e = a) by congruence. by apply Hn in He.
    + split; [|done]. intros _. exists a. by rewrite (proj1 Hn eq_refl).
  - split; [done|]. intros (ps & H1 & H2). destruct Hd. congruence.
Qed.

Lemma validate_request_body_ok config route_id expected operation : validate_request_body config route_id expected operation = Ok () <->
  exists body, operation_body config route_id expected (lit "generated") = Ok body
    /\ operation_body config route_id operation (lit "authored") = Ok body.
Proof.
  unfold validate_request_body, operation_body.
  destruct (map_get (lit "requestBody") expected) as [e|], (map_get (lit "requestBody") operation) as [a|]; cbn beta iota.
  - destruct (resolve_component config e _ _) as [e'|]; cbn beta iota; [|naive_solver].
    destruct (resolve_component config a _ _) as [a'|]; cbn beta iota; [|naive_solver].
    destruct (request_body _ _ e' _) as [eb|]; cbn beta iota; [|naive_solver].
    destruct (request_body _ _ a' _) as [ab|]; cbn beta iota; [|naive_solver].
    case_bool_decide; naive_solver.
  - split; [done|]. intros (body & He & Ha). injection Ha as <-. by inv_ok He.
  - split; [done|]. intros (body & He & Ha). injection He as <-. by inv_ok Ha.
  - naive_solver.
Qed.

Lemma surface_ok config route_id operation origin ps body rs : surface config route_id operation origin = Ok (ps, body, rs) <->
  parameter_map config route_id (map_get (lit "parameters") operation) origin = Ok ps
  /\ operation_body config route_id operation origin = Ok body
  /\ response_map config route_id (map_get (lit "responses") operation) origin = Ok rs.
Proof.
  unfold surface. destruct (parameter_map _ _ _ _) as [p|]; [|naive_solver]. destruct (operation_body _ _ _ _) as [b|]; [|naive_solver].
  destruct (response_map _ _ _ _) as [r|]; naive_solver.
Qed.

Lemma try_unit_ok {E A} (r : Result E unit) (k : Result E A) x : (let? _ := r in k) = Ok x <-> r = Ok () /\ k = Ok x.
Proof. destruct r as [[]|]; naive_solver. Qed.

Lemma validate_responses_ok config route_id expected operation : validate_responses config route_id expected operation = Ok () <->
  exists rs, response_map config route_id (map_get (lit "responses") expected) (lit "generated") = Ok rs
    /\ response_map config route_id (map_get (lit "responses") operation) (lit "authored") = Ok rs.
Proof.
  unfold validate_responses. destruct (response_map _ _ _ (lit "generated")) as [e|]; [|naive_solver].
  destruct (response_map _ _ _ (lit "authored")) as [a|]; [|naive_solver]. case_bool_decide as Hd; cbn.
  - pose proof (no_difference (fun a b => str_le a.1 b.1) e a Hd) as Hn. destruct (find _ _) as [[k v]|].
    + split; [done|]. intros (ps & H1 & H2). assert (He : e = a) by congruence. by apply Hn in He.
    + split; [|done]. intros _. exists a. by rewrite (proj1 Hn eq_refl).
  - split; [done|]. intros (ps & H1 & H2). destruct Hd. congruence.
Qed.

Lemma require_string_ok contract field actual route_id : require_string contract field actual route_id = Ok () <->
  map_get field contract |> as_str = Some actual.
Proof.
  unfold require_string. destruct (_ |> as_str) as [s|]; [|done]. case_bool_decide; naive_solver.
Qed.

(** The result does not depend on which of the two operations is read. *)
Lemma media_schema_origin config route_id object media o o' v :
  media_schema config route_id object media o = Ok v -> media_schema config route_id object media o' = Ok v.
Proof.
  unfold media_schema. destruct (_ |> as_object) as [content|]; [|done]. destruct (_ || _); [done|].
  destruct (map_get media content |> as_object); [|done]. by destruct (map_get _ _).
Qed.

Lemma try_fold_mono {E F A S} (f : S -> A -> Result E S) (g : S -> A -> Result F S) s l s' :
  (forall s a s', f s a = Ok s' -> g s a = Ok s') -> try_fold f s l = Ok s' -> try_fold g s l = Ok s'.
Proof.
  intros Hfg. revert s; induction l as [|a l IH]; intros s; cbn; [by intros [= <-]|].
  destruct (f s a) as [s1|] eqn:Ef; [|done]. rewrite (Hfg _ _ _ Ef). apply IH.
Qed.

Lemma add_parameter_origin config route_id o o' ps v ps' :
  add_parameter config route_id o ps v = Ok ps' -> add_parameter config route_id o' ps v = Ok ps'.
Proof. unfold add_parameter. destruct (resolve_component _ _ _ _) as [w|]; [|done]. by destruct (as_object w). Qed.

Lemma add_response_origin config route_id o o' rs f rs' :
  add_response config route_id o rs f = Ok rs' -> add_response config route_id o' rs f = Ok rs'.
Proof.
  unfold add_response. destruct f as [status value]. destruct (negb _); [done|]. destruct (resolve_component _ _ _ _) as [w|]; [|done].
  destruct (as_object w) as [object|]; [|done]. destruct (media_schema _ _ _ _ o) as [schema|] eqn:Em; [|done].
  by rewrite (media_schema_origin _ _ _ _ _ o' _ Em).
Qed.

Lemma surface_origin config route_id operation o o' s :
  surface config route_id operation o = Ok s -> surface config route_id operation o' = Ok s.
Proof.
  destruct s as [[ps body] rs]. rewrite !surface_ok. intros (Hp & Hb & Hr). split_and!.
  - unfold parameter_map in *. destruct (map_get (lit "parameters") operation) as [v|]; [|exact Hp]. destruct (as_array v); [|discriminate Hp].
    eapply try_fold_mono; [|exact Hp]. intros ? ? ?. apply add_parameter_origin.
  - unfold operation_body, request_body in *. destruct (map_get (lit "requestBody") operation) as [v|]; [|exact Hb].
    destruct (resolve_component _ _ _ _) as [w|]; [|done]. destruct (as_object w); [|done].
    destruct (media_schema _ _ _ _ o) as [schema|] eqn:Em; [|done]. by rewrite (media_schema_origin _ _ _ _ _ o' _ Em).
  - unfold response_map in *. destruct (_ |> as_object) as [object|]; [|done].
    eapply try_fold_mono; [|exact Hr]. intros ? ? ?. apply add_response_origin.
Qed.

Lemma strict_validate_ok config route_id method path operation contract :
  validate config route_id method path operation contract = Ok () <->
  exists c expected s, as_object contract = Some c
    /\ map_get (lit "route_id") c |> as_str = Some route_id
    /\ map_get (lit "method") c |> as_str = Some method
    /\ map_get (lit "path") c |> as_str = Some path
    /\ map_get (lit "operation") c |> as_object = Some expected
    /\ surface config route_id expected (lit "generated") = Ok s
    /\ surface config route_id operation (lit "authored") = Ok s.
Proof.
  unfold validate. destruct (as_object contract) as [c|]; [|naive_solver]. rewrite !try_unit_ok, !require_string_ok.
  destruct (map_get (lit "operation") c |> as_object) as [expected|] eqn:Ee; cbn beta iota; [|naive_solver].
  rewrite !try_unit_ok, validate_parameters_ok, validate_request_body_ok, validate_responses_ok. split.
  - intros (? & ? & ? & (ps & ? & ?) & (body & ? & ?) & rs & ? & ?). exists c, expected, (ps, body, rs).
    rewrite !surface_ok. tauto.
  - intros (c' & expected' & [[ps body] rs] & [= <-] & ? & ? & ? & He & (? & ? & ?)%surface_ok & (? & ? & ?)%surface_ok).
    rewrite Ee in He. injection He as <-. split_and!; [done..|by exists ps|by exists body|by exists rs].
Qed.

(** ** Properties *)

(** C38: resolving the references of a schema terminates. Whatever the schema, its definitions and the components,
    cyclic ones included, [schema_fuel] steps always suffice (the set of references being resolved keeps every chain
    of references finite), more change nothing, and a result that is not an error contains no reference and no
    annotation keyword any more. *)
Theorem canonical_schema_terminates config schema route_id :
  ConfigWf config -> Wf schema ->
  (forall fuel, schema_fuel config schema <= fuel ->
     exists references, canonical_schema_with_root fuel config schema schema route_id ∅
                        = Some (canonical_schema config schema route_id, references))
  /\ (forall v, canonical_schema config schema route_id = Ok v -> CanonicalForm v).
Proof.
  intros Hc Hs. split; [intros; by apply canonical_enough|]. intros v Hv.
  destruct (canonical_enough (schema_fuel config schema) config schema route_id) as [refs Hr]; [done|].
  rewrite Hv in Hr. by apply canonical_form in Hr as [? _].
Qed.

(** C13: strict validation is equality of canonical surfaces: an authored operation passes exactly when the contract
    names its route, method and path and both the generated and the authored operation have a surface (parameters,
    request body and responses, with their schemas in canonical form) and the two are equal. *)
Theorem strict_contract_exact config route_id method path operation contract :
  validate config route_id method path operation contract = Ok () <->
  exists c expected s, as_object contract = Some c
    /\ map_get (lit "route_id") c |> as_str = Some route_id
    /\ map_get (lit "method") c |> as_str = Some method
    /\ map_get (lit "path") c |> as_str = Some path
    /\ map_get (lit "operation") c |> as_object = Some expected
    /\ surface config route_id expected (lit "generated") = Ok s
    /\ surface config route_id operation (lit "authored") = Ok s.
Proof. apply strict_validate_ok. Qed.
End contract.
Arguments OpenApiConfig N : clear implicits.

(** ** Witnesses *)

#[local] Existing Instance ref_serde.

(** An order schema, once by name with a local definition and once written out; [Loop] refers to itself. *)
Definition sample_config : OpenApiConfig Z :=
  mkOpenApiConfig (lit "Orders") (lit "1.0.0") None (lit "/openapi.json") []
    (as_object (object [("schemas", object
       [("Order", object [("properties", object [("id", object [("$ref", text "#/$defs/Id")])]); ("$defs", object [("Id", object [("type", text "string"); ("title", text "Id")])])]);
        ("Loop", object [("items", object [("$ref", text "#/components/schemas/Loop")])])])]%string)).

Definition sample_schema : Value Z := object [("$ref", text "#/components/schemas/Loop")]%string.

Ltac wf := repeat first [done | apply object_wf | apply Forall_cons; split | apply Forall_nil].

Lemma sample_config_wf : ConfigWf sample_config.
Proof. intros m [= <-]. change (Wf (default Null (Some (object [("schemas", object
       [("Order", object [("properties", object [("id", object [("$ref", text "#/$defs/Id")])]); ("$defs", object [("Id", object [("type", text "string"); ("title", text "Id")])])]);
        ("Loop", object [("items", object [("$ref", text "#/components/schemas/Loop")])])])]%string : Value Z)))). wf. Qed.

Lemma canonical_schema_terminates_witness :
  canonical_schema sample_config sample_schema (lit "r")
    = Err (lit "route r has a cyclic OpenAPI schema reference #/components/schemas/Loop")
  /\ forall fuel, 16 <= fuel ->
       exists references, canonical_schema_with_root fuel sample_config sample_schema sample_schema (lit "r") ∅
                          = Some (canonical_schema sample_config sample_schema (lit "r"), references).
Proof.
  split; [vm_compute; reflexivity|].
  assert (Hs : Wf sample_schema) by wf. assert (Hf : schema_fuel sample_config sample_schema = 16) by (vm_compute; reflexivity).
  intros fuel Hle. rewrite <- Hf in Hle. exact (proj1 (canonical_schema_terminates sample_config sample_schema (lit "r") sample_config_wf Hs) fuel Hle).
Defined.

(** A response of a generated contract and of an authored operation. *)
Definition sample_operation (schema : Value Z) : Map Z :=
  default [] (as_object (object [("responses", object [("200", object [("description", text "ok"); ("content",
    object [("application/json", object [("schema", schema)])])])])]%string)).

Definition sample_contract (schema : Value Z) : Value Z :=
  object [("route_id", text "orders.read"); ("method", text "GET"); ("path", text "/orders");
          ("operation", Object (sample_operation schema))]%string.

Definition sample_validate (generated authored : Value Z) : Result str unit :=
  validate sample_config (lit "orders.read") (lit "GET") (lit "/orders") (sample_operation authored) (sample_contract generated).

Example by_name_or_written_out :
  sample_validate (object [("properties", object [("id", object [("type", text "string")])]); ("description", text "an order")])%string
                  (object [("$ref", text "#/components/schemas/Order")])%string = Ok ().
Proof. vm_compute. reflexivity. Qed.

(** An annotation keyword is also dropped where it is the name of a property, so a property called [title] may drift. *)
Example property_named_title_drifts :
  sample_validate (object [("properties", object [("title", object [("type", text "string")])])])%string
                  (object [("properties", object [("title", object [("type", text "integer")])])])%string = Ok ().
Proof. vm_compute. reflexivity. Qed.

(** [$defs] next to a reference stays in the canonical form, so this schema differs from what it refers to. *)
Example definitions_next_to_a_reference :
  sample_validate (object [("$ref", text "#/$defs/X"); ("$defs", object [("X", object [("type", text "string")])])])%string
                  (object [("type", text "string")])%string
  = Err (lit "route orders.read strict OpenAPI response 200 differs from its typed handler").
Proof. vm_compute. reflexivity. Qed.
End OpenApiContract.
