(* ===== verification/CapabilityContract.v ===== *)
(** * Generated capability contracts ([generated.rs] of the four capability crates)

    The generator emits the same code for every contract, for its own errors and operations: the portable form of domain
    errors, the native endpoint that calls a provider by operation name, the typed short cut past it, and the client. The
    model has the generated functions once, over the tables of each contract. [UnknownDomainError] and the kernel's handles are
    other crates'; the first is used through its public fields only. *)
From S2P Require Import Prelude RustStd Kernel Json Routing.

(** The variants of one generated error enum but [Unknown]: their names and the match that recognizes them. *)
Class ErrorCodes (C : Type) := { code_name : C -> str; code_of : str -> option C }.
Class ErrorCodesLaws (C : Type) `{ErrorCodes C} : Prop := { code_of_spec code c : code_of code = Some c <-> code = code_name c }.

(** The capabilities, one for each contract. *)
Module CapabilityId.
Definition HTTP_ENDPOINT : str := lit "lenso.http.endpoint@1".
Definition STREAM_ENDPOINT : str := lit "lenso.http.stream-endpoint@1".
Definition WEBSOCKET_ENDPOINT : str := lit "lenso.websocket.endpoint@1".
Definition HTTP_CLIENT : str := lit "lenso.http.client@1".
End CapabilityId.

Module CapabilityContract.
Import Json CapabilityId.

(** ** Domain errors *)

Section errors.
Context {N : Type} `{Serde N} {C : Type} `{ErrorCodes C}.

Record UnknownDomainError := mkUnknown { code : str; payload : option (Value N); extra : Map N }.
Inductive DomainError := Known (c : C) | Unknown (value : UnknownDomainError).

(** The entries are serialized one after another; a repeated key takes the last value. *)
Definition serialize (self : DomainError) : Value N :=
  match self with
  | Known c => String (code_name c)
  | Unknown value =>
      Object (map_of_list ([(lit "code", String (code value))] ++ option_list ((fun p => (lit "payload", p)) <$> payload value) ++ extra value))
  end.

Definition deserialize (value : Value N) : Result str DomainError :=
  match value with
  | String code => Ok (match code_of code with Some c => Known c | None => Unknown (mkUnknown code None []) end)
  | Object object =>
      let! code := map_get (lit "code") object |> as_str else Err (lit "Domain Error object is missing a string code") in
      let object := map_remove (lit "code") object in
      Ok (Unknown (mkUnknown code (map_get (lit "payload") object) (map_remove (lit "payload") object)))
  | other => Err (lit "Domain Error must be a string or object, got " ++ to_string other)
  end.

End errors.
Arguments UnknownDomainError N : clear implicits.
Arguments DomainError N C : clear implicits.

(** The enums of the contracts. *)
Inductive DescribeCode := InvalidConfiguration.
Inductive HandleCode := Rejected.
Inductive ConnectWebsocketCode := ConnectRejected | Unauthorized | UnsupportedProtocol.
Inductive SendCode := DestinationNotAllowed | InvalidRequest | RequestTooLarge | ResponseTooLarge | Timeout | TransportFailure.

Definition describe_code_name (c : DescribeCode) : str := match c with InvalidConfiguration => lit "invalid_configuration" end.
Definition handle_code_name (c : HandleCode) : str := match c with Rejected => lit "rejected" end.
Definition connect_code_name (c : ConnectWebsocketCode) : str :=
  match c with
  | ConnectRejected => lit "rejected"
  | Unauthorized => lit "unauthorized"
  | UnsupportedProtocol => lit "unsupported_protocol"
  end.
Definition send_code_name (c : SendCode) : str :=
  match c with
  | DestinationNotAllowed => lit "destination_not_allowed"
  | InvalidRequest => lit "invalid_request"
  | RequestTooLarge => lit "request_too_large"
  | ResponseTooLarge => lit "response_too_large"
  | Timeout => lit "timeout"
  | TransportFailure => lit "transport_failure"
  end.

(** The arms of a match over the text, in order. *)
Definition code_match {C} (name : C -> str) (arms : list C) (code : str) : option C := find (fun c => bool_decide (code = name c)) arms.

#[global] Instance describe_codes : ErrorCodes DescribeCode := {
  code_name := describe_code_name; code_of := code_match describe_code_name [InvalidConfiguration] }.
#[global] Instance handle_codes : ErrorCodes HandleCode := { code_name := handle_code_name; code_of := code_match handle_code_name [Rejected] }.
#[global] Instance connect_codes : ErrorCodes ConnectWebsocketCode := {
  code_name := connect_code_name; code_of := code_match connect_code_name [ConnectRejected; Unauthorized; UnsupportedProtocol] }.
#[global] Instance send_codes : ErrorCodes SendCode := {
  code_name := send_code_name;
  code_of := code_match send_code_name [DestinationNotAllowed; InvalidRequest; RequestTooLarge; ResponseTooLarge; Timeout; TransportFailure] }.

(** The codecs of the error of each operation but [describe], which has the generic pair at [DescribeCode]. *)
Section codecs.
Context {N : Type} `{Serde N}.
Definition handle_error_serialize : DomainError N HandleCode -> Value N := serialize.
Definition handle_error_deserialize : Value N -> Result str (DomainError N HandleCode) := deserialize.
Definition send_error_serialize : DomainError N SendCode -> Value N := serialize.
Definition send_error_deserialize : Value N -> Result str (DomainError N SendCode) := deserialize.
Definition describe_stream_error_serialize : DomainError N DescribeCode -> Value N := serialize.
Definition describe_stream_error_deserialize : Value N -> Result str (DomainError N DescribeCode) := deserialize.
Definition handle_stream_error_serialize : DomainError N HandleCode -> Value N := serialize.
Definition handle_stream_error_deserialize : Value N -> Result str (DomainError N HandleCode) := deserialize.
Definition connect_websocket_error_serialize : DomainError N ConnectWebsocketCode -> Value N := serialize.
Definition connect_websocket_error_deserialize : Value N -> Result str (DomainError N ConnectWebsocketCode) := deserialize.
Definition describe_websocket_error_serialize : DomainError N DescribeCode -> Value N := serialize.
Definition describe_websocket_error_deserialize : Value N -> Result str (DomainError N DescribeCode) := deserialize.
End codecs.

(** ** Calls *)

(** [Op] are the operations of one contract; a value of another type, or of no operation of it, is [Foreign]. *)
Section calls.
Context {Op : Type} `{EqDecision Op} (operations : list Op) (op_name : Op -> str) (capability_id : str).
Context {Request Response Failure : Op -> Type} {X : Type}.

Inductive AnyValue (F : Op -> Type) := Boxed (op : Op) (value : F op) | Foreign.
Arguments Boxed {F} op value.
Arguments Foreign {F}.

Definition downcast {F : Op -> Type} (op : Op) (value : AnyValue F) : option (F op) :=
  match value with
  | Boxed op' value => match decide (op' = op) with left e => Some (eq_rect op' F value op e) | right _ => None end
  | Foreign => None
  end.

Definition Provider : Type :=
  forall op, bool -> Request op -> X -> X * Result RuntimeFailure (Result (Failure op) (Response op)).

(** [NativeRequestEndpoint::invoke] of the generated endpoint. *)
Definition invoke (provider : Provider) (operation : str) (request : AnyValue Request) (cancelled : bool) (x : X) :
    X * Result RuntimeFailure (Result (AnyValue Failure) (AnyValue Response)) :=
  match find (fun op => bool_decide (operation = op_name op)) operations with
  | None => (x, Err (UnknownOperation capability_id operation))
  | Some op =>
      match downcast op request with
      | None => (x, Err (ProtocolViolation capability_id))
      | Some request =>
          let '(x, outcome) := provider op cancelled request x in
          (x, result_map (fun result => match result with Ok value => Ok (Boxed op value) | Err error => Err (Boxed op error) end) outcome)
      end
  end.

(** [RequestCapability::invoke_native]: [typed] is the typed endpoint when it can be had, [fallback] the kernel's call. *)
Definition invoke_native (fallback : forall op, str -> bool -> Request op -> X -> X * Result RuntimeFailure (Result (Failure op) (Response op)))
    (typed : option Provider) (op : Op) (operation : str) (cancelled : bool) (request : Request op) (x : X) :
    X * Result RuntimeFailure (Result (Failure op) (Response op)) :=
  if negb (bool_decide (operation = op_name op)) then fallback op operation cancelled request x else
  match typed with
  | None => fallback op operation cancelled request x
  | Some provider => provider op cancelled request x
  end.

(** [NativeStreamEndpoint::open]: a provider of streams answers with a session, boxed as it is, or folds both errors into one. *)
Definition StreamProvider (Session : Type) : Type :=
  forall op, bool -> Request op -> X -> X * Result (Routing.InvocationError (Failure op)) Session.

Definition open {Session} (provider : StreamProvider Session) (operation : str) (request : AnyValue Request) (cancelled : bool) (x : X) :
    X * Result RuntimeFailure (Result (AnyValue Failure) Session) :=
  match find (fun op => bool_decide (operation = op_name op)) operations with
  | None => (x, Err (UnknownOperation capability_id operation))
  | Some op =>
      match downcast op request with
      | None => (x, Err (ProtocolViolation capability_id))
      | Some request =>
          let '(x, outcome) := provider op cancelled request x in
          (x, match outcome with
              | Ok value => Ok (Ok value)
              | Err (Routing.Domain error) => Ok (Err (Boxed op error))
              | Err (Routing.Runtime error) => Err error
              end)
      end
  end.

(** The client folds the two results of a call into one. *)
Definition client_call {E T} (outcome : Result RuntimeFailure (Result E T)) : Result (Routing.InvocationError E) T :=
  let? result := map_err Routing.Runtime outcome in map_err Routing.Domain result.

(** What a plugin's method may return, one case for each [impl] of [__lenso_into_result]; [PluginError] of the authoring crate
    has the two cases of an invocation error. *)
Inductive Returned (E T : Type) :=
| Plain (result : Result E T)
| Nested (result : Result RuntimeFailure (Result E T))
| Authored (result : Result (Routing.InvocationError E) T)
| Invoked (result : Result (Routing.InvocationError E) T).
Arguments Plain {E T} result.
Arguments Nested {E T} result.
Arguments Authored {E T} result.
Arguments Invoked {E T} result.

Definition split_error {E T} (result : Result (Routing.InvocationError E) T) : Result RuntimeFailure (Result E T) :=
  match result with
  | Ok value => Ok (Ok value)
  | Err (Routing.Domain error) => Ok (Err error)
  | Err (Routing.Runtime error) => Err error
  end.

Definition into_result {E T} (returned : Returned E T) : Result RuntimeFailure (Result E T) :=
  match returned with
  | Plain result => Ok result
  | Nested result => result
  | Authored result | Invoked result => split_error result
  end.

(** The provider that the lowering macros make of a plugin: [plugin] is the object's [get], which may fail; a plugin that is
    no object is always there. *)
Definition native_lower {Plugin} (plugin : Result RuntimeFailure Plugin)
    (method : forall op, Plugin -> bool -> Request op -> X -> X * Returned (Failure op) (Response op)) : Provider :=
  fun op cancelled request x =>
    match plugin with
    | Err failure => (x, Err failure)
    | Ok plugin => let '(x, result) := method op plugin cancelled request x in (x, into_result result)
    end.

(** The same for a method that opens a stream. *)
Inductive StreamReturned (E Session : Type) :=
| StreamPlain (result : Result E Session)
| StreamAuthored (result : Result (Routing.InvocationError E) Session)
| StreamInvoked (result : Result (Routing.InvocationError E) Session).
Arguments StreamPlain {E Session} result.
Arguments StreamAuthored {E Session} result.
Arguments StreamInvoked {E Session} result.

Definition stream_into_result {E Session} (returned : StreamReturned E Session) : Result (Routing.InvocationError E) Session :=
  match returned with
  | StreamPlain result => map_err Routing.Domain result
  | StreamAuthored result | StreamInvoked result => result
  end.

Definition stream_lower {Plugin Session} (plugin : Result RuntimeFailure Plugin)
    (method : forall op, Plugin -> bool -> Request op -> X -> X * StreamReturned (Failure op) Session) : StreamProvider Session :=
  fun op cancelled request x =>
    match plugin with
    | Err failure => (x, Err (Routing.Runtime failure))
    | Ok plugin => let '(x, result) := method op plugin cancelled request x in (x, stream_into_result result)
    end.

(** One binding of the dependencies: its capability, its provider, and its handles: a request or a stream handle for each operation. *)
Definition Binding (Handle : Type) : Type := str * str * (Op -> option Handle).

Section dependencies.
(** [PluginDependencies]: its [one] and [one_stream], its [requirement], its [bindings], and the typing of a handle. *)
Context {Dependencies Handle TypedHandle : Type}.
Context (one : Dependencies -> Op -> Result RuntimeFailure TypedHandle) (requirement : Dependencies -> str -> Result RuntimeFailure Dependencies).
Context (bindings : Dependencies -> list (Binding Handle)) (typed : Op -> Handle -> Result RuntimeFailure TypedHandle).
(** The fields of the client, in their order. *)
Context (fields : list Op).

Definition from_dependencies (dependencies : Dependencies) : Result RuntimeFailure (list TypedHandle) := try_map (one dependencies) fields.

Definition from_requirement (dependencies : Dependencies) (requirement_id : str) : Result RuntimeFailure (list TypedHandle) :=
  let? dependencies := requirement dependencies requirement_id in from_dependencies dependencies.

Definition many_from_dependencies (dependencies : Dependencies) : Result RuntimeFailure (list (str * list TypedHandle)) :=
  try_map (fun '(capability, provider, handle) =>
    let? handles := try_map (fun op => let? handle := ok_or (UnavailableCapability capability_id) (handle op) in typed op handle) fields in
    Ok (provider, handles))
    (filter (fun binding => binding.1.1 = capability_id) (bindings dependencies)).

Definition many_from_requirement (dependencies : Dependencies) (requirement_id : str) : Result RuntimeFailure (list (str * list TypedHandle)) :=
  let? dependencies := requirement dependencies requirement_id in many_from_dependencies dependencies.

Definition already_connected : RuntimeFailure :=
  PluginFailure (lit "Capability Port " ++ capability_id ++ lit " was connected more than once").
End dependencies.

End calls.
Arguments AnyValue {Op} F.
Arguments Boxed {Op F} op value.
Arguments Foreign {Op F}.
Arguments Plain {E T} result.
Arguments Nested {E T} result.
Arguments Authored {E T} result.
Arguments Invoked {E T} result.
Arguments StreamPlain {E Session} result.
Arguments StreamAuthored {E Session} result.
Arguments StreamInvoked {E Session} result.

(** ** The four contracts *)

Inductive HttpEndpointOp := Describe | Handle.
Inductive HttpClientOp := Send.
Inductive StreamEndpointOp := DescribeStream | HandleStream.
Inductive WebSocketOp := ConnectWebsocket | DescribeWebsocket.
#[global] Instance HttpEndpointOp_eq_dec : EqDecision HttpEndpointOp.
Proof. solve_decision. Defined.
#[global] Instance HttpClientOp_eq_dec : EqDecision HttpClientOp.
Proof. solve_decision. Defined.
#[global] Instance StreamEndpointOp_eq_dec : EqDecision StreamEndpointOp.
Proof. solve_decision. Defined.
#[global] Instance WebSocketOp_eq_dec : EqDecision WebSocketOp.
Proof. solve_decision. Defined.

Definition http_endpoint_operation (op : HttpEndpointOp) : str := match op with Describe => lit "describe" | Handle => lit "handle" end.
Definition http_client_operation (op : HttpClientOp) : str := match op with Send => lit "send" end.
Definition stream_endpoint_operation (op : StreamEndpointOp) : str :=
  match op with DescribeStream => lit "describe_stream" | HandleStream => lit "handle_stream" end.
Definition websocket_operation (op : WebSocketOp) : str :=
  match op with ConnectWebsocket => lit "connect_websocket" | DescribeWebsocket => lit "describe_websocket" end.

(** [operations] of the request and of the stream endpoint of each contract. *)
Definition http_endpoint_requests : list HttpEndpointOp := [Describe; Handle].
Definition http_client_requests : list HttpClientOp := [Send].
Definition stream_endpoint_requests : list StreamEndpointOp := [DescribeStream].
Definition stream_endpoint_streams : list StreamEndpointOp := [HandleStream].
Definition websocket_requests : list WebSocketOp := [DescribeWebsocket].
Definition websocket_streams : list WebSocketOp := [ConnectWebsocket].

(** The generated endpoint of each contract. *)
Section contracts.
Context {X Session : Type}.
Section http_endpoint.
Context {Request Response Failure : HttpEndpointOp -> Type}.
Definition http_endpoint_invoke (provider : Provider (Request := Request) (Response := Response) (Failure := Failure) (X := X)) :=
  invoke http_endpoint_requests http_endpoint_operation HTTP_ENDPOINT provider.
End http_endpoint.
Section http_client.
Context {Request Response Failure : HttpClientOp -> Type}.
Definition http_client_invoke (provider : Provider (Request := Request) (Response := Response) (Failure := Failure) (X := X)) :=
  invoke http_client_requests http_client_operation HTTP_CLIENT provider.
End http_client.
Section stream_endpoint.
Context {Request Response Failure : StreamEndpointOp -> Type}.
Definition stream_endpoint_invoke (provider : Provider (Request := Request) (Response := Response) (Failure := Failure) (X := X)) :=
  invoke stream_endpoint_requests stream_endpoint_operation STREAM_ENDPOINT provider.
Definition stream_endpoint_open (provider : StreamProvider (Request := Request) (Failure := Failure) (X := X) Session) :=
  open stream_endpoint_streams stream_endpoint_operation STREAM_ENDPOINT provider.
End stream_endpoint.
Section websocket.
Context {Request Response Failure : WebSocketOp -> Type}.
Definition websocket_invoke (provider : Provider (Request := Request) (Response := Response) (Failure := Failure) (X := X)) :=
  invoke websocket_requests websocket_operation WEBSOCKET_ENDPOINT provider.
Definition websocket_open (provider : StreamProvider (Request := Request) (Failure := Failure) (X := X) Session) :=
  open websocket_streams websocket_operation WEBSOCKET_ENDPOINT provider.
End websocket.
End contracts.

(** ** Lemmas *)

Lemma code_match_spec {C} (name : C -> str) arms code c : (forall a b, name a = name b -> a = b) -> (forall a, a ∈ arms) ->
  code_match name arms code = Some c <-> code = name c.
Proof.
  intros Hinj Hall. unfold code_match. split.
  - intros [_ Hc%bool_decide_eq_true]%find_some. done.
  - intros ->. destruct (find _ arms) as [a|] eqn:Ef.
    + apply find_some in Ef as [_ Ha%bool_decide_eq_true]. by rewrite (Hinj _ _ Ha).
    + specialize (Hall c). apply list_elem_of_In in Hall. by pose proof (find_none _ _ Ef c Hall) as Hn%bool_decide_eq_false.
Qed.

#[local] Ltac codes_laws :=
  split; intros; apply code_match_spec; [by intros [] [] | by intros []; repeat (first [left | right])].
#[global] Instance describe_codes_laws : ErrorCodesLaws DescribeCode.
Proof. codes_laws. Qed.
#[global] Instance handle_codes_laws : ErrorCodesLaws HandleCode.
Proof. codes_laws. Qed.
#[global] Instance connect_codes_laws : ErrorCodesLaws ConnectWebsocketCode.
Proof. codes_laws. Qed.
#[global] Instance send_codes_laws : ErrorCodesLaws SendCode.
Proof. codes_laws. Qed.

Section error_lemmas.
Context {N : Type} `{Serde N} {C : Type} `{ErrorCodes C} `{!ErrorCodesLaws C}.

(** The keys the encoding of an unknown error uses itself. *)
Definition reserved (key : str) : Prop := key = lit "code" \/ key = lit "payload".

Definition unknown_fields (u : UnknownDomainError N) : Map N :=
  [(lit "code", String (code u))] ++ option_list ((fun p => (lit "payload", p)) <$> payload u) ++ extra u.

Lemma unknown_fields_distinct u : MapOk (extra u) -> (forall k, k ∈ (extra u).*1 -> ~ reserved k) -> NoDup (unknown_fields u).*1.
Proof.
  intros Hm Hr. unfold unknown_fields. assert (Hx : NoDup (extra u).*1) by by apply MapOk_NoDup.
  assert (Hc : lit "code" ∉ (extra u).*1) by (intros Hin; apply (Hr _ Hin); by left).
  assert (Hp : lit "payload" ∉ (extra u).*1) by (intros Hin; apply (Hr _ Hin); by right).
  destruct (payload u); cbn; repeat (apply NoDup_cons; split; [rewrite ?elem_of_cons; try done; intros [|]; done|]); done.
Qed.
Lemma unknown_serialized u : serialize (C := C) (Unknown u) = Object (map_of_list (unknown_fields u)).
Proof. done. Qed.

(** The fields of an encoded error that uses no reserved key. *)
Lemma unknown_fields_get u k : MapOk (extra u) -> (forall k, k ∈ (extra u).*1 -> ~ reserved k) ->
  map_get k (map_of_list (unknown_fields u))
  = if decide (k = lit "code") then Some (String (code u))
    else if decide (k = lit "payload") then payload u else map_get k (extra u).
Proof.
  intros Hm Hr. destruct (map_of_list_distinct _ (unknown_fields_distinct u Hm Hr)) as [_ Hget].
  apply option_eq. intros v. rewrite Hget. unfold unknown_fields. rewrite !elem_of_app, list_elem_of_singleton.
  assert (Hx : (k, v) ∈ extra u -> ~ reserved k) by (intros Hin; apply Hr; by apply (list_elem_of_fmap_2 fst _ (k, v))).
  assert (Hp : (k, v) ∈ option_list ((fun p => (lit "payload", p)) <$> payload u) <-> k = lit "payload" /\ payload u = Some v).
  { destruct (payload u) as [p|]; cbn; [rewrite list_elem_of_singleton; naive_solver | rewrite elem_of_nil; naive_solver]. }
  rewrite Hp. unfold reserved in Hx. repeat case_decide; subst; [naive_solver | naive_solver|].
  rewrite (map_get_ok k v (extra u) Hm). naive_solver.
Qed.

(** Decoding the encoding of an unknown error: what the extra fields do not overwrite. *)
Lemma unknown_round_trip u : MapOk (extra u) ->
  deserialize (serialize (C := C) (Unknown u)) = Ok (Unknown u) <-> (forall k, k ∈ (extra u).*1 -> ~ reserved k).
Proof.
  intros Hm. split.
  - rewrite unknown_serialized. cbn [deserialize]. destruct (_ |> as_str); [|done]. intros [= He] k Hk Hr.
    rewrite <- He in Hk. cbn [extra] in Hk. apply list_elem_of_fmap in Hk as ([k' v] & -> & Hin). unfold map_remove in Hin.
    apply list_elem_of_filter in Hin as [Hp Hin]. apply list_elem_of_filter in Hin as [Hc _]. by destruct Hr.
  - intros Hr. rewrite unknown_serialized. cbn [deserialize]. rewrite unknown_fields_get, decide_True by done. cbn [as_str mbind option_bind].
    rewrite map_get_remove_ne, unknown_fields_get, decide_False, decide_True by done. do 2 f_equal.
    destruct u as [c p x]. f_equal. cbn [extra] in *. apply map_ext; [by repeat apply map_remove_ok; apply map_of_list_ok | done|].
    intros k. destruct (decide (reserved k)) as [Hk|Hk].
    + assert (map_get k x = None) as -> by (apply map_get_None; intros Hin; by apply (Hr k)).
      destruct Hk as [-> | ->]; [rewrite map_get_remove_ne by done|]; apply map_get_remove_eq.
    + unfold reserved in Hk. rewrite !map_get_remove_ne by naive_solver. rewrite unknown_fields_get by done.
      by rewrite !decide_False by naive_solver.
Qed.

(** What decoding an object keeps. *)
Lemma object_round_trip m (e : DomainError N C) : MapOk m -> deserialize (Object m) = Ok e -> serialize e = Object m.
Proof.
  intros Hm. cbn [deserialize]. destruct (map_get (lit "code") m) as [c|] eqn:Ec; [|done]. cbn [mbind option_bind].
  destruct (as_str c) as [s|] eqn:Es; [|done]. destruct c as [| | |c| |]; try done. injection Es as ->. intros [= <-].
  set (u := mkUnknown s (map_get (lit "payload") (map_remove (lit "code") m)) (map_remove (lit "payload") (map_remove (lit "code") m))).
  assert (Hx : MapOk (extra u)) by (by repeat apply map_remove_ok).
  assert (Hr : forall k, k ∈ (extra u).*1 -> ~ reserved k).
  { intros k Hk Hres. apply list_elem_of_fmap in Hk as ([k' v] & -> & Hin). unfold u, map_remove in Hin. cbn [extra] in Hin.
    apply list_elem_of_filter in Hin as [Hp Hin]. apply list_elem_of_filter in Hin as [Hc _]. by destruct Hres. }
  rewrite unknown_serialized. f_equal. apply map_ext; [apply map_of_list_ok | done|]. intros k. rewrite unknown_fields_get by done.
  unfold u; cbn [code payload extra]. case_decide as Hc; [by subst|]. case_decide as Hp; [subst; by rewrite map_get_remove_ne|].
  by rewrite !map_get_remove_ne by done.
Qed.

(** A decoding error, exactly. *)
Definition has_code (v : Value N) : Prop :=
  match v with
  | String _ => True
  | Object m => exists s, map_get (lit "code") m = Some (String s)
  | _ => False
  end.

Lemma deserialize_errors v : (exists e : DomainError N C, deserialize v = Ok e) <-> has_code v.
Proof.
  destruct v as [| | |s| |m]; cbn [deserialize has_code]; try (split; [by intros [] | done]).
  - split; [done|]. intros _. by eexists.
  - destruct (map_get _ m) as [c|]; cbn [mbind option_bind]; [|split; [by intros [] | by intros []]].
    destruct c; cbn [as_str]; split; try (by intros []); intros _; by eexists.
Qed.

(** C18: The portable form of the domain errors is exact. A known error is sent as its code and read back as itself; an unknown
    one is read back as itself exactly when none of its extra fields is named [code] or [payload], the two keys its encoding
    uses. Whatever a peer sent, if it is read at all, is sent on unchanged: the same object, or for a bare code a form that
    is read as the same error. A value is refused exactly when it is neither a string nor an object with a string [code]. *)
Theorem error_codec_roundtrip :
  (forall c, deserialize (serialize (N := N) (Known c)) = Ok (Known c))
  /\ (forall u : UnknownDomainError N, MapOk (extra u) ->
        deserialize (serialize (C := C) (Unknown u)) = Ok (Unknown u) <-> (forall k, k ∈ (extra u).*1 -> ~ reserved k))
  /\ (forall m (e : DomainError N C), MapOk m -> deserialize (Object m) = Ok e -> serialize e = Object m)
  /\ (forall s (e : DomainError N C), deserialize (String s) = Ok e ->
        deserialize (serialize e) = Ok e /\ (forall c, e = Known c <-> s = code_name c))
  /\ (forall v, (exists e : DomainError N C, deserialize v = Ok e) <-> has_code v).
Proof.
  assert (Hk : forall c, deserialize (serialize (N := N) (Known c)) = Ok (Known c)).
  { intros c. cbn [serialize deserialize]. by rewrite (proj2 (code_of_spec (code_name c) c) eq_refl). }
  split_and!; [exact Hk | exact unknown_round_trip | exact object_round_trip | | exact deserialize_errors].
  intros s e. cbn [deserialize]. intros [= <-]. destruct (code_of s) as [c|] eqn:Ec.
  - split; [exact (Hk c)|]. intros c'. apply code_of_spec in Ec as ->. split; [by intros [= ->]|]. intros He.
    pose proof (proj2 (code_of_spec _ c') He) as E1. pose proof (proj2 (code_of_spec _ c) eq_refl) as E2. congruence.
  - split; [apply unknown_round_trip; [constructor | intros k Hin; by apply elem_of_nil in Hin]|].
    intros c'. split; [done|]. intros He%code_of_spec. congruence.
Qed.
End error_lemmas.

#[local] Existing Instance ref_serde.

(** A generated error at the reference numbers. *)
Lemma error_codec_roundtrip_witness :
  MapOk (A := Value Z) [(lit "retry", Null)] /\ deserialize (serialize (C := SendCode) (Unknown (mkUnknown (lit "teapot") (Some (Number 4%Z)) [(lit "retry", Null)])))
    = Ok (Unknown (mkUnknown (lit "teapot") (Some (Number 4%Z)) [(lit "retry", Null)])).
Proof.
  assert (Hm : MapOk (A := Value Z) [(lit "retry", Null)]) by repeat constructor. split; [exact Hm|].
  apply (proj2 (error_codec_roundtrip (N := Z) (C := SendCode))); [exact Hm|].
  intros k Hk. apply list_elem_of_singleton in Hk as ->. intros [Hc|Hc]; vm_compute in Hc; done.
Defined.

Section call_lemmas.
Context {Op : Type} `{EqDecision Op} (operations : list Op) (op_name : Op -> str) (capability_id : str).
Context {Request Response Failure : Op -> Type} {X : Type}.
Context (Hinj : forall a b, op_name a = op_name b -> a = b).

Lemma find_operation op : op ∈ operations -> find (fun o => bool_decide (op_name op = op_name o)) operations = Some op.
Proof.
  intros Hin%list_elem_of_In. destruct (find _ operations) as [o|] eqn:Ef.
  - apply find_some in Ef as [_ He%bool_decide_eq_true]. by rewrite (Hinj _ _ He).
  - by pose proof (find_none _ _ Ef op Hin) as Hn%bool_decide_eq_false.
Qed.

Lemma downcast_boxed {F : Op -> Type} op (v : F op) : downcast op (Boxed op v) = Some v.
Proof. unfold downcast. destruct (decide (op = op)) as [e|]; [|done]. by rewrite (proof_irrel e eq_refl). Qed.

Lemma downcast_other {F : Op -> Type} op (v : AnyValue F) : (forall r, v <> Boxed op r) -> downcast op v = None.
Proof. destruct v as [op' r|]; [|done]. intros Hn. unfold downcast. destruct (decide (op' = op)) as [<-|]; [by destruct (Hn r) | done]. Qed.

(** Both results taken out of their boxes. *)
Definition unbox (op : Op) (outcome : Result RuntimeFailure (Result (AnyValue Failure) (AnyValue Response))) :
    option (Result RuntimeFailure (Result (Failure op) (Response op))) :=
  match outcome with
  | Ok (Ok value) => (fun v => Ok (Ok v)) <$> downcast op value
  | Ok (Err error) => (fun e => Ok (Err e)) <$> downcast op error
  | Err failure => Some (Err failure)
  end.

(** The generated endpoint calls the provider's method of the operation, with the request as it was boxed and the results as
    the caller expects them; the typed short cut of [invoke_native] gives the same, so a caller cannot tell the two apart. An
    operation of another endpoint and a request of another type are refused before the provider is called. *)
Lemma generated_call_exact (provider : Provider (Request := Request) (Response := Response) (Failure := Failure) (X := X)) fallback cancelled x :
  (forall op request, op ∈ operations ->
     let called := invoke operations op_name capability_id provider (op_name op) (Boxed op request) cancelled x in
     (called.1, unbox op called.2)
     = (let '(x', outcome) := provider op cancelled request x in (x', Some outcome))
     /\ invoke_native op_name fallback (Some provider) op (op_name op) cancelled request x = provider op cancelled request x)
  /\ (forall op request, op ∈ operations -> (forall r, request <> Boxed op r) ->
        invoke operations op_name capability_id provider (op_name op) request cancelled x = (x, Err (ProtocolViolation capability_id)))
  /\ (forall operation request, operation ∉ op_name <$> operations ->
        invoke operations op_name capability_id provider operation request cancelled x
        = (x, Err (UnknownOperation capability_id operation))).
Proof.
  split_and!.
  - intros op request Hin. cbn zeta. unfold invoke, invoke_native. rewrite find_operation, downcast_boxed, bool_decide_true by done. cbn [negb].
    destruct (provider op cancelled request x) as [x' outcome]. split; [|done]. cbn. f_equal.
    destruct outcome as [[v|e]|f]; cbn [result_map unbox snd]; by rewrite ?downcast_boxed.
  - intros op request Hin Hn. unfold invoke. by rewrite find_operation, downcast_other.
  - intros operation request Hn. unfold invoke. destruct (find _ operations) as [op|] eqn:Ef; [|done].
    apply find_some in Ef as [Hin%list_elem_of_In He%bool_decide_eq_true]. subst. destruct Hn. by apply (list_elem_of_fmap_2 op_name).
Qed.

(** A stream is opened the same way: the plugin's folded error comes apart into the two the kernel carries. *)
Lemma generated_open_exact {Session} (provider : StreamProvider (Request := Request) (Failure := Failure) (X := X) Session) op request cancelled x :
  op ∈ operations ->
  open operations op_name capability_id provider (op_name op) (Boxed op request) cancelled x
  = (let '(x', outcome) := provider op cancelled request x in
     (x', result_map (fun result => match result with Ok value => Ok value | Err error => Err (Boxed op error) end) (split_error outcome))).
Proof.
  intros Hin. unfold open. rewrite find_operation, downcast_boxed by done. destruct (provider op cancelled request x) as [x' [v|[e|f]]]; done.
Qed.

(** The client undoes what the endpoint's lowering does. *)
Lemma client_split_error {E T} (result : Result (Routing.InvocationError E) T) : client_call (split_error result) = result.
Proof. by destruct result as [|[]]. Qed.

(** A plugin's method reaches a client that calls it as the plugin returned it. *)
Lemma lowered_call_exact {Plugin} (plugin : Plugin)
    (method : forall op, Plugin -> bool -> Request op -> X -> X * Returned (Failure op) (Response op)) op request cancelled x :
  let provider := native_lower (Ok plugin) method in
  let '(x', returned) := method op plugin cancelled request x in
  invoke_native op_name (fun _ _ _ _ x => (x, Err (ProtocolViolation capability_id))) (Some provider) op (op_name op) cancelled request x
  = (x', into_result returned)
  /\ (forall result, returned = Invoked result \/ returned = Authored result -> client_call (into_result returned) = result).
Proof.
  cbn zeta. destruct (method op plugin cancelled request x) as [x' returned] eqn:Em. unfold invoke_native, native_lower.
  rewrite bool_decide_true by done. cbn [negb]. rewrite Em. split; [done|]. intros result [-> | ->]; apply client_split_error.
Qed.
Lemma lowered_open_exact {Plugin Session} (plugin : Plugin)
    (method : forall op, Plugin -> bool -> Request op -> X -> X * StreamReturned (Failure op) Session) op request cancelled x :
  op ∈ operations ->
  open operations op_name capability_id (stream_lower (Ok plugin) method) (op_name op) (Boxed op request) cancelled x
  = (let '(x', returned) := method op plugin cancelled request x in
     (x', result_map (fun result => match result with Ok value => Ok value | Err error => Err (Boxed op error) end)
            (split_error (stream_into_result returned)))).
Proof.
  intros Hin. rewrite generated_open_exact by done. unfold stream_lower. by destruct (method op plugin cancelled request x).
Qed.
End call_lemmas.
End CapabilityContract.
