(* ===== verification/EndpointContract.v ===== *)
(** * The builder of strict contracts ([lenso-capability-http-endpoint/src/contract.rs])

    A typed endpoint derives the contract that its authored operation must match. The schemas themselves come from
    [schema_for::<T>()] of another package, so every operation takes the schema of its type as an argument. The contract
    is the JSON value that [OpenApiContract.validate] reads on the other side. *)
From S2P Require Import Prelude RustStd Json OpenApiContract.

Module EndpointContract.
Import Json.

Section contract.
Context {N : Type} `{Serde N}.

Record OpenApiContract := mkContract {
  route_id : str; method : str; path : str;
  parameters : gmap (str * str) (Value N);
  contract_body : option (Value N);
  success : option (Z * Value N);
  problems : gmap Z (gset str) }.

Definition new (route_id method path : str) : OpenApiContract := mkContract route_id method path ∅ None None ∅.

Definition set_parameters (p : gmap (str * str) (Value N)) (c : OpenApiContract) : OpenApiContract :=
  mkContract (route_id c) (method c) (path c) p (contract_body c) (success c) (problems c).

Fixpoint contains_local_definition_reference (value : Value N) : bool :=
  match value with
  | Object object =>
      match map_get (lit "$ref") object |> as_str with Some reference => starts_with (lit "#/$defs/") reference | None => false end
      || (fix any (m : Map N) := match m with
                                 | [] => false
                                 | f :: m => contains_local_definition_reference f.2 || any m
                                 end) object
  | Array values => existsb contains_local_definition_reference values
  | _ => false
  end.

(** The property schema of a parameter, with the definitions it refers to. *)
Definition with_definitions (definitions : option (Value N)) (property_schema : Value N) : Value N :=
  match contains_local_definition_reference property_schema, definitions, property_schema with
  | true, Some definitions, Object object => Object (map_insert (lit "$defs") definitions object)
  | _, _, _ => property_schema
  end.

Definition parameter_value (location name : str) (required : bool) (schema : Value N) : Value N :=
  object [("name", String name); ("in", String location); ("required", Bool required); ("schema", schema)]%string.

(** The body of the loop over the properties. *)
Definition add_property (location : str) (required_for_all : bool) (required : list str) (definitions : option (Value N))
    (c : OpenApiContract) (property : str * Value N) : Result str OpenApiContract :=
  let '(name, property_schema) := property in
  let property_schema := with_definitions definitions property_schema in
  match parameters c !! (location, name) with
  | Some _ => Err (lit "strict OpenAPI contract declares " ++ location ++ lit " parameter `" ++ name ++ lit "` more than once")
  | None => Ok (set_parameters (<[(location, name) := parameter_value location name
                   (required_for_all || bool_decide (name ∈ required)) property_schema]> (parameters c)) c)
  end.

Definition add_parameters (c : OpenApiContract) (schema : Value N) (location : str) (required_for_all : bool) :
    Result str OpenApiContract :=
  let! root := as_object schema
    else Err (lit "strict OpenAPI " ++ location ++ lit " parameters must derive from an object schema") in
  let! properties := map_get (lit "properties") root |> as_object
    else Err (lit "strict OpenAPI " ++ location ++ lit " parameters must derive named object properties") in
  if is_empty properties
  then Err (lit "strict OpenAPI " ++ location ++ lit " parameters must declare at least one property") else
  let required := omap as_str (default [] (map_get (lit "required") root |> as_array)) in
  let definitions := map_get (lit "$defs") root in
  try_fold (add_property location required_for_all required definitions) c properties.

Definition path_parameters (c : OpenApiContract) (schema : Value N) : Result str OpenApiContract :=
  add_parameters c schema (lit "path") true.
Definition query_parameters (c : OpenApiContract) (schema : Value N) : Result str OpenApiContract :=
  add_parameters c schema (lit "query") false.

Definition body_value (required : bool) (schema : Value N) : Value N :=
  object [("required", Bool required);
          ("content", object [("application/json", object [("schema", schema)])])]%string.

(** [json_body] and [optional_json_body]. *)
Definition set_json_body (c : OpenApiContract) (schema : Value N) (required : bool) : Result str OpenApiContract :=
  match contract_body c with
  | Some _ => Err (lit "a strict OpenAPI contract can declare only one JSON request body")
  | None => Ok (mkContract (route_id c) (method c) (path c) (parameters c) (Some (body_value required schema)) (success c) (problems c))
  end.

Definition success_json (c : OpenApiContract) (schema : Value N) (status : Z) : Result str OpenApiContract :=
  if negb (in_range 200 299 status)
  then Err (lit "strict OpenAPI success status " ++ show_Z status ++ lit " must be between 200 and 299") else
  match success c with
  | Some _ => Err (lit "a strict OpenAPI contract can declare only one success response")
  | None => Ok (mkContract (route_id c) (method c) (path c) (parameters c) (contract_body c) (Some (status, schema)) (problems c))
  end.

Definition known_problem (c : OpenApiContract) (status : Z) (code : str) : Result str OpenApiContract :=
  if negb (in_range 400 599 status)
  then Err (lit "strict OpenAPI problem status " ++ show_Z status ++ lit " must be between 400 and 599") else
  if is_empty (trim code) then Err (lit "a strict OpenAPI problem code must not be empty") else
  Ok (mkContract (route_id c) (method c) (path c) (parameters c) (contract_body c) (success c)
        (<[status := {[code]} ∪ default ∅ (problems c !! status)]> (problems c))).

(** ** Building *)

Definition response (description media_type : str) (schema : Value N) : Value N :=
  object [("description", String description);
          ("content", Object (map_of_list [(media_type, object [("schema", schema)])]))]%string.

Definition problem_schema (status : Z) (codes : list str) : Value N :=
  object [("type", text "object");
          ("required", Array (text <$> ["type"; "title"; "status"; "detail"; "code"]));
          ("properties", object [("type", object [("type", text "string")]);
                                 ("title", object [("type", text "string")]);
                                 ("status", object [("const", Number (number_of status))]);
                                 ("detail", object [("type", text "string")]);
                                 ("code", object [("type", text "string"); ("enum", Array (String <$> codes))])]);
          ("additionalProperties", Bool false)]%string.

#[local] Instance parameter_le_dec : RelDecision (fun a b : (str * str) * Value N => OpenApiContract.pair_le a.1 b.1).
Proof. intros a b. unfold OpenApiContract.pair_le. apply _. Defined.

#[local] Instance problem_le_dec : RelDecision (fun a b : Z * gset str => (a.1 <= b.1)%Z).
Proof. intros a b. apply _. Defined.

(** [parameters.into_values()] and [codes.into_iter()], in the order of the keys. *)
Definition parameter_values (c : OpenApiContract) : list (Value N) :=
  (merge_sort (fun a b => OpenApiContract.pair_le a.1 b.1) (map_to_list (parameters c))).*2.
Definition sorted_problems (c : OpenApiContract) : list (Z * gset str) :=
  merge_sort (fun a b => (a.1 <= b.1)%Z) (map_to_list (problems c)).
Definition sorted_codes (codes : gset str) : list str := merge_sort str_le (elements codes).

Definition success_response (schema : Value N) : Value N := response (lit "Successful response.") (lit "application/json") schema.
Definition problem_response (status : Z) (codes : gset str) : Value N :=
  response (lit "Known problem response.") (lit "application/problem+json") (problem_schema status (sorted_codes codes)).

(** The body of the loop over the problems. *)
Definition add_problem (success_status : Z) (responses : Map N) (problem : Z * gset str) : Result str (Map N) :=
  let '(status, codes) := problem in
  if (status =? success_status)%Z
  then Err (lit "known problem status " ++ show_Z status ++ lit " conflicts with the success response") else
  Ok (map_insert (show_Z status) (problem_response status codes) responses).

Definition build (c : OpenApiContract) : Result str (Value N) :=
  let! (success_status, success_schema) := success c
    else Err (lit "a strict OpenAPI contract needs one JSON success response") in
  let operation := [] in
  let operation := if decide (parameters c = ∅) then operation
                   else map_insert (lit "parameters") (Array (parameter_values c)) operation in
  let operation := match contract_body c with
                   | Some request_body => map_insert (lit "requestBody") request_body operation
                   | None => operation
                   end in
  let responses := map_insert (show_Z success_status) (success_response success_schema) [] in
  let? responses := try_fold (add_problem success_status) responses (sorted_problems c) in
  let operation := map_insert (lit "responses") (Object responses) operation in
  Ok (object [("route_id", String (route_id c)); ("method", String (method c)); ("path", String (path c));
              ("operation", Object operation)]%string).

(** ** What the builder reaches *)

(** The contracts that the public operations construct. *)
Inductive Built : OpenApiContract -> Prop :=
| built_new route_id method path : Built (new route_id method path)
| built_path c schema c' : Built c -> path_parameters c schema = Ok c' -> Built c'
| built_query c schema c' : Built c -> query_parameters c schema = Ok c' -> Built c'
| built_body c schema required c' : Built c -> set_json_body c schema required = Ok c' -> Built c'
| built_success c schema status c' : Built c -> success_json c schema status = Ok c' -> Built c'
| built_problem c status code c' : Built c -> known_problem c status code = Ok c' -> Built c'.

(** The shape of a parameter under its key. *)
Definition ParameterOk (key : str * str) (value : Value N) : Prop :=
  exists required schema, value = parameter_value key.1 key.2 required schema
    /\ (key.1 = lit "path" /\ required = true \/ key.1 = lit "query").

Record ContractOk (c : OpenApiContract) : Prop := {
  co_parameters : map_Forall ParameterOk (parameters c);
  co_body : forall body, contract_body c = Some body -> exists required schema, body = body_value required schema;
  co_success : forall status schema, success c = Some (status, schema) -> (200 <= status <= 299)%Z;
  co_problems : map_Forall (fun status codes => (400 <= status <= 599)%Z /\ codes <> ∅) (problems c);
}.

Lemma add_property_ok location all required definitions c property c' : ContractOk c ->
  location = lit "path" /\ all = true \/ location = lit "query" ->
  add_property location all required definitions c property = Ok c' -> ContractOk c'.
Proof.
  intros [Hp Hb Hs Hq] Hl. unfold add_property. destruct property as [name schema].
  destruct (parameters c !! (location, name)); [done|]. intros [= <-]. split; try done. cbn. apply map_Forall_insert_2; [|done].
  eexists _, _. split; [done|]. destruct Hl as [[-> ->]| ->]; [left | right]; done.
Qed.

Lemma add_parameters_ok location all c schema c' : ContractOk c -> location = lit "path" /\ all = true \/ location = lit "query" ->
  add_parameters c schema location all = Ok c' -> ContractOk c'.
Proof.
  intros Hc Hl Ha. unfold add_parameters in Ha. inv_ok_step Ha. inv_ok_step Ha. inv_ok_step Ha.
  assert (Hf : forall l c, ContractOk c -> forall rq d, try_fold (add_property location all rq d) c l = Ok c' -> ContractOk c'); [|by eapply Hf].
  clear -Hl. induction l as [|a l IH]; intros c Hc rq d Hf; cbn in Hf; [by injection Hf as <-|]. inv_ok_step Hf.
  eapply IH; [|done]. by eapply add_property_ok.
Qed.

(** Every operation keeps the shape. *)
Lemma built_ok c : Built c -> ContractOk c.
Proof.
  induction 1 as [r m p|c schema c' _ IH Ha|c schema c' _ IH Ha|c schema required c' _ [Hp Hb Hs Hq] Ha|c schema status c' _ [Hp Hb Hs Hq] Ha
    |c status code c' _ [Hp Hb Hs Hq] Ha].
  - split; cbn; try done; by apply map_Forall_empty.
  - eapply add_parameters_ok; [done | by left | done].
  - eapply add_parameters_ok; [done | by right | done].
  - unfold set_json_body in Ha. inv_ok Ha. subst c'. split; cbn; try done. intros b [= <-]. eauto.
  - unfold success_json in Ha. inv_ok Ha. subst c'. split; cbn; try done. intros s sc [= <- <-]. bool_prop. by apply in_range_spec.
  - unfold known_problem in Ha. inv_ok Ha. subst c'. bool_prop. split; cbn; try done. apply map_Forall_insert_2; [|done].
    split; [by apply in_range_spec | set_solver].
Qed.

(** ** How the validator reads what the builder wrote *)

Section validation.
Context (config : OpenApiContract.OpenApiConfig N) (rid : str).
Import OpenApiContract.

Definition Resolves (schema : Value N) : Prop := exists v, canonical_schema config schema rid = Ok v.

Lemma resolve_component_fine value section : get (lit "$ref") value = None -> resolve_component config value section rid = Ok value.
Proof. unfold resolve_component. by intros ->. Qed.

Lemma add_parameter_value origin ps location name required schema :
  location = lit "path" /\ required = true \/ location = lit "query" -> ps !! (location, name) = None ->
  add_parameter config rid origin ps (parameter_value location name required schema)
  = (let? s := canonical_schema config schema rid in Ok (<[(location, name) := mkParameter required s]> ps)).
Proof.
  intros Hl Hps. unfold add_parameter. rewrite resolve_component_fine by done.
  change (as_object (parameter_value location name required schema)) with
    (Some [(lit "in", String location); (lit "name", String name); (lit "required", Bool required); (lit "schema", schema)]).
  set (o := [(lit "in", _); _; _; _]). cbn beta iota.
  change (map_get (lit "in") o |> as_str) with (Some location). change (map_get (lit "name") o |> as_str) with (Some name).
  change (map_get (lit "required") o |> as_bool) with (Some required). change (map_get (lit "schema") o) with (Some schema). cbn beta iota.
  assert (Hs : validate_parameter_serialization o location rid name = Ok ()) by reflexivity. rewrite Hs. cbn beta iota.
  assert (Hin : bool_decide (location ∈ [lit "path"; lit "query"]) = true).
  { apply bool_decide_eq_true. rewrite !elem_of_cons. destruct Hl as [[-> _]| ->]; auto. }
  assert (Hreq : bool_decide (location = lit "path") && negb required = false).
  { destruct Hl as [[-> ->]| ->]; [by rewrite andb_false_r | done]. }
  rewrite Hin, Hreq. cbn [negb]. destruct (canonical_schema config schema rid); [|done]. by rewrite Hps.
Qed.

Lemma request_body_value origin required schema :
  OpenApiContract.request_body config rid (body_value required schema) origin
  = (let? s := canonical_schema config schema rid in Ok (mkRequestBody required s)).
Proof. reflexivity. Qed.

Definition media_of (status : str) : str :=
  if starts_with_char "2" status then lit "application/json" else lit "application/problem+json".

Lemma add_response_value origin rs status description media schema : is_status_code status = true -> media = media_of status ->
  add_response config rid origin rs (status, response description media schema)
  = (let? s := canonical_schema config schema rid in Ok (<[status := mkResponse media s]> rs)).
Proof.
  intros Hst ->. unfold add_response. rewrite Hst, resolve_component_fine by done. unfold media_of.
  destruct (starts_with_char "2" status); reflexivity.
Qed.

(** Status codes render as three digits. *)
Lemma status_text z : (200 <= z <= 299)%Z \/ (400 <= z <= 599)%Z -> is_status_code (show_Z z) = true
  /\ media_of (show_Z z) = if in_range 200 299 z then lit "application/json" else lit "application/problem+json".
Proof.
  intros Hz. pose (good z := is_status_code (show_Z z)
    && bool_decide (media_of (show_Z z) = if in_range 200 299 z then lit "application/json" else lit "application/problem+json")).
  assert (Ha : Forall (fun z => good z = true) (seqZ 200 100 ++ seqZ 400 200)).
  { apply Forall_forall. intros x Hx. apply list_elem_of_In in Hx.
    assert (Hf : forallb good (seqZ 200 100 ++ seqZ 400 200) = true) by (vm_compute; reflexivity).
    rewrite forallb_forall in Hf. by apply Hf. }
  rewrite Forall_forall in Ha. specialize (Ha z). rewrite elem_of_app, !elem_of_seqZ in Ha.
  assert (Hg : good z = true) by (apply Ha; lia). apply andb_prop in Hg as [? ?%bool_decide_eq_true]. done.
Qed.

Lemma object_fine (fields : list (string * Value N)) :
  reference_of (map_of_list ((fun f => (lit f.1, f.2)) <$> fields)) = None -> Forall (fun f => NoRef f.2) fields -> NoRef (object fields).
Proof.
  intros Hr Hf. apply NoRef_object. split; [done|]. apply map_of_list_Forall. by apply Forall_fmap.
Qed.

Lemma problem_schema_fine status codes : NoRef (problem_schema status codes).
Proof.
  unfold problem_schema.
  repeat first [apply object_fine; [reflexivity|] | apply NoRef_array, Forall_fmap, Forall_true; done
               | apply Forall_cons; split | apply Forall_nil_2 | exact I].
Qed.

(** ** The surface of a built operation *)

Definition value_schema (value : Value N) : Value N := default Null (get (lit "schema") value).
Definition body_schema_of (body : Value N) : Value N :=
  default Null (get (lit "content") body |> get (lit "application/json") |> get (lit "schema")).

(** The schemas an endpoint author supplied. *)
Definition schemas (c : OpenApiContract) : list (Value N) :=
  (value_schema <$> (map_to_list (parameters c)).*2)
  ++ option_list (body_schema_of <$> contract_body c) ++ option_list (snd <$> success c).

Lemma parameter_list_ok origin (l : list ((str * str) * Value N)) ps :
  NoDup l.*1 -> (forall k, k ∈ l.*1 -> ps !! k = None) -> Forall (fun e => ParameterOk e.1 e.2) l ->
  (exists ps', try_fold (add_parameter config rid origin) ps l.*2 = Ok ps') <-> Forall (fun e => Resolves (value_schema e.2)) l.
Proof.
  revert ps; induction l as [|[[location name] value] l IH]; intros ps Hnd Hps Hok; [split; [constructor | by eexists]|].
  apply Forall_cons in Hok as [Hv Hok]. cbn [fst snd] in Hv. destruct Hv as (required & schema & -> & Hl). rewrite fmap_cons in Hnd. apply NoDup_cons in Hnd as [Hni Hnd].
  cbn [fst snd fmap list_fmap try_fold] in *. rewrite add_parameter_value by (done || (apply Hps; left)).
  rewrite Forall_cons. cbn [snd]. change (value_schema (parameter_value location name required schema)) with schema.
  unfold Resolves at 1. destruct (canonical_schema config schema rid) as [s|e]; [|naive_solver]. rewrite IH; [naive_solver | done | | done].
  intros k Hk. rewrite lookup_insert_ne; [apply Hps; by right|]. intros <-. done.
Qed.

(** The fields that [build] gives a response object. *)
Definition ResponseOk (success_status : Z) (success_schema : Value N) (field : str * Value N) : Prop :=
  field = (show_Z success_status, success_response success_schema)
  \/ exists status codes, (400 <= status <= 599)%Z /\ field = (show_Z status, problem_response status codes).

Lemma response_list_ok success_status success_schema origin (l : Map N) rs : (200 <= success_status <= 299)%Z ->
  Forall (ResponseOk success_status success_schema) l ->
  (exists rs', try_fold (add_response config rid origin) rs l = Ok rs')
  <-> ((show_Z success_status, success_response success_schema) ∈ l -> Resolves success_schema).
Proof.
  intros Hz. revert rs; induction l as [|f l IH]; intros rs Hok; cbn [try_fold].
  { split; [|by eexists]. by intros _ ?%not_elem_of_nil. }
  apply Forall_cons in Hok as [Hf Hok]. rewrite elem_of_cons. destruct Hf as [->|(status & codes & Hs & ->)].
  - destruct (status_text success_status) as [Hst Hm]; [by left|]. rewrite (proj2 (in_range_spec _ _ _) Hz) in Hm.
    unfold success_response at 1. rewrite add_response_value by done.
    unfold Resolves in *. destruct (canonical_schema config success_schema rid) as [s|e]; [|naive_solver].
    rewrite IH by done. naive_solver.
  - destruct (status_text status) as [Hst Hm]; [by right|]. rewrite (proj2 (in_range_false _ _ _)) in Hm by lia.
    unfold problem_response at 1. rewrite add_response_value by done.
    destruct (canonical_schema_fine config _ rid (problem_schema_fine status (sorted_codes codes))) as [s ->].
    rewrite IH by done. split; [|intros Hx Hin; apply Hx; by right]. intros Hx Hin; apply Hx. destruct Hin as [Heq|]; [|done].
    injection Heq as Heq _. apply show_Z_inj in Heq; lia.
Qed.

(** ** The built contract *)

Lemma add_problems_ok success_status success_schema l responses r : (200 <= success_status <= 299)%Z ->
  MapOk responses -> Forall (ResponseOk success_status success_schema) responses ->
  map_get (show_Z success_status) responses = Some (success_response success_schema) ->
  Forall (fun p => (400 <= p.1 <= 599)%Z) l ->
  try_fold (add_problem success_status) responses l = Ok r ->
  Forall (ResponseOk success_status success_schema) r /\ map_get (show_Z success_status) r = Some (success_response success_schema).
Proof.
  intros Hz. revert responses; induction l as [|[status codes] l IH]; intros responses Hm Hf Hg Hl; cbn [try_fold]; [by intros [= <-]|].
  apply Forall_cons in Hl as [Hs Hl]. cbn in Hs. unfold add_problem at 1. rewrite (proj2 (Z.eqb_neq _ _)) by lia. apply IH; [| | |done].
  - by apply map_insert_ok.
  - apply map_insert_Forall; [|done]. right. by exists status, codes.
  - rewrite map_get_insert_ne; [done|]. intros He%show_Z_inj; lia.
Qed.

Lemma build_ok c contract : ContractOk c -> build c = Ok contract ->
  exists status schema operation responses, success c = Some (status, schema) /\ (200 <= status <= 299)%Z
    /\ contract = object [("route_id", String (route_id c)); ("method", String (method c)); ("path", String (path c));
                          ("operation", Object operation)]%string
    /\ map_get (lit "parameters") operation = (if decide (parameters c = ∅) then None else Some (Array (parameter_values c)))
    /\ map_get (lit "requestBody") operation = contract_body c
    /\ map_get (lit "responses") operation = Some (Object responses)
    /\ Forall (ResponseOk status schema) responses /\ map_get (show_Z status) responses = Some (success_response schema).
Proof.
  intros [_ _ Hs Hq] Hb. unfold build in Hb. destruct (success c) as [[status schema]|] eqn:Es; [|done].
  specialize (Hs _ _ eq_refl). set (op0 := if decide (parameters c = ∅) then _ else _) in Hb.
  set (op1 := match contract_body c with Some _ => _ | None => _ end) in Hb.
  destruct (try_fold _ _ _) as [responses|] eqn:Ef; [|done]. injection Hb as <-.
  cbn [map_insert] in Ef. apply add_problems_ok with (success_schema := schema) in Ef as [Hf Hg]; [|done|by repeat constructor|by repeat constructor|by rewrite map_get_cons, decide_True|].
  2: { apply Forall_forall. intros [z codes] Hin. unfold sorted_problems in Hin. rewrite merge_sort_Permutation, elem_of_map_to_list in Hin.
       by apply Hq in Hin as [? _]. }
  assert (Hop0 : MapOk op0) by (subst op0; case_decide; [constructor | by apply map_insert_ok; constructor]).
  assert (Hop1 : MapOk op1) by (subst op1; destruct (contract_body c); [by apply map_insert_ok | done]).
  exists status, schema, (map_insert (lit "responses") (Object responses) op1), responses.
  split_and!; try done; try apply Hs.
  - rewrite map_get_insert_ne by done. subst op1. destruct (contract_body c); [rewrite map_get_insert_ne by done|];
      subst op0; case_decide; done.
  - rewrite map_get_insert_ne by done. subst op1. destruct (contract_body c); [by rewrite map_get_insert_eq|]. subst op0; by case_decide.
  - by rewrite map_get_insert_eq.
Qed.

(** With a success response, building succeeds: the statuses of problems cannot conflict with it. *)
Lemma build_total c status schema : ContractOk c -> success c = Some (status, schema) -> exists v, build c = Ok v.
Proof.
  intros [_ _ Hs Hq] Es. pose proof (Hs _ _ Es) as Hz. unfold build. rewrite Es.
  assert (Hl : Forall (fun p => (400 <= p.1 <= 599)%Z) (sorted_problems c)).
  { apply Forall_forall. intros [z codes] Hin. unfold sorted_problems in Hin. rewrite merge_sort_Permutation, elem_of_map_to_list in Hin.
    by apply Hq in Hin as [? _]. }
  assert (Hf : forall l responses, Forall (fun p => (400 <= p.1 <= 599)%Z) l -> exists r, try_fold (add_problem status) responses l = Ok r).
  { clear -Hz. induction l as [|[z codes] l IH]; intros responses Hl; [by eexists|]. apply Forall_cons in Hl as [Hs Hl]. cbn in Hs. cbn [try_fold].
    unfold add_problem at 1. rewrite (proj2 (Z.eqb_neq _ _)) by lia. by apply IH. }
  destruct (Hf _ (map_insert (show_Z status) (success_response schema) []) Hl) as [r ->]. by eexists.
Qed.

(** Deriving parameters changes nothing else. *)
Lemma add_parameters_frame c schema location all c' : add_parameters c schema location all = Ok c' ->
  route_id c' = route_id c /\ method c' = method c /\ path c' = path c
  /\ contract_body c' = contract_body c /\ success c' = success c /\ problems c' = problems c.
Proof.
  unfold add_parameters. intros Ha. destruct (as_object schema) as [root|]; [|done]. destruct (map_get _ root |> as_object) as [properties|]; [|done].
  destruct (is_empty properties); [done|]. revert Ha. generalize (omap as_str (default [] (map_get (lit "required") root |> as_array))).
  generalize (map_get (lit "$defs") root). intros d rq. revert c; induction properties as [|[name s] properties IH]; intros c; cbn [try_fold]; [by intros [= <-]|].
  destruct (add_property location all rq d c (name, s)) as [c1|] eqn:Ea; [|done]. unfold add_property in Ea.
  destruct (parameters c !! _); [done|]. injection Ea as <-. intros Hf. by apply IH in Hf.
Qed.

(** The problems recorded by a sequence of declarations. *)
Lemma known_problems_ok c l : Forall (fun p => (400 <= p.1 <= 599)%Z /\ trim p.2 <> []) l ->
  exists c', try_fold (fun c p => known_problem c p.1 p.2) c l = Ok c'
    /\ route_id c' = route_id c /\ method c' = method c /\ path c' = path c /\ success c' = success c
    /\ (Built c -> Built c')
    /\ forall status code, code ∈ default ∅ (problems c' !! status) <-> code ∈ default ∅ (problems c !! status) \/ (status, code) ∈ l.
Proof.
  revert c; induction l as [|[status code] l IH]; intros c Hl.
  { exists c. split_and!; try done. intros status code. rewrite elem_of_nil. tauto. }
  apply Forall_cons in Hl as [[Hs Hc] Hl]. cbn [fst snd] in Hs, Hc. cbn [try_fold fst snd].
  destruct (known_problem c status code) as [c1|e] eqn:Ek.
  2: { unfold known_problem in Ek. rewrite (proj2 (in_range_spec _ _ _) Hs) in Ek. cbn [negb] in Ek. destruct (trim code); done. }
  destruct (IH c1 Hl) as (c' & -> & Hr & Hm & Hp & Hsu & Hb & Hps). exists c'.
  pose proof Ek as Ek'. unfold known_problem in Ek'. destruct (negb _); [done|]. destruct (is_empty _); [done|]. injection Ek' as <-.
  cbn [route_id method path success problems] in *. split_and!; try done.
  - intros HB. apply Hb. by eapply built_problem.
  - intros s k. rewrite Hps, elem_of_cons. destruct (decide (s = status)) as [->|Hn].
    + rewrite lookup_insert_eq. cbn [default from_option]. set_solver.
    + rewrite lookup_insert_ne by done. naive_solver.
Qed.

Lemma parameters_ok c origin : ContractOk c ->
  (exists ps, parameter_map config rid (if decide (parameters c = ∅) then None else Some (Array (parameter_values c))) origin = Ok ps)
  <-> Forall Resolves (value_schema <$> (map_to_list (parameters c)).*2).
Proof.
  intros [Hp _ _ _]. case_decide as He; [rewrite He, map_to_list_empty; split; [constructor | by eexists]|]. cbn.
  unfold parameter_values. set (l := merge_sort _ _). assert (Hl : l ≡ₚ map_to_list (parameters c)) by apply merge_sort_Permutation.
  rewrite parameter_list_ok.
  - rewrite !Forall_fmap, <- Hl. done.
  - rewrite Hl. apply NoDup_fst_map_to_list.
  - intros k _. apply lookup_empty.
  - rewrite Hl. apply Forall_forall. intros [k v] Hin%elem_of_map_to_list. by apply Hp.
Qed.

Lemma body_ok body required schema origin : body = body_value required schema ->
  (exists b, (let? value := resolve_component config body (lit "requestBodies") rid in
              let? b := OpenApiContract.request_body config rid value origin in Ok (Some b)) = Ok b)
  <-> Resolves (body_schema_of body).
Proof.
  intros ->. rewrite resolve_component_fine by done. rewrite request_body_value. change (body_schema_of (body_value required schema)) with schema.
  unfold Resolves. destruct (canonical_schema config schema rid); naive_solver.
Qed.

(** The surface of the built operation exists exactly when the supplied schemas have a canonical form. *)
Lemma built_surface c status schema operation responses origin : ContractOk c ->
  success c = Some (status, schema) -> (200 <= status <= 299)%Z ->
  map_get (lit "parameters") operation = (if decide (parameters c = ∅) then None else Some (Array (parameter_values c))) ->
  map_get (lit "requestBody") operation = contract_body c ->
  map_get (lit "responses") operation = Some (Object responses) ->
  Forall (ResponseOk status schema) responses -> map_get (show_Z status) responses = Some (success_response schema) ->
  (exists s, surface config rid operation origin = Ok s) <-> Forall Resolves (schemas c).
Proof.
  intros Hc Hs Hz Hp Hb Hr Hf Hg.
  assert (He : (exists s, surface config rid operation origin = Ok s) <->
    (exists ps, parameter_map config rid (map_get (lit "parameters") operation) origin = Ok ps)
    /\ (exists b, operation_body config rid operation origin = Ok b)
    /\ (exists rs, response_map config rid (map_get (lit "responses") operation) origin = Ok rs)).
  { split; [intros [[[x y] z] Hx]; apply surface_ok in Hx as (? & ? & ?); split_and!; by eexists|]. intros ((x & ?) & (y & ?) & (z & ?)). exists (x, y, z). by apply surface_ok. }
  rewrite He, Hp, Hr, parameters_ok by done. unfold schemas. rewrite !Forall_app, Hs. apply and_iff_compat_l.
  assert (Hbody : (exists b, operation_body config rid operation origin = Ok b) <-> Forall Resolves (option_list (body_schema_of <$> contract_body c))).
  { unfold operation_body. rewrite Hb. destruct (contract_body c) as [body|] eqn:Eb; cbn; [|split; [constructor | by eexists]].
    destruct (co_body c Hc body Eb) as (required & sc & Hv). rewrite (body_ok body required sc origin Hv). by rewrite Forall_singleton. }
  rewrite Hbody. apply and_iff_compat_l. cbn. rewrite Forall_singleton.
  rewrite (response_list_ok status schema origin responses ∅ Hz Hf). split; [|done]. intros Hx. apply Hx. by apply map_get_elem.
Qed.

End validation.

(** ** Properties *)

(** C17: what the builder writes, the validator accepts. Whatever operations constructed the contract, an operation
    authored exactly as the contract says passes strict validation under the contract's route identifier, method and
    path, unless one of the schemas of the endpoint's own types cannot be resolved: the parameters, bodies and responses the
    builder itself writes are never the reason for a refusal. *)
Theorem built_contract_validates config c contract : Built c -> build c = Ok contract ->
  exists operation, as_object contract |> map_get (lit "operation") |> as_object = Some operation
    /\ (OpenApiContract.validate config (route_id c) (method c) (path c) operation contract = Ok ()
        <-> Forall (Resolves config (route_id c)) (schemas c)).
Proof.
  intros Hc%built_ok Hb. pose proof (build_ok c contract Hc Hb) as (status & schema & operation & responses & Hs & Hz & -> & Hp & Hbo & Hr & Hf & Hg).
  exists operation. split; [done|]. rewrite OpenApiContract.strict_validate_ok.
  rewrite <- (built_surface config (route_id c) c status schema operation responses (lit "generated") Hc Hs Hz Hp Hbo Hr Hf Hg). split.
  - intros (o & expected & s & Ho & _ & _ & _ & He & Hsurface & _). injection Ho as <-. injection He as <-. by exists s.
  - intros [s Hsurface]. do 2 eexists. exists s. split; [done|]. do 3 (split; [reflexivity|]). split; [reflexivity|].
    split; [done|]. by eapply OpenApiContract.surface_origin.
Qed.

End contract.
Arguments OpenApiContract N : clear implicits.

(** ** Witnesses *)

#[local] Existing Instance ref_serde.

(** The [orders.create] contract of the tests. *)
Definition id_schema : Value Z :=
  object [("type", text "object"); ("required", Array [text "order_id"]);
          ("properties", object [("order_id", object [("type", text "string")])])]%string.

Definition or_empty (r : Result str (OpenApiContract Z)) : OpenApiContract Z := match r with Ok c => c | Err _ => new [] [] [] end.
Definition with_path := or_empty (path_parameters (new (lit "orders.create") (lit "POST") (lit "/orders/{order_id}")) id_schema).
Definition with_body := or_empty (set_json_body with_path id_schema true).
Definition with_success := or_empty (success_json with_body id_schema 201).
Definition sample_contract : OpenApiContract Z := or_empty (known_problem with_success 422 (lit "invalid_order")).
Definition sample_built : Value Z := match build sample_contract with Ok v => v | Err _ => Null end.

Lemma sample_contract_built : Built sample_contract.
Proof.
  apply (built_problem with_success 422 (lit "invalid_order")); [|vm_compute; reflexivity].
  apply (built_success with_body id_schema 201); [|vm_compute; reflexivity].
  apply (built_body with_path id_schema true); [|vm_compute; reflexivity].
  apply (built_path (new (lit "orders.create") (lit "POST") (lit "/orders/{order_id}")) id_schema); [apply built_new | vm_compute; reflexivity].
Qed.

Lemma built_contract_validates_witness :
  exists operation, as_object sample_built |> map_get (lit "operation") |> as_object = Some operation
    /\ (OpenApiContract.validate OpenApiContract.default_config (route_id sample_contract) (method sample_contract)
          (path sample_contract) operation sample_built = Ok ()
        <-> Forall (Resolves OpenApiContract.default_config (route_id sample_contract)) (schemas sample_contract)).
Proof.
  apply (built_contract_validates OpenApiContract.default_config sample_contract sample_built sample_contract_built).
  vm_compute. reflexivity.
Defined.

Example sample_validates :
  OpenApiContract.validate OpenApiContract.default_config (lit "orders.create") (lit "POST") (lit "/orders/{order_id}")
    (default [] (get (lit "operation") sample_built |> as_object)) sample_built = Ok ().
Proof. vm_compute. reflexivity. Qed.
End EndpointContract.
