(* ===== verification/Authoring.v ===== *)
(** * Authored endpoints ([lenso-capability-http-endpoint/src/authoring.rs])

    The route table of an authored endpoint: the validation the [http_endpoint!] macro runs when the program is
    compiled (an assertion that fails there stops the compilation, [Err] with its message here), what the generated
    provider describes, and the dispatch of one request to a handler. *)
From S2P Require Import Prelude RustStd HttpCrate RefHttp Kernel Json Request Response Routing.
From S2P Require CapabilityContract.

Module Authoring.
Module Generated := CapabilityContract.CapabilityContract.
Import Json Response Routing.

(** [DescribeError] and [HandleError] of the contract. *)
Inductive DescribeError := InvalidConfiguration | UnknownDescribeError.
Inductive HandleError := Rejected | UnknownHandleError.
#[global] Instance HandleError_eq_dec : EqDecision HandleError.
Proof. solve_decision. Defined.

(** [Result<Result<HandleResponse, HandleError>, RuntimeFailure>], what [EndpointHandle] resolves to. *)
Definition HandleOutcome : Type := Result RuntimeFailure (Result HandleError HandleResponse).

(** [impl __LensoIntoEndpointHandleResult] of the generated contract, the same match as in [http_endpoint!]. *)
Definition into_result (result : Result (InvocationError HandleError) HandleResponse) : HandleOutcome :=
  match result with
  | Ok response => Ok (Ok response)
  | Err (Domain error) => Ok (Err error)
  | Err (Runtime error) => Err error
  end.

Section authoring.
Context {N : Type} `{Serde N} {X : Type}.
(** [serde_json::from_str] into a [BTreeMap<String, Value>]. *)
Context (from_str : str -> option (Map N)).

Record DescribeResponseRoutesItem := mkItem {
  item_method : str; item_openapi : option (Map N); item_path : str; item_route_id : str }.

(** The contract factory is a function without arguments, so it stands for its result. *)
Record EndpointRoute := mkRoute {
  route_id : str; method : str; path : str; openapi : option str; openapi_contract : option (Result str (Value N)) }.

Definition new (route_id method path : str) : EndpointRoute := mkRoute route_id method path None None.
Definition with_openapi (self : EndpointRoute) (operation : str) : EndpointRoute :=
  mkRoute (route_id self) (method self) (path self) (Some operation) (openapi_contract self).
Definition with_openapi_contract (self : EndpointRoute) (contract : Result str (Value N)) : EndpointRoute :=
  mkRoute (route_id self) (method self) (path self) (openapi self) (Some contract).

Definition OPENAPI_CONTRACT_EXTENSION : str := lit "x-lenso-contract".

Definition into_description (self : EndpointRoute) : Result DescribeError DescribeResponseRoutesItem :=
  let? openapi := match openapi self with
                  | None => Ok None
                  | Some text => let! m := from_str text else Err InvalidConfiguration in Ok (Some m)
                  end in
  let? openapi := match openapi_contract self with
                  | None => Ok openapi
                  | Some contract =>
                      let? contract := map_err (fun _ => InvalidConfiguration) contract in
                      let operation := default [] openapi in
                      if map_contains_key OPENAPI_CONTRACT_EXTENSION operation then Err InvalidConfiguration else
                      Ok (Some (map_insert OPENAPI_CONTRACT_EXTENSION contract operation))
                  end in
  Ok (mkItem (method self) openapi (path self) (route_id self)).

Definition describe (routes : list EndpointRoute) : Result DescribeError (list DescribeResponseRoutesItem) :=
  try_map into_description routes.

(** ** Compile-time validation *)

Definition valid_route_id (value : str) : bool := negb (is_empty value) && forallb (fun c => negb (is_ascii_whitespace c)) value.

Definition valid_method (value : str) : bool :=
  negb (is_empty value)
  && forallb (fun byte => is_ascii_uppercase byte || is_ascii_digit byte || bool_decide (byte ∈ lit "!#$%&'*+-.^_`|~")) value.

Definition valid_path (value : str) : bool :=
  match value with
  | [] => false
  | c :: _ => bool_decide (c = "/"%char) && negb (contains_any ["?"; "#"]%char value)
  end.

Definition string_eq (left right : str) : bool :=
  if negb (len left =? len right)%Z then false else forallb (fun p => bool_decide (p.1 = p.2)) (combine left right).

(** The inner loop: the route against one declared before it. *)
Definition check_previous (route : EndpointRoute) (_ : unit) (candidate : EndpointRoute) : Result str unit :=
  if string_eq (route_id candidate) (route_id route) then Err (lit "HTTP route ids must be unique") else
  if string_eq (method candidate) (method route) && string_eq (path candidate) (path route)
  then Err (lit "HTTP method and path pairs must be unique") else
  Ok tt.

(** The body of the outer loop; the state is the list of the routes already passed. *)
Definition check_route (previous : list EndpointRoute) (route : EndpointRoute) : Result str (list EndpointRoute) :=
  if negb (valid_route_id (route_id route)) then Err (lit "HTTP route id is invalid") else
  if negb (valid_method (method route)) then Err (lit "HTTP route method is invalid") else
  if negb (valid_path (path route)) then Err (lit "HTTP route path is invalid") else
  let? _ := try_fold (check_previous route) tt previous in
  Ok (previous ++ [route]).

Definition validate_endpoint_routes (routes : list EndpointRoute) : Result str unit :=
  if is_empty routes then Err (lit "an HTTP Endpoint needs at least one route") else
  let? _ := try_fold check_route [] routes in
  Ok tt.

(** ** Dispatch *)

(** A handler acts on the outside state; the flag says whether its invocation context is cancelled while it runs. *)
Definition Handler : Type := bool -> HandleRequest -> X -> X * Result (InvocationError HandleError) HandleResponse.

(** The table given to [http_endpoint!]; [dispatch] is its match over the route identifiers, in order. *)
Definition dispatch (table : list (EndpointRoute * Handler)) (cancelled : bool) (request : HandleRequest) (x : X) : X * HandleOutcome :=
  match find (fun entry => bool_decide (route_id entry.1 = hr_route_id request)) table with
  | Some (_, handler) => let '(x, result) := handler cancelled request x in (x, into_result result)
  | None => (x, Ok (Err Rejected))
  end.

(** The blanket [EndpointProvider] of an [HttpEndpoint], over the operations of the generated contract. *)
Definition operation_request (op : Generated.HttpEndpointOp) : Type :=
  match op with Generated.Describe => unit | Generated.Handle => HandleRequest end.
Definition operation_response (op : Generated.HttpEndpointOp) : Type :=
  match op with
  | Generated.Describe => list DescribeResponseRoutesItem
  | Generated.Handle => HandleResponse
  end.
Definition operation_error (op : Generated.HttpEndpointOp) : Type :=
  match op with Generated.Describe => DescribeError | Generated.Handle => HandleError end.

Definition endpoint_provider (table : list (EndpointRoute * Handler)) :
    Generated.Provider (Request := operation_request) (Response := operation_response)
      (Failure := operation_error) (X := X) :=
  fun op => match op with
            | Generated.Describe => fun _ _ x => (x, Ok (describe table.*1))
            | Generated.Handle => fun cancelled request x => dispatch table cancelled request x
            end.

(** The provider as a bound client sees it: [describe] loses nothing the ingress reads, and the client folds the two
    results of [handle] into one. *)
Definition endpoint_client (table : list (EndpointRoute * Handler)) : EndpointClient X := {|
  Routing.describe x :=
    (x, match describe table.*1 with
        | Ok items => Ok ((fun i => mkDescription (item_method i) (item_path i) (item_route_id i)) <$> items)
        | Err _ => Err (Domain (lit "InvalidConfiguration"))
        end);
  handle cancelled request x :=
    let '(x, outcome) := dispatch table cancelled request x in
    (x, match outcome with
        | Ok (Ok response) => Ok response
        | Ok (Err _) => Err (Domain tt)
        | Err failure => Err (Runtime failure)
        end) |}.

(** ** Lemmas *)

Lemma string_eq_spec a b : string_eq a b = true <-> a = b.
Proof.
  unfold string_eq. destruct (len a =? len b)%Z eqn:El; cbn.
  - apply Z.eqb_eq in El. unfold len in El. apply Nat2Z.inj in El. revert b El; induction a as [|c a IH]; intros [|d b] El; cbn; try done.
    rewrite andb_true_iff, bool_decide_eq_true, IH by (cbn in El; lia). cbn. naive_solver.
  - apply Z.eqb_neq in El. split; [done|]. intros ->. done.
Qed.

Lemma try_fold_unit {E A} (f : unit -> A -> Result E unit) l : try_fold f tt l = Ok tt <-> Forall (fun a => f tt a = Ok tt) l.
Proof.
  induction l as [|a l IH]; cbn; [split; [constructor | done]|]. rewrite Forall_cons, <- IH.
  destruct (f tt a) as [[]|]; naive_solver.
Qed.

Lemma check_previous_ok route candidate : check_previous route tt candidate = Ok tt <->
  route_id candidate <> route_id route /\ (method candidate, path candidate) <> (method route, path route).
Proof.
  unfold check_previous. destruct (string_eq (route_id candidate) _) eqn:E1.
  - apply string_eq_spec in E1. naive_solver.
  - assert (Hn : route_id candidate <> route_id route) by (intros Heq; apply string_eq_spec in Heq; congruence).
    destruct (string_eq (method candidate) _ && _) eqn:E2.
    + apply andb_prop in E2 as [Em%string_eq_spec Ep%string_eq_spec]. split; [done|]. intros [_ Hp]. destruct Hp. congruence.
    + split; [|done]. intros _. split; [done|]. intros [= Em Ep]. apply string_eq_spec in Em, Ep. rewrite Em, Ep in E2. done.
Qed.

(** One declared route is well-formed. *)
Definition RouteOk (route : EndpointRoute) : Prop :=
  valid_route_id (route_id route) = true /\ valid_method (method route) = true /\ valid_path (path route) = true.

Lemma check_route_ok previous route l : check_route previous route = Ok l <->
  l = previous ++ [route] /\ RouteOk route
  /\ Forall (fun c => route_id c <> route_id route /\ (method c, path c) <> (method route, path route)) previous.
Proof.
  unfold check_route, RouteOk. destruct (valid_route_id _); cbn; [|naive_solver]. destruct (valid_method _); cbn; [|naive_solver].
  destruct (valid_path _); cbn; [|naive_solver].
  assert (Hf : try_fold (check_previous route) tt previous = Ok tt <->
    Forall (fun c => route_id c <> route_id route /\ (method c, path c) <> (method route, path route)) previous).
  { rewrite try_fold_unit. apply Forall_iff. intros c. apply check_previous_ok. }
  rewrite <- Hf. destruct (try_fold _ _ _) as [[]|]; naive_solver.
Qed.

Lemma NoDup_fmap_snoc {A B} (f : A -> B) l a : NoDup (f <$> (l ++ [a])) <-> NoDup (f <$> l) /\ Forall (fun c => f c <> f a) l.
Proof.
  rewrite fmap_app, NoDup_app, Forall_forall. cbn. split.
  - intros (Hl & Hx & _). split; [done|]. intros c Hc He. apply (Hx (f c)); [by apply list_elem_of_fmap_2|]. rewrite He. by left.
  - intros (Hl & Hx). split; [done|]. split; [|apply NoDup_singleton]. intros x (c & -> & Hc)%list_elem_of_fmap [He|?%not_elem_of_nil]%elem_of_cons; [|done].
    by apply (Hx c).
Qed.

Lemma try_fold_routes previous routes l : try_fold check_route previous routes = Ok l -> l = previous ++ routes.
Proof.
  revert previous; induction routes as [|r routes IH]; intros previous; cbn; [intros [= <-]; by rewrite app_nil_r|].
  destruct (check_route previous r) as [p|] eqn:Ec; [|done]. apply check_route_ok in Ec as (-> & _). intros ->%IH. by rewrite <- app_assoc.
Qed.

(** What the validation of a table amounts to. *)
Definition TableOk (routes : list EndpointRoute) : Prop :=
  Forall RouteOk routes /\ NoDup (route_id <$> routes) /\ NoDup ((fun r => (method r, path r)) <$> routes).

Lemma TableOk_snoc routes r : TableOk (routes ++ [r]) <->
  TableOk routes /\ RouteOk r
  /\ Forall (fun c => route_id c <> route_id r /\ (method c, path c) <> (method r, path r)) routes.
Proof. unfold TableOk. rewrite Forall_app, Forall_singleton, !NoDup_fmap_snoc, Forall_and. tauto. Qed.

Lemma try_fold_table routes : is_ok (try_fold check_route [] routes) = true <-> TableOk routes.
Proof.
  induction routes as [|r routes IH] using rev_ind; [split; [repeat constructor | done]|]. rewrite TableOk_snoc, <- IH, try_fold_app.
  destruct (try_fold check_route [] routes) as [p|] eqn:Ep; [|naive_solver]. apply try_fold_routes in Ep as ->. cbn.
  pose proof (check_route_ok routes r (routes ++ [r])) as Hc. destruct (check_route routes r) as [l|] eqn:Ec; cbn.
  - apply check_route_ok in Ec. naive_solver.
  - naive_solver.
Qed.

Lemma valid_table_ok routes : validate_endpoint_routes routes = Ok tt <-> routes <> [] /\ TableOk routes.
Proof.
  unfold validate_endpoint_routes. destruct routes as [|r routes]; [naive_solver|]. cbn [is_empty].
  rewrite <- try_fold_table. destruct (try_fold _ _ _) as [l|e]; naive_solver.
Qed.

(** A request names at most one route of a validated table. *)
Lemma dispatch_found table route (handler : Handler) cancelled request x :
  NoDup (route_id <$> table.*1) -> (route, handler) ∈ table -> route_id route = hr_route_id request ->
  dispatch table cancelled request x = (let '(x, result) := handler cancelled request x in (x, into_result result)).
Proof.
  intros Hn Hin Hid. unfold dispatch.
  assert (Hf : find (fun entry => bool_decide (route_id entry.1 = hr_route_id request)) table = Some (route, handler)).
  { induction table as [|[r h] table IH]; [by apply elem_of_nil in Hin|]. cbn [find fst]. rewrite !fmap_cons in Hn. apply NoDup_cons in Hn as [Hr Hn].
    apply elem_of_cons in Hin as [[= <- <-]|Hin]; [by rewrite bool_decide_true|].
    rewrite bool_decide_false; [by apply IH|]. intros He. apply Hr. cbn. rewrite He, <- Hid.
    apply list_elem_of_fmap. exists route. split; [done|]. apply list_elem_of_fmap. by exists (route, handler). }
  by rewrite Hf.
Qed.

(** The generated contract adds nothing: whether the typed or the erased endpoint is called, the client of a table is
    [endpoint_client], up to the error values and the documentation the ingress never reads. *)
Lemma generated_endpoint_client table fallback cancelled request (x : X) :
  let native op request :=
    Generated.invoke_native Generated.http_endpoint_operation fallback (Some (endpoint_provider table)) op
      (Generated.http_endpoint_operation op) cancelled request x in
  let erased op request :=
    Generated.http_endpoint_invoke (endpoint_provider table) (Generated.http_endpoint_operation op) (Generated.Boxed op request) cancelled x in
  (forall op request, ((erased op request).1, Generated.unbox op (erased op request).2) = ((native op request).1, Some (native op request).2))
  /\ Routing.describe (endpoint_client table) x
     = (let '(x', outcome) := native Generated.Describe tt in
        (x', map_err (fun e => match e with Domain _ => Domain (lit "InvalidConfiguration") | Runtime failure => Runtime failure end)
               (result_map (fmap (fun i => mkDescription (item_method i) (item_path i) (item_route_id i))) (Generated.client_call outcome))))
  /\ Routing.handle (endpoint_client table) cancelled request x
     = (let '(x', outcome) := native Generated.Handle request in
        (x', map_err (fun e => match e with Domain _ => Domain tt | Runtime failure => Runtime failure end) (Generated.client_call outcome))).
Proof.
  intros native erased.
  assert (Hinj : forall a b, Generated.http_endpoint_operation a = Generated.http_endpoint_operation b -> a = b) by by intros [] [].
  assert (Hall : forall op, op ∈ Generated.http_endpoint_requests) by (intros []; set_solver).
  split_and!.
  - intros op r. destruct (Generated.generated_call_exact Generated.http_endpoint_requests Generated.http_endpoint_operation
      CapabilityContract.CapabilityId.HTTP_ENDPOINT Hinj (endpoint_provider table) fallback cancelled x) as [Hc _].
    destruct (Hc op r (Hall op)) as [He Hn]. unfold erased, native, Generated.http_endpoint_invoke. rewrite Hn. cbn zeta in He. rewrite He.
    by destruct (endpoint_provider table op cancelled r x).
  - unfold native, Generated.invoke_native. rewrite bool_decide_true by done. cbn. by destruct (describe table.*1).
  - unfold native, Generated.invoke_native. rewrite bool_decide_true by done. cbn.
    by destruct (dispatch table cancelled request x) as [x' [[]|]].
Qed.

Lemma dispatch_unknown table cancelled request (x : X) : hr_route_id request ∉ route_id <$> table.*1 ->
  dispatch table cancelled request x = (x, Ok (Err Rejected)).
Proof.
  intros Hn. unfold dispatch. destruct (find _ table) as [[r h]|] eqn:Ef; [|done]. apply find_some in Ef as [Hin He].
  apply bool_decide_eq_true in He. destruct Hn. rewrite <- He. apply list_elem_of_fmap. exists r. split; [done|].
  apply list_elem_of_fmap. exists (r, h). split; [done|]. by apply list_elem_of_In.
Qed.

Lemma describe_items routes items : describe routes = Ok items ->
  Forall2 (fun r item => item_method item = method r /\ item_path item = path r /\ item_route_id item = route_id r) routes items.
Proof.
  intros Hd%try_map_Forall2. eapply Forall2_impl; [exact Hd|]. intros r item Hi. unfold into_description in Hi. inv_ok Hi. by subst.
Qed.

(** A description carries the authored operation and, under the private extension, the generated contract; a bad
    operation text, a failing contract or an operation that already has the extension make the description fail. *)
Lemma into_description_ok route item : into_description route = Ok item <->
  exists operation,
    match openapi route with None => operation = None | Some t => exists m, from_str t = Some m /\ operation = Some m end
    /\ item_method item = method route /\ item_path item = path route /\ item_route_id item = route_id route
    /\ match openapi_contract route with
       | None => item_openapi item = operation
       | Some contract => exists c, contract = Ok c /\ map_get OPENAPI_CONTRACT_EXTENSION (default [] operation) = None
           /\ item_openapi item = Some (map_insert OPENAPI_CONTRACT_EXTENSION c (default [] operation))
       end.
Proof.
  unfold into_description, map_contains_key. destruct item as [im io ip ii]; cbn [item_method item_openapi item_path item_route_id]. split.
  - intros Hi. destruct (openapi route) as [t|]; [destruct (from_str t) as [m|]; [|done]|]; cbn beta iota in Hi.
    all: eexists; split; [by eauto|].
    all: destruct (openapi_contract route) as [[c|e]|]; cbn beta iota delta [map_err] in Hi; [|done|by injection Hi as <- <- <- <-].
    1: destruct (map_get OPENAPI_CONTRACT_EXTENSION (default [] (Some m))) eqn:Eg; [done|].
    all: injection Hi as <- <- <- <-; eauto 10.
  - intros (op & Hop & -> & -> & -> & Hc).
    assert (Ho : match openapi route with None => Ok None | Some text => let! m := from_str text else Err InvalidConfiguration in Ok (Some m) end = Ok op).
    { destruct (openapi route) as [t|]; [|by subst]. destruct Hop as (m & -> & ->). done. }
    rewrite Ho. destruct (openapi_contract route) as [contract|]; [|by subst].
    destruct Hc as (c & -> & Hg & ->). cbn beta iota delta [map_err]. by rewrite Hg.
Qed.

(** ** Behind the ingress *)

Lemma method_char c : is_ascii_uppercase c || is_ascii_digit c || bool_decide (c ∈ lit "!#$%&'*+-.^_`|~") = true ->
  visible c = true /\ is_ascii_lowercase c = false.
Proof. destruct c as [[] [] [] [] [] [] [] []]; vm_compute; intros; split; congruence. Qed.

(** The ingress normalizes the method of a description; a validated method is already normal. *)
Lemma valid_method_normal s : valid_method s = true -> to_ascii_uppercase (trim s) = s.
Proof.
  unfold valid_method. rewrite andb_true_iff. intros [_ Hs%Is_true_true%forallb_True].
  assert (Hc : Forall (fun c => visible c = true /\ is_ascii_lowercase c = false) s).
  { eapply Forall_impl; [exact Hs|]. intros c Hc%Is_true_true. by apply method_char. }
  apply Forall_and in Hc as [Hv Hl]. rewrite trim_visible by done. apply Request.upper_id.
  destruct (existsb is_ascii_lowercase s) eqn:Ee; [|done]. apply existsb_exists in Ee as (c & Hin & Hc).
  rewrite Forall_forall in Hl. apply list_elem_of_In in Hin. by rewrite Hl in Hc.
Qed.

Lemma described_route table route : validate_endpoint_routes table.*1 = Ok tt ->
  Described (Routing.describe (endpoint_client table)) route ->
  exists r handler, (r, handler) ∈ table /\ RouteOk r
    /\ route = mkDescription (method r) (path r) (route_id r).
Proof.
  intros (_ & Hok & _)%valid_table_ok (x & x' & routes & Hd & Hin). cbn in Hd.
  destruct (describe table.*1) as [items|e] eqn:Ed; [|done]. injection Hd as _ <-. apply describe_items in Ed.
  apply list_elem_of_fmap in Hin as (item & -> & Hin). apply list_elem_of_lookup in Hin as [k Hk].
  destruct (Forall2_lookup_r _ _ _ _ _ Ed Hk) as (r & Hr%list_elem_of_lookup_2 & -> & -> & ->).
  rewrite Forall_forall in Hok. pose proof (Hok r Hr). apply list_elem_of_fmap in Hr as ([r' h] & -> & Hr). by exists r', h.
Qed.

(** ** Properties *)

(** Behind the ingress nothing is dispatched to the wrong handler. When the ingress matches a request to a route of a
    bound authored endpoint, the endpoint's table has a route with that identifier, declared for the method of the
    request, and the answer is what the handler declared with it returns, for this request and these parameters. *)
Lemma ingress_reaches_handler `{HttpCrate} `{Matchit} `{!HttpLaws} `{!MatchitLaws} ps ss wss policy ctx (w0 w1 : World X) t
    table i request router id params :
  validate_endpoint_routes table.*1 = Ok tt ->
  resolve ps ss wss policy ctx w0 = (w1, Ok t) -> providers t !! i = Some (endpoint_client table) ->
  methods t !! Request.method request = Some router ->
  router_at router (Request.path request) = Some (mkTarget id (BufferedProvider i), params) ->
  exists route handler, (route, handler) ∈ table /\ route_id route = id /\ method route = m_as_str (Request.method request)
    /\ forall cancelled w, invoke_buffered t request params id cancelled i w
         = match lift (handler cancelled (handle_request request params id)) w with
           | (w, Ok response) => (w, Returned (Ok (DispatchBuffered response)))
           | (w, Err (Domain _)) => (w, Returned (Err Response.Rejected))
           | (w, Err (Runtime failure)) => runtime_error request id i failure w
           end.
Proof.
  intros Hv Hr Hi Hm Hat. pose proof Hv as (_ & _ & Hn & _)%valid_table_ok. apply resolve_table_ok in Hr as (rs & HT & _).
  destruct (matched_target _ _ _ _ _ _ _ HT Hm Hat) as ([m p tg] & _ & Hrm & Htg & _ & Hok). cbn in Hrm, Htg, Hok. subst m tg.
  destruct Hok as (client & route & Hi' & Hd & Hid & _ & Hmeth). rewrite Hi in Hi'. injection Hi' as <-.
  apply described_route in Hd as (r & handler & Hin & (_ & Hvm & _) & ->); [|done].
  cbn [described_route_id described_method target_route_id reg_target reg_method] in Hid, Hmeth.
  rewrite valid_method_normal in Hmeth by done. apply m_from_bytes_spec in Hmeth as [_ Hmeth].
  exists r, handler. split; [done|]. split; [done|]. split; [done|]. intros cancelled w.
  unfold invoke_buffered. rewrite Hi. unfold lift. cbn.
  rewrite (dispatch_found table r handler) by done. destruct (handler _ _ (ext w)) as [x [response|[error|failure]]]; done.
Qed.

(** One table is both what an endpoint declares and what it serves. The compile-time validation accepts exactly
    the non-empty tables of well-formed routes in which no route identifier and no pair of method and path occurs
    twice; a validated table is described in its order; a request that names a described route is answered by the
    handler declared with it and by no other; and every other request is rejected without running a handler. *)
Lemma authored_table (table : list (EndpointRoute * Handler)) :
  (validate_endpoint_routes table.*1 = Ok tt <-> table.*1 <> [] /\ TableOk table.*1)
  /\ (validate_endpoint_routes table.*1 = Ok tt ->
      forall items, describe table.*1 = Ok items ->
        item_route_id <$> items = route_id <$> table.*1
        /\ (forall route handler cancelled request x, (route, handler) ∈ table -> route_id route = hr_route_id request ->
              dispatch table cancelled request x
              = (let '(x, result) := handler cancelled request x in (x, into_result result)))
        /\ (forall cancelled request x, hr_route_id request ∉ item_route_id <$> items ->
              dispatch table cancelled request x = (x, Ok (Err Rejected)))).
Proof.
  split; [apply valid_table_ok|]. intros (_ & _ & Hn & _)%valid_table_ok items Hd%describe_items.
  assert (Hids : item_route_id <$> items = route_id <$> table.*1).
  { symmetry. apply list_eq_Forall2, Forall2_fmap_2. eapply Forall2_impl; [exact Hd|]. by intros ? ? (_ & _ & ->). }
  rewrite Hids. split; [done|]. split; intros; [by eapply dispatch_found | by apply dispatch_unknown].
Qed.

End authoring.

(** ** Witnesses *)

#[local] Existing Instance ref_http.
#[local] Existing Instance ref_http_laws.
#[local] Existing Instance ref_matchit.
#[local] Existing Instance ref_matchit_laws.

Definition no_json (_ : str) : option (Map Z) := None.
Definition answer (body : str) : Handler (X := unit) := fun _ _ x => (x, Ok (mkHandleResponse 200 [] body)).
Definition sample_routes : list (EndpointRoute (N := Z) * Handler (X := unit)) :=
  [(new (lit "orders.list") (lit "GET") (lit "/orders"), answer (lit "list"));
   (new (lit "orders.create") (lit "POST") (lit "/orders"), answer (lit "create"))].
Definition bound_orders : EndpointClient unit := endpoint_client no_json sample_routes.
Definition orders_table : RouteTable unit :=
  match (resolve [bound_orders] [] [] None sample_context sample_world).2 with Ok t => t | Err _ => empty_table end.
Definition post_orders : Request.InboundRequest := Request.mkInbound [] 1 None 2 None []
  (m_const (lit "POST")) (lit "/orders") None (lit "lenso-9").

Example duplicate_id : validate_endpoint_routes (N := Z)
    [new (lit "orders.read") (lit "GET") (lit "/orders/{order_id}"); new (lit "orders.read") (lit "GET") (lit "/orders/{another_id}")]
  = Err (lit "HTTP route ids must be unique").
Proof. reflexivity. Qed.

Example duplicate_pair : validate_endpoint_routes (N := Z)
    [new (lit "orders.read") (lit "GET") (lit "/orders/{order_id}"); new (lit "orders.copy") (lit "GET") (lit "/orders/{order_id}")]
  = Err (lit "HTTP method and path pairs must be unique").
Proof. reflexivity. Qed.

End Authoring.
