(* ===== verification/OpenApi.v ===== *)
(** * The OpenAPI plugin ([lenso-openapi-plugin/src/assemble.rs] and [lib.rs])

    The assembly of one document from the descriptions of the bound endpoints, and the plugin that assembles it on
    activation and serves it. The printing of the document ([serde_json::to_vec_pretty]) is outside; what it is given,
    the fields of [Document] in their order, is not. *)
From S2P Require Import Prelude RustStd HttpCrate RefHttp Kernel Json OpenApiContract Request Response Routing Authoring.

Module OpenApi.
Import Json OpenApiContract Authoring.

Section openapi.
Context {N : Type} `{Serde N}.
#[local] Notation Item := (DescribeResponseRoutesItem (N := N)).

(** ** Paths *)

Definition METHODS : list str :=
  [lit "delete"; lit "get"; lit "head"; lit "options"; lit "patch"; lit "post"; lit "put"; lit "trace"].

Definition parameter_name (declared : str) : str := default declared (strip_prefix (lit "*") declared).

(** The loop of [openapi_path]; every turn consumes a part of [remainder]. *)
Fixpoint path_loop (fuel : nat) (route_id rendered : str) (parameters : list str) (remainder : str) :
    option (Result str (str * list str)) :=
  match fuel with
  | O => None
  | S fuel =>
      match split_once "{" remainder with
      | Some (before, after_start) =>
          let rendered := rendered ++ before in
          match split_once "}" after_start with
          | None => Some (Err (route_error route_id (lit " has an unclosed path parameter")))
          | Some (declared, after_end) =>
              if contains_any ["{"%char] declared then Some (Err (route_error route_id (lit " has a nested path parameter"))) else
              let name := parameter_name declared in
              if is_empty name || has_whitespace name then Some (Err (route_error route_id (lit " has an invalid path parameter"))) else
              if bool_decide (name ∈ parameters)
              then Some (Err (route_error route_id (lit " repeats path parameter " ++ name))) else
              path_loop fuel route_id (rendered ++ lit "{" ++ name ++ lit "}") (parameters ++ [name]) after_end
          end
      | None =>
          if contains_any ["}"%char] remainder
          then Some (Err (route_error route_id (lit " has an unmatched path parameter terminator")))
          else Some (Ok (rendered ++ remainder, parameters))
      end
  end.

(** One turn more than there are characters is enough ([path_loop_spec]). *)
Definition openapi_path (route_id path : str) : Result str (str * list str) :=
  if negb (starts_with_char "/" path) || contains_any ["?"; "#"]%char path
  then Err (route_error route_id (lit " does not use an absolute OpenAPI path")) else
  match path_loop (S (length path)) route_id [] [] path with
  | Some result => result
  | None => Err (lit "out of fuel")
  end.

(** ** Operations *)

Definition path_parameter (name : str) : Value N :=
  object [("name", String name); ("in", text "path"); ("required", Bool true); ("schema", object [("type", text "string")])]%string.

(** The body of the loop over the declared parameters. *)
Definition declare (route_id : str) (declared : gset str) (parameter : Value N) : Result str (gset str) :=
  let! parameter := as_object parameter else Err (route_error route_id (lit " has a non-object OpenAPI parameter")) in
  if negb (bool_decide (map_get (lit "in") parameter |> as_str = Some (lit "path"))) then Ok declared else
  let! name := map_get (lit "name") parameter |> as_str
    else Err (route_error route_id (lit " has a path parameter without a name")) in
  if negb (bool_decide (map_get (lit "required") parameter |> as_bool = Some true))
  then Err (route_error route_id (lit " path parameter " ++ name ++ lit " must be required")) else
  Ok ({[name]} ∪ declared).

(** The body of the loop over the names in the path. *)
Definition add_missing (st : gset str * list (Value N)) (name : str) : gset str * list (Value N) :=
  let '(declared, parameters) := st in
  if decide (name ∈ declared) then st else ({[name]} ∪ declared, parameters ++ [path_parameter name]).

Definition ensure_path_parameters (route_id : str) (path_parameters : list str) (operation : Map N) : Result str (Map N) :=
  if is_empty path_parameters then Ok operation else
  let! parameters := as_array (default (Array []) (map_get (lit "parameters") operation))
    else Err (route_error route_id (lit " has a non-array OpenAPI parameters field")) in
  let? declared := try_fold (declare route_id) ∅ parameters in
  let parameters := (foldl add_missing (declared, parameters) path_parameters).2 in
  Ok (map_insert (lit "parameters") (Array parameters) operation).

Definition default_responses : Value N :=
  object [("default", object [("description", text "Undocumented response.")])]%string.

(** The operation object of one route. *)
Definition route_operation (config : OpenApiConfig N) (route : Item) (path_parameters : list str) : Result str (Map N) :=
  let id := item_route_id route in
  let operation := default [] (item_openapi route) in
  let strict_contract := map_get OPENAPI_CONTRACT_EXTENSION operation in
  let operation := map_remove OPENAPI_CONTRACT_EXTENSION operation in
  if map_contains_key (lit "operationId") operation
  then Err (route_error id (lit " must not override its generated operationId")) else
  let? operation := match map_get (lit "responses") operation with
                    | Some (Object _) => Ok operation
                    | Some _ => Err (route_error id (lit " has a non-object OpenAPI responses field"))
                    | None => Ok (map_insert (lit "responses") default_responses operation)
                    end in
  let? _ := match strict_contract with
            | Some strict_contract => validate config id (item_method route) (item_path route) operation strict_contract
            | None => Ok ()
            end in
  let? operation := ensure_path_parameters id path_parameters operation in
  Ok (map_insert (lit "operationId") (String id) operation).

(** ** Assembly *)

(** [BTreeMap<String, BTreeMap<String, Value>>]. *)
Definition Paths : Type := list (str * Map N).

(** The body of the loop over the routes. *)
Definition add_route (config : OpenApiConfig N) (st : Paths * gset str) (route : Item) : Result str (Paths * gset str) :=
  let '(paths, operation_ids) := st in
  let? (path, path_parameters) := openapi_path (item_route_id route) (item_path route) in
  let method := to_ascii_lowercase (trim (item_method route)) in
  if negb (bool_decide (method ∈ METHODS))
  then Err (route_error (item_route_id route) (lit " uses HTTP method " ++ item_method route ++ lit " which OpenAPI 3.1 cannot describe")) else
  if is_empty (trim (item_route_id route)) then Err (lit "an OpenAPI route has an empty route ID") else
  if bool_decide (item_route_id route ∈ operation_ids) then Err (lit "duplicate OpenAPI operationId " ++ item_route_id route) else
  let operation_ids := {[item_route_id route]} ∪ operation_ids in
  let? operation := route_operation config route path_parameters in
  let methods := default [] (map_get path paths) in
  if map_contains_key method methods
  then Err (lit "duplicate OpenAPI route " ++ to_ascii_uppercase method ++ lit " " ++ path) else
  Ok (map_insert path (map_insert method (Object operation) methods) paths, operation_ids).

Definition assemble_paths (config : OpenApiConfig N) (routes : list Item) : Result str Paths :=
  let? (paths, _) := try_fold (add_route config) ([], ∅) routes in
  if is_empty paths then Err (lit "OpenAPI requires at least one explicitly bound Endpoint") else
  Ok paths.

Definition server_value (server : OpenApiServer) : Value N :=
  Object ((lit "url", String (server_url server)) :: option_list ((fun d => (lit "description", String d)) <$> server_description server)).

(** The fields [Document] is serialized with. *)
Definition document_fields (config : OpenApiConfig N) (paths : Paths) : list (str * Value N) :=
  [(lit "openapi", text "3.1.0");
   (lit "jsonSchemaDialect", text "https://json-schema.org/draft/2020-12/schema");
   (lit "info", Object ([(lit "title", String (title config)); (lit "version", String (version config))]
                        ++ option_list ((fun d => (lit "description", String d)) <$> description config)));
   (lit "paths", Object ((fun p => (p.1, Object p.2)) <$> paths))]
  ++ (if is_empty (servers config) then [] else [(lit "servers", Array (server_value <$> servers config))])
  ++ option_list ((fun m => (lit "components", Object m)) <$> components config).

(** ** Path templates *)

(** A template as literals and declared parameters, the last literal apart. *)
Definition source (pieces : list (str * str)) (tail : str) : str :=
  concat ((fun p => p.1 ++ "{"%char :: p.2 ++ ["}"%char]) <$> pieces) ++ tail.
Definition names (pieces : list (str * str)) : list str := parameter_name <$> pieces.*2.
Definition rendered (pieces : list (str * str)) (tail : str) : str :=
  concat ((fun p => p.1 ++ "{"%char :: parameter_name p.2 ++ ["}"%char]) <$> pieces) ++ tail.

Definition PieceOk (p : str * str) : Prop :=
  "{"%char ∉ p.1 /\ "{"%char ∉ p.2 /\ "}"%char ∉ p.2
  /\ parameter_name p.2 <> [] /\ has_whitespace (parameter_name p.2) = false.
Definition TemplateOk (pieces : list (str * str)) (tail : str) : Prop :=
  Forall PieceOk pieces /\ "{"%char ∉ tail /\ "}"%char ∉ tail /\ NoDup (names pieces).

Lemma contains_one c s : contains_any [c] s = false <-> c ∉ s.
Proof.
  rewrite contains_any_false, Forall_forall. split.
  - intros Hf Hin. by apply (Hf c Hin); left.
  - intros Hn d Hd Hin. apply list_elem_of_singleton in Hin as ->. done.
Qed.

Lemma source_cons p pieces tail : source (p :: pieces) tail = p.1 ++ "{"%char :: p.2 ++ "}"%char :: source pieces tail.
Proof. unfold source. rewrite fmap_cons. cbn [concat]. by rewrite <- !app_assoc, <- app_comm_cons, <- app_assoc. Qed.
Lemma rendered_cons p pieces tail :
  rendered (p :: pieces) tail = p.1 ++ "{"%char :: parameter_name p.2 ++ "}"%char :: rendered pieces tail.
Proof. unfold rendered. rewrite fmap_cons. cbn [concat]. by rewrite <- !app_assoc, <- app_comm_cons, <- app_assoc. Qed.

(** The loop accepts exactly the templates. *)
Lemma path_loop_spec fuel route_id prefix params rest r ps : length rest < fuel ->
  path_loop fuel route_id prefix params rest = Some (Ok (r, ps)) <->
  exists pieces tail, rest = source pieces tail /\ Forall PieceOk pieces /\ "{"%char ∉ tail /\ "}"%char ∉ tail
    /\ NoDup (names pieces) /\ (forall n, n ∈ names pieces -> n ∉ params)
    /\ r = prefix ++ rendered pieces tail /\ ps = params ++ names pieces.
Proof.
  revert prefix params rest; induction fuel as [|fuel IH]; intros prefix params rest Hf; [lia|]. cbn [path_loop]. split.
  - destruct (split_once "{" rest) as [[before after_start]|] eqn:E1.
    + apply split_once_Some in E1 as [-> Hb]. destruct (split_once "}" after_start) as [[declared after_end]|] eqn:E2; [|done].
      apply split_once_Some in E2 as [-> Hd]. destruct (contains_any _ declared) eqn:E3; [done|]. apply contains_one in E3.
      destruct (is_empty _ || _) eqn:E4; [done|]. case_bool_decide as E5; [done|]. apply orb_false_elim in E4 as [E4 E6].
      intros Hl. apply IH in Hl as (pieces & tail & -> & Hok & Ht1 & Ht2 & Hn & Hp & -> & ->).
      2: { rewrite !length_app in Hf. cbn in Hf. rewrite length_app in Hf. cbn in Hf. lia. }
      exists ((before, declared) :: pieces), tail. rewrite source_cons, rendered_cons. cbn [fst snd].
      unfold names in *. cbn [fmap list_fmap snd]. split_and!; try done.
      * constructor; [|done]. split_and!; try done. cbn [snd]. intros He. by rewrite He in E4.
      * constructor; [|done]. intros Hin. apply (Hp _ Hin), elem_of_app. right. by left.
      * intros n [->|Hin]%elem_of_cons; [done|]. intros Hx. apply (Hp _ Hin), elem_of_app. by left.
      * rewrite <- !app_assoc. reflexivity.
      * by rewrite <- app_assoc.
    + destruct (contains_any _ rest) eqn:E2; [done|]. intros [= <- <-]. apply contains_one in E2. apply split_once_None in E1.
      exists [], rest. split_and!; first [done | by apply NoDup_nil_2 | by rewrite app_nil_r | by intros n ?%not_elem_of_nil].
  - intros (pieces & tail & -> & Hok & Ht1 & Ht2 & Hn & Hp & -> & ->). destruct pieces as [|[before declared] pieces].
    + change (source [] tail) with tail. rewrite (proj2 (split_once_None _ _) Ht1), (proj2 (contains_one _ _) Ht2). by rewrite app_nil_r.
    + apply Forall_cons in Hok as [(Hb & Hd1 & Hd2 & Hn1 & Hn2) Hok]. cbn [fst snd] in *. rewrite source_cons. cbn [fst snd].
      rewrite (proj2 (split_once_Some _ _ before (declared ++ "}"%char :: source pieces tail))) by done.
      rewrite (proj2 (split_once_Some _ _ declared (source pieces tail))) by done. rewrite (proj2 (contains_one _ _) Hd1), Hn2.
      unfold names in Hn, Hp. cbn [fmap list_fmap snd] in Hn, Hp. apply NoDup_cons in Hn as [Hni Hn].
      assert (He : is_empty (parameter_name declared) = false) by (by apply not_true_iff_false; rewrite is_empty_spec).
      rewrite He. cbn [orb].
      rewrite bool_decide_false by (apply Hp; by left). apply IH.
      { rewrite source_cons in Hf. cbn [fst snd] in Hf. rewrite !length_app in Hf. cbn in Hf. rewrite length_app in Hf. cbn in Hf. lia. }
      exists pieces, tail. rewrite rendered_cons. cbn [fst snd]. split_and!; try done.
      * intros n Hin [Hx|Hx]%elem_of_app; [by apply (Hp n); [right|]|]. apply list_elem_of_singleton in Hx as ->. done.
      * rewrite <- !app_assoc. reflexivity.
      * unfold names. cbn [fmap list_fmap snd]. by rewrite <- app_assoc.
Qed.

Lemma path_loop_total fuel route_id prefix params rest : length rest < fuel -> path_loop fuel route_id prefix params rest <> None.
Proof.
  revert prefix params rest; induction fuel as [|fuel IH]; intros prefix params rest Hf; [lia|]. cbn [path_loop].
  destruct (split_once "{" rest) as [[before after_start]|] eqn:E1; [|by destruct (contains_any _ _)].
  apply split_once_Some in E1 as [-> _]. destruct (split_once "}" after_start) as [[declared after_end]|] eqn:E2; [|done].
  apply split_once_Some in E2 as [-> _]. destruct (contains_any _ _); [done|]. destruct (_ || _); [done|].
  case_bool_decide; [done|]. apply IH. rewrite !length_app in Hf. cbn in Hf. rewrite length_app in Hf. cbn in Hf. lia.
Qed.

Lemma openapi_path_ok route_id path r ps : openapi_path route_id path = Ok (r, ps) <->
  starts_with_char "/" path = true /\ contains_any ["?"; "#"]%char path = false
  /\ exists pieces tail, path = source pieces tail /\ TemplateOk pieces tail /\ r = rendered pieces tail /\ ps = names pieces.
Proof.
  unfold openapi_path. destruct (starts_with_char "/" path); cbn [negb orb]; [|naive_solver]. destruct (contains_any _ path); [naive_solver|].
  pose proof (path_loop_spec (S (length path)) route_id [] [] path r ps ltac:(lia)) as Hs.
  pose proof (path_loop_total (S (length path)) route_id [] [] path ltac:(lia)) as Ht.
  destruct (path_loop _ _ _ _ _) as [res|]; [|done]. split.
  - intros ->. destruct (proj1 Hs eq_refl) as (pieces & tail & ? & ? & ? & ? & ? & _ & ? & ?). split; [done|]. split; [done|]. by exists pieces, tail.
  - intros (_ & _ & pieces & tail & ? & (? & ? & ? & ?) & ? & ?).
    enough (Some res = Some (Ok (r, ps))) as Hx by congruence. apply Hs. exists pieces, tail. split_and!; try done. intros n _. apply not_elem_of_nil.
Qed.

(** ** Path parameters *)

(** The value declares a required path parameter of this name. *)
Definition Declares (name : str) (parameter : Value N) : Prop :=
  exists o, as_object parameter = Some o /\ map_get (lit "in") o |> as_str = Some (lit "path")
    /\ map_get (lit "name") o |> as_str = Some name /\ map_get (lit "required") o |> as_bool = Some true.

Lemma path_parameter_declares name : Declares name (path_parameter name).
Proof. eexists. repeat split. Qed.

Lemma declared_spec route_id parameters declared : try_fold (declare route_id) ∅ parameters = Ok declared ->
  forall n, n ∈ declared <-> exists p, p ∈ parameters /\ Declares n p.
Proof.
  apply (try_fold_inv (fun l d => forall n, n ∈ d <-> exists p, p ∈ l /\ Declares n p)).
  - intros n. split; [set_solver|]. by intros (p & ?%not_elem_of_nil & _).
  - intros l d p d' HP Hd n. assert (Hnew : n ∈ d' <-> n ∈ d \/ Declares n p).
    { unfold declare in Hd. unfold Declares. destruct (as_object p) as [o|]; [|done]. case_bool_decide as Hin; cbn [negb] in Hd.
      - destruct (map_get (lit "name") o |> as_str) as [name|] eqn:En; [|done]. case_bool_decide as Hreq; cbn [negb] in Hd; [|done].
        injection Hd as <-. rewrite elem_of_union, elem_of_singleton. split; [intros [->|?]; [right; by exists o | by left]|].
        intros [?|(o' & [= <-] & _ & Hn & _)]; [by right | left]. rewrite En in Hn. by injection Hn as ->.
      - injection Hd as <-. split; [by left|]. intros [?|(o' & [= <-] & ? & _)]; done. }
    rewrite Hnew, HP. setoid_rewrite elem_of_app. setoid_rewrite list_elem_of_singleton. naive_solver.
Qed.

Lemma filter_absent (d : gset str) (n : str) (ps : list str) : n ∉ ps ->
  filter (fun m => m ∉ {[n]} ∪ d) ps = filter (fun m => m ∉ d) ps.
Proof.
  induction ps as [|m ps IH]; [done|]. intros [Hn Hps]%not_elem_of_cons. rewrite !filter_cons, IH by done.
  destruct (decide (m ∉ {[n]} ∪ d)), (decide (m ∉ d)); set_solver.
Qed.

Lemma add_missing_all (d : gset str) (l : list (Value N)) (ps : list str) : NoDup ps ->
  (foldl add_missing (d, l) ps).2 = l ++ (path_parameter <$> filter (fun n => n ∉ d) ps).
Proof.
  revert d l; induction ps as [|n ps IH]; intros d l Hn; cbn [foldl]; [by rewrite app_nil_r|].
  apply NoDup_cons in Hn as [Hni Hn]. cbn [add_missing]. rewrite filter_cons. destruct (decide (n ∈ d)) as [Hd|Hd].
  - rewrite decide_False by (intros Hx; by apply Hx). by apply IH.
  - rewrite decide_True by done. rewrite fmap_cons, IH by done. rewrite <- app_assoc. cbn [app]. do 3 f_equal.
    by apply filter_absent.
Qed.

Lemma ensure_ok route_id ps operation operation' : NoDup ps -> MapOk operation ->
  ensure_path_parameters route_id ps operation = Ok operation' ->
  MapOk operation' /\ (forall k, k <> lit "parameters" -> map_get k operation' = map_get k operation)
  /\ (ps = [] -> operation' = operation)
  /\ (ps <> [] -> exists authored added,
        as_array (default (Array []) (map_get (lit "parameters") operation)) = Some authored
        /\ map_get (lit "parameters") operation' = Some (Array (authored ++ (path_parameter <$> added)))
        /\ forall n, n ∈ ps -> exists p, p ∈ authored ++ (path_parameter <$> added) /\ Declares n p).
Proof.
  intros Hps Hm. unfold ensure_path_parameters. destruct ps as [|q ps]; [intros [= <-]; done|]. cbn [is_empty].
  destruct (as_array _) as [authored|]; [|done]. destruct (try_fold _ _ authored) as [declared|] eqn:Ed; [|done].
  rewrite add_missing_all by done. intros [= <-]. pose proof (declared_spec _ _ _ Ed) as Hd.
  split; [by apply map_insert_ok|]. split; [intros k Hk; by apply map_get_insert_ne|]. split; [done|]. intros _.
  exists authored, (filter (fun n => n ∉ declared) (q :: ps)). split; [done|]. split; [by apply map_get_insert_eq|].
  intros n Hn. setoid_rewrite elem_of_app.
  destruct (decide (n ∈ declared)) as [Hin|Hni].
  - apply Hd in Hin as (p & Hp & Hdp). exists p. split; [by left | done].
  - exists (path_parameter n). split; [right; apply list_elem_of_fmap_2, list_elem_of_filter; done | apply path_parameter_declares].
Qed.

(** ** One route *)

Definition authored (route : Item) : Map N := default [] (item_openapi route).

(** What the operation of a route is, compared with what its endpoint declared. *)
Record Documents (config : OpenApiConfig N) (route : Item) (ps : list str) (operation : Map N) : Prop := {
  doc_id : map_get (lit "operationId") operation = Some (String (item_route_id route));
  doc_no_extension : map_get OPENAPI_CONTRACT_EXTENSION operation = None;
  doc_responses : map_get (lit "responses") operation = Some (default default_responses (map_get (lit "responses") (authored route)))
    /\ exists responses, map_get (lit "responses") operation = Some (Object responses);
  doc_others : forall k, k ∉ [lit "operationId"; OPENAPI_CONTRACT_EXTENSION; lit "responses"; lit "parameters"] ->
    map_get k operation = map_get k (authored route);
  doc_parameters : ps = [] /\ map_get (lit "parameters") operation = map_get (lit "parameters") (authored route)
    \/ exists own added, as_array (default (Array []) (map_get (lit "parameters") (authored route))) = Some own
         /\ map_get (lit "parameters") operation = Some (Array (own ++ (path_parameter <$> added)))
         /\ forall n, n ∈ ps -> exists p, p ∈ own ++ (path_parameter <$> added) /\ Declares n p;
  doc_strict : forall contract, map_get OPENAPI_CONTRACT_EXTENSION (authored route) = Some contract ->
    exists checked, validate config (item_route_id route) (item_method route) (item_path route) checked contract = Ok ()
      /\ forall k, k ∉ [lit "operationId"; lit "parameters"] -> map_get k checked = map_get k operation;
}.

Lemma route_operation_ok config route ps operation : NoDup ps -> MapOk (authored route) ->
  route_operation config route ps = Ok operation -> Documents config route ps operation.
Proof.
  intros Hps Hm. unfold route_operation. fold (authored route).
  pose proof (map_remove_ok OPENAPI_CONTRACT_EXTENSION _ Hm) as Hm1.
  set (op1 := map_remove OPENAPI_CONTRACT_EXTENSION (authored route)) in *.
  assert (H1 : forall k, k <> OPENAPI_CONTRACT_EXTENSION -> map_get k op1 = map_get k (authored route)) by (intros; by apply map_get_remove_ne).
  assert (H1x : map_get OPENAPI_CONTRACT_EXTENSION op1 = None) by apply map_get_remove_eq. clearbody op1.
  destruct (map_contains_key _ op1) eqn:Eid; [done|].
  set (checked := match map_get (lit "responses") op1 with Some (Object _) => _ | Some _ => _ | None => _ end).
  destruct checked as [op2|e] eqn:Ec; [|done].
  assert (H2 : MapOk op2 /\ (forall k, k <> lit "responses" -> map_get k op2 = map_get k op1)
    /\ map_get (lit "responses") op2 = Some (default default_responses (map_get (lit "responses") op1))
    /\ exists responses, map_get (lit "responses") op2 = Some (Object responses)).
  { subst checked. destruct (map_get (lit "responses") op1) as [[| | | | |m]|] eqn:Er; try done; injection Ec as <-.
    - rewrite Er. eauto.
    - split; [by apply map_insert_ok|]. split; [intros k Hk; by apply map_get_insert_ne|]. rewrite map_get_insert_eq by done. split; [done | by eexists]. }
  clear checked Ec. destruct H2 as (Hm2 & H2 & H2r & H2o).
  destruct (match map_get OPENAPI_CONTRACT_EXTENSION (authored route) with Some c => validate config _ _ _ op2 c | None => Ok () end) as [[]|] eqn:Ev; [|done].
  destruct (ensure_path_parameters _ ps op2) as [op3|] eqn:Ee; [|done]. intros [= <-].
  apply ensure_ok in Ee as (Hm3 & H3 & H3e & H3p); [|done|done].
  assert (Hp2 : map_get (lit "parameters") op2 = map_get (lit "parameters") (authored route)) by (rewrite H2, H1; done). split.
  - by apply map_get_insert_eq.
  - rewrite map_get_insert_ne, H3, H2 by done. done.
  - rewrite map_get_insert_ne, H3, <- (H1 (lit "responses")) by done. done.
  - intros k Hk. rewrite !elem_of_cons in Hk. rewrite map_get_insert_ne, H3, H2, H1; try done; naive_solver.
  - rewrite map_get_insert_ne by done. destruct (decide (ps = [])) as [He|Hne]; [left; rewrite (H3e He); done | right].
    rewrite <- Hp2. destruct (H3p Hne) as (own & added & ? & ? & ?). by exists own, added.
  - intros contract Hc. rewrite Hc in Ev. exists op2. split; [done|]. intros k Hk. rewrite !elem_of_cons in Hk.
    rewrite map_get_insert_ne, H3; try done; naive_solver.
Qed.

(** ** All routes *)

(** A route alone: its path, its method and its operation. *)
Definition route_entry (config : OpenApiConfig N) (route : Item) : Result str (str * str * Map N) :=
  let? (path, path_parameters) := openapi_path (item_route_id route) (item_path route) in
  let method := to_ascii_lowercase (trim (item_method route)) in
  if negb (bool_decide (method ∈ METHODS))
  then Err (route_error (item_route_id route) (lit " uses HTTP method " ++ item_method route ++ lit " which OpenAPI 3.1 cannot describe")) else
  if is_empty (trim (item_route_id route)) then Err (lit "an OpenAPI route has an empty route ID") else
  let? operation := route_operation config route path_parameters in
  Ok (path, method, operation).

Definition lookup_operation (path method : str) (paths : Paths) : option (Value N) := map_get path paths |> map_get method.

Lemma lookup_default path method (paths : Paths) :
  map_get method (default [] (map_get path paths)) = lookup_operation path method paths.
Proof. unfold lookup_operation. by destruct (map_get path paths). Qed.

Lemma add_route_ok config paths ids route st' : add_route config (paths, ids) route = Ok st' <->
  exists path method operation, route_entry config route = Ok (path, method, operation) /\ item_route_id route ∉ ids
    /\ lookup_operation path method paths = None
    /\ st' = (map_insert path (map_insert method (Object operation) (default [] (map_get path paths))) paths,
              {[item_route_id route]} ∪ ids).
Proof.
  unfold add_route, route_entry. destruct (openapi_path _ _) as [[path params]|]; [|naive_solver].
  destruct (negb _); [naive_solver|]. destruct (is_empty (trim (item_route_id route))); [naive_solver|].
  case_bool_decide as Hid.
  - split; [done|]. intros (? & ? & ? & _ & ? & _). done.
  - destruct (route_operation _ _ _) as [operation|]; [|naive_solver]. unfold map_contains_key. rewrite lookup_default.
    destruct (lookup_operation _ _ paths) eqn:El.
    + split; [done|]. intros (? & ? & ? & [= <- <- <-] & _ & ? & _). congruence.
    + split; [intros [= <-]; by eexists _, _, _|]. by intros (? & ? & ? & [= <- <- <-] & _ & _ & ->).
Qed.

(** The state of the loop after some routes. *)
Record Assembled (config : OpenApiConfig N) (routes : list Item) (st : Paths * gset str) : Prop := {
  as_map : MapOk st.1 /\ forall path methods, map_get path st.1 = Some methods -> MapOk methods;
  as_ids : forall id, id ∈ st.2 <-> id ∈ item_route_id <$> routes;
  as_lookup : forall path method v, lookup_operation path method st.1 = Some v <->
    exists route operation, route ∈ routes /\ route_entry config route = Ok (path, method, operation) /\ v = Object operation;
  as_empty : st.1 = [] <-> routes = [];
}.

Lemma map_insert_not_nil {A} k (v : A) m : map_insert k v m <> [].
Proof. destruct m as [|f m]; cbn; [done|]. case_decide; [done|]. by destruct (str_leb _ _). Qed.

Lemma assembled_snoc config routes st route st' : Assembled config routes st -> add_route config st route = Ok st' ->
  Assembled config (routes ++ [route]) st'.
Proof.
  destruct st as [paths ids]. intros [[Hm Hms] Hids Hl He] (path & method & operation & Hr & Hid & Hno & ->)%add_route_ok.
  cbn [fst snd] in *. assert (Hmd : MapOk (default [] (map_get path paths))).
  { destruct (map_get path paths) as [ms|] eqn:Ep; [by eapply Hms | constructor]. }
  split; cbn [fst snd].
  - split; [by apply map_insert_ok|]. intros p ms. destruct (decide (path = p)) as [<-|Hn].
    + rewrite map_get_insert_eq by done. intros [= <-]. by apply map_insert_ok.
    + rewrite map_get_insert_ne by done. apply Hms.
  - intros id. rewrite elem_of_union, elem_of_singleton, Hids, fmap_app, elem_of_app. cbn. rewrite list_elem_of_singleton. naive_solver.
  - intros p m v. setoid_rewrite elem_of_app. setoid_rewrite list_elem_of_singleton.
    assert (Hlk : lookup_operation p m (map_insert path (map_insert method (Object operation) (default [] (map_get path paths))) paths)
      = if decide ((path, method) = (p, m)) then Some (Object operation) else lookup_operation p m paths).
    { unfold lookup_operation at 1. destruct (decide (path = p)) as [<-|Hn].
      - rewrite map_get_insert_eq by done. cbn [mbind option_bind]. destruct (decide (method = m)) as [<-|Hn].
        + by rewrite map_get_insert_eq, decide_True.
        + by rewrite map_get_insert_ne, lookup_default, decide_False by naive_solver.
      - rewrite map_get_insert_ne, decide_False by naive_solver. done. }
    rewrite Hlk. case_decide as Hd.
    + injection Hd as <- <-. split; [intros [= <-]; exists route, operation; auto|].
      intros (r & op & [Hin| ->] & Hre & ->); [|congruence].
      assert (Hx : lookup_operation path method paths = Some (Object op)) by (apply Hl; eauto). congruence.
    + rewrite Hl. split; [intros (r & op & ? & ? & ?); exists r, op; auto|].
      intros (r & op & [Hin| ->] & Hre & ->); [by exists r, op|]. rewrite Hr in Hre. injection Hre as <- <- <-. done.
  - split; [intros Hx; by apply map_insert_not_nil in Hx|]. by destruct routes.
Qed.

(** What it takes to describe all routes in one document. *)
Definition Describable (config : OpenApiConfig N) (routes : list Item) : Prop :=
  NoDup (item_route_id <$> routes)
  /\ exists entries, Forall2 (fun r e => route_entry config r = Ok e) routes entries /\ NoDup entries.*1.

Lemma Describable_snoc config routes route : Describable config (routes ++ [route]) <->
  Describable config routes /\ item_route_id route ∉ item_route_id <$> routes
  /\ exists path method operation, route_entry config route = Ok (path, method, operation)
     /\ forall r op, r ∈ routes -> route_entry config r <> Ok (path, method, op).
Proof.
  unfold Describable. rewrite NoDup_fmap_snoc. split.
  - intros ([Hn Hni] & entries & Hf & Hk). apply Forall2_app_inv_l in Hf as (es & el & Hes & Hel & ->).
    inversion Hel as [|? [[path method] operation] ? ? He Hnil]; subst. inversion Hnil; subst.
    apply NoDup_fmap_snoc in Hk as [Hk Hkn]. split_and!; [done | by exists es | |].
    + rewrite Forall_forall in Hni. intros (r & Hr & Hin)%list_elem_of_fmap. by apply (Hni r).
    + exists path, method, operation. split; [done|]. intros r op Hin Hr. apply list_elem_of_lookup in Hin as [i Hi].
      destruct (Forall2_lookup_l _ _ _ _ _ Hes Hi) as (e & Hei & Hre). rewrite Forall_forall in Hkn.
      apply (Hkn e); [by eapply list_elem_of_lookup_2|]. rewrite Hr in Hre. by injection Hre as <-.
  - intros ((Hn & es & Hes & Hk) & Hni & path & method & operation & He & Hkn). split.
    + split; [done|]. apply Forall_forall. intros r Hr Hid. apply Hni. rewrite <- Hid. by apply list_elem_of_fmap_2.
    + exists (es ++ [(path, method, operation)]). split; [apply Forall2_app; [done | by constructor]|].
      apply NoDup_fmap_snoc. split; [done|]. apply Forall_forall. intros [[p m] op] Hin Hx. cbn in Hx. injection Hx as -> ->.
      apply list_elem_of_lookup in Hin as [i Hi]. destruct (Forall2_lookup_r _ _ _ _ _ Hes Hi) as (r & Hri & Hr).
      apply (Hkn r op); [by eapply list_elem_of_lookup_2 | done].
Qed.

Lemma assemble_loop config routes :
  (Describable config routes -> exists st, try_fold (add_route config) ([], ∅) routes = Ok st)
  /\ (forall st, try_fold (add_route config) ([], ∅) routes = Ok st -> Assembled config routes st /\ Describable config routes).
Proof.
  induction routes as [|route routes [IH1 IH2]] using rev_ind.
  - split; [by eexists|]. intros st [= <-]. split.
    + split; [by split; [constructor|] | set_solver | | done]. intros p m v. split; [done|]. intros (r & op & ?%not_elem_of_nil & _). done.
    + split; [apply NoDup_nil_2 | exists []; by split; [constructor | apply NoDup_nil_2]].
  - split.
    + intros (Hd & Hid & path & method & operation & He & Hk)%Describable_snoc. destruct (IH1 Hd) as [st Hst].
      rewrite try_fold_app, Hst. destruct (IH2 st Hst) as [Ha _]. cbn [try_fold]. destruct st as [paths ids].
      destruct Ha as [_ Hids Hl _]. cbn [fst snd] in *.
      assert (Hr : exists st', add_route config (paths, ids) route = Ok st').
      { eexists. apply add_route_ok. exists path, method, operation. split; [done|]. split; [by rewrite Hids|]. split; [|done].
        destruct (lookup_operation path method paths) as [v|] eqn:Ev; [|done]. apply Hl in Ev as (r & op & Hin & Hr & _). by destruct (Hk r op). }
      destruct Hr as [st' ->]. by exists st'.
    + intros st'. rewrite try_fold_app. destruct (try_fold _ _ routes) as [st|] eqn:Est; [|done]. cbn [try_fold].
      destruct (add_route config st route) as [st1|] eqn:Ea; [|done]. intros [= <-]. destruct (IH2 st eq_refl) as [Has Hd].
      split; [by eapply assembled_snoc|]. apply Describable_snoc. split; [done|]. destruct st as [paths ids].
      apply add_route_ok in Ea as (path & method & operation & He & Hid & Hno & _). destruct Has as [_ Hids Hl _]. cbn [fst snd] in *.
      split; [by rewrite <- Hids|]. exists path, method, operation. split; [done|]. intros r op Hin Hr.
      assert (Hx : lookup_operation path method paths = Some (Object op)) by (apply Hl; eauto). congruence.
Qed.

Lemma assemble_paths_ok config routes paths : assemble_paths config routes = Ok paths <->
  paths <> [] /\ exists ids, try_fold (add_route config) ([], ∅) routes = Ok (paths, ids).
Proof.
  unfold assemble_paths. destruct (try_fold _ _ _) as [[p ids]|]; [|naive_solver]. destruct p as [|e p]; cbn; naive_solver.
Qed.

(** ** Properties *)

(** Path templates become OpenAPI paths exactly. A path is accepted precisely when it is absolute, has no query and no
    fragment, and is a sequence of literals and parameters in braces with distinct, non-blank names, the last literal
    without braces; the OpenAPI path is the same template with the catch-all marker [*] removed from the names, and
    the parameters are the names in their order. *)
Lemma openapi_path_exact route_id path r ps : openapi_path route_id path = Ok (r, ps) <->
  starts_with_char "/" path = true /\ contains_any ["?"; "#"]%char path = false
  /\ exists pieces tail, path = source pieces tail /\ TemplateOk pieces tail /\ r = rendered pieces tail /\ ps = names pieces.
Proof. apply openapi_path_ok. Qed.

(** C36: the document contains exactly the bound routes. Assembly succeeds precisely when there is a route, each route can
    be described alone, and neither an identifier nor a pair of OpenAPI path and method occurs twice; and then an
    operation is under a path and a method exactly when it is the operation of one of the routes, at its path and method. *)
Theorem assembled_exact config routes :
  ((exists paths, assemble_paths config routes = Ok paths) <-> routes <> [] /\ Describable config routes)
  /\ forall paths, assemble_paths config routes = Ok paths ->
       forall path method v, lookup_operation path method paths = Some v <->
         exists route operation, route ∈ routes /\ route_entry config route = Ok (path, method, operation) /\ v = Object operation.
Proof.
  destruct (assemble_loop config routes) as [H1 H2]. split; [split|].
  - intros [paths (Hne & ids & Hl)%assemble_paths_ok]. destruct (H2 _ Hl) as [[_ _ _ He] Hd]. split; [|done].
    intros Hr. by apply Hne, He.
  - intros [Hne Hd]. destruct (H1 Hd) as [[paths ids] Hl]. exists paths. apply assemble_paths_ok. split; [|by exists ids].
    destruct (H2 _ Hl) as [[_ _ _ He] _]. intros Hp. by apply Hne, He.
  - intros paths (_ & ids & Hl)%assemble_paths_ok. apply (as_lookup _ _ _ (proj1 (H2 _ Hl))).
Qed.

(** A documented operation is what its endpoint declared. Every operation of an assembled document belongs to a route at
    that path and method, carries the identifier of the route, has no private extension, has responses and declares every
    parameter of the path as required; what the endpoint declared is otherwise unchanged, and where it declared a strict
    contract the operation has passed it. *)
Lemma documented_operation config routes paths path method operation :
  Forall (fun route => MapOk (authored route)) routes ->
  assemble_paths config routes = Ok paths -> lookup_operation path method paths = Some (Object operation) ->
  exists route ps, route ∈ routes /\ openapi_path (item_route_id route) (item_path route) = Ok (path, ps)
    /\ method = to_ascii_lowercase (trim (item_method route)) /\ method ∈ METHODS /\ Documents config route ps operation.
Proof.
  intros Hm (_ & ids & Hl)%assemble_paths_ok Hop. destruct (assemble_loop config routes) as [_ H2]. destruct (H2 _ Hl) as [[_ _ Hlk _] _].
  apply Hlk in Hop as (route & op & Hin & Hr & [= ->]). rewrite Forall_forall in Hm. unfold route_entry in Hr.
  destruct (openapi_path _ _) as [[p ps]|] eqn:Ep; [|done]. destruct (bool_decide _) eqn:Em; cbn [negb] in Hr; [|done].
  apply bool_decide_eq_true in Em. destruct (is_empty _); [done|]. destruct (route_operation _ _ _) as [op'|] eqn:Eo; [|done].
  injection Hr as -> <- ->. exists route, ps. split_and!; try done. apply route_operation_ok; [|by apply Hm|done].
  apply openapi_path_ok in Ep as (_ & _ & pieces & tail & _ & (_ & _ & _ & Hn) & _ & ->). done.
Qed.

End openapi.

Section plugin.
Context {N : Type} `{Serde N} {X : Type}.
Context (to_vec_pretty : list (str * Value N) -> Result str str).
#[local] Notation Item := (DescribeResponseRoutesItem (N := N)).

Definition assemble (config : OpenApiConfig N) (descriptions : list (list Item)) : Result str str :=
  let? paths := assemble_paths config (concat descriptions) in
  let? bytes := map_err (fun error => lit "OpenAPI document serialization failed: " ++ error)
                  (to_vec_pretty (document_fields config paths)) in
  Ok (bytes ++ ["010"%char]).

(** ** The plugin *)

(** A bound endpoint; a rejected description carries the debug text of its error. *)
Definition Describe : Type := X -> X * Result (Routing.InvocationError str) (list Item).

Record OpenApiPlugin := mkPlugin {
  config : OpenApiConfig N; endpoints : list Describe; document : option str }.

Definition set_document (d : option str) (p : OpenApiPlugin) : OpenApiPlugin := mkPlugin (config p) (endpoints p) d.

Definition DOCUMENT_ROUTE_ID : str := lit "lenso.openapi.document".

Definition validate_plugin_config (config : OpenApiConfig N) : Result RuntimeFailure unit :=
  map_err (fun detail => InvalidResolvedPlan (lit "OpenAPI configuration is invalid: " ++ detail)) (validate_config config).

Definition document_route (config : OpenApiConfig N) : Item :=
  mkItem (lit "GET")
    (as_object (object [("summary", text "Get the OpenAPI document");
       ("responses", object [("200", object [("description", text "OpenAPI 3.1 document");
          ("content", object [("application/json", object [("schema", object [("type", text "object")])])])])])]%string))
    (document_path config) DOCUMENT_ROUTE_ID.

Definition describe (p : OpenApiPlugin) : list Item := [document_route (config p)].

Definition handle (p : OpenApiPlugin) (request : Routing.HandleRequest) : HandleOutcome :=
  if decide (Routing.hr_route_id request = DOCUMENT_ROUTE_ID)
  then match document p with
       | None => Err (Internal (lit "OpenAPI document is unavailable before activation"))
       | Some document => Ok (Ok (Response.mkHandleResponse 200
                                    [(lit "content-type", lit "application/json; charset=utf-8")] document))
       end
  else Ok (Err Rejected).

(** The loop over the bound endpoints. *)
Fixpoint describe_all (endpoints : list (nat * Describe)) (x : X) : X * Result RuntimeFailure (list (list Item)) :=
  match endpoints with
  | [] => (x, Ok [])
  | (provider_index, describe) :: endpoints =>
      let '(x, r) := describe x in
      match r with
      | Err (Routing.Domain error) =>
          (x, Err (PluginFailure (lit "OpenAPI Endpoint provider " ++ show_Z (Z.of_nat provider_index)
                                  ++ lit " rejected its description: " ++ error)))
      | Err (Routing.Runtime error) => (x, Err error)
      | Ok description =>
          let '(x, r) := describe_all endpoints x in (x, let? descriptions := r in Ok (description :: descriptions))
      end
  end.

Definition activate (p : OpenApiPlugin) (x : X) : X * OpenApiPlugin * Result RuntimeFailure unit :=
  let '(x, r) := describe_all (enumerate (endpoints p)) x in
  match r with
  | Err error => (x, p, Err error)
  | Ok descriptions =>
      match assemble (config p) descriptions with
      | Err detail => (x, p, Err (PluginFailure detail))
      | Ok assembled => (x, set_document (Some assembled) p, Ok ())
      end
  end.

Definition deactivate (p : OpenApiPlugin) : OpenApiPlugin * Result RuntimeFailure unit := (set_document None p, Ok ()).

(** ** The plugin's own description *)

Lemma static_path path : contains_any ["?"; "#"; "{"; "}"]%char path = false ->
  contains_any ["?"; "#"]%char path = false /\ "{"%char ∉ path /\ "}"%char ∉ path.
Proof.
  rewrite !contains_any_false, !Forall_forall. intros Hf. split_and!.
  - intros c Hc Hin. apply (Hf c Hc). rewrite !elem_of_cons in *. tauto.
  - intros Hin. apply (Hf _ Hin). do 2 right. by left.
  - intros Hin. apply (Hf _ Hin). do 3 right. by left.
Qed.

Lemma document_route_entry config : validate_config config = Ok () ->
  exists operation, route_entry config (document_route config) = Ok (document_path config, lit "get", operation).
Proof.
  unfold validate_config. intros Hv. destruct (is_empty (trim (title config))); [done|]. destruct (is_empty (trim (version config))); [done|].
  destruct (negb (starts_with_char _ _) || _) eqn:Ep; [done|]. apply orb_false_elim in Ep as [Hs%negb_false_iff Hc]. clear Hv.
  destruct (static_path _ Hc) as (Hq & Hb1 & Hb2).
  assert (Hp : openapi_path DOCUMENT_ROUTE_ID (document_path config) = Ok (document_path config, [])).
  { apply openapi_path_ok. split; [done|]. split; [done|]. exists [], (document_path config).
    split; [done|]. split; [|done]. split; [constructor|]. split; [done|]. split; [done|]. apply NoDup_nil_2. }
  unfold route_entry. change (item_route_id (document_route config)) with DOCUMENT_ROUTE_ID.
  change (item_path (document_route config)) with (document_path config). rewrite Hp. eexists. reflexivity.
Qed.

(** The document is served exactly between a successful activation and the deactivation. After an activation that
    succeeds the document route answers with the serialized document of what the endpoints described; an activation that
    fails changes nothing; without a document the route fails as unavailable; every other route is rejected; and a valid
    configuration makes the plugin's own route describable under its configured path. *)
Lemma document_lifecycle (p : OpenApiPlugin) x request :
  (forall x' p', activate p x = (x', p', Ok ()) -> exists descriptions paths bytes,
     describe_all (enumerate (endpoints p)) x = (x', Ok descriptions)
     /\ assemble_paths (config p) (concat descriptions) = Ok paths
     /\ to_vec_pretty (document_fields (config p) paths) = Ok bytes
     /\ (Routing.hr_route_id request = DOCUMENT_ROUTE_ID -> handle p' request
         = Ok (Ok (Response.mkHandleResponse 200 [(lit "content-type", lit "application/json; charset=utf-8")] (bytes ++ ["010"%char])))))
  /\ (forall x' p' e, activate p x = (x', p', Err e) -> p' = p)
  /\ (document p = None -> Routing.hr_route_id request = DOCUMENT_ROUTE_ID ->
        handle p request = Err (Internal (lit "OpenAPI document is unavailable before activation")))
  /\ document (deactivate p).1 = None
  /\ (Routing.hr_route_id request <> DOCUMENT_ROUTE_ID -> handle p request = Ok (Err Rejected))
  /\ (validate_plugin_config (config p) = Ok () ->
       exists operation, route_entry (config p) (document_route (config p)) = Ok (document_path (config p), lit "get", operation)).
Proof.
  split_and!.
  - intros x' p' Ha. unfold activate in Ha. destruct (describe_all _ x) as [x1 [descriptions|]]; [|done].
    unfold assemble in Ha. destruct (assemble_paths _ _) as [paths|] eqn:Ep; [|done].
    destruct (to_vec_pretty _) as [bytes|] eqn:Eb; [|done]. cbn in Ha. injection Ha as <- <-. exists descriptions, paths, bytes.
    split_and!; try done. intros Hr. unfold handle. by rewrite decide_True.
  - intros x' p' e Ha. unfold activate in Ha. destruct (describe_all _ x) as [x1 [descriptions|]]; [|congruence].
    destruct (assemble _ _); congruence.
  - intros Hd Hr. unfold handle. by rewrite decide_True, Hd.
  - done.
  - intros Hr. unfold handle. by rewrite decide_False.
  - unfold validate_plugin_config. intros Hv. apply document_route_entry. by destruct (validate_config (config p)) as [[]|].
Qed.

End plugin.

(** ** Witnesses *)

#[local] Existing Instance ref_serde.

Definition sample_item (id method path : string) (operation : option (Map Z)) : DescribeResponseRoutesItem :=
  mkItem (lit method) operation (lit path) (lit id).
Definition sample_items : list DescribeResponseRoutesItem :=
  [sample_item "orders.read" "GET" "/orders/{order_id}" None; sample_item "assets.read" " get" "/assets/{*path}" None].
Definition sample_paths : Paths :=
  match assemble_paths default_config sample_items with Ok p => p | Err _ => [] end.
Definition assets_operation : Map Z :=
  default [] (lookup_operation (lit "/assets/{path}") (lit "get") sample_paths |> as_object).

(** A closing brace before a parameter is accepted; only the text after the last parameter is searched for one. *)
Example terminator_before_a_parameter :
  openapi_path (lit "r") (lit "/a}/{id}") = Ok (lit "/a}/{id}", [lit "id"])
  /\ openapi_path (lit "r") (lit "/{id}/a}") = Err (lit "route r has an unmatched path parameter terminator").
Proof. split; vm_compute; reflexivity. Qed.

(** A path parameter declared by reference is not seen, so it is declared a second time. *)
Example referenced_parameter_declared_twice :
  ensure_path_parameters (lit "r") [lit "id"]
    [(lit "parameters", Array [object [("$ref", text "#/components/parameters/Id" : Value Z)]%string])]
  = Ok [(lit "parameters", Array [object [("$ref", text "#/components/parameters/Id")]%string; path_parameter (lit "id")])].
Proof. vm_compute. reflexivity. Qed.
End OpenApi.
