(* ===== verification/Extract.v ===== *)
(** * Typed responses and extraction ([lenso-capability-http-endpoint/src/response.rs] and [extract.rs])

    The responses an authored handler builds and the extractors that run before it. Serialization and deserialization
    ([serde_json], [serde_urlencoded]) and the reason phrases of the [http] crate are arguments. An [expect] that can fail
    is [Panicked]; [extractors_never_panic] and the properties show when it cannot. *)
From S2P Require Import Prelude RustStd HttpCrate RefHttp Kernel Json Request Response Routing Authoring.

(** [serde::Serialize] through [serde_json::to_vec]. *)
Class Serialize (T : Type) := to_vec : T -> Result str str.

(** The conversion traits of [response.rs]. *)
Inductive ResponseBuildError := JsonError (error : str) | NonTextHeaderValue (error : str).
Class IntoResponse (T : Type) := into_response : T -> Outcome (Result ResponseBuildError Response.HandleResponse).
Class IntoEndpointError (E : Type) :=
  into_endpoint_error : E -> Outcome (Result (Routing.InvocationError Authoring.HandleError) Response.HandleResponse).

Module Extract.
Import Json Response Routing Authoring.

(** [EndpointHandleInvocationError]. *)
Definition EndpointHandleInvocationError : Type := InvocationError HandleError.

(** [Display] of the error and its conversion. *)
Definition build_error_text (error : ResponseBuildError) : str :=
  match error with
  | JsonError error => lit "response JSON serialization failed: " ++ error
  | NonTextHeaderValue error => lit "response header is not valid text: " ++ error
  end.
Definition from_build_error (error : ResponseBuildError) : EndpointHandleInvocationError :=
  Runtime (Internal (build_error_text error)).

Definition JSON_CONTENT_TYPE : str := lit "application/json; charset=utf-8".
Definition PROBLEM_CONTENT_TYPE : str := lit "application/problem+json; charset=utf-8".
Definition TEXT_CONTENT_TYPE : str := lit "text/plain; charset=utf-8".

Definition with_content_type (status : StatusCode) (content_type body : str) : HandleResponse :=
  mkHandleResponse status [(lit "content-type", content_type)] body.

Definition text (status : StatusCode) (body : str) : HandleResponse := with_content_type status TEXT_CONTENT_TYPE body.
Definition empty (status : StatusCode) : HandleResponse := mkHandleResponse status [] [].

Section responses.
Context `{HttpCrate} {N : Type} `{Serde N}.
(** [StatusCode::canonical_reason], the serialization of a struct with these fields, and the text of [ToStrError]. *)
Context (canonical_reason : StatusCode -> option str) (struct_to_vec : list (str * Value N) -> Result str str) (to_str_error : str).

(** [response.with_header(name, value)]. *)
Definition with_header (self : HandleResponse) (name : HeaderName) (value : HeaderValue) : Result ResponseBuildError HandleResponse :=
  let? text := ok_or (NonTextHeaderValue to_str_error) (hv_to_str value) in
  Ok (mkHandleResponse (handle_status self) (handle_headers self ++ [(hn_as_str name, text)]) (handle_body self)).

(** [json(status, body)]. *)
Definition json {T} `{Serialize T} (status : StatusCode) (body : T) : Result ResponseBuildError HandleResponse :=
  let? bytes := map_err JsonError (to_vec body) in Ok (with_content_type status JSON_CONTENT_TYPE bytes).

Record Problem := mkProblem { type_uri : str; problem_title : str; problem_status : Z; problem_detail : str; problem_code : str }.

Definition new_problem (status : StatusCode) (code detail : str) : Problem :=
  mkProblem (lit "about:blank") (default (lit "HTTP error") (canonical_reason status)) status detail code.

Definition problem_fields (p : Problem) : list (str * Value N) :=
  [(lit "type", String (type_uri p)); (lit "title", String (problem_title p)); (lit "status", Number (number_of (problem_status p)));
   (lit "detail", String (problem_detail p)); (lit "code", String (problem_code p))].

#[global] Instance into_response_response : IntoResponse HandleResponse := fun self => Returned (Ok self).

Record JsonOf (T : Type) := mkJson { json_value : T }.
Arguments mkJson {T}.
Arguments json_value {T}.
Definition json_into_response {T} `{Serialize T} (self : JsonOf T) : Outcome (Result ResponseBuildError HandleResponse) :=
  Returned (json STATUS_OK (json_value self)).
#[global] Instance into_response_json {T} `{Serialize T} : IntoResponse (JsonOf T) := json_into_response.

Definition status_into_response {T} `{IntoResponse T} (self : StatusCode * T) : Outcome (Result ResponseBuildError HandleResponse) :=
  let '(status, body) := self in
  let^ r := into_response body in
  Returned (let? response := r in Ok (mkHandleResponse status (handle_headers response) (handle_body response))).
#[global] Instance into_response_status {T} `{IntoResponse T} : IntoResponse (StatusCode * T) := status_into_response.

Definition problem_into_response (self : Problem) : Outcome (Result ResponseBuildError HandleResponse) :=
  let^ status := expect (status_from_u16 (problem_status self)) in
  let^ bytes := expect (ok (struct_to_vec (problem_fields self))) in
  Returned (Ok (with_content_type status PROBLEM_CONTENT_TYPE bytes)).
#[global] Instance into_response_problem : IntoResponse Problem := problem_into_response.

Definition response_into_endpoint_error {T} `{IntoResponse T} (self : T) : Outcome (Result EndpointHandleInvocationError HandleResponse) :=
  let^ r := into_response self in Returned (map_err from_build_error r).
#[global] Instance into_endpoint_error_response {T} `{IntoResponse T} : IntoEndpointError T | 10 := response_into_endpoint_error.
#[global] Instance into_endpoint_error_invocation : IntoEndpointError EndpointHandleInvocationError | 1 := fun self =>
  Returned (Err self).

(** [IntoEndpointResult] of a handler's result. *)
Definition into_endpoint_result {T E} `{IntoResponse T, IntoEndpointError E} (self : Result E T) : Outcome HandleOutcome :=
  match self with
  | Ok response =>
      let^ r := into_response response in
      Returned (map_err (fun error => Internal (build_error_text error)) (result_map Ok r))
  | Err error => let^ r := into_endpoint_error error in Returned (into_result r)
  end.

(** [problem(status, code, detail)]. *)
Definition problem (status : StatusCode) (code detail : str) : Outcome HandleResponse :=
  let^ r := into_response (new_problem status code detail) in expect (ok r).

(** ** Extraction *)

Inductive ExtractorRejection :=
| RejectedResponse (response : HandleResponse)
| Invocation (error : EndpointHandleInvocationError).

(** What an extractor yields. *)
Definition Extracted (T : Type) : Type := Outcome (Result ExtractorRejection T).

Definition reject {T} (status : StatusCode) (code detail : string) : Extracted T :=
  let^ response := problem status (lit code) (lit detail) in Returned (Err (RejectedResponse response)).

Definition UNSUPPORTED_MEDIA_TYPE : StatusCode := 415.

Definition has_json_content_type (request : HandleRequest) : bool :=
  existsb (fun header => eq_ignore_ascii_case header.1 (lit "content-type")
                         && match head (split ";" header.2) with
                            | Some value => eq_ignore_ascii_case (trim value) (lit "application/json")
                            | None => false
                            end) (hr_headers request).

Definition extract_json {T} (from_slice : str -> option T) (request : HandleRequest) : Extracted T :=
  if negb (has_json_content_type request)
  then reject UNSUPPORTED_MEDIA_TYPE "json_content_type_required" "The request content type must be application/json." else
  match from_slice (hr_body request) with
  | Some value => Returned (Ok value)
  | None => reject BAD_REQUEST "invalid_json_body" "The request body is not valid JSON for this endpoint."
  end.

(** [Option<Json<T>>]. *)
Definition extract_optional_json {T} (from_slice : str -> option T) (request : HandleRequest) : Extracted (option T) :=
  if is_empty (hr_body request) then Returned (Ok None) else
  let^ r := extract_json from_slice request in Returned (result_map Some r).

Definition invalid_path {T} : Extracted T :=
  reject BAD_REQUEST "invalid_path_parameters" "The route path parameters are not valid for this endpoint.".

(** [serde_urlencoded::to_string] and [from_str]. *)
Definition extract_path {T} (encode : list (str * str) -> option str) (from_str : str -> option T) (request : HandleRequest) : Extracted T :=
  let! encoded := encode (hr_path_parameters request) else invalid_path in
  let! value := from_str encoded else invalid_path in
  Returned (Ok value).

Definition extract_query {T} (from_str : str -> option T) (request : HandleRequest) : Extracted T :=
  let! value := from_str (default [] (hr_query request))
    else reject BAD_REQUEST "invalid_query" "The query string is not valid for this endpoint." in
  Returned (Ok value).

Definition extract_request_id (request : HandleRequest) : Extracted str := Returned (Ok (hr_request_id request)).
Definition extract_body (request : HandleRequest) : Extracted str := Returned (Ok (hr_body request)).
Definition extract_headers (request : HandleRequest) : Extracted (list (str * str)) := Returned (Ok (hr_headers request)).

(** [Headers::get]. *)
Definition headers_get (name : str) (values : list (str * str)) : option str :=
  snd <$> find (fun h => eq_ignore_ascii_case h.1 name) values.

(** ** What the extractors answer *)

(** The response is the problem with this status and code. *)
Definition ProblemResponse (status : Z) (code : str) (r : HandleResponse) : Prop :=
  exists detail bytes, struct_to_vec (problem_fields (new_problem status code detail)) = Ok bytes
    /\ r = with_content_type status PROBLEM_CONTENT_TYPE bytes.

(** "serializing a string-only problem cannot fail". *)
Definition ProblemsSerialize : Prop := forall p, is_ok (struct_to_vec (problem_fields p)) = true.

Context `{!HttpLaws}.

Lemma problem_ok status code detail : ProblemsSerialize -> (100 <= status < 1000)%Z ->
  exists r, problem status code detail = Returned r /\ ProblemResponse status code r.
Proof.
  intros Hser Hs. unfold problem, into_response, into_response_problem, problem_into_response. cbn [problem_status new_problem].
  rewrite (proj2 (status_from_u16_spec status status)) by done. cbn [expect].
  specialize (Hser (new_problem status code detail)). destruct (struct_to_vec (problem_fields (new_problem status code detail))) as [bytes|] eqn:Eb; [|done].
  cbn. eexists. split; [done|]. by exists detail, bytes.
Qed.

Lemma reject_ok {T} status code detail : ProblemsSerialize -> (100 <= status < 1000)%Z ->
  exists r, reject (T := T) status code detail = Returned (Err (RejectedResponse r)) /\ ProblemResponse status (lit code) r.
Proof.
  intros Hser Hs. unfold reject. destruct (problem_ok status (lit code) (lit detail) Hser Hs) as (r & -> & Hr). by exists r.
Qed.

(** The problems an extraction can answer with. *)
Definition RejectsWith {T} (problems : list (Z * str)) (e : Extracted T) : Prop :=
  (exists v, e = Returned (Ok v))
  \/ exists status code r, (status, code) ∈ problems /\ e = Returned (Err (RejectedResponse r)) /\ ProblemResponse status code r.

Lemma rejects_with {T} problems status code detail : ProblemsSerialize -> (100 <= status < 1000)%Z -> (status, lit code) ∈ problems ->
  RejectsWith (T := T) problems (reject status code detail).
Proof. intros Hser Hs Hin. right. destruct (reject_ok (T := T) status code detail Hser Hs) as (r & Hr & Hp). by exists status, (lit code), r. Qed.

(** A [content-type] header names JSON: in any case, between whitespace, with or without parameters. *)
Definition JsonContentType (request : HandleRequest) : Prop := exists name before mime after rest,
  (name, before ++ mime ++ after ++ rest) ∈ hr_headers request /\ to_ascii_lowercase name = lit "content-type"
  /\ Spaces before /\ to_ascii_lowercase mime = lit "application/json" /\ Spaces after
  /\ (rest = [] \/ exists parameters, rest = ";"%char :: parameters).

(** The first piece of a text is what is before the first separator. *)
Lemma split_first c s : exists rest, s = default [] (head (split c s)) ++ rest /\ (rest = [] \/ exists tail, rest = c :: tail).
Proof.
  pose proof (split_not_nil c s) as Hn. pose proof (split_join c s) as Hj. destruct (split c s) as [|piece pieces]; [done|].
  cbn [head default]. exists (match pieces with [] => [] | _ => c :: join [c] pieces end). split; [|by destruct pieces; [left|right; eexists]].
  rewrite <- Hj. destruct pieces; cbn; by rewrite ?app_nil_r.
Qed.

Lemma split_head c piece rest : c ∉ piece -> (rest = [] \/ exists tail, rest = c :: tail) -> head (split c (piece ++ rest)) = Some piece.
Proof.
  intros Hc Hr. induction piece as [|d piece IH]; cbn [app].
  - destruct Hr as [->|(tail & ->)]; [done|]. cbn. by rewrite decide_True.
  - cbn [split]. rewrite decide_False by set_solver. specialize (IH ltac:(set_solver)). destruct (split c (piece ++ rest)); [done|]. by injection IH as ->.
Qed.

Lemma spaces_no_semicolon s : Spaces s -> ";"%char ∉ s.
Proof.
  assert (Hv : visible ";"%char = true) by done. destruct (ws_visible _ Hv) as (V1 & V2 & V2' & V3 & V3').
  assert (Vm : forall c e, ws3 c ";"%char e = false) by (intros c e; unfold ws3; cbn; by rewrite ?andb_false_r).
  induction 1 as [|c s Hc _ IH|c d s Hc _ IH|c d e s Hc _ IH]; rewrite ?elem_of_cons; [apply not_elem_of_nil|..].
  - intros [<-|Hs]; [by rewrite V1 in Hc | done].
  - intros [<-|[<-|Hs]]; [by rewrite V2 in Hc | by rewrite V2' in Hc | done].
  - intros [<-|[<-|[<-|Hs]]]; [by rewrite V3 in Hc | by rewrite Vm in Hc | by rewrite V3' in Hc | done].
Qed.

Lemma has_json_content_type_ok request : has_json_content_type request = true <-> JsonContentType request.
Proof.
  unfold has_json_content_type. rewrite existsb_exists. split.
  - intros ([name value] & Hin%list_elem_of_In & He). cbn [fst snd] in He. apply andb_prop in He as [Hn%eq_ignore_ascii_case_spec Hv].
    destruct (split_first ";" value) as (rest & Hval & Hrest). destruct (head (split ";" value)) as [piece|]; [|done]. cbn in Hval.
    apply eq_ignore_ascii_case_spec in Hv. destruct (trim_split piece) as (before & after & Hb & Ha & Hp).
    exists name, before, (trim piece), after, rest. split_and!; [|done..]. rewrite Hp in Hval. by rewrite !(assoc_L (++)), <- (assoc_L (++) before), <- Hval.
  - intros (name & before & mime & after & rest & Hin & Hn & Hb & Hm & Ha & Hr). eexists. split; [by apply list_elem_of_In|]. cbn [fst snd].
    assert (Hvis : Forall (fun c => visible c = true) mime) by (eapply lowercase_visible; [exact Hm | by repeat constructor]).
    assert (Hsemi : ";"%char ∉ before ++ mime ++ after).
    { rewrite !not_elem_of_app. split_and!; [by apply spaces_no_semicolon | | by apply spaces_no_semicolon]. intros Hi.
      assert (Hf : bool_decide (";"%char ∈ lit "application/json") = false) by reflexivity. apply bool_decide_eq_false in Hf. apply Hf.
      rewrite <- Hm. exact (list_elem_of_fmap_2 ascii_lower mime ";"%char Hi). }
    rewrite !(assoc_L (++)), <- (assoc_L (++) before), split_head by done.
    rewrite trim_between by done. apply andb_true_intro. split; apply eq_ignore_ascii_case_spec; [exact Hn | exact Hm].
Qed.

Lemma extract_json_rejects {T} (from_slice : str -> option T) request : ProblemsSerialize ->
  RejectsWith [(400%Z, lit "invalid_json_body"); (415%Z, lit "json_content_type_required")] (extract_json from_slice request).
Proof.
  intros Hser. unfold extract_json. destruct (has_json_content_type request); cbn [negb].
  - destruct (from_slice _) as [v|]; [left; by exists v|]. apply rejects_with; [done | done | by left].
  - apply rejects_with; [done | done | right; by left].
Qed.

Lemma extract_optional_json_rejects {T} (from_slice : str -> option T) request : ProblemsSerialize ->
  RejectsWith [(400%Z, lit "invalid_json_body"); (415%Z, lit "json_content_type_required")] (extract_optional_json from_slice request).
Proof.
  intros Hser. unfold extract_optional_json. destruct (is_empty _); [left; by exists None|].
  destruct (extract_json_rejects from_slice request Hser) as [[v ->]|(status & code & r & Hin & -> & Hp)]; [left; by exists (Some v)|].
  right. by exists status, code, r.
Qed.

Lemma extract_path_rejects {T} encode (from_str : str -> option T) request : ProblemsSerialize ->
  RejectsWith [(400%Z, lit "invalid_path_parameters")] (extract_path encode from_str request).
Proof.
  intros Hser. unfold extract_path, invalid_path. destruct (encode _) as [encoded|]; [|apply rejects_with; [done | done | by left]].
  destruct (from_str encoded) as [v|]; [left; by exists v|]. apply rejects_with; [done | done | by left].
Qed.

Lemma extract_query_rejects {T} (from_str : str -> option T) request : ProblemsSerialize ->
  RejectsWith [(400%Z, lit "invalid_query")] (extract_query from_str request).
Proof.
  intros Hser. unfold extract_query. destruct (from_str _) as [v|]; [left; by exists v|]. apply rejects_with; [done | done | by left].
Qed.

(** ** Properties *)

(** C37: Extraction decides exactly, given that a problem, a struct of texts and a number, can be serialized. A request has a JSON body when one of its [content-type] headers names [application/json]
    in any case, between whitespace and before any parameters. Then the body is the decoded value, or refused with 400 when it cannot
    be decoded; without such a header it is refused with 415 whatever it holds. An optional body is absent exactly when it is
    empty, and otherwise decided the same way. Path parameters are extracted exactly when they can be encoded and decoded again, the
    query when it, or the empty text in its place, can be decoded, and both are refused with 400 otherwise. Every refusal is the
    problem document with its own code, and no extraction panics. *)
Theorem extraction_exact {T} (from_slice from_str : str -> option T) encode request : ProblemsSerialize ->
  exists media body path query json,
    ProblemResponse 415 (lit "json_content_type_required") media /\ ProblemResponse 400 (lit "invalid_json_body") body
    /\ ProblemResponse 400 (lit "invalid_path_parameters") path /\ ProblemResponse 400 (lit "invalid_query") query
    /\ (JsonContentType request
          /\ match from_slice (hr_body request) with
             | Some value => json = Ok value
             | None => json = Err (RejectedResponse body)
             end
        \/ ~ JsonContentType request /\ json = Err (RejectedResponse media))
    /\ extract_json from_slice request = Returned json
    /\ (hr_body request = [] -> extract_optional_json from_slice request = Returned (Ok None))
    /\ (hr_body request <> [] -> extract_optional_json from_slice request = Returned (result_map Some json))
    /\ (forall value, extract_path encode from_str request = Returned (Ok value)
          <-> exists encoded, encode (hr_path_parameters request) = Some encoded /\ from_str encoded = Some value)
    /\ ((exists value, extract_path encode from_str request = Returned (Ok value))
        \/ extract_path encode from_str request = Returned (Err (RejectedResponse path)))
    /\ (forall value, extract_query from_str request = Returned (Ok value)
          <-> exists text, from_str text = Some value /\ (hr_query request = Some text \/ hr_query request = None /\ text = []))
    /\ ((exists value, extract_query from_str request = Returned (Ok value))
        \/ extract_query from_str request = Returned (Err (RejectedResponse query))).
Proof.
  intros Hser.
  destruct (problem_ok 415 (lit "json_content_type_required") (lit "The request content type must be application/json.") Hser) as (media & Hm & ?); [done|].
  destruct (problem_ok 400 (lit "invalid_json_body") (lit "The request body is not valid JSON for this endpoint.") Hser) as (body & Hb & ?); [done|].
  destruct (problem_ok 400 (lit "invalid_path_parameters") (lit "The route path parameters are not valid for this endpoint.") Hser) as (path & Hp & ?); [done|].
  destruct (problem_ok 400 (lit "invalid_query") (lit "The query string is not valid for this endpoint.") Hser) as (query & Hq & ?); [done|].
  set (json := if has_json_content_type request then ok_or (RejectedResponse body) (from_slice (hr_body request)) else Err (RejectedResponse media)).
  assert (Hjson : extract_json from_slice request = Returned json).
  { subst json. unfold extract_json, reject, UNSUPPORTED_MEDIA_TYPE, BAD_REQUEST. destruct (has_json_content_type request); cbn [negb]; [|by rewrite Hm].
    destruct (from_slice _); [done|]. by rewrite Hb. }
  exists media, body, path, query, json. do 4 (split; [done|]).
  unfold extract_optional_json, extract_path, invalid_path, extract_query. unfold reject, BAD_REQUEST in *. rewrite Hjson, Hp, Hq. split_and!; try done.
  - pose proof (has_json_content_type_ok request) as Hc. subst json. destruct (has_json_content_type request).
    + left. split; [by apply Hc|]. by destruct (from_slice _).
    + right. split; [|done]. by intros ?%Hc.
  - by intros ->.
  - intros Hn. by destruct (hr_body request).
  - intros value. destruct (encode _) as [e|]; cbn; [destruct (from_str e) as [v|] eqn:Ev; cbn|]; naive_solver.
  - destruct (encode _) as [e|]; [destruct (from_str e)|]; cbn; eauto.
  - intros value. destruct (hr_query request) as [q|]; cbn;
      (destruct (from_str _) as [v|] eqn:Ev; cbn; (split; [intros [= <-] || done; eauto | intros (text & Ht & [Hx|[Hx ->]]); congruence])).
  - destruct (from_str _); cbn; eauto.
Qed.

End responses.
Arguments mkJson {T}.
Arguments json_value {T}.

(** ** Witnesses *)

#[local] Existing Instance ref_http.
#[local] Existing Instance ref_http_laws.
#[local] Existing Instance ref_serde.

Definition ref_struct (fields : list (str * Value Z)) : Result str str := Ok (ref_to_string (Object fields)).
Lemma ref_struct_serializes : ProblemsSerialize ref_struct.
Proof. done. Qed.
Definition json_request : HandleRequest := mkHandleRequest (lit "{}") None [(lit "Content-Type", lit "Application/JSON ; charset=utf-8")]
  (lit "POST") (lit "/items") [] None (lit "lenso-1") (lit "items.create").

Lemma json_request_is_json : JsonContentType json_request.
Proof. apply has_json_content_type_ok. vm_compute. reflexivity. Qed.

Lemma extraction_exact_witness :
  extract_json (fun _ => None) ref_struct Some json_request = Returned (Ok (lit "{}"))
  /\ exists path, ProblemResponse (fun _ => None) ref_struct 400 (lit "invalid_path_parameters") path
     /\ extract_path (fun _ => None) ref_struct (fun _ => None) Some json_request = Returned (Err (RejectedResponse path)).
Proof.
  destruct (extraction_exact (fun _ => None) ref_struct Some Some (fun _ => None) json_request ref_struct_serializes)
    as (media & body & path & query & json & _ & _ & Hpath & _ & Hj & Hjson & _ & _ & Hok & [[value Hv]|Hrefused] & _).
  - apply Hok in Hv as (encoded & He & _). discriminate He.
  - split; [|exists path; split; [exact Hpath | exact Hrefused]]. rewrite Hjson.
    destruct Hj as [[_ ->]|[Hn _]]; [reflexivity | destruct (Hn json_request_is_json)].
Defined.

(** Parameters are not part of the type, and a type that only begins with it is another one. *)
Example json_types :
  (fun v => has_json_content_type (mkHandleRequest [] None [(lit "content-type", lit v)] [] [] [] None [] []))
    <$> ["application/json;charset=utf-8"; " application/JSON ; v=1"; "application/jsonp"; "text/plain; application/json"]%string
  = [true; true; false; false].
Proof. vm_compute. reflexivity. Qed.
End Extract.
