(* ===== verification/EndpointTest.v ===== *)
(** * The endpoint test harness ([lenso-capability-http-endpoint/src/testing.rs])

    A request built by hand and sent to an authored endpoint without an ingress. The properties compare it with what the
    ingress does: the same handler runs, on the route as declared. *)
From S2P Require Import Prelude RustStd HttpCrate RefHttp Kernel Json Request Response Routing Authoring Extract.

Module EndpointTest.
Import Json Response Routing Authoring.

Inductive EndpointTestError :=
| UnknownRoute (route_id : str)
| DomainFailure (error : HandleError)
| RuntimeFailed (failure : RuntimeFailure).

(** [From<EndpointHandleInvocationError>]. *)
Definition from_invocation_error (error : InvocationError HandleError) : EndpointTestError :=
  match error with Domain error => DomainFailure error | Runtime failure => RuntimeFailed failure end.

(** [TestRequest], but for the provider it borrows. *)
Record TestRequest := mkTest {
  test_route_id : str; test_body : str; test_headers : list (str * str); test_path_parameters : list (str * str);
  test_query : option str }.

(** [EndpointTest::request]. *)
Definition request (route_id : str) : TestRequest := mkTest route_id [] [] [] None.

Definition header (name value : str) (t : TestRequest) : TestRequest :=
  mkTest (test_route_id t) (test_body t) (test_headers t ++ [(name, value)]) (test_path_parameters t) (test_query t).

Definition path_parameter (name value : str) (t : TestRequest) : TestRequest :=
  mkTest (test_route_id t) (test_body t) (test_headers t) (test_path_parameters t ++ [(name, value)]) (test_query t).

(** [serialized] is what [serde_json::to_vec] makes of the value. *)
Definition json (serialized : Result str str) (t : TestRequest) : Result str TestRequest :=
  let? body := serialized in
  Ok (mkTest (test_route_id t) body (test_headers t ++ [(lit "content-type", lit "application/json")]) (test_path_parameters t) (test_query t)).

(** [encoded] is what [serde_urlencoded::to_string] makes of the value. *)
Definition query (encoded : Result str str) (t : TestRequest) : Result str TestRequest :=
  let? query := encoded in
  Ok (mkTest (test_route_id t) (test_body t) (test_headers t) (test_path_parameters t) (Some query)).

(** The fold over the path parameters. *)
Definition expand_path (path : str) (parameters : list (str * str)) : str :=
  foldl (fun path parameter => replace ("{"%char :: parameter.1 ++ ["}"%char]) parameter.2 path) path parameters.

Section harness.
Context {N : Type} {X : Type}.
(** The provider: its routes and its dispatch, run under a context that is not cancelled. *)
Context (routes : list (EndpointRoute (N := N))) (provider : bool -> HandleRequest -> X -> X * HandleOutcome).

Definition test_request (route : EndpointRoute (N := N)) (t : TestRequest) : HandleRequest :=
  mkHandleRequest (test_body t) None (test_headers t) (method route) (expand_path (path route) (test_path_parameters t))
    (test_path_parameters t) (test_query t) (lit "endpoint-test-1") (test_route_id t).

Definition send (t : TestRequest) (x : X) : X * Result EndpointTestError HandleResponse :=
  match find (fun route => bool_decide (route_id route = test_route_id t)) routes with
  | None => (x, Err (UnknownRoute (test_route_id t)))
  | Some route =>
      let '(x, outcome) := provider false (test_request route t) x in
      (x, let? result := map_err RuntimeFailed outcome in map_err DomainFailure result)
  end.
End harness.

(** [TestResponse]. *)
Definition status `{HttpCrate} (r : HandleResponse) : Outcome StatusCode :=
  expect (try_from_range u16_max (handle_status r) |> status_from_u16).
Definition response_json {T} (from_slice : str -> option T) (r : HandleResponse) : option T := from_slice (handle_body r).
Definition response_header (name : str) (r : HandleResponse) : option str :=
  snd <$> find (fun header => eq_ignore_ascii_case header.1 name) (handle_headers r).

(** ** Path templates *)

(** A template is text and parameters. *)
Inductive Token := Text (s : str) | Placeholder (name : str).
Definition token_text (t : Token) : str := match t with Text s => s | Placeholder name => "{"%char :: name ++ ["}"%char] end.
Definition template (tokens : list Token) : str := concat (token_text <$> tokens).
Definition TokenOk (t : Token) : Prop :=
  match t with Text s => "{"%char ∉ s | Placeholder name => "{"%char ∉ name /\ "}"%char ∉ name end.

(** A parameter that is given takes its first value. *)
Definition fill (parameters : list (str * str)) (t : Token) : Token :=
  match t with
  | Text s => Text s
  | Placeholder name => match map_get name parameters with Some value => Text value | None => Placeholder name end
  end.

Lemma replace_parameter name value tokens : Forall TokenOk tokens -> "{"%char ∉ name -> "}"%char ∉ name ->
  replace ("{"%char :: name ++ ["}"%char]) value (template tokens) = template (fill [(name, value)] <$> tokens).
Proof.
  intros Ht Hn1 Hn2. unfold template. induction Ht as [|t tokens Ht Hts IH]; [done|]. rewrite !fmap_cons. cbn [concat].
  destruct t as [s|d]; cbn [token_text fill].
  - rewrite replace_plain by exact Ht. by rewrite IH.
  - rewrite map_get_cons. cbn [fst snd]. case_decide as Hd.
    + subst d. rewrite replace_match. cbn [token_text]. by rewrite IH.
    + cbn [token_text]. rewrite map_get_nil. cbn [token_text]. destruct Ht as [Hd1 Hd2].
      assert (Hrest : forall r, replace ("{"%char :: name ++ ["}"%char]) value (("{"%char :: d ++ ["}"%char]) ++ r)
        = ("{"%char :: d ++ ["}"%char]) ++ replace ("{"%char :: name ++ ["}"%char]) value r).
      { intros r. unfold replace at 1. cbn [app replace_from].
        destruct (starts_with _ _) eqn:Es.
        - exfalso. apply starts_with_spec in Es as [u [= Hu]]. rewrite <- !app_assoc in Hu. cbn in Hu.
          apply Hd. assert (Hsp : forall a b u v : str, "}"%char ∉ a -> "}"%char ∉ b -> a ++ "}"%char :: u = b ++ "}"%char :: v -> a = b).
          { clear. intros a. induction a as [|x a IH]; intros [|y b] u v Ha Hb [=]; subst; try done; try set_solver.
            f_equal. eapply IH; [set_solver | set_solver | done]. }
          symmetry. by eapply Hsp.
        - f_equal. change (replace_from 0 ("{"%char :: name ++ ["}"%char]) value ((d ++ ["}"%char]) ++ r))
            with (replace ("{"%char :: name ++ ["}"%char]) value ((d ++ ["}"%char]) ++ r)).
          apply replace_plain. set_solver. }
      rewrite Hrest. by rewrite IH.
Qed.

Definition ParameterOk (p : str * str) : Prop := "{"%char ∉ p.1 /\ "}"%char ∉ p.1 /\ "{"%char ∉ p.2.

Lemma expand_template tokens parameters : Forall TokenOk tokens -> Forall ParameterOk parameters ->
  expand_path (template tokens) parameters = template (fill parameters <$> tokens).
Proof.
  intros Ht Hp. revert tokens Ht. induction Hp as [|[name value] parameters [Hn1 [Hn2 Hv]] Hps IH]; intros tokens Ht; unfold expand_path; cbn [foldl fst snd].
  - f_equal. symmetry. rewrite <- (list_fmap_id tokens) at 2. apply list_fmap_ext. by intros i [s|n] _.
  - rewrite replace_parameter by done. fold (expand_path (template (fill [(name, value)] <$> tokens)) parameters). rewrite IH.
    + rewrite <- list_fmap_compose. f_equal. apply list_fmap_ext. intros i [s|n] _; [done|]. cbn [compose fill].
      rewrite !map_get_cons. cbn [fst snd]. by case_decide.
    + apply Forall_fmap. eapply Forall_impl; [exact Ht|]. intros [s|n] Htok; [done|]. cbn [compose fill]. rewrite map_get_cons. by case_decide.
Qed.

(** ** The harness and the table *)

Lemma find_route {A} (f : A -> str) (l : list A) id : (find (fun a => bool_decide (f a = id)) l = None <-> id ∉ f <$> l)
  /\ forall a, NoDup (f <$> l) -> a ∈ l -> f a = id -> find (fun a => bool_decide (f a = id)) l = Some a.
Proof.
  induction l as [|b l [IHn IHs]]; cbn [find fmap list_fmap].
  - split; [split; [intros _; apply not_elem_of_nil | done]|]. by intros a _ ?%not_elem_of_nil.
  - rewrite not_elem_of_cons. split.
    + case_bool_decide as Hb; [split; [done | intros [Hne _]; congruence]|]. rewrite IHn. split; [intros ?; split; [congruence | done] | tauto].
    + intros a [Hnb Hnd]%NoDup_cons [->|Ha]%elem_of_cons Hid; [by rewrite bool_decide_true|].
      rewrite bool_decide_false; [by apply IHs|]. intros Hb. apply Hnb. rewrite Hb, <- Hid. by apply list_elem_of_fmap_2.
Qed.

(** The harness runs the handler that the table, and so the ingress, runs for this route, on the declared method and on the
    declared template with its parameters filled in; without such a route nothing runs. *)
Lemma harness_reaches_handler {N X} (table : list (EndpointRoute (N := N) * Handler (X := X))) t x :
  NoDup (route_id <$> table.*1) ->
  (forall route handler, (route, handler) ∈ table -> route_id route = test_route_id t ->
     send table.*1 (dispatch table) t x
     = (let '(x, result) := handler false (test_request route t) x in (x, map_err from_invocation_error result))
     /\ hr_method (test_request route t) = method route /\ hr_route_id (test_request route t) = route_id route
     /\ forall tokens, path route = template tokens -> Forall TokenOk tokens -> Forall ParameterOk (test_path_parameters t) ->
          hr_path (test_request route t) = template (fill (test_path_parameters t) <$> tokens))
  /\ (test_route_id t ∉ route_id <$> table.*1 -> send table.*1 (dispatch table) t x = (x, Err (UnknownRoute (test_route_id t)))).
Proof.
  intros Hnd. split.
  - intros route handler Hin Hid. split_and!; [|done..|].
    + unfold send. rewrite (proj2 (find_route route_id table.*1 (test_route_id t)) route Hnd); [|by apply (list_elem_of_fmap_2 fst _ (route, handler)) | done].
      rewrite (dispatch_found table route handler) by done.
      destruct (handler false (test_request route t) x) as [x' [response|[error|failure]]]; done.
    + intros tokens Hp Ht Hps. cbn [hr_path test_request]. rewrite Hp. by apply expand_template.
  - intros Hno. unfold send. by rewrite (proj2 (proj1 (find_route route_id table.*1 (test_route_id t))) Hno).
Qed.

(** A catch-all parameter is declared with a star, which the harness does not look for: its template stays as it is. *)
Example catch_all_is_not_expanded : expand_path (lit "/assets/{*path}") [(lit "path", lit "css/site.css")] = lit "/assets/{*path}".
Proof. reflexivity. Qed.

Example expands_parameter : expand_path (lit "/orders/{order_id}/items/{item}") [(lit "order_id", lit "7"); (lit "item", lit "b")]
  = lit "/orders/7/items/b".
Proof. reflexivity. Qed.
End EndpointTest.
