(* ===== verification/EndToEnd.v ===== *)
(** * From a socket to a handler and back

    The composition of the parts: an authored table, bound as a provider, resolved into routes and served over a socket. The
    property follows one request through [IngressService::call], the normalization, the router, the generated client and the
    handler, and its answer back to the transport. *)
From S2P Require Import Prelude RustStd HttpCrate RefHttp Kernel Config SessionCookie Request Response Middleware Routing Dispatch.
From S2P Require Import WebSocket ResponseStream Handshake Manifest Json Authoring Server.

Module EndToEnd.
Import SessionCookie Response Request Middleware Routing Dispatch Authoring Service.

Section served.
Context `{HttpCrate} `{Matchit} `{Digests} {X : Type}.

(** What the handler gets is the request of the client: nothing of it is lost on the way through the middleware's view. *)
Record SameRequest (r r' : InboundRequest) : Prop := {
  same_body : Request.body r' = Request.body r;
  same_credential : Request.credential r' = Request.credential r;
  same_method : Request.method r' = Request.method r;
  same_path : Request.path r' = Request.path r;
  same_query : Request.query r' = Request.query r;
  same_id : Request.inbound_request_id r' = Request.inbound_request_id r;
  same_fields : forall s, values_named s (Request.headers r') = values_named s (Request.headers r);
}.

(** An answer without a body. *)
Definition bodiless (m : Method) (status : Z) : Prop :=
  m = HEAD \/ (100 <= status <= 199)%Z \/ status = NO_CONTENT \/ status = NOT_MODIFIED.
#[global] Instance bodiless_dec m status : Decision (bodiless m status).
Proof. unfold bodiless. apply _. Defined.

(** The answer on the wire to what the handler returned. *)
Definition Answers (m : Method) (request_id : HeaderValue) (outcome : Result (InvocationError HandleError) HandleResponse)
    (answer : TransportResponse) : Prop :=
  match outcome with
  | Ok response =>
      (forall es, ValidHead (handle_status response) (handle_headers response) es ->
         t_status answer = handle_status response
         /\ t_body answer = BufferedBody (if decide (bodiless m (handle_status response)) then [] else handle_body response)
         /\ forall n, hm_get_all n (t_headers answer)
              = if decide (n = NOSNIFF_HEADER) then [hv_from_static (lit "nosniff")] else
                if decide (n = REQUEST_ID_HEADER) then [request_id] else (filter (fun e => e.1 = n) es).*2)
      /\ ((forall es, ~ ValidHead (handle_status response) (handle_headers response) es) -> t_status answer = BAD_GATEWAY)
  | Err (Domain _) => t_status answer = BAD_GATEWAY
  | Err (Runtime (DeadlineExceeded _)) => t_status answer = GATEWAY_TIMEOUT
  | Err (Runtime _) => t_status answer = SERVICE_UNAVAILABLE
  end.

(** What reading the body of the call yields. *)
Definition BodyRead (self : IngressService (X := X)) (c : Call) (hs : HeaderMap) (bytes : str) : Prop :=
  match content_length hs with Some length => (length <= Config.max_request_body_bytes (config self))%Z | None => True end
  /\ (if c_end_of_stream c then bytes = [] else
      c_body_race c = BodyFinished
      /\ Body.collect_bounded_body (c_events c) (content_length hs) (Config.max_request_body_bytes (config self)) = Ok bytes).

(** What the request asks of its connection: nothing, or an upgrade with an acceptable handshake. *)
Definition Asks (t : RouteTable X) (parts : Parts) (bytes : str) (handshake : option Handshake.Handshake) : Prop :=
  match handshake with
  | None => hm_contains_key UPGRADE (part_headers parts) = false
  | Some h => exists policy, websocket_policy t = Some policy /\ part_method parts = GET /\ part_version parts = HTTP_11 /\ bytes = []
      /\ Handshake.parse (part_headers parts) (Config.allowed_origins policy) = Ok h
  end.

(** The head the service works on: with the fields of the secrets marked and the call's own identifier. *)
Definition call_parts (c : Call) (hs : HeaderMap) : Parts :=
  mkParts (part_method (c_parts c)) (part_uri (c_parts c)) (part_version (c_parts c)) hs.

(** A call the service admits at once: its head is within the limit, permits are free, and what it asks of the connection is
    acceptable. *)
Record Accepted (self : IngressService (X := X)) (c : Call) (st : Shared) (request_id : HeaderValue) (hs : HeaderMap)
    (ids' : RequestIdSequence) (bytes : str) (handshake : option Handshake.Handshake) (request : InboundRequest) : Prop := {
  acc_id : replace_request_id (mark_sensitive_headers (part_headers (c_parts c)) (session_policy self)) (ids st)
           = Returned (request_id, hs, ids');
  acc_head : (canonical_request_head_len (mkRequest (part_method (c_parts c)) (part_uri (c_parts c)) (part_version (c_parts c))
                (mark_sensitive_headers (part_headers (c_parts c)) (session_policy self)) [])
              <= Config.max_request_head_bytes (config self))%Z;
  acc_local : match local st with Some available => (0 < available)%Z /\ c_cancelled_local c = false | None => True end;
  acc_global : (0 < global st)%Z /\ c_cancelled_global c = false;
  acc_method : part_method (c_parts c) <> CONNECT;
  acc_asks : Asks (routes self) (call_parts c hs) bytes handshake;
  acc_path : uri_path (part_uri (c_parts c)) <> [];
  acc_body : BodyRead self c hs bytes;
  acc_request : inbound_request (part_method (c_parts c)) (part_uri (c_parts c)) hs bytes (c_cancellation c) (c_disconnected c)
                  (session_policy self) = Returned (Ok request);
}.

Context `{!HttpLaws} `{!MatchitLaws}.

(** ** Lemmas *)

(** A layer that lets everything through does so around the slot. *)
Lemma lift_transparent (layers : list (WebIngressMiddleware X)) : Forall Transparent layers -> Forall Transparent (lift_layer <$> layers).
Proof.
  intros HF. apply Forall_fmap. eapply Forall_impl; [exact HF|]. intros layer [Hb Ha].
  split; cbn; unfold hide_slot; [intros request [x slot] | intros request response [x slot]]; cbn; by rewrite ?Hb, ?Ha.
Qed.

(** What the handler returned, as the ingress's response. *)
Definition ingress_answer (outcome : Result (InvocationError HandleError) HandleResponse) : IngressResponse :=
  match outcome with
  | Ok response => from_endpoint response
  | Err (Domain _) => json BAD_GATEWAY (error_json "endpoint_rejected")
  | Err (Runtime (DeadlineExceeded _)) => json GATEWAY_TIMEOUT (error_json "endpoint_timeout")
  | Err (Runtime _) => unavailable
  end.

Lemma ingress_answer_plain outcome : is_websocket (Response.body (ingress_answer outcome)) = false.
Proof.
  destruct outcome as [[st fs b]|[e|f]]; cbn [ingress_answer]; [|done | by destruct f].
  unfold from_endpoint. cbn [handle_status handle_headers handle_body].
  destruct (endpoint_status st); [|reflexivity]. by destruct (endpoint_headers fs).
Qed.

(** A response without an upgrade, past the middleware's view of it. *)
Definition passed (r : IngressResponse) : IngressResponse :=
  let '(web, slot) := into_middleware_response r in
  let r' := from_middleware_response web in
  match slot with Some b => mkResponse (Response.status r') (Response.headers r') b | None => r' end.

Lemma passed_same r : Response.status (passed r) = Response.status r /\ Response.body (passed r) = Response.body r
  /\ forall n, hm_get_all n (Response.headers (passed r))
       = if decide (hn_as_str n ∈ owned_names) then [] else hm_get_all n (Response.headers r).
Proof.
  unfold passed, into_middleware_response. destruct r as [status hs []]; cbn; (split_and!; [done..|]); intros n;
    change (hm_remove_all _ _) with (Response.headers (from_middleware_response (mkWebResponse status hs [])));
    by rewrite from_middleware_headers.
Qed.

(** The body of an answer on the wire, and what becomes of a stream that may not be sent. *)
Definition wire_body (m : Method) (r : IngressResponse) : ResponseBody * list Effect :=
  if decide (bodiless m (Response.status r))
  then (BufferedBody [], match Response.body r with Streaming s => [StreamCancelled (stream_id s)] | _ => [] end)
  else (match Response.body r with
        | Streaming s => StreamedBody (ResponseStream.new_body s)
        | Buffered bytes => BufferedBody bytes
        | WebSocketBody _ => BufferedBody []
        end, []).

(** The fields of an answer on the wire. *)
Definition WireHeaders (hv : HeaderValue) (r : IngressResponse) (hs : HeaderMap) : Prop :=
  forall n, hm_get_all n hs = if decide (n = NOSNIFF_HEADER) then [hv_from_static (lit "nosniff")] else
                              if decide (n = REQUEST_ID_HEADER) then [hv] else
                              if decide (hn_as_str n ∈ owned_names) then [] else hm_get_all n (Response.headers r).

(** The way back from the router to the transport. *)
Lemma finished self upgrading m hv st (w : World X) r : is_websocket (Response.body r) = false ->
  exists hs', finish_request self upgrading m hv (passed r) st w
    = (st, emit (wire_body m r).2 w, Returned (mkTransport (Response.status r) hs' (wire_body m r).1, None))
    /\ WireHeaders hv r hs'.
Proof.
  intros Hw. destruct (passed_same r) as (Hs & Hb & Hh). unfold finish_request, upgrade_socket. rewrite Hb.
  assert (Hu : forall A (a b : A), match Response.body r with WebSocketBody _ => a | _ => b end = b) by (intros A a b; by destruct (Response.body r)).
  exists (with_transport_headers (Response.headers (passed r)) hv). split.
  - assert (Hf : finish_call (passed r) m hv w = (emit (wire_body m r).2 w,
      mkTransport (Response.status r) (with_transport_headers (Response.headers (passed r)) hv) (wire_body m r).1)).
    { unfold finish_call. rewrite normalize_body_exact, Hs, Hb, Hw. unfold wire_body.
      assert (Hd : forall A (a b : A), (if decide (m = HEAD \/ (100 <= Response.status r <= 199)%Z /\ false = false
          \/ Response.status r = NO_CONTENT \/ Response.status r = NOT_MODIFIED) then a else b)
        = (if decide (bodiless m (Response.status r)) then a else b)).
      { intros A a b. unfold bodiless. repeat case_decide; try done; exfalso; tauto. }
      rewrite Hd. destruct (decide (bodiless _ _)); unfold into_response; cbn [Response.body]; rewrite ?Hb, ?Hs;
        destruct (Response.body r); try done; cbn; by rewrite ?app_nil_r, ?Hs. }
    destruct (Response.body r); try done; by rewrite emit_nil, Hf.
  - intros n. rewrite transport_headers_get, Hh. done.
Qed.

(** The fields of a response within the contract, on the wire. *)
Lemma valid_wire_headers hv status fields es bytes hs' : ValidHead status fields es ->
  WireHeaders hv (mkResponse status (hm_append_all es hm_new) bytes) hs' ->
  forall n, hm_get_all n hs' = if decide (n = NOSNIFF_HEADER) then [hv_from_static (lit "nosniff")] else
                               if decide (n = REQUEST_ID_HEADER) then [hv] else (filter (fun e => e.1 = n) es).*2.
Proof.
  intros HV Hh n. rewrite Hh. cbn [Response.headers]. rewrite hm_append_all_get, hm_get_all_new. cbn [app].
  destruct (decide (n = NOSNIFF_HEADER)); [done|]. destruct (decide (n = REQUEST_ID_HEADER)); [done|].
  destruct (decide (hn_as_str n ∈ owned_names)) as [Hown|]; [|done].
  symmetry. destruct HV as [_ HF]. clear -HF Hown. induction HF as [|f e fs es (_ & Ho & _) _ IH]; [done|].
  rewrite filter_cons. case_decide; [by subst|]. done.
Qed.

(** What the finished answer is, for each thing the handler may return. *)
Lemma answered m hv outcome hs' : WireHeaders hv (ingress_answer outcome) hs' ->
  Answers m hv outcome (mkTransport (Response.status (ingress_answer outcome)) hs' (wire_body m (ingress_answer outcome)).1).
Proof.
  intros Hh. destruct outcome as [[status fields bytes]|[e|f]]; [|done | by destruct f]. cbn [ingress_answer] in *.
  cbn [Answers handle_status handle_headers handle_body].
  destruct (endpoint_response_exact status fields bytes (mkStream 0 [] [] [])) as [Hok Hbad]. split.
  - intros es HV. destruct (Hok es HV) as (He & _ & Hget). rewrite He in *. unfold wire_body.
    cbn [Response.status Response.headers Response.body t_status t_body t_headers] in *. split_and!; [done | by case_decide|].
    by eapply valid_wire_headers.
  - intros Hn. destruct (Hbad Hn) as [He _]. by rewrite He.
Qed.

(** The way of a response past the middleware's view of it. *)
Definition Passes (r r' : IngressResponse) : Prop :=
  let '(web, slot) := into_middleware_response r in finish_response slot (Returned (Ok web)) = Returned (r', []).

Lemma passes r : is_websocket (Response.body r) = false -> Passes r (passed r).
Proof. unfold Passes, passed, into_middleware_response. destruct r as [status hs []]; done. Qed.

Lemma parse_upgrade h origins hs : Handshake.parse h origins = Ok hs -> hm_contains_key UPGRADE h = true.
Proof.
  intros Hp. apply Handshake.parse_exact in Hp as ((v & (x & Hg & _) & _) & _).
  destruct (hm_contains_key UPGRADE h) eqn:E; [done|]. apply hm_contains_key_false in E. unfold UPGRADE in E. congruence.
Qed.

(** The shared path under middleware that lets everything through. *)
Lemma dispatch_buffered_answers parts bytes cancellation disconnected cookie (t : RouteTable X) layers cancel_first handshake request :
  Forall Transparent layers ->
  part_method parts <> CONNECT -> Asks t parts bytes handshake -> uri_path (part_uri parts) <> [] ->
  inbound_request (part_method parts) (part_uri parts) (part_headers parts) bytes cancellation disconnected cookie = Returned (Ok request) ->
  exists inbound, SameRequest request inbound /\ forall w w' result r r' es,
    Routing.dispatch t cancel_first inbound handshake w = (w', Returned result) -> dispatch_response result = (r, es) -> Passes r r' ->
    dispatch_buffered parts bytes cancellation disconnected cookie t layers cancel_first w = (emit es w', Returned r').
Proof.
  intros Hl Hm Hu Hp Hi. destruct (middleware_round_trip _ _ _ _ _ _ _ _ (part_version parts) Hi Hp)
    as (req & ctl & inbound & Hreq & Hres & Hb & Hc & Hmeth & Hpath & Hq & Hid & _ & Hv).
  exists inbound. split; [by constructor|]. intros w w' result r r' es Hd Hr Hbody.
  assert (Hrun : (let '(w2, answer) := run (lift_layer <$> layers) req (dispatch_closure t cancel_first handshake ctl) (open_world w) in
      match finish_response (ext w2).2 answer with
      | Panicked => (close_world w2, Panicked) | Waiting => (close_world w2, Waiting)
      | Returned (response, es) => (emit es (close_world w2), Returned response) end) = (emit es w', Returned r')).
  { rewrite run_transparent by by apply lift_transparent. unfold dispatch_closure. rewrite Hres.
    assert (Hw : close_world (open_world w) = w) by by destruct w. rewrite Hw, Hd, Hr. unfold Passes in Hbody.
    destruct (into_middleware_response r) as [web slot]. cbn [ext snd]. rewrite Hbody. cbn. rewrite emit_nil. by destruct w'. }
  unfold dispatch_buffered. rewrite bool_decide_false by done. cbn [orb]. destruct handshake as [h|].
  - destruct Hu as (policy & Hpol & Hget & Hver & -> & Hparse). rewrite (parse_upgrade _ _ _ Hparse), Hpol, !bool_decide_true by done.
    cbn [negb andb orb is_empty expect]. rewrite Hparse. cbn [result_map].
    rewrite Hi, Hreq. exact Hrun.
  - cbn in Hu. rewrite Hu. cbn [andb]. rewrite Hi, Hreq. exact Hrun.
Qed.

(** One admitted call, up to what the router makes of it. *)
Lemma call_dispatched self c st request_id hs ids' bytes handshake request :
  Forall Transparent (Service.middleware self) -> Accepted self c st request_id hs ids' bytes handshake request ->
  exists inbound, SameRequest request inbound /\ forall w x r r' seen, Passes r r' ->
    (forall v, ext v = ext w -> exists v' es result, Routing.dispatch (routes self) (c_cancel_first c) inbound handshake v = (v', Returned result)
       /\ dispatch_response result = (r, es) /\ ext v' = x /\ seen ⊆ trace v' ++ es) ->
    exists w0, call self c st w = finish_request self (hm_contains_key UPGRADE (part_headers (c_parts c))) (part_method (c_parts c)) request_id r'
        (mkShared ids' (local st) (global st)) w0
      /\ ext w0 = x /\ seen ⊆ trace w0.
Proof.
  intros Hmw []. destruct (dispatch_buffered_answers (call_parts c hs) bytes
    (c_cancellation c) (c_disconnected c) (session_policy self) (routes self) (Service.middleware self) (c_cancel_first c) handshake request Hmw acc_method0 acc_asks0 acc_path0 acc_request0)
    as (inbound & Hsame & Hdispatch).
  exists inbound. split; [done|]. intros w x r r' seen Hr Hrun.
  assert (Hds : forall v, ext v = ext w -> exists v',
    dispatch self c (call_parts c hs) v = (v', Returned r') /\ ext v' = x /\ seen ⊆ trace v').
  { intros v Hext. destruct (Hrun v Hext) as (v' & es & result & Hd & Hr' & Hx & Hseen). exists (emit es v'). split; [|done].
    unfold dispatch. cbn [part_headers call_parts]. destruct acc_body0 as [Hlen Hbody].
    destruct (match content_length hs with Some length => _ | None => false end) eqn:El.
    { destruct (content_length hs) as [length|]; [|done]. apply Z.ltb_lt in El. lia. }
    pose proof (Hdispatch v v' result r r' es Hd Hr' Hr) as Hdb.
    destruct (c_end_of_stream c); [subst bytes; exact Hdb|]. destruct Hbody as [-> Hb]. cbn. rewrite Hb. exact Hdb. }
  destruct acc_global0 as [Hg Hgc].
  assert (Hap : forall n waited, (0 < n)%Z -> acquire_request_permit n false waited = ((n - 1)%Z, Returned true)).
  { intros n waited Hn. unfold acquire_request_permit. by destruct (Z.ltb_spec 0 n); [|lia]. }
  unfold call. rewrite acc_id0. fold (call_parts c hs).
  destruct (Z.ltb_spec (Config.max_request_head_bytes (config self)) (canonical_request_head_len
    (mkRequest (part_method (c_parts c)) (part_uri (c_parts c)) (part_version (c_parts c))
       (mark_sensitive_headers (part_headers (c_parts c)) (session_policy self)) []))) as [|_]; [lia|].
  cbn [local global]. destruct (local st) as [available|] eqn:Elocal.
  - destruct acc_local0 as [Ha Hac]. rewrite Hac, Hgc, !Hap by done.
    destruct (Hds (emit [PermitAcquired] (emit [PermitAcquired] w)) eq_refl) as (v' & -> & Hx & Hseen).
    exists (emit [PermitReleased; PermitReleased] v'). split; [|split; [done | cbn; set_solver]].
    cbn [fmap option_fmap option_map local global]. by rewrite !Z.sub_add.
  - rewrite Hgc, !Hap by done. rewrite emit_nil.
    destruct (Hds (emit [PermitAcquired] w) eq_refl) as (v' & -> & Hx & Hseen).
    exists (emit [PermitReleased] v'). split; [|split; [done | cbn; set_solver]].
    cbn [fmap option_fmap option_map local global]. by rewrite !Z.sub_add.
Qed.

(** One admitted call, whatever the router makes of it short of an upgrade. *)
Lemma call_served self c st request_id hs ids' bytes handshake request :
  Forall Transparent (Service.middleware self) -> Accepted self c st request_id hs ids' bytes handshake request ->
  exists inbound, SameRequest request inbound /\ forall w x r seen, is_websocket (Response.body r) = false ->
    (forall v, ext v = ext w -> exists v' es result, Routing.dispatch (routes self) (c_cancel_first c) inbound handshake v = (v', Returned result)
       /\ dispatch_response result = (r, es) /\ ext v' = x /\ seen ⊆ trace v' ++ es) ->
    exists w0 w' hs', call self c st w = (mkShared ids' (local st) (global st), w',
        Returned (mkTransport (Response.status r) hs' (wire_body (part_method (c_parts c)) r).1, None))
      /\ w' = emit (wire_body (part_method (c_parts c)) r).2 w0 /\ ext w0 = x /\ seen ⊆ trace w0 /\ WireHeaders request_id r hs'.
Proof.
  intros Hmw HA. destruct (call_dispatched _ _ _ _ _ _ _ _ _ Hmw HA) as (inbound & Hsame & Hcall).
  exists inbound. split; [done|]. intros w x r seen Hr Hrun.
  destruct (Hcall w x r (passed r) seen (passes r Hr) Hrun) as (w0 & -> & Hx & Hseen).
  destruct (finished self (hm_contains_key UPGRADE (part_headers (c_parts c))) (part_method (c_parts c)) request_id
    (mkShared ids' (local st) (global st)) w0 r Hr) as (hs' & Hf & Hget).
  exists w0. do 2 eexists. split; [exact Hf | split_and!; done].
Qed.

Section authored.
Context {N : Type} `{Json.Serde N} (from_str : str -> option (list (str * Json.Value N))).

(** C3: What a handler of an authored endpoint returns is what the client gets. For a table that compiles, bound as a provider and
    resolved into the routes of a service whose global middleware, if there is any, lets requests and responses through unchanged,
    an admitted call whose method and path match a route runs the handler of that route, once and no other, on the request of the
    client, and the client gets its answer: the status, the body unless the method or the status forbids one, and its fields with
    all their values, plus [nosniff] and the call's own request identifier; an answer outside the contract, a domain error or a
    runtime failure becomes a 502, a 504 or a 503. The permits are back and the identifiers have moved by one. *)
Theorem served_by_handler ps ss wss policy ctx (w0 w1 : World X) self c st request_id hs ids' bytes request
    table i router id params x1 (w : World X) :
  validate_endpoint_routes table.*1 = Ok tt ->
  resolve ps ss wss policy ctx w0 = (w1, Ok (routes self)) -> providers (routes self) !! i = Some (endpoint_client from_str table) ->
  Forall Transparent (Service.middleware self) -> Accepted self c st request_id hs ids' bytes None request ->
  methods (routes self) !! Request.method request = Some router ->
  router_at router (Request.path request) = Some (mkTarget id (BufferedProvider i), params) ->
  invocation_context (routes self) (ext w) = (x1, Ok tt) ->
  exists route handler inbound, (route, handler) ∈ table /\ route_id route = id /\ method route = m_as_str (Request.method request)
    /\ SameRequest request inbound
    /\ let '(x, outcome) := handler (c_cancel_first c) (handle_request inbound params id) x1 in
       exists w' answer, call self c st w = (mkShared ids' (local st) (global st), w', Returned (answer, None))
         /\ ext w' = x /\ Answers (part_method (c_parts c)) request_id outcome answer.
Proof.
  intros Hv Hr Hi Hmw HA Hm Hat Hctx. destruct (call_served self c st request_id hs ids' bytes None request Hmw HA) as (inbound & Hsame & Hcall).
  assert (Hmi : methods (routes self) !! Request.method inbound = Some router) by by rewrite (same_method _ _ Hsame).
  assert (Hati : router_at router (Request.path inbound) = Some (mkTarget id (BufferedProvider i), params)) by by rewrite (same_path _ _ Hsame).
  destruct (ingress_reaches_handler from_str ps ss wss policy ctx w0 w1 (routes self) table i inbound router id params Hv Hr Hi Hmi Hati)
    as (route & handler & Hin & Hid & Hmeth & Hinvoke).
  exists route, handler, inbound. split; [done|]. split; [done|]. split; [by rewrite Hmeth, (same_method _ _ Hsame)|]. split; [done|].
  destruct (handler (c_cancel_first c) (handle_request inbound params id) x1) as [x outcome] eqn:Eh.
  destruct (Hcall w x (ingress_answer outcome) [] (ingress_answer_plain outcome)) as (v & w' & hs' & Hc & -> & Hx & _ & Hh).
  { intros v Hext. unfold Routing.dispatch. rewrite Hmi, Hati. cbn [target_route_id target_provider provider_index].
    unfold lift at 1. rewrite Hext, Hctx. cbn [Routing.invoke]. rewrite Hinvoke. unfold lift.
    assert (Hx : ext (if c_cancel_first c then emit [InvocationCancelled] (set_ext x1 v) else set_ext x1 v) = x1) by by destruct (c_cancel_first c).
    rewrite Hx, Eh. destruct outcome as [response|[e|failure]].
    - do 3 eexists. split; [done|]. split_and!; [done | done | apply list_subseteq_nil].
    - do 3 eexists. split; [done|]. split_and!; [done | done | apply list_subseteq_nil].
    - unfold runtime_error, runtime_dispatch_error. do 3 eexists. split; [done|].
      split_and!; [by destruct failure | by destruct (c_cancel_first c) | apply list_subseteq_nil]. }
  eexists _, _. split; [exact Hc|]. split; [exact Hx | by apply answered].
Qed.
End authored.

(** ** Streaming endpoints *)

Definition cancels (id : Z) (w : World X) : Prop := StreamCancelled id ∈ trace w.

(** The answer to a well-formed head whose stream goes on with [rest]: its status and fields, and its chunks as the body, or
    no body and no stream where there may be none; anything else the head may say ends the stream and is a 502. *)
Definition HeadAnswers (m : Method) (request_id : HeaderValue) (id : Z) (head : ResponseStream.StreamFrame)
    (rest : list (Result RuntimeFailure (StreamEvent ResponseStream.StreamFrame))) (answer : TransportResponse) (w : World X) : Prop :=
  match ResponseStream.status head, ResponseStream.headers head, ResponseStream.body head with
  | Some status, Some fields, None =>
      (forall es, ValidHead status fields es ->
         t_status answer = status
         /\ (forall n, hm_get_all n (t_headers answer)
              = if decide (n = NOSNIFF_HEADER) then [hv_from_static (lit "nosniff")] else
                if decide (n = REQUEST_ID_HEADER) then [request_id] else (filter (fun e => e.1 = n) es).*2)
         /\ if decide (bodiless m status) then t_body answer = BufferedBody [] /\ cancels id w else
            exists body, t_body answer = StreamedBody body /\ forall fuel, length rest < fuel ->
              let '(_, _, chunks, ending) := ResponseStream.poll_all fuel body in ResponseStream.body_spec rest = (chunks, ending))
      /\ ((forall es, ~ ValidHead status fields es) -> t_status answer = BAD_GATEWAY /\ cancels id w)
  | _, _, _ => t_status answer = BAD_GATEWAY /\ cancels id w
  end.

Definition failure_status (failure : RuntimeFailure) : Z :=
  match failure with DeadlineExceeded _ => GATEWAY_TIMEOUT | _ => SERVICE_UNAVAILABLE end.

(** The answer to what opening the stream gave, once the head can be read. *)
Definition StreamAnswers (m : Method) (request_id : HeaderValue)
    (outcome : Result (InvocationError unit) (NativeStream ResponseStream.StreamFrame)) (answer : TransportResponse) (w : World X) : Prop :=
  match outcome with
  | Err (Domain _) => t_status answer = BAD_GATEWAY
  | Err (Runtime failure) => t_status answer = failure_status failure
  | Ok stream =>
      match read_head (script stream) with
      | None => False
      | Some (Err failure, _) => t_status answer = failure_status failure
      | Some (Ok None, _) => t_status answer = BAD_GATEWAY /\ cancels (stream_id stream) w
      | Some (Ok (Some head), rest) => HeadAnswers m request_id (stream_id stream) head rest answer w
      end
  end.

Definition failure_response (failure : RuntimeFailure) : IngressResponse :=
  match failure with DeadlineExceeded _ => json GATEWAY_TIMEOUT (error_json "endpoint_timeout") | _ => unavailable end.

(** The ingress's response to what opening the stream gave, and the stream it ends. *)
Definition stream_answer (outcome : Result (InvocationError unit) (NativeStream ResponseStream.StreamFrame)) : IngressResponse * list Effect :=
  let rejected := json BAD_GATEWAY (error_json "endpoint_rejected") in
  match outcome with
  | Err (Domain _) => (rejected, [])
  | Err (Runtime failure) => (failure_response failure, [])
  | Ok stream =>
      match read_head (script stream) with
      | None => (unavailable, [])
      | Some (Err failure, _) => (failure_response failure, [])
      | Some (Ok None, _) => (rejected, [StreamCancelled (stream_id stream)])
      | Some (Ok (Some head), rest) =>
          match ResponseStream.status head, ResponseStream.headers head, ResponseStream.body head with
          | Some status, Some fields, None =>
              from_stream_endpoint (mkStreamingResponse fields status
                (mkStream (stream_id stream) rest (send_script stream) (stream_sent stream)))
          | _, _, _ => (rejected, [StreamCancelled (stream_id stream)])
          end
      end
  end.

Lemma stream_answer_plain outcome : is_websocket (Response.body (stream_answer outcome).1) = false.
Proof.
  unfold stream_answer, from_stream_endpoint. destruct outcome as [stream|[e|f]]; [|done | by destruct f].
  repeat case_match; subst; done || (repeat match goal with f : RuntimeFailure |- _ => destruct f end; done).
Qed.

Lemma stream_dispatched (t : RouteTable X) cancel_first inbound router i p id params x1 (w : World X) :
  methods t !! Request.method inbound = Some router -> router_at router (Request.path inbound) = Some (mkTarget id (StreamingProvider i), params) ->
  stream_providers t !! i = Some p -> invocation_context t (ext w) = (x1, Ok tt) ->
  let '(x, outcome) := handle_stream p cancel_first (handle_request inbound params id) x1 in
  (forall stream, outcome = Ok stream -> read_head (script stream) <> None) ->
  forall v, ext v = ext w -> exists v' es result, Routing.dispatch t cancel_first inbound None v = (v', Returned result)
    /\ dispatch_response result = ((stream_answer outcome).1, es) /\ ext v' = x /\ (stream_answer outcome).2 ⊆ trace v' ++ es.
Proof.
  intros Hm Hat Hp Hctx. destruct (handle_stream p cancel_first (handle_request inbound params id) x1) as [x outcome] eqn:Eh.
  intros Hhead v Hext. unfold Routing.dispatch. rewrite Hm, Hat. cbn [target_route_id target_provider provider_index].
  unfold lift at 1. rewrite Hext, Hctx. cbn [Routing.invoke]. unfold invoke_streaming. rewrite Hp. unfold lift.
  assert (Hx : ext (if cancel_first then emit [InvocationCancelled] (set_ext x1 v) else set_ext x1 v) = x1) by by destruct cancel_first.
  rewrite Hx, Eh. set (v1 := if cancel_first then _ else _). unfold stream_answer.
  destruct outcome as [stream|[e|f]].
  - destruct (read_head (script stream)) as [[[[head|]|f] rest]|] eqn:Er; [| | |by destruct (Hhead stream eq_refl)].
    + destruct (ResponseStream.status head), (ResponseStream.headers head), (ResponseStream.body head);
        do 3 eexists; (split; [reflexivity|]); (split; [first [reflexivity | apply surjective_pairing]|]); (split; [done|]); cbn; set_solver.
    + do 3 eexists. split; [reflexivity|]. split; [reflexivity|]. split; [done|]. cbn. set_solver.
    + unfold runtime_error, runtime_dispatch_error. do 3 eexists. split; [reflexivity|]. split; [by destruct f|]. split; [done|]. cbn. set_solver.
  - do 3 eexists. split; [reflexivity|]. split; [reflexivity|]. split; [done|]. cbn. set_solver.
  - unfold runtime_error, runtime_dispatch_error. do 3 eexists. split; [reflexivity|]. split; [by destruct f|]. split; [done|]. cbn. set_solver.
Qed.

Lemma stream_answered m hv outcome hs' (w : World X) :
  (forall stream, outcome = Ok stream -> read_head (script stream) <> None) ->
  WireHeaders hv (stream_answer outcome).1 hs' -> (stream_answer outcome).2 ⊆ trace w ->
  StreamAnswers m hv outcome (mkTransport (Response.status (stream_answer outcome).1) hs' (wire_body m (stream_answer outcome).1).1)
    (emit (wire_body m (stream_answer outcome).1).2 w).
Proof.
  intros Hhead Hh Ht. unfold StreamAnswers, stream_answer in *. destruct outcome as [stream|[e|f]]; [|done | by destruct f].
  destruct (read_head (script stream)) as [[[[head|]|f] rest]|] eqn:Er; [| | by destruct f | by destruct (Hhead stream eq_refl)].
  2: { split; [done|]. unfold cancels. cbn in Ht |- *. set_solver. }
  unfold HeadAnswers. destruct (ResponseStream.status head) as [status|], (ResponseStream.headers head) as [fields|], (ResponseStream.body head);
    try (split; [done|]; unfold cancels; cbn in Ht |- *; set_solver).
  set (st := mkStream _ rest _ _) in *. destruct (endpoint_response_exact status fields [] st) as [Hok Hbad]. split.
  - intros es HV. destruct (Hok es HV) as (_ & He & _). rewrite He in *. cbn [fst snd Response.status t_status t_body t_headers] in *.
    split; [done|]. split; [by eapply valid_wire_headers|]. unfold wire_body. cbn [Response.status Response.body].
    destruct (decide (bodiless m status)); [split; [done|]; unfold cancels; cbn; set_solver|].
    eexists. split; [done|]. intros fuel Hf. pose proof (ResponseStream.poll_all_spec fuel (ResponseStream.new_body st)) as HP.
    destruct (ResponseStream.poll_all fuel (ResponseStream.new_body st)) as [[[b es'] chunks] ending]. apply HP; [repeat split | done].
  - intros Hn. destruct (Hbad Hn) as [_ He]. rewrite He in *. split; [done|]. unfold cancels. cbn in Ht |- *. set_solver.
Qed.

(** C4: What a streaming endpoint sends is what the client gets, from a service whose global middleware, if there is any, lets
    requests and responses through unchanged. An admitted call that the router sends to a streaming provider opens the stream on
    the request of the client. Once its head can be read the client gets the status and the fields of the head with all their
    values, plus [nosniff] and the call's own request identifier, and a body that, polled as often as there are events, delivers
    the chunks that follow the head, in order and complete, and ends as the stream ends; where a body is forbidden the stream is
    cancelled instead. A head outside the contract, or something else in its place, is a 502 and the stream is cancelled; a domain
    error or a runtime failure becomes a 502, a 504 or a 503. The permits are back and the identifiers have moved by one. *)
Theorem streamed_to_client self c st request_id hs ids' bytes request router i p id params x1 (w : World X) :
  Forall Transparent (Service.middleware self) -> Accepted self c st request_id hs ids' bytes None request ->
  methods (routes self) !! Request.method request = Some router ->
  router_at router (Request.path request) = Some (mkTarget id (StreamingProvider i), params) ->
  stream_providers (routes self) !! i = Some p -> invocation_context (routes self) (ext w) = (x1, Ok tt) ->
  exists inbound, SameRequest request inbound
    /\ let '(x, outcome) := handle_stream p (c_cancel_first c) (handle_request inbound params id) x1 in
       (forall stream, outcome = Ok stream -> read_head (script stream) <> None) ->
       exists w' answer, call self c st w = (mkShared ids' (local st) (global st), w', Returned (answer, None))
         /\ ext w' = x /\ StreamAnswers (part_method (c_parts c)) request_id outcome answer w'.
Proof.
  intros Hmw HA Hm Hat Hp Hctx. destruct (call_served self c st request_id hs ids' bytes None request Hmw HA) as (inbound & Hsame & Hcall).
  exists inbound. split; [done|]. rewrite <- (same_method _ _ Hsame) in Hm. rewrite <- (same_path _ _ Hsame) in Hat.
  pose proof (stream_dispatched (routes self) (c_cancel_first c) inbound router i p id params x1 w Hm Hat Hp Hctx) as Hd.
  destruct (handle_stream p (c_cancel_first c) (handle_request inbound params id) x1) as [x outcome]. intros Hhead.
  destruct (Hcall w x _ _ (stream_answer_plain outcome) (Hd Hhead)) as (w0 & w' & hs' & Hc & -> & Hx & Hseen & Hh).
  eexists _, _. split; [exact Hc|]. split; [exact Hx | by apply stream_answered].
Qed.
End served.
(** ** Witnesses *)

#[local] Existing Instance ref_http.
#[local] Existing Instance ref_http_laws.
#[local] Existing Instance ref_matchit.
#[local] Existing Instance ref_matchit_laws.
#[local] Existing Instance Dispatch.ref_digests.

(** A middleware layer without an effect. *)
Definition passing_layer : WebIngressMiddleware unit :=
  mkMiddleware (lit "passing") (fun request x => (x, Returned (Ok (request, Continue)))) default_after_response.

Definition orders_service : IngressService := mkService Config.default_config None orders_table [passing_layer].
Definition orders_call : Call :=
  mkCall (mkParts (m_const (lit "GET")) (RefUri None None (Some (lit "orders")) None) HTTP_11 hm_new)
    [] true BodyFinished false None false None false 1 2.
Definition orders_state : Shared := mkShared (Local 7) (Some 1%Z) 1.

(** The head the service makes of the call, and the request it is. *)
Definition orders_head : HeaderValue * HeaderMap * RequestIdSequence :=
  match replace_request_id (mark_sensitive_headers (part_headers (c_parts orders_call)) None) (Local 7) with
  | Returned head => head
  | _ => (hv_from_static [], hm_new, Local 0)
  end.
Definition orders_request : InboundRequest :=
  match inbound_request (part_method (c_parts orders_call)) (part_uri (c_parts orders_call)) orders_head.1.2 [] 1 2 None with
  | Returned (Ok request) => request
  | _ => post_orders
  end.

Lemma orders_accepted : Accepted orders_service orders_call orders_state orders_head.1.1 orders_head.1.2 orders_head.2 [] None orders_request.
Proof.
  split.
  - reflexivity.
  - apply Z.leb_le. vm_compute. reflexivity.
  - done.
  - done.
  - discriminate.
  - reflexivity.
  - discriminate.
  - split; [vm_compute; exact I | reflexivity].
  - reflexivity.
Qed.
Definition orders_match : option (RouteTarget * list (str * str)) :=
  let! router := methods orders_table !! Request.method orders_request else None in router_at router (Request.path orders_request).

Lemma served_by_handler_witness :
  exists w' t, call orders_service orders_call orders_state sample_world
               = (mkShared orders_head.2 (Some 1%Z) 1, w', Returned (t, None)) /\ t_status t = 200%Z /\ t_body t = BufferedBody (lit "list").
Proof.
  destruct (methods orders_table !! Request.method orders_request) as [router|] eqn:Em; [|vm_compute in Em; discriminate Em].
  destruct (served_by_handler no_json [bound_orders] [] [] None sample_context sample_world sample_world orders_service orders_call orders_state
    orders_head.1.1 orders_head.1.2 orders_head.2 [] orders_request sample_routes 0 router (lit "orders.list") [] tt sample_world)
    as (route & handler & inbound & Hin & Hid & _ & _ & Hrun).
  - reflexivity.
  - reflexivity.
  - reflexivity.
  - repeat constructor.
  - exact orders_accepted.
  - exact Em.
  - assert (Hm : orders_match = Some (mkTarget (lit "orders.list") (BufferedProvider 0), [])) by reflexivity.
    unfold orders_match in Hm. rewrite Em in Hm. exact Hm.
  - reflexivity.
  - apply elem_of_cons in Hin as [[= -> ->]|Hin]; [|apply list_elem_of_singleton in Hin as [= -> ->]; vm_compute in Hid; discriminate Hid].
    cbn in Hrun. destruct Hrun as (w' & t & Hc & _ & Ha & _). exists w', t. split; [exact Hc|].
    destruct (Ha []) as (Hs & Hb & _); [split; [lia | constructor]|]. split; [exact Hs|]. rewrite Hb. reflexivity.
Defined.
(** The same call to a streaming endpoint at the same path, which sends two chunks. *)
Definition orders_stream : NativeStream ResponseStream.StreamFrame :=
  mkStream 3 (Ok PeerHalfClosed :: Ok (Message (ResponseStream.mkStreamFrame ResponseStream.Head (Some 200%Z) (Some []) None))
              :: script ResponseStream.sample_stream) [] [].
Definition streamed_orders : StreamEndpointClient unit := mkStreamEndpointClient
  (fun x => (x, Ok [mkDescription (lit "GET") (lit "/orders") (lit "orders.stream")])) (fun _ _ x => (x, Ok orders_stream)).
Definition stream_table : RouteTable unit :=
  match (resolve [] [streamed_orders] [] None sample_context sample_world).2 with Ok t => t | Err _ => empty_table end.
Definition stream_service : IngressService := mkService Config.default_config None stream_table [passing_layer].
Definition stream_match : option (RouteTarget * list (str * str)) :=
  let! router := methods stream_table !! Request.method orders_request else None in router_at router (Request.path orders_request).

Lemma streamed_to_client_witness :
  exists w' t body, call stream_service orders_call orders_state sample_world
                    = (mkShared orders_head.2 (Some 1%Z) 1, w', Returned (t, None))
    /\ t_status t = 200%Z /\ t_body t = StreamedBody body
    /\ let '(_, _, chunks, ending) := ResponseStream.poll_all 5 body in (chunks, ending) = ([lit "ab"; lit "c"], ResponseStream.ReadyNone).
Proof.
  destruct (methods stream_table !! Request.method orders_request) as [router|] eqn:Em; [|vm_compute in Em; discriminate Em].
  destruct (streamed_to_client stream_service orders_call orders_state orders_head.1.1 orders_head.1.2 orders_head.2 [] orders_request
    router 0 streamed_orders (lit "orders.stream") [] tt sample_world) as (inbound & _ & Hrun).
  - repeat constructor.
  - destruct orders_accepted. by split.
  - exact Em.
  - assert (Hm : stream_match = Some (mkTarget (lit "orders.stream") (StreamingProvider 0), [])) by reflexivity.
    unfold stream_match in Hm. rewrite Em in Hm. exact Hm.
  - reflexivity.
  - reflexivity.
  - cbn [handle_stream streamed_orders] in Hrun. destruct Hrun as (w' & t & Hc & _ & Ha); [by intros ? [= <-]|].
    cbn in Ha. destruct Ha as [Ha _]. destruct (Ha []) as (Hs & _ & Hb); [split; [lia | constructor]|].
    destruct (decide (bodiless _ _)) as [Hd|_]; [exfalso; unfold bodiless in Hd; vm_compute in Hd; intuition discriminate|].
    destruct Hb as (body & Hb & Hpoll). exists w', t, body. split; [exact Hc|]. split; [exact Hs|]. split; [exact Hb|].
    specialize (Hpoll 5 ltac:(cbn; lia)). destruct (ResponseStream.poll_all 5 body) as [[[b es] chunks] ending].
    injection Hpoll as <- <-. reflexivity.
Defined.
End EndToEnd.
