(* ===== verification/Upgrade.v ===== *)
(** * From a socket to a WebSocket session

    The third kind of route, across the parts: the handshake of the request, the provider that opens the stream, the frame that
    accepts it, and the answer with which the socket is handed over ([IngressService::call], [dispatch_buffered],
    [invoke_websocket], [with_session] and [upgrade_socket]). *)
From S2P Require Import Prelude RustStd HttpCrate RefHttp Kernel Config SessionCookie Request Response Middleware Routing Dispatch.
From S2P Require Import WebSocket ResponseStream Handshake Manifest Json Authoring Server EndToEnd.

Module Upgrade.
Import SessionCookie Response Request Middleware Routing Dispatch Service EndToEnd.

Section upgrade.
Context `{HttpCrate} `{Matchit} `{Digests} {X : Type}.
Context `{!HttpLaws} `{!MatchitLaws} `{!DigestLaws}.

(** ** Lemmas *)

(** A session leaves the service only with the answer of its upgrade. *)
Lemma finish_session self upgrading m hv r st st' (w w' : World X) t s :
  finish_request self upgrading m hv r st w = (st', w', Returned (t, Some s)) ->
  exists u, Response.body r = WebSocketBody u /\ WebSocket.session u = s /\ Config.websocket (config self) <> None
    /\ t = mkTransport (Response.status r) (with_transport_headers (Response.headers r) hv) (BufferedBody []).
Proof.
  unfold finish_request, upgrade_socket, finish_call. intros Hf. destruct (Response.body r) as [b|b|u] eqn:Eb.
  - destruct (normalize_body r m) as [r2 es]. by destruct (into_response r2).
  - destruct (normalize_body r m) as [r2 es]. by destruct (into_response r2).
  - destruct (upgrading && _) eqn:Eu; [|by destruct (normalize_body unavailable m) as [r2 es], (into_response r2)].
    apply andb_true_iff in Eu as [_ Eu]. exists u. rewrite normalize_body_exact in Hf. cbn [Response.body Response.status Response.headers] in Hf.
    case_decide; cbn in Hf; injection Hf as _ _ <- <-; (split_and!; [done | done | by destruct (Config.websocket _) | done]).
Qed.

Lemma json_session self upgrading m hv status b st st' (w w' : World X) t s :
  finish_request self upgrading m hv (json status b) st w <> (st', w', Returned (t, Some s)).
Proof. intros Hf. by destruct (finish_session _ _ _ _ _ _ _ _ _ _ _ Hf) as (u & ? & _). Qed.

(** A session comes from the shared path, on the whole body of the request. *)
Lemma dispatch_session self c parts (w w' : World X) r u :
  dispatch self c parts w = (w', Returned r) -> Response.body r = WebSocketBody u ->
  exists bytes, Upgraded (routes self) parts bytes r u
    /\ (c_end_of_stream c = true
        \/ Body.collect_bounded_body (c_events c) (content_length (part_headers parts)) (Config.max_request_body_bytes (config self)) = Ok bytes).
Proof.
  unfold dispatch. intros Hd Hb. destruct (match content_length _ with Some _ => _ | None => _ end); [by injection Hd as _ <-|].
  destruct (c_end_of_stream c).
  - exists []. split; [by eapply dispatch_upgraded | by left].
  - destruct (c_body_race c); [|by injection Hd as _ <-..].
    destruct (Body.collect_bounded_body _ _ _) as [bytes|[]] eqn:Ec; try by injection Hd as _ <-.
    exists bytes. split; [by eapply dispatch_upgraded | by right].
Qed.

Lemma call_session self c st st' (w w' : World X) t s :
  call self c st w = (st', w', Returned (t, Some s)) ->
  exists request_id hs ids' r u w1 w2, replace_request_id (mark_sensitive_headers (part_headers (c_parts c)) (session_policy self)) (ids st)
      = Returned (request_id, hs, ids')
    /\ dispatch self c (call_parts c hs) w1 = (w2, Returned r) /\ Response.body r = WebSocketBody u /\ WebSocket.session u = s
    /\ Config.websocket (config self) <> None
    /\ t = mkTransport (Response.status r) (with_transport_headers (Response.headers r) request_id) (BufferedBody []).
Proof.
  unfold call. intros Hc. destruct (replace_request_id _ _) as [[[rid hs] ids']| |] eqn:Er; try done.
  destruct (_ <? _)%Z; [by apply json_session in Hc|]. cbn [local global Service.ids] in Hc.
  destruct (match local st with Some _ => _ | None => _ end) as [local' [[]| |]]; try done.
  destruct (acquire_request_permit (global st) _ _) as [g [[]| |]]; try done; [|by apply json_session in Hc].
  fold (call_parts c hs) in Hc. destruct (dispatch self c (call_parts c hs) _) as [w2 [r| |]] eqn:Ed; try done.
  apply finish_session in Hc as (u & Hb & Hs & Hcfg & Ht). do 7 eexists. split; [done|]. split; [exact Ed | done].
Qed.

Lemma replaced_head h seq request_id hs ids' : replace_request_id h seq = Returned (request_id, hs, ids') ->
  hs = hm_insert REQUEST_ID_HEADER request_id h.
Proof. unfold replace_request_id. destruct (next seq) as [v i], (request_id_header_value v); cbn; intros; by simplify_eq. Qed.

(** What the service adds to the head does not touch the handshake. *)
Lemma parse_marked h p hv origins :
  Handshake.parse (hm_insert REQUEST_ID_HEADER hv (mark_sensitive_headers h p)) origins = Handshake.parse h origins.
Proof.
  apply Handshake.parse_bytes. intros n Hn. rewrite hm_insert_ne; [apply mark_sensitive_bytes|].
  unfold Handshake.control_fields in Hn. repeat (apply elem_of_cons in Hn as [->|Hn]; [unfold REQUEST_ID_HEADER; name_ne|]).
  by apply not_elem_of_nil in Hn.
Qed.

(** The answer to an upgrade, on the wire. *)
Definition Switching (h : Handshake.Handshake) (s : WebSocket.WebSocketSession) (answer : TransportResponse) : Prop :=
  t_status answer = SWITCHING_PROTOCOLS /\ t_body answer = BufferedBody []
  /\ SwitchHeaders (WebSocket.mkUpgrade s (Handshake.accept h)) (t_headers answer)
  /\ forall p, WebSocket.session_protocol s = Some p -> p ∈ Handshake.protocols h.

Lemma switch_transport u hs hv : SwitchHeaders u hs -> SwitchHeaders u (with_transport_headers hs hv).
Proof.
  unfold SwitchHeaders. assert (Hget : forall n, n <> NOSNIFF_HEADER -> n <> REQUEST_ID_HEADER ->
    hm_get_all n (with_transport_headers hs hv) = hm_get_all n hs).
  { intros n Hn Hr. by rewrite transport_headers_get, !decide_False. }
  unfold NOSNIFF_HEADER, REQUEST_ID_HEADER in Hget. by rewrite !Hget by name_ne.
Qed.

(** ** Connecting *)

(** The answer to what connecting to the endpoint gave, once its first event is there: a bare accept frame whose subprotocol, if
    any, was offered hands over the session with everything that follows the frame; anything else ends the stream. *)
Definition ConnectAnswers (h : Handshake.Handshake) (policy : Config.WebSocketConfig)
    (outcome : Result (InvocationError ConnectWebsocketError) (NativeStream WebSocket.Frame))
    (answer : TransportResponse) (session : option WebSocket.WebSocketSession) (w : World X) : Prop :=
  match outcome with
  | Err (Domain WsUnauthorized) => t_status answer = UNAUTHORIZED /\ session = None
  | Err (Domain WsRejected) => t_status answer = FORBIDDEN /\ session = None
  | Err (Domain WsUnsupportedProtocol) => t_status answer = BAD_REQUEST /\ session = None
  | Err (Domain WsUnknown) => t_status answer = BAD_GATEWAY /\ session = None
  | Err (Runtime failure) => t_status answer = failure_status failure /\ session = None
  | Ok stream =>
      forall event rest, script stream = event :: rest ->
        (forall p, event = Ok (Message (WebSocket.mkFrame WebSocket.Accept p None None None None)) ->
           (forall q, p = Some q -> q ∈ Handshake.protocols h) ->
           exists s, session = Some s /\ Switching h s answer
             /\ s = WebSocket.mkSession false (mkStream (stream_id stream) rest (send_script stream) (stream_sent stream)) p
                      (Config.max_message_bytes policy) (Config.max_session_bytes policy) 0 false false false false false false)
        /\ ((forall p, event = Ok (Message (WebSocket.mkFrame WebSocket.Accept p None None None None)) ->
              exists q, p = Some q /\ q ∉ Handshake.protocols h) ->
            t_status answer = BAD_GATEWAY /\ session = None /\ cancels (stream_id stream) w)
        /\ forall failure, event = Err failure -> (* not the 503 or 504 of a runtime failure *)
             t_status answer = BAD_GATEWAY /\ session = None /\ cancels (stream_id stream) w
  end.

(** The ingress's response to what connecting gave, and the stream it ends. *)
Definition connect_answer (h : Handshake.Handshake) (policy : Config.WebSocketConfig)
    (outcome : Result (InvocationError ConnectWebsocketError) (NativeStream WebSocket.Frame)) : IngressResponse * list Effect :=
  let rejected := json BAD_GATEWAY (error_json "endpoint_rejected") in
  match outcome with
  | Err (Domain WsUnauthorized) => (json UNAUTHORIZED (error_json "unauthorized"), [])
  | Err (Domain WsRejected) => (json FORBIDDEN (error_json "forbidden"), [])
  | Err (Domain WsUnsupportedProtocol) => (json BAD_REQUEST (error_json "invalid_websocket_handshake"), [])
  | Err (Domain WsUnknown) => (rejected, [])
  | Err (Runtime failure) => (failure_response failure, [])
  | Ok stream =>
      match WebSocket.accept stream (Handshake.protocols h) (Config.max_message_bytes policy) (Config.max_session_bytes policy) with
      | Some (Ok s, _) => (mkResponse SWITCHING_PROTOCOLS hm_new (WebSocketBody (WebSocket.mkUpgrade s (Handshake.accept h))), [])
      | Some (Err _, es) => (rejected, es)
      | None => (unavailable, [])
      end
  end.

Lemma accept_events (stream : NativeStream WebSocket.Frame) offered ml sl : script stream <> [] ->
  exists r es, WebSocket.accept stream offered ml sl = Some (r, es).
Proof.
  intros Hs. unfold WebSocket.accept, stream_receive. destruct (script stream) as [|event rest]; [done|]. cbn. repeat case_match; eauto.
Qed.

Lemma websocket_dispatched (t : RouteTable X) cancel_first inbound h policy router i p id params x1 (w : World X) :
  methods t !! Request.method inbound = Some router -> router_at router (Request.path inbound) = Some (mkTarget id (WebSocketProvider i), params) ->
  websocket_providers t !! i = Some p -> websocket_policy t = Some policy -> Request.body inbound = [] ->
  invocation_context t (ext w) = (x1, Ok tt) ->
  let '(x, outcome) := connect_websocket p cancel_first (connect_request inbound params id (Handshake.protocols h)) x1 in
  (forall stream, outcome = Ok stream -> script stream <> []) ->
  forall v, ext v = ext w -> exists v' es result, Routing.dispatch t cancel_first inbound (Some h) v = (v', Returned result)
    /\ dispatch_response result = ((connect_answer h policy outcome).1, es) /\ ext v' = x
    /\ (connect_answer h policy outcome).2 ⊆ trace v' ++ es.
Proof.
  intros Hm Hat Hp Hpol Hempty Hctx. destruct (connect_websocket p cancel_first _ x1) as [x outcome] eqn:Eh.
  intros Hhead v Hext. unfold Routing.dispatch. rewrite Hm, Hat. cbn [target_route_id target_provider provider_index].
  unfold lift at 1. rewrite Hext, Hctx. cbn [Routing.invoke]. unfold invoke_websocket. rewrite Hempty, Hp. cbn [is_empty negb]. unfold lift.
  assert (Hx : ext (if cancel_first then emit [InvocationCancelled] (set_ext x1 v) else set_ext x1 v) = x1) by by destruct cancel_first.
  rewrite Hx, Eh, Hpol. set (v1 := if cancel_first then _ else _). unfold connect_answer. destruct outcome as [stream|[[]|f]].
  - destruct (accept_events stream (Handshake.protocols h) (Config.max_message_bytes policy) (Config.max_session_bytes policy)
      (Hhead stream eq_refl)) as ([s|e] & es & ->); do 3 eexists; (split; [reflexivity|]); (split; [reflexivity|]); (split; [done|]); cbn; set_solver.
  - do 3 eexists. split; [reflexivity|]. split; [reflexivity|]. split; [done | cbn; set_solver].
  - do 3 eexists. split; [reflexivity|]. split; [reflexivity|]. split; [done | cbn; set_solver].
  - do 3 eexists. split; [reflexivity|]. split; [reflexivity|]. split; [done | cbn; set_solver].
  - do 3 eexists. split; [reflexivity|]. split; [reflexivity|]. split; [done | cbn; set_solver].
  - unfold runtime_error, runtime_dispatch_error. do 3 eexists. split; [reflexivity|]. split; [by destruct f|]. split; [done | cbn; set_solver].
Qed.

Lemma finish_upgrade self m hv r st (w : World X) u : Response.body r = WebSocketBody u -> Config.websocket (config self) <> None ->
  finish_request self true m hv r st w
  = (st, w, Returned (mkTransport (Response.status r) (with_transport_headers (Response.headers r) hv) (BufferedBody []), Some (WebSocket.session u))).
Proof.
  intros Hb Hc. unfold finish_request, upgrade_socket, finish_call. rewrite Hb. destruct (Config.websocket (config self)); [|done].
  cbn [andb]. rewrite normalize_body_exact. cbn [Response.body Response.status Response.headers]. case_decide; cbn; by rewrite !emit_nil.
Qed.

(** The answer to an upgrade past the middleware's view of it. *)
Lemma passes_upgrade h s : HandshakeOk (Some h) -> (forall p, WebSocket.session_protocol s = Some p -> p ∈ Handshake.protocols h) ->
  let u := WebSocket.mkUpgrade s (Handshake.accept h) in
  exists r', Passes (mkResponse SWITCHING_PROTOCOLS hm_new (WebSocketBody u)) r' /\ Response.status r' = SWITCHING_PROTOCOLS
    /\ Response.body r' = WebSocketBody u /\ SwitchHeaders u (Response.headers r').
Proof.
  intros Hh Hp u. destruct (with_session_upgrade h (from_middleware_response (mkWebResponse SWITCHING_PROTOCOLS hm_new [])) u Hh eq_refl Hp)
    as (r' & es & Hw & Hst & Hd).
  rewrite decide_True in Hd by done. destruct Hd as (-> & Hb & HH). exists r'. split; [|by rewrite Hst].
  unfold Passes, into_middleware_response. cbn [Response.body Response.status Response.headers finish_response]. exact Hw.
Qed.

Lemma connect_answered h policy outcome m hs' (w : World X) :
  (forall stream, outcome = Ok stream -> script stream <> []) ->
  is_websocket (Response.body (connect_answer h policy outcome).1) = false -> (connect_answer h policy outcome).2 ⊆ trace w ->
  ConnectAnswers h policy outcome (mkTransport (Response.status (connect_answer h policy outcome).1) hs'
    (wire_body m (connect_answer h policy outcome).1).1) None w.
Proof.
  intros Hs Hw Hseen. destruct outcome as [stream|[[]|f]]; try done; [|by destruct f]. intros event rest Es. cbn [connect_answer] in *.
  destruct (WebSocket.accept_exact stream (Handshake.protocols h) (Config.max_message_bytes policy) (Config.max_session_bytes policy) event rest Es)
    as [(p & -> & Hp & Ha)|[Hbad Ha]]; rewrite Ha in *; [done|]. split.
  - intros p Hev Hin. destruct (Hbad p Hev) as (q & -> & Hq). by destruct (Hq (Hin q eq_refl)).
  - assert (Hout : t_status (mkTransport (Response.status (json BAD_GATEWAY (error_json "endpoint_rejected"))) hs'
        (wire_body m (json BAD_GATEWAY (error_json "endpoint_rejected"))).1) = BAD_GATEWAY /\ @None WebSocket.WebSocketSession = None
      /\ cancels (stream_id stream) w) by (split; [done|]; split; [done|]; unfold cancels; cbn in Hseen; set_solver).
    split; intros; exact Hout.
Qed.

(** C6: No socket is handed over without a handshake. Whatever the middleware and the endpoints do, a call that yields a session
    was a bodiless [GET] over HTTP/1.1 whose fields are a proper opening handshake: the upgrade at version 13, the canonical key of
    sixteen bytes, an origin that is absent or configured, and at most sixteen distinct subprotocols. WebSockets are configured,
    the router found a WebSocket route, and its provider opened the stream on those subprotocols and accepted it within the limits
    of the policy. The client is answered 101, without a body, with the digest of its key and the subprotocol the session has,
    which is one it offered. *)
Theorem session_after_handshake self c st st' (w w' : World X) t s :
  Config.Valid (config self) -> call self c st w = (st', w', Returned (t, Some s)) ->
  part_method (c_parts c) = GET /\ part_version (c_parts c) = HTTP_11
  /\ (c_end_of_stream c = true \/ Body.data_of (c_events c) = [])
  /\ Config.websocket (config self) <> None
  /\ exists policy h, websocket_policy (routes self) = Some policy
     /\ Handshake.Accepts (part_headers (c_parts c)) (Config.allowed_origins policy) h
     /\ Opened (routes self) h policy s /\ Switching h s t.
Proof.
  intros Hv Hc. apply call_session in Hc as (rid & hs & ids' & r & u & w1 & w2 & Hr & Hd & Hb & <- & Hcfg & ->).
  destruct (dispatch_session _ _ _ _ _ _ _ Hd Hb) as (bytes & [policy h Hm Hver -> Hp Hh Hk Ho Hst HH] & Hbody).
  apply replaced_head in Hr as Hhs.
  split_and!; [done | done | | done|].
  - destruct Hbody as [?|Hbody]; [by left|right].
    assert (Hmax : (0 <= Config.max_request_body_bytes (config self) <= usize_max)%Z).
    { destruct Hv as [[] _ _]. unfold Config.MAX_TRANSFER_BYTES, usize_max in *. lia. }
    pose proof (Body.collect_bounded_body_collects (c_events c) (content_length hs) _ Hmax) as HC. cbn [call_parts part_headers] in Hbody.
    rewrite Hbody in HC. by inversion HC.
  - exists policy, h. split; [done|]. split; [|split; [done|]].
    + apply Handshake.parse_exact. cbn [call_parts part_headers] in Hh. by rewrite Hhs, parse_marked in Hh.
    + unfold Switching. cbn [t_status t_body t_headers]. split_and!; [done | done | | by eapply opened_protocol].
      apply switch_transport. rewrite <- Hk. by destruct u.
Qed.

(** C5: What connecting to a WebSocket endpoint gives is what the client gets, from a service whose global middleware, if there is
    any, lets requests and responses through unchanged, with WebSockets configured. An admitted call with an acceptable handshake that the router sends to a
    WebSocket provider connects to it, on the request of the client and the subprotocols it offered. Once the first event is there:
    a bare accept frame, with a subprotocol the client offered or none, hands the socket over with everything that follows the
    frame and an empty budget within the policy's limits, and the client gets the 101 of its handshake; any other event, a runtime
    failure or an exceeded deadline among them, is a 502 and the stream is cancelled. A refusal to connect becomes a 401, 403, 400
    or 502, a runtime failure of the connecting itself a 504 or a 503, and no socket is handed over. The permits are back and the
    identifiers have moved by one. *)
Theorem connected_to_client self c st request_id hs ids' bytes h policy request router i p id params x1 (w : World X) :
  Forall Transparent (Service.middleware self) -> Accepted self c st request_id hs ids' bytes (Some h) request ->
  Config.websocket (config self) <> None -> websocket_policy (routes self) = Some policy ->
  methods (routes self) !! Request.method request = Some router ->
  router_at router (Request.path request) = Some (mkTarget id (WebSocketProvider i), params) ->
  websocket_providers (routes self) !! i = Some p -> invocation_context (routes self) (ext w) = (x1, Ok tt) ->
  exists inbound, SameRequest request inbound
    /\ let '(x, outcome) := connect_websocket p (c_cancel_first c) (connect_request inbound params id (Handshake.protocols h)) x1 in
       (forall stream, outcome = Ok stream -> script stream <> []) ->
       exists w' answer session, call self c st w = (mkShared ids' (local st) (global st), w', Returned (answer, session))
         /\ ext w' = x /\ ConnectAnswers h policy outcome answer session w'.
Proof.
  intros Hmw HA Hcfg Hpol Hm Hat Hp Hctx. pose proof (acc_asks _ _ _ _ _ _ _ _ _ HA) as (policy' & Hpol' & _ & _ & Hbytes & Hparse).
  pose proof (acc_request _ _ _ _ _ _ _ _ _ HA) as Hreq. apply inbound_request_ok in Hreq as (owned & _ & _ & _ & _ & _ & Hbody).
  destruct (call_dispatched _ _ _ _ _ _ _ _ _ Hmw HA) as (inbound & Hsame & Hcall).
  exists inbound. split; [done|]. rewrite <- (same_method _ _ Hsame) in Hm. rewrite <- (same_path _ _ Hsame) in Hat.
  assert (Hempty : Request.body inbound = []) by (rewrite (same_body _ _ Hsame), Hbody; done).
  pose proof (websocket_dispatched (routes self) (c_cancel_first c) inbound h policy router i p id params x1 w Hm Hat Hp Hpol Hempty Hctx) as Hd.
  destruct (connect_websocket p (c_cancel_first c) _ x1) as [x outcome]. intros Hev. specialize (Hd Hev).
  destruct (is_websocket (Response.body (connect_answer h policy outcome).1)) eqn:Ews.
  - destruct outcome as [stream|[[]|[]]]; try done. destruct (script stream) as [|event rest] eqn:Es; [by destruct (Hev stream eq_refl)|].
    cbn [connect_answer] in *.
    destruct (WebSocket.accept_exact stream (Handshake.protocols h) (Config.max_message_bytes policy) (Config.max_session_bytes policy) event rest Es)
      as [(q & -> & Hq & Ha)|[_ Ha]]; rewrite Ha in *; [|done]. set (s := WebSocket.mkSession _ _ _ _ _ _ _ _ _ _ _ _) in *.
    destruct (passes_upgrade h s (parse_handshake_ok _ _ _ Hparse) Hq) as (r' & Hpass & Hst & Hb & HH).
    destruct (Hcall w x _ r' [] Hpass Hd) as (w0 & Hc & Hx & _).
    assert (Hup : hm_contains_key UPGRADE (part_headers (c_parts c)) = true).
    { pose proof (acc_id _ _ _ _ _ _ _ _ _ HA) as Hid. apply replaced_head in Hid as ->. cbn [call_parts part_headers] in Hparse.
      rewrite parse_marked in Hparse. by eapply parse_upgrade. }
    rewrite Hup, (finish_upgrade _ _ _ _ _ _ _ Hb Hcfg) in Hc. do 3 eexists. split; [exact Hc|]. split; [exact Hx|].
    intros event' rest' Es'. rewrite Es in Es'. injection Es' as <- <-. split.
    + intros q' [= <-] _. exists s. split; [done|]. split; [|done]. unfold Switching. cbn [t_status t_body t_headers].
      split_and!; [done | done | by apply switch_transport | exact Hq].
    + split; [|done]. intros Hbad. destruct (Hbad q eq_refl) as (q' & -> & Hn). by destruct (Hn (Hq q' eq_refl)).
  - destruct (Hcall w x _ _ _ (passes _ Ews) Hd) as (w0 & Hc & Hx & Hseen).
    destruct (finished self (hm_contains_key UPGRADE (part_headers (c_parts c))) (part_method (c_parts c)) request_id
      (mkShared ids' (local st) (global st)) w0 _ Ews) as (hs' & Hf & _).
    rewrite Hf in Hc. do 3 eexists. split; [exact Hc|]. split; [exact Hx|]. apply connect_answered; [done | done |]. cbn. set_solver.
Qed.

End upgrade.

(** ** Witnesses *)

#[local] Existing Instance ref_http.
#[local] Existing Instance ref_http_laws.
#[local] Existing Instance ref_matchit.
#[local] Existing Instance ref_matchit_laws.
#[local] Existing Instance Dispatch.ref_digests.
#[local] Existing Instance Dispatch.ref_digest_laws.

(** Next to a buffered endpoint, an endpoint at [/chat] that accepts the subprotocol [chat] and sends a text frame. *)
Definition chat : WebSocketEndpointClient unit := mkWebSocketEndpointClient
  (fun x => (x, Ok [(lit "/chat", lit "chat.connect")])) (fun _ _ x => (x, Ok WebSocket.sample_stream)).
Definition chat_table : RouteTable unit :=
  match (resolve [sample_provider] [] [chat] (Some Config.sample_websocket) sample_context sample_world).2 with Ok t => t | Err _ => empty_table end.
Definition chat_service : IngressService := mkService Config.sample_config None chat_table [passing_layer].
Definition chat_call : Call :=
  mkCall (mkParts GET (RefUri None None (Some (lit "chat")) None) HTTP_11
      (ref_headers [("upgrade", "WebSocket"); ("connection", "keep-alive, Upgrade"); ("sec-websocket-version", "13");
                    ("sec-websocket-key", "abcdefghijklmnop"); ("origin", "https://app.example");
                    ("sec-websocket-protocol", "soap, chat")]%string))
    [] true BodyFinished false None false None false 1 2.
Definition chat_state : Shared := mkShared (Local 7) (Some 1%Z) 1.

Definition chat_head : HeaderValue * HeaderMap * RequestIdSequence :=
  match replace_request_id (mark_sensitive_headers (part_headers (c_parts chat_call)) None) (Local 7) with
  | Returned head => head
  | _ => (hv_from_static [], hm_new, Local 0)
  end.
Definition chat_request : InboundRequest :=
  match inbound_request GET (part_uri (c_parts chat_call)) chat_head.1.2 [] 1 2 None with
  | Returned (Ok request) => request
  | _ => post_items
  end.
Definition chat_handshake : Handshake.Handshake :=
  match Handshake.parse (part_headers (c_parts chat_call)) [lit "https://app.example"] with
  | Ok h => h
  | Err _ => Handshake.mkHandshake [] []
  end.

Example chat_offers : Handshake.protocols chat_handshake = [lit "soap"; lit "chat"].
Proof. vm_compute. reflexivity. Qed.

Lemma chat_accepted : Accepted chat_service chat_call chat_state chat_head.1.1 chat_head.1.2 chat_head.2 [] (Some chat_handshake) chat_request.
Proof.
  split.
  - reflexivity.
  - apply Z.leb_le. vm_compute. reflexivity.
  - done.
  - done.
  - discriminate.
  - exists Config.sample_websocket. repeat split; vm_compute; reflexivity.
  - discriminate.
  - split; [vm_compute; exact I | reflexivity].
  - reflexivity.
Qed.
Definition chat_match : option (RouteTarget * list (str * str)) :=
  let! router := methods chat_table !! Request.method chat_request else None in router_at router (Request.path chat_request).

Lemma connected_to_client_witness :
  exists w' t s, call chat_service chat_call chat_state sample_world = (mkShared chat_head.2 (Some 1%Z) 1, w', Returned (t, Some s))
    /\ t_status t = SWITCHING_PROTOCOLS /\ WebSocket.session_protocol s = Some (lit "chat").
Proof.
  destruct (methods chat_table !! Request.method chat_request) as [router|] eqn:Em; [|vm_compute in Em; discriminate Em].
  destruct (connected_to_client chat_service chat_call chat_state chat_head.1.1 chat_head.1.2 chat_head.2 [] chat_handshake
    Config.sample_websocket chat_request router 0 chat (lit "chat.connect") [] tt sample_world) as (inbound & _ & Hrun).
  - repeat constructor.
  - exact chat_accepted.
  - vm_compute. discriminate.
  - vm_compute. reflexivity.
  - exact Em.
  - assert (Hm : chat_match = Some (mkTarget (lit "chat.connect") (WebSocketProvider 0), [])) by (vm_compute; reflexivity).
    unfold chat_match in Hm. rewrite Em in Hm. exact Hm.
  - reflexivity.
  - reflexivity.
  - cbn [connect_websocket chat] in Hrun. destruct Hrun as (w' & t & session & Hc & _ & Ha); [by intros ? [= <-]|].
    destruct (proj1 (Ha _ _ eq_refl) _ eq_refl) as (s & -> & (Hs & _) & ->).
    + intros q [= <-]. apply (bool_decide_unpack _). vm_compute. exact I.
    + do 3 eexists. split; [exact Hc|]. split; [exact Hs | reflexivity].
Defined.

(** An endpoint whose stream fails before it accepts: its runtime failure, an exceeded deadline, is a 502 and is reported to no one. *)
Definition failing_chat : WebSocketEndpointClient unit := mkWebSocketEndpointClient
  (fun x => (x, Ok [(lit "/chat", lit "chat.connect")])) (fun _ _ x => (x, Ok (mkStream 9 [Err (DeadlineExceeded 4)] [] []))).
Definition failing_table : RouteTable unit :=
  match (resolve [sample_provider] [] [failing_chat] (Some Config.sample_websocket) sample_context sample_world).2 with Ok t => t | Err _ => empty_table end.

Example first_failure_is_lost :
  (let '(w, r) := Routing.dispatch failing_table false chat_request (Some chat_handshake) sample_world in
    (trace w, match r with Returned (Err Rejected) => true | _ => false end)) = ([StreamCancelled 9], true).
Proof. vm_compute. reflexivity. Qed.

Lemma chat_policy : websocket_policy (routes chat_service) = Some Config.sample_websocket.
Proof. vm_compute. reflexivity. Qed.

(** What the call gives, evaluated. *)
Definition chat_answer : TransportResponse * option WebSocket.WebSocketSession :=
  match call chat_service chat_call chat_state sample_world with
  | (_, _, Returned answer) => answer
  | _ => (mkTransport 0 hm_new (BufferedBody []), None)
  end.

Lemma session_after_handshake_witness :
  exists h, Handshake.Accepts (part_headers (c_parts chat_call)) [lit "https://app.example"] h
    /\ t_status chat_answer.1 = SWITCHING_PROTOCOLS.
Proof.
  destruct (session_after_handshake chat_service chat_call chat_state
    (call chat_service chat_call chat_state sample_world).1.1 sample_world (call chat_service chat_call chat_state sample_world).1.2
    chat_answer.1 (default WebSocket.sample_session chat_answer.2)) as (_ & _ & _ & _ & policy & h & Hp & Ha & _ & Hs & _).
  - exact Config.built_valid_witness.
  - reflexivity.
  - rewrite chat_policy in Hp. injection Hp as <-. exists h. split; [exact Ha | exact Hs].
Defined.

End Upgrade.
