(* ===== verification/Connection.v ===== *)
(** * Connections ([serve] and the task of one connection in [lenso-web-ingress-plugin/src/server.rs])

    The accept loop with the connections it serves: the requests hyper hands to the service, the bodies it is still
    writing, the idle timer, the graceful shutdown, the WebSocket task that outlives the connection future, and panics. Over
    HTTP/1 the calls and bodies of a connection are polled by its own task; over HTTP/2 hyper spawns a task of its own for each
    stream on the [LocalExecutor], which outlives the connection's. Hyper, the sockets and the clock are the events; a call is
    one event, from the moment the service is polled to its answer. *)
From S2P Require Import Prelude RustStd HttpCrate RefHttp Kernel Config SessionCookie Request Response Middleware Routing Dispatch.
From S2P Require Import WebSocket WebSocketNative ResponseStream Handshake Manifest Json Authoring Server EndToEnd Upgrade.

Module Connection.
Import SessionCookie Response Request Middleware Routing Dispatch Service EndToEnd Upgrade.

(** Why the connection future was asked to shut down. *)
Inductive Reason := Shutdown | Idle.

Inductive Phase :=
| Driving                                        (* the [select!] over the connection future *)
| Closing (reason : Reason)                      (* [graceful_shutdown], under its grace timer *)
| Upgraded (session : WebSocket.WebSocketSession) (* [websocket.await] *)
| Ended
| Crashed (error : str).                         (* the task has panicked; the text of its [JoinError] *)

(** What [auto::Builder] finds the client to speak. *)
Inductive Protocol := Http1 | Http2.
#[global] Instance Protocol_eq_dec : EqDecision Protocol.
Proof. solve_decision. Defined.

(** The versions of the requests of a connection. *)
Definition speaks (p : Protocol) (version : Version) : bool :=
  match p, version with Http1, (HTTP_10 | HTTP_11) | Http2, HTTP_2 => true | _, _ => false end.

Record Connection := mkConnection {
  protocol : Protocol;
  phase : Phase;
  activity : Activity.ConnectionActivity;
  idle_deadline : Z; (* when the sleep of [wait_for_connection_idle] ends *)
  bodies : list ResponseStream.StreamingBody;
  socket_task : option WebSocket.WebSocketSession;
}.

Definition set_activity (a : Activity.ConnectionActivity) (c : Connection) : Connection :=
  mkConnection (protocol c) (phase c) a (idle_deadline c) (bodies c) (socket_task c).
Definition set_bodies (bs : list ResponseStream.StreamingBody) (c : Connection) : Connection :=
  mkConnection (protocol c) (phase c) (activity c) (idle_deadline c) bs (socket_task c).
Definition set_phase (p : Phase) (c : Connection) : Connection :=
  mkConnection (protocol c) p (activity c) (idle_deadline c) (bodies c) (socket_task c).
Definition set_deadline (d : Z) (c : Connection) : Connection :=
  mkConnection (protocol c) (phase c) (activity c) d (bodies c) (socket_task c).
Definition set_task (t : option WebSocket.WebSocketSession) (c : Connection) : Connection :=
  mkConnection (protocol c) (phase c) (activity c) (idle_deadline c) (bodies c) t.

(** The connection future is alive. *)
Definition driven (c : Connection) : bool := match phase c with Driving | Closing _ => true | _ => false end.
(** Something polls the calls and bodies of the connection: its future, or the tasks [LocalExecutor] has spawned. *)
Definition serving (c : Connection) : bool := driven c || bool_decide (protocol c = Http2).

Definition new_connection (p : Protocol) (now idle_timeout : Z) : Connection :=
  let a := Activity.new now in mkConnection p Driving a (Activity.deadline a now idle_timeout) [] None.

(** What has arrived for a body waits in its stream. *)
Definition deliver (event : Result RuntimeFailure (StreamEvent ResponseStream.StreamFrame)) (b : ResponseStream.StreamingBody) :
    ResponseStream.StreamingBody :=
  let s := ResponseStream.body_stream b in
  let st := ResponseStream.stream s in
  ResponseStream.mkBody (ResponseStream.set_stream (mkStream (stream_id st) (script st ++ [event]) (send_script st) (stream_sent st)) s)
    (ResponseStream.receive_pending b) (ResponseStream.body_done b).

(** Dropping the connection future: what is left of its bodies. Over HTTP/2 they belong to the spawned tasks. *)
Definition drop_future (c : Connection) : list ResponseStream.StreamingBody * list Effect :=
  match protocol c with
  | Http1 => ([], concat ((fun b => ResponseStream.drop_stream (ResponseStream.body_stream b)) <$> bodies c))
  | Http2 => (bodies c, [])
  end.

(** The block of the connection future ends, and the WebSocket task is taken. *)
Definition close (c : Connection) : Connection * list Effect :=
  let '(kept, es) := drop_future c in
  (mkConnection (protocol c) (match socket_task c with Some s => Upgraded s | None => Ended end) (activity c) (idle_deadline c) kept None,
   es).

(** The sessions of a connection: the one in its socket task, until the task is taken, and then the one that is pumped. *)
Definition sessions (c : Connection) : list WebSocket.WebSocketSession :=
  match phase c with
  | Driving | Closing _ => option_list (socket_task c)
  | Upgraded s => [s]
  | Ended | Crashed _ => []
  end.

(** The task unwinds: the connection future and the WebSocket task are dropped with all they hold. *)
Definition crash (error : str) (c : Connection) : Connection * list Effect :=
  let '(kept, es) := drop_future c in
  (mkConnection (protocol c) (Crashed error) (activity c) (idle_deadline c) kept None,
   es ++ concat (WebSocket.drop_session <$> sessions c)).

Definition ended (c : Connection) : bool := match phase c with Ended | Crashed _ => true | _ => false end.

(** [*self.socket_task.0.borrow_mut() = Some(..)]: a task that was there is dropped unpolled, with its session. *)
Definition replace_task (session : option WebSocket.WebSocketSession) (c : Connection) : Connection * list Effect :=
  match session with
  | Some s => (set_task (Some s) c, match socket_task c with Some old => WebSocket.drop_session old | None => [] end)
  | None => (c, [])
  end.

Section connection.
Context `{HttpCrate} `{Matchit} `{Digests} {X : Type}.

Inductive ConnectionEvent :=
| Started (now : Z)                              (* hyper calls the service *)
| Answered (now : Z) (c : Call)                  (* the call returns *)
| CallPanicked (now : Z) (c : Call) (error : str)
| Dropped (now : Z)                              (* hyper drops the call *)
| Arrived (i : nat) (event : Result RuntimeFailure (StreamEvent ResponseStream.StreamFrame))
| Polled (i : nat)
| Discarded (i : nat)                            (* hyper drops a body *)
| Completed                                      (* the connection future is ready *)
| ShutdownSignalled
| IdleWoke (now : Z)
| GraceElapsed
| SocketFinished (in_time : bool) (events : list WebSocketNative.PumpEvent) (stop : WebSocketNative.Stop)
| TaskPanicked (error : str).                    (* in something else that the task polls, an endpoint's stream say *)

Definition streamed (t : TransportResponse) : list ResponseStream.StreamingBody :=
  match t_body t with StreamedBody b => [b] | BufferedBody _ => [] end.

(** A call of the connection is in flight, and this can be its request. *)
Definition in_flight (c : Connection) : bool := serving c && (0 <? Activity.active_requests (activity c))%Z.
Definition callable (c : Connection) (request : Call) : bool :=
  in_flight c && speaks (protocol c) (part_version (c_parts request)).

(** One event of one connection; [None] when it cannot happen. *)
Definition connection_step (self : IngressService (X := X)) (e : ConnectionEvent) (c : Connection) (st : Shared) (w : World X) :
    option (Connection * Shared * World X) :=
  match e with
  | Started _ => if serving c then Some (set_activity (Activity.begin (activity c)) c, st, w) else None
  | Answered now request =>
      if negb (callable c request) then None else
      match call self request st w with
      | (st, w, Returned (t, session)) =>
          let '(c, es) := replace_task session c in
          Some (set_bodies (bodies c ++ streamed t) (set_activity (Activity.drop_request (activity c) now) c), st, emit es w)
      | _ => None
      end
  | CallPanicked now request error =>
      if negb (callable c request) then None else
      match call self request st w with
      | (st, w, Panicked) =>
          let c := set_activity (Activity.drop_request (activity c) now) c in
          match protocol c with
          | Http1 => let '(c, es) := crash error c in Some (c, st, emit es w)
          | Http2 => Some (c, st, w) (* the panic ends the task of the stream, whose handle nobody holds *)
          end
      | _ => None
      end
  | Dropped now =>
      if in_flight c then Some (set_activity (Activity.drop_request (activity c) now) c, st, w) else None
  | Arrived i event =>
      let! b := bodies c !! i else None in
      if serving c then Some (set_bodies (<[i := deliver event b]> (bodies c)) c, st, w) else None
  | Polled i =>
      let! b := bodies c !! i else None in
      let '(b, es, _) := ResponseStream.poll_frame b in
      if serving c then Some (set_bodies (<[i := b]> (bodies c)) c, st, emit es w) else None
  | Discarded i =>
      let! b := bodies c !! i else None in
      if serving c then Some (set_bodies (delete i (bodies c)) c, st, emit (ResponseStream.drop_stream (ResponseStream.body_stream b)) w)
      else None
  | Completed =>
      if driven c then let '(c, es) := close c in Some (c, st, emit es w) else None
  | ShutdownSignalled =>
      match phase c with Driving => Some (set_phase (Closing Shutdown) c, st, w) | _ => None end
  | IdleWoke now =>
      match phase c with
      | Driving =>
          let timeout := Config.connection_idle_timeout (config self) in
          if (now <? idle_deadline c)%Z then None
          else if Activity.idle (activity c) now timeout then Some (set_phase (Closing Idle) c, st, w)
          else Some (set_deadline (Activity.deadline (activity c) now timeout) c, st, w)
      | _ => None
      end
  | GraceElapsed =>
      match phase c with Closing _ => let '(c, es) := close c in Some (c, st, emit es w) | _ => None end
  | SocketFinished in_time events stop =>
      match phase c with
      | Upgraded s =>
          let! (_, _, _, es) := WebSocketNative.run s [] in_time events stop else None in
          Some (set_phase Ended c, st, emit es w)
      | _ => None
      end
  | TaskPanicked error =>
      if ended c then None else let '(c, es) := crash error c in Some (c, st, emit es w)
  end.

(** ** The accept loop with its connections *)

Record Serving := mkServing {
  admission : Admission.ServeState;
  connections : list Connection;
  shared : Shared;
  world : World X;
}.

Inductive ServerEvent :=
| OnLoop (now : Z) (p : Protocol) (e : Admission.ServeEvent) (* [p] is what a new client speaks *)
| OnConnection (i : nat) (e : ConnectionEvent).

Definition start (limit : Z) (st : Shared) (w : World X) : Serving :=
  mkServing (Admission.settle (Admission.mkServe limit 0 Admission.Serving)) [] st w.

(** The setup of [serve] over a listener of its own: every counter is new. *)
Definition listening (self : IngressService (X := X)) (w : World X) : Serving :=
  start (Config.max_connections (config self)) (mkShared (Local 0) None (Config.max_concurrent_requests (config self))) w.

(** What [source.accept()] answers, as the loop takes it; a connection of a replica comes with its permit. *)
Definition accept_event (accepted : Result str (option bool)) : Admission.ServeEvent :=
  match accepted with
  | Ok (Some true) => Admission.AcceptedWithPermit
  | Ok (Some false) => Admission.Accepted
  | Ok None => Admission.SourceClosed
  | Err error => Admission.SourceFailed error
  end.

(** [assert_server_result]: what [serve] returned is not discarded. *)
Definition assert_server_result (result : Result str unit) : Outcome unit :=
  match result with Ok _ => Returned tt | Err _ => Panicked end.

(** The end of a connection's task is an event of the loop; what spawned tasks do later is not. *)
Definition after_step (c c' : Connection) (a : Admission.ServeState) : Admission.ServeState :=
  if ended c then a else
  match phase c' with
  | Ended => Admission.settle (Admission.serve_step a Admission.ConnectionDone)
  | Crashed error => Admission.settle (Admission.serve_step a (Admission.ConnectionPanicked error))
  | _ => a
  end.

Definition signal_possible (e : ConnectionEvent) (a : Admission.ServeState) : bool :=
  match e, Admission.phase a with ShutdownSignalled, Admission.Serving => false | _, _ => true end.

(** Connections of a listener of its own come without a permit. *)
Definition loop_event (e : Admission.ServeEvent) : bool :=
  match e with
  | Admission.AppCancelled | Admission.Accepted | Admission.SourceClosed | Admission.SourceFailed _ => true
  | _ => false
  end.

Definition server_step (self : IngressService (X := X)) (e : ServerEvent) (s : Serving) : option Serving :=
  match e with
  | OnLoop now p e =>
      if negb (loop_event e) then None else
      let a := Admission.settle (Admission.serve_step (admission s) e) in
      let admitted := (Admission.live (admission s) <? Admission.live a)%Z in
      Some (mkServing a
              (connections s ++ if admitted then [new_connection p now (Config.connection_idle_timeout (config self))] else [])
              (shared s) (world s))
  | OnConnection i e =>
      let! c := connections s !! i else None in
      if negb (signal_possible e (admission s)) then None else
      let! (c', st, w) := connection_step self e c (shared s) (world s) else None in
      Some (mkServing (after_step c c' (admission s)) (<[i := c']> (connections s)) st w)
  end.

Fixpoint serve_run (self : IngressService (X := X)) (es : list ServerEvent) (s : Serving) : option Serving :=
  match es with
  | [] => Some s
  | e :: es => let! s := server_step self e s else None in serve_run self es s
  end.

(** ** Specification: whose the streams are *)

(** The streams a connection holds: those of the bodies it writes and that of its WebSocket session. *)
Definition body_id (b : ResponseStream.StreamingBody) : Z := stream_id (ResponseStream.stream (ResponseStream.body_stream b)).
Definition session_id (s : WebSocket.WebSocketSession) : Z := stream_id (WebSocket.stream s).

Definition held (c : Connection) : list Z :=
  (if serving c then body_id <$> bodies c else []) ++ (session_id <$> sessions c).

(** The connections whose task is running, and the WebSocket sessions they hold. *)
Definition running (cs : list Connection) : nat := length (filter (fun c => ended c = false) cs).
Definition open_sessions (cs : list Connection) : list WebSocket.WebSocketSession := concat (sessions <$> cs).

(** The streams an event puts into the hands of the connection. *)
Definition handed (self : IngressService (X := X)) (e : ConnectionEvent) (st : Shared) (w : World X) : list Z :=
  match e with
  | Answered _ request =>
      match call self request st w with
      | (_, _, Returned (t, session)) => (body_id <$> streamed t) ++ (session_id <$> option_list session)
      | _ => []
      end
  | _ => []
  end.

Definition server_handed (self : IngressService (X := X)) (e : ServerEvent) (s : Serving) : list Z :=
  match e with OnConnection _ e => handed self e (shared s) (world s) | OnLoop _ _ _ => [] end.

(** The states of the accept loop, with the streams handed out so far. *)
Inductive Serves (self : IngressService (X := X)) (limit : Z) (st : Shared) (w : World X) : list Z -> Serving -> Prop :=
| serves_start : Serves self limit st w [] (start limit st w)
| serves_event ids s e s' : Serves self limit st w ids s -> server_step self e s = Some s' ->
    Serves self limit st w (ids ++ server_handed self e s) s'.

(** The streams handed out in a run. *)
Fixpoint run_handed (self : IngressService (X := X)) (es : list ServerEvent) (s : Serving) : list Z :=
  match es with
  | [] => []
  | e :: es => server_handed self e s ++ match server_step self e s with Some s => run_handed self es s | None => [] end
  end.

(** A session the connection may pump: one that a provider of the table opened and accepted. *)
Definition Proper (self : IngressService (X := X)) (s : WebSocket.WebSocketSession) : Prop :=
  exists h policy, Opened (routes self) h policy s.

Context `{!HttpLaws} `{!MatchitLaws} `{!DigestLaws}.

(** ** Lemmas: the trace only grows *)

Definition Grows (w w' : World X) : Prop := trace w ⊆ trace w'.
#[global] Instance Grows_preorder : PreOrder Grows.
Proof. split; unfold Grows; [by intros w | intros u v w; apply transitivity]. Qed.

Lemma grows_emit es (w w' : World X) : Grows w w' -> Grows w (emit es w').
Proof. unfold Grows. cbn. set_solver. Qed.

Lemma grows_lift {A} (f : X -> X * A) (w : World X) : Grows w (lift f w).1.
Proof. unfold lift, Grows. destruct (f (ext w)). cbn. done. Qed.

Lemma grows_set_ext x (w : World X) : Grows w (set_ext x w).
Proof. unfold Grows. cbn. done. Qed.

(** Decides [Grows] along the cases of a definition. *)
Ltac grows := repeat (case_match || (progress simplify_eq) || apply grows_emit || apply grows_set_ext || reflexivity); cbn [fst] in *.

Lemma runtime_error_grows request id i failure (w : World X) : Grows w (runtime_error request id i failure w).1.
Proof. unfold runtime_error, runtime_dispatch_error, observe_failure. grows. Qed.

(** After an outside call: nothing more, an effect, or a reported failure. *)
Ltac settled := cbn [fst]; first [done | by apply grows_emit | etransitivity; [eassumption | apply runtime_error_grows]].
(** Performs the outside call of the goal. *)
Ltac outside :=
  match goal with |- context [lift ?f ?w] =>
    let Hl := fresh "Hl" in let w1 := fresh "w1" in
    pose proof (grows_lift f w) as Hl; destruct (lift f w) as [w1 [?|[?|?]]]; cbn [fst] in Hl
  end.

Lemma invoke_grows (t : RouteTable X) request params id c handshake provider w :
  Grows w (invoke t request params id c handshake provider w).1.
Proof.
  destruct provider as [i|i|i]; cbn [invoke].
  - unfold invoke_buffered. destruct (providers t !! i) as [p|]; [|done]. outside; settled.
  - unfold invoke_streaming. destruct (stream_providers t !! i) as [p|]; [|done]. outside; [|settled..].
    destruct (read_head _) as [[[[head|]|failure] rest]|]; [|settled..].
    destruct (ResponseStream.status head), (ResponseStream.headers head), (ResponseStream.body head); settled.
  - unfold invoke_websocket. destruct handshake as [h|]; [|done]. destruct (negb _); [done|].
    destruct (websocket_providers t !! i) as [p|]; [|done]. outside; [|by repeat case_match|settled].
    destruct (websocket_policy t); [|done]. destruct (WebSocket.accept _ _ _ _) as [[[?|?] ?]|]; settled.
Qed.

Lemma routing_grows (t : RouteTable X) c request handshake w : Grows w (Routing.dispatch t c request handshake w).1.
Proof.
  unfold Routing.dispatch. destruct (methods t !! _) as [router|]; [|done].
  destruct (router_at router _) as [[target params]|]; [|done].
  pose proof (grows_lift (invocation_context t) w) as Hl. destruct (lift (invocation_context t) w) as [w1 [u|f]]; cbn [fst] in Hl.
  - etransitivity; [|apply invoke_grows]. destruct c; [by apply grows_emit | done].
  - unfold runtime_dispatch_error, observe_failure. grows. done.
Qed.

Lemma closure_grows (t : RouteTable X) c hs ctl request (w0 : World X) w : trace w0 ⊆ trace w ->
  trace w0 ⊆ trace (dispatch_closure t c hs ctl request w).1.
Proof.
  intros Hw. unfold dispatch_closure. destruct (restore_inbound_request request ctl) as [[r|e]| |]; try done.
  2: { by destruct (into_middleware_response (request_rejection e)). }
  pose proof (routing_grows t c r hs (close_world w)) as Hg.
  destruct (Routing.dispatch t c r hs (close_world w)) as [w' [result| |]]; cbn [fst] in Hg |- *.
  - destruct (dispatch_response result) as [resp es], (into_middleware_response resp) as [web slot].
    unfold Grows in Hg. cbn in *. set_solver.
  - unfold Grows in Hg. cbn in *. set_solver.
  - unfold Grows in Hg. cbn in *. set_solver.
Qed.

Lemma dispatch_grows parts bytes c d cookie (t : RouteTable X) layers cancel_first w :
  Grows w (dispatch_buffered parts bytes c d cookie t layers cancel_first w).1.
Proof.
  unfold dispatch_buffered. destruct (bool_decide _ || _); [done|].
  destruct (if hm_contains_key UPGRADE (part_headers parts) then _ else _) as [[hs|u]| |]; try done.
  destruct (inbound_request _ _ _ _ _ _ _) as [[q|e]| |]; try done.
  destruct (middleware_request _ _) as [[req ctl]| |]; try done.
  pose proof (run_preserves (fun v => trace w ⊆ trace v) (lift_layer <$> layers) req
    (dispatch_closure t cancel_first hs ctl) (open_world w)) as Hr.
  assert (Hl : forall A (f : X * option IngressBody -> X * option IngressBody * A) v, trace (lift f v).1 = trace v) by (intros A f v; unfold lift; by destruct (f (ext v))).
  destruct (run _ _ _ _) as [w2 result]. cbn [fst] in Hr.
  assert (Hw : trace w ⊆ trace w2).
  { apply Hr; [intros; by rewrite Hl..| |done]. intros q' v Hv. by apply closure_grows. }
  destruct (finish_response (ext w2).2 result) as [[resp es]| |]; cbn [fst]; try done. by apply grows_emit.
Qed.

Lemma call_grows self c st st' (w w' : World X) r : call self c st w = (st', w', r) -> Grows w w'.
Proof.
  assert (Hf : forall up m hv response st1 (w1 : World X), Grows w w1 ->
            let '(_, w2, _) := finish_request self up m hv response st1 w1 in Grows w w2).
  { intros. unfold finish_request, finish_call. destruct (upgrade_socket self up response) as [[r1 s] es].
    destruct (normalize_body r1 m) as [r2 es2], (into_response r2). by apply grows_emit, grows_emit. }
  unfold call. destruct (replace_request_id _ _) as [[[rid hs] ids']| |]; [|by intros [= _ <- _]..].
  set (finish := finish_request self _ _ rid).
  assert (Hfin : forall response st1 (w1 : World X), Grows w w1 -> finish response st1 w1 = (st', w', r) -> Grows w w').
  { intros response st1 w1 Hw1 E. pose proof (Hf (hm_contains_key UPGRADE (part_headers (c_parts c))) (part_method (c_parts c)) rid response st1 w1 Hw1) as Hg.
    fold finish in Hg. by rewrite E in Hg. }
  destruct (_ <? _)%Z; [by apply Hfin|]. cbn [local global Service.ids].
  destruct (match local st with Some _ => _ | None => _ end) as [local' [[]| |]]; [| |by intros [= _ <- _]..].
  2: { destruct (into_response unavailable) as [t es]. intros [= _ <- _]. by apply grows_emit. }
  destruct (acquire_request_permit (global st) _ _) as [g [[]| |]]; [| |by intros [= _ <- _]; apply grows_emit..].
  2: { apply Hfin. by apply grows_emit, grows_emit. }
  set (w1 := emit [PermitAcquired] _).
  assert (Hd : Grows w1 (dispatch self c (mkParts (part_method (c_parts c)) (part_uri (c_parts c)) (part_version (c_parts c)) hs) w1).1).
  { unfold dispatch. destruct (match content_length _ with Some _ => _ | None => _ end); [done|].
    destruct (if c_end_of_stream c then _ else _) as [[bytes|[]]|answer]; try done. apply dispatch_grows. }
  assert (Hw1 : Grows w w1) by by apply grows_emit, grows_emit.
  destruct (dispatch _ _ _ w1) as [w2 [response| |]]; cbn [fst] in Hd;
    [|intros [= _ <- _]; apply grows_emit; by etransitivity | intros [= _ <- _]; by etransitivity].
  apply Hfin. apply grows_emit. by etransitivity.
Qed.

(** ** Lemmas: one connection *)

Lemma receive_loop_id events s : match ResponseStream.receive_loop events s with
  (s', _, _) => stream_id (ResponseStream.stream s') = stream_id (ResponseStream.stream s) end.
Proof.
  revert s; induction events as [|e events IH]; intros s; [done|]. cbn [ResponseStream.receive_loop].
  destruct e as [[f| |[[]|[]]]|e]; cbn; try done.
  - by destruct (ResponseStream.is_chunk f).
  - match goal with |- context [ResponseStream.receive_loop events ?s1] => specialize (IH s1); destruct (ResponseStream.receive_loop events s1) as [[s' es] r] end.
    exact IH.
Qed.

Lemma poll_frame_id b b' es p : ResponseStream.poll_frame b = (b', es, p) -> body_id b' = body_id b.
Proof.
  unfold ResponseStream.poll_frame. destruct (ResponseStream.body_done b); [by intros [= <- _ _]|].
  assert (Hs : forall s o, (if ResponseStream.receive_pending b then (ResponseStream.body_stream b, None)
    else ResponseStream.receive_begin (ResponseStream.body_stream b)) = (s, o) ->
    stream_id (ResponseStream.stream s) = body_id b).
  { intros s o. unfold ResponseStream.receive_begin. repeat case_match; intros; by simplify_eq. }
  destruct (if ResponseStream.receive_pending b then _ else _) as [s started]. specialize (Hs s started eq_refl).
  assert (Hr : forall s1 r, stream_id (ResponseStream.stream s1) = body_id b -> body_id (ResponseStream.body_ready s1 r).1 = body_id b)
    by by intros s1 [[x|]|e].
  destruct started as [r|].
  - specialize (Hr s r Hs). destruct (ResponseStream.body_ready s r). by intros [= <- _ _].
  - unfold ResponseStream.receive_poll. pose proof (receive_loop_id (script (ResponseStream.stream s)) s) as Hl.
    destruct (ResponseStream.receive_loop _ s) as [[s1 es1] [r|]]; rewrite Hs in Hl; [|by intros [= <- _ _]].
    specialize (Hr s1 r Hl). destruct (ResponseStream.body_ready s1 r). by intros [= <- _ _].
Qed.

Lemma dropped_stream s : StreamCancelled (stream_id (ResponseStream.stream s)) ∈ ResponseStream.drop_stream s.
Proof. unfold ResponseStream.drop_stream. by left. Qed.

Lemma dropped_session s : StreamCancelled (session_id s) ∈ WebSocket.drop_session s.
Proof. unfold WebSocket.drop_session. by left. Qed.

Lemma opened_accepted (t : RouteTable X) h policy s : Opened t h policy s ->
  exists stream es, WebSocket.accept stream (Handshake.protocols h) (Config.max_message_bytes policy) (Config.max_session_bytes policy)
    = Some (Ok s, es).
Proof. intros []. eauto. Qed.

(** However a pump ends, the stream of its session is cancelled. *)
Lemma run_cancels st offered ml sl s es0 in_time events stop written last s' es :
  WebSocket.accept st offered ml sl = Some (Ok s, es0) ->
  WebSocketNative.run s [] in_time events stop = Some (written, last, s', es) -> StreamCancelled (session_id s) ∈ es.
Proof.
  intros Ha. unfold WebSocketNative.run. destruct in_time.
  - assert (Hacc : forall sent received es s1, WebSocket.Reachable s sent received es s1 -> WebSocket.Inv s sent received es s1)
      by (intros; by eapply WebSocket.accepted_Inv).
    destruct (WebSocketNative.pump_run_inv s Hacc s [] events (WebSocket.reach_init s)) as (sent & received & HP).
    destruct (WebSocketNative.outcome _ stop) as [r|]; [|done].
    destruct (WebSocketNative.finish _ r) as [[last1 s1] es1] eqn:Ef. intros [= _ _ <- <-].
    destruct (WebSocketNative.finish_reach s _ _ _ _ _ _ _ HP Ef) as [HR Hc]. by apply (WebSocket.inv_cancelled _ _ _ _ _ (Hacc _ _ _ _ HR)).
  - unfold WebSocket.cancel. cbn. intros [= _ _ _ <-]. unfold session_id. set_solver.
Qed.

Lemma dropped_bodies (bs : list ResponseStream.StreamingBody) b : b ∈ bs ->
  StreamCancelled (body_id b) ∈ concat ((fun b => ResponseStream.drop_stream (ResponseStream.body_stream b)) <$> bs).
Proof.
  intros Hb. apply list_elem_of_In, in_concat. eexists. split; [|apply list_elem_of_In, dropped_stream].
  apply list_elem_of_In, list_elem_of_fmap. by exists b.
Qed.

Lemma driven_serving c : driven c = true -> serving c = true.
Proof. unfold serving. by intros ->. Qed.

(** What is dropped with the connection future is cancelled; the bodies that remain are those of spawned tasks. *)
Lemma drop_future_accounts c : let '(kept, es) := drop_future c in
  (kept <> [] -> protocol c = Http2) /\
  forall id, id ∈ body_id <$> bodies c -> protocol c = Http2 /\ id ∈ body_id <$> kept \/ StreamCancelled id ∈ es.
Proof.
  unfold drop_future. destruct (protocol c); (split; [done|]); intros id Hid; [|by left].
  apply list_elem_of_fmap in Hid as (b & -> & Hb). right. by apply dropped_bodies.
Qed.

Lemma serving_held c : serving c = true -> held c = (body_id <$> bodies c) ++ (session_id <$> sessions c).
Proof. unfold held. by intros ->. Qed.

(** The end of the connection's block, or of its task, accounts for all that it held. *)
Lemma dropped_accounts c p kept es fs c' : drop_future c = (kept, es) -> c' = mkConnection (protocol c) p (activity c) (idle_deadline c) kept None ->
  (forall id, id ∈ session_id <$> sessions c -> id ∈ session_id <$> sessions c' \/ StreamCancelled id ∈ fs) ->
  forall id, id ∈ held c -> id ∈ held c' \/ StreamCancelled id ∈ es ++ fs.
Proof.
  intros Hd -> Hs id. pose proof (drop_future_accounts c) as Ha. rewrite Hd in Ha. destruct Ha as [_ Ha]. unfold held at 1.
  rewrite !elem_of_app. intros [Hid|Hid].
  - destruct (serving c); [|by apply not_elem_of_nil in Hid]. destruct (Ha id Hid) as [[Hp Hk]|?]; [|by auto]. left.
    unfold held. rewrite elem_of_app. left. unfold serving. cbn. by rewrite (bool_decide_true _ Hp), orb_true_r.
  - destruct (Hs id Hid) as [?|?]; [|by auto]. left. unfold held. rewrite elem_of_app. by right.
Qed.

Lemma close_accounts c : driven c = true -> let '(c', es) := close c in
  sessions c' = sessions c /\ forall id, id ∈ held c -> id ∈ held c' \/ StreamCancelled id ∈ es.
Proof.
  intros Hd. unfold close. destruct (drop_future c) as [kept es] eqn:Ef.
  assert (Hs : forall c', c' = mkConnection (protocol c) (match socket_task c with Some s => Upgraded s | None => Ended end)
    (activity c) (idle_deadline c) kept None -> sessions c' = sessions c).
  { intros c' ->. unfold sessions, driven in *. cbn. destruct (phase c), (socket_task c); done. }
  split; [by apply Hs|]. intros id Hid.
  rewrite <- (app_nil_r es). eapply (dropped_accounts c _ kept es []); [exact Ef | reflexivity | | exact Hid].
  intros id' Hid'. left. by rewrite (Hs _ eq_refl).
Qed.

Lemma crash_accounts error c : let '(c', es) := crash error c in
  sessions c' = [] /\ ended c' = true /\ forall id, id ∈ held c -> id ∈ held c' \/ StreamCancelled id ∈ es.
Proof.
  unfold crash. destruct (drop_future c) as [kept es] eqn:Ef. do 2 (split; [done|]).
  eapply (dropped_accounts c _ kept es); [exact Ef | reflexivity|]. intros id Hid. right. apply list_elem_of_fmap in Hid as (session & -> & Hin).
  apply list_elem_of_In, in_concat. eexists. split; [|apply list_elem_of_In, dropped_session].
  apply list_elem_of_In, list_elem_of_fmap. by exists session.
Qed.

Definition SessionsOk (self : IngressService (X := X)) (c : Connection) : Prop := Forall (Proper self) (sessions c).

(** What a step keeps: every stream that was held, or was handed over by it, is held or cancelled. *)
Definition Accounts (self : IngressService (X := X)) (e : ConnectionEvent) (c : Connection) (st : Shared) (w : World X)
    (c' : Connection) (w' : World X) : Prop :=
  Grows w w' /\ SessionsOk self c' /\ forall id, id ∈ held c ++ handed self e st w -> id ∈ held c' \/ StreamCancelled id ∈ trace w'.

(** A step that changes neither the bodies nor the session. *)
Lemma accounts_same self e c st (w : World X) c' : SessionsOk self c -> handed self e st w = [] ->
  held c' = held c -> sessions c' = sessions c -> Accounts self e c st w c' w.
Proof. intros Hs Hn Hh Hx. split; [done|]. split; [unfold SessionsOk; by rewrite Hx|]. rewrite Hn, app_nil_r, Hh. by left. Qed.

Lemma accounts_close self e c st (w : World X) : SessionsOk self c -> handed self e st w = [] -> driven c = true ->
  Accounts self e c st w (close c).1 (emit (close c).2 w).
Proof.
  intros Hs Hn Hd. pose proof (close_accounts c Hd) as Hc. destruct (close c) as [c' es]. destruct Hc as [Hx Hc]. cbn [fst snd].
  split; [by apply grows_emit|]. split; [unfold SessionsOk; by rewrite Hx|]. rewrite Hn, app_nil_r. intros id Hid.
  destruct (Hc id Hid); [by left|]. right. cbn. set_solver.
Qed.

Lemma accounts_crash self e c st (w w0 : World X) error : SessionsOk self c -> handed self e st w0 = [] -> Grows w0 w ->
  Accounts self e c st w0 (crash error c).1 (emit (crash error c).2 w).
Proof.
  intros Hs Hn Hg. pose proof (crash_accounts error c) as Hc. destruct (crash error c) as [c' es]. destruct Hc as (Hx & _ & Hc). cbn [fst snd].
  split; [by apply grows_emit|]. split; [unfold SessionsOk; by rewrite Hx|]. rewrite Hn, app_nil_r. intros id Hid.
  destruct (Hc id Hid); [by left|]. right. cbn. set_solver.
Qed.

Lemma call_session_version self request st st' (w w' : World X) t s :
  call self request st w = (st', w', Returned (t, Some s)) -> part_version (c_parts request) = HTTP_11.
Proof.
  intros Hc. apply call_session in Hc as (rid & hs & ids' & r & u & w1 & w2 & _ & Hd & Hb & _).
  by destruct (dispatch_session _ _ _ _ _ _ _ Hd Hb) as (bytes & [policy h _ Hv _ _ _ _ _ _ _] & _).
Qed.

(** Only an HTTP/1 connection is upgraded, and its future is alive then. *)
Lemma upgraded_driven self c request st st' (w w' : World X) t s : callable c request = true ->
  call self request st w = (st', w', Returned (t, Some s)) -> driven c = true.
Proof.
  intros Hca Hc. apply call_session_version in Hc. unfold callable, in_flight, serving, speaks in Hca. rewrite Hc in Hca.
  destruct (protocol c); [|by rewrite andb_false_r in Hca]. by destruct (driven c).
Qed.

Lemma call_session_proper self request st st' (w w' : World X) t s :
  call self request st w = (st', w', Returned (t, Some s)) -> Proper self s.
Proof.
  intros Hc. apply call_session in Hc as (rid & hs & ids' & r & u & w1 & w2 & _ & Hd & Hb & <- & _).
  destruct (dispatch_session _ _ _ _ _ _ _ Hd Hb) as (bytes & [policy h _ _ _ _ _ _ Ho _ _] & _). by exists h, policy.
Qed.

Lemma replace_task_accounts session c : driven c = true ->
  let '(c', es) := replace_task session c in
  phase c' = phase c /\ bodies c' = bodies c /\ activity c' = activity c
  /\ sessions c' = match session with Some s => [s] | None => sessions c end
  /\ forall id, id ∈ session_id <$> sessions c -> id ∈ session_id <$> sessions c' \/ StreamCancelled id ∈ es.
Proof.
  intros Hd. unfold replace_task, sessions, driven in *. destruct session as [s|]; cbn.
  - destruct (phase c), (socket_task c) as [old|]; try done; cbn; (split_and!; [done..|]); intros id Hid;
      (apply list_elem_of_singleton in Hid as -> || by apply not_elem_of_nil in Hid); right; apply dropped_session.
  - split_and!; [done..|]. intros id Hid. by left.
Qed.

Lemma callable_serving c request : callable c request = true -> serving c = true.
Proof. unfold callable, in_flight. by destruct (serving c). Qed.

Lemma answered_accounts self now request c c' st st' (w w' : World X) : SessionsOk self c ->
  connection_step self (Answered now request) c st w = Some (c', st', w') -> Accounts self (Answered now request) c st w c' w'.
Proof.
  intros Hok. cbn [connection_step]. destruct (callable c request) eqn:Eca; [|done]. cbn [negb].
  unfold Accounts. cbn [handed]. destruct (call self request st w) as [[st1 w1] [[t session]| |]] eqn:Ec; try done.
  pose proof (callable_serving _ _ Eca) as Hsv.
  assert (Hr : let '(c1, es) := replace_task session c in phase c1 = phase c /\ bodies c1 = bodies c /\ protocol c1 = protocol c
    /\ sessions c1 = match session with Some s => [s] | None => sessions c end
    /\ forall id, id ∈ session_id <$> sessions c -> id ∈ session_id <$> sessions c1 \/ StreamCancelled id ∈ es).
  { destruct session as [s|]; [|by split_and!; auto]. pose proof (replace_task_accounts (Some s) c (upgraded_driven _ _ _ _ _ _ _ _ _ Eca Ec)) as Hr.
    cbn [replace_task] in *. destruct Hr as (H1' & H2' & _ & H4' & H5'). done. }
  destruct (replace_task session c) as [c1 es]. destruct Hr as (Hp & Hb & Hpr & Hs & Hkeep). intros [= <- <- <-].
  pose proof (call_grows _ _ _ _ _ _ _ Ec) as Hg. split; [by apply grows_emit|].
  set (c2 := set_bodies _ _). assert (Hd2 : serving c2 = true) by (unfold serving, driven in *; subst c2; cbn; by rewrite Hp, Hpr).
  assert (Hs2 : sessions c2 = sessions c1) by done. split.
  - unfold SessionsOk. rewrite Hs2, Hs. destruct session as [s|]; [|done]. constructor; [by eapply call_session_proper | constructor].
  - unfold held. rewrite Hd2, Hsv, Hs2. subst c2. cbn [bodies set_bodies]. intros id. rewrite Hb, fmap_app, !elem_of_app.
    intros [[Hid|Hid]|[Hid|Hid]]; [by auto | | by auto | ].
    + destruct (Hkeep id Hid); [by auto|]. right. cbn. set_solver.
    + left. right. rewrite Hs. destruct session; [done | by apply not_elem_of_nil in Hid].
Qed.

Lemma call_panicked_accounts self now request error c c' st st' (w w' : World X) : SessionsOk self c ->
  connection_step self (CallPanicked now request error) c st w = Some (c', st', w') ->
  Accounts self (CallPanicked now request error) c st w c' w'.
Proof.
  intros Hok. cbn [connection_step]. destruct (negb _); [done|]. destruct (call self request st w) as [[st1 w1] [[t session]| |]] eqn:Ec; try done.
  pose proof (call_grows _ _ _ _ _ _ _ Ec) as Hg. set (c1 := set_activity _ c). destruct (protocol c1).
  - pose proof (accounts_crash self (CallPanicked now request error) c1 st w1 w error Hok eq_refl Hg) as HA.
    destruct (crash error c1) as [c2 es]. by intros [= <- <- <-].
  - intros [= <- <- <-]. split; [done|]. split; [done|]. rewrite app_nil_r. by left.
Qed.

(** A step on one body that leaves it its stream. *)
Lemma accounts_body self e c st (w : World X) i b b' es : SessionsOk self c -> handed self e st w = [] -> bodies c !! i = Some b ->
  body_id b' = body_id b -> Accounts self e c st w (set_bodies (<[i := b']> (bodies c)) c) (emit es w).
Proof.
  intros Hok Hn Eb Hid. assert (Hh : held (set_bodies (<[i := b']> (bodies c)) c) = held c).
  { unfold held. change (serving (set_bodies _ c)) with (serving c). cbn [bodies set_bodies]. f_equal. destruct (serving c); [|done].
    rewrite list_fmap_insert, Hid. apply list_insert_id. by rewrite list_lookup_fmap, Eb. }
  destruct (accounts_same self e c st w (set_bodies (<[i := b']> (bodies c)) c)) as (Hg & Hs & Hk); [done..|].
  split; [by apply grows_emit|]. split; [done|]. intros id Hin. destruct (Hk id Hin); [by left|]. right. cbn. set_solver.
Qed.

Lemma discarded_accounts self i c st (w : World X) b : SessionsOk self c -> bodies c !! i = Some b -> serving c = true ->
  Accounts self (Discarded i) c st w (set_bodies (delete i (bodies c)) c) (emit (ResponseStream.drop_stream (ResponseStream.body_stream b)) w).
Proof.
  intros Hok Eb Ed. split; [by apply grows_emit|]. split; [done|]. intros id. cbn [handed]. rewrite app_nil_r.
  rewrite !serving_held by done. cbn [bodies set_bodies].
  rewrite !elem_of_app. intros [Hid|Hid]; [|by auto]. apply list_elem_of_fmap in Hid as (b' & -> & Hb').
  apply list_elem_of_lookup in Hb' as [j Hj]. destruct (decide (i = j)) as [->|Hij].
  - right. rewrite Eb in Hj. injection Hj as <-. cbn. pose proof (dropped_stream (ResponseStream.body_stream b)). unfold body_id. set_solver.
  - left. left. apply list_elem_of_fmap. exists b'. split; [done|]. apply list_elem_of_lookup.
    destruct (decide (j < i)); [exists j; by rewrite list_lookup_delete_lt|].
    exists (Nat.pred j). rewrite list_lookup_delete_ge by lia. by replace (S (Nat.pred j)) with j by lia.
Qed.

Lemma connection_step_accounts self e c c' st st' (w w' : World X) : SessionsOk self c ->
  connection_step self e c st w = Some (c', st', w') -> Accounts self e c st w c' w'.
Proof.
  intros Hok. destruct e as [now|now request|now request error|now|i event|i|i| | |now| |in_time events stop|error];
    [| by apply answered_accounts | by apply call_panicked_accounts |..]; cbn [connection_step].
  - destruct (serving c); [|done]. intros [= <- <- <-]. by apply accounts_same.
  - destruct (in_flight c); [|done]. intros [= <- <- <-]. by apply accounts_same.
  - destruct (bodies c !! i) as [b|] eqn:Eb; [|done]. destruct (serving c); [|done]. intros [= <- <- <-].
    rewrite <- (emit_nil w) at 2. by eapply accounts_body.
  - destruct (bodies c !! i) as [b|] eqn:Eb; [|done]. destruct (ResponseStream.poll_frame b) as [[b' es] p] eqn:Ep.
    apply poll_frame_id in Ep. destruct (serving c); [|done]. intros [= <- <- <-]. by eapply accounts_body.
  - destruct (bodies c !! i) as [b|] eqn:Eb; [|done]. destruct (serving c) eqn:Ed; [|done]. intros [= <- <- <-]. by apply discarded_accounts.
  - destruct (driven c) eqn:Ed; [|done]. pose proof (accounts_close self Completed c st w Hok eq_refl Ed) as HA.
    destruct (close c) as [c1 es]. by intros [= <- <- <-].
  - destruct (phase c) eqn:Ep; try done. intros [= <- <- <-]. apply accounts_same; [done | done | |]; unfold held, serving, sessions, driven; cbn; by rewrite Ep.
  - destruct (phase c) eqn:Ep; try done. destruct (_ <? _)%Z; [done|]. destruct (Activity.idle _ _ _); intros [= <- <- <-];
      (apply accounts_same; [done | done | |]; unfold held, serving, sessions, driven; cbn; by rewrite Ep).
  - destruct (phase c) eqn:Ep; try done. assert (Ed : driven c = true) by by (unfold driven; rewrite Ep).
    pose proof (accounts_close self GraceElapsed c st w Hok eq_refl Ed) as HA. destruct (close c) as [c1 es]. by intros [= <- <- <-].
  - destruct (phase c) as [| |s| |] eqn:Ep; try done. destruct (WebSocketNative.run s [] in_time events stop) as [[[[wr last] s'] es]|] eqn:Er; [|done].
    intros [= <- <- <-]. split; [by apply grows_emit|]. split; [constructor|]. intros id. cbn [handed]. rewrite app_nil_r.
    assert (Hserv : serving (set_phase Ended c) = serving c) by (unfold serving, driven; cbn; by rewrite Ep).
    unfold held. rewrite Hserv. unfold sessions at 1. rewrite Ep, !elem_of_app. intros [Hid|Hid]; [by auto|].
    apply list_elem_of_singleton in Hid as ->. right.
    unfold SessionsOk, sessions in Hok. rewrite Ep in Hok. apply Forall_cons in Hok as [(h & policy & Ho) _].
    destruct (opened_accepted _ _ _ _ Ho) as (stream & es0 & Ha). pose proof (run_cancels _ _ _ _ _ _ _ _ _ _ _ _ _ Ha Er). set_solver.
  - destruct (ended c); [done|]. pose proof (accounts_crash self (TaskPanicked error) c st w w error Hok eq_refl (reflexivity w)) as HA.
    destruct (crash error c) as [c1 es]. by intros [= <- <- <-].
Qed.

(** ** Lemmas: the accept loop *)

(** After the end of its task only the spawned tasks of a connection go on. *)
Lemma connection_step_ended self e c c' st st' (w w' : World X) :
  connection_step self e c st w = Some (c', st', w') -> ended c = true -> phase c' = phase c.
Proof.
  intros Hs He. assert (Hd : driven c = false) by (unfold ended, driven in *; by destruct (phase c)).
  destruct e as [now|now request|now request error|now|i event|i|i| | |now| |in_time events stop|error]; cbn [connection_step] in Hs;
    try (unfold ended in He; repeat case_match; simplify_eq; done).
  - destruct (negb _); [done|]. destruct (call self request st w) as [[st1 w1] [[t session]| |]]; try done.
    destruct session as [session|]; cbn in Hs; by injection Hs as <- <- <-.
  - destruct (callable c request) eqn:Eca; [|done]. cbn [negb] in Hs. destruct (call self request st w) as [[st1 w1] [[t session]| |]]; try done.
    apply callable_serving in Eca. unfold serving in Eca. rewrite Hd in Eca. cbn in Eca. bool_prop. cbn [protocol set_activity] in Hs.
    rewrite Eca in Hs. by injection Hs as <- <- <-.
  - by rewrite He in Hs.
Qed.

Lemma running_cons c cs : running (c :: cs) = (if ended c then running cs else S (running cs)).
Proof. unfold running. rewrite filter_cons. destruct (ended c); [rewrite decide_False by done | rewrite decide_True by done]; done. Qed.

Lemma running_app cs ds : running (cs ++ ds) = running cs + running ds.
Proof. unfold running. by rewrite filter_app, length_app. Qed.

Lemma running_insert cs i c c' : cs !! i = Some c -> ended c = false ->
  running cs = running (<[i := c']> cs) + (if ended c' then 1 else 0).
Proof.
  revert i; induction cs as [|d cs IH]; intros [|i] Hi Hc; cbn in Hi; [done|done| |].
  - injection Hi as ->. change (<[0 := c']> (c :: cs)) with (c' :: cs). rewrite !running_cons, Hc. destruct (ended c'); lia.
  - change (<[S i := c']> (d :: cs)) with (d :: <[i := c']> cs). rewrite !running_cons, (IH i Hi Hc). destruct (ended d); lia.
Qed.

Lemma running_insert_ended cs i c c' : cs !! i = Some c -> ended c = true -> ended c' = true -> running (<[i := c']> cs) = running cs.
Proof.
  revert i; induction cs as [|d cs IH]; intros [|i] Hi Hc Hc'; cbn in Hi; [done|done| |].
  - injection Hi as ->. change (<[0 := c']> (c :: cs)) with (c' :: cs). by rewrite !running_cons, Hc, Hc'.
  - change (<[S i := c']> (d :: cs)) with (d :: <[i := c']> cs). by rewrite !running_cons, (IH i Hi Hc Hc').
Qed.

Lemma running_zero cs : running cs = 0 -> forall c, c ∈ cs -> ended c = true.
Proof.
  induction cs as [|d cs IH]; intros Hr c Hc; [by apply not_elem_of_nil in Hc|]. rewrite running_cons in Hr.
  destruct (ended d) eqn:Ed; [|done]. apply elem_of_cons in Hc as [->|Hc]; [done | by apply IH].
Qed.

Lemma running_exists cs : running cs <> 0 -> exists i c, cs !! i = Some c /\ ended c = false.
Proof.
  induction cs as [|d cs IH]; [done|]. rewrite running_cons. destruct (ended d) eqn:Ed.
  - intros Hr. destruct (IH Hr) as (i & c & Hi & Hc). by exists (S i), c.
  - intros _. by exists 0, d.
Qed.

(** A connection holds at most one session, and none when it has ended. *)
Lemma open_sessions_running cs : length (open_sessions cs) <= running cs.
Proof.
  induction cs as [|c cs IH]; [done|]. unfold open_sessions in *. rewrite fmap_cons. cbn [concat]. rewrite length_app, running_cons.
  assert (Hc : length (sessions c) <= if ended c then 0 else 1) by (unfold ended, sessions; destruct (phase c), (socket_task c); cbn; lia).
  destruct (ended c); lia.
Qed.

(** What a connection holds is in its task or, over HTTP/2, in those of its streams. *)
Lemma held_running c id : id ∈ held c -> ended c = false \/ protocol c = Http2 /\ id ∈ body_id <$> bodies c.
Proof.
  unfold held, serving. destruct (ended c) eqn:Ee; [|by left]. right. unfold ended, driven, sessions in *.
  destruct (phase c); try done; cbn in *; case_bool_decide; cbn in *; rewrite ?app_nil_r in *; by try apply not_elem_of_nil in H5.
Qed.

(** The task of an HTTP/2 stream can always be over. *)
Lemma discarded_cancelled self s i c j b : connections s !! i = Some c -> protocol c = Http2 -> bodies c !! j = Some b ->
  exists s', server_step self (OnConnection i (Discarded j)) s = Some s' /\ StreamCancelled (body_id b) ∈ trace (world s').
Proof.
  intros Hi Hp Hj. assert (Hs : serving c = true) by (unfold serving; by rewrite (bool_decide_true _ Hp), orb_true_r).
  cbn [server_step connection_step signal_possible]. rewrite Hi, Hj, Hs. cbn [negb]. eexists. split; [reflexivity|].
  cbn. pose proof (dropped_stream (ResponseStream.body_stream b)). unfold body_id. set_solver.
Qed.

(** The loop has returned because a task panicked. *)
Definition FailedBy (cs : list Connection) (result : Result str unit) : Prop :=
  exists error c, result = Err (Admission.task_failed error) /\ c ∈ cs /\ phase c = Crashed error.

Lemma settle_counts a : Admission.live (Admission.settle a) = Admission.live a /\ Admission.available (Admission.settle a) = Admission.available a.
Proof. unfold Admission.settle. repeat case_match; done. Qed.

Record ServesInv (self : IngressService (X := X)) (limit : Z) (ids : list Z) (s : Serving) : Prop := {
  sv_admission : Admission.Inv limit (admission s);
  sv_running : Admission.live (admission s) = Z.of_nat (running (connections s));
  sv_finished : forall r, Admission.phase (admission s) = Admission.Finished r ->
    Admission.live (admission s) = 0%Z \/ FailedBy (connections s) r;
  sv_sessions : Forall (SessionsOk self) (connections s);
  sv_accounted : forall id, id ∈ ids -> StreamCancelled id ∈ trace (world s) \/ exists c, c ∈ connections s /\ id ∈ held c;
}.

(** What an admissible event of the loop does to its counters. *)
Lemma loop_step_counts limit a e (P : Result str unit -> Prop) : Admission.Inv limit a -> loop_event e = true ->
  (forall r, Admission.phase a = Admission.Finished r -> Admission.live a = 0%Z \/ P r) ->
  let a' := Admission.settle (Admission.serve_step a e) in
  Admission.Inv limit a' /\ (forall r, Admission.phase a' = Admission.Finished r -> Admission.live a' = 0%Z \/ P r)
  /\ Admission.live a' = (Admission.live a + if (Admission.live a <? Admission.live a') then 1 else 0)%Z.
Proof.
  intros HI He Hf a'. assert (Hp : Admission.possible a e) by by destruct e.
  split; [by apply Admission.serve_step_inv|]. subst a'. destruct a as [av l ph]; cbn in *.
  destruct ph as [|r|r]; [destruct e; cbn in *; try done| destruct e; cbn in *; try done | destruct e; cbn in *; try done];
    unfold Admission.settle; cbn;
    repeat match goal with
      | |- context [(0 <? ?x)%Z] => destruct (Z.ltb_spec 0 x); cbn
      | |- context [(?x =? 0)%Z] => destruct (Z.eqb_spec x 0); cbn
      end; rewrite ?Z.ltb_irrefl, ?Z.add_0_r; (split; [try done; intros ? [= <-]; auto|]); try lia; try done.
  rewrite (proj2 (Z.ltb_lt l (l + 1)%Z)) by lia. done.
Qed.

(** The end of a connection task, by itself or in a panic, returns its permit. *)
Lemma end_step_counts limit a e (P : Result str unit -> Prop) : Admission.Inv limit a -> (0 < Admission.live a)%Z ->
  e = Admission.ConnectionDone \/ (exists error, e = Admission.ConnectionPanicked error /\ P (Err (Admission.task_failed error))) ->
  (forall r, Admission.phase a = Admission.Finished r -> Admission.live a = 0%Z \/ P r) ->
  let a' := Admission.settle (Admission.serve_step a e) in
  Admission.Inv limit a' /\ Admission.live a' = (Admission.live a - 1)%Z
  /\ (forall r, Admission.phase a' = Admission.Finished r -> Admission.live a' = 0%Z \/ P r)
  /\ (forall r, Admission.phase a = Admission.Draining r ->
        Admission.phase a' = if (Admission.live a' =? 0)%Z then Admission.Finished r else Admission.Draining r).
Proof.
  intros HI Hl He Hf a'. split; [apply Admission.serve_step_inv; [done|]; by destruct He as [->|(error & -> & _)]|].
  subst a'. destruct a as [av l [|r|r]]; cbn [Admission.live Admission.phase] in *.
  - destruct He as [->|(error & -> & HP)]; unfold Admission.settle, Admission.connection_ends; cbn; (split_and!; [done | | done]); [done|].
    intros r [= <-]. by right.
  - assert (Hstep : Admission.serve_step (Admission.mkServe av l (Admission.Draining r)) e
      = Admission.connection_ends (Admission.mkServe av l (Admission.Draining r))) by by destruct He as [->|(error & -> & _)].
    rewrite Hstep. unfold Admission.settle, Admission.connection_ends; cbn. destruct (Z.eqb_spec (l - 1) 0) as [E|E]; cbn.
    + split; [done|]. split; [intros; by left|]. intros ? [= <-]. by rewrite E.
    + split; [done|]. split; [done|]. intros ? [= <-]. by rewrite (proj2 (Z.eqb_neq _ _) E).
  - assert (Hstep : Admission.serve_step (Admission.mkServe av l (Admission.Finished r)) e
      = Admission.connection_ends (Admission.mkServe av l (Admission.Finished r))) by by destruct He as [->|(error & -> & _)].
    rewrite Hstep. cbn. split; [done|]. split; [|done]. intros r' [= <-]. destruct (Hf r eq_refl); [lia | by right].
Qed.

(** A connection that has panicked stays so. *)
Lemma failed_insert cs i c c' result : cs !! i = Some c -> (ended c = true -> phase c' = phase c) ->
  FailedBy cs result -> FailedBy (<[i := c']> cs) result.
Proof.
  intros Hi Hp (error & d & Hr & Hd & Hph). apply list_elem_of_lookup in Hd as [j Hj]. destruct (decide (i = j)) as [->|Hij].
  - exists error, c'. rewrite Hi in Hj. injection Hj as <-. split; [done|]. split; [|by rewrite Hp by (unfold ended; by rewrite Hph)].
    apply list_elem_of_lookup. exists j. apply list_lookup_insert_eq. by eapply lookup_lt_Some.
  - exists error, d. split; [done|]. split; [|done]. apply list_elem_of_lookup. exists j. by rewrite list_lookup_insert_ne.
Qed.

(** The loop and its counters, around a step of one of its connections. *)
Lemma step_admission self limit ids s e i c c' st w : ServesInv self limit ids s -> connections s !! i = Some c ->
  connection_step self e c (shared s) (world s) = Some (c', st, w) ->
  let a' := after_step c c' (admission s) in
  Admission.Inv limit a' /\ Admission.live a' = Z.of_nat (running (<[i := c']> (connections s)))
  /\ forall r, Admission.phase a' = Admission.Finished r -> Admission.live a' = 0%Z \/ FailedBy (<[i := c']> (connections s)) r.
Proof.
  intros [Ha Hr Hf _ _] Ei Es. pose proof (connection_step_ended _ _ _ _ _ _ _ _ Es) as Hend. cbn zeta.
  assert (Hf' : forall r, Admission.phase (admission s) = Admission.Finished r ->
    Admission.live (admission s) = 0%Z \/ FailedBy (<[i := c']> (connections s)) r).
  { intros r Hp. destruct (Hf r Hp); [by left|]. right. by eapply failed_insert. }
  unfold after_step. destruct (ended c) eqn:Ec.
  - split; [done|]. split; [|done]. rewrite Hr. f_equal. symmetry. apply (running_insert_ended _ i c c'); [done..|].
    unfold ended in *. by rewrite Hend.
  - pose proof (running_insert _ i c c' Ei Ec) as Hri.
    assert (Hcount : forall e, e = Admission.ConnectionDone
        \/ (exists error, e = Admission.ConnectionPanicked error /\ FailedBy (<[i := c']> (connections s)) (Err (Admission.task_failed error))) ->
      ended c' = true -> let a' := Admission.settle (Admission.serve_step (admission s) e) in
      Admission.Inv limit a' /\ Admission.live a' = Z.of_nat (running (<[i := c']> (connections s)))
      /\ forall r, Admission.phase a' = Admission.Finished r -> Admission.live a' = 0%Z \/ FailedBy (<[i := c']> (connections s)) r).
    { intros ev Hev He'. rewrite He' in Hri. destruct (end_step_counts limit (admission s) ev _ Ha ltac:(lia) Hev Hf') as (H1' & H2' & H3' & _).
      split; [done|]. split; [lia | done]. }
    destruct (phase c') as [| | | |error] eqn:Ep; try (unfold ended in Hri; rewrite Ep in Hri; split; [done|]; split; [lia | done]).
    + apply Hcount; [by left|]. unfold ended. by rewrite Ep.
    + apply Hcount; [right; exists error; split; [done|] | unfold ended; by rewrite Ep]. exists error, c'. split; [done|]. split; [|done].
      apply list_elem_of_lookup. exists i. apply list_lookup_insert_eq. by eapply lookup_lt_Some.
Qed.

Lemma server_step_inv self limit ids s e s' : ServesInv self limit ids s -> server_step self e s = Some s' ->
  ServesInv self limit (ids ++ server_handed self e s) s'.
Proof.
  intros HI. pose proof HI as [Ha Hr Hf Hs Hacc]. destruct e as [now p e|i e]; cbn [server_step].
  - destruct (loop_event e) eqn:Ee; [|done]. cbn [negb]. intros [= <-].
    destruct (loop_step_counts limit (admission s) e _ Ha Ee Hf) as (Ha' & Hf' & Hl).
    set (a' := Admission.settle _) in *. split; cbn [admission connections world server_handed]; [done | | | |].
    + rewrite running_app. destruct (Admission.live (admission s) <? Admission.live a')%Z; [rewrite running_cons|]; unfold running in *; cbn in *; lia.
    + intros r Hp. destruct (Hf' r Hp) as [?|(error & c & ? & ? & ?)]; [by left|]. right. exists error, c. set_solver.
    + apply Forall_app. split; [done|]. destruct (_ <? _)%Z; [|done]. constructor; [constructor | done].
    + rewrite app_nil_r. intros id Hid. destruct (Hacc id Hid) as [?|(c & Hc & ?)]; [by left|]. right. exists c. set_solver.
  - destruct (connections s !! i) as [c|] eqn:Ei; [|done]. destruct (signal_possible e (admission s)); [|done]. cbn [negb].
    destruct (connection_step self e c (shared s) (world s)) as [[[c' st] w]|] eqn:Es; [|done]. intros [= <-].
    destruct (step_admission _ _ _ _ _ _ _ _ _ _ HI Ei Es) as (Ha' & Hl' & Hf').
    destruct (connection_step_accounts self e c c' _ _ _ _ (proj1 (Forall_lookup _ _) Hs i c Ei) Es) as (Hg & Hok & Hk).
    split; cbn [admission connections world server_handed]; [done | done | done | |].
    + apply Forall_insert; done.
    + assert (Hlen : i < length (connections s)) by by eapply lookup_lt_Some.
      assert (Hnew : c' ∈ <[i:=c']> (connections s)) by (apply list_elem_of_lookup; exists i; by rewrite list_lookup_insert_eq).
      intros id. rewrite elem_of_app. intros [Hid|Hid].
      * destruct (Hacc id Hid) as [Hc|(d & Hd & Hh)]; [left; by apply Hg|].
        apply list_elem_of_lookup in Hd as [j Hj]. destruct (decide (i = j)) as [->|Hij].
        -- rewrite Ei in Hj. injection Hj as <-. destruct (Hk id) as [?|?]; [set_solver | right; by exists c' | by left].
        -- right. exists d. split; [|done]. apply list_elem_of_lookup. exists j. by rewrite list_lookup_insert_ne.
      * destruct (Hk id) as [?|?]; [set_solver | right; by exists c' | by left].
Qed.

Lemma serves_run self limit st w ids s es s' : Serves self limit st w ids s -> serve_run self es s = Some s' ->
  Serves self limit st w (ids ++ run_handed self es s) s'.
Proof.
  revert ids s; induction es as [|e es IH]; intros ids s HS Hrun; cbn in *; [injection Hrun as <-; by rewrite app_nil_r|].
  destruct (server_step self e s) as [s1|] eqn:Es; [|done]. rewrite app_assoc. apply IH; [|done]. by apply serves_event.
Qed.

Lemma serves_inv self limit st w ids s : (0 <= limit)%Z -> Serves self limit st w ids s -> ServesInv self limit ids s.
Proof.
  intros Hl HS. induction HS as [|ids s e s' _ IH Hs].
  - split; cbn; [split; cbn; try done; lia | done | done | done |]. intros id Hid. by apply not_elem_of_nil in Hid.
  - by eapply server_step_inv.
Qed.

(** ** Lemmas: shutdown *)

(** The events that come by themselves once shutdown is announced: the signal, the grace timer, and the lifetime of a pump. *)
Definition by_itself (e : ServerEvent) : bool :=
  match e with
  | OnConnection _ (ShutdownSignalled | GraceElapsed | SocketFinished true [] WebSocketNative.LifetimeElapsed) => true
  | _ => false
  end.

(** The task of connection [i] ends, and nothing else happens to the loop. *)
Definition EndsTask (self : IngressService (X := X)) (i : nat) (n : nat) (s : Serving) : Prop :=
  exists es s' c', Forall (fun e => by_itself e = true) es /\ length es <= n /\ serve_run self es s = Some s'
    /\ admission s' = Admission.settle (Admission.serve_step (admission s) Admission.ConnectionDone)
    /\ connections s' = <[i := c']> (connections s) /\ ended c' = true.

Lemma ends_task_step self i n s e c st w :
  by_itself (OnConnection i e) = true -> (exists c0, connections s !! i = Some c0 /\ connection_step self e c0 (shared s) (world s) = Some (c, st, w)) ->
  signal_possible e (admission s) = true -> ended c = false ->
  EndsTask self i n (mkServing (admission s) (<[i := c]> (connections s)) st w) -> EndsTask self i (S n) s.
Proof.
  intros He (c0 & Hi & Hc) Hsig Hend (es & s' & c' & Hes & Hn & Hrun & Ha & Hcs & Hc'). exists (OnConnection i e :: es), s', c'.
  split; [by constructor|]. split; [cbn; lia|]. split; [|split_and!; [done | | done]].
  - cbn [serve_run server_step]. rewrite Hi, Hsig, Hc. cbn [negb]. unfold after_step.
    destruct (ended c0); [done|]. unfold ended in Hend. by destruct (phase c).
  - rewrite Hcs. cbn. apply list_insert_insert_eq.
Qed.

Lemma ends_task_now self i n s e c st w :
  by_itself (OnConnection i e) = true ->
  (exists c0, connections s !! i = Some c0 /\ ended c0 = false /\ connection_step self e c0 (shared s) (world s) = Some (c, st, w)) ->
  signal_possible e (admission s) = true -> phase c = Ended -> EndsTask self i (S n) s.
Proof.
  intros He (c0 & Hi & Hc0 & Hc) Hsig Hend. eexists [OnConnection i e], _, c. split; [by constructor|]. split; [cbn; lia|].
  split; [cbn [serve_run server_step]; rewrite Hi, Hsig, Hc; reflexivity|]. unfold after_step. rewrite Hc0, Hend. unfold ended. by rewrite Hend.
Qed.

Lemma socket_ends self i n s c session : connections s !! i = Some c -> phase c = Upgraded session -> EndsTask self i (S n) s.
Proof.
  intros Hi Hp. set (e := SocketFinished true [] WebSocketNative.LifetimeElapsed).
  assert (Hs : exists c' st w, connection_step self e c (shared s) (world s) = Some (c', st, w) /\ phase c' = Ended).
  { cbn [connection_step e]. rewrite Hp. unfold WebSocketNative.run. cbn [foldl WebSocketNative.outcome].
    destruct (WebSocketNative.finish _ _) as [[last s'] es]. by do 3 eexists. }
  destruct Hs as (c' & st & w & Hs & He). eapply (ends_task_now self i n s e); [done | exists c; split_and!; [done | by unfold ended; rewrite Hp | exact Hs] | done | exact He].
Qed.

Lemma closing_ends self i s c reason : connections s !! i = Some c -> phase c = Closing reason -> EndsTask self i 2 s.
Proof.
  intros Hi Hp. assert (Hlt : i < length (connections s)) by by eapply lookup_lt_Some.
  assert (Hs : connection_step self GraceElapsed c (shared s) (world s) = Some ((close c).1, shared s, emit (close c).2 (world s)))
    by (cbn [connection_step]; rewrite Hp; by destruct (close c)).
  assert (Hph : phase (close c).1 = match socket_task c with Some s => Upgraded s | None => Ended end)
    by (unfold close; by destruct (drop_future c)).
  destruct (socket_task c) as [session|] eqn:Et.
  - eapply (ends_task_step self i 1 s GraceElapsed); [done | by exists c | done | unfold ended; by rewrite Hph|].
    eapply socket_ends; [by apply list_lookup_insert_eq | by rewrite Hph].
  - eapply (ends_task_now self i 1 s GraceElapsed); [done | | done | by rewrite Hph].
    exists c. split_and!; [done | unfold ended; by rewrite Hp | exact Hs].
Qed.

Lemma connection_ends self i s c : connections s !! i = Some c -> ended c = false ->
  Admission.phase (admission s) <> Admission.Serving -> EndsTask self i 3 s.
Proof.
  intros Hi Hc Hp. assert (Hlt : i < length (connections s)) by by eapply lookup_lt_Some.
  destruct (phase c) as [|reason|session| |] eqn:Ep; [| | by eapply socket_ends | by (unfold ended in Hc; rewrite Ep in Hc)..].
  - eapply (ends_task_step self i 2 s ShutdownSignalled (set_phase (Closing Shutdown) c)); [done | | | done |].
    + exists c. split; [done|]. cbn. by rewrite Ep.
    + unfold signal_possible. by destruct (Admission.phase (admission s)).
    + eapply closing_ends; [by apply list_lookup_insert_eq | done].
  - destruct (closing_ends self i s c reason Hi Ep) as (es & s' & c' & ? & ? & ?). exists es, s', c'. split; [done|]. split; [lia | done].
Qed.

(** A draining loop has connections to wait for. *)
Lemma settled a r : Admission.phase (Admission.settle a) = Admission.Draining r -> (Admission.live (Admission.settle a) <> 0)%Z.
Proof. unfold Admission.settle. destruct (Admission.phase a) eqn:Ep; [by rewrite Ep| |by rewrite Ep]. destruct (Z.eqb_spec (Admission.live a) 0); by intros. Qed.

Lemma serves_settled self limit st w ids s : Serves self limit st w ids s ->
  forall r, Admission.phase (admission s) = Admission.Draining r -> (Admission.live (admission s) <> 0)%Z.
Proof.
  intros HS. induction HS as [|ids s e s' _ IH Hs]; [intros r; apply settled|]. destruct e as [now p e|i e]; cbn [server_step] in Hs.
  - destruct (negb (loop_event e)); [done|]. injection Hs as <-. intros r. apply settled.
  - destruct (connections s !! i); [|done]. destruct (negb _); [done|].
    destruct (connection_step _ _ _ _ _) as [[[c' st'] w']|]; [|done]. injection Hs as <-. cbn. unfold after_step.
    destruct (ended _); [done|]. destruct (phase c'); try done; intros r; apply settled.
Qed.

Lemma serve_run_app self es fs s : serve_run self (es ++ fs) s = (let! s' := serve_run self es s else None in serve_run self fs s').
Proof. revert s; induction es as [|e es IH]; intros s; [done|]. cbn. by destruct (server_step self e s). Qed.

Lemma serve_run_inv self limit es ids s s' : ServesInv self limit ids s -> serve_run self es s = Some s' ->
  exists ids', ServesInv self limit ids' s'.
Proof.
  revert s ids; induction es as [|e es IH]; intros s ids HI Hrun; cbn in Hrun; [injection Hrun as <-; by exists ids|].
  destruct (server_step self e s) as [s1|] eqn:Es; [|done]. eapply IH; [|exact Hrun]. by eapply server_step_inv.
Qed.

Lemma serve_drains self limit ids s result : ServesInv self limit ids s -> Admission.phase (admission s) = Admission.Draining result ->
  running (connections s) <> 0 ->
  exists es s', Forall (fun e => by_itself e = true) es /\ length es <= 3 * running (connections s) /\ serve_run self es s = Some s'
    /\ Admission.phase (admission s') = Admission.Finished result /\ Admission.live (admission s') = 0%Z.
Proof.
  remember (running (connections s)) as n eqn:En. revert s ids En. induction n as [|n IH]; intros s ids En HI Hp Hn; [done|].
  destruct (running_exists (connections s)) as (i & c & Hi & Hc); [lia|].
  destruct (connection_ends self i s c Hi Hc) as (es & s' & c' & Hes & Hlen & Hrun & Ha & Hcs & Hc'); [by rewrite Hp|].
  pose proof (running_insert _ i c c' Hi Hc) as Hri. rewrite Hc', <- Hcs in Hri.
  pose proof (serve_run_inv _ _ _ _ _ _ HI Hrun) as HI'.
  destruct HI' as (ids' & HI'). destruct (end_step_counts limit (admission s) Admission.ConnectionDone _ (sv_admission _ _ _ _ HI)
    ltac:(rewrite (sv_running _ _ _ _ HI); lia) (or_introl eq_refl) (sv_finished _ _ _ _ HI)) as (_ & Hl & _ & Hd).
  specialize (Hd result Hp). rewrite <- Ha in Hd, Hl. destruct (decide (n = 0)) as [->|Hn0].
  - exists es, s'. split; [done|]. split; [lia|]. split; [done|]. rewrite Hd, Hl, (sv_running _ _ _ _ HI).
    by replace (running (connections s)) with 1 by lia.
  - assert (Hp' : Admission.phase (admission s') = Admission.Draining result).
    { rewrite Hd, Hl, (sv_running _ _ _ _ HI). destruct (Z.eqb_spec (Z.of_nat (running (connections s)) - 1) 0); [lia | done]. }
    destruct (IH s' ids' ltac:(lia) HI' Hp' Hn0) as (fs & s2 & Hfs & Hlf & Hrf & Hph & Hl2).
    exists (es ++ fs), s2. split; [by apply Forall_app|]. rewrite length_app. split; [lia|]. split; [|done]. by rewrite serve_run_app, Hrun.
Qed.

(** ** Properties *)


(** C22: No stream of an endpoint is forgotten. At every moment of serving a listener, whatever hyper, the clients, the endpoints and
    the timers do, and whatever panics, every stream whose body or WebSocket session a call has handed to a connection has been
    cancelled or is held by a connection: one whose task is running or, for the body of an HTTP/2 stream, by the task of that stream,
    which hyper spawned on the [LocalExecutor] and which may outlive the connection's. A connection holds at most one session, and the
    running connection tasks are the permits in use, so no more sessions are open than connections are configured. When the loop has
    returned, no connection task is running, unless it has returned because one of them panicked, whose error it then returns while
    others may be running. When no connection task is running, every stream has been cancelled except HTTP/2 bodies in tasks of their
    own, each of which is cancelled as soon as hyper drops it. *)
Theorem streams_accounted self limit st (w : World X) ids s : (0 <= limit)%Z -> Serves self limit st w ids s ->
  (forall id, id ∈ ids -> StreamCancelled id ∈ trace (world s)
     \/ exists c, c ∈ connections s /\ id ∈ held c /\ (ended c = false \/ protocol c = Http2 /\ id ∈ body_id <$> bodies c))
  /\ (Z.of_nat (length (open_sessions (connections s))) <= Admission.live (admission s))%Z
  /\ Admission.live (admission s) = Z.of_nat (running (connections s))
  /\ (Admission.available (admission s) + Admission.live (admission s) = limit)%Z /\ (0 <= Admission.available (admission s))%Z
  /\ (forall result, Admission.phase (admission s) = Admission.Finished result ->
        (forall c, c ∈ connections s -> ended c = true) \/ FailedBy (connections s) result)
  /\ ((forall c, c ∈ connections s -> ended c = true) -> forall id, id ∈ ids -> StreamCancelled id ∈ trace (world s)
        \/ exists i c j b, connections s !! i = Some c /\ protocol c = Http2 /\ bodies c !! j = Some b /\ body_id b = id
             /\ exists s', server_step self (OnConnection i (Discarded j)) s = Some s' /\ StreamCancelled id ∈ trace (world s')).
Proof.
  intros Hl HS. destruct (serves_inv _ _ _ _ _ _ Hl HS) as [[Hcons _ Hav _] Hr Hf _ Hacc].
  assert (Hheld : forall id, id ∈ ids -> StreamCancelled id ∈ trace (world s)
     \/ exists c, c ∈ connections s /\ id ∈ held c /\ (ended c = false \/ protocol c = Http2 /\ id ∈ body_id <$> bodies c)).
  { intros id Hid. destruct (Hacc id Hid) as [?|(c & Hc & Hh)]; [by left|]. right. exists c. split_and!; [done..|]. by apply held_running. }
  split; [done|]. pose proof (open_sessions_running (connections s)). split; [lia|]. do 3 (split; [done|]). split.
  - intros result Hp. destruct (Hf result Hp); [left; apply running_zero; lia | by right].
  - intros Hend id Hid. destruct (Hheld id Hid) as [?|(c & Hc & _ & [He|[Hp Hb]])]; [by left | by rewrite (Hend c Hc) in He|].
    right. apply list_elem_of_lookup in Hc as [i Hi]. apply list_elem_of_fmap in Hb as (b & -> & Hb).
    apply list_elem_of_lookup in Hb as [j Hj]. exists i, c, j, b. do 4 (split; [done|]). by apply (discarded_cancelled self s i c j b).
Qed.

(** C23: Shutdown cannot be held up. From any state of the loop, once shutdown has begun, the signal, the grace timer of each
    connection and the lifetime of each WebSocket are enough: without hyper, a client or an endpoint doing anything, at most
    three of these events for each running connection end every connection task, and the loop returns what began the shutdown. *)
Theorem shutdown_drains self limit st (w : World X) ids s result : (0 <= limit)%Z -> Serves self limit st w ids s ->
  Admission.phase (admission s) = Admission.Draining result ->
  exists es s', Forall (fun e => by_itself e = true) es /\ length es <= 3 * running (connections s)
    /\ serve_run self es s = Some s' /\ Admission.phase (admission s') = Admission.Finished result
    /\ forall c, c ∈ connections s' -> ended c = true.
Proof.
  intros Hl HS Hp. pose proof (serves_inv _ _ _ _ _ _ Hl HS) as HI.
  assert (Hn : running (connections s) <> 0).
  { intros Hz. pose proof (serves_settled _ _ _ _ _ _ HS result Hp) as Hset.
    rewrite (sv_running _ _ _ _ HI) in Hset. lia. }
  destruct (serve_drains self limit ids s result HI Hp Hn) as (es & s' & Hes & Hlen & Hrun & Hfin & Hl0).
  exists es, s'. do 4 (split; [done|]). destruct (serve_run_inv _ _ _ _ _ _ HI Hrun) as (ids' & HI').
  apply running_zero. pose proof (sv_running _ _ _ _ HI'). lia.
Qed.

End connection.

(** ** Witnesses *)

#[local] Existing Instance ref_http.
#[local] Existing Instance ref_http_laws.
#[local] Existing Instance ref_matchit.
#[local] Existing Instance ref_matchit_laws.
#[local] Existing Instance Dispatch.ref_digests.
#[local] Existing Instance Dispatch.ref_digest_laws.

(** A client connects and upgrades; the connection future ends; the App is cancelled. *)
Definition chat_events : list ServerEvent :=
  [OnLoop 0 Http1 Admission.Accepted; OnConnection 0 (Started 1); OnConnection 0 (Answered 2 chat_call); OnConnection 0 Completed;
   OnLoop 3 Http1 Admission.AppCancelled].
(** The pump notices that the client is gone. *)
Definition chat_end : ServerEvent := OnConnection 0 (SocketFinished true [WebSocketNative.Arrived None] WebSocketNative.Joined).
Definition chat_start : Serving := start 2 chat_state sample_world.

Lemma streams_accounted_witness :
  exists s, serve_run chat_service (chat_events ++ [chat_end]) chat_start = Some s
    /\ Admission.phase (admission s) = Admission.Finished (Ok ()) /\ StreamCancelled 7 ∈ trace (world s).
Proof.
  destruct (serve_run chat_service (chat_events ++ [chat_end]) chat_start) as [s|] eqn:E; [|vm_compute in E; discriminate E].
  exists s. split; [reflexivity|].
  assert (Hp : (fun s => Admission.phase (admission s)) <$> serve_run chat_service (chat_events ++ [chat_end]) chat_start
    = Some (Admission.Finished (Ok ()))) by (vm_compute; reflexivity).
  rewrite E in Hp. injection Hp as Hp. split; [exact Hp|].
  destruct (streams_accounted chat_service 2 chat_state sample_world (run_handed chat_service (chat_events ++ [chat_end]) chat_start) s)
    as (_ & _ & _ & _ & _ & Hfin & Hall); [lia | exact (serves_run _ _ _ _ [] _ _ _ (serves_start _ _ _ _) E) |].
  destruct (Hfin _ Hp) as [Hend|(error & c & Hr & _)]; [|discriminate Hr].
  assert (Hids : run_handed chat_service (chat_events ++ [chat_end]) chat_start = [7%Z]) by (vm_compute; reflexivity).
  assert (Hps : (fun s => protocol <$> connections s) <$> serve_run chat_service (chat_events ++ [chat_end]) chat_start = Some [Http1])
    by (vm_compute; reflexivity).
  rewrite E in Hps. injection Hps as Hps.
  destruct (Hall Hend 7%Z) as [Hc|(i & c & j & b & Hi & Hp2 & _)]; [rewrite Hids; by left | exact Hc |].
  pose proof (list_lookup_fmap protocol (connections s) i) as Hl. rewrite Hps, Hi in Hl. cbn in Hl. rewrite Hp2 in Hl.
  destruct i; discriminate Hl.
Defined.

Lemma shutdown_drains_witness :
  exists s es s', serve_run chat_service chat_events chat_start = Some s /\ length es <= 3
    /\ serve_run chat_service es s = Some s' /\ Admission.phase (admission s') = Admission.Finished (Ok ()).
Proof.
  destruct (serve_run chat_service chat_events chat_start) as [s|] eqn:E; [|vm_compute in E; discriminate E].
  assert (Hp : (fun s => (Admission.phase (admission s), running (connections s))) <$> serve_run chat_service chat_events chat_start
    = Some (Admission.Draining (Ok ()), 1)) by (vm_compute; reflexivity).
  rewrite E in Hp. injection Hp as Hp Hr.
  destruct (shutdown_drains chat_service 2 chat_state sample_world (run_handed chat_service chat_events chat_start) s (Ok ()))
    as (es & s' & _ & Hlen & Hrun & Hfin & _); [lia | exact (serves_run _ _ _ _ [] _ _ _ (serves_start _ _ _ _) E) | exact Hp |].
  rewrite Hr in Hlen. exists s, es, s'. split; [reflexivity|]. split; [exact Hlen|]. split; [exact Hrun | exact Hfin].
Defined.


(** One connection task that panics ends the loop at once, whatever the others do: over HTTP/1 a request is enough. *)
Definition panic_events (p : Protocol) (request : Call) : list ServerEvent :=
  [OnLoop 0 p Admission.Accepted; OnLoop 0 p Admission.Accepted; OnConnection 1 (Started 1);
   OnConnection 1 (CallPanicked 2 request (lit "panicked"))].

Example panic_ends_serving :
  (fun s => (Admission.phase (admission s), running (connections s)))
    <$> serve_run chat_service (panic_events Http1 authority_call) chat_start
  = Some (Admission.Finished (Err (Admission.task_failed (lit "panicked"))), 1).
Proof. vm_compute. reflexivity. Qed.

(** Over HTTP/2 it ends the task of its stream, and the connection's task does not see it. *)
Example panic_in_a_stream :
  (fun s => (Admission.phase (admission s), running (connections s)))
    <$> serve_run chat_service (panic_events Http2
          (mkCall (mkParts (m_const (lit "GET")) (RefUri None (Some (lit "foo")) None None) HTTP_2 hm_new)
             [] true BodyFinished false None false None false 1 2)) chat_start
  = Some (Admission.Serving, 2).
Proof. vm_compute. reflexivity. Qed.

(** A body of an HTTP/2 stream outlives its connection's task, and the loop; it is cancelled when hyper drops it. *)
Definition http2_events : list ServerEvent :=
  [OnLoop 0 Http2 Admission.Accepted; OnConnection 0 (Started 1);
   OnConnection 0 (Answered 2 (mkCall (mkParts (part_method (c_parts orders_call)) (part_uri (c_parts orders_call)) HTTP_2 (part_headers (c_parts orders_call)))
     (c_events orders_call) (c_end_of_stream orders_call) (c_body_race orders_call) (c_cancelled_local orders_call)
     (c_local_wait orders_call) (c_cancelled_global orders_call) (c_global_wait orders_call) (c_cancel_first orders_call)
     (c_cancellation orders_call) (c_disconnected orders_call)));
   OnConnection 0 Completed; OnLoop 3 Http2 Admission.AppCancelled; OnConnection 0 (Polled 0); OnConnection 0 (Discarded 0)].

Example body_outlives_the_loop :
  (fun n => (fun s => (Admission.phase (admission s), held <$> connections s, bool_decide (StreamCancelled 3 ∈ trace (world s))))
    <$> serve_run stream_service (take n http2_events) (start 1 orders_state sample_world)) <$> [5; 6; 7]
  = [Some (Admission.Finished (Ok ()), [[3%Z]], false); Some (Admission.Finished (Ok ()), [[3%Z]], false);
     Some (Admission.Finished (Ok ()), [[]], true)].
Proof. vm_compute. reflexivity. Qed.

(** The idle timer counts requests, and a request is over when its answer begins: a body that is still being written does not keep the
    connection open. *)
Definition cut_events : list ServerEvent :=
  let timeout := Config.connection_idle_timeout (config stream_service) in
  [OnLoop 0 Http1 Admission.Accepted; OnConnection 0 (Started 1); OnConnection 0 (Answered 2 orders_call);
   OnConnection 0 (Polled 0); OnConnection 0 (IdleWoke (timeout + 2)); OnConnection 0 GraceElapsed].

Example idle_cuts_a_stream :
  (fun s => (running (connections s), bool_decide (StreamCancelled 3 ∈ trace (world s)))) <$> serve_run stream_service cut_events (start 1 orders_state sample_world)
    = Some (0, true)
  /\ (fun s => (fun c => (fun b => (ResponseStream.body_done b, length (script (ResponseStream.stream (ResponseStream.body_stream b))))) <$> bodies c)
        <$> connections s) <$> serve_run stream_service (take 5 cut_events) (start 1 orders_state sample_world)
    = Some [[(false, 3)]].
Proof. split; vm_compute; reflexivity. Qed.

End Connection.
