(* ===== verification/EndpointMacro.v ===== *)
(** * The [#[endpoint]] macro ([lenso-capability-http-endpoint-macros/src/lib.rs])

    What the macro derives from a handler's signature and attributes, and what the code it generates does. The syntax
    ([syn]) is outside: a type is its path segments with their arguments, and the arguments of an attribute are given by what parsing
    them yields. Errors keep their messages and lose their source positions. *)
From S2P Require Import Prelude RustStd HttpCrate RefHttp Kernel Json Request Response Routing Authoring Extract.
From S2P Require OpenApiContract EndpointContract.

Module EndpointMacro.
Import Json Response Routing Authoring Extract.

(** ** Syntax *)

(** [syn::Type] as far as the macro looks into it. *)
Inductive Ty :=
| PathTy (segments : list Segment)
| TupleTy (elems : list Ty)
| OtherTy
with Segment := mkSegment (ident : str) (arguments : PathArguments)
with PathArguments := NoArguments | AngleBracketed (args : list GenericArgument) | Parenthesized
with GenericArgument := TypeArgument (ty : Ty) | OtherArgument.

Definition segment_ident (s : Segment) : str := let '(mkSegment ident _) := s in ident.
Definition segment_arguments (s : Segment) : PathArguments := let '(mkSegment _ arguments) := s in arguments.

Inductive FnArg := Receiver | Typed (ty : Ty).

(** The method: its name, its inputs and its return type. *)
Record ImplItemFn := mkFn { fn_ident : str; fn_inputs : list FnArg; fn_output : option Ty }.

(** An integer literal is what [base10_parse::<u16>] returns for it. *)
Definition LitInt : Type := Result str Z.

(** ** Contracts *)

Definition final_type_ident (ty : Ty) : option str :=
  match ty with PathTy segments => segment_ident <$> last segments | _ => None end.

Definition named (name : string) (ty : Ty) : bool := bool_decide (final_type_ident ty = Some (lit name)).

Definition type_arguments (args : list GenericArgument) : list Ty :=
  omap (fun a => match a with TypeArgument ty => Some ty | OtherArgument => None end) args.

Definition extractor_type_argument (ty : Ty) (expected : string) : Result str Ty :=
  let needs_one := lit "strict OpenAPI " ++ lit expected ++ lit "<T> needs one type parameter" in
  match ty with
  | PathTy segments =>
      let! segment := last segments else Err needs_one in
      if negb (bool_decide (segment_ident segment = lit expected)) then Err (lit "expected strict OpenAPI " ++ lit expected ++ lit "<T>") else
      match segment_arguments segment with
      | AngleBracketed args => match type_arguments args with [inner] => Ok inner | _ => Err needs_one end
      | _ => Err needs_one
      end
  | _ => Err needs_one
  end.

Record ContractBody := mkBody { contract_ty : Ty; contract_required : bool }.
Definition ContractProblem : Type := (Z * str)%type.

Record RequestContractShape := mkShape {
  shape_path : option Ty; shape_query : option Ty; shape_body : option ContractBody; shape_problems : list ContractProblem }.

Definition add_json_extractor_problems (problems : list ContractProblem) : list ContractProblem :=
  problems ++ [(400%Z, lit "invalid_json_body"); (415%Z, lit "json_content_type_required")].

Definition set_body (s : RequestContractShape) (ty : Ty) (required : bool) : RequestContractShape :=
  mkShape (shape_path s) (shape_query s) (Some (mkBody ty required)) (add_json_extractor_problems (shape_problems s)).

(** The body of the loop over the inputs: the match over the final identifier of the type. *)
Definition add_input (s : RequestContractShape) (input : FnArg) : Result str RequestContractShape :=
  match input with
  | Receiver => Ok s
  | Typed ty =>
      if named "InvocationContext" ty || named "RequestId" ty then Ok s else
      if named "Path" ty then
        match shape_path s with
        | Some _ => Err (lit "a strict OpenAPI contract supports one Path<T> extractor")
        | None =>
            let? inner := extractor_type_argument ty "Path" in
            Ok (mkShape (Some inner) (shape_query s) (shape_body s) (shape_problems s ++ [(400%Z, lit "invalid_path_parameters")]))
        end
      else if named "QueryParams" ty then
        match shape_query s with
        | Some _ => Err (lit "a strict OpenAPI contract supports one QueryParams<T> extractor")
        | None =>
            let? inner := extractor_type_argument ty "QueryParams" in
            Ok (mkShape (shape_path s) (Some inner) (shape_body s) (shape_problems s ++ [(400%Z, lit "invalid_query")]))
        end
      else if named "Json" ty then
        match shape_body s with
        | Some _ => Err (lit "a strict OpenAPI contract supports one Json<T> request body")
        | None => let? inner := extractor_type_argument ty "Json" in Ok (set_body s inner true)
        end
      else if named "Option" ty then
        let? inner := extractor_type_argument ty "Option" in
        if named "Json" inner then
          match shape_body s with
          | Some _ => Err (lit "a strict OpenAPI contract supports one Json<T> request body")
          | None => let? json := extractor_type_argument inner "Json" in Ok (set_body s json false)
          end
        else Err (lit "strict OpenAPI contracts support Option only around Json<T>")
      else if named "Body" ty || named "Headers" ty || named "HandleRequest" ty then
        Err (lit "strict OpenAPI contracts require typed Path, QueryParams, and Json values instead of raw request data")
      else Err (lit "strict OpenAPI contracts support InvocationContext, RequestId, Path<T>, QueryParams<T>, Json<T>, and Option<Json<T>> handler arguments")
  end.

Definition derive_strict_request_shape (method : ImplItemFn) : Result str RequestContractShape :=
  try_fold add_input (mkShape None None None []) (fn_inputs method).

Definition parse_status (lo hi : Z) (range : string) (status : LitInt) : Result str Z :=
  let? parsed := status in if in_range lo hi parsed then Ok parsed else Err (lit range).
Definition parse_success_status : LitInt -> Result str Z :=
  parse_status 200 299 "strict OpenAPI success status must be between 200 and 299".
Definition parse_problem_status : LitInt -> Result str Z :=
  parse_status 400 599 "strict OpenAPI problem status must be between 400 and 599".

Record OpenApiContractMetadata := mkMetadata { meta_success : option LitInt; meta_errors : list (LitInt * str) }.

(** The body of the loop over the enumerated errors. *)
Definition add_error (problems : list ContractProblem) (error : LitInt * str) : Result str (list ContractProblem) :=
  let? status := parse_problem_status error.1 in
  if is_empty (trim error.2) then Err (lit "a strict OpenAPI problem code must not be empty") else
  if bool_decide ((status, error.2) ∈ problems)
  then Err (lit "a strict OpenAPI problem status and code may be declared only once") else
  Ok (problems ++ [(status, error.2)]).

Definition extend_problem_contract (error : Ty) (metadata : OpenApiContractMetadata) (problems : list ContractProblem) :
    Result str (list ContractProblem) :=
  if named "Problem" error then
    if is_empty (meta_errors metadata)
    then Err (lit "a strict OpenAPI contract for Problem errors must enumerate errors = [(status, " ++ "034"%char :: lit "code" ++ "034"%char :: lit ")]")
    else try_fold add_error problems (meta_errors metadata)
  else if named "EndpointHandleInvocationError" error then
    if is_empty (meta_errors metadata) then Ok problems
    else Err (lit "strict OpenAPI errors require a Problem handler error type")
  else Err (lit "strict OpenAPI contracts support Problem or EndpointHandleInvocationError handler errors").

Definition endpoint_result_types (method : ImplItemFn) : Result str (Ty * Ty) :=
  let must_return := lit "a strict OpenAPI handler must return Result<Success, Error>" in
  match fn_output method with
  | Some (PathTy segments) =>
      let! segment := last segments else Err must_return in
      if negb (bool_decide (segment_ident segment = lit "Result")) then Err must_return else
      match segment_arguments segment with
      | AngleBracketed args => match type_arguments args with [success; error] => Ok (success, error) | _ => Err must_return end
      | _ => Err must_return
      end
  | _ => Err must_return
  end.

Definition strict_success_type (success : Ty) (declared_status : option LitInt) : Result str (Ty * Z) :=
  if named "Json" success then
    let? status := match declared_status with Some status => parse_success_status status | None => Ok 200%Z end in
    if negb (status =? 200)%Z
    then Err (lit "Json<T> always returns status 200; use (StatusCode, Json<T>) for another success status") else
    let? inner := extractor_type_argument success "Json" in Ok (inner, status)
  else
    match success with
    | TupleTy [status_type; response] =>
        if negb (named "StatusCode" status_type) || negb (named "Json" response)
        then Err (lit "strict OpenAPI contracts support (StatusCode, Json<T>) success values") else
        let! status := declared_status else Err (lit "(StatusCode, Json<T>) needs openapi_contract(success = status)") in
        let? inner := extractor_type_argument response "Json" in
        let? status := parse_success_status status in
        Ok (inner, status)
    | TupleTy _ => Err (lit "strict OpenAPI contracts support (StatusCode, Json<T>) success values")
    | _ => Err (lit "strict OpenAPI contracts support Json<T> or (StatusCode, Json<T>) success values")
    end.

Record EndpointContract := mkEndpointContract {
  ec_path : option Ty; ec_query : option Ty; ec_body : option ContractBody;
  ec_success : Ty; ec_success_status : Z; ec_problems : list ContractProblem }.

Definition derive_endpoint_contract (method : ImplItemFn) (metadata : OpenApiContractMetadata) : Result str EndpointContract :=
  let? shape := derive_strict_request_shape method in
  let? (success, error) := endpoint_result_types method in
  let? (success, success_status) := strict_success_type success (meta_success metadata) in
  let? problems := extend_problem_contract error metadata (shape_problems shape) in
  Ok (mkEndpointContract (shape_path shape) (shape_query shape) (shape_body shape) success success_status problems).

(** ** Handlers *)

Inductive ArgumentKind := ContextArgument | RequestArgument | ExtractorArgument.
#[global] Instance ArgumentKind_eq_dec : EqDecision ArgumentKind.
Proof. solve_decision. Defined.

Definition argument_kind (ty : Ty) : ArgumentKind :=
  if named "InvocationContext" ty then ContextArgument else
  if named "HandleRequest" ty then RequestArgument else ExtractorArgument.

Definition handler_arguments (method : ImplItemFn) : Result str (list (Ty * ArgumentKind)) :=
  let arguments := omap (fun input => match input with Typed ty => Some (ty, argument_kind ty) | Receiver => None end) (fn_inputs method) in
  let count kind := length (filter (fun a => a.2 = kind) arguments) in
  if (1 <? count ContextArgument)%nat || (1 <? count RequestArgument)%nat
  then Err (lit "an endpoint handler accepts at most one InvocationContext and one HandleRequest")
  else Ok arguments.

Record Route := mkMacroRoute { macro_method : str; macro_id : str; macro_path : str; macro_openapi : option str }.

Record HandlerMetadata := mkHandlerMetadata {
  meta_route : option Route; meta_middlewares : list str; meta_openapi : option str; meta_contract : option OpenApiContractMetadata }.

Record MacroHandler := mkHandler {
  h_route : Route; h_middlewares : list str; h_method : str; h_arguments : list (Ty * ArgumentKind); h_contract : option EndpointContract }.

Section macro.
Context {N : Type} `{Serde N}.
(** [serde_json::from_str] of a value and [serde_json::to_string] of a map. *)
Context (value_from_str : str -> Result str (Value N)) (map_to_string : Map N -> Result str str).

Inductive OpenApiOperation := JsonOperation (text : str) | ObjectOperation (value : Map N).

Definition reject_reserved_openapi_keys (operation : Map N) : Result str unit :=
  if map_contains_key (lit "x-lenso-contract") operation
  then Err (lit "x-lenso-contract is reserved for generated strict OpenAPI contract checks") else Ok tt.

Definition reject_operation_id (operation : Map N) : Result str unit :=
  if map_contains_key (lit "operationId") operation
  then Err (lit "OpenAPI operationId is generated from the stable route ID") else Ok tt.

Definition operation_literal (operation : Map N) : Result str str :=
  let? _ := reject_operation_id operation in
  let? _ := reject_reserved_openapi_keys operation in
  map_err (fun error => lit "could not encode OpenAPI Operation Object: " ++ error) (map_to_string operation).

Definition validate_openapi_operation (operation : str) : Result str unit :=
  let? value := map_err (fun error => lit "OpenAPI Operation Object is not valid JSON: " ++ error) (value_from_str operation) in
  let! object := as_object value else Err (lit "OpenAPI operation metadata must be a JSON object") in
  let? _ := reject_operation_id object in
  reject_reserved_openapi_keys object.

Definition into_literal (self : OpenApiOperation) : Result str str :=
  match self with
  | JsonOperation operation => let? _ := validate_openapi_operation operation in Ok operation
  | ObjectOperation operation => operation_literal operation
  end.

(** An attribute: its path, whether it is a bare path, and what parsing its arguments yields as each of the four kinds. *)
Record Attribute := mkAttribute {
  attr_path : str; attr_bare : bool;
  attr_idents : Result str (list str); attr_operation : Result str OpenApiOperation;
  attr_contract : Result str OpenApiContractMetadata; attr_literals : Result str (list str) }.

Definition middleware_arguments (attribute : Attribute) : Result str (list str) :=
  let? arguments := attr_idents attribute in
  if is_empty arguments then Err (lit "middleware requires at least one provider method") else Ok arguments.

Definition http_method (attribute : Attribute) : option str :=
  snd <$> find (fun m => bool_decide (attr_path attribute = m.1))
    [(lit "get", lit "GET"); (lit "post", lit "POST"); (lit "put", lit "PUT"); (lit "patch", lit "PATCH"); (lit "delete", lit "DELETE");
     (lit "head", lit "HEAD"); (lit "options", lit "OPTIONS"); (lit "query", lit "QUERY")].

Definition route_arguments (attribute : Attribute) : Result str (str * str) :=
  let? arguments := attr_literals attribute in
  match arguments with
  | [route_id; path] => Ok (route_id, path)
  | _ => Err (lit "HTTP handler attributes require a route ID and path")
  end.

Definition take_provider_middlewares (attributes : list Attribute) : Result str (list str) :=
  try_fold (fun middlewares attribute =>
    if bool_decide (attr_path attribute = lit "middleware")
    then let? arguments := middleware_arguments attribute in Ok (middlewares ++ arguments)
    else Ok middlewares) [] attributes.

(** The body of the loop over the attributes of a handler. *)
Definition add_attribute (m : HandlerMetadata) (attribute : Attribute) : Result str HandlerMetadata :=
  if bool_decide (attr_path attribute = lit "middleware") then
    let? arguments := middleware_arguments attribute in
    Ok (mkHandlerMetadata (meta_route m) (meta_middlewares m ++ arguments) (meta_openapi m) (meta_contract m))
  else if bool_decide (attr_path attribute = lit "openapi") then
    match meta_openapi m with
    | Some _ => Err (lit "an endpoint handler may declare only one OpenAPI Operation Object")
    | None =>
        let? operation := attr_operation attribute in
        let? operation := into_literal operation in
        Ok (mkHandlerMetadata (meta_route m) (meta_middlewares m) (Some operation) (meta_contract m))
    end
  else if bool_decide (attr_path attribute = lit "openapi_contract") then
    match meta_contract m with
    | Some _ => Err (lit "an endpoint handler may declare only one strict OpenAPI contract")
    | None =>
        let? contract := if attr_bare attribute then Ok (mkMetadata None []) else attr_contract attribute in
        Ok (mkHandlerMetadata (meta_route m) (meta_middlewares m) (meta_openapi m) (Some contract))
    end
  else
    match http_method attribute with
    | None => Ok m
    | Some http_method =>
        match meta_route m with
        | Some _ => Err (lit "an endpoint handler may declare only one HTTP method")
        | None =>
            let? (route_id, path) := route_arguments attribute in
            Ok (mkHandlerMetadata (Some (mkMacroRoute http_method route_id path None)) (meta_middlewares m) (meta_openapi m) (meta_contract m))
        end
    end.

Definition take_handler_metadata (attributes : list Attribute) : Result str HandlerMetadata :=
  try_fold add_attribute (mkHandlerMetadata None [] None None) attributes.

(** The implementation block: what [validate_endpoint_implementation] reads, its attributes and its methods. *)
Record ItemImpl := mkImpl {
  impl_trait : bool; impl_generics : bool; impl_attrs : list Attribute; impl_methods : list (list Attribute * ImplItemFn) }.

Definition validate_endpoint_implementation (implementation : ItemImpl) : Result str unit :=
  if impl_trait implementation then Err (lit "endpoint can only be applied to an inherent impl block") else
  if impl_generics implementation then Err (lit "endpoint does not support generic impl blocks") else Ok tt.

(** The body of the loop over the methods. *)
Definition add_method (provider_middlewares : list str) (routes : list MacroHandler) (item : list Attribute * ImplItemFn) :
    Result str (list MacroHandler) :=
  let '(attributes, method) := item in
  let? metadata := take_handler_metadata attributes in
  match meta_route metadata with
  | Some route =>
      match meta_contract metadata, meta_openapi metadata with
      | Some _, None => Err (lit "openapi_contract requires an OpenAPI Operation Object on the same handler")
      | _, _ =>
          let? contract := match meta_contract metadata with
                           | Some contract => result_map Some (derive_endpoint_contract method contract)
                           | None => Ok None
                           end in
          let? arguments := handler_arguments method in
          Ok (routes ++ [mkHandler (mkMacroRoute (macro_method route) (macro_id route) (macro_path route) (meta_openapi metadata))
                           (provider_middlewares ++ meta_middlewares metadata) (fn_ident method) arguments contract])
      end
  | None =>
      match meta_middlewares metadata, meta_openapi metadata, meta_contract metadata with
      | [], None, None => Ok routes
      | _, _, _ => Err (lit "endpoint metadata can only be attached to an HTTP handler")
      end
  end.

(** [expand_endpoint_with_registration] up to the tokens: the handlers that the generated code is made of. *)
Definition expand_endpoint (implementation : ItemImpl) : Result str (list MacroHandler) :=
  let? _ := validate_endpoint_implementation implementation in
  let? provider_middlewares := take_provider_middlewares (impl_attrs implementation) in
  let? routes := try_fold (add_method provider_middlewares) [] (impl_methods implementation) in
  if is_empty routes then Err (lit "endpoint impl must declare at least one HTTP handler attribute") else
  Ok routes.

End macro.

(** ** The contract factory *)

(** The problems a derived contract lists are well-formed and extend those of the request. *)
Definition problem_ok (p : ContractProblem) : Prop := (400 <= p.1 <= 599)%Z /\ trim p.2 <> [].

Lemma add_inputs_problems inputs s s' : try_fold add_input s inputs = Ok s' -> Forall problem_ok (shape_problems s) ->
  Forall problem_ok (shape_problems s').
Proof.
  assert (Hall : Forall problem_ok [(400%Z, lit "invalid_path_parameters"); (400%Z, lit "invalid_query"); (400%Z, lit "invalid_json_body");
    (415%Z, lit "json_content_type_required")]) by (repeat constructor; vm_compute; congruence).
  apply Forall_cons in Hall as [Hp Hall]. apply Forall_cons in Hall as [Hq Hall].
  revert s; induction inputs as [|input inputs IH]; intros s; cbn [try_fold]; [by intros [= <-]|]. intros Hf Hs. inv_ok_step Hf.
  eapply IH; [exact Hf|]. clear IH Hf. destruct input as [|ty]; [by injection E as <-|]. unfold add_input in E.
  repeat match type of E with
  | (if ?b then _ else _) = _ => destruct b; [try (by injection E as <-)|]; try done
  | (match ?o with Some _ => _ | None => _ end) = _ => destruct o; [done|]
  | (match ?r with Ok _ => _ | Err _ => _ end) = _ => destruct r; [|done]
  end; try done; injection E as <-; cbn; unfold add_json_extractor_problems; apply Forall_app; split; try done; by constructor.
Qed.

Lemma add_errors_problems errors problems problems' : try_fold add_error problems errors = Ok problems' -> Forall problem_ok problems ->
  problems ⊆ problems' /\ Forall problem_ok problems'.
Proof.
  revert problems; induction errors as [|error errors IH]; intros problems; cbn [try_fold]; [by intros [= <-]|]. intros Hf Hs. inv_ok_step Hf.
  unfold add_error, parse_problem_status, parse_status in E. destruct (error.1) as [z|]; [|done]. destruct (in_range 400 599 z) eqn:Ez; [|done].
  destruct (is_empty (trim error.2)) eqn:Et; [done|]. destruct (bool_decide _); [done|]. injection E as <-.
  apply IH in Hf as [Hsub Hok].
  - split; [set_solver | done].
  - apply Forall_app. split; [done|]. constructor; [|done]. split; [by apply in_range_spec|]. cbn [snd]. intros He. by rewrite He in Et.
Qed.

Lemma derive_ok method metadata contract : derive_endpoint_contract method metadata = Ok contract ->
  exists shape, derive_strict_request_shape method = Ok shape
    /\ ec_path contract = shape_path shape /\ ec_query contract = shape_query shape /\ ec_body contract = shape_body shape
    /\ shape_problems shape ⊆ ec_problems contract /\ Forall problem_ok (ec_problems contract)
    /\ (200 <= ec_success_status contract <= 299)%Z.
Proof.
  unfold derive_endpoint_contract. intros Hd. destruct (derive_strict_request_shape method) as [shape|] eqn:Es; [|done].
  destruct (endpoint_result_types method) as [[success error]|]; [|done].
  destruct (strict_success_type success _) as [[ty status]|] eqn:Et; [|done].
  destruct (extend_problem_contract error metadata _) as [problems|] eqn:Ep; [|done]. injection Hd as <-. cbn. exists shape.
  assert (Hok : Forall problem_ok (shape_problems shape)) by (eapply add_inputs_problems; [exact Es | done]).
  assert (Hp : shape_problems shape ⊆ problems /\ Forall problem_ok problems).
  { unfold extend_problem_contract in Ep. destruct (named "Problem" error).
    - destruct (is_empty _); [done|]. by eapply add_errors_problems.
    - destruct (named _ error); [|done]. destruct (is_empty _); [|done]. by injection Ep as <-. }
  assert (Hst : (200 <= status <= 299)%Z).
  { unfold strict_success_type, parse_success_status, parse_status in Et. destruct (named "Json" success).
    - destruct (match meta_success metadata with Some _ => _ | None => _ end) as [z|]; [|done].
      destruct (negb (z =? 200)%Z) eqn:E2; [done|]. apply negb_false_iff, Z.eqb_eq in E2 as ->.
      destruct (extractor_type_argument _ _); [|done]. injection Et as _ <-. lia.
    - destruct success as [|[|t1 [|t2 [|]]]|]; try done. destruct (_ || _); [done|]. destruct (meta_success metadata) as [l|]; [|done].
      destruct (extractor_type_argument _ _); [|done]. destruct l as [z|]; [|done]. destruct (in_range 200 299 z) eqn:Ez; [|done].
      injection Et as _ <-. by apply in_range_spec. }
  destruct Hp. done.
Qed.

Section factory.
Context {N : Type} `{Serde N}.
(** [schema_for::<T>()]. *)
Context (schema_for : Ty -> Value N).

(** [contract_factory]: the generated function. *)
Definition contract_factory (handler : MacroHandler) (contract : EndpointContract) : Result str (Value N) :=
  let c := EndpointContract.EndpointContract.new (macro_id (h_route handler)) (macro_method (h_route handler)) (macro_path (h_route handler)) in
  let? c := match ec_path contract with Some ty => EndpointContract.EndpointContract.path_parameters c (schema_for ty) | None => Ok c end in
  let? c := match ec_query contract with Some ty => EndpointContract.EndpointContract.query_parameters c (schema_for ty) | None => Ok c end in
  let? c := match ec_body contract with
            | Some body => EndpointContract.EndpointContract.set_json_body c (schema_for (contract_ty body)) (contract_required body)
            | None => Ok c
            end in
  let? c := EndpointContract.EndpointContract.success_json c (schema_for (ec_success contract)) (ec_success_status contract) in
  let? c := try_fold (fun c p => EndpointContract.EndpointContract.known_problem c p.1 p.2) c (ec_problems contract) in
  EndpointContract.EndpointContract.build c.

Definition endpoint_route (handler : MacroHandler) : EndpointRoute (N := N) :=
  mkRoute (macro_id (h_route handler)) (macro_method (h_route handler)) (macro_path (h_route handler)) (macro_openapi (h_route handler))
    (contract_factory handler <$> h_contract handler).

(** What deriving parameters keeps of the empty contract. *)
Definition Derived (c start : EndpointContract.EndpointContract.OpenApiContract N) : Prop :=
  EndpointContract.EndpointContract.Built c
  /\ EndpointContract.EndpointContract.route_id c = EndpointContract.EndpointContract.route_id start
  /\ EndpointContract.EndpointContract.method c = EndpointContract.EndpointContract.method start
  /\ EndpointContract.EndpointContract.path c = EndpointContract.EndpointContract.path start
  /\ EndpointContract.EndpointContract.contract_body c = None /\ EndpointContract.EndpointContract.success c = None
  /\ EndpointContract.EndpointContract.problems c = ∅.

Lemma derived_start route_id method path :
  let start := EndpointContract.EndpointContract.new route_id method path in Derived start start.
Proof. split; [apply EndpointContract.EndpointContract.built_new|]. done. Qed.

Lemma derived_path c start schema c' : Derived c start -> EndpointContract.EndpointContract.path_parameters c schema = Ok c' -> Derived c' start.
Proof.
  intros (HB & Ha1 & Ha2 & Ha3 & Ha4 & Ha5 & Ha6) Ha. split; [by eapply EndpointContract.EndpointContract.built_path|].
  apply EndpointContract.EndpointContract.add_parameters_frame in Ha as (-> & -> & -> & -> & -> & ->). done.
Qed.

Lemma derived_query c start schema c' : Derived c start -> EndpointContract.EndpointContract.query_parameters c schema = Ok c' -> Derived c' start.
Proof.
  intros (HB & Ha1 & Ha2 & Ha3 & Ha4 & Ha5 & Ha6) Ha. split; [by eapply EndpointContract.EndpointContract.built_query|].
  apply EndpointContract.EndpointContract.add_parameters_frame in Ha as (-> & -> & -> & -> & -> & ->). done.
Qed.

(** The steps after the parameters cannot fail. *)
Lemma finish_factory c start contract : Derived c start -> Forall problem_ok (ec_problems contract) ->
  (200 <= ec_success_status contract <= 299)%Z ->
  exists v c', (let? c := match ec_body contract with
                | Some body => EndpointContract.EndpointContract.set_json_body c (schema_for (contract_ty body)) (contract_required body)
                | None => Ok c
                end in
      let? c := EndpointContract.EndpointContract.success_json c (schema_for (ec_success contract)) (ec_success_status contract) in
      let? c := try_fold (fun c p => EndpointContract.EndpointContract.known_problem c p.1 p.2) c (ec_problems contract) in
      EndpointContract.EndpointContract.build c) = Ok v
    /\ EndpointContract.EndpointContract.Built c' /\ EndpointContract.EndpointContract.build c' = Ok v
    /\ EndpointContract.EndpointContract.route_id c' = EndpointContract.EndpointContract.route_id start
    /\ EndpointContract.EndpointContract.method c' = EndpointContract.EndpointContract.method start
    /\ EndpointContract.EndpointContract.path c' = EndpointContract.EndpointContract.path start
    /\ forall status code, code ∈ default ∅ (EndpointContract.EndpointContract.problems c' !! status) <-> (status, code) ∈ ec_problems contract.
Proof.
  intros (HB & Hid & Hm & Hpa & Hb & Hs & Hpr) Hok Hst.
  set (rb := match ec_body contract with Some _ => _ | None => _ end).
  assert (Hrb : exists c3, rb = Ok c3 /\ EndpointContract.EndpointContract.Built c3
    /\ EndpointContract.EndpointContract.route_id c3 = EndpointContract.EndpointContract.route_id c
    /\ EndpointContract.EndpointContract.method c3 = EndpointContract.EndpointContract.method c
    /\ EndpointContract.EndpointContract.path c3 = EndpointContract.EndpointContract.path c
    /\ EndpointContract.EndpointContract.success c3 = None /\ EndpointContract.EndpointContract.problems c3 = ∅).
  { subst rb. destruct (ec_body contract) as [body|]; [|by exists c].
    destruct (EndpointContract.EndpointContract.set_json_body c (schema_for (contract_ty body)) (contract_required body)) as [c3|e] eqn:E3.
    - exists c3. split; [done|]. split; [by eapply EndpointContract.EndpointContract.built_body|].
      unfold EndpointContract.EndpointContract.set_json_body in E3. rewrite Hb in E3. by injection E3 as <-.
    - unfold EndpointContract.EndpointContract.set_json_body in E3. by rewrite Hb in E3. }
  destruct Hrb as (c3 & -> & HB3 & Hid3 & Hm3 & Hpa3 & Hs3 & Hpr3). cbn beta iota.
  destruct (EndpointContract.EndpointContract.success_json c3 (schema_for (ec_success contract)) (ec_success_status contract)) as [c4|e] eqn:E4.
  2: { unfold EndpointContract.EndpointContract.success_json in E4. rewrite (proj2 (in_range_spec _ _ _) Hst), Hs3 in E4. done. }
  assert (HB4 : EndpointContract.EndpointContract.Built c4) by (by eapply EndpointContract.EndpointContract.built_success).
  unfold EndpointContract.EndpointContract.success_json in E4. rewrite (proj2 (in_range_spec _ _ _) Hst), Hs3 in E4. cbn [negb] in E4. injection E4 as E4.
  destruct (EndpointContract.EndpointContract.known_problems_ok c4 (ec_problems contract) Hok) as (c5 & -> & Hid5 & Hm5 & Hpa5 & Hs5 & HB5 & Hpr5).
  specialize (HB5 HB4). cbn beta iota.
  destruct (EndpointContract.EndpointContract.build_total c5 (ec_success_status contract) (schema_for (ec_success contract))) as [v Hv].
  { by apply EndpointContract.EndpointContract.built_ok. }
  { rewrite Hs5. by rewrite <- E4. }
  exists v, c5. split; [done|]. split; [done|]. split; [done|]. subst c4. cbn in Hid5, Hm5, Hpa5, Hpr5.
  rewrite Hid5, Hm5, Hpa5, Hid3, Hm3, Hpa3. split_and!; try done. intros status code. rewrite Hpr5, Hpr3, lookup_empty. set_solver.
Qed.

(** The generated contract factory is total and exact. For a derived contract it fails only when a path or query type
    does not yield parameters; otherwise the contract it builds belongs to the handler's route and records, status by
    status, exactly the problems that were derived. *)
Lemma contract_factory_exact method metadata contract handler : derive_endpoint_contract method metadata = Ok contract ->
  let start := EndpointContract.EndpointContract.new (macro_id (h_route handler)) (macro_method (h_route handler)) (macro_path (h_route handler)) in
  (is_ok (contract_factory handler contract) = is_ok (
     let? c := match ec_path contract with Some ty => EndpointContract.EndpointContract.path_parameters start (schema_for ty) | None => Ok start end in
     match ec_query contract with Some ty => EndpointContract.EndpointContract.query_parameters c (schema_for ty) | None => Ok c end))
  /\ forall v, contract_factory handler contract = Ok v -> exists c, EndpointContract.EndpointContract.Built c
       /\ EndpointContract.EndpointContract.build c = Ok v
       /\ EndpointContract.EndpointContract.route_id c = macro_id (h_route handler)
       /\ EndpointContract.EndpointContract.method c = macro_method (h_route handler)
       /\ EndpointContract.EndpointContract.path c = macro_path (h_route handler)
       /\ forall status code, code ∈ default ∅ (EndpointContract.EndpointContract.problems c !! status) <-> (status, code) ∈ ec_problems contract.
Proof.
  intros (shape & _ & _ & _ & _ & _ & Hp & Hst)%derive_ok. unfold contract_factory.
  set (start := EndpointContract.EndpointContract.new _ _ _). cbn zeta.
  set (r1 := match ec_path contract with Some _ => _ | None => _ end).
  assert (Hr1 : forall c, r1 = Ok c -> Derived c start).
  { subst r1. destruct (ec_path contract); intros c Hc; [|injection Hc as <-; apply derived_start].
    eapply derived_path; [apply derived_start | exact Hc]. }
  destruct r1 as [c1|e]; [|done]. specialize (Hr1 _ eq_refl). cbn beta iota.
  set (r2 := match ec_query contract with Some _ => _ | None => _ end).
  assert (Hr2 : forall c, r2 = Ok c -> Derived c start).
  { subst r2. destruct (ec_query contract); intros c Hc; [|by injection Hc as <-]. by eapply derived_query. }
  destruct r2 as [c2|e]; [|done]. specialize (Hr2 _ eq_refl). cbn beta iota.
  destruct (finish_factory c2 start contract Hr2 Hp Hst) as (v & c & -> & Hc). split; [done|]. intros v' [= <-]. by exists c.
Qed.

End factory.

(** ** The generated code *)

(** [MiddlewareOutcome] of [authoring.rs] and its split. *)
Record MiddlewareOutcome (Ctx : Type) := mkOutcome { mo_next : option (Ctx * HandleRequest); mo_response : option HandleResponse }.
Arguments mkOutcome {Ctx}.
Arguments mo_next {Ctx}.
Arguments mo_response {Ctx}.

Definition next {Ctx} (context : Ctx) (request : HandleRequest) : MiddlewareOutcome Ctx := mkOutcome (Some (context, request)) None.
Definition response {Ctx} (response : HandleResponse) : MiddlewareOutcome Ctx := mkOutcome None (Some response).

Definition split_outcome {Ctx} (self : MiddlewareOutcome Ctx) : Outcome (Result HandleResponse (Ctx * HandleRequest)) :=
  match mo_next self, mo_response self with
  | Some next, None => Returned (Ok next)
  | None, Some response => Returned (Err response)
  | _, _ => Panicked
  end.

Section generated.
Context `{HttpCrate} {N : Type} `{Serde N} {Ctx X V : Type}.
Context (canonical_reason : StatusCode -> option str) (struct_to_vec : list (str * Value N) -> Result str str).
(** The deserialization of each type, the encoding of path parameters, and the extractors of other crates. *)
Context (json_decode form_decode : Ty -> str -> option V) (encode : list (str * str) -> option str).
Context (custom_extract : Ty -> Ctx -> HandleRequest -> X -> X * Ctx * Extracted V).
(** The methods of the provider: middleware, and handlers with their result lowered by [into_endpoint_result]. *)
Inductive ArgValue :=
| ContextValue (context : Ctx)
| RequestValue (request : HandleRequest)
| JsonValue (value : V)
| OptionalJsonValue (value : option V)
| PathValue (value : V)
| QueryValue (value : V)
| TextValue (text : str)
| HeadersValue (headers : list (str * str))
| CustomValue (value : V).
Context (middleware : str -> Ctx -> HandleRequest -> X -> X * Result EndpointHandleInvocationError (MiddlewareOutcome Ctx)).
Context (call : str -> list ArgValue -> X -> X * Outcome HandleOutcome).

(** An extractor with its value tagged. *)
Definition tagged {T} (tag : T -> ArgValue) (e : Extracted T) : Extracted ArgValue :=
  let^ r := e in Returned (result_map tag r).

Definition inner_type (ty : Ty) (expected : string) : Ty := match extractor_type_argument ty expected with Ok inner => inner | Err _ => OtherTy end.

(** [<ty as FromRequest<Self>>::from_request]: the extractors of the crate by the name of the type, others from outside. *)
Definition from_request (ty : Ty) (context : Ctx) (request : HandleRequest) (x : X) : X * Ctx * Extracted ArgValue :=
  if named "Json" ty then (x, context, tagged JsonValue (extract_json canonical_reason struct_to_vec (json_decode (inner_type ty "Json")) request)) else
  if named "Path" ty then (x, context, tagged PathValue (extract_path canonical_reason struct_to_vec encode (form_decode (inner_type ty "Path")) request)) else
  if named "QueryParams" ty then (x, context, tagged QueryValue (extract_query canonical_reason struct_to_vec (form_decode (inner_type ty "QueryParams")) request)) else
  if named "RequestId" ty then (x, context, tagged TextValue (extract_request_id request)) else
  if named "Body" ty then (x, context, tagged TextValue (extract_body request)) else
  if named "Headers" ty then (x, context, tagged HeadersValue (extract_headers request)) else
  if named "Option" ty && named "Json" (inner_type ty "Option") then
    (x, context, tagged OptionalJsonValue (extract_optional_json canonical_reason struct_to_vec (json_decode (inner_type (inner_type ty "Option") "Json")) request))
  else let '(x, context, e) := custom_extract ty context request x in (x, context, tagged CustomValue e).

(** The middleware steps; [Err] leaves the handler with that outcome. *)
Fixpoint middleware_steps (ms : list str) (context : Ctx) (request : HandleRequest) (x : X) :
    X * Outcome (Result HandleOutcome (Ctx * HandleRequest)) :=
  match ms with
  | [] => (x, Returned (Ok (context, request)))
  | m :: ms =>
      match middleware m context request x with
      | (x, Err error) => (x, Returned (Err (into_result (Err error))))
      | (x, Ok outcome) =>
          match split_outcome outcome with
          | Returned (Ok (context, request)) => middleware_steps ms context request x
          | Returned (Err response) => (x, Returned (Err (Ok (Ok response))))
          | Panicked => (x, Panicked)
          | Waiting => (x, Waiting)
          end
      end
  end.

(** The extractor steps, in the order of the arguments; they share the context. *)
Fixpoint extractor_steps (arguments : list (Ty * ArgumentKind)) (context : Ctx) (request : HandleRequest) (x : X) :
    X * Outcome (Result HandleOutcome (Ctx * list ArgValue)) :=
  match arguments with
  | [] => (x, Returned (Ok (context, [])))
  | (ty, ExtractorArgument) :: arguments =>
      match from_request ty context request x with
      | (x, context, Returned (Ok value)) =>
          match extractor_steps arguments context request x with
          | (x, Returned (Ok (context, values))) => (x, Returned (Ok (context, value :: values)))
          | r => r
          end
      | (x, _, Returned (Err (RejectedResponse response))) => (x, Returned (Err (Ok (Ok response))))
      | (x, _, Returned (Err (Invocation error))) => (x, Returned (Err (into_result (Err error))))
      | (x, _, Panicked) => (x, Panicked)
      | (x, _, Waiting) => (x, Waiting)
      end
  | _ :: arguments => extractor_steps arguments context request x
  end.

(** The arguments of the call: the context after all extractors, the request, the extracted values in order. *)
Fixpoint call_arguments (arguments : list (Ty * ArgumentKind)) (context : Ctx) (request : HandleRequest) (values : list ArgValue) : list ArgValue :=
  match arguments, values with
  | [], _ => []
  | (_, ContextArgument) :: arguments, _ => ContextValue context :: call_arguments arguments context request values
  | (_, RequestArgument) :: arguments, _ => RequestValue request :: call_arguments arguments context request values
  | (_, ExtractorArgument) :: arguments, value :: values => value :: call_arguments arguments context request values
  | (_, ExtractorArgument) :: _, [] => []
  end.

Definition dispatch_arm (handler : MacroHandler) (context : Ctx) (request : HandleRequest) (x : X) : X * Outcome HandleOutcome :=
  match middleware_steps (h_middlewares handler) context request x with
  | (x, Returned (Err outcome)) => (x, Returned outcome)
  | (x, Panicked) => (x, Panicked)
  | (x, Waiting) => (x, Waiting)
  | (x, Returned (Ok (context, request))) =>
      match extractor_steps (h_arguments handler) context request x with
      | (x, Returned (Err outcome)) => (x, Returned outcome)
      | (x, Panicked) => (x, Panicked)
      | (x, Waiting) => (x, Waiting)
      | (x, Returned (Ok (context, values))) => call (h_method handler) (call_arguments (h_arguments handler) context request values) x
      end
  end.

(** The generated [dispatch]. *)
Definition dispatch (routes : list MacroHandler) (context : Ctx) (request : HandleRequest) (x : X) : X * Outcome HandleOutcome :=
  match find (fun handler => bool_decide (macro_id (h_route handler) = hr_route_id request)) routes with
  | Some handler => dispatch_arm handler context request x
  | None => (x, Returned (Ok (Err Rejected)))
  end.

(** ** Strict contracts and extraction *)

Context `{!HttpLaws}.
#[local] Notation Rejects := (RejectsWith canonical_reason struct_to_vec).

Lemma rejects_tagged {T} (tag : T -> ArgValue) problems e : Rejects problems e -> Rejects problems (tagged tag e).
Proof.
  intros [[v ->]|(status & code & r & Hin & -> & Hp)]; [left; by eexists|]. right. by exists status, code, r.
Qed.

Lemma rejects_mono {T} problems problems' (e : Extracted T) : problems ⊆ problems' -> Rejects problems e -> Rejects problems' e.
Proof.
  intros Hs [Hv|(status & code & r & Hin & -> & Hp)]; [by left|]. right. exists status, code, r. auto.
Qed.

Lemma named_eq name ty : named name ty = true -> forall other, named other ty = bool_decide (lit name = lit other).
Proof.
  unfold named. intros ->%bool_decide_eq_true other. apply bool_decide_ext. split; [by intros [= ->] | by intros ->].
Qed.

(** What a strict contract knows about one extracted argument. *)
Definition Covered (problems : list ContractProblem) (ty : Ty) : Prop :=
  forall context request x, exists e, from_request ty context request x = (x, context, e) /\ Rejects problems e.

Lemma covered_mono problems problems' ty : problems ⊆ problems' -> Covered problems ty -> Covered problems' ty.
Proof. intros Hs Hc context request x. destruct (Hc context request x) as (e & -> & He). exists e. split; [done|]. by eapply rejects_mono. Qed.

Lemma add_input_covered s ty s' : ProblemsSerialize struct_to_vec -> add_input s (Typed ty) = Ok s' ->
  shape_problems s ⊆ shape_problems s' /\ (argument_kind ty = ExtractorArgument -> Covered (shape_problems s') ty).
Proof.
  intros Hser Ha. unfold add_input in Ha. unfold argument_kind.
  destruct (named "InvocationContext" ty) eqn:E1.
  { injection Ha as <-. by split. }
  destruct (named "RequestId" ty) eqn:E2.
  { injection Ha as <-. split; [done|]. intros _ context request x. unfold from_request. rewrite !(named_eq _ _ E2). cbn.
    eexists. split; [reflexivity|]. left. by eexists. }
  cbn [orb] in Ha. destruct (named "Path" ty) eqn:E3.
  { destruct (shape_path s); [done|]. inv_ok_step Ha. injection Ha as <-. cbn. split; [set_solver|]. intros _ context request x.
    unfold from_request. rewrite !(named_eq _ _ E3). cbn. eexists. split; [reflexivity|]. apply rejects_tagged.
    eapply rejects_mono; [|by apply extract_path_rejects]. set_solver. }
  destruct (named "QueryParams" ty) eqn:E4.
  { destruct (shape_query s); [done|]. inv_ok_step Ha. injection Ha as <-. cbn. split; [set_solver|]. intros _ context request x.
    unfold from_request. rewrite !(named_eq _ _ E4). cbn. eexists. split; [reflexivity|]. apply rejects_tagged.
    eapply rejects_mono; [|by apply extract_query_rejects]. set_solver. }
  destruct (named "Json" ty) eqn:E5.
  { destruct (shape_body s); [done|]. inv_ok_step Ha. injection Ha as <-. cbn. split; [unfold add_json_extractor_problems; set_solver|].
    intros _ context request x. unfold from_request. rewrite !(named_eq _ _ E5). cbn. eexists. split; [reflexivity|]. apply rejects_tagged.
    eapply rejects_mono; [|by apply extract_json_rejects]. unfold add_json_extractor_problems. set_solver. }
  destruct (named "Option" ty) eqn:E6; [|destruct (_ || _); done].
  destruct (extractor_type_argument ty "Option") as [inner|] eqn:Ei; [|done]. destruct (named "Json" inner) eqn:Ej; [|done].
  destruct (shape_body s); [done|]. inv_ok_step Ha. injection Ha as <-. cbn. split; [unfold add_json_extractor_problems; set_solver|].
  intros _ context request x. assert (Hin : inner_type ty "Option" = inner) by (unfold inner_type; by rewrite Ei).
  unfold from_request. rewrite !(named_eq _ _ E6), !Hin, Ej. cbn. eexists. split; [reflexivity|].
  apply rejects_tagged. eapply rejects_mono; [|by apply extract_optional_json_rejects]. unfold add_json_extractor_problems. set_solver.
Qed.

Definition typed_arguments (inputs : list FnArg) : list (Ty * ArgumentKind) :=
  omap (fun input => match input with Typed ty => Some (ty, argument_kind ty) | Receiver => None end) inputs.

Lemma add_inputs_covered inputs s s' : ProblemsSerialize struct_to_vec -> try_fold add_input s inputs = Ok s' ->
  shape_problems s ⊆ shape_problems s'
  /\ Forall (fun a => a.2 = ExtractorArgument -> Covered (shape_problems s') a.1) (typed_arguments inputs).
Proof.
  intros Hser. revert s; induction inputs as [|input inputs IH]; intros s; cbn [try_fold]; [intros [= <-]; by split|].
  intros Hf. inv_ok_step Hf. destruct (IH _ Hf) as [Hs Hall]. destruct input as [|ty].
  - injection E as <-. done.
  - apply add_input_covered in E as [Hs' Hc]; [|done]. split; [set_solver|]. unfold typed_arguments. cbn. constructor; [|done].
    cbn. intros Hk. by eapply covered_mono; [|apply Hc].
Qed.

Lemma extractor_steps_covered problems arguments context request x :
  Forall (fun a => a.2 = ExtractorArgument -> Covered problems a.1) arguments ->
  (exists values, extractor_steps arguments context request x = (x, Returned (Ok (context, values))))
  \/ exists status code r, (status, code) ∈ problems
       /\ extractor_steps arguments context request x = (x, Returned (Err (Ok (Ok r)))) /\ ProblemResponse canonical_reason struct_to_vec status code r.
Proof.
  induction 1 as [|[ty kind] arguments Hc _ IH]; cbn [extractor_steps]; [left; by eexists|]. cbn [fst snd] in Hc. destruct kind; [done | done|].
  destruct (Hc eq_refl context request x) as (e & He & [[v ->]|(status & code & r & Hin & -> & Hp)]); rewrite He.
  - destruct IH as [[values ->]|(status & code & r & Hin & -> & Hp)]; [left; by eexists|]. right. by exists status, code, r.
  - right. by exists status, code, r.
Qed.

(** ** Properties *)

(** C15: a strict contract lists every answer of the extraction. For a handler whose strict contract the macro derives, the
    extractor steps of the generated code either hand the handler all its arguments, with the context and the outside
    untouched, or answer with a problem whose status and code are in the contract; they neither panic nor fail otherwise. *)
Theorem strict_handler_answers method metadata contract arguments context request x :
  ProblemsSerialize struct_to_vec ->
  derive_endpoint_contract method metadata = Ok contract -> handler_arguments method = Ok arguments ->
  (exists values, extractor_steps arguments context request x = (x, Returned (Ok (context, values))))
  \/ exists status code r, (status, code) ∈ ec_problems contract
       /\ extractor_steps arguments context request x = (x, Returned (Err (Ok (Ok r))))
       /\ ProblemResponse canonical_reason struct_to_vec status code r.
Proof.
  intros Hser (shape & Hs & _ & _ & _ & Hsub & _)%derive_ok Ha. apply extractor_steps_covered.
  destruct (add_inputs_covered _ _ _ Hser Hs) as [_ Hc]. unfold handler_arguments in Ha. destruct (_ || _); [done|]. injection Ha as <-.
  eapply Forall_impl; [exact Hc|]. intros [ty kind] Hcov Hk. eapply covered_mono; [exact Hsub | by apply Hcov].
Qed.

End generated.

(** ** Witnesses *)

#[local] Existing Instance ref_http.
#[local] Existing Instance ref_http_laws.
#[local] Existing Instance ref_serde.

Definition simple (name : string) : Ty := PathTy [mkSegment (lit name) NoArguments].
Definition generic (name : string) (arguments : list Ty) : Ty :=
  PathTy [mkSegment (lit name) (AngleBracketed (TypeArgument <$> arguments))].

(** [async fn create(&self, path: Path<OrderPath>, body: Json<CreateOrder>) -> Result<(StatusCode, Json<Created>), Problem>]. *)
Definition sample_method : ImplItemFn := mkFn (lit "create")
  [Receiver; Typed (generic "Path" [simple "OrderPath"]); Typed (generic "Json" [simple "CreateOrder"])]
  (Some (generic "Result" [TupleTy [simple "StatusCode"; generic "Json" [simple "Created"]]; simple "Problem"])).
Definition sample_metadata : OpenApiContractMetadata := mkMetadata (Some (Ok 201%Z)) [(Ok 422%Z, lit "invalid_order")].

Definition sample_contract : EndpointContract :=
  mkEndpointContract (Some (simple "OrderPath")) None (Some (mkBody (simple "CreateOrder") true)) (simple "Created") 201
    [(400%Z, lit "invalid_path_parameters"); (400%Z, lit "invalid_json_body"); (415%Z, lit "json_content_type_required");
     (422%Z, lit "invalid_order")].
Definition sample_arguments : list (Ty * ArgumentKind) :=
  [(generic "Path" [simple "OrderPath"], ExtractorArgument); (generic "Json" [simple "CreateOrder"], ExtractorArgument)].

Definition sample_struct (fields : list (str * Value Z)) : Result str str := Ok (ref_to_string (Object fields)).
Definition no_reason (_ : StatusCode) : option str := None.
Definition decode (_ : Ty) (text : str) : option str := Some text.
Definition encode_values (parameters : list (str * str)) : option str := Some (concat parameters.*2).
Definition no_custom (_ : Ty) (context : unit) (_ : HandleRequest) (x : unit) : unit * unit * Extracted str := (x, context, Panicked).

Lemma sample_struct_serializes : ProblemsSerialize sample_struct.
Proof. done. Qed.

(** A request without a content type. *)
Definition sample_request : HandleRequest := mkHandleRequest [] None [] (lit "POST") (lit "/orders/7") [(lit "order_id", lit "7")] None
  (lit "lenso-1") (lit "orders.create").

Lemma strict_handler_answers_witness :
  (exists values, extractor_steps no_reason sample_struct decode decode encode_values no_custom sample_arguments tt sample_request tt
                  = (tt, Returned (Ok (tt, values))))
  \/ exists status code r, (status, code) ∈ ec_problems sample_contract
       /\ extractor_steps no_reason sample_struct decode decode encode_values no_custom sample_arguments tt sample_request tt
          = (tt, Returned (Err (Ok (Ok r))))
       /\ ProblemResponse no_reason sample_struct status code r.
Proof.
  apply (strict_handler_answers no_reason sample_struct decode decode encode_values no_custom sample_method sample_metadata
    sample_contract sample_arguments tt sample_request tt sample_struct_serializes); vm_compute; reflexivity.
Defined.

Definition sample_handler : MacroHandler :=
  mkHandler (mkMacroRoute (lit "POST") (lit "orders.create") (lit "/orders/{order_id}") None) [] (lit "create") sample_arguments
    (Some sample_contract).
Definition sample_schema_for (_ : Ty) : Value Z := EndpointContract.EndpointContract.id_schema.

Example sample_factory_builds :
  is_ok (contract_factory (fun _ => EndpointContract.EndpointContract.id_schema)
    (mkHandler (mkMacroRoute (lit "POST") (lit "orders.create") (lit "/orders/{order_id}") None) [] (lit "create")
       sample_arguments (Some sample_contract)) sample_contract) = true.
Proof. vm_compute. reflexivity. Qed.
End EndpointMacro.
