(* ===== verification/MacroSyntax.v ===== *)
(** * The syntax of the macro's attributes ([lenso-capability-http-endpoint-macros/src/lib.rs])

    The parsers of the attributes: the JSON-like object syntax of an operation, the metadata of a strict contract, the
    arguments of a route. Their input is the token trees of [proc_macro]; the tokens a procedural macro may see inside
    invisible groups are left out. The primitive parsers are [syn]'s: operations with their documented behaviour as laws
    ([Syn], [SynLaws]). Errors lose their source positions. *)
From S2P Require Import Prelude RustStd Json.
From S2P Require EndpointMacro.

(** ** Tokens *)

Inductive Delimiter := Parenthesis | Brace | Bracket.
#[global] Instance Delimiter_eq_dec : EqDecision Delimiter.
Proof. solve_decision. Defined.

(** [syn::Lit], with the text of a number; [LitBool] is only what parsing makes of an identifier. *)
Inductive Lit := LitStr (value : str) | LitInt (text : str) | LitFloat (text : str) | LitBool (value : bool) | LitOther (text : str).

Inductive Token :=
| Group (delimiter : Delimiter) (content : list Token)
| Ident (name : str)
| Punct (c : ascii)
| Literal (l : Lit).

Abbreviation Stream := (list Token) (only parsing).

(** How many tokens, through all groups. *)
Fixpoint token_size (t : Token) : nat :=
  match t with
  | Group _ content => S ((fix go l := match l with [] => 0 | t :: l => token_size t + go l end) content)
  | _ => 1
  end.
Definition size (s : Stream) : nat := foldr (fun t n => token_size t + n) 0 s.

(** The parsers of the macro are given fuel; running out of it is no error of the macro. *)
Inductive ParseError := SynError (message : str) | OutOfFuel.
Definition Parser (A : Type) : Type := Stream -> Result ParseError (A * Stream).
Definition Consumes {A} (p : Parser A) : Prop := forall s a rest, p s = Ok (a, rest) -> size rest < size s.
Definition syn {A} (r : Result str A) : Result ParseError A := map_err SynError r.

(** The tokens of a literal: a number may carry its sign. *)
Inductive LitTokens : list Token -> Lit -> Prop :=
| plain_lit l : LitTokens [Literal l] l
| bool_lit b : LitTokens [Ident (if b : bool then lit "true" else lit "false")] (LitBool b)
| negative_int text : LitTokens [Punct "-"; Literal (LitInt text)] (LitInt ("-"%char :: text))
| negative_float text : LitTokens [Punct "-"; Literal (LitFloat text)] (LitFloat ("-"%char :: text)).

(** ** [syn] *)

Class Syn := {
  keyword : str -> bool;
  unraw : str -> str;
  (** The tokens of a literal as text. *)
  lit_source : Lit -> str;
  base10_parse_u16 : str -> Result str Z;
  peek_lit_str : Stream -> bool;
  peek_lit_bool : Stream -> bool;
  peek_ident_any : Stream -> bool;
  peek_group : Delimiter -> Stream -> bool;
  peek_punct : ascii -> Stream -> bool;
  parse_lit_str : Stream -> Result str (str * Stream);
  parse_lit_int : Stream -> Result str (str * Stream);
  parse_lit : Stream -> Result str (Lit * Stream);
  parse_ident : Stream -> Result str (str * Stream);
  parse_ident_any : Stream -> Result str (str * Stream);
  parse_punct : ascii -> Stream -> Result str Stream;
  parse_group : Delimiter -> Stream -> Result str (Stream * Stream);
  (** [Punctuated::<_, Token![,]>::parse_terminated]. *)
  parse_terminated {A} : Parser A -> Stream -> Result ParseError (list A);
  (** The message for tokens left over. *)
  unexpected : Stream -> str;
}.

Definition is_bool_name (name : str) : Prop := name = lit "true" \/ name = lit "false".

Class SynLaws `{Syn} : Prop := {
  peek_lit_str_spec s : peek_lit_str s = true <-> exists v rest, s = Literal (LitStr v) :: rest;
  peek_lit_bool_spec s : peek_lit_bool s = true <-> exists name rest, s = Ident name :: rest /\ is_bool_name name;
  peek_ident_any_spec s : peek_ident_any s = true <-> exists name rest, s = Ident name :: rest;
  peek_group_spec d s : peek_group d s = true <-> exists content rest, s = Group d content :: rest;
  peek_punct_spec c s : peek_punct c s = true <-> exists rest, s = Punct c :: rest;
  parse_lit_str_spec s v rest : parse_lit_str s = Ok (v, rest) <-> s = Literal (LitStr v) :: rest;
  parse_lit_int_spec s text rest : parse_lit_int s = Ok (text, rest) <-> exists ts, s = ts ++ rest /\ LitTokens ts (LitInt text);
  parse_lit_spec s l rest : parse_lit s = Ok (l, rest) <-> exists ts, s = ts ++ rest /\ LitTokens ts l;
  parse_ident_spec s name rest : parse_ident s = Ok (name, rest) <-> s = Ident name :: rest /\ keyword name = false;
  parse_ident_any_spec s name rest : parse_ident_any s = Ok (name, rest) <-> s = Ident name :: rest;
  parse_punct_spec c s rest : parse_punct c s = Ok rest <-> s = Punct c :: rest;
  parse_group_spec d s content rest : parse_group d s = Ok (content, rest) <-> s = Group d content :: rest;
  parse_terminated_eq {A} (p : Parser A) s : Consumes p ->
    parse_terminated p s
    = (if is_empty s then Ok [] else
       let? (a, s) := p s in
       if is_empty s then Ok [a] else
       let? s := syn (parse_punct "," s) in
       let? l := parse_terminated p s in
       Ok (a :: l));
}.

Module MacroSyntax.
Import Json.

(** ** The parsers of the macro *)

Section parsers.
Context {N : Type} `{Serde N} `{Syn}.
(** [str::parse::<serde_json::Number>]. *)
Context (number_from_str : str -> option N).

Definition parse_number_literal (literal : Lit) (negative : bool) : Result ParseError (Value N) :=
  let source := filter (fun c => c <> " "%char) (lit_source literal) in
  let source := if negative then "-"%char :: source else source in
  let! number := number_from_str source else Err (SynError (lit "OpenAPI numeric values must be unsuffixed JSON numbers")) in
  Ok (Number number).

Definition parse_literal (literal : Lit) : Result ParseError (Value N) :=
  match literal with
  | LitStr value => Ok (String value)
  | LitBool value => Ok (Bool value)
  | LitInt _ | LitFloat _ => parse_number_literal literal false
  | LitOther _ => Err (SynError (lit "OpenAPI metadata supports JSON string, number, boolean, null, array, and object values"))
  end.

Definition parse_object_key (s : Stream) : Result ParseError (str * Stream) :=
  if peek_lit_str s then syn (parse_lit_str s) else let? (key, s) := syn (parse_ident_any s) in Ok (unraw key, s).

(** The loop of [parse_object_entries]; [parse_value] is [parse_json_value]. *)
Fixpoint parse_entries (parse_value : Parser (Value N)) (fuel : nat) (object : Map N) (s : Stream) : Result ParseError (Map N) :=
  match fuel with
  | O => Err OutOfFuel
  | S fuel =>
      if is_empty s then Ok object else
      let? (key, s) := parse_object_key s in
      let? s := syn (parse_punct ":" s) in
      let? (value, s) := parse_value s in
      if map_contains_key key object then Err (SynError (lit "duplicate OpenAPI object key `" ++ key ++ lit "`")) else
      let object := map_insert key value object in
      if is_empty s then Ok object else
      let? s := syn (parse_punct "," s) in
      parse_entries parse_value fuel object s
  end.

Fixpoint parse_json_value (fuel : nat) (s : Stream) : Result ParseError (Value N * Stream) :=
  match fuel with
  | O => Err OutOfFuel
  | S fuel =>
      if peek_group Brace s then
        let? (content, s) := syn (parse_group Brace s) in
        let? object := parse_entries (parse_json_value fuel) fuel [] content in
        Ok (Object object, s)
      else if peek_group Bracket s then
        let? (content, s) := syn (parse_group Bracket s) in
        let? values := parse_terminated (parse_json_value fuel) content in
        Ok (Array values, s)
      else if peek_punct "-" s then
        let? s := syn (parse_punct "-" s) in
        let? (literal, s) := syn (parse_lit s) in
        let? value := parse_number_literal literal true in
        Ok (value, s)
      else if peek_lit_bool s then
        let? (literal, s) := syn (parse_lit s) in
        let? value := parse_literal literal in
        Ok (value, s)
      else if peek_ident_any s then
        let? (ident, s) := syn (parse_ident_any s) in
        if bool_decide (ident = lit "null") then Ok (Null, s) else Err (SynError (lit "expected a JSON value"))
      else
        let? (literal, s) := syn (parse_lit s) in
        let? value := parse_literal literal in
        Ok (value, s)
  end.

(** Fuel for a stream: more than its tokens. *)
Definition parse_object_entries (s : Stream) : Result ParseError (Map N) :=
  parse_entries (parse_json_value (S (size s))) (S (size s)) [] s.

Definition parse_open_api_object (s : Stream) : Result ParseError (Map N * Stream) :=
  let? (content, s) := syn (parse_group Brace s) in
  let? object := parse_object_entries content in
  Ok (object, s).

Definition parse_open_api_operation (s : Stream) : Result ParseError (EndpointMacro.EndpointMacro.OpenApiOperation (N := N) * Stream) :=
  if peek_lit_str s then let? (operation, s) := syn (parse_lit_str s) in Ok (EndpointMacro.EndpointMacro.JsonOperation operation, s)
  else let? (object, s) := parse_open_api_object s in Ok (EndpointMacro.EndpointMacro.ObjectOperation object, s).

Definition parse_contract_error (s : Stream) : Result ParseError ((EndpointMacro.EndpointMacro.LitInt * str) * Stream) :=
  let? (content, s) := syn (parse_group Parenthesis s) in
  let? (status, content) := syn (parse_lit_int content) in
  let? content := syn (parse_punct "," content) in
  let? (code, content) := syn (parse_lit_str content) in
  if negb (is_empty content) then Err (SynError (lit "a strict OpenAPI error is `(status, " ++ "034"%char :: lit "code" ++ "034"%char :: lit ")`")) else
  Ok ((base10_parse_u16 status, code), s).

(** The loop over the keys. *)
Fixpoint parse_metadata (fuel : nat) (metadata : EndpointMacro.EndpointMacro.OpenApiContractMetadata) (errors_seen : bool) (s : Stream) :
    Result ParseError EndpointMacro.EndpointMacro.OpenApiContractMetadata :=
  let set_success success := EndpointMacro.EndpointMacro.mkMetadata (Some success) (EndpointMacro.EndpointMacro.meta_errors metadata) in
  let set_errors errors := EndpointMacro.EndpointMacro.mkMetadata (EndpointMacro.EndpointMacro.meta_success metadata) errors in
  match fuel with
  | O => Err OutOfFuel
  | S fuel =>
      if is_empty s then Ok metadata else
      let? (key, s) := syn (parse_ident s) in
      let? s := syn (parse_punct "=" s) in
      let? (metadata, errors_seen, s) :=
        if bool_decide (key = lit "success") then
          match EndpointMacro.EndpointMacro.meta_success metadata with
          | Some _ => Err (SynError (lit "duplicate openapi_contract success"))
          | None => let? (success, s) := syn (parse_lit_int s) in Ok (set_success (base10_parse_u16 success), errors_seen, s)
          end
        else if bool_decide (key = lit "errors") then
          if errors_seen then Err (SynError (lit "duplicate openapi_contract errors")) else
          let? (content, s) := syn (parse_group Bracket s) in
          let? errors := parse_terminated parse_contract_error content in
          Ok (set_errors errors, true, s)
        else Err (SynError (lit "openapi_contract accepts only `success` and `errors`")) in
      let? s := if is_empty s then Ok s else syn (parse_punct "," s) in
      parse_metadata fuel metadata errors_seen s
  end.

Definition parse_contract_metadata (s : Stream) : Result ParseError EndpointMacro.EndpointMacro.OpenApiContractMetadata :=
  parse_metadata (S (size s)) (EndpointMacro.EndpointMacro.mkMetadata None []) false s.

(** ** Attributes *)

(** [syn::Meta]: a path alone, a path with arguments, or a name with a value. *)
Inductive Meta := MetaPath | MetaList (tokens : Stream) | MetaNameValue.

(** [Attribute::parse_args]: the parser must take all arguments. *)
Definition parse_args_with {A} (p : Parser A) (no_arguments : str) (meta : Meta) : Result ParseError A :=
  match meta with
  | MetaList tokens => let? (a, rest) := p tokens in if is_empty rest then Ok a else Err (SynError (unexpected rest))
  | _ => Err (SynError no_arguments)
  end.

(** A parser that takes everything or fails. *)
Definition whole {A} (p : Stream -> Result ParseError A) : Parser A := fun s => let? a := p s in Ok (a, []).

Definition message {A} (r : Result ParseError A) : Result str A :=
  map_err (fun e => match e with SynError message => message | OutOfFuel => [] end) r.

(** What the macro takes from an attribute, as its argument parsers yield it. *)
Definition attribute (no_arguments : str) (path : str) (meta : Meta) : EndpointMacro.EndpointMacro.Attribute (N := N) :=
  EndpointMacro.EndpointMacro.mkAttribute path (match meta with MetaPath => true | _ => false end)
    (message (parse_args_with (whole (parse_terminated (fun s => syn (parse_ident s)))) no_arguments meta))
    (message (parse_args_with parse_open_api_operation no_arguments meta))
    (message (parse_args_with (whole parse_contract_metadata) no_arguments meta))
    (message (parse_args_with (whole (parse_terminated (fun s => syn (parse_lit_str s)))) no_arguments meta)).
End parsers.

(** Writing a value: [number_tokens] is how numbers are written. *)
Fixpoint tokens_of {N} (number_tokens : N -> Stream) (v : Value N) : Stream :=
  match v with
  | Null => [Ident (lit "null")]
  | Bool b => [Ident (if b then lit "true" else lit "false")]
  | Number n => number_tokens n
  | String s => [Literal (LitStr s)]
  | Array l => [Group Bracket (concat ((fun v => tokens_of number_tokens v ++ [Punct ","]) <$> l))]
  | Object m => [Group Brace (concat ((fun f => [Literal (LitStr f.1); Punct ":"] ++ tokens_of number_tokens f.2 ++ [Punct ","]) <$> m))]
  end.

(** ** The grammar *)

Section grammar.
Context {N : Type} `{Serde N} `{Syn} (number_from_str : str -> option N).

Inductive KeyTokens : list Token -> str -> Prop :=
| string_key key : KeyTokens [Literal (LitStr key)] key
| ident_key name : KeyTokens [Ident name] (unraw name).

(** A value as tokens; the entries of an object in the order they are inserted, the last comma being optional. *)
Inductive Spells : list Token -> Value N -> Prop :=
| spell_object content object : SpellsEntries content [] object -> Spells [Group Brace content] (Object object)
| spell_array content values : SpellsElements content values -> Spells [Group Bracket content] (Array values)
| spell_negative ts literal value : LitTokens ts literal -> parse_number_literal number_from_str literal true = Ok value ->
    Spells (Punct "-" :: ts) value
| spell_bool b : Spells [Ident (if b : bool then lit "true" else lit "false")] (Bool b)
| spell_null : Spells [Ident (lit "null")] Null
| spell_literal literal value : parse_literal number_from_str literal = Ok value -> Spells [Literal literal] value
with SpellsEntries : list Token -> Map N -> Map N -> Prop :=
| no_entries object : SpellsEntries [] object object
| last_entry ks key ts value object : KeyTokens ks key -> Spells ts value -> map_get key object = None ->
    SpellsEntries (ks ++ Punct ":" :: ts) object (map_insert key value object)
| more_entries ks key ts value object rest object' : KeyTokens ks key -> Spells ts value -> map_get key object = None ->
    SpellsEntries rest (map_insert key value object) object' ->
    SpellsEntries (ks ++ Punct ":" :: ts ++ Punct "," :: rest) object object'
with SpellsElements : list Token -> list (Value N) -> Prop :=
| no_elements : SpellsElements [] []
| last_element ts value : Spells ts value -> SpellsElements ts [value]
| more_elements ts value rest values : Spells ts value -> SpellsElements rest values ->
    SpellsElements (ts ++ Punct "," :: rest) (value :: values).

Scheme Spells_mut := Induction for Spells Sort Prop
  with SpellsEntries_mut := Induction for SpellsEntries Sort Prop
  with SpellsElements_mut := Induction for SpellsElements Sort Prop.
Combined Scheme Spells_all from Spells_mut, SpellsEntries_mut, SpellsElements_mut.
End grammar.

(** ** Lemmas *)

Lemma size_app a b : size (a ++ b) = size a + size b.
Proof. unfold size. induction a as [|t a IH]; [done|]. cbn [foldr app]. lia. Qed.
Lemma size_cons t s : size (t :: s) = token_size t + size s.
Proof. done. Qed.
Lemma token_size_group d content : token_size (Group d content) = S (size content).
Proof. reflexivity. Qed.
Lemma token_size_pos t : 1 <= token_size t.
Proof. destruct t; cbn; lia. Qed.
Lemma lit_tokens_size ts l : LitTokens ts l -> 1 <= size ts.
Proof. destruct 1; cbn; lia. Qed.

#[local] Ltac sizes := repeat progress (rewrite ?size_app, ?size_cons, ?token_size_group in *); cbn [token_size size foldr] in *; try lia.

Lemma syn_ok {A} (r : Result str A) a : syn r = Ok a <-> r = Ok a.
Proof. destruct r; cbn; split; congruence. Qed.
Lemma syn_fuel {A} (r : Result str A) : syn r <> Err OutOfFuel.
Proof. by destruct r. Qed.
Lemma bool_name_inj (b b' : bool) : (if b then lit "true" else lit "false") = (if b' then lit "true" else lit "false") -> b = b'.
Proof. destruct b, b'; done. Qed.

Section laws.
Context {N : Type} `{Serde N} `{Syn} `{!SynLaws} (number_from_str : str -> option N).

Abbreviation Spells := (Spells number_from_str) (only parsing).
Abbreviation SpellsEntries := (SpellsEntries number_from_str) (only parsing).
Abbreviation SpellsElements := (SpellsElements number_from_str) (only parsing).
Abbreviation parse_json_value := (parse_json_value number_from_str) (only parsing).

Lemma spells_size ts v : Spells ts v -> 1 <= size ts.
Proof. destruct 1; sizes. Qed.

Lemma parse_object_key_exact s key rest : parse_object_key s = Ok (key, rest) <-> exists ks, s = ks ++ rest /\ KeyTokens ks key.
Proof.
  unfold parse_object_key. destruct (peek_lit_str s) eqn:Ep.
  - apply peek_lit_str_spec in Ep as (v & r & ->). rewrite syn_ok, parse_lit_str_spec. split.
    + intros [= -> ->]. eexists [_]. split; [done | constructor].
    + intros (ks & He & Hk). destruct Hk; cbn in He; by simplify_eq.
  - destruct (syn (parse_ident_any s)) as [[name r]|e] eqn:Ei.
    + apply syn_ok, parse_ident_any_spec in Ei as ->. split; [intros [= <- <-]; eexists [_]; split; [done | constructor]|].
      intros (ks & He & Hk). destruct Hk; cbn in He; by simplify_eq.
    + split; [done|]. intros (ks & -> & Hk). destruct Hk as [key|name].
      * by rewrite (proj2 (peek_lit_str_spec _)) in Ep by by do 2 eexists.
      * by rewrite (proj2 (syn_ok _ (name, rest)) (proj2 (parse_ident_any_spec _ _ _) eq_refl)) in Ei.
Qed.

Lemma key_size ks key : KeyTokens ks key -> 1 <= size ks.
Proof. destruct 1; sizes. Qed.

(** *** What is parsed is in the grammar *)

Definition Sound (p : Parser (Value N)) : Prop := forall s v rest, p s = Ok (v, rest) -> exists ts, s = ts ++ rest /\ Spells ts v.

Lemma sound_consumes p : Sound p -> Consumes p.
Proof. intros Hp s v rest (ts & -> & Hs)%Hp. apply spells_size in Hs. sizes. Qed.

Lemma entries_sound p fuel object s m : Sound p -> parse_entries p fuel object s = Ok m -> SpellsEntries s object m.
Proof.
  intros Hp. revert object s. induction fuel as [|fuel IH]; intros object s He; [done|]. cbn [parse_entries] in He.
  destruct s as [|t s]; [injection He as <-; constructor|]. cbn [is_empty] in He. set (s0 := t :: s) in *.
  destruct (parse_object_key s0) as [[key s1]|e] eqn:Ek; [|done]. apply parse_object_key_exact in Ek as (ks & -> & Hk).
  destruct (syn (parse_punct ":" s1)) as [s2|e] eqn:Ec; [|done]. apply syn_ok, parse_punct_spec in Ec as ->.
  destruct (p s2) as [[v s3]|e] eqn:Ev; [|done]. apply Hp in Ev as (ts & -> & Hs).
  unfold map_contains_key in He. destruct (map_get key object) eqn:Eg; [done|].
  destruct s3 as [|t3 s3]; [injection He as <-; rewrite app_nil_r; by constructor|]. cbn [is_empty] in He.
  destruct (syn (parse_punct "," (t3 :: s3))) as [s4|e] eqn:E4; [|done]. apply syn_ok, parse_punct_spec in E4 as ->.
  econstructor; [done | done | done | by apply IH].
Qed.

Lemma elements_sound p s l : Sound p -> parse_terminated p s = Ok l -> SpellsElements s l.
Proof.
  intros Hp. remember (size s) as n eqn:Hn. revert s l Hn. induction n as [n IH] using lt_wf_ind. intros s l -> He.
  rewrite parse_terminated_eq in He by by apply sound_consumes. destruct s as [|t s]; [injection He as <-; constructor|].
  cbn [is_empty] in He. set (s0 := t :: s) in *.
  destruct (p s0) as [[v s1]|e] eqn:Ev; [|done]. apply Hp in Ev as (ts & Hs0 & Hs).
  destruct s1 as [|t1 s1]; [injection He as <-; rewrite Hs0, app_nil_r; by constructor|]. cbn [is_empty] in He.
  destruct (syn (parse_punct "," (t1 :: s1))) as [s2|e] eqn:E2; [|done]. apply syn_ok, parse_punct_spec in E2. rewrite E2 in Hs0.
  destruct (parse_terminated p s2) as [vs|e] eqn:Et; [|done]. injection He as <-. rewrite Hs0.
  constructor; [done|]. eapply (IH (size s2)); [rewrite Hs0; apply spells_size in Hs; sizes | done | done].
Qed.

Lemma value_sound fuel : Sound (parse_json_value fuel).
Proof.
  induction fuel as [|fuel IH]; intros s v rest He; [done|]. cbn [MacroSyntax.parse_json_value] in He.
  destruct (peek_group Brace s) eqn:Eb.
  { destruct (syn (parse_group Brace s)) as [[content s1]|e] eqn:Eg; [|done]. apply syn_ok, parse_group_spec in Eg as ->.
    destruct (parse_entries _ _ _ _) as [m|e] eqn:Ee; [|done]. injection He as <- <-. eexists [_]. split; [done|].
    constructor. by eapply entries_sound. }
  destruct (peek_group Bracket s) eqn:Ek.
  { destruct (syn (parse_group Bracket s)) as [[content s1]|e] eqn:Eg; [|done]. apply syn_ok, parse_group_spec in Eg as ->.
    destruct (parse_terminated _ _) as [l|e] eqn:Ee; [|done]. injection He as <- <-. eexists [_]. split; [done|].
    constructor. by eapply elements_sound. }
  destruct (peek_punct "-" s) eqn:Em.
  { destruct (syn (parse_punct "-" s)) as [s1|e] eqn:Ep; [|done]. apply syn_ok, parse_punct_spec in Ep as ->.
    destruct (syn (parse_lit s1)) as [[l s2]|e] eqn:El; [|done]. apply syn_ok, parse_lit_spec in El as (ts & -> & Hl).
    destruct (parse_number_literal _ l true) as [n|e] eqn:En; [|done]. injection He as <- <-. exists (Punct "-" :: ts). split; [done|].
    by econstructor. }
  destruct (peek_lit_bool s) eqn:El.
  { apply peek_lit_bool_spec in El as (name & r & -> & Hname). destruct (syn (parse_lit _)) as [[l s2]|e] eqn:Ep; [|done].
    apply syn_ok, parse_lit_spec in Ep as (ts & Hts & Hl).
    destruct Hl as [l|b|text|text]; try done. injection Hts as -> ->. injection He as <- <-.
    eexists [_]. split; [done | constructor]. }
  destruct (peek_ident_any s) eqn:Ei.
  { destruct (syn (parse_ident_any s)) as [[name r]|e] eqn:Ep; [|done]. apply syn_ok, parse_ident_any_spec in Ep as ->.
    case_bool_decide; [|done]. subst. injection He as <- <-. eexists [_]. split; [done | constructor]. }
  destruct (syn (parse_lit s)) as [[l s2]|e] eqn:Ep; [|done]. apply syn_ok, parse_lit_spec in Ep as (ts & -> & Hl).
  destruct (parse_literal _ l) as [w|e] eqn:Ew; [|done]. injection He as <- <-. exists ts. split; [done|].
  destruct Hl as [l|b|text|text]; [by constructor|..].
  - by rewrite (proj2 (peek_ident_any_spec _)) in Ei by (by do 2 eexists).
  - by rewrite (proj2 (peek_punct_spec _ _)) in Em by (by eexists).
  - by rewrite (proj2 (peek_punct_spec _ _)) in Em by (by eexists).
Qed.

Lemma value_consumes fuel : Consumes (parse_json_value fuel).
Proof. apply sound_consumes, value_sound. Qed.
(** *** What is in the grammar is parsed *)

Lemma spells_complete :
  (forall ts v, Spells ts v -> forall fuel rest, size ts < fuel -> parse_json_value fuel (ts ++ rest) = Ok (v, rest))
  /\ (forall s object m, SpellsEntries s object m -> forall fuel fuel', size s < fuel -> size s < fuel' ->
        parse_entries (parse_json_value fuel) fuel' object s = Ok m)
  /\ (forall s l, SpellsElements s l -> forall fuel, size s < fuel -> parse_terminated (parse_json_value fuel) s = Ok l).
Proof.
  assert (Hne : forall d s, (forall c r, s <> Group d c :: r) -> peek_group d s = false).
  { intros d s Hs. apply not_true_iff_false. intros (c & r & ->)%peek_group_spec. by eapply Hs. }
  assert (Hnp : forall c s, (forall r, s <> Punct c :: r) -> peek_punct c s = false).
  { intros c s Hs. apply not_true_iff_false. intros (r & ->)%peek_punct_spec. by eapply Hs. }
  assert (Hnb : forall s, (forall n r, is_bool_name n -> s <> Ident n :: r) -> peek_lit_bool s = false).
  { intros s Hs. apply not_true_iff_false. intros (n & r & -> & Hn)%peek_lit_bool_spec. by eapply Hs. }
  assert (Hni : forall s, (forall n r, s <> Ident n :: r) -> peek_ident_any s = false).
  { intros s Hs. apply not_true_iff_false. intros (n & r & ->)%peek_ident_any_spec. by eapply Hs. }
  apply Spells_all.
  - intros content object _ IH fuel rest Hf. destruct fuel as [|fuel]; [sizes|]. cbn [MacroSyntax.parse_json_value app].
    rewrite (proj2 (peek_group_spec _ _)), (proj2 (syn_ok _ _) (proj2 (parse_group_spec _ _ _ _) eq_refl)) by by do 2 eexists.
    rewrite IH by sizes. done.
  - intros content l _ IH fuel rest Hf. destruct fuel as [|fuel]; [sizes|]. cbn [MacroSyntax.parse_json_value app].
    rewrite Hne by done. rewrite (proj2 (peek_group_spec _ _)), (proj2 (syn_ok _ _) (proj2 (parse_group_spec _ _ _ _) eq_refl)) by by do 2 eexists.
    rewrite IH by sizes. done.
  - intros ts l v Hl Hv fuel rest Hf. destruct fuel as [|fuel]; [sizes|]. cbn [MacroSyntax.parse_json_value app].
    rewrite !Hne by done. rewrite (proj2 (peek_punct_spec _ _)), (proj2 (syn_ok _ _) (proj2 (parse_punct_spec _ _ _) eq_refl)) by by eexists.
    rewrite (proj2 (syn_ok _ (l, rest))) by (apply parse_lit_spec; by exists ts). by rewrite Hv.
  - intros b fuel rest Hf. destruct fuel as [|fuel]; [sizes|]. cbn [MacroSyntax.parse_json_value app].
    rewrite !Hne, Hnp by done. rewrite (proj2 (peek_lit_bool_spec _)) by (do 2 eexists; split; [done | destruct b; [by left | by right]]).
    rewrite (proj2 (syn_ok _ (LitBool b, rest))) by (apply parse_lit_spec; eexists; split; [|constructor]; done). done.
  - intros fuel rest Hf. destruct fuel as [|fuel]; [sizes|]. cbn [MacroSyntax.parse_json_value app].
    rewrite !Hne, Hnp, Hnb by (try done; intros n r [-> | ->]; done).
    rewrite (proj2 (peek_ident_any_spec _)), (proj2 (syn_ok _ _) (proj2 (parse_ident_any_spec _ _ _) eq_refl)) by by do 2 eexists.
    by rewrite bool_decide_true.
  - intros l v Hv fuel rest Hf. destruct fuel as [|fuel]; [sizes|]. cbn [MacroSyntax.parse_json_value app].
    rewrite !Hne, Hnp, Hnb, Hni by done.
    rewrite (proj2 (syn_ok _ (l, rest))) by (apply parse_lit_spec; eexists; split; [|constructor]; done). by rewrite Hv.
  - intros object fuel fuel' _ Hf. by destruct fuel'; [sizes|].
  - intros ks key ts v object Hk Hs IH Hg fuel fuel' Hf Hf'. destruct fuel' as [|fuel']; [sizes|]. cbn [parse_entries].
    pose proof (key_size _ _ Hk) as Hks. pose proof (spells_size _ _ Hs) as Hts.
    destruct (ks ++ Punct ":" :: ts) as [|t s0] eqn:Es; [by destruct ks|]. cbn [is_empty]. rewrite <- Es in *. clear Es t s0.
    rewrite (proj2 (parse_object_key_exact _ key (Punct ":" :: ts))) by by exists ks.
    rewrite (proj2 (syn_ok _ _) (proj2 (parse_punct_spec _ _ _) eq_refl)). rewrite <- (app_nil_r ts), IH by sizes.
    unfold map_contains_key. by rewrite Hg.
  - intros ks key ts v object rest object' Hk Hs IH Hg _ IHr fuel fuel' Hf Hf'. destruct fuel' as [|fuel']; [sizes|]. cbn [parse_entries].
    pose proof (key_size _ _ Hk) as Hks. pose proof (spells_size _ _ Hs) as Hts.
    destruct (ks ++ Punct ":" :: ts ++ Punct "," :: rest) as [|t s0] eqn:Es; [by destruct ks|]. cbn [is_empty]. rewrite <- Es in *. clear Es t s0.
    rewrite (proj2 (parse_object_key_exact _ key (Punct ":" :: ts ++ Punct "," :: rest))) by by exists ks.
    rewrite (proj2 (syn_ok _ _) (proj2 (parse_punct_spec _ _ _) eq_refl)), IH by sizes.
    unfold map_contains_key. rewrite Hg. cbn [is_empty]. rewrite (proj2 (syn_ok _ _) (proj2 (parse_punct_spec _ _ _) eq_refl)).
    apply IHr; sizes.
  - intros fuel _. by rewrite parse_terminated_eq by apply value_consumes.
  - intros ts v Hs IH fuel Hf. rewrite parse_terminated_eq by apply value_consumes. pose proof (spells_size _ _ Hs) as Hts.
    destruct ts as [|t s0] eqn:Es; [sizes|]. cbn [is_empty]. rewrite <- Es in *. clear Es t s0.
    rewrite <- (app_nil_r ts), IH by sizes. done.
  - intros ts v rest l Hs IH _ IHr fuel Hf. rewrite parse_terminated_eq by apply value_consumes. pose proof (spells_size _ _ Hs) as Hts.
    destruct (ts ++ Punct "," :: rest) as [|t s0] eqn:Es; [by destruct ts|]. cbn [is_empty]. rewrite <- Es in *. clear Es t s0.
    rewrite IH by sizes. cbn [is_empty]. rewrite (proj2 (syn_ok _ _) (proj2 (parse_punct_spec _ _ _) eq_refl)).
    rewrite IHr by sizes. done.
Qed.
(** *** The fuel is enough *)

Lemma parse_object_key_fuel s : parse_object_key s <> Err OutOfFuel.
Proof.
  unfold parse_object_key. destruct (peek_lit_str s); [apply syn_fuel|]. pose proof (syn_fuel (parse_ident_any s)) as Hf.
  destruct (syn _) as [[]|]; congruence.
Qed.

Lemma terminated_fuel {A} (p : Parser A) n s : Consumes p -> (forall s, size s < n -> p s <> Err OutOfFuel) -> size s < n ->
  parse_terminated p s <> Err OutOfFuel.
Proof.
  intros Hc Hp. remember (size s) as k eqn:Hk. revert s Hk. induction k as [k IH] using lt_wf_ind. intros s -> Hs.
  rewrite parse_terminated_eq by done. destruct (is_empty s); [done|]. pose proof (Hp s Hs) as Hn.
  destruct (p s) as [[a s1]|e] eqn:Ep; [|congruence]. apply Hc in Ep. destruct (is_empty s1); [done|].
  pose proof (syn_fuel (parse_punct "," s1)) as Hf. destruct (syn _) as [s2|e] eqn:E2; [|congruence].
  apply syn_ok, parse_punct_spec in E2 as ->. pose proof (IH (size s2) ltac:(sizes) s2 eq_refl ltac:(sizes)) as Hr.
  destruct (parse_terminated p s2); congruence.
Qed.

Lemma entries_fuel p fuel n object s : Sound p -> (forall s, size s < n -> p s <> Err OutOfFuel) -> size s < n -> size s < fuel ->
  parse_entries p fuel object s <> Err OutOfFuel.
Proof.
  intros Hs Hp. revert object s. induction fuel as [|fuel IH]; intros object s Hn Hf; [sizes|]. cbn [parse_entries].
  destruct (is_empty s); [done|]. pose proof (parse_object_key_fuel s) as Hkf.
  destruct (parse_object_key s) as [[key s1]|e] eqn:Ek; [|congruence]. apply parse_object_key_exact in Ek as (ks & -> & Hk%key_size).
  pose proof (syn_fuel (parse_punct ":" s1)) as Hcf. destruct (syn (parse_punct ":" s1)) as [s2|e] eqn:Ec; [|congruence].
  apply syn_ok, parse_punct_spec in Ec as ->. pose proof (Hp s2 ltac:(sizes)) as Hvf. destruct (p s2) as [[v s3]|e] eqn:Ev; [|congruence].
  apply Hs in Ev as (ts & -> & _). destruct (map_contains_key key object); [done|]. destruct (is_empty s3); [done|].
  pose proof (syn_fuel (parse_punct "," s3)) as H4. destruct (syn (parse_punct "," s3)) as [s4|e] eqn:E4; [|congruence].
  apply syn_ok, parse_punct_spec in E4 as ->. apply IH; sizes.
Qed.

Lemma value_fuel fuel s : size s < fuel -> parse_json_value fuel s <> Err OutOfFuel.
Proof.
  revert s. induction fuel as [|fuel IH]; intros s Hf; [lia|]. cbn [MacroSyntax.parse_json_value].
  assert (Hlit : forall b l, parse_number_literal number_from_str l b <> Err OutOfFuel).
  { intros b l. unfold parse_number_literal. by destruct (number_from_str _). }
  assert (Hl : forall l, parse_literal number_from_str l <> Err OutOfFuel) by (intros []; cbn [parse_literal]; done).
  destruct (peek_group Brace s).
  { pose proof (syn_fuel (parse_group Brace s)) as Hg. destruct (syn _) as [[content s1]|e] eqn:Eg; [|congruence].
    apply syn_ok, parse_group_spec in Eg as ->.
    pose proof (entries_fuel (parse_json_value fuel) fuel fuel [] content (value_sound fuel) IH ltac:(sizes) ltac:(sizes)) as He.
    destruct (parse_entries _ _ _ _); congruence. }
  destruct (peek_group Bracket s).
  { pose proof (syn_fuel (parse_group Bracket s)) as Hg. destruct (syn _) as [[content s1]|e] eqn:Eg; [|congruence].
    apply syn_ok, parse_group_spec in Eg as ->.
    pose proof (terminated_fuel (parse_json_value fuel) fuel content (value_consumes fuel) IH ltac:(sizes)) as He.
    destruct (parse_terminated _ _); congruence. }
  pose proof (syn_fuel (parse_lit s)) as Hls. pose proof (syn_fuel (parse_ident_any s)) as Hid.
  destruct (peek_punct "-" s).
  { pose proof (syn_fuel (parse_punct "-" s)) as Hp. destruct (syn (parse_punct "-" s)) as [s1|e]; [|congruence].
    pose proof (syn_fuel (parse_lit s1)) as Hl1. destruct (syn (parse_lit s1)) as [[l s2]|e]; [|congruence].
    pose proof (Hlit true l) as Hn. destruct (parse_number_literal _ l true); congruence. }
  destruct (peek_lit_bool s).
  { destruct (syn (parse_lit s)) as [[l s1]|e]; [|congruence]. pose proof (Hl l) as Hv. destruct (parse_literal _ l); congruence. }
  destruct (peek_ident_any s).
  { destruct (syn (parse_ident_any s)) as [[name s1]|e]; [|congruence]. by case_bool_decide. }
  destruct (syn (parse_lit s)) as [[l s1]|e]; [|congruence]. pose proof (Hl l) as Hv. destruct (parse_literal _ l); congruence.
Qed.

(** *** What is spelled is a value of JSON: every object has each key once *)

Lemma spells_wf :
  (forall ts v, Spells ts v -> Wf v)
  /\ (forall s object m, SpellsEntries s object m -> Wf (Object object) -> Wf (Object m))
  /\ (forall s l, SpellsElements s l -> Forall Wf l).
Proof.
  apply Spells_all.
  - intros content object _ IH. apply IH. apply Wf_object. split; constructor.
  - intros content l _ IH. by apply Wf_array.
  - intros ts l v _ Hv. unfold parse_number_literal in Hv. inv_ok Hv. by subst.
  - done.
  - done.
  - intros l v Hv. destruct l; cbn [parse_literal] in Hv; unfold parse_number_literal in Hv; inv_ok Hv; by subst.
  - done.
  - intros ks key ts v object _ _ IH _ Hm. by apply Wf_insert.
  - intros ks key ts v object rest object' _ _ IH _ _ IHr Hm. apply IHr. by apply Wf_insert.
  - constructor.
  - intros ts v _ IH. by constructor.
  - intros ts v rest l _ IH _ IHr. by constructor.
Qed.
(** *** Every value can be written *)

Lemma elements_of_spelled tokens l : Forall (fun v => Spells (tokens v) v) l ->
  SpellsElements (concat ((fun v => tokens v ++ [Punct ","]) <$> l)) l.
Proof.
  induction 1 as [|v l Hv _ IH]; [constructor|]. rewrite fmap_cons. cbn [concat]. rewrite <- app_assoc. by constructor.
Qed.

Lemma entries_of_spelled (tokens : Value N -> Stream) object m : MapOk (object ++ m) -> Forall (fun f => Spells (tokens f.2) f.2) m ->
  SpellsEntries (concat ((fun f => [Literal (LitStr f.1); Punct ":"] ++ tokens f.2 ++ [Punct ","]) <$> m)) object (object ++ m).
Proof.
  revert object. induction m as [|[k v] m IH]; intros object Hm Hf; [rewrite app_nil_r; constructor|].
  apply Forall_cons in Hf as [Hv Hf]. rewrite fmap_cons. cbn [concat fst snd].
  assert (Hlt : Forall (fun k' => key_lt k' k) object.*1).
  { clear -Hm. induction object as [|f object IH]; [constructor|]. cbn [app] in Hm. apply MapOk_cons in Hm as [Hm Hf].
    rewrite fmap_cons. constructor; [|by apply IH]. rewrite Forall_forall in Hf. apply Hf. rewrite fmap_app, fmap_cons. set_solver. }
  assert (He : object ++ (k, v) :: m = map_insert k v object ++ m) by (rewrite map_insert_last by exact Hlt; by rewrite <- app_assoc).
  rewrite He in *. cbn [app]. rewrite <- app_assoc.
  apply (more_entries _ [Literal (LitStr k)] k (tokens v) v); [constructor | done | | by apply IH].
  apply map_get_None. intros Hin. rewrite Forall_forall in Hlt. by destruct (Hlt _ Hin).
Qed.

Lemma tokens_of_spelled number_tokens v : (forall n, Spells (number_tokens n) (Number n)) -> Wf v -> Spells (tokens_of number_tokens v) v.
Proof.
  intros Hn. induction v as [| | | |l IH|m IH] using Value_ind'; intros Hv; cbn [tokens_of]; try by constructor.
  - apply Hn.
  - constructor. apply elements_of_spelled. apply Wf_array in Hv. rewrite Forall_forall in *. auto.
  - constructor. apply Wf_object in Hv as [Hm Hv]. apply (entries_of_spelled _ []); [done|]. rewrite Forall_forall in *. auto.
Qed.

Lemma open_api_object_exact s m rest : parse_open_api_object number_from_str s = Ok (m, rest)
  <-> exists content, s = Group Brace content :: rest /\ SpellsEntries content [] m.
Proof.
  unfold parse_open_api_object, parse_object_entries. split.
  - intros He. inv_ok He. apply syn_ok, parse_group_spec in E as ->. simplify_eq. eexists. split; [done|].
    eapply entries_sound; [apply value_sound | done].
  - intros (content & -> & Hs). rewrite (proj2 (syn_ok _ _) (proj2 (parse_group_spec _ _ _ _) eq_refl)).
    destruct spells_complete as (_ & Hc & _). by rewrite (Hc _ _ _ Hs) by lia.
Qed.

(** C14: The object syntax of the attributes is JSON's, exactly: the parser accepts a braced group if its tokens are entries of
    the grammar, with keys as strings or identifiers, optional last commas and no repeated key, and yields the object they
    spell; it accepts nothing else and leaves what follows. The object is well formed, with each key once at every depth.
    Its recursion and loops end: the fuel, one more than the tokens, is never used up. And every JSON object can be
    written, given how numbers are: what the tokens spell is read back. *)
Theorem object_syntax_exact number_tokens :
  (forall s m rest, parse_open_api_object number_from_str s = Ok (m, rest)
     <-> exists content, s = Group Brace content :: rest /\ SpellsEntries content [] m)
  /\ (forall s m rest, parse_open_api_object number_from_str s = Ok (m, rest) -> Wf (Object m))
  /\ (forall s, parse_open_api_object number_from_str s <> Err OutOfFuel)
  /\ ((forall n, Spells (number_tokens n) (Number n)) -> forall m rest, Wf (Object m) ->
        parse_open_api_object number_from_str (tokens_of number_tokens (Object m) ++ rest) = Ok (m, rest)).
Proof.
  split_and!; [exact open_api_object_exact | | |].
  - intros s m rest (content & -> & Hs)%open_api_object_exact. destruct spells_wf as (_ & He & _). apply (He _ _ _ Hs). apply Wf_object. split; constructor.
  - intros s. unfold parse_open_api_object, parse_object_entries. pose proof (syn_fuel (parse_group Brace s)) as Hg.
    destruct (syn _) as [[content rest]|e]; [|congruence].
    pose proof (entries_fuel (parse_json_value (S (size content))) (S (size content)) (S (size content)) [] content
      (value_sound _) (value_fuel _) ltac:(lia) ltac:(lia)) as He.
    destruct (parse_entries _ _ _ _); congruence.
  - intros Hn m rest Hm. apply open_api_object_exact. eexists. split; [done|]. pose proof (tokens_of_spelled _ _ Hn Hm) as Hs. by inversion Hs.
Qed.
(** *** Strict contracts *)

Lemma contract_error_exact s error rest : parse_contract_error s = Ok (error, rest) <->
  exists ts status code, s = Group Parenthesis (ts ++ [Punct ","; Literal (LitStr code)]) :: rest /\ LitTokens ts (LitInt status)
    /\ error = (base10_parse_u16 status, code).
Proof.
  unfold parse_contract_error. split.
  - intros He. destruct (syn (parse_group Parenthesis s)) as [[content s1]|e] eqn:Eg; [|done]. apply syn_ok, parse_group_spec in Eg as ->.
    destruct (syn (parse_lit_int content)) as [[status c1]|e] eqn:El; [|done]. apply syn_ok, parse_lit_int_spec in El as (ts & -> & Hl).
    destruct (syn (parse_punct "," c1)) as [c2|e] eqn:Ep; [|done]. apply syn_ok, parse_punct_spec in Ep as ->.
    destruct (syn (parse_lit_str c2)) as [[code c3]|e] eqn:Es; [|done]. apply syn_ok, parse_lit_str_spec in Es as ->.
    destruct c3; [|done]. cbn in He. injection He as <- <-. by exists ts, status, code.
  - intros (ts & status & code & -> & Hl & ->). rewrite (proj2 (syn_ok _ _) (proj2 (parse_group_spec _ _ _ _) eq_refl)).
    rewrite (proj2 (syn_ok _ _) (proj2 (parse_lit_int_spec _ _ _) (ex_intro _ ts (conj eq_refl Hl)))).
    rewrite (proj2 (syn_ok _ _) (proj2 (parse_punct_spec _ _ _) eq_refl)).
    by rewrite (proj2 (syn_ok _ _) (proj2 (parse_lit_str_spec _ _ _) eq_refl)).
Qed.

Lemma contract_error_consumes : Consumes parse_contract_error.
Proof. intros s e rest (ts & status & code & -> & _ & _)%contract_error_exact. sizes. Qed.

(** The tokens of enumerated errors, each with the last comma. *)
Definition errors_tokens (errors : list (str * str)) : Stream :=
  concat ((fun e => [Group Parenthesis [Literal (LitInt e.1); Punct ","; Literal (LitStr e.2)]; Punct ","]) <$> errors).

Lemma errors_parsed errors :
  parse_terminated parse_contract_error (errors_tokens errors) = Ok ((fun e => (base10_parse_u16 e.1, e.2)) <$> errors).
Proof.
  unfold errors_tokens. induction errors as [|[status code] errors IH]; rewrite parse_terminated_eq by exact contract_error_consumes; [done|].
  rewrite !fmap_cons. cbn [concat app is_empty fst snd].
  rewrite (proj2 (contract_error_exact _ (base10_parse_u16 status, code) (Punct "," :: concat
     ((fun e => [Group Parenthesis [Literal (LitInt e.1); Punct ","; Literal (LitStr e.2)]; Punct ","]) <$> errors)))).
  2:{ exists [Literal (LitInt status)], status, code. split_and!; [done | constructor | done]. }
  cbn [is_empty]. rewrite (proj2 (syn_ok _ _) (proj2 (parse_punct_spec _ _ _) eq_refl)). by rewrite IH.
Qed.

(** [success = 201, errors = [(422, code), ...]], as it is written. *)
Definition metadata_tokens (success : option str) (errors : option (list (str * str))) : Stream :=
  match success with Some text => [Ident (lit "success"); Punct "="; Literal (LitInt text); Punct ","] | None => [] end
  ++ match errors with Some errors => [Ident (lit "errors"); Punct "="; Group Bracket (errors_tokens errors)] | None => [] end.

Lemma metadata_read success errors : keyword (lit "success") = false -> keyword (lit "errors") = false ->
  parse_contract_metadata (metadata_tokens success errors)
  = Ok (EndpointMacro.EndpointMacro.mkMetadata (base10_parse_u16 <$> success)
          (match errors with Some errors => (fun e => (base10_parse_u16 e.1, e.2)) <$> errors | None => [] end)).
Proof.
  intros Hs He. unfold parse_contract_metadata.
  set (rest := match errors with Some errors => [Ident (lit "errors"); Punct "="; Group Bracket (errors_tokens errors)] | None => [] end).
  assert (Herr : forall fuel m, size rest < fuel -> parse_metadata fuel m false rest
    = Ok (EndpointMacro.EndpointMacro.mkMetadata (EndpointMacro.EndpointMacro.meta_success m)
            (match errors with Some errors => (fun e => (base10_parse_u16 e.1, e.2)) <$> errors
                             | None => EndpointMacro.EndpointMacro.meta_errors m end))).
  { intros fuel m Hf. subst rest. destruct errors as [errors|]; [|by destruct fuel as [|fuel], m; [lia|]].
    destruct fuel as [|[|fuel]]; [sizes | sizes|]. cbn [parse_metadata is_empty].
    rewrite (proj2 (syn_ok _ (lit "errors", [Punct "="; Group Bracket (errors_tokens errors)]))) by (apply parse_ident_spec; done).
    rewrite (proj2 (syn_ok _ _) (proj2 (parse_punct_spec _ _ _) eq_refl)). cbn [bool_decide decide].
    rewrite bool_decide_false, bool_decide_true by done.
    rewrite (proj2 (syn_ok _ _) (proj2 (parse_group_spec _ _ _ _) eq_refl)), errors_parsed. cbn [is_empty]. done. }
  destruct success as [text|]; unfold metadata_tokens; fold rest; cbn [app]; [|by rewrite Herr by lia].
  cbn [parse_metadata is_empty].
  rewrite (proj2 (syn_ok _ (lit "success", Punct "=" :: Literal (LitInt text) :: Punct "," :: rest))) by (apply parse_ident_spec; done).
  rewrite (proj2 (syn_ok _ _) (proj2 (parse_punct_spec _ _ _) eq_refl)). rewrite bool_decide_true by done. cbn [EndpointMacro.EndpointMacro.meta_success].
  rewrite (proj2 (syn_ok _ (text, Punct "," :: rest))) by (apply parse_lit_int_spec; eexists [_]; split; [done | constructor]).
  cbn [is_empty]. rewrite (proj2 (syn_ok _ _) (proj2 (parse_punct_spec _ _ _) eq_refl)). rewrite Herr by sizes. done.
Qed.

Lemma metadata_fuel fuel m seen s : size s < fuel -> parse_metadata fuel m seen s <> Err OutOfFuel.
Proof.
  revert m seen s. induction fuel as [|fuel IH]; intros m seen s Hf; [lia|]. cbn [parse_metadata]. destruct (is_empty s); [done|].
  pose proof (syn_fuel (parse_ident s)) as Hi. destruct (syn (parse_ident s)) as [[key s1]|e] eqn:E1; [|congruence].
  apply syn_ok, parse_ident_spec in E1 as [-> _].
  pose proof (syn_fuel (parse_punct "=" s1)) as Hp. destruct (syn (parse_punct "=" s1)) as [s2|e] eqn:E2; [|congruence].
  apply syn_ok, parse_punct_spec in E2 as ->.
  assert (Hend : forall m seen s3, size s3 <= size s2 ->
    (let? s := if is_empty s3 then Ok s3 else syn (parse_punct "," s3) in parse_metadata fuel m seen s) <> Err OutOfFuel).
  { intros m' seen' s3 Hs3. destruct (is_empty s3); [apply IH; sizes|]. pose proof (syn_fuel (parse_punct "," s3)) as H3.
    destruct (syn (parse_punct "," s3)) as [s4|e] eqn:E4; [|congruence]. apply syn_ok, parse_punct_spec in E4 as ->. apply IH; sizes. }
  case_bool_decide.
  - destruct (EndpointMacro.EndpointMacro.meta_success m); [done|]. pose proof (syn_fuel (parse_lit_int s2)) as Hl.
    destruct (syn (parse_lit_int s2)) as [[text s3]|e] eqn:E3; [|congruence]. apply syn_ok, parse_lit_int_spec in E3 as (ts & -> & _).
    apply Hend. sizes.
  - case_bool_decide; [|done]. destruct seen; [done|]. pose proof (syn_fuel (parse_group Bracket s2)) as Hg.
    destruct (syn (parse_group Bracket s2)) as [[content s3]|e] eqn:E3; [|congruence]. apply syn_ok, parse_group_spec in E3 as ->.
    assert (Ht : parse_terminated parse_contract_error content <> Err OutOfFuel).
    { apply (terminated_fuel _ (S (size content)) _ contract_error_consumes); [|lia]. intros c _. unfold parse_contract_error.
      pose proof (syn_fuel (parse_group Parenthesis c)) as F1. destruct (syn _) as [[c1 r1]|]; [|congruence].
      pose proof (syn_fuel (parse_lit_int c1)) as F2. destruct (syn _) as [[c2 r2]|]; [|congruence].
      pose proof (syn_fuel (parse_punct "," r2)) as F3. destruct (syn _) as [c3|]; [|congruence].
      pose proof (syn_fuel (parse_lit_str c3)) as F4. destruct (syn _) as [[c4 r4]|]; [|congruence]. by destruct (negb _). }
    destruct (parse_terminated parse_contract_error content); [|congruence]. apply Hend. sizes.
Qed.
(** *** Attributes *)

Lemma parse_args_exact {A} (p : Parser A) no_arguments meta a :
  message (parse_args_with p no_arguments meta) = Ok a <-> exists tokens, meta = MetaList tokens /\ p tokens = Ok (a, []).
Proof.
  unfold message, parse_args_with. destruct meta as [|tokens|]; [split; [done | by intros (? & ? & _)] | |split; [done | by intros (? & ? & _)]].
  split.
  - destruct (p tokens) as [[b rest]|e] eqn:Ep; [|done]. destruct rest; [|done]. intros [= <-]. by eexists.
  - intros (? & [= <-] & Hp). by rewrite Hp.
Qed.

Lemma parse_operation_exact s operation : parse_open_api_operation number_from_str s = Ok (operation, [])
  <-> (exists text, s = [Literal (LitStr text)] /\ operation = EndpointMacro.EndpointMacro.JsonOperation text)
      \/ (exists content object, s = [Group Brace content] /\ SpellsEntries content [] object
            /\ operation = EndpointMacro.EndpointMacro.ObjectOperation object).
Proof.
  unfold parse_open_api_operation. destruct (peek_lit_str s) eqn:Ep.
  - apply peek_lit_str_spec in Ep as (v & r & ->). rewrite (proj2 (syn_ok _ _) (proj2 (parse_lit_str_spec _ _ _) eq_refl)). split.
    + intros [= <- ->]. left. by exists v.
    + intros [(text & [= -> ->] & ->)|(c & o & [=] & _)]. done.
  - split.
    + intros He. destruct (parse_open_api_object number_from_str s) as [[object rest]|e] eqn:Eo; [|done]. injection He as <- ->.
      apply open_api_object_exact in Eo as (content & -> & Hs). right. by exists content, object.
    + intros [(text & -> & _)|(content & object & -> & Hs & ->)].
      * by rewrite (proj2 (peek_lit_str_spec _)) in Ep by by do 2 eexists.
      * by rewrite (proj2 (open_api_object_exact _ object []) (ex_intro _ content (conj eq_refl Hs))).
Qed.

(** An [openapi] attribute gives a handler its operation exactly when it is either the text of an operation that is valid, or an
    object of the grammar that leaves the generated keys alone; the literal is then the object's encoding. *)
Lemma openapi_attribute_exact value_from_str map_to_string no_arguments meta m m' : EndpointMacro.EndpointMacro.meta_openapi m = None ->
  EndpointMacro.EndpointMacro.add_attribute value_from_str map_to_string m (attribute number_from_str no_arguments (lit "openapi") meta) = Ok m'
  <-> exists operation,
        m' = EndpointMacro.EndpointMacro.mkHandlerMetadata (EndpointMacro.EndpointMacro.meta_route m)
               (EndpointMacro.EndpointMacro.meta_middlewares m) (Some operation) (EndpointMacro.EndpointMacro.meta_contract m)
        /\ ((meta = MetaList [Literal (LitStr operation)]
             /\ EndpointMacro.EndpointMacro.validate_openapi_operation value_from_str operation = Ok tt)
            \/ exists content object, meta = MetaList [Group Brace content] /\ SpellsEntries content [] object
                 /\ map_get (lit "operationId") object = None /\ map_get (lit "x-lenso-contract") object = None
                 /\ map_to_string object = Ok operation).
Proof.
  intros Hm. unfold EndpointMacro.EndpointMacro.add_attribute, attribute.
  cbn [EndpointMacro.EndpointMacro.attr_path EndpointMacro.EndpointMacro.attr_operation].
  rewrite bool_decide_false, bool_decide_true, Hm by done. set (parsed := message _).
  assert (Hp : forall operation, parsed = Ok operation <-> exists tokens, meta = MetaList tokens
    /\ parse_open_api_operation number_from_str tokens = Ok (operation, [])) by (intros; apply parse_args_exact).
  assert (Hlit : forall object literal, EndpointMacro.EndpointMacro.operation_literal map_to_string object = Ok literal
    <-> map_get (lit "operationId") object = None /\ map_get (lit "x-lenso-contract") object = None /\ map_to_string object = Ok literal).
  { intros object literal. unfold EndpointMacro.EndpointMacro.operation_literal, EndpointMacro.EndpointMacro.reject_operation_id,
      EndpointMacro.EndpointMacro.reject_reserved_openapi_keys, map_contains_key.
    destruct (map_get (lit "operationId") object), (map_get (lit "x-lenso-contract") object); try (split; [done | by intros (? & ? & ?)]).
    destruct (map_to_string object); cbn; split; [by intros [= ->] | by intros (_ & _ & [= ->]) | done | by intros (_ & _ & ?)]. }
  split.
  - destruct parsed as [operation|e] eqn:Ep; [|done]. destruct (proj1 (Hp operation) eq_refl) as (tokens & -> & Ho). intros He.
    destruct (EndpointMacro.EndpointMacro.into_literal _ _ operation) as [literal|e] eqn:El; [|done]. injection He as <-.
    exists literal. split; [done|]. apply parse_operation_exact in Ho as [(text & -> & ->)|(content & object & -> & Hs & ->)];
      cbn [EndpointMacro.EndpointMacro.into_literal] in El.
    + left. destruct (EndpointMacro.EndpointMacro.validate_openapi_operation _ text) as [[]|e] eqn:Ev; [|done]. by injection El as <-.
    + right. apply Hlit in El. by exists content, object.
  - intros (operation & -> & [[-> Hv]|(content & object & -> & Hs & Ho1 & Ho2 & Ho3)]).
    + rewrite (proj2 (Hp (EndpointMacro.EndpointMacro.JsonOperation operation))).
      2:{ eexists. split; [done|]. apply parse_operation_exact. left. by eexists. }
      cbn [EndpointMacro.EndpointMacro.into_literal]. by rewrite Hv.
    + rewrite (proj2 (Hp (EndpointMacro.EndpointMacro.ObjectOperation object))).
      2:{ eexists. split; [done|]. apply parse_operation_exact. right. by exists content, object. }
      cbn [EndpointMacro.EndpointMacro.into_literal]. by rewrite (proj2 (Hlit object operation) (conj Ho1 (conj Ho2 Ho3))).
Qed.
End laws.

(** ** A reference instance *)

Section reference.
Definition failed {A} : Result str A := Err (lit "unexpected token").

Definition ref_parse_lit (s : Stream) : Result str (Lit * Stream) :=
  match s with
  | Literal l :: rest => Ok (l, rest)
  | Ident name :: rest =>
      if bool_decide (name = lit "true") then Ok (LitBool true, rest) else
      if bool_decide (name = lit "false") then Ok (LitBool false, rest) else failed
  | Punct c :: Literal l :: rest =>
      if bool_decide (c = "-"%char) then
        match l with
        | LitInt text => Ok (LitInt ("-"%char :: text), rest)
        | LitFloat text => Ok (LitFloat ("-"%char :: text), rest)
        | _ => failed
        end
      else failed
  | _ => failed
  end.

Fixpoint ref_terminated {A} (p : Parser A) (fuel : nat) (s : Stream) : Result ParseError (list A) :=
  match fuel with
  | O => Ok []
  | S fuel =>
      if is_empty s then Ok [] else
      let? (a, s) := p s in
      if is_empty s then Ok [a] else
      let? s := syn (match s with Punct c :: s => if bool_decide (c = ","%char) then Ok s else failed | _ => failed end) in
      let? l := ref_terminated p fuel s in
      Ok (a :: l)
  end.

Definition ref_lit_source (l : Lit) : str :=
  match l with
  | LitStr value => "034"%char :: value ++ ["034"%char]
  | LitInt text | LitFloat text | LitOther text => text
  | LitBool b => if b then lit "true" else lit "false"
  end.

#[local] Instance ref_syn : Syn := {
  keyword name := bool_decide (name ∈ [lit "as"; lit "fn"; lit "impl"; lit "match"; lit "type"; lit "use"]);
  unraw name := match name with "r"%char :: "#"%char :: name => name | _ => name end;
  lit_source := ref_lit_source;
  base10_parse_u16 text := match parse_unsigned 65535 text with Some n => Ok n | None => failed end;
  peek_lit_str s := match s with Literal (LitStr _) :: _ => true | _ => false end;
  peek_lit_bool s := match s with Ident name :: _ => bool_decide (name = lit "true") || bool_decide (name = lit "false") | _ => false end;
  peek_ident_any s := match s with Ident _ :: _ => true | _ => false end;
  peek_group d s := match s with Group d' _ :: _ => bool_decide (d' = d) | _ => false end;
  peek_punct c s := match s with Punct c' :: _ => bool_decide (c' = c) | _ => false end;
  parse_lit_str s := match s with Literal (LitStr v) :: rest => Ok (v, rest) | _ => failed end;
  parse_lit_int s := match ref_parse_lit s with Ok (LitInt text, rest) => Ok (text, rest) | _ => failed end;
  parse_lit := ref_parse_lit;
  parse_ident s := match s with
                   | Ident name :: rest => if bool_decide (name ∈ [lit "as"; lit "fn"; lit "impl"; lit "match"; lit "type"; lit "use"])
                                           then failed else Ok (name, rest)
                   | _ => failed
                   end;
  parse_ident_any s := match s with Ident name :: rest => Ok (name, rest) | _ => failed end;
  parse_punct c s := match s with Punct c' :: rest => if bool_decide (c' = c) then Ok rest else failed | _ => failed end;
  parse_group d s := match s with Group d' content :: rest => if bool_decide (d' = d) then Ok (content, rest) else failed | _ => failed end;
  parse_terminated A p s := ref_terminated p (S (size s)) s;
  unexpected _ := lit "unexpected token";
}.

Lemma ref_parse_lit_spec s l rest : ref_parse_lit s = Ok (l, rest) <-> exists ts, s = ts ++ rest /\ LitTokens ts l.
Proof.
  split.
  - intros He. destruct s as [|t s]; [done|]. destruct t as [d c|name|c|l']; cbn [ref_parse_lit] in He; [done| | |].
    + repeat case_bool_decide; simplify_eq; eexists [_]; (split; [reflexivity|]).
      * apply (bool_lit true).
      * apply (bool_lit false).
    + destruct s as [|[| | |l'] s]; try done. case_bool_decide; [|done]. subst.
      destruct l'; try done; injection He as <- <-; eexists [_; _]; (split; [reflexivity|]); constructor.
    + injection He as <- <-. eexists [_]. split; [done | constructor].
  - intros (ts & -> & Hl). destruct Hl as [l|[]|text|text]; cbn [ref_parse_lit app]; done.
Qed.

Lemma ref_terminated_fuel {A} (p : Parser A) n m s : Consumes p -> size s < n -> size s < m -> ref_terminated p n s = ref_terminated p m s.
Proof.
  intros Hc. revert m s. induction n as [|n IH]; intros m s Hn Hm; [lia|]. destruct m as [|m]; [lia|]. cbn [ref_terminated].
  destruct (is_empty s); [done|]. destruct (p s) as [[a s1]|e] eqn:Ep; [|done]. apply Hc in Ep. destruct (is_empty s1); [done|].
  destruct s1 as [|[| |c|] s1]; try done. case_bool_decide; [|done]. cbn [syn map_err]. rewrite (IH m s1); [done|..]; sizes.
Qed.

#[local] Instance ref_syn_laws : SynLaws.
Proof.
  split; intros; cbn [peek_lit_str peek_lit_bool peek_ident_any peek_group peek_punct parse_lit_str parse_lit_int parse_lit parse_ident
    parse_ident_any parse_punct parse_group parse_terminated keyword ref_syn].
  - destruct s as [|[| | |[]] s]; naive_solver.
  - unfold is_bool_name. destruct s as [|[|name| |] s]; try naive_solver.
    rewrite orb_true_iff, !bool_decide_eq_true. naive_solver.
  - destruct s as [|[] s]; naive_solver.
  - destruct s as [|[] s]; rewrite ?bool_decide_eq_true; naive_solver.
  - destruct s as [|[] s]; rewrite ?bool_decide_eq_true; naive_solver.
  - destruct s as [|[| | |[]] s]; naive_solver.
  - destruct (ref_parse_lit s) as [[l r]|e] eqn:El.
    + apply ref_parse_lit_spec in El as (ts & -> & Hl). split.
      * destruct l; try done. intros [= <- <-]. by exists ts.
      * intros (ts' & He & Hl'). pose proof (proj2 (ref_parse_lit_spec _ _ _) (ex_intro _ ts' (conj He Hl'))) as Hr.
        rewrite (proj2 (ref_parse_lit_spec (ts ++ r) l r)) in Hr by by exists ts. by simplify_eq.
    + split; [done|]. intros Hx. apply ref_parse_lit_spec in Hx. congruence.
  - apply ref_parse_lit_spec.
  - destruct s as [|[|n| |] s]; try naive_solver. split.
    + destruct (bool_decide _) eqn:Eb; [done|]. intros [= -> ->]. done.
    + by intros [[= -> ->] ->].
  - destruct s as [|[] s]; naive_solver.
  - destruct s as [|[] s]; try case_bool_decide; naive_solver.
  - destruct s as [|[] s]; try case_bool_decide; naive_solver.
  - cbn [ref_terminated]. destruct (is_empty s); [done|]. destruct (p s) as [[a s1]|e] eqn:Ep; [|done]. apply H in Ep.
    destruct (is_empty s1); [done|]. destruct s1 as [|[| |c|] s1]; try done. case_bool_decide; [|done]. cbn [syn map_err].
    rewrite (ref_terminated_fuel p (size s) (S (size s1)) s1); [done | done | sizes | sizes].
Qed.

#[local] Existing Instance ref_serde.

Definition ref_number (text : str) : option Z := parse_unsigned 4294967295 text.

(** [{ summary: "Read", "deprecated": false, tags: [1, null,], }]. *)
Definition sample_tokens : Stream :=
  [Group Brace [Ident (lit "summary"); Punct ":"; Literal (LitStr (lit "Read")); Punct ",";
                Literal (LitStr (lit "deprecated")); Punct ":"; Ident (lit "false"); Punct ",";
                Ident (lit "tags"); Punct ":"; Group Bracket [Literal (LitInt (lit "1")); Punct ","; Ident (lit "null"); Punct ","]; Punct ","]].
Definition sample_object : list (str * Value Z) :=
  [(lit "deprecated", Bool false); (lit "summary", text "Read"); (lit "tags", Array [Number 1%Z; Null])].

(** A key may not be given twice, spelled as an identifier or not. *)
Example repeated_key : parse_open_api_object ref_number
  [Group Brace [Ident (lit "a"); Punct ":"; Ident (lit "null"); Punct ","; Literal (LitStr (lit "a")); Punct ":"; Ident (lit "true")]]
  = Err (SynError (lit "duplicate OpenAPI object key `a`")).
Proof. reflexivity. Qed.

Lemma object_syntax_exact_witness :
  parse_open_api_object ref_number sample_tokens = Ok (sample_object, [])
  /\ exists content, sample_tokens = [Group Brace content] /\ SpellsEntries ref_number content [] sample_object.
Proof.
  assert (Hp : parse_open_api_object ref_number sample_tokens = Ok (sample_object, [])) by reflexivity.
  split; [exact Hp|]. exact (proj1 (proj1 (object_syntax_exact ref_number (fun _ => [])) sample_tokens sample_object []) Hp).
Defined.
End reference.

End MacroSyntax.
