(* ===== verification/HttpAuth.v ===== *)
(** * Authenticated actors ([lenso-http-auth/src/lib.rs])

    The extraction of an authenticated actor at the HTTP edge. The authentication SDK, the bound Auth client and the
    application's projection of an actor are outside: the interface [AuthSdk] lists the operations the source calls. *)
From S2P Require Import Prelude RustStd HttpCrate RefHttp Kernel Json Request Response Routing Authoring Extract.

(** [lenso_auth_sdk] and the errors of [lenso_capability_auth]. *)
Class AuthSdk := {
  CredentialEvidence : Type;
  new_evidence : str -> str -> CredentialEvidence;
  AuthRequest : Type;
  authenticate_request : option CredentialEvidence -> AuthRequest;
  AuthResponse : Type;
  ActorAssertion : Type;
  InvocationContext : Type;
  (* the errors are their debug texts *)
  decode_auth_response : AuthResponse -> Result str (option ActorAssertion);
  actor_kind : ActorAssertion -> str;
  attach : ActorAssertion -> InvocationContext -> Result str InvocationContext;
}.

Module HttpAuth.
Import Json Response Routing Authoring Extract.

Inductive AuthenticateError := Expired | Invalid | Revoked | Unsupported | UnknownAuthenticateError.

Section auth.
Context `{HttpCrate} {N : Type} `{Serde N} `{AuthSdk} {X Actor : Type}.
Context (canonical_reason : StatusCode -> option str) (struct_to_vec : list (str * Value N) -> Result str str) (to_str_error : str).
(** The bound client, or the error of the provider that has none; the application's [KIND] and [from_assertion]. *)
Definition AuthClient : Type := InvocationContext -> AuthRequest -> X -> X * Result (InvocationError AuthenticateError) AuthResponse.
Context (KIND : str) (from_assertion : ActorAssertion -> Actor).

Definition internal (error : str) : EndpointHandleInvocationError := Runtime (Internal error).

Definition WWW_AUTHENTICATE : HeaderName := hn_from_static (lit "www-authenticate").

(** The [?] converts the error of [with_header]. *)
Definition unauthorized (code detail : string) : Outcome (Result EndpointHandleInvocationError HandleResponse) :=
  let^ response := problem canonical_reason struct_to_vec UNAUTHORIZED (lit code) (lit detail) in
  Returned (map_err from_build_error (with_header to_str_error response WWW_AUTHENTICATE (hv_from_static (lit "Bearer")))).

Definition authentication_rejection (error : AuthenticateError) : Outcome (Result EndpointHandleInvocationError HandleResponse) :=
  match error with
  | Expired => unauthorized "expired_credential" "The supplied authentication credential has expired."
  | Invalid => unauthorized "invalid_credential" "The supplied authentication credential is invalid."
  | Revoked => unauthorized "revoked_credential" "The supplied authentication credential has been revoked."
  | Unsupported => unauthorized "unsupported_credential" "The supplied authentication credential is not supported."
  | UnknownAuthenticateError => unauthorized "authentication_failed" "The supplied authentication credential was not accepted."
  end.

(** [return Err(rejection?.into())]. *)
Definition reject_with (r : Outcome (Result EndpointHandleInvocationError HandleResponse)) : Extracted Actor :=
  let^ r := r in
  Returned (Err (match r with Ok response => RejectedResponse response | Err error => Invocation error end)).

(** [extract_authenticated_actor]; the context is passed by mutable reference. *)
Definition extract_authenticated_actor (auth_client : Result EndpointHandleInvocationError AuthClient) (context : InvocationContext)
    (request : HandleRequest) (x : X) : X * InvocationContext * Extracted Actor :=
  match auth_client with
  | Err error => (x, context, Returned (Err (Invocation error)))
  | Ok auth =>
      let evidence := (fun credential => new_evidence credential.1 credential.2) <$> hr_credential request in
      match auth context (authenticate_request evidence) x with
      | (x, Err (Domain error)) => (x, context, reject_with (authentication_rejection error))
      | (x, Err (Runtime error)) => (x, context, Returned (Err (Invocation (Runtime error))))
      | (x, Ok response) =>
          match decode_auth_response response with
          | Err error => (x, context, Returned (Err (Invocation (internal error))))
          | Ok None => (x, context, reject_with (unauthorized "authentication_required" "Authentication credentials are required."))
          | Ok (Some assertion) =>
              if negb (bool_decide (actor_kind assertion = KIND))
              then (x, context,
                    let^ response := problem canonical_reason struct_to_vec FORBIDDEN (lit "unexpected_actor_kind")
                                       (lit "The authenticated actor cannot access this endpoint.") in
                    Returned (Err (RejectedResponse response)))
              else
                match attach assertion context with
                | Err error => (x, context, Returned (Err (Invocation (internal error))))
                | Ok context => (x, context, Returned (Ok (from_assertion assertion)))
                end
          end
      end
  end.

(** ** Answers *)

Definition rejection_code (error : AuthenticateError) : str :=
  match error with
  | Expired => lit "expired_credential"
  | Invalid => lit "invalid_credential"
  | Revoked => lit "revoked_credential"
  | Unsupported => lit "unsupported_credential"
  | UnknownAuthenticateError => lit "authentication_failed"
  end.

(** The problem of a 401, with its challenge. *)
Definition Challenge (code : str) (r : HandleResponse) : Prop :=
  exists p, ProblemResponse canonical_reason struct_to_vec 401 code p
    /\ r = mkHandleResponse 401 (handle_headers p ++ [(lit "www-authenticate", lit "Bearer")]) (handle_body p).

Context `{!HttpLaws}.

Lemma unauthorized_ok code detail : ProblemsSerialize struct_to_vec ->
  exists r, unauthorized code detail = Returned (Ok r) /\ Challenge (lit code) r.
Proof.
  intros Hser. unfold unauthorized, UNAUTHORIZED.
  destruct (problem_ok canonical_reason struct_to_vec 401 (lit code) (lit detail) Hser) as (p & -> & Hp); [done|].
  unfold with_header. assert (Hv : hv_to_str (hv_from_static (lit "Bearer")) = Some (lit "Bearer")).
  { apply hv_to_str_Some. split; [|done]. by rewrite hv_from_static_bytes. }
  rewrite Hv. cbn [ok_or map_err]. assert (Hn : hn_as_str WWW_AUTHENTICATE = lit "www-authenticate").
  { apply hn_from_static_spec; vm_compute; reflexivity. }
  rewrite Hn. eexists. split; [done|]. exists p. split; [done|]. by destruct Hp as (? & ? & _ & ->).
Qed.

Lemma rejection_ok error : ProblemsSerialize struct_to_vec ->
  exists r, authentication_rejection error = Returned (Ok r) /\ Challenge (rejection_code error) r.
Proof. intros Hser. destruct error; by apply unauthorized_ok. Qed.

(** Goes through the cases of a statement about one evaluated branch. *)
#[local] Ltac settle :=
  intros; try split; intros;
  repeat match goal with
  | H : exists _, _ |- _ => destruct H
  | H : _ /\ _ |- _ => destruct H
  | H1 : decode_auth_response ?r = _, H2 : decode_auth_response ?r = _ |- _ => rewrite H1 in H2
  | H1 : attach ?a ?c = Err _, H2 : is_ok (attach ?a ?c) = true |- _ => rewrite H1 in H2; discriminate H2
  | H : attach ?a ?c = _ |- context [is_ok (attach ?a ?c)] => rewrite H
  | _ => progress simplify_eq
  end; try done; try congruence.

(** ** Properties *)

(** C16: an actor is extracted exactly from an accepted assertion of the expected kind. The evidence offered is the request's
    credential, under the caller's context; an actor is projected, and the assertion attached to the context, only when the
    Auth provider accepts, the assertion has the application's kind and attaching succeeds. In every other case the
    context is the caller's own and no actor is produced: a rejected or absent credential is a 401 challenge with
    its code, another kind is a 403, and runtime failures stay failures. *)
Theorem authenticated_actor_exact auth context request x : ProblemsSerialize struct_to_vec ->
  let evidence := (fun credential => new_evidence credential.1 credential.2) <$> hr_credential request in
  let '(x', answer) := auth context (authenticate_request evidence) x in
  let '(x1, context1, result) := extract_authenticated_actor (Ok auth) context request x in
  x1 = x'
  /\ (forall actor, result = Returned (Ok actor) <->
        exists response assertion, answer = Ok response /\ decode_auth_response response = Ok (Some assertion)
          /\ actor_kind assertion = KIND /\ is_ok (attach assertion context) = true /\ actor = from_assertion assertion)
  /\ (forall actor, result = Returned (Ok actor) -> exists response assertion, answer = Ok response
        /\ decode_auth_response response = Ok (Some assertion) /\ attach assertion context = Ok context1)
  /\ ((forall actor, result <> Returned (Ok actor)) -> context1 = context)
  /\ (forall error, answer = Err (Domain error) ->
        exists r, result = Returned (Err (RejectedResponse r)) /\ Challenge (rejection_code error) r)
  /\ (forall response, answer = Ok response -> decode_auth_response response = Ok None ->
        exists r, result = Returned (Err (RejectedResponse r)) /\ Challenge (lit "authentication_required") r)
  /\ (forall response assertion, answer = Ok response -> decode_auth_response response = Ok (Some assertion) ->
        actor_kind assertion <> KIND -> exists r, result = Returned (Err (RejectedResponse r))
          /\ ProblemResponse canonical_reason struct_to_vec 403 (lit "unexpected_actor_kind") r)
  /\ (forall failure, answer = Err (Runtime failure) -> result = Returned (Err (Invocation (Runtime failure))))
  /\ exists r, result = Returned r.
Proof.
  intros Hser. cbn zeta. destruct (auth _ _ x) as [x' answer] eqn:Ea. unfold extract_authenticated_actor. rewrite Ea.
  destruct answer as [response|[error|failure]].
  - destruct (decode_auth_response response) as [[assertion|]|error] eqn:Ed.
    + case_bool_decide as Hk; cbn [negb].
      * destruct (attach assertion context) as [context'|error] eqn:Eat; cbn; (split_and!; [done|..]); settle;
          first [by eexists | exists response, assertion; by rewrite Eat
                | match goal with Hn : forall actor, _ <> _ |- _ => by destruct (Hn _ eq_refl) end].
      * destruct (problem_ok canonical_reason struct_to_vec 403 (lit "unexpected_actor_kind")
          (lit "The authenticated actor cannot access this endpoint.") Hser) as (p & Hp & HP); [done|].
        unfold FORBIDDEN. rewrite Hp. split_and!; [done|..]; settle; by eexists.
    + destruct (unauthorized_ok "authentication_required" "Authentication credentials are required." Hser) as (r & -> & Hr). cbn.
      split_and!; [done|..]; settle; by eexists.
    + split_and!; [done|..]; settle; by eexists.
  - destruct (rejection_ok error Hser) as (r & -> & Hr). cbn. split_and!; [done|..]; settle; by eexists.
  - split_and!; [done|..]; settle; by eexists.
Qed.

End auth.

(** ** Witnesses *)

#[local] Existing Instance ref_http.
#[local] Existing Instance ref_http_laws.
#[local] Existing Instance ref_serde.

(** An SDK whose assertions are names of users, attached to a context of names. *)
#[local] Instance ref_sdk : AuthSdk := {
  CredentialEvidence := str * str; new_evidence := pair; AuthRequest := option (str * str); authenticate_request e := e;
  AuthResponse := option str; ActorAssertion := str; InvocationContext := list str;
  decode_auth_response r := Ok r; actor_kind _ := lit "user"; attach a c := Ok (a :: c) }.

Definition ref_client : AuthClient (X := unit) := fun _ evidence x =>
  (x, match evidence with
      | Some (_, value) => if decide (value = lit "stolen") then Err (Domain Revoked) else Ok (Some value)
      | None => Ok None
      end).
Definition request_of (credential : option (str * str)) : HandleRequest :=
  mkHandleRequest [] credential [] (lit "GET") (lit "/me") [] None (lit "lenso-1") (lit "me.read").
Definition ref_extract (credential : option (str * str)) : unit * list str * Extracted str :=
  extract_authenticated_actor (fun _ => None) ref_struct [] (lit "user") (fun a => a) (Ok ref_client) [] (request_of credential) tt.

Lemma authenticated_actor_exact_witness :
  ref_extract (Some (lit "bearer", lit "alice")) = (tt, [lit "alice"], Returned (Ok (lit "alice")))
  /\ (forall actor, (ref_extract (Some (lit "bearer", lit "alice"))).2 = Returned (Ok actor) <->
       exists response assertion, Ok (E := InvocationError AuthenticateError) (Some (lit "alice")) = Ok response
         /\ decode_auth_response response = Ok (Some assertion)
         /\ actor_kind assertion = lit "user" /\ is_ok (attach assertion []) = true /\ actor = assertion).
Proof.
  split; [vm_compute; reflexivity|].
  exact (proj1 (proj2 (authenticated_actor_exact (fun _ => None) ref_struct [] (lit "user") (fun a => a) ref_client []
    (request_of (Some (lit "bearer", lit "alice"))) tt ref_struct_serializes))).
Defined.

Example revoked_is_challenged : exists r,
  (ref_extract (Some (lit "bearer", lit "stolen"))).2 = Returned (Err (RejectedResponse r)) /\ handle_status r = 401%Z.
Proof. eexists. split; [vm_compute; reflexivity | reflexivity]. Qed.
End HttpAuth.
