(* ===== verification/WebHost.v ===== *)
(** * The web host ([lenso-web-host/src/lib.rs])

    The assembly of one app: the plugin root, the plan with the ingress bound to every endpoint, and the starts as a
    socket host, an event host, a simulated host and a replicated host. The plan types, the registry, the adapters and
    the runners are other crates; the interfaces [AppPlan] and [Runtime] list what the source calls of them. *)
From S2P Require Import Prelude RustStd HttpCrate RefHttp Kernel Config Json Request Response Middleware Routing Server.
From S2P Require Import SessionCookie WebSocket ResponseStream Handshake Manifest Dispatch Replication Event Native CapabilityContract.

(** [lenso_app_plan::authoring]. *)
Class AppPlan (N : Type) := {
  PluginDescriptor : Type;
  plugin_id : PluginDescriptor -> str;
  root_slot : PluginDescriptor -> str;
  provided_capabilities : PluginDescriptor -> list str; (* their identifiers *)
  HostPluginRelease : Type;
  new_release : PluginDescriptor -> HostPluginRelease;
  descriptor : HostPluginRelease -> PluginDescriptor;
  PluginInstanceId : Type;
  id_plugin_id : PluginInstanceId -> str;
  id_instance_key : PluginInstanceId -> str;
  PluginRootInstance : Type;
  new_instance : str -> str -> PluginRootInstance;
  with_configuration : Json.Value N -> PluginRootInstance -> PluginRootInstance;
  with_execution_lane : str -> PluginRootInstance -> PluginRootInstance;
  instance_id : PluginRootInstance -> PluginInstanceId;
  execution_lane_of : PluginRootInstance -> option str;
  DisabledPlugin : Type;
  DependencyChoice : Type;
  RootRelease : Type;
  PluginRootSnapshot : Type;
  default_snapshot : PluginRootSnapshot;
  new_snapshot : list RootRelease -> list PluginRootInstance -> list DisabledPlugin -> PluginRootSnapshot;
  with_dependency_choices : list DependencyChoice -> PluginRootSnapshot -> PluginRootSnapshot;
  releases : PluginRootSnapshot -> list RootRelease;
  instances : PluginRootSnapshot -> list PluginRootInstance;
  disabled : PluginRootSnapshot -> list DisabledPlugin;
  dependency_choices : PluginRootSnapshot -> list DependencyChoice;
  dependency_selection_adopted : PluginRootSnapshot -> bool;
  HostDefaultPlugin : Type;
  new_default : str -> str -> HostDefaultPlugin;
  default_with_configuration : Json.Value N -> HostDefaultPlugin -> HostDefaultPlugin;
  default_id : HostDefaultPlugin -> PluginInstanceId;
  RequestAdmissionPlan : Type;
  new_admission : Z -> Z -> RequestAdmissionPlan;
  HostBinding : Type;
  to_instances : PluginInstanceId -> str -> list PluginInstanceId -> HostBinding;
  with_admission : RequestAdmissionPlan -> HostBinding -> HostBinding;
  HostSlot : Type;
  slot_one : str -> HostSlot;
  slot_many : str -> HostSlot;
  ExecutionLanePlan : Type;
  new_lane : str -> ExecutionLanePlan;
  lane_id : ExecutionLanePlan -> str;
  HostCatalog : Type;
  new_catalog : list HostSlot -> list HostPluginRelease -> list HostDefaultPlugin -> HostCatalog;
  with_execution_lanes : list ExecutionLanePlan -> HostCatalog -> HostCatalog;
  with_bindings : list HostBinding -> HostCatalog -> HostCatalog;
  ResolvedAppPlan : Type;
  execution_lanes : ResolvedAppPlan -> list ExecutionLanePlan;
  resolve_plugin_root : HostCatalog -> PluginRootSnapshot -> Result str ResolvedAppPlan;
}.

(** What its builders and accessors promise to each other. *)
Class AppPlanLaws (N : Type) `{AppPlan N} : Prop := {
  descriptor_new d : descriptor (new_release d) = d;
  new_instance_id p k : id_plugin_id (instance_id (new_instance p k)) = p /\ id_instance_key (instance_id (new_instance p k)) = k;
  new_instance_lane p k : execution_lane_of (new_instance p k) = None;
  configuration_id c i : instance_id (with_configuration c i) = instance_id i;
  configuration_lane c i : execution_lane_of (with_configuration c i) = execution_lane_of i;
  lane_instance_id l i : instance_id (with_execution_lane l i) = instance_id i;
  lane_lane l i : execution_lane_of (with_execution_lane l i) = Some l;
  snapshot_releases r i d : releases (new_snapshot r i d) = r;
  snapshot_instances r i d : instances (new_snapshot r i d) = i;
  snapshot_disabled r i d : disabled (new_snapshot r i d) = d;
  snapshot_adopted r i d : dependency_selection_adopted (new_snapshot r i d) = false;
  choices_choices c s : dependency_choices (with_dependency_choices c s) = c;
  choices_adopted c s : dependency_selection_adopted (with_dependency_choices c s) = true;
  choices_releases c s : releases (with_dependency_choices c s) = releases s;
  choices_instances c s : instances (with_dependency_choices c s) = instances s;
  choices_disabled c s : disabled (with_dependency_choices c s) = disabled s;
  new_default_id p k : id_plugin_id (default_id (new_default p k)) = p /\ id_instance_key (default_id (new_default p k)) = k;
  default_configuration_id c d : default_id (default_with_configuration c d) = default_id d;
  new_lane_id l : lane_id (new_lane l) = l;
}.

(** [lenso_native_adapter], [lenso_kernel] and [lenso_runner], for the two factories of the ingress. *)
Class Runtime (N : Type) `{AppPlan N} (NativeIngress EventIngress : Type) := {
  host_catalog : Result RuntimeFailure (list HostPluginRelease); (* [NativePluginRegistry::host_catalog([], [])] *)
  NativePluginRegistry : Type;
  new_registry : NativePluginRegistry;
  with_native_ingress : NativeIngress -> NativePluginRegistry -> NativePluginRegistry;
  with_event_ingress : EventIngress -> NativePluginRegistry -> NativePluginRegistry;
  with_linked_factories : NativePluginRegistry -> NativePluginRegistry;
  ExecutionAdapter : Type;
  ExecutionAdapterCatalog : Type;
  AdapterError : Type;
  single : NativePluginRegistry -> ExecutionAdapterCatalog;
  with_shared_adapter : ExecutionAdapter -> ExecutionAdapterCatalog -> Result AdapterError ExecutionAdapterCatalog;
  CrossLaneTransferCatalog : Type;
  new_transfers : CrossLaneTransferCatalog;
  transfer_request : string -> string -> CrossLaneTransferCatalog -> CrossLaneTransferCatalog;
  transfer_stream : string -> string -> CrossLaneTransferCatalog -> CrossLaneTransferCatalog;
  RunnerError : Type;
  ShutdownOutcome : Type;
}.

Module WebHost.
Import Json Middleware.

Definition INSTANCE_KEY : str := lit "default".
Definition INGRESS_PACKAGE_ID : str := lit "lenso.web-ingress".
Import CapabilityId.

(** ** Tower policies *)

Section tower.
Context `{HttpCrate} {X : Type}.

Inductive TowerMiddlewareOutcome := TowerContinue | TowerRespond (response : Response.WebIngressResponse).

(** A policy service, its error already a [RuntimeFailure]; it is called with a clone of the request. *)
Record TowerIngressMiddleware := mkTower {
  tower_identity : str; service : Request.WebIngressRequest -> ExtRun (X := X) TowerMiddlewareOutcome }.

Definition tower_before_request (self : TowerIngressMiddleware) (request : Request.WebIngressRequest) :
    ExtRun (X := X) (Request.WebIngressRequest * WebIngressMiddlewareOutcome) := fun x =>
  match service self request x with
  | (x, Returned (Ok TowerContinue)) => (x, Returned (Ok (request, Continue)))
  | (x, Returned (Ok (TowerRespond response))) => (x, Returned (Ok (request, Respond response)))
  | (x, Returned (Err failure)) => (x, Returned (Err failure))
  | (x, Panicked) => (x, Panicked)
  | (x, Waiting) => (x, Waiting)
  end.

Definition tower_middleware (self : TowerIngressMiddleware) : WebIngressMiddleware X :=
  mkMiddleware (tower_identity self) (tower_before_request self) default_after_response.

End tower.

Section host.
Context {N : Type} `{Serde N} `{AppPlan N} `{HttpCrate} `{Matchit} {X Observer : Type}.
(** The factories with their observer, [None] for the default that drops what it is told. *)
Context `{!Runtime N (Native.WebIngressFactory (X := X) * option Observer) (Event.EventFactory (X := X) * option Observer)}.
(** [plugin_descriptor()] of the ingress, and [serde_json::to_value] of its configuration. *)
Context (ingress_descriptor : PluginDescriptor) (config_to_value : Config.WebIngressConfig -> Result str (Value N)).

Record FactoryInstaller := mkInstaller {
  package_id : str; installer_descriptor : PluginDescriptor; install : NativePluginRegistry -> NativePluginRegistry }.

Definition ReplicatedIngressBuilder : Type :=
  str -> Native.WebIngressFactory (X := X) * option Observer -> Native.WebIngressFactory (X := X) * option Observer.
Definition ReplicatedLaneBuilder : Type := str -> NativePluginRegistry -> Result str ExecutionAdapterCatalog.
Definition ReplicatedTransferBuilder : Type := CrossLaneTransferCatalog -> CrossLaneTransferCatalog.

Record NativeWebHost := mkHost {
  bind_address : option Config.SocketAddr;
  ingress_config : Config.WebIngressConfig;
  root : PluginRootSnapshot;
  extra_defaults : list HostDefaultPlugin;
  extra_bindings : list HostBinding;
  extra_releases : list HostPluginRelease;
  factory_installers : list FactoryInstaller;
  middleware : list (WebIngressMiddleware X);
  diagnostics : option Observer;
  extra_adapters : list ExecutionAdapter;
  replicated_ingress : option ReplicatedIngressBuilder;
  replicated_lane : option ReplicatedLaneBuilder;
  replicated_transfers : option ReplicatedTransferBuilder;
  replicated_ready_timeout : option Config.Duration;
}.

Inductive WebHostError :=
| Bind (detail : str)
| Plan (detail : str)
| MissingEndpoint
| ListenerNotPublished
| RuntimeError (failure : RuntimeFailure)
| Adapter (error : AdapterError)
| Shutdown (outcome : ShutdownOutcome)
| ReplicationUnsupported (detail : str)
| SimulationUnsupported (detail : str)
| Replicated (error : RunnerError).

(** ** Builders *)

Definition new : NativeWebHost :=
  mkHost None Config.default_config default_snapshot [] [] [] [] [] None [] None None None None.

Definition set_root (root : PluginRootSnapshot) (h : NativeWebHost) : NativeWebHost :=
  mkHost (bind_address h) (ingress_config h) root (extra_defaults h) (extra_bindings h) (extra_releases h) (factory_installers h)
    (middleware h) (diagnostics h) (extra_adapters h) (replicated_ingress h) (replicated_lane h) (replicated_transfers h)
    (replicated_ready_timeout h).
Definition bind (address : Config.SocketAddr) (h : NativeWebHost) : NativeWebHost :=
  mkHost (Some address) (ingress_config h) (root h) (extra_defaults h) (extra_bindings h) (extra_releases h) (factory_installers h)
    (middleware h) (diagnostics h) (extra_adapters h) (replicated_ingress h) (replicated_lane h) (replicated_transfers h)
    (replicated_ready_timeout h).
Definition with_ingress_config (config : Config.WebIngressConfig) (h : NativeWebHost) : NativeWebHost :=
  mkHost (bind_address h) config (root h) (extra_defaults h) (extra_bindings h) (extra_releases h) (factory_installers h)
    (middleware h) (diagnostics h) (extra_adapters h) (replicated_ingress h) (replicated_lane h) (replicated_transfers h)
    (replicated_ready_timeout h).
Definition with_default (default : HostDefaultPlugin) (h : NativeWebHost) : NativeWebHost :=
  mkHost (bind_address h) (ingress_config h) (root h) (extra_defaults h ++ [default]) (extra_bindings h) (extra_releases h)
    (factory_installers h) (middleware h) (diagnostics h) (extra_adapters h) (replicated_ingress h) (replicated_lane h)
    (replicated_transfers h) (replicated_ready_timeout h).
Definition with_binding (binding : HostBinding) (h : NativeWebHost) : NativeWebHost :=
  mkHost (bind_address h) (ingress_config h) (root h) (extra_defaults h) (extra_bindings h ++ [binding]) (extra_releases h)
    (factory_installers h) (middleware h) (diagnostics h) (extra_adapters h) (replicated_ingress h) (replicated_lane h)
    (replicated_transfers h) (replicated_ready_timeout h).
Definition release (descriptor : PluginDescriptor) (h : NativeWebHost) : NativeWebHost :=
  mkHost (bind_address h) (ingress_config h) (root h) (extra_defaults h) (extra_bindings h)
    (extra_releases h ++ [new_release descriptor]) (factory_installers h) (middleware h) (diagnostics h) (extra_adapters h)
    (replicated_ingress h) (replicated_lane h) (replicated_transfers h) (replicated_ready_timeout h).
Definition push_installer (installer : FactoryInstaller) (h : NativeWebHost) : NativeWebHost :=
  mkHost (bind_address h) (ingress_config h) (root h) (extra_defaults h) (extra_bindings h) (extra_releases h)
    (factory_installers h ++ [installer]) (middleware h) (diagnostics h) (extra_adapters h) (replicated_ingress h)
    (replicated_lane h) (replicated_transfers h) (replicated_ready_timeout h).
Definition with_middleware (layer : WebIngressMiddleware X) (h : NativeWebHost) : NativeWebHost :=
  mkHost (bind_address h) (ingress_config h) (root h) (extra_defaults h) (extra_bindings h) (extra_releases h)
    (factory_installers h) (middleware h ++ [layer]) (diagnostics h) (extra_adapters h) (replicated_ingress h)
    (replicated_lane h) (replicated_transfers h) (replicated_ready_timeout h).
Definition with_tower_middleware (identity : str) (service : Request.WebIngressRequest -> ExtRun (X := X) TowerMiddlewareOutcome)
    (h : NativeWebHost) : NativeWebHost := with_middleware (tower_middleware (mkTower identity service)) h.
(** A Tower layer turns one service into another. *)
Definition with_tower_layer {S : Type} (identity : str) (layer : S -> Request.WebIngressRequest -> ExtRun (X := X) TowerMiddlewareOutcome)
    (service : S) (h : NativeWebHost) : NativeWebHost := with_tower_middleware identity (layer service) h.
Definition with_diagnostics (observer : Observer) (h : NativeWebHost) : NativeWebHost :=
  mkHost (bind_address h) (ingress_config h) (root h) (extra_defaults h) (extra_bindings h) (extra_releases h)
    (factory_installers h) (middleware h) (Some observer) (extra_adapters h) (replicated_ingress h)
    (replicated_lane h) (replicated_transfers h) (replicated_ready_timeout h).
Definition with_adapter (adapter : ExecutionAdapter) (h : NativeWebHost) : NativeWebHost :=
  mkHost (bind_address h) (ingress_config h) (root h) (extra_defaults h) (extra_bindings h) (extra_releases h)
    (factory_installers h) (middleware h) (diagnostics h) (extra_adapters h ++ [adapter]) (replicated_ingress h)
    (replicated_lane h) (replicated_transfers h) (replicated_ready_timeout h).
Definition with_replicated_ingress (builder : ReplicatedIngressBuilder) (h : NativeWebHost) : NativeWebHost :=
  mkHost (bind_address h) (ingress_config h) (root h) (extra_defaults h) (extra_bindings h) (extra_releases h)
    (factory_installers h) (middleware h) (diagnostics h) (extra_adapters h) (Some builder)
    (replicated_lane h) (replicated_transfers h) (replicated_ready_timeout h).
Definition with_replicated_lane (builder : ReplicatedLaneBuilder) (h : NativeWebHost) : NativeWebHost :=
  mkHost (bind_address h) (ingress_config h) (root h) (extra_defaults h) (extra_bindings h) (extra_releases h)
    (factory_installers h) (middleware h) (diagnostics h) (extra_adapters h) (replicated_ingress h)
    (Some builder) (replicated_transfers h) (replicated_ready_timeout h).
Definition with_replicated_transfers (builder : ReplicatedTransferBuilder) (h : NativeWebHost) : NativeWebHost :=
  mkHost (bind_address h) (ingress_config h) (root h) (extra_defaults h) (extra_bindings h) (extra_releases h)
    (factory_installers h) (middleware h) (diagnostics h) (extra_adapters h) (replicated_ingress h)
    (replicated_lane h) (Some builder) (replicated_ready_timeout h).
Definition with_replicated_ready_timeout (timeout : Config.Duration) (h : NativeWebHost) : NativeWebHost :=
  mkHost (bind_address h) (ingress_config h) (root h) (extra_defaults h) (extra_bindings h) (extra_releases h)
    (factory_installers h) (middleware h) (diagnostics h) (extra_adapters h) (replicated_ingress h)
    (replicated_lane h) (replicated_transfers h) (Some timeout).

Definition empty_configuration : Value N := Object [].
(** [serialized] is what [serde_json::to_value] makes of the configuration. *)
Definition json_configuration (serialized : Result str (Value N)) : Result WebHostError (Value N) := map_err Plan serialized.

Definition is_instance (plugin_id instance_key : str) (instance : PluginRootInstance) : bool :=
  bool_decide (id_plugin_id (instance_id instance) = plugin_id)
  && bool_decide (id_instance_key (instance_id instance) = instance_key).

Definition place (lane : option str) (instance : PluginRootInstance) : PluginRootInstance :=
  match lane with Some lane => with_execution_lane lane instance | None => instance end.

(** The instances after [push_instance]: an existing one is replaced and keeps its lane unless another is given. *)
Definition push_to (instances : list PluginRootInstance) (plugin_id instance_key : str) (configuration : Value N)
    (execution_lane : option str) : list PluginRootInstance :=
  let replacement := with_configuration configuration (new_instance plugin_id instance_key) in
  match list_find (fun i => is_instance plugin_id instance_key i = true) instances with
  | Some (index, existing) =>
      let lane := match execution_lane with Some lane => Some lane | None => execution_lane_of existing end in
      <[index := place lane replacement]> instances
  | None => instances ++ [place execution_lane replacement]
  end.

Definition push_instance (plugin_id instance_key : str) (configuration : Value N) (execution_lane : option str)
    (h : NativeWebHost) : NativeWebHost :=
  let pushed := new_snapshot (releases (root h)) (push_to (instances (root h)) plugin_id instance_key configuration execution_lane)
                  (disabled (root h)) in
  set_root (if dependency_selection_adopted (root h) then with_dependency_choices (dependency_choices (root h)) pushed else pushed) h.

(** The builders that enable an instance; [P] is its package, already linked. *)
Definition plugin (P : str) : NativeWebHost -> NativeWebHost := push_instance P INSTANCE_KEY empty_configuration None.
Definition plugin_on_lane (P lane : str) : NativeWebHost -> NativeWebHost :=
  push_instance P INSTANCE_KEY empty_configuration (Some lane).
Definition plugin_with (P : str) (serialized : Result str (Value N)) (h : NativeWebHost) : Result WebHostError NativeWebHost :=
  let? configuration := json_configuration serialized in Ok (push_instance P INSTANCE_KEY configuration None h).
Definition plugin_with_on_lane (P lane : str) (serialized : Result str (Value N)) (h : NativeWebHost) :
    Result WebHostError NativeWebHost :=
  let? configuration := json_configuration serialized in Ok (push_instance P INSTANCE_KEY configuration (Some lane) h).
Definition instance (P key : str) (serialized : Result str (Value N)) (h : NativeWebHost) : Result WebHostError NativeWebHost :=
  let? configuration := json_configuration serialized in Ok (push_instance P key configuration None h).
Definition instance_on_lane (P key lane : str) (serialized : Result str (Value N)) (h : NativeWebHost) :
    Result WebHostError NativeWebHost :=
  let? configuration := json_configuration serialized in Ok (push_instance P key configuration (Some lane) h).
Definition factory (installer : FactoryInstaller) (h : NativeWebHost) : NativeWebHost :=
  push_instance (package_id installer) INSTANCE_KEY empty_configuration None (push_installer installer h).
Definition enable (plugin_id : str) : NativeWebHost -> NativeWebHost :=
  push_instance plugin_id INSTANCE_KEY empty_configuration None.

(** ** The plan *)

Definition provides_capability (descriptor : PluginDescriptor) (capability_id : str) : bool :=
  existsb (fun capability => bool_decide (capability = capability_id)) (provided_capabilities descriptor).

Definition endpoint_ids_for (enabled_ids : list PluginInstanceId) (releases : list HostPluginRelease) (capability_id : str) :
    list PluginInstanceId :=
  filter (fun id =>
    existsb (fun release => bool_decide (plugin_id (descriptor release) = id_plugin_id id)
                            && provides_capability (descriptor release) capability_id) releases = true) enabled_ids.

(** The body of the loop over the discovered and the extra releases. *)
Definition add_release (releases : list HostPluginRelease) (release : HostPluginRelease) : list HostPluginRelease :=
  if bool_decide (plugin_id (descriptor release) = INGRESS_PACKAGE_ID) then releases else
  if existsb (fun existing => bool_decide (plugin_id (descriptor existing) = plugin_id (descriptor release))) releases
  then releases else releases ++ [release].

Definition plan_releases (discovered extra_releases : list HostPluginRelease) : list HostPluginRelease :=
  foldl add_release [new_release ingress_descriptor] (discovered ++ extra_releases).

Definition slot_counts (releases : list HostPluginRelease) : list (str * nat) :=
  foldl (fun counts release => let slot := root_slot (descriptor release) in
           map_insert slot (S (default 0 (map_get slot counts))) counts) [] releases.

Definition plan_slot (replicated : bool) (slot : str * nat) : HostSlot :=
  let '(id, count) := slot in
  if replicated && bool_decide (id = root_slot ingress_descriptor) then slot_many id else
  if (count =? 1)%nat then slot_one id else slot_many id.

Definition plan_defaults (configuration : Value N) (extra_defaults : list HostDefaultPlugin) : list HostDefaultPlugin :=
  default_with_configuration configuration (new_default INGRESS_PACKAGE_ID INSTANCE_KEY) :: extra_defaults.

Definition enabled_ids (defaults : list HostDefaultPlugin) (root : PluginRootSnapshot) : list PluginInstanceId :=
  (default_id <$> defaults) ++ (instance_id <$> instances root).

(** The body of the loop over the ingress instances. *)
Definition ingress_bindings (admission : RequestAdmissionPlan) (http_ids stream_ids websocket_ids : list PluginInstanceId)
    (ingress_id : PluginInstanceId) : list HostBinding :=
  [with_admission admission (to_instances ingress_id HTTP_ENDPOINT http_ids)]
  ++ (if is_empty stream_ids then [] else [with_admission admission (to_instances ingress_id STREAM_ENDPOINT stream_ids)])
  ++ (if is_empty websocket_ids then [] else [with_admission admission (to_instances ingress_id WEBSOCKET_ENDPOINT websocket_ids)]).

(** [BTreeSet] of the lanes. *)
Definition plan_lanes (root : PluginRootSnapshot) : list str :=
  (foldl (fun lanes lane => map_insert lane tt lanes) [(lit "main", tt)] (omap execution_lane_of (instances root))).*1.

Definition resolve_web_plan (config : Config.WebIngressConfig) (root : PluginRootSnapshot) (extra_defaults : list HostDefaultPlugin)
    (extra_bindings : list HostBinding) (extra_releases : list HostPluginRelease) (replicated : bool) :
    Result WebHostError ResolvedAppPlan :=
  let? discovered := map_err RuntimeError host_catalog in
  let releases := plan_releases discovered extra_releases in
  let slots := plan_slot replicated <$> slot_counts releases in
  let? configuration := map_err Plan (config_to_value config) in
  let defaults := plan_defaults configuration extra_defaults in
  let enabled_ids := enabled_ids defaults root in
  let http_ids := endpoint_ids_for enabled_ids releases HTTP_ENDPOINT in
  if is_empty http_ids then Err MissingEndpoint else
  let '(queue_capacity, max_concurrency) := Config.endpoint_admission_limits config in
  let admission := new_admission queue_capacity max_concurrency in
  let ingress_ids := filter (fun id => id_plugin_id id = INGRESS_PACKAGE_ID) enabled_ids in
  let stream_ids := endpoint_ids_for enabled_ids releases STREAM_ENDPOINT in
  let websocket_ids := endpoint_ids_for enabled_ids releases WEBSOCKET_ENDPOINT in
  let bindings := concat (ingress_bindings admission http_ids stream_ids websocket_ids <$> ingress_ids) ++ extra_bindings in
  let host := with_bindings bindings (with_execution_lanes (new_lane <$> plan_lanes root) (new_catalog slots releases defaults)) in
  map_err Plan (resolve_plugin_root host root).

(** The configuration with the listener address the host was given. *)
Definition host_config (h : NativeWebHost) : Result WebHostError Config.WebIngressConfig :=
  match bind_address h with
  | Some address => map_err Bind (Config.with_bind_address (ingress_config h) address)
  | None => Ok (ingress_config h)
  end.

Definition resolve_plan_with_replication (h : NativeWebHost) (replicated : bool) : Result WebHostError ResolvedAppPlan :=
  let? config := host_config h in
  let releases := (new_release ∘ installer_descriptor <$> factory_installers h) ++ extra_releases h in
  resolve_web_plan config (root h) (extra_defaults h) (extra_bindings h) releases replicated.
Definition resolve_plan (h : NativeWebHost) : Result WebHostError ResolvedAppPlan := resolve_plan_with_replication h false.
Definition resolve_replicated_plan (h : NativeWebHost) : Result WebHostError ResolvedAppPlan := resolve_plan_with_replication h true.

(** ** Single-lane hosts *)

Record EventHostComponents := mkComponents {
  c_plan : ResolvedAppPlan; c_registry : NativePluginRegistry;
  c_ingress : Event.EventFactory (X := X) * option Observer; c_adapters : list ExecutionAdapter }.

Definition install_all (installers : list FactoryInstaller) (registry : NativePluginRegistry) : NativePluginRegistry :=
  foldl (fun registry installer => install installer registry) registry installers.

Definition into_event_components (h : NativeWebHost) : Result WebHostError EventHostComponents :=
  let? plan := resolve_plan h in
  let ingress := (foldl Event.with_middleware Event.new_factory (middleware h), diagnostics h) in
  let registry := install_all (factory_installers h) (with_event_ingress ingress new_registry) in
  Ok (mkComponents plan (with_linked_factories registry) ingress (extra_adapters h)).

Definition adapter_catalog (registry : NativePluginRegistry) (adapters : list ExecutionAdapter) :
    Result WebHostError ExecutionAdapterCatalog :=
  try_fold (fun catalog adapter => map_err Adapter (with_shared_adapter adapter catalog)) (single registry) adapters.

(** [prepare_simulated]. *)
Definition prepare_simulated (h : NativeWebHost) :
    Result WebHostError (ResolvedAppPlan * NativePluginRegistry * (Event.EventFactory (X := X) * option Observer)) :=
  let? components := into_event_components h in
  if negb (is_empty (c_adapters components))
  then Err (SimulationUnsupported (lit "additional Execution Adapters require their own simulated Host boundary")) else
  Ok (c_plan components, c_registry components, c_ingress components).

Section starts.
(** [Kernel::start]: it drives the plugins of the plan, so it leaves the cells the ingress shares in a new state. *)
Context {NativeApp : Type}.
Context (kernel_start_event : ResolvedAppPlan -> ExecutionAdapterCatalog -> Event.EventFactory (X := X) -> X ->
  X * Event.EventFactory (X := X) * Result RuntimeFailure NativeApp).
Context (kernel_start : ResolvedAppPlan -> ExecutionAdapterCatalog -> Native.WebIngressState -> X ->
  X * Native.WebIngressState * Result RuntimeFailure NativeApp).
(** [app.shutdown(Duration::from_secs(3))]: [None] when the outcome is clean. *)
Context (app_shutdown : NativeApp -> X -> X * option ShutdownOutcome).

Record RunningEventWebHost := mkRunningEvent { e_app : NativeApp; e_ingress : Event.EventFactory (X := X) }.
Record RunningNativeWebHost := mkRunningNative { n_app : NativeApp; n_address : Config.SocketAddr; n_state : Native.WebIngressState }.

Definition start_event (h : NativeWebHost) (x : X) : X * Result WebHostError RunningEventWebHost :=
  match into_event_components h with
  | Err error => (x, Err error)
  | Ok components =>
      match adapter_catalog (c_registry components) (c_adapters components) with
      | Err error => (x, Err error)
      | Ok catalog =>
          let '(x, ingress, app) := kernel_start_event (c_plan components) catalog (c_ingress components).1 x in
          (x, let? app := map_err RuntimeError app in Ok (mkRunningEvent app ingress))
      end
  end.

Definition native_ingress (h : NativeWebHost) : Native.WebIngressFactory (X := X) * option Observer :=
  (foldl Native.with_middleware Native.new_factory (middleware h), diagnostics h).

Definition start (h : NativeWebHost) (x : X) : X * Result WebHostError RunningNativeWebHost :=
  match resolve_plan h with
  | Err error => (x, Err error)
  | Ok plan =>
      let registry := with_linked_factories (install_all (factory_installers h) (with_native_ingress (native_ingress h) new_registry)) in
      match adapter_catalog registry (extra_adapters h) with
      | Err error => (x, Err error)
      | Ok catalog =>
          let '(x, state, app) := kernel_start plan catalog Native.new_state x in
          (x, let? app := map_err RuntimeError app in
              let? address := ok_or ListenerNotPublished (Native.local_address state) in
              Ok (mkRunningNative app address state))
      end
  end.

Definition shutdown (app : NativeApp) (x : X) : X * Result WebHostError unit :=
  let '(x, outcome) := app_shutdown app x in
  (x, match outcome with None => Ok () | Some outcome => Err (Shutdown outcome) end).

(** [run] until Ctrl-C: [signal] is what waiting for it yields. *)
Definition run (signal : Result str unit) (h : NativeWebHost) (x : X) : X * Result WebHostError unit :=
  match start h x with
  | (x, Err error) => (x, Err error)
  | (x, Ok running) =>
      match map_err Bind signal with
      | Err error => (x, Err error)
      | Ok _ => shutdown (n_app running) x
      end
  end.

End starts.

(** ** Replicated hosts *)

Definition default_replicated_transfers : CrossLaneTransferCatalog :=
  transfer_stream "EndpointConnectWebsocket" "connect_websocket"
    (transfer_request "EndpointDescribeWebsocket" "describe_websocket"
      (transfer_stream "StreamEndpointHandle" "handle_stream"
        (transfer_request "StreamEndpointDescribe" "describe_stream"
          (transfer_request "EndpointHandle" "handle" (transfer_request "EndpointDescribe" "describe" new_transfers))))).

(** The body of the loop over the lanes of the first plan. *)
Definition push_replica (replica_configuration : Value N) (h : NativeWebHost) (lane : ExecutionLanePlan) : NativeWebHost :=
  if bool_decide (lane_id lane = lit "main") then h else
  push_instance INGRESS_PACKAGE_ID (lit "replica-" ++ lane_id lane) replica_configuration (Some (lane_id lane)) h.

(** [start_replicated] up to the listener: the host with its replicas, the configuration and the plan. *)
Definition replicated_plan (h : NativeWebHost) : Result WebHostError (NativeWebHost * Config.WebIngressConfig * ResolvedAppPlan) :=
  if negb (is_empty (factory_installers h))
  then Err (ReplicationUnsupported (lit "hand-written factories from factory() are single-lane; install one per lane with with_replicated_lane")) else
  if negb (is_empty (middleware h)) || match diagnostics h with Some _ => true | None => false end
  then Err (ReplicationUnsupported (lit "Ingress middleware and diagnostics require with_replicated_ingress")) else
  if negb (is_empty (extra_adapters h))
  then Err (ReplicationUnsupported (lit "Execution Adapters require with_replicated_lane")) else
  let? initial_plan := resolve_replicated_plan h in
  let? config := host_config h in
  let? replica_configuration := map_err Plan (config_to_value config) in
  let h := foldl (push_replica replica_configuration) h (execution_lanes initial_plan) in
  let? plan := resolve_replicated_plan h in
  Ok (h, config, plan).

Definition lane_indexes (plan : ResolvedAppPlan) : list (str * nat) :=
  map_of_list ((fun '(index, lane) => (lane_id lane, index)) <$> enumerate (execution_lanes plan)).

(** The lane's registry holds the replicated ingress and every linked factory. *)
Definition finish_lane (h : NativeWebHost) (lane : str) (ingress : Native.WebIngressFactory (X := X)) :
    Result str ExecutionAdapterCatalog :=
  let ingress := match replicated_ingress h with Some builder => builder lane (ingress, None) | None => (ingress, None) end in
  let registry := with_linked_factories (with_native_ingress ingress new_registry) in
  match replicated_lane h with Some builder => builder lane registry | None => Ok (single registry) end.

(** [lane_builder_fn], run on the thread of each lane; the debug text of a failure is an argument. *)
Definition build_lane (debug : RuntimeFailure -> str) (h : NativeWebHost) (plan : ResolvedAppPlan)
    (coordinator : Replication.Coordinator) (lane : str) : Replication.Coordinator * Result str ExecutionAdapterCatalog :=
  match map_get lane (lane_indexes plan) with
  | None => (coordinator, Err (lit "replicated Web Host received an undeclared Execution Lane `" ++ lane ++ lit "`"))
  | Some replica_index =>
      match Native.replicated_at coordinator (Z.of_nat replica_index) with
      | (coordinator, Err error) => (coordinator, Err (lit "could not allocate Web Ingress replica: " ++ debug error))
      | (coordinator, Ok ingress) => (coordinator, finish_lane h lane ingress)
      end
  end.

Definition replicated_transfer_catalog (h : NativeWebHost) : CrossLaneTransferCatalog :=
  match replicated_transfers h with
  | Some builder => builder default_replicated_transfers
  | None => default_replicated_transfers
  end.

Section replicated_start.
(** [ReplicatedNativeApp::start_with_fallible_transfer_catalog]: it calls the lane builder on the coordinator the lanes share. *)
Context {ReplicatedNativeApp : Type}.
Context (start_lanes : ResolvedAppPlan -> (Replication.Coordinator -> str -> Replication.Coordinator * Result str ExecutionAdapterCatalog) ->
  CrossLaneTransferCatalog -> option Config.Duration -> Replication.Coordinator ->
  Replication.Coordinator * Result RunnerError ReplicatedNativeApp).

Definition start_replicated (debug : RuntimeFailure -> str) (os : Replication.BindCalls) (h : NativeWebHost) :
    Result WebHostError (ReplicatedNativeApp * Replication.Coordinator) :=
  let? (h, config, plan) := replicated_plan h in
  let? coordinator := map_err RuntimeError (Replication.bind config (len (lane_indexes plan)) os) in
  let '(coordinator, app) := start_lanes plan (build_lane debug h plan) (replicated_transfer_catalog h)
                               (replicated_ready_timeout h) coordinator in
  let? app := map_err Replicated app in
  Ok (app, coordinator).

(** [ReplicatedNativeApp::shutdown]. *)
Context (lanes_shutdown : ReplicatedNativeApp -> X -> X * Result RunnerError unit).

Definition shutdown_replicated (app : ReplicatedNativeApp) (x : X) : X * Result WebHostError unit :=
  let '(x, r) := lanes_shutdown app x in (x, map_err Replicated r).

Definition run_replicated (signal : Result str unit) (debug : RuntimeFailure -> str) (os : Replication.BindCalls) (h : NativeWebHost) (x : X) :
    X * Result WebHostError unit :=
  match start_replicated debug os h with
  | Err error => (x, Err error)
  | Ok (app, _) =>
      match map_err Bind signal with
      | Err error => (x, Err error)
      | Ok _ => shutdown_replicated app x
      end
  end.

End replicated_start.

(** ** Instances of the root *)

Definition key_of (instance : PluginRootInstance) : str * str :=
  (id_plugin_id (instance_id instance), id_instance_key (instance_id instance)).

(** The lane of the first instance with this key. *)
Definition lane_at (key : str * str) (instances : list PluginRootInstance) : option str :=
  (snd <$> list_find (fun i => key_of i = key) instances) |> execution_lane_of.

Context `{!AppPlanLaws N}.

Lemma is_instance_spec p k i : is_instance p k i = true <-> key_of i = (p, k).
Proof. unfold is_instance, key_of. rewrite andb_true_iff, !bool_decide_eq_true. split; [by intros [-> ->] | by intros [= -> ->]]. Qed.

Lemma replacement_key p k c lane : key_of (place lane (with_configuration c (new_instance p k))) = (p, k).
Proof.
  unfold key_of, place. destruct (new_instance_id p k) as [Hp Hk].
  destruct lane; rewrite ?lane_instance_id, configuration_id; by rewrite Hp, Hk.
Qed.

Lemma replacement_lane p k c lane : execution_lane_of (place lane (with_configuration c (new_instance p k))) = lane.
Proof. destruct lane; cbn; [apply lane_lane | by rewrite configuration_lane, new_instance_lane]. Qed.

(** What [push_to] leaves where: the new instance takes the place of the one with its key, or the last place. *)
Definition Pushed (p k : str) (c : Value N) (lane : option str) (before after : list PluginRootInstance) : Prop :=
  exists l1 old l2, before = l1 ++ old ++ l2 /\ Forall (fun i => key_of i <> (p, k)) l1 /\ (old = [] -> l2 = [])
    /\ match old with [] => True | [i] => key_of i = (p, k) | _ => False end
    /\ after = l1 ++ [place (match lane with Some _ => lane | None => head old |> execution_lane_of end)
                        (with_configuration c (new_instance p k))] ++ l2.

Lemma pushed p k c lane l : Pushed p k c lane l (push_to l p k c lane).
Proof.
  unfold push_to. destruct (list_find _ l) as [[index existing]|] eqn:Ef.
  - apply list_find_Some in Ef as (Hi & He%is_instance_spec & Hbefore).
    exists (take index l), [existing], (drop (S index) l). split_and!.
    + cbn. by rewrite take_drop_middle.
    + apply Forall_lookup_2. intros i x Hx. apply lookup_take_Some in Hx as [Hx Hlt].
      intros Hk. apply (Hbefore i x Hx Hlt). by apply is_instance_spec.
    + done.
    + done.
    + rewrite insert_take_drop by (by eapply lookup_lt_Some). cbn. by destruct lane.
  - exists l, [], []. rewrite !app_nil_r. split_and!; try done.
    + apply list_find_None in Ef. eapply Forall_impl; [exact Ef|]. cbn. intros i Hi Hk. apply Hi. by apply is_instance_spec.
    + by destruct lane.
Qed.

Lemma lane_at_app key l1 l2 : Forall (fun i => key_of i <> key) l1 -> lane_at key (l1 ++ l2) = lane_at key l2.
Proof.
  unfold lane_at. intros Hl. rewrite list_find_app_r by (by apply list_find_None). by destruct (list_find _ l2) as [[? ?]|].
Qed.

(** An invariant of every host: the instances have distinct keys. *)
Definition UniqueKeys (l : list PluginRootInstance) : Prop := NoDup (key_of <$> l).

Lemma push_to_exact p k c lane l : UniqueKeys l ->
  let after := push_to l p k c lane in
  UniqueKeys after
  /\ (forall key, key ∈ key_of <$> after <-> key = (p, k) \/ key ∈ key_of <$> l)
  /\ (forall i, key_of i <> (p, k) -> i ∈ after <-> i ∈ l)
  /\ place (match lane with Some _ => lane | None => lane_at (p, k) l end) (with_configuration c (new_instance p k)) ∈ after
  /\ lane_at (p, k) after = match lane with Some _ => lane | None => lane_at (p, k) l end.
Proof.
  intros Hl. destruct (pushed p k c lane l) as (l1 & old & l2 & -> & Hne & Hnil & Hold & Ha). cbn zeta. rewrite Ha. clear Ha.
  set (new := place _ _). assert (Hnew : key_of new = (p, k)) by apply replacement_key.
  assert (Hlane : (head old |> execution_lane_of) = lane_at (p, k) (l1 ++ old ++ l2)).
  { rewrite lane_at_app by done. destruct old as [|o [|]]; [by rewrite Hnil | | done]. unfold lane_at. cbn. by rewrite decide_True. }
  unfold UniqueKeys in *. rewrite !fmap_app in *. cbn [fmap list_fmap] in *. rewrite Hnew.
  assert (Hk2 : (p, k) ∉ key_of <$> l1).
  { rewrite Forall_forall in Hne. intros (i & Hi & Hin)%list_elem_of_fmap. by apply (Hne i). }
  split_and!.
  - destruct old as [|o [|]]; cbn [fmap list_fmap] in Hl; [|by rewrite Hold in Hl|done]. rewrite Hnil in * by done.
    cbn in *. rewrite app_nil_r in Hl. apply NoDup_app. split; [done|]. split; [|by apply NoDup_singleton].
    intros x Hx ->%list_elem_of_singleton. done.
  - intros key. destruct old as [|o [|]]; [rewrite Hnil by done | |done]; cbn [fmap list_fmap]; rewrite ?Hold; set_solver.
  - intros i Hi. assert (i <> new) by congruence. destruct old as [|o [|]]; [rewrite Hnil by done; set_solver| |done].
    assert (i <> o) by congruence. set_solver.
  - rewrite <- Hlane. fold new. set_solver.
  - rewrite lane_at_app by done. unfold lane_at at 1. cbn. rewrite decide_True by done. cbn. subst new. rewrite replacement_lane. by rewrite Hlane.
Qed.

Lemma root_push h p k c lane : instances (root (push_instance p k c lane h)) = push_to (instances (root h)) p k c lane
  /\ releases (root (push_instance p k c lane h)) = releases (root h) /\ disabled (root (push_instance p k c lane h)) = disabled (root h)
  /\ dependency_selection_adopted (root (push_instance p k c lane h)) = dependency_selection_adopted (root h)
  /\ (dependency_selection_adopted (root h) = true ->
        dependency_choices (root (push_instance p k c lane h)) = dependency_choices (root h)).
Proof.
  unfold push_instance. cbn [root set_root]. destruct (dependency_selection_adopted (root h)) eqn:Ea.
  - rewrite choices_instances, choices_releases, choices_disabled, choices_adopted, choices_choices.
    by rewrite snapshot_instances, snapshot_releases, snapshot_disabled.
  - by rewrite snapshot_instances, snapshot_releases, snapshot_disabled, snapshot_adopted.
Qed.

(** Everything but the root. *)
Lemma push_keeps h p k c lane : set_root (root h) (push_instance p k c lane h) = h.
Proof. by destruct h. Qed.

(** ** The plan's parts *)

(** The releases seen so far are exactly the ingress and, in their order, the first of each other package. *)
Definition FirstReleases (all releases : list HostPluginRelease) : Prop :=
  releases !! 0 = Some (new_release ingress_descriptor) /\ tail releases `sublist_of` all
  /\ NoDup ((fun r => plugin_id (descriptor r)) <$> releases)
  /\ (forall r, r ∈ releases <-> r = new_release ingress_descriptor
        \/ plugin_id (descriptor r) <> INGRESS_PACKAGE_ID
           /\ exists i, all !! i = Some r /\ forall j r', all !! j = Some r' -> plugin_id (descriptor r') = plugin_id (descriptor r) -> i <= j)
  /\ forall r, r ∈ all -> plugin_id (descriptor r) ∈ (fun r => plugin_id (descriptor r)) <$> releases.

Section releases.
Context (ingress_package : plugin_id ingress_descriptor = INGRESS_PACKAGE_ID).

Lemma add_release_first all releases r : FirstReleases all releases -> FirstReleases (all ++ [r]) (add_release releases r).
Proof.
  intros (Hh & Hsub & Hnd & Hin & Hall). unfold add_release.
  assert (Hkeep : plugin_id (descriptor r) ∈ (fun r => plugin_id (descriptor r)) <$> releases ->
    FirstReleases (all ++ [r]) releases).
  { intros Hr. split_and!; [done | by apply sublist_inserts_r | done | |].
    - intros r'. rewrite Hin. split.
      + intros [->|(Hp & i & Hi & Hmin)]; [by left|]. right. split; [done|]. exists i.
        split; [by apply lookup_app_l_Some|]. intros j r'' [Hj|[Hlen Hj]]%lookup_app_Some Hp''; [by eapply Hmin|].
        apply lookup_lt_Some in Hi. lia.
      + intros [->|(Hp & i & [Hi|[Hlen Hi]]%lookup_app_Some & Hmin)]; [by left| |].
        * right. split; [done|]. exists i. split; [done|]. intros j r'' Hj Hp''. eapply Hmin; [by apply lookup_app_l_Some | done].
        * assert (r' = r) as -> by (destruct (i - length all) as [|[|]]; by simplify_eq/=).
          apply list_elem_of_fmap in Hr as (r0 & Hr0 & Hr0in). apply Hin in Hr0in as [->|(Hp0 & j & Hj & _)].
          { rewrite descriptor_new, ingress_package in Hr0. congruence. }
          assert (i <= j) by (eapply Hmin; [by apply lookup_app_l_Some | done]). apply lookup_lt_Some in Hj. lia.
    - intros r' [Hr'| ->%list_elem_of_singleton]%elem_of_app; [by apply Hall | done]. }
  case_bool_decide as Hi.
  { apply Hkeep. rewrite Hi. apply list_elem_of_fmap. exists (new_release ingress_descriptor).
    rewrite descriptor_new. split; [done|]. by eapply list_elem_of_lookup_2. }
  destruct (existsb _ releases) eqn:Ee.
  { apply existsb_exists in Ee as (r0 & Hr0%list_elem_of_In & Hp%bool_decide_eq_true). apply Hkeep. rewrite <- Hp.
    by apply list_elem_of_fmap_2 with (f := fun r => plugin_id (descriptor r)). }
  assert (Hnew : plugin_id (descriptor r) ∉ (fun r => plugin_id (descriptor r)) <$> releases).
  { intros (r0 & Hp & Hr0)%list_elem_of_fmap. apply not_true_iff_false in Ee. apply Ee, existsb_exists. exists r0.
    split; [by apply list_elem_of_In | by apply bool_decide_eq_true]. }
  split_and!.
  - by apply lookup_app_l_Some.
  - destruct releases as [|r0 rest]; [done|]. by apply sublist_app.
  - rewrite fmap_app. apply NoDup_app. split; [done|]. split; [|by apply NoDup_singleton]. cbn.
    intros x Hx ->%list_elem_of_singleton. done.
  - intros r'. rewrite elem_of_app, list_elem_of_singleton, Hin. split.
    + intros [[->|(Hp & i & Hii & Hmin)]| ->]; [by left | |].
      * right. split; [done|]. exists i. split; [by apply lookup_app_l_Some|].
        intros j r'' [Hj|[Hlen Hj]]%lookup_app_Some Hp''; [by eapply Hmin|]. apply lookup_lt_Some in Hii. lia.
      * right. split; [done|]. exists (length all). split; [by apply list_lookup_middle|].
        intros j r'' [Hj|[Hlen Hj]]%lookup_app_Some Hp''; [|lia]. exfalso. apply Hnew. rewrite <- Hp''. apply Hall.
        by eapply list_elem_of_lookup_2.
    + intros [->|(Hp & i & [Hii|[Hlen Hii]]%lookup_app_Some & Hmin)]; [by left; left| |].
      * left. right. split; [done|]. exists i. split; [done|]. intros j r'' Hj Hp''. eapply Hmin; [by apply lookup_app_l_Some | done].
      * right. by destruct (i - length all) as [|[|]]; simplify_eq/=.
  - intros r' [Hr'| ->%list_elem_of_singleton]%elem_of_app; rewrite fmap_app, elem_of_app; [left; by apply Hall | right].
    by apply list_elem_of_singleton.
Qed.

Lemma plan_releases_first discovered extra : FirstReleases (discovered ++ extra) (plan_releases discovered extra).
Proof.
  unfold plan_releases. induction (discovered ++ extra) as [|r all IH] using rev_ind.
  - cbn. split_and!; [done | done | by apply NoDup_singleton | | by intros r ?%not_elem_of_nil].
    intros r. rewrite list_elem_of_singleton. naive_solver.
  - rewrite foldl_app. cbn. by apply add_release_first.
Qed.

Lemma slot_counts_exact releases : MapOk (slot_counts releases)
  /\ forall id, map_get id (slot_counts releases) =
       let n := length (filter (fun r => root_slot (descriptor r) = id) releases) in if (n =? 0)%nat then None else Some n.
Proof.
  unfold slot_counts. induction releases as [|r releases [Hm IH]] using rev_ind; [by split; [constructor|]|].
  rewrite foldl_app. cbn [foldl]. split; [by apply map_insert_ok|]. intros id.
  rewrite filter_app, length_app, filter_cons, filter_nil. cbn zeta. case_decide as Hid.
  - rewrite Hid, map_get_insert_eq by done. rewrite IH. cbn zeta.
    destruct (length _) as [|n] eqn:En; [done|]. cbn. by rewrite Nat.add_1_r.
  - rewrite map_get_insert_ne by done. rewrite IH. cbn zeta. cbn [length]. by rewrite Nat.add_0_r.
Qed.

(** The slot of each root slot, by how many releases share it. *)
Definition slot_of (replicated : bool) (releases : list HostPluginRelease) (id : str) : HostSlot :=
  if replicated && bool_decide (id = root_slot ingress_descriptor)
     || negb (length (filter (fun r => root_slot (descriptor r) = id) releases) =? 1)%nat
  then slot_many id else slot_one id.

Lemma plan_slots_exact replicated releases :
  plan_slot replicated <$> slot_counts releases = slot_of replicated releases <$> (slot_counts releases).*1.
Proof.
  destruct (slot_counts_exact releases) as [Hm Hc]. rewrite <- list_fmap_compose. apply list_fmap_ext.
  intros i [id n] Hi%list_elem_of_lookup_2. apply (map_get_ok _ _ _ Hm) in Hi. rewrite Hc in Hi. cbn zeta in Hi.
  unfold slot_of, plan_slot. cbn [compose fst]. destruct (length _) as [|m]; [done|]. injection Hi as <-.
  by destruct (replicated && _), (S m =? 1).
Qed.

Lemma plan_lanes_exact root : StronglySorted key_lt (plan_lanes root)
  /\ forall lane, lane ∈ plan_lanes root <-> lane = lit "main" \/ exists i, i ∈ instances root /\ execution_lane_of i = Some lane.
Proof.
  unfold plan_lanes.
  assert (Hg : forall l m, MapOk m -> MapOk (foldl (fun lanes lane => map_insert lane tt lanes) m l)
    /\ forall lane, lane ∈ (foldl (fun lanes lane => map_insert lane tt lanes) m l).*1 <-> lane ∈ m.*1 \/ lane ∈ l).
  { induction l as [|a l IH]; intros m Hm; cbn [foldl]; [set_solver|]. destruct (IH (map_insert a tt m)) as [Hok Hin]; [by apply map_insert_ok|].
    split; [done|]. intros lane. rewrite Hin, map_insert_keys, elem_of_cons. tauto. }
  destruct (Hg (omap execution_lane_of (instances root)) [(lit "main", tt)]) as [Hok Hin]; [by repeat constructor|].
  split; [exact Hok|]. intros lane. rewrite Hin, list_elem_of_omap. cbn. rewrite list_elem_of_singleton. naive_solver.
Qed.

(** An enabled instance provides a capability when a release of its package does. *)
Definition Provides (releases : list HostPluginRelease) (capability_id : str) (id : PluginInstanceId) : Prop :=
  exists r, r ∈ releases /\ plugin_id (descriptor r) = id_plugin_id id /\ capability_id ∈ provided_capabilities (descriptor r).

#[global] Instance Provides_dec releases capability_id id : Decision (Provides releases capability_id id).
Proof.
  refine (cast_if (decide (Exists (fun r => plugin_id (descriptor r) = id_plugin_id id /\ capability_id ∈ provided_capabilities (descriptor r)) releases)));
    unfold Provides; by rewrite <- Exists_exists.
Defined.

Lemma endpoint_ids_exact enabled releases capability :
  endpoint_ids_for enabled releases capability = filter (Provides releases capability) enabled.
Proof.
  apply list_filter_iff. intros id. unfold Provides, provides_capability. rewrite existsb_exists. split.
  - intros (r & Hr%list_elem_of_In & [Hp%bool_decide_eq_true Hc]%andb_prop). exists r. split_and!; [done..|].
    apply existsb_exists in Hc as (c & Hc%list_elem_of_In & ->%bool_decide_eq_true). done.
  - intros (r & Hr & Hp & Hc). exists r. split; [by apply list_elem_of_In|]. apply andb_true_intro.
    split; [by apply bool_decide_eq_true|]. apply existsb_exists. exists capability. split; [by apply list_elem_of_In | by apply bool_decide_eq_true].
Qed.

(** The bindings of one ingress instance: for each kind of endpoint that some enabled instance provides, in this order, one
    binding to all that do, in the order in which they are enabled. *)
Definition required_bindings (admission : RequestAdmissionPlan) (enabled : list PluginInstanceId) (releases : list HostPluginRelease)
    (ingress_id : PluginInstanceId) : list HostBinding :=
  omap (fun capability =>
    match filter (Provides releases capability) enabled with
    | [] => None
    | ids => Some (with_admission admission (to_instances ingress_id capability ids))
    end) [HTTP_ENDPOINT; STREAM_ENDPOINT; WEBSOCKET_ENDPOINT].

Lemma ingress_bindings_exact admission enabled releases ingress_id : endpoint_ids_for enabled releases HTTP_ENDPOINT <> [] ->
  ingress_bindings admission (endpoint_ids_for enabled releases HTTP_ENDPOINT) (endpoint_ids_for enabled releases STREAM_ENDPOINT)
    (endpoint_ids_for enabled releases WEBSOCKET_ENDPOINT) ingress_id
  = required_bindings admission enabled releases ingress_id.
Proof.
  rewrite !endpoint_ids_exact. unfold ingress_bindings, required_bindings. cbn [omap list_omap]. intros Hh.
  by destruct (filter (Provides releases HTTP_ENDPOINT) enabled), (filter (Provides releases STREAM_ENDPOINT) enabled),
    (filter (Provides releases WEBSOCKET_ENDPOINT) enabled).
Qed.

Lemma no_endpoint_ids enabled releases capability :
  endpoint_ids_for enabled releases capability <> [] <-> exists id, id ∈ enabled /\ Provides releases capability id.
Proof.
  rewrite endpoint_ids_exact. split.
  - destruct (filter _ _) as [|id l] eqn:El; [done|]. intros _. exists id. assert (Hid : id ∈ filter (Provides releases capability) enabled)
      by (rewrite El; by left). by apply list_elem_of_filter in Hid as [? ?].
  - intros (id & Hid & Hp) Hn. assert (Hin : id ∈ filter (Provides releases capability) enabled) by by apply list_elem_of_filter.
    rewrite Hn in Hin. by apply not_elem_of_nil in Hin.
Qed.

(** ** Properties *)

(** C25: the plan of a host is resolved from exactly what is enabled. The releases given to the resolver are the ingress
    and, for every other package, the first release discovered or added, each package once and in that order; there is one slot
    per root slot, of many instances when several releases share it or when it is the replicated ingress's; the lanes are
    "main" and those of the root, in order and without repetition. Every enabled ingress instance is bound, under the configured
    admission, by one binding for each kind of endpoint to every enabled instance whose package has a release that provides it, in
    the order in which they are enabled, and to nothing when there is none; the host's own bindings follow, and nothing else. Without an enabled HTTP
    endpoint there is no plan, only [MissingEndpoint]; every other failure is the one of its step. *)
Theorem web_plan_exact config root extra_defaults extra_bindings extra_releases replicated :
  match host_catalog, config_to_value config with
  | Err failure, _ => resolve_web_plan config root extra_defaults extra_bindings extra_releases replicated = Err (RuntimeError failure)
  | Ok _, Err error => resolve_web_plan config root extra_defaults extra_bindings extra_releases replicated = Err (Plan error)
  | Ok discovered, Ok configuration =>
      exists releases slots lanes,
        let defaults := default_with_configuration configuration (new_default INGRESS_PACKAGE_ID INSTANCE_KEY) :: extra_defaults in
        let enabled := (default_id <$> defaults) ++ (instance_id <$> instances root) in
        FirstReleases (discovered ++ extra_releases) releases
        /\ (StronglySorted key_lt slots /\ forall id, id ∈ slots <-> exists r, r ∈ releases /\ root_slot (descriptor r) = id)
        /\ (StronglySorted key_lt lanes /\ forall lane, lane ∈ lanes <->
              lane = lit "main" \/ exists i, i ∈ instances root /\ execution_lane_of i = Some lane)
        /\ (resolve_web_plan config root extra_defaults extra_bindings extra_releases replicated = Err MissingEndpoint
              <-> ~ exists id, id ∈ enabled /\ Provides releases HTTP_ENDPOINT id)
        /\ ((exists id, id ∈ enabled /\ Provides releases HTTP_ENDPOINT id) ->
              resolve_web_plan config root extra_defaults extra_bindings extra_releases replicated =
              map_err Plan (resolve_plugin_root
                (with_bindings (concat (required_bindings (new_admission 0 (Config.max_concurrent_requests config)) enabled releases
                                          <$> filter (fun id => id_plugin_id id = INGRESS_PACKAGE_ID) enabled) ++ extra_bindings)
                  (with_execution_lanes (new_lane <$> lanes)
                  (new_catalog (slot_of replicated releases <$> slots) releases defaults))) root))
  end.
Proof.
  unfold resolve_web_plan. destruct host_catalog as [discovered|]; [|done]. cbn [map_err].
  destruct (config_to_value config) as [configuration|]; [|done]. cbn [map_err].
  set (releases := plan_releases discovered extra_releases).
  set (enabled := enabled_ids (plan_defaults configuration extra_defaults) root).
  exists releases, (slot_counts releases).*1, (plan_lanes root). cbn zeta.
  fold (plan_defaults configuration extra_defaults). fold (enabled_ids (plan_defaults configuration extra_defaults) root). fold enabled.
  destruct (slot_counts_exact releases) as [Hsm Hsc].
  pose proof (no_endpoint_ids enabled releases HTTP_ENDPOINT) as Hex.
  split; [apply plan_releases_first|]. split.
  { split; [exact Hsm|]. intros id. split.
    - intros Hid. assert (Hg : map_get id (slot_counts releases) <> None) by (by rewrite map_get_None; intros []).
      rewrite Hsc in Hg. cbn zeta in Hg. destruct (filter (fun r => root_slot (descriptor r) = id) releases) as [|r l] eqn:Ef; [done|].
      exists r. assert (Hr : r ∈ filter (fun r => root_slot (descriptor r) = id) releases) by (rewrite Ef; by left).
      by apply list_elem_of_filter in Hr as [? ?].
    - intros (r & Hr & Hs). apply dec_stable. intros Hn%map_get_None. rewrite Hsc in Hn. cbn zeta in Hn.
      assert (Hin : r ∈ filter (fun r => root_slot (descriptor r) = id) releases) by (by apply list_elem_of_filter).
      destruct (filter _ releases); [by apply not_elem_of_nil in Hin | done]. }
  split; [apply plan_lanes_exact|]. split.
  { rewrite <- Hex. destruct (endpoint_ids_for enabled releases HTTP_ENDPOINT) as [|id l]; cbn [is_empty].
    - split; [by intros _ [] | done].
    - cbn [Config.endpoint_admission_limits]. split; [by destruct (resolve_plugin_root _ _) | naive_solver]. }
  intros Hn%Hex. destruct (is_empty (endpoint_ids_for enabled releases HTTP_ENDPOINT)) eqn:Ee; [by apply is_empty_spec in Ee|].
  cbn [Config.endpoint_admission_limits]. rewrite plan_slots_exact. do 5 f_equal.
  apply list_fmap_ext. intros i id _. by apply ingress_bindings_exact.
Qed.

End releases.

(** ** Replicas *)

Definition replica_key (lane : str) : str * str := (INGRESS_PACKAGE_ID, lit "replica-" ++ lane).
Definition replica (configuration : Value N) (lane : str) : PluginRootInstance :=
  place (Some lane) (with_configuration configuration (new_instance INGRESS_PACKAGE_ID (lit "replica-" ++ lane))).

Lemma replica_has_key configuration lane : key_of (replica configuration lane) = replica_key lane.
Proof. apply replacement_key. Qed.

(** The lanes that get a replica. *)
Definition replicated_lanes (lanes : list ExecutionLanePlan) : list str := filter (fun lane => lane <> lit "main") (lane_id <$> lanes).

Lemma push_replicas_exact configuration lanes h : UniqueKeys (instances (root h)) ->
  let h' := foldl (push_replica configuration) h lanes in
  UniqueKeys (instances (root h'))
  /\ (forall i, i ∈ instances (root h') <->
        i ∈ replica configuration <$> replicated_lanes lanes
        \/ i ∈ instances (root h) /\ key_of i ∉ replica_key <$> replicated_lanes lanes)
  /\ set_root (root h) h' = h.
Proof.
  induction lanes as [|lane lanes IH] using rev_ind; intros Hu; cbn zeta.
  { split; [done|]. split; [|by destruct h]. intros i. cbn. rewrite !elem_of_nil. tauto. }
  rewrite foldl_app. cbn [foldl]. specialize (IH Hu) as (Hu' & Hin & Hr). set (h' := foldl _ h lanes) in *.
  unfold replicated_lanes in *. rewrite fmap_app, filter_app. cbn [fmap list_fmap]. unfold push_replica at 1 2 3.
  case_bool_decide as Hm.
  { rewrite filter_cons_False, filter_nil, app_nil_r by (by intros []). done. }
  rewrite filter_cons_True, filter_nil by done.
  destruct (root_push h' INGRESS_PACKAGE_ID (lit "replica-" ++ lane_id lane) configuration (Some (lane_id lane))) as (-> & _).
  destruct (push_to_exact INGRESS_PACKAGE_ID (lit "replica-" ++ lane_id lane) configuration (Some (lane_id lane)) _ Hu') as (Hu2 & _ & Ho & Hn & _).
  split; [exact Hu2|]. split.
  - intros i. rewrite !fmap_app, !elem_of_app. cbn [fmap list_fmap]. rewrite !list_elem_of_singleton.
    fold (replica configuration (lane_id lane)) in Hn. destruct (decide (key_of i = replica_key (lane_id lane))) as [Hk|Hk].
    + assert (Hi : i ∈ push_to (instances (root h')) INGRESS_PACKAGE_ID (lit "replica-" ++ lane_id lane) configuration (Some (lane_id lane))
        <-> i = replica configuration (lane_id lane)).
      { split; [|by intros ->]. intros Hi. apply list_elem_of_lookup in Hi as [n1 Hi]. apply list_elem_of_lookup in Hn as [n2 Hn].
        assert (n1 = n2) as ->; [|congruence]. eapply NoDup_lookup; [exact Hu2 | by rewrite list_lookup_fmap, Hi|].
        rewrite list_lookup_fmap, Hn, Hk. cbn [fmap option_fmap option_map]. by rewrite replica_has_key. }
      rewrite Hi. split; [intros ->; left; by right|]. intros [[Hl|Hl]|[_ Hl]]; [|done|exfalso; apply Hl; by right].
      apply list_elem_of_fmap in Hl as (l & -> & Hl). rewrite replica_has_key in Hk.
      by injection Hk as ->.
    + rewrite (Ho i Hk), Hin. split; [intros [?|[? ?]]; [by left; left|right; split; [done|]]|].
      * intros [?|?]; done.
      * intros [[?|?]|[? ?]]; [by left | | right; split; [done | tauto]].
        destruct Hk. subst i. apply replica_has_key.
  - by destruct h', h.
Qed.

Lemma lane_indexes_exact plan : NoDup (lane_id <$> execution_lanes plan) ->
  length (lane_indexes plan) = length (execution_lanes plan)
  /\ forall lane index, map_get lane (lane_indexes plan) = Some index <-> (lane_id <$> execution_lanes plan) !! index = Some lane.
Proof.
  intros Hnd. unfold lane_indexes. set (fields := (fun '(index, lane) => (lane_id lane, index)) <$> enumerate (execution_lanes plan)).
  assert (Hf : forall i, fields !! i = (fun lane => (lane_id lane, i)) <$> execution_lanes plan !! i).
  { intros i. subst fields. rewrite list_lookup_fmap, enumerate_lookup. by destruct (execution_lanes plan !! i). }
  assert (Hk : fields.*1 = lane_id <$> execution_lanes plan).
  { apply list_eq. intros i. rewrite !list_lookup_fmap, Hf. by destruct (execution_lanes plan !! i). }
  destruct (map_of_list_distinct fields) as [Hlen Hget]; [by rewrite Hk|]. split.
  - rewrite Hlen. subst fields. rewrite length_fmap. apply length_enumerate_from.
  - intros lane index. rewrite Hget, list_elem_of_lookup, list_lookup_fmap. split.
    + intros [i Hi]. rewrite Hf in Hi. destruct (execution_lanes plan !! i) eqn:El; [|done]. injection Hi as <- <-. by rewrite El.
    + intros Hi. exists index. rewrite Hf. destruct (execution_lanes plan !! index); [|done]. by injection Hi as <-.
Qed.

(** The lanes built so far hold exactly the slots of their positions. *)
Definition Allocated (plan : ResolvedAppPlan) (built : list str) (coordinator : Replication.Coordinator) : Prop :=
  length (Replication.slots coordinator) = length (execution_lanes plan)
  /\ forall index slot, Replication.slots coordinator !! index = Some slot ->
       Replication.allocated slot = true <-> exists lane, (lane_id <$> execution_lanes plan) !! index = Some lane /\ lane ∈ built.

Lemma build_lane_step debug h plan built coordinator lane : NoDup (lane_id <$> execution_lanes plan) ->
  Allocated plan built coordinator ->
  (forall index, (lane_id <$> execution_lanes plan) !! index = Some lane -> lane ∉ built -> exists coordinator',
     build_lane debug h plan coordinator lane = (coordinator', finish_lane h lane (Native.mkFactory [] (Some (Z.of_nat index))))
     /\ Allocated plan (built ++ [lane]) coordinator')
  /\ (lane ∈ built \/ lane ∉ lane_id <$> execution_lanes plan -> exists error, build_lane debug h plan coordinator lane = (coordinator, Err error)).
Proof.
  intros Hnd [Hlen Hal]. destruct (lane_indexes_exact plan Hnd) as [_ Hidx]. unfold build_lane, Native.replicated_at, Replication.allocate_replica_at.
  split.
  - intros index Hi Hb. rewrite (proj2 (Hidx lane index) Hi), Nat2Z.id.
    destruct (Replication.slots coordinator !! index) as [slot|] eqn:Es.
    2: { apply lookup_ge_None in Es. apply lookup_lt_Some in Hi. rewrite length_fmap in Hi. lia. }
    destruct (Replication.allocated slot) eqn:Ea.
    { apply (Hal _ _ Es) in Ea as (lane' & Hi' & Hb'). congruence. }
    eexists. split; [done|]. split; [cbn; by rewrite length_insert|]. cbn. intros index' slot' Hs'.
    destruct (decide (index = index')) as [<-|Hne].
    + rewrite list_lookup_insert_eq in Hs' by (by eapply lookup_lt_Some). injection Hs' as <-. cbn. split; [intros _|done].
      exists lane. split; [done|]. set_solver.
    + rewrite list_lookup_insert_ne in Hs' by done. rewrite (Hal _ _ Hs'). split; intros (lane' & Hi' & Hb'); exists lane'; (split; [done|]).
      * set_solver.
      * apply elem_of_app in Hb' as [?| ->%list_elem_of_singleton]; [done|]. destruct Hne. by eapply NoDup_lookup.
  - intros Hb. destruct (map_get lane (lane_indexes plan)) as [index|] eqn:Eg; [|by eexists].
    apply Hidx in Eg as Hi. rewrite Nat2Z.id. destruct Hb as [Hb|Hb]; [|destruct Hb; by eapply list_elem_of_lookup_2].
    destruct (Replication.slots coordinator !! index) as [slot|] eqn:Es; [|by eexists].
    rewrite (proj2 (Hal _ _ Es)) by (by exists lane). by eexists.
Qed.

(** The runner builds the lanes one after another, in whatever order their threads start. *)
Fixpoint build_lanes (debug : RuntimeFailure -> str) (h : NativeWebHost) (plan : ResolvedAppPlan) (coordinator : Replication.Coordinator)
    (lanes : list str) : Replication.Coordinator * list (Result str ExecutionAdapterCatalog) :=
  match lanes with
  | [] => (coordinator, [])
  | lane :: lanes =>
      let '(coordinator, result) := build_lane debug h plan coordinator lane in
      let '(coordinator, results) := build_lanes debug h plan coordinator lanes in
      (coordinator, result :: results)
  end.

Lemma build_lanes_exact debug h plan built coordinator lanes : NoDup (lane_id <$> execution_lanes plan) -> NoDup (built ++ lanes) ->
  lanes ⊆ lane_id <$> execution_lanes plan -> Allocated plan built coordinator ->
  let '(coordinator', results) := build_lanes debug h plan coordinator lanes in
  Allocated plan (built ++ lanes) coordinator'
  /\ Forall2 (fun lane result => exists index, (lane_id <$> execution_lanes plan) !! index = Some lane
       /\ result = finish_lane h lane (Native.mkFactory [] (Some (Z.of_nat index)))) lanes results.
Proof.
  intros Hnd. revert built coordinator. induction lanes as [|lane lanes IH]; intros built coordinator Hb Hsub Ha; cbn [build_lanes].
  { by rewrite app_nil_r. }
  assert (Hl : lane ∈ lane_id <$> execution_lanes plan) by set_solver.
  apply list_elem_of_lookup in Hl as [index Hi].
  assert (Hnb : lane ∉ built) by (apply NoDup_app in Hb as (_ & Hb & _); intros Hin; apply (Hb lane Hin); by left).
  destruct (proj1 (build_lane_step debug h plan built coordinator lane Hnd Ha) index Hi Hnb) as (coordinator1 & -> & Ha1).
  rewrite cons_middle, app_assoc in Hb. specialize (IH _ _ Hb ltac:(set_solver) Ha1).
  destruct (build_lanes debug h plan coordinator1 lanes) as [coordinator2 results]. destruct IH as [Ha2 Hf].
  split; [by rewrite cons_middle, app_assoc|]. constructor; [by exists index | done].
Qed.

(** Building lanes changes which slots are taken and nothing else of what the replicas agree on. *)
Lemma build_lanes_keep debug h plan coordinator lanes :
  let '(coordinator', _) := build_lanes debug h plan coordinator lanes in
  Replication.co_config coordinator' = Replication.co_config coordinator
  /\ Replication.local_address coordinator' = Replication.local_address coordinator.
Proof.
  revert coordinator. induction lanes as [|lane lanes IH]; intros coordinator; cbn [build_lanes]; [done|].
  destruct (build_lane debug h plan coordinator lane) as [coordinator1 result] eqn:Eb. specialize (IH coordinator1).
  destruct (build_lanes debug h plan coordinator1 lanes) as [coordinator2 results]. destruct IH as [-> ->].
  unfold build_lane, Native.replicated_at, Replication.allocate_replica_at in Eb. repeat case_match; simplify_eq; done.
Qed.

(** C26: replication gives every lane one ingress of its own. A host is replicated only when it holds nothing
    bound to one lane (factories, middleware, an observer, adapters). Every lane of its plan but "main" then gets the
    instance "replica-<lane>" of the ingress, placed on that lane and configured exactly like the shared listener; every other
    instance of the root, and everything else the host was given, is as it was, and no key is used twice. *)
Theorem replica_instances_exact h h' config plan : replicated_plan h = Ok (h', config, plan) -> UniqueKeys (instances (root h)) ->
  factory_installers h = [] /\ middleware h = [] /\ diagnostics h = None /\ extra_adapters h = []
  /\ exists initial configuration, resolve_replicated_plan h = Ok initial /\ resolve_replicated_plan h' = Ok plan
       /\ host_config h = Ok config /\ config_to_value config = Ok configuration
       /\ UniqueKeys (instances (root h')) /\ set_root (root h) h' = h
       /\ (forall i, i ∈ instances (root h') <->
             (exists lane, lane ∈ lane_id <$> execution_lanes initial /\ lane <> lit "main" /\ i = replica configuration lane)
             \/ i ∈ instances (root h) /\ forall lane, lane ∈ lane_id <$> execution_lanes initial -> lane <> lit "main" ->
                  key_of i <> replica_key lane)
       /\ forall lane, lane ∈ lane_id <$> execution_lanes initial -> lane <> lit "main" ->
            key_of (replica configuration lane) = replica_key lane /\ execution_lane_of (replica configuration lane) = Some lane.
Proof.
  intros Hr Hu. unfold replicated_plan in Hr. destruct (is_empty (factory_installers h)) eqn:Ef; [|done]. cbn [negb] in Hr.
  destruct (is_empty (middleware h)) eqn:Em; [|done]. destruct (diagnostics h) eqn:Ed; [done|]. cbn [negb orb] in Hr.
  destruct (is_empty (extra_adapters h)) eqn:Ea; [|done]. cbn [negb] in Hr.
  apply is_empty_spec in Ef, Em, Ea. split_and!; try done.
  destruct (resolve_replicated_plan h) as [initial|] eqn:E0; [|done]. destruct (host_config h) as [config0|] eqn:Ec; [|done].
  destruct (config_to_value config0) as [configuration|] eqn:Ev; [|done]. cbn [map_err] in Hr.
  destruct (resolve_replicated_plan (foldl _ _ _)) as [plan0|] eqn:E1; [|done]. injection Hr as <- -> ->.
  destruct (push_replicas_exact configuration (execution_lanes initial) h Hu) as (Hu' & Hin & Hs).
  exists initial, configuration. split_and!; try done.
  - intros i. rewrite Hin. unfold replicated_lanes. split.
    + intros [(lane & -> & [Hm Hl]%list_elem_of_filter)%list_elem_of_fmap|[Hi Hk]]; [left; by exists lane|right].
      split; [done|]. intros lane Hl Hm He. apply Hk. rewrite He. apply list_elem_of_fmap_2. by apply list_elem_of_filter.
    + intros [(lane & Hl & Hm & ->)|[Hi Hk]]; [left; apply list_elem_of_fmap_2; by apply list_elem_of_filter|right].
      split; [done|]. intros (lane & He & [Hm Hl]%list_elem_of_filter)%list_elem_of_fmap. by apply (Hk lane).
  - intros lane _ _. split; [apply replica_has_key | apply replacement_lane].
Qed.

(** The lanes of a replicated host share one listener without conflict. In whatever order the threads of the plan's lanes
    build their adapters, each succeeds in taking the slot of its own position in the plan (so slots do not depend on that
    order), afterwards every slot is taken, and a lane that the plan does not declare, or one that is built again,
    is refused without touching the coordinator. *)
Lemma lane_slots_exact debug h config plan os coordinator order : NoDup (lane_id <$> execution_lanes plan) ->
  Replication.bind config (len (lane_indexes plan)) os = Ok coordinator -> order ≡ₚ lane_id <$> execution_lanes plan ->
  let '(coordinator', results) := build_lanes debug h plan coordinator order in
  Forall2 (fun lane result => exists index, (lane_id <$> execution_lanes plan) !! index = Some lane
    /\ result = finish_lane h lane (Native.mkFactory [] (Some (Z.of_nat index)))) order results
  /\ length (Replication.slots coordinator') = length (execution_lanes plan)
  /\ Forall (fun slot => Replication.allocated slot = true) (Replication.slots coordinator')
  /\ forall lane, exists error, build_lane debug h plan coordinator' lane = (coordinator', Err error).
Proof.
  intros Hnd Hb Hp. assert (Ha : Allocated plan [] coordinator).
  { destruct (lane_indexes_exact plan Hnd) as [Hlen _]. unfold Replication.bind in Hb. inv_ok Hb. subst coordinator. split.
    - cbn. rewrite length_replicate. unfold len. by rewrite Nat2Z.id.
    - cbn. intros index slot [-> _]%lookup_replicate. cbn. split; [done|]. by intros (? & _ & ?%not_elem_of_nil). }
  pose proof (build_lanes_exact debug h plan [] coordinator order Hnd) as Hx. cbn [app] in Hx.
  specialize (Hx ltac:(by rewrite Hp) ltac:(intros ?; by rewrite Hp) Ha).
  destruct (build_lanes debug h plan coordinator order) as [coordinator' results]. destruct Hx as [Ha' Hf].
  split_and!; [done | by destruct Ha' | |].
  - apply Forall_lookup_2. intros index slot Hs. destruct Ha' as [Hlen Hal]. apply (Hal _ _ Hs).
    apply lookup_lt_Some in Hs as Hlt. rewrite Hlen in Hlt. destruct (lookup_lt_is_Some_2 _ _ Hlt) as [lane Hl].
    exists (lane_id lane). rewrite list_lookup_fmap, Hl. split; [done|]. rewrite Hp. apply list_elem_of_fmap_2. by eapply list_elem_of_lookup_2.
  - intros lane. apply (build_lane_step debug h plan order coordinator' lane Hnd Ha').
    destruct (decide (lane ∈ lane_id <$> execution_lanes plan)); [left; by rewrite Hp | by right].
Qed.

(** ** The starts agree *)

Lemma fold_event_middleware layers : forall f : Event.EventFactory (X := X),
  foldl Event.with_middleware f layers
  = Event.mkFactory (Event.instantiated f) (Event.state f) (Event.factory_middleware f ++ layers).
Proof.
  induction layers as [|layer layers IH]; intros [i s m]; cbn [foldl]; [by rewrite app_nil_r|].
  rewrite IH. cbn. by rewrite <- app_assoc.
Qed.

Lemma fold_native_middleware layers : forall f : Native.WebIngressFactory (X := X),
  foldl Native.with_middleware f layers = Native.mkFactory (Native.factory_middleware f ++ layers) (Native.factory_replica f).
Proof.
  induction layers as [|layer layers IH]; intros [m r]; cbn [foldl]; [by rewrite app_nil_r|].
  rewrite IH. cbn. by rewrite <- app_assoc.
Qed.

Context {NativeApp : Type}.
Context (kernel_start_event : ResolvedAppPlan -> ExecutionAdapterCatalog -> Event.EventFactory (X := X) -> X ->
  X * Event.EventFactory (X := X) * Result RuntimeFailure NativeApp).
Context (kernel_start : ResolvedAppPlan -> ExecutionAdapterCatalog -> Native.WebIngressState -> X ->
  X * Native.WebIngressState * Result RuntimeFailure NativeApp).

(** The three single-lane starts run the same program. Each resolves the same plan, and none touches the outside when
    that fails; the simulated host hands out exactly the plan, the registry and the fresh ingress that the event
    host boots, and both ingress factories hold the host's middleware in declaration order. The simulated host refuses
    further adapters, the others add them in order; the socket host runs only with a published address. *)
Lemma hosts_agree h x :
  (forall error, resolve_plan h = Err error ->
     prepare_simulated h = Err error /\ start_event kernel_start_event h x = (x, Err error) /\ start kernel_start h x = (x, Err error))
  /\ (extra_adapters h <> [] -> is_ok (prepare_simulated h) = false)
  /\ (forall plan registry ingress, prepare_simulated h = Ok (plan, registry, ingress) ->
        resolve_plan h = Ok plan /\ ingress = (Event.mkFactory false None (middleware h), diagnostics h)
        /\ native_ingress h = (Native.mkFactory (middleware h) None, diagnostics h)
        /\ start_event kernel_start_event h x =
             let '(x, ingress, app) := kernel_start_event plan (single registry) ingress.1 x in
             (x, let? app := map_err RuntimeError app in Ok (mkRunningEvent app ingress)))
  /\ forall x' running, start kernel_start h x = (x', Ok running) -> exists plan catalog, resolve_plan h = Ok plan
       /\ kernel_start plan catalog Native.new_state x = (x', n_state running, Ok (n_app running))
       /\ Native.local_address (n_state running) = Some (n_address running).
Proof.
  split_and!.
  - intros error He. unfold prepare_simulated, start_event, start, into_event_components. by rewrite He.
  - intros Ha. unfold prepare_simulated, into_event_components. destruct (resolve_plan h); [|done]. cbn.
    by destruct (extra_adapters h).
  - intros plan registry ingress. unfold prepare_simulated, start_event, into_event_components, native_ingress.
    destruct (resolve_plan h) as [plan0|]; [|done]. cbn [c_adapters c_plan c_registry c_ingress].
    destruct (extra_adapters h); [|done]. intros [= <- <- <-]. rewrite fold_event_middleware, fold_native_middleware. done.
  - intros x' running. unfold start. destruct (resolve_plan h) as [plan|]; [|done]. destruct (adapter_catalog _ _) as [catalog|]; [|done].
    destruct (kernel_start plan catalog Native.new_state x) as [[x1 state] [app|failure]] eqn:Ek; [|done]. cbn.
    destruct (Native.local_address state) as [address|] eqn:El; [|done]. cbn. intros [= <- <-]. exists plan, catalog. done.
Qed.

End host.

(** ** Policies *)

Section policies.
Context `{HttpCrate} {X : Type}.

(** A chain of one policy: it decides, and changes neither the request nor the response. *)
Lemma tower_policy_transparent (policy : TowerIngressMiddleware (X := X)) request (dispatch : Request.WebIngressRequest -> Run X Response.WebIngressResponse) (w : World X) :
  Middleware.run [tower_middleware policy] request dispatch w =
  match lift (service policy request) w with
  | (w, Returned (Ok TowerContinue)) => dispatch request w
  | (w, Returned (Ok (TowerRespond response))) => (w, Returned (Ok response))
  | (w, Returned (Err failure)) => (w, Returned (Err failure))
  | (w, Panicked) => (w, Panicked)
  | (w, Waiting) => (w, Waiting)
  end.
Proof.
  unfold Middleware.run, Middleware.bind, Middleware.ret. cbn [enter]. unfold Middleware.bind, Middleware.ret, lift. cbn [before_request tower_middleware].
  unfold tower_before_request. destruct (service policy request (ext w)) as [x [[[|response]|failure]| |]]; cbn; try done.
  destruct (dispatch request (set_ext x w)) as [w' [[response|failure]| |]]; cbn; try done.
  unfold Middleware.bind, lift, default_after_response. cbn. unfold Middleware.ret. by destruct w'.
Qed.

End policies.

(** ** Witnesses *)

#[local] Existing Instance ref_http.
#[local] Existing Instance ref_serde.
#[local] Existing Instance Routing.ref_matchit.

(** Plain records: an instance is its key, configuration and lane; a plan is the lanes of its catalog. *)
#[local] Instance ref_plan : AppPlan Z := {
  PluginDescriptor := str * str * list str; plugin_id d := d.1.1; root_slot d := d.1.2; provided_capabilities d := d.2;
  HostPluginRelease := str * str * list str; new_release d := d; descriptor r := r;
  PluginInstanceId := str * str; id_plugin_id := fst; id_instance_key := snd;
  PluginRootInstance := str * str * Value Z * option str; new_instance p k := (p, k, Null, None);
  with_configuration c i := (i.1.1, c, i.2); with_execution_lane l i := (i.1, Some l); instance_id i := i.1.1; execution_lane_of i := i.2;
  DisabledPlugin := unit; DependencyChoice := unit; RootRelease := unit;
  PluginRootSnapshot := list (str * str * Value Z * option str) * list unit * list unit * option (list unit);
  default_snapshot := ([], [], [], None); new_snapshot r i d := (i, r, d, None);
  with_dependency_choices c s := (s.1, Some c); releases s := s.1.1.2; instances s := s.1.1.1; disabled s := s.1.2;
  dependency_choices s := default [] s.2; dependency_selection_adopted s := match s.2 with Some _ => true | None => false end;
  HostDefaultPlugin := str * str * Value Z; new_default p k := (p, k, Null); default_with_configuration c d := (d.1, c); default_id := fst;
  RequestAdmissionPlan := Z * Z; new_admission := pair;
  HostBinding := (str * str) * str * list (str * str) * option (Z * Z); to_instances i c ids := (i, c, ids, None); with_admission a b := (b.1, Some a);
  HostSlot := str * bool; slot_one s := (s, false); slot_many s := (s, true);
  ExecutionLanePlan := str; new_lane l := l; lane_id l := l;
  HostCatalog := list str; new_catalog _ _ _ := []; with_execution_lanes l _ := l; with_bindings _ c := c;
  ResolvedAppPlan := list str; execution_lanes p := p; resolve_plugin_root c _ := Ok c }.

#[local] Instance ref_plan_laws : AppPlanLaws Z.
Proof. by split. Qed.

(** One linked package provides an HTTP endpoint. *)
Definition orders_release : HostPluginRelease (N := Z) := (lit "orders", lit "app", [HTTP_ENDPOINT]).
Definition ref_ingress : PluginDescriptor (N := Z) := (INGRESS_PACKAGE_ID, lit "http-ingress", []).

#[local] Instance ref_runtime : Runtime Z (Native.WebIngressFactory (X := unit) * option unit) (Event.EventFactory (X := unit) * option unit) := {
  host_catalog := Ok [orders_release];
  NativePluginRegistry := list str; new_registry := []; with_native_ingress _ r := lit "ingress" :: r; with_event_ingress _ r := lit "event" :: r;
  with_linked_factories r := r; ExecutionAdapter := unit; ExecutionAdapterCatalog := list str; AdapterError := unit;
  single r := r; with_shared_adapter _ _ := Err tt;
  CrossLaneTransferCatalog := list (string * string); new_transfers := []; transfer_request a b c := (a, b) :: c;
  transfer_stream a b c := (a, b) :: c; RunnerError := unit; ShutdownOutcome := unit }.

Definition ref_config (_ : Config.WebIngressConfig) : Result str (Value Z) := Ok (String (lit "config")).
Definition sample_host : NativeWebHost (X := unit) (Observer := unit) := plugin_on_lane (lit "orders") (lit "blue") new.

(** The host has an ingress on "main" and one endpoint on "blue". *)
Example sample_plan : resolve_plan ref_ingress ref_config sample_host = Ok [lit "blue"; lit "main"].
Proof. reflexivity. Qed.

(** Enabling an instance again keeps its lane. *)
Example lane_is_kept : lane_at (lit "orders", lit "default") (instances (root (enable (lit "orders") sample_host))) = Some (lit "blue").
Proof. reflexivity. Qed.

(** [NativeWebHost::new] asks for any free port, not for port 8080. *)
Example new_host_port : host_config (new (X := unit) (Observer := unit)) = Ok Config.default_config
  /\ Config.bind_address Config.default_config = Config.V4 [127; 0; 0; 1]%Z 0.
Proof. split; reflexivity. Qed.

Lemma web_plan_exact_witness : exists releases,
  FirstReleases ref_ingress ([orders_release] ++ []) releases
  /\ resolve_web_plan ref_ingress ref_config Config.default_config (root (X := unit) (Observer := unit) sample_host) [] [] [] false
     = Ok [lit "blue"; lit "main"].
Proof.
  destruct (web_plan_exact ref_ingress ref_config eq_refl Config.default_config (root (X := unit) (Observer := unit) sample_host) [] [] [] false)
    as (releases & _ & _ & Hr & _). exists releases. split; [exact Hr | reflexivity].
Defined.

(** The replicated host: "blue" gets a replica of the ingress. *)
Definition sample_replicated : Result WebHostError (NativeWebHost (X := unit) (Observer := unit) * Config.WebIngressConfig * ResolvedAppPlan) :=
  replicated_plan ref_ingress ref_config sample_host.

Lemma replica_instances_exact_witness : exists h' config plan, sample_replicated = Ok (h', config, plan)
  /\ UniqueKeys (instances (root h')) /\ replica (String (lit "config")) (lit "blue") ∈ instances (root h').
Proof.
  assert (Hr : exists h' config plan, sample_replicated = Ok (h', config, plan)) by (do 3 eexists; reflexivity).
  destruct Hr as (h' & config & plan & Hr). exists h', config, plan. split; [exact Hr|].
  destruct (replica_instances_exact ref_ingress ref_config sample_host h' config plan Hr) as
    (_ & _ & _ & _ & initial & configuration & Hi & _ & _ & Hc & Hu & _ & Hin & _).
  { apply NoDup_singleton. }
  split; [exact Hu|]. apply Hin. left. exists (lit "blue"). injection Hi as <-. injection Hc as <-. split; [left | done].
Defined.
End WebHost.
