(* ===== verification/SimulatedWeb.v ===== *)
(** * The simulated host ([lenso-web-host/src/simulated.rs])

    The socket-free client of a test app. Clones of a request share one cell and one cancellation token, so a request is
    a pair of a shared cell and the handle that reads it; every dispatch goes through [Event.handle_response]. *)
From S2P Require Import Prelude RustStd HttpCrate RefHttp Kernel Config SessionCookie.
From S2P Require Import WebSocket ResponseStream Handshake Request Response Middleware Manifest Routing Dispatch Server Event.

Module SimulatedWeb.
Import Config SessionCookie Request Response Middleware Routing Dispatch Event.

Inductive SimulatedWebRequestError :=
| AlreadyDispatched
| RuntimeError (failure : RuntimeFailure)
| UnexpectedBody (expected actual : str).

Section simulated.
Context `{HttpCrate} `{Matchit} `{Digests} {X : Type}.

(** The cells the clones of one request share. *)
Record SimulatedWebRequest := mkSimulated { request : option (Parts * str); cancelled : bool }.

Definition begin_request (request : Parts * str) : SimulatedWebRequest := mkSimulated (Some request) false.
Definition disconnect (self : SimulatedWebRequest) : SimulatedWebRequest := mkSimulated (request self) true.
Definition is_disconnected (self : SimulatedWebRequest) : bool := cancelled self.

(** What the host's signals turn out to be while one dispatch runs; its request and its token come from the cells. *)
Record Signals := mkSignals {
  s_open : bool; s_accepting : bool; s_wait : option bool; s_accepting_later : bool; s_cancel_first : bool;
  s_cancellation : Z; s_disconnected : Z }.

Definition event_call (s : Signals) (request : Parts * str) (cancelled : bool) : EventCall :=
  mkEventCall request.1 request.2 (s_open s) (s_accepting s) cancelled (s_wait s) (s_accepting_later s) (s_cancel_first s)
    (s_cancellation s) (s_disconnected s).

Definition send_response (ingress : EventFactory (X := X)) (self : SimulatedWebRequest) (s : Signals) (w : World X) :
    SimulatedWebRequest * EventFactory (X := X) * World X * Outcome (Result SimulatedWebRequestError EventResponse) :=
  match request self with
  | None => (self, ingress, w, Returned (Err AlreadyDispatched))
  | Some taken =>
      let self' := mkSimulated None (cancelled self) in
      let '(ingress, w, r) := handle_response ingress (event_call s taken (cancelled self)) w in
      (self', ingress, w, let^ r := r in Returned (map_err RuntimeError r))
  end.

(** What the three entry points do with a response: keep the body of their kind, drop every other. *)
Definition accept_body {B} (want : WebIngressEventBody -> option B) (expected : string) (actual : WebIngressEventBody -> string)
    (r : SimulatedWebRequest * EventFactory (X := X) * World X * Outcome (Result SimulatedWebRequestError EventResponse)) :
    SimulatedWebRequest * EventFactory (X := X) * World X * Outcome (Result SimulatedWebRequestError (Z * HeaderMap * B)) :=
  match r with
  | (self, ingress, w, Returned (Ok response)) =>
      match want (ev_body response) with
      | Some body => (self, ingress, w, Returned (Ok (ev_status response, ev_headers response, body)))
      | None => (self, ingress, emit (drop_event_body (ev_body response)) w,
                 Returned (Err (UnexpectedBody (lit expected) (lit (actual (ev_body response))))))
      end
  | (self, ingress, w, Returned (Err error)) => (self, ingress, w, Returned (Err error))
  | (self, ingress, w, Panicked) => (self, ingress, w, Panicked)
  | (self, ingress, w, Waiting) => (self, ingress, w, Waiting)
  end.

Definition body_kind (b : WebIngressEventBody) : string :=
  match b with
  | EventBuffered _ => "a buffered HTTP response"
  | EventStreaming _ => "a streaming HTTP response"
  | EventWebSocket _ => "a WebSocket upgrade"
  end.
Definition buffered (b : WebIngressEventBody) : option str := match b with EventBuffered bytes => Some bytes | _ => None end.
Definition streaming (b : WebIngressEventBody) : option ResponseStream.WebIngressResponseStream :=
  match b with EventStreaming stream => Some stream | _ => None end.
Definition websocket (b : WebIngressEventBody) : option WebSocket.WebSocketSession :=
  match b with EventWebSocket session => Some session | _ => None end.

Definition send_buffered (ingress : EventFactory (X := X)) (self : SimulatedWebRequest) (s : Signals) (w : World X) :=
  accept_body buffered "a buffered HTTP response" body_kind (send_response ingress self s w).
Definition open_stream (ingress : EventFactory (X := X)) (self : SimulatedWebRequest) (s : Signals) (w : World X) :=
  accept_body streaming "a streaming HTTP response" body_kind (send_response ingress self s w).
Definition open_websocket (ingress : EventFactory (X := X)) (self : SimulatedWebRequest) (s : Signals) (w : World X) :=
  accept_body websocket "a WebSocket upgrade" body_kind (send_response ingress self s w).

(** [SimulatedWebHost::request], with the disconnects that happen before it is sent. *)
Definition request_once (ingress : EventFactory (X := X)) (r : Parts * str) (s : Signals) (w : World X) :=
  send_buffered ingress (begin_request r) s w.
End simulated.

(** ** Properties *)

Section simulated_properties.
Context `{HttpCrate} `{Matchit} `{Digests} {X : Type}.

(** What is left of a request that was sent: an empty cell, and the token. *)
Definition spent (cancelled : bool) : SimulatedWebRequest := mkSimulated None cancelled.

Lemma spent_refuses (ingress : EventFactory (X := X)) cancelled s w :
  send_buffered ingress (spent cancelled) s w = (spent cancelled, ingress, w, Returned (Err AlreadyDispatched))
  /\ open_stream ingress (spent cancelled) s w = (spent cancelled, ingress, w, Returned (Err AlreadyDispatched))
  /\ open_websocket ingress (spent cancelled) s w = (spent cancelled, ingress, w, Returned (Err AlreadyDispatched)).
Proof. done. Qed.

(** A response of another kind: its body is dropped, and the error names both kinds. *)
Definition dropped {B} (ingress : EventFactory (X := X)) (w : World X) (d : bool) (response : EventResponse) (kind : string) :
    SimulatedWebRequest * EventFactory (X := X) * World X * Outcome (Result SimulatedWebRequestError (Z * HeaderMap * B)) :=
  (spent d, ingress, emit (drop_event_body (ev_body response)) w,
   Returned (Err (UnexpectedBody (lit kind) (lit (body_kind (ev_body response)))))).

(** The simulated client adds nothing to the event ingress. Each of its three entry points sends the request once,
    with the token's state, through [handle_response], and ends in the state and with the effects of that call: a failure is passed on,
    a response is accepted by exactly the entry point of its body's kind, which returns status, fields and body
    untouched, and the two others drop it with the effects of dropping it and name the kind it had. The buffered
    entry point succeeds exactly when the event host's [handle] does, with the same answer. Whatever the
    outcome, the request is spent: no later send on any clone, disconnected or not, reaches the ingress. *)
Lemma simulated_faithful (ingress : EventFactory (X := X)) r d s w :
  let '(ingress', w', answer) := handle_response ingress (event_call s r d) w in
  match answer with
  | Returned (Ok response) =>
      let '(status, hs) := (ev_status response, ev_headers response) in
      send_buffered ingress (mkSimulated (Some r) d) s w =
        match ev_body response with
        | EventBuffered bytes => (spent d, ingress', w', Returned (Ok (status, hs, bytes)))
        | _ => dropped ingress' w' d response "a buffered HTTP response"
        end
      /\ open_stream ingress (mkSimulated (Some r) d) s w =
        match ev_body response with
        | EventStreaming stream => (spent d, ingress', w', Returned (Ok (status, hs, stream)))
        | _ => (dropped ingress' w' d response "a streaming HTTP response")
        end
      /\ open_websocket ingress (mkSimulated (Some r) d) s w =
        match ev_body response with
        | EventWebSocket session => (spent d, ingress', w', Returned (Ok (status, hs, session)))
        | _ => (dropped ingress' w' d response "a WebSocket upgrade")
        end
  | Returned (Err failure) =>
      send_buffered ingress (mkSimulated (Some r) d) s w = (spent d, ingress', w', Returned (Err (RuntimeError failure)))
      /\ open_stream ingress (mkSimulated (Some r) d) s w = (spent d, ingress', w', Returned (Err (RuntimeError failure)))
      /\ open_websocket ingress (mkSimulated (Some r) d) s w = (spent d, ingress', w', Returned (Err (RuntimeError failure)))
  | _ => exists panicked_or_waiting, send_buffered ingress (mkSimulated (Some r) d) s w = (spent d, ingress', w', panicked_or_waiting)
         /\ forall v, panicked_or_waiting <> Returned v
  end
  /\ (let '(ingress1, w1, handled) := handle ingress (event_call s r d) w in
      let '(self1, ingress2, w2, sent) := send_buffered ingress (mkSimulated (Some r) d) s w in
      ingress2 = ingress1 /\ w2 = w1 /\ self1 = spent d
      /\ forall a, sent = Returned (Ok a) <-> handled = Returned (Ok a))
  /\ forall disconnected s' (ingress'' : EventFactory (X := X)) (w'' : World X),
       send_buffered ingress'' (spent disconnected) s' w'' = (spent disconnected, ingress'', w'', Returned (Err AlreadyDispatched))
       /\ open_stream ingress'' (spent disconnected) s' w'' = (spent disconnected, ingress'', w'', Returned (Err AlreadyDispatched))
       /\ open_websocket ingress'' (spent disconnected) s' w'' = (spent disconnected, ingress'', w'', Returned (Err AlreadyDispatched)).
Proof.
  unfold send_buffered, open_stream, open_websocket, send_response, handle. cbn [request cancelled].
  destruct (handle_response ingress (event_call s r d) w) as [[ingress' w'] [[response|failure]| |]]; cbn.
  - unfold dropped. destruct (ev_body response); cbn; repeat split; try done; intros; simplify_eq/=; done.
  - split_and!; done.
  - split; [by eexists|]. done.
  - split; [by eexists|]. done.
Qed.
End simulated_properties.

(** A clone that disconnected before the request was sent makes the dispatch start cancelled. *)
Example disconnected_dispatch_is_cancelled `{HttpCrate} s r :
  e_cancelled (event_call s r (is_disconnected (disconnect (begin_request r)))) = true.
Proof. reflexivity. Qed.
End SimulatedWeb.
