(* ===== verification/EgressConfig.v ===== *)
(** * Egress configuration ([lenso-http-egress-plugin/src/config.rs])

    The outbound authority of one Egress instance: its allowed origins and its limits. The [url] crate is an
    interface ([UrlCrate]); a set of strings is the list of its elements without repetition. *)
From S2P Require Import Prelude RustStd HttpCrate Config.

(** [url::Url]: what the sources ask of a parsed URL. *)
Class UrlCrate := {
  Url : Type;
  url_parse : str -> option Url;
  url_scheme : Url -> str;
  url_host_str : Url -> option str;
  url_username : Url -> str;
  url_password : Url -> option str;
  url_path : Url -> str;
  url_query : Url -> option str;
  url_fragment : Url -> option str;
  url_origin : Url -> str; (* [origin().ascii_serialization()] *)
  url_as_str : Url -> str;
}.

Module EgressConfig.

Definition MAX_TRANSFER_BYTES : Z := 64 * 1024 * 1024.
Definition MAX_HEAD_BYTES : Z := 1024 * 1024.
Definition MAX_CONCURRENT_REQUESTS : Z := 4096.
Definition MAX_TIMEOUT_MILLIS : Z := 300000.
Definition MAX_ALLOWED_ORIGINS : Z := 256.
Definition MAX_URL_BYTES : Z := 4096.

Inductive HttpVersionPolicy := Auto | Http1Only | Http2PriorKnowledge.
#[global] Instance HttpVersionPolicy_eq_dec : EqDecision HttpVersionPolicy.
Proof. solve_decision. Defined.

Record HttpEgressConfig := mkEgressConfig {
  allowed_origins : list str;
  http_version : HttpVersionPolicy;
  max_request_body_bytes : Z;
  max_request_head_bytes : Z;
  max_response_body_bytes : Z;
  max_response_head_bytes : Z;
  max_concurrent_requests : Z;
  connect_timeout_millis : Z;
  request_timeout_millis : Z;
}.

Definition default_max_request_body_bytes : Z := 1024 * 1024.
Definition default_max_request_head_bytes : Z := 16 * 1024.
Definition default_max_response_body_bytes : Z := 4 * 1024 * 1024.
Definition default_max_response_head_bytes : Z := 32 * 1024.
Definition default_max_concurrent_requests : Z := 64.
Definition default_connect_timeout_millis : Z := 5000.
Definition default_request_timeout_millis : Z := 30000.

Definition duration_millis (duration : Config.Duration) : Result str Z :=
  ok_or (lit "outbound HTTP timeout does not fit the Plan format")
    (try_from_range u64_max (Config.as_millis duration)).

Definition connect_timeout (self : HttpEgressConfig) : Config.Duration :=
  Config.from_millis (connect_timeout_millis self).
Definition request_timeout (self : HttpEgressConfig) : Config.Duration :=
  Config.from_millis (request_timeout_millis self).

Section egress_config.
Context `{UrlCrate}.

Definition is_http (scheme : str) : bool :=
  bool_decide (scheme = lit "http") || bool_decide (scheme = lit "https").

Definition request_origin (url : Url) : option str :=
  if is_http (url_scheme url) then
    if bool_decide (url_origin url = lit "null") then None else Some (url_origin url)
  else None.

Definition invalid_origin : str := lit "invalid outbound HTTP origin".

Definition canonical_origin (value : str) : Result str str :=
  if (MAX_URL_BYTES <? len value)%Z then Err (lit "outbound HTTP origin is too long") else
  let! url := url_parse value else Err invalid_origin in
  if negb (is_http (url_scheme url))
     || match url_host_str url with None => true | Some _ => false end
     || negb (is_empty (url_username url))
     || match url_password url with Some _ => true | None => false end
     || negb (bool_decide (url_path url = lit "/"))
     || match url_query url with Some _ => true | None => false end
     || match url_fragment url with Some _ => true | None => false end
  then Err invalid_origin else
  ok_or invalid_origin (request_origin url).

(** The result is the set of canonical origins. *)
Definition validate (self : HttpEgressConfig) : Result str (list str) :=
  if is_empty (allowed_origins self) || (MAX_ALLOWED_ORIGINS <? len (allowed_origins self))%Z
  then Err (lit "outbound HTTP origin count must be between 1 and 256") else
  let? collected := try_map canonical_origin (allowed_origins self) in
  let origins := remove_dups collected in
  if negb (len origins =? len (allowed_origins self))%Z
  then Err (lit "outbound HTTP origins must be unique") else
  if negb (in_range 1 MAX_TRANSFER_BYTES (max_request_body_bytes self))
     || negb (in_range 1 MAX_TRANSFER_BYTES (max_response_body_bytes self))
     || negb (in_range 1 MAX_HEAD_BYTES (max_request_head_bytes self))
     || negb (in_range 1 MAX_HEAD_BYTES (max_response_head_bytes self))
     || negb (in_range 1 MAX_CONCURRENT_REQUESTS (max_concurrent_requests self))
     || negb (in_range 1 MAX_TIMEOUT_MILLIS (connect_timeout_millis self))
     || negb (in_range 1 MAX_TIMEOUT_MILLIS (request_timeout_millis self))
     || (request_timeout_millis self <? connect_timeout_millis self)%Z
  then Err (lit "outbound HTTP limits or timeouts are invalid") else
  Ok origins.

Definition new (allowed_origins : list str) : Result str HttpEgressConfig :=
  let config := mkEgressConfig allowed_origins Auto default_max_request_body_bytes default_max_request_head_bytes
    default_max_response_body_bytes default_max_response_head_bytes default_max_concurrent_requests
    default_connect_timeout_millis default_request_timeout_millis in
  let? _ := validate config in
  Ok config.

Definition with_http_version (self : HttpEgressConfig) (policy : HttpVersionPolicy) : HttpEgressConfig :=
  mkEgressConfig (allowed_origins self) policy (max_request_body_bytes self) (max_request_head_bytes self)
    (max_response_body_bytes self) (max_response_head_bytes self) (max_concurrent_requests self)
    (connect_timeout_millis self) (request_timeout_millis self).

Definition with_transfer_limits (self : HttpEgressConfig) (max_request_body_bytes max_request_head_bytes
    max_response_body_bytes max_response_head_bytes : Z) : Result str HttpEgressConfig :=
  let self := mkEgressConfig (allowed_origins self) (http_version self) max_request_body_bytes max_request_head_bytes
    max_response_body_bytes max_response_head_bytes (max_concurrent_requests self)
    (connect_timeout_millis self) (request_timeout_millis self) in
  let? _ := validate self in
  Ok self.

Definition with_max_concurrent_requests (self : HttpEgressConfig) (maximum : Z) : Result str HttpEgressConfig :=
  let self := mkEgressConfig (allowed_origins self) (http_version self) (max_request_body_bytes self)
    (max_request_head_bytes self) (max_response_body_bytes self) (max_response_head_bytes self) maximum
    (connect_timeout_millis self) (request_timeout_millis self) in
  let? _ := validate self in
  Ok self.

Definition with_timeouts (self : HttpEgressConfig) (connect request : Config.Duration) : Result str HttpEgressConfig :=
  let? connect_timeout_millis := duration_millis connect in
  let? request_timeout_millis := duration_millis request in
  let self := mkEgressConfig (allowed_origins self) (http_version self) (max_request_body_bytes self)
    (max_request_head_bytes self) (max_response_body_bytes self) (max_response_head_bytes self)
    (max_concurrent_requests self) connect_timeout_millis request_timeout_millis in
  let? _ := validate self in
  Ok self.

(** ** Specification *)

(** An origin in exact form: an [http] or [https] URL with a host, the root path and nothing else. *)
Definition OriginIs (value origin : str) : Prop :=
  (len value <= MAX_URL_BYTES)%Z /\ exists url, url_parse value = Some url
  /\ is_http (url_scheme url) = true /\ is_Some (url_host_str url) /\ url_username url = []
  /\ url_password url = None /\ url_path url = lit "/" /\ url_query url = None /\ url_fragment url = None
  /\ origin = url_origin url /\ origin <> lit "null".

Record LimitsOk (c : HttpEgressConfig) : Prop := {
  lim_request_body : (1 <= max_request_body_bytes c <= MAX_TRANSFER_BYTES)%Z;
  lim_response_body : (1 <= max_response_body_bytes c <= MAX_TRANSFER_BYTES)%Z;
  lim_request_head : (1 <= max_request_head_bytes c <= MAX_HEAD_BYTES)%Z;
  lim_response_head : (1 <= max_response_head_bytes c <= MAX_HEAD_BYTES)%Z;
  lim_requests : (1 <= max_concurrent_requests c <= MAX_CONCURRENT_REQUESTS)%Z;
  lim_timeouts : (1 <= connect_timeout_millis c <= request_timeout_millis c)%Z
                 /\ (request_timeout_millis c <= MAX_TIMEOUT_MILLIS)%Z;
}.

Definition ValidOrigins (c : HttpEgressConfig) (origins : list str) : Prop :=
  (1 <= len (allowed_origins c) <= MAX_ALLOWED_ORIGINS)%Z /\ Forall2 OriginIs (allowed_origins c) origins /\ NoDup origins.

Lemma request_origin_Some url o :
  request_origin url = Some o <-> is_http (url_scheme url) = true /\ o = url_origin url /\ o <> lit "null".
Proof.
  unfold request_origin. destruct (is_http (url_scheme url)); [|naive_solver].
  case_bool_decide; split; naive_solver.
Qed.

Lemma canonical_origin_ok value o : canonical_origin value = Ok o <-> OriginIs value o.
Proof.
  unfold canonical_origin, OriginIs. split.
  - intros Hc. inv_ok Hc. bool_prop. split; [lia|]. exists u. unfold ok_or in Hc.
    destruct (request_origin u) as [o'|] eqn:Eo; [|done]. injection Hc as <-. apply request_origin_Some in Eo as (? & ? & ?).
    destruct (url_host_str u); [|done]. destruct (url_password u), (url_query u), (url_fragment u); try done.
    split; [done|]. split; [done|]. split; [by eexists|]. split; [by apply is_empty_spec|]. done.
  - intros (Hl & url & Hp & Hs & [h Hh] & Hu & Hpw & Hpath & Hq & Hf & Ho & Hn).
    rewrite (proj2 (Z.ltb_ge _ _) Hl), Hp, Hs, Hh, Hu, Hpw, bool_decide_true, Hq, Hf by done. cbn.
    by rewrite (proj2 (request_origin_Some url o)).
Qed.

Lemma valid_origins_unique c o o' : ValidOrigins c o -> ValidOrigins c o' -> o = o'.
Proof.
  intros (_ & H1 & _) (_ & H2 & _). revert o' H2; induction H1 as [|a o1 l l' Ha Hl IH]; intros o' H2; inversion H2; subst; [done|].
  f_equal; [|by apply IH]. apply canonical_origin_ok in Ha. match goal with Hb : OriginIs _ _ |- _ => apply canonical_origin_ok in Hb end.
  congruence.
Qed.

Lemma remove_dups_length (l : list str) : length (remove_dups l) <= length l.
Proof. induction l as [|x l IH]; cbn; [lia|]. case_decide; cbn; lia. Qed.

Lemma remove_dups_same (l : list str) : length (remove_dups l) = length l <-> NoDup l.
Proof.
  induction l as [|x l IH]; cbn; [split; [constructor | done]|]. pose proof (remove_dups_length l).
  rewrite NoDup_cons. case_decide; cbn; [split; [lia | naive_solver]|]. rewrite <- IH. split; [split; [done | lia] | lia].
Qed.

Lemma remove_dups_id (l : list str) : NoDup l -> remove_dups l = l.
Proof. induction 1 as [|x l Hx Hl IH]; cbn; [done|]. case_decide; [done | by rewrite IH]. Qed.

Lemma egress_validate_ok c origins : validate c = Ok origins <-> ValidOrigins c origins /\ LimitsOk c.
Proof.
  unfold validate, ValidOrigins. split.
  - intros Hv. inv_ok Hv. bool_prop. subst origins. apply try_map_Forall2 in E0.
    assert (Hlen : length value = length (allowed_origins c)) by (symmetry; by eapply Forall2_length).
    assert (Hd : NoDup value).
    { apply remove_dups_same. unfold len in E1. lia. }
    rewrite remove_dups_id by done.
    rewrite !in_range_spec in *. split; [split; [|split; [|done]]|split; lia].
    + assert (len (allowed_origins c) <> 0%Z) by (rewrite len_0; intros Hz; by rewrite Hz in *).
      pose proof (len_nonneg (allowed_origins c)). lia.
    + eapply Forall2_impl; [exact E0|]. intros v o. apply canonical_origin_ok.
  - intros ((Hc & HF & Hd) & []).
    assert (Hm : try_map canonical_origin (allowed_origins c) = Ok origins).
    { apply try_map_Forall2. eapply Forall2_impl; [exact HF|]. intros v o. apply canonical_origin_ok. }
    pose proof (Forall2_length _ _ _ HF) as Hlen.
    assert (He : is_empty (allowed_origins c) = false).
    { destruct (allowed_origins c); [change (len (@nil str)) with 0%Z in Hc; lia | done]. }
    rewrite He, (proj2 (Z.ltb_ge _ _)), Hm, remove_dups_id, (proj2 (Z.eqb_eq _ _)) by (unfold len in *; lia || done).
    cbn [negb orb]. rewrite !(proj2 (in_range_spec _ _ _)), (proj2 (Z.ltb_ge _ _)) by lia. done.
Qed.
End egress_config.
End EgressConfig.

(** A reference [UrlCrate] for concrete evaluations: [scheme://host/path] without user info, query and fragment; the
    origin is the scheme and the host. *)
Record ref_url_parts := RefUrl { u_scheme : str; u_host : str; u_path : str }.

Definition ref_url_parse (s : str) : option ref_url_parts :=
  let! parts := split_once ":" s else None in
  let! rest := strip_prefix (lit "//") parts.2 else None in
  Some match split_once "/" rest with
  | Some (host, path) => RefUrl parts.1 host ("/"%char :: path)
  | None => RefUrl parts.1 rest (lit "/")
  end.

#[local] Instance ref_url : UrlCrate := {
  Url := ref_url_parts;
  url_parse := ref_url_parse;
  url_scheme := u_scheme;
  url_host_str := fun u => Some (u_host u);
  url_username := fun _ => [];
  url_password := fun _ => None;
  url_path := u_path;
  url_query := fun _ => None;
  url_fragment := fun _ => None;
  url_origin := fun u => u_scheme u ++ lit "://" ++ u_host u;
  url_as_str := fun u => u_scheme u ++ lit "://" ++ u_host u ++ u_path u;
}.
