(* ===== verification/EgressPolicy.v ===== *)
(** * Egress policy ([lenso-http-egress-plugin/src/policy.rs])

    What an outbound request must satisfy before any transport sees it, and which fields of a response the caller
    gets. *)
From S2P Require Import Prelude RustStd HttpCrate RefHttp Kernel Config EgressConfig.

Module EgressPolicy.
Import EgressConfig.

(** The contract of [lenso-capability-http-client]. *)
Record SendRequest := mkSendRequest {
  send_body : str; send_headers : list (str * str); send_method : str; send_url : str }.
Record SendResponse := mkSendResponse {
  response_body : str; response_fields : list (str * str); response_status : Z }.
Inductive SendError :=
| DestinationNotAllowed | InvalidRequest | RequestTooLarge | ResponseTooLarge | Timeout | TransportFailure | UnknownError.
#[global] Instance SendError_eq_dec : EqDecision SendError.
Proof. solve_decision. Defined.
Inductive ClientInvocationError := Domain (error : SendError) | Runtime (failure : RuntimeFailure).

Definition FORBIDDEN_REQUEST_HEADERS : list str :=
  [lit "connection"; lit "content-length"; lit "host"; lit "keep-alive"; lit "proxy-authenticate";
   lit "proxy-authorization"; lit "te"; lit "trailer"; lit "transfer-encoding"; lit "upgrade"].

Definition invalid_request : ClientInvocationError := Domain InvalidRequest.
Definition request_too_large : ClientInvocationError := Domain RequestTooLarge.
Definition response_too_large : ClientInvocationError := Domain ResponseTooLarge.
Definition transport_failure : ClientInvocationError := Domain TransportFailure.

Section policy.
Context `{HttpCrate} `{UrlCrate}.

Record PreparedRequest := mkPrepared {
  prepared_method : Method; prepared_url : Url; prepared_headers : HeaderMap; prepared_body : str }.

(** The bytes one field adds to a head. *)
Definition field_bytes (name : HeaderName) (value : HeaderValue) : Z :=
  (len (hn_as_str name) + len (hv_as_bytes value) + 4)%Z.

Definition forbidden (name : HeaderName) : bool := bool_decide (hn_as_str name ∈ FORBIDDEN_REQUEST_HEADERS).

(** The body of the loop of [parse_request_headers]; [append] panics when the map is full. *)
Definition parse_request_header (max_head_bytes : Z) (state : HeaderMap * Z) (header : str * str) :
    Outcome (Result ClientInvocationError (HeaderMap * Z)) :=
  let '(parsed, head_bytes) := state in
  let! name := hn_from_bytes header.1 else Returned (Err invalid_request) in
  if forbidden name then Returned (Err invalid_request) else
  let! value := hv_from_str header.2 else Returned (Err invalid_request) in
  let! head_bytes := checked_add head_bytes (field_bytes name value) else Returned (Err request_too_large) in
  if (max_head_bytes <? head_bytes)%Z then Returned (Err request_too_large) else
  if negb (hm_has_room parsed) then Panicked else
  Returned (Ok (hm_append name value parsed, head_bytes)).

Definition parse_request_headers (headers : list (str * str)) (max_head_bytes : Z) :
    Outcome (Result ClientInvocationError HeaderMap) :=
  let^ state := try_panic_fold (parse_request_header max_head_bytes) (hm_new, 0%Z) headers in
  Returned (result_map fst state).

Definition prepare_request (config : HttpEgressConfig) (allowed_origins : list str) (request : SendRequest) :
    Outcome (Result ClientInvocationError PreparedRequest) :=
  if (32 <? len (send_method request))%Z || (4096 <? len (send_url request))%Z then Returned (Err invalid_request) else
  let! method := m_from_bytes (send_method request) else Returned (Err invalid_request) in
  if bool_decide (method = CONNECT) || bool_decide (method = TRACE) then Returned (Err invalid_request) else
  let! url := url_parse (send_url request) else Returned (Err invalid_request) in
  if negb (is_empty (url_username url))
     || match url_password url with Some _ => true | None => false end
     || match url_fragment url with Some _ => true | None => false end
  then Returned (Err invalid_request) else
  let! origin := request_origin url else Returned (Err invalid_request) in
  if negb (bool_decide (origin ∈ allowed_origins)) then Returned (Err (Domain DestinationNotAllowed)) else
  let body := send_body request in
  if (max_request_body_bytes config <? len body)%Z then Returned (Err (Domain RequestTooLarge)) else
  let^ headers := parse_request_headers (send_headers request) (max_request_head_bytes config) in
  Returned (let? headers := headers in Ok (mkPrepared method url headers body)).

(** The names the [Connection] fields list, as the set [connection_headers]. *)
Definition connection_value (names : list str) (value : HeaderValue) : Result ClientInvocationError (list str) :=
  let! value := hv_to_str value else Err transport_failure in
  try_fold (fun names name =>
      let! name := hn_from_bytes name else Err transport_failure in
      Ok (if bool_decide (hn_as_str name ∈ names) then names else names ++ [hn_as_str name]))
    names (filter (fun name => is_empty name = false) (trim <$> split "," value)).

(** The body of the second loop of [response_headers]. *)
Definition response_header (max_head_bytes : Z) (connection_headers : list str) (state : list (str * str) * Z)
    (field : HeaderName * HeaderValue) : Result ClientInvocationError (list (str * str) * Z) :=
  let '(result, head_bytes) := state in
  let '(name, value) := field in
  if forbidden name || bool_decide (hn_as_str name ∈ connection_headers) then Ok state else
  let! head_bytes := checked_add head_bytes (field_bytes name value) else Err response_too_large in
  if (max_head_bytes <? head_bytes)%Z then Err response_too_large else
  let! value := hv_to_str value else Err transport_failure in
  Ok (result ++ [(hn_as_str name, value)], head_bytes).

Definition response_headers (headers : HeaderMap) (max_head_bytes : Z) : Result ClientInvocationError (list (str * str)) :=
  let? connection_headers := try_fold connection_value [] (hm_get_all CONNECTION headers) in
  let? state := try_fold (response_header max_head_bytes connection_headers) ([], 0%Z) (hm_iter headers) in
  Ok state.1.

Context `{!HttpLaws}.

(** ** Specification *)

Definition head_bytes (fields : list (HeaderName * HeaderValue)) : Z :=
  foldr Z.add 0%Z ((fun '(n, v) => field_bytes n v) <$> fields).

(** A field of the caller as the field it becomes. *)
Definition FieldIs (header : str * str) (field : HeaderName * HeaderValue) : Prop :=
  hn_from_bytes header.1 = Some field.1 /\ hv_from_str header.2 = Some field.2
  /\ hn_as_str field.1 ∉ FORBIDDEN_REQUEST_HEADERS.

Lemma head_bytes_nonneg fields : (0 <= head_bytes fields)%Z.
Proof.
  unfold head_bytes, field_bytes. induction fields as [|[n v] fields IH]; cbn; [lia|].
  pose proof (len_nonneg (hn_as_str n)). pose proof (len_nonneg (hv_as_bytes v)). lia.
Qed.

Lemma head_bytes_app f g : head_bytes (f ++ g) = (head_bytes f + head_bytes g)%Z.
Proof. unfold head_bytes. induction f as [|[n v] f IH]; cbn in *; lia. Qed.

Lemma head_bytes_one n v : head_bytes [(n, v)] = field_bytes n v.
Proof. unfold head_bytes; cbn. lia. Qed.

Lemma forbidden_spec n : forbidden n = true <-> hn_as_str n ∈ FORBIDDEN_REQUEST_HEADERS.
Proof. unfold forbidden. by rewrite bool_decide_eq_true. Qed.

(** One field read after the fields [d]: it is appended, or there is no room for it, or it is refused. *)
Lemma parse_header_reads max h d m0 : (max <= usize_max)%Z ->
  match parse_request_header max (hm_append_all d m0, head_bytes d) h with
  | Returned (Ok state) => exists field, FieldIs h field /\ (head_bytes (d ++ [field]) <= max)%Z
      /\ hm_has_room (hm_append_all d m0) = true /\ state = (hm_append_all (d ++ [field]) m0, head_bytes (d ++ [field]))
  | Panicked => exists field, FieldIs h field /\ (head_bytes (d ++ [field]) <= max)%Z /\ hm_has_room (hm_append_all d m0) = false
  | Returned (Err _) => forall field, FieldIs h field -> (max < head_bytes (d ++ [field]))%Z
  | Waiting => False
  end.
Proof.
  intros Hmax. unfold parse_request_header, FieldIs.
  destruct (hn_from_bytes h.1) as [n|]; [|by intros field [? _]]. destruct (forbidden n) eqn:Ef.
  { intros field (Hn & _ & Hf). injection Hn as ->. by apply forbidden_spec in Ef. }
  destruct (hv_from_str h.2) as [v|]; [|by intros field (_ & ? & _)].
  assert (Hf : hn_as_str n ∉ FORBIDDEN_REQUEST_HEADERS) by (intros Hin; apply forbidden_spec in Hin; congruence).
  assert (Hb : head_bytes (d ++ [(n, v)]) = (head_bytes d + field_bytes n v)%Z) by by rewrite head_bytes_app, head_bytes_one.
  assert (Hone : forall field, Some n = Some field.1 /\ Some v = Some field.2 /\ hn_as_str field.1 ∉ FORBIDDEN_REQUEST_HEADERS -> field = (n, v))
    by (intros [n' v'] (Hn & Hv & _); cbn in *; congruence).
  destruct (checked_add (head_bytes d) (field_bytes n v)) as [b|] eqn:Ec.
  2: { intros field ->%Hone. rewrite Hb. unfold checked_add in Ec. destruct (Z.leb_spec (head_bytes d + field_bytes n v) usize_max); [done | lia]. }
  apply checked_add_Some in Ec as [-> _]. destruct (Z.ltb_spec max (head_bytes d + field_bytes n v)).
  { intros field ->%Hone. lia. }
  destruct (hm_has_room _); cbn [negb]; exists (n, v); rewrite Hb, ?hm_append_all_app; by split_and!.
Qed.

(** The loop from a state that has read the fields [d]. *)
Lemma parse_headers_reads max headers d m0 : (max <= usize_max)%Z -> (head_bytes d <= max)%Z ->
  match try_panic_fold (parse_request_header max) (hm_append_all d m0, head_bytes d) headers with
  | Returned (Ok state) => exists fields, Forall2 FieldIs headers fields /\ (head_bytes (d ++ fields) <= max)%Z
      /\ room_for (hm_append_all d m0) fields = true /\ state = (hm_append_all (d ++ fields) m0, head_bytes (d ++ fields))
  | Panicked => exists pre h post fields field, headers = pre ++ h :: post /\ Forall2 FieldIs pre fields /\ FieldIs h field
      /\ (head_bytes (d ++ fields ++ [field]) <= max)%Z /\ hm_has_room (hm_append_all (d ++ fields) m0) = false
  | Returned (Err _) => forall fields, Forall2 FieldIs headers fields -> (max < head_bytes (d ++ fields))%Z
  | Waiting => False
  end.
Proof.
  intros Hmax. revert d; induction headers as [|h headers IH]; intros d Hd; cbn [try_panic_fold].
  { exists []. rewrite app_nil_r. by split_and!; [constructor|..]. }
  pose proof (parse_header_reads max h d m0 Hmax) as Hh. destruct (parse_request_header max _ h) as [[state|e]| |]; [| | |done].
  - destruct Hh as (f & Hf & Hb & Hr & ->). specialize (IH (d ++ [f]) Hb).
    destruct (try_panic_fold _ _ headers) as [[state'|e]| |]; [| | |done].
    + destruct IH as (fs & HF & Hb' & Hr' & ->). rewrite <- app_assoc in *. exists (f :: fs). split_and!; [by constructor | done | | done].
      cbn [room_for]. rewrite Hr. by rewrite hm_append_all_app in Hr'.
    + intros fields HF. inversion HF as [|? f' ? fs' Hf' HF']; subst. specialize (IH fs' HF'). rewrite <- app_assoc in IH.
      destruct Hf as (H1' & H2' & _), Hf' as (H3' & H4' & _). destruct f, f'; cbn in *. by simplify_eq.
    + destruct IH as (pre & h' & post & fs & f' & -> & HF & Hf' & Hb' & Hr'). rewrite <- !app_assoc in *.
      exists (h :: pre), h', post, (f :: fs), f'. by split_and!; [|constructor|..].
  - intros fields HF. inversion HF as [|? f ? fs Hf HF']; subst. specialize (Hh f Hf).
    rewrite cons_middle, app_assoc, head_bytes_app. pose proof (head_bytes_nonneg fs). lia.
  - destruct Hh as (f & Hf & Hb & Hr). exists [], h, headers, [], f. rewrite app_nil_r. by split_and!; [|constructor|..].
Qed.

(** Some field of the head fits its limit, but the map that holds those before it is full. *)
Definition Overflows (headers : list (str * str)) (max : Z) : Prop := exists pre h post fields field,
  headers = pre ++ h :: post /\ Forall2 FieldIs pre fields /\ FieldIs h field /\ (head_bytes (fields ++ [field]) <= max)%Z
  /\ hm_has_room (hm_append_all fields hm_new) = false.

Lemma parse_request_headers_reads headers max : (0 <= max <= usize_max)%Z ->
  match parse_request_headers headers max with
  | Returned (Ok m) => exists fields, Forall2 FieldIs headers fields /\ (head_bytes fields <= max)%Z
      /\ room_for hm_new fields = true /\ m = hm_append_all fields hm_new
  | Panicked => Overflows headers max
  | Returned (Err _) => forall fields, Forall2 FieldIs headers fields -> (max < head_bytes fields)%Z
  | Waiting => False
  end.
Proof.
  intros [Hz Hmax]. pose proof (parse_headers_reads max headers [] hm_new Hmax Hz) as Hf. unfold parse_request_headers.
  change (hm_append_all [] hm_new) with hm_new in Hf. change (head_bytes []) with 0%Z in Hf.
  destruct (try_panic_fold _ _ headers) as [[state|e]| |]; cbn [result_map fst]; try done.
  destruct Hf as (fs & ? & ? & ? & ->). by exists fs.
Qed.

(** Fields that all fit leave room after any of them but the last. *)
Lemma room_overflow fields more : room_for hm_new (fields ++ more) = true -> more <> [] -> hm_has_room (hm_append_all fields hm_new) = true.
Proof.
  intros Hr Hm. destruct more as [|f more]; [done|]. revert Hr. rewrite cons_middle, app_assoc.
  assert (Hp : forall l fs m, room_for m (fs ++ l) = true -> room_for m fs = true).
  { intros l fs; induction fs as [|g fs IH]; intros m; cbn; [done|]. intros [? ?]%andb_prop. apply andb_true_intro. split; [done | by apply IH]. }
  intros Hr%Hp. rewrite room_for_snoc in Hr. by apply andb_prop in Hr as [_ ?].
Qed.

Lemma fields_unique headers fs fs' : Forall2 FieldIs headers fs -> Forall2 FieldIs headers fs' -> fs = fs'.
Proof.
  intros HF. revert fs'; induction HF as [|h [n v] headers fs Hf _ IH]; intros fs' HF'; inversion HF' as [|? [n' v'] ? fs1 Hf' HF1]; subst; [done|].
  destruct Hf as (H1' & H2' & _), Hf' as (H3' & H4' & _). cbn in *. simplify_eq. f_equal. by apply IH.
Qed.

Lemma parse_request_headers_ok headers max m : (0 <= max <= usize_max)%Z ->
  parse_request_headers headers max = Returned (Ok m) <->
  exists fields, Forall2 FieldIs headers fields /\ (head_bytes fields <= max)%Z /\ room_for hm_new fields = true
    /\ m = hm_append_all fields hm_new.
Proof.
  intros Hmax. pose proof (parse_request_headers_reads headers max Hmax) as Hr. split; [by intros E; rewrite E in Hr|].
  intros (fs & HF & Hb & Hroom & ->). destruct (parse_request_headers headers max) as [[m'|e]| |]; [| | |done].
  - destruct Hr as (fs' & HF' & _ & _ & ->). by rewrite (fields_unique _ _ _ HF HF').
  - specialize (Hr fs HF). lia.
  - destruct Hr as (pre & h & post & fields & field & -> & HFp & _ & _ & Hfull). exfalso.
    apply Forall2_app_inv_l in HF as (fs1 & fs2 & HF1 & HF2 & ->). rewrite (fields_unique _ _ _ HFp HF1) in Hfull.
    rewrite (room_overflow fs1 fs2 Hroom) in Hfull; [done|]. inversion HF2. done.
Qed.

(** What the transport may send for a request under a configuration. *)
Record Admissible (config : HttpEgressConfig) (request : SendRequest) (p : PreparedRequest) : Prop := {
  adm_method : m_as_str (prepared_method p) = send_method request /\ (len (send_method request) <= 32)%Z
    /\ send_method request <> lit "CONNECT" /\ send_method request <> lit "TRACE";
  adm_url : url_parse (send_url request) = Some (prepared_url p) /\ (len (send_url request) <= 4096)%Z
    /\ url_username (prepared_url p) = [] /\ url_password (prepared_url p) = None /\ url_fragment (prepared_url p) = None;
  adm_destination : is_http (url_scheme (prepared_url p)) = true
    /\ exists allowed, allowed ∈ allowed_origins config /\ OriginIs allowed (url_origin (prepared_url p));
  adm_body : prepared_body p = send_body request /\ (len (send_body request) <= max_request_body_bytes config)%Z;
  adm_headers : exists fields, Forall2 FieldIs (send_headers request) fields
    /\ (head_bytes fields <= max_request_head_bytes config)%Z /\ room_for hm_new fields = true
    /\ prepared_headers p = hm_append_all fields hm_new;
}.

Lemma allowed_member config origins o : ValidOrigins config origins ->
  o ∈ origins <-> exists allowed, allowed ∈ allowed_origins config /\ OriginIs allowed o.
Proof.
  intros (_ & HF & _). split.
  - intros Ho. apply list_elem_of_lookup in Ho as [i Hi]. apply (Forall2_lookup_r _ _ _ _ _ HF) in Hi as (a & Ha & Hao).
    exists a. split; [by eapply list_elem_of_lookup_2 | done].
  - intros (a & Ha & Hao). apply list_elem_of_lookup in Ha as [i Hi].
    apply (Forall2_lookup_l _ _ _ _ _ HF) in Hi as (o' & Ho' & Hao'). apply canonical_origin_ok in Hao, Hao'.
    assert (o = o') as -> by congruence. by eapply list_elem_of_lookup_2.
Qed.

Lemma connect_or_trace m s : m_from_bytes s = Some m ->
  bool_decide (m = CONNECT) || bool_decide (m = TRACE) = false <-> s <> lit "CONNECT" /\ s <> lit "TRACE".
Proof.
  intros Hm. apply m_from_bytes_spec in Hm as [_ <-].
  rewrite orb_false_iff, !bool_decide_eq_false. unfold CONNECT, TRACE.
  by rewrite !(m_const_eq _ m) by (vm_compute; reflexivity).
Qed.

(** Outbound authority is exact. Under a valid configuration a request is handed to the transport exactly when
    its method is a short token other than [CONNECT] and [TRACE], its URL is an [http(s)] URL without user info and
    fragment whose origin is that of a configured origin, its body fits, and its fields are well formed, none of them
    on the forbidden list, and fit together, in the head and in a header map; the transport then gets that method, URL and body and
    exactly those fields. *)
Lemma prepare_request_exact config origins request p :
  validate config = Ok origins ->
  prepare_request config origins request = Returned (Ok p) <-> Admissible config request p.
Proof.
  intros Hv. apply egress_validate_ok in Hv as [HO [Hb1 _ Hh1 _ _ _]]. unfold prepare_request.
  assert (Hmax : (0 <= max_request_head_bytes config <= usize_max)%Z) by (unfold MAX_HEAD_BYTES, usize_max in *; lia).
  split.
  - intros Hp. inv_ok_step Hp. bool_prop.
    destruct (m_from_bytes (send_method request)) as [m|] eqn:Em; [|done].
    pose proof (connect_or_trace _ _ Em) as Hct. apply m_from_bytes_spec in Em as [_ Hms].
    destruct (_ || bool_decide (m = TRACE)) eqn:Ect; [done|]. destruct (proj1 Hct eq_refl) as [Hn1 Hn2].
    destruct (url_parse (send_url request)) as [url|] eqn:Eu; [|done].
    inv_ok_step Hp. bool_prop. destruct (request_origin url) as [origin|] eqn:Eo; [|done].
    apply request_origin_Some in Eo as (Hhttp & -> & Hnull).
    inv_ok_step Hp. bool_prop. inv_ok_step Hp. bool_prop.
    destruct (parse_request_headers _ _) as [[hs|]| |] eqn:Eh; try done. apply parse_request_headers_ok in Eh; [|done].
    injection Hp as <-. destruct (url_password url) eqn:Epw, (url_fragment url) eqn:Efr; try done.
    split; cbn [prepared_method prepared_url prepared_body prepared_headers]; try done.
    + split; [done|]. split; [done|]. split; [by apply is_empty_spec|]. done.
    + split; [done|]. by apply (allowed_member config origins).
  - intros [(Hm & Hml & Hn1 & Hn2) (Hu & Hul & Hun & Hpw & Hfr) (Hhttp & Hdest) (Hbody & Hbl) Hh].
    rewrite (proj2 (Z.ltb_ge _ _) Hml), (proj2 (Z.ltb_ge _ _) Hul). cbn [orb].
    assert (Em : m_from_bytes (send_method request) = Some (prepared_method p)) by (rewrite <- Hm; apply m_from_bytes_as_str).
    rewrite Em, (proj2 (connect_or_trace _ _ Em)), Hu, Hun, Hpw, Hfr by done. cbn [is_empty negb orb].
    assert (Hnull : url_origin (prepared_url p) <> lit "null") by (destruct Hdest as (a & _ & _ & u & Ho); tauto || (destruct Ho as (? & ? & ? & ? & ? & ? & ? & ? & -> & ?); done)).
    rewrite (proj2 (request_origin_Some _ (url_origin (prepared_url p)))) by done.
    rewrite bool_decide_true by by apply (allowed_member config origins). cbn [negb].
    rewrite (proj2 (Z.ltb_ge _ _) Hbl), (proj2 (parse_request_headers_ok _ _ (prepared_headers p) Hmax)) by done.
    rewrite <- Hbody. by destruct p.
Qed.

Lemma prepare_ends config origins request :
  match prepare_request config origins request with
  | Returned _ => True
  | Panicked => parse_request_headers (send_headers request) (max_request_head_bytes config) = Panicked
  | Waiting => parse_request_headers (send_headers request) (max_request_head_bytes config) = Waiting
  end.
Proof.
  unfold prepare_request. destruct (_ || _); [done|]. destruct (m_from_bytes _); [|done]. destruct (_ || _); [done|].
  destruct (url_parse _); [|done]. destruct (_ || _ || _); [done|]. destruct (request_origin _); [|done]. destruct (negb _); [done|].
  destruct (_ <? _)%Z; [done|]. by destruct (parse_request_headers _ _) as [[]| |].
Qed.

(** Otherwise it is refused, or its head overflows the map. *)
Lemma prepare_refused config origins request : validate config = Ok origins -> (forall p, ~ Admissible config request p) ->
  (exists e, prepare_request config origins request = Returned (Err e))
  \/ prepare_request config origins request = Panicked /\ Overflows (send_headers request) (max_request_head_bytes config).
Proof.
  intros Hv Hn. pose proof Hv as [_ [_ _ Hh1 _ _ _]]%egress_validate_ok.
  pose proof (parse_request_headers_reads (send_headers request) (max_request_head_bytes config)
    ltac:(unfold MAX_HEAD_BYTES, usize_max in *; lia)) as Hr.
  pose proof (prepare_ends config origins request) as He.
  destruct (prepare_request config origins request) as [[p|e]| |] eqn:Ep; [| by left; eexists | by right; rewrite He in Hr | by rewrite He in Hr].
  apply (prepare_request_exact _ _ _ _ Hv) in Ep. by destruct (Hn p).
Qed.

(** ** Responses *)

Definition pieces (value : str) : list str := filter (fun name => is_empty name = false) (trim <$> split "," value).

Definition readable (v : HeaderValue) : bool := forallb visible_ascii (hv_as_bytes v).

(** The [Connection] fields are text that lists field names. *)
Definition connection_wf (values : list HeaderValue) : bool :=
  forallb (fun v => readable v && forallb valid_name (pieces (hv_as_bytes v))) values.

(** The names they list. *)
Definition listed (values : list HeaderValue) : list str :=
  concat ((fun v => to_ascii_lowercase <$> pieces (hv_as_bytes v)) <$> values).

(** The fields of a response that the caller gets. *)
Definition kept (hs : HeaderMap) : list (HeaderName * HeaderValue) :=
  filter (fun f => bool_decide (hn_as_str f.1 ∈ FORBIDDEN_REQUEST_HEADERS ++ listed (hm_get_all CONNECTION hs)) = false)
    (hm_iter hs).

Lemma hn_from_bytes_valid s : valid_name s = true -> is_Some (hn_from_bytes s).
Proof.
  intros Hv. exists (hn_from_static (to_ascii_lowercase s)). apply hn_from_bytes_spec. split; [done|].
  apply hn_from_static_spec; [by rewrite valid_name_lower | apply to_ascii_lowercase_idemp].
Qed.

Lemma connection_pieces_fold names ps : match try_fold (fun names name =>
      let! name := hn_from_bytes name else Err transport_failure in
      Ok (if bool_decide (hn_as_str name ∈ names) then names else names ++ [hn_as_str name])) names ps with
  | Ok names' => forallb valid_name ps = true
      /\ forall s, s ∈ names' <-> s ∈ names \/ s ∈ to_ascii_lowercase <$> ps
  | Err _ => forallb valid_name ps = false
  end.
Proof.
  revert names; induction ps as [|p ps IH]; intros names; cbn [try_fold forallb].
  - split; [done|]. intros s. rewrite elem_of_nil. tauto.
  - destruct (hn_from_bytes p) as [n|] eqn:En.
    + apply hn_from_bytes_spec in En as [Hv Hn]. rewrite Hv. cbn [andb].
      set (names' := if bool_decide _ then _ else _). specialize (IH names').
      destruct (try_fold _ names' ps) as [names''|]; [|done]. destruct IH as [-> IH]. split; [done|].
      intros s. rewrite IH, fmap_cons, elem_of_cons, <- Hn. subst names'.
      case_bool_decide as Hin; [naive_solver|]. rewrite elem_of_app, list_elem_of_singleton. tauto.
    + destruct (valid_name p) eqn:Ev; [|done]. destruct (hn_from_bytes_valid p Ev) as [n Hn]. congruence.
Qed.

Lemma connection_fold names values : match try_fold connection_value names values with
  | Ok names' => connection_wf values = true /\ forall s, s ∈ names' <-> s ∈ names \/ s ∈ listed values
  | Err _ => connection_wf values = false
  end.
Proof.
  revert names; induction values as [|v values IH]; intros names; cbn [try_fold].
  - split; [done|]. intros s. unfold listed; cbn. rewrite elem_of_nil. tauto.
  - unfold connection_value at 1. rewrite hv_to_str_spec. fold (readable v). unfold connection_wf; cbn [forallb].
    destruct (readable v); [|done]. cbn [andb].
    pose proof (connection_pieces_fold names (pieces (hv_as_bytes v))) as Hp. fold (pieces (hv_as_bytes v)).
    destruct (try_fold _ names (pieces (hv_as_bytes v))) as [names'|e]; [|by rewrite Hp].
    destruct Hp as [-> Hp]. cbn [andb]. specialize (IH names'). fold (connection_wf values).
    destruct (try_fold connection_value names' values) as [names''|e]; [|done]. destruct IH as [-> IH]. split; [done|].
    intros s. rewrite IH, Hp. unfold listed; cbn [fmap list_fmap concat]. rewrite elem_of_app. tauto.
Qed.

Lemma response_fold max names hs fields d out : (max <= usize_max)%Z ->
  (forall n, forbidden n || bool_decide (hn_as_str n ∈ names) = hs n) ->
  let keep := filter (fun f => hs f.1 = false) fields in
  match try_fold (response_header max names) (out, head_bytes d) fields with
  | Ok (out', b) => forallb (fun f => readable f.2) keep = true /\ (head_bytes (d ++ keep) <= Z.max max (head_bytes d))%Z
      /\ out' = out ++ ((fun f => (hn_as_str f.1, hv_as_bytes f.2)) <$> keep) /\ b = head_bytes (d ++ keep)
  | Err _ => forallb (fun f => readable f.2) keep = false \/ (max < head_bytes (d ++ keep))%Z
  end.
Proof.
  intros Hmax Hh. revert d out; induction fields as [|[n v] fields IH]; intros d out keep; subst keep; cbn [try_fold].
  - rewrite filter_nil, !app_nil_r. cbn. split; [done|]. split; [lia | done].
  - unfold response_header at 1. rewrite Hh, filter_cons. cbn [fst]. destruct (hs n) eqn:En.
    { rewrite decide_False by done. apply IH. }
    rewrite decide_True by done. cbn [forallb snd].
    assert (Hbig : (max < head_bytes d + field_bytes n v)%Z ->
      forall l, (max < head_bytes (d ++ (n, v) :: l))%Z).
    { intros Hb l. rewrite cons_middle, !head_bytes_app, head_bytes_one. pose proof (head_bytes_nonneg l). lia. }
    destruct (checked_add (head_bytes d) (field_bytes n v)) as [b|] eqn:Ec.
    2: { right. apply Hbig. unfold checked_add in Ec. destruct (Z.leb_spec (head_bytes d + field_bytes n v) usize_max); [done|lia]. }
    apply checked_add_Some in Ec as [-> _]. destruct (Z.ltb_spec max (head_bytes d + field_bytes n v)) as [Hb|Hb].
    { right. by apply Hbig. }
    rewrite hv_to_str_spec. fold (readable v). destruct (readable v); [|by left]. cbn [andb].
    specialize (IH (d ++ [(n, v)]) (out ++ [(hn_as_str n, hv_as_bytes v)])).
    rewrite (head_bytes_app d [(n, v)]), head_bytes_one in IH. cbn zeta in IH.
    rewrite <- app_assoc in IH. cbn [app] in IH.
    destruct (try_fold _ _ fields) as [[out' b]|e]; [|done]. destruct IH as (-> & H4 & -> & ->). split; [done|].
    split; [lia|]. rewrite <- app_assoc. done.
Qed.

(** The fields the caller gets, in order: those that are neither on the forbidden list nor named by a [Connection]
    field; they fit the head and are text, and the [Connection] fields are well formed. *)
Definition FieldsKept (hs : HeaderMap) (max : Z) (out : list (str * str)) : Prop :=
  connection_wf (hm_get_all CONNECTION hs) = true /\ forallb (fun f => readable f.2) (kept hs) = true
  /\ (head_bytes (kept hs) <= max)%Z /\ out = (fun f => (hn_as_str f.1, hv_as_bytes f.2)) <$> kept hs.

Lemma response_headers_exact hs max out : (0 <= max <= usize_max)%Z ->
  response_headers hs max = Ok out <-> FieldsKept hs max out.
Proof.
  intros Hmax. unfold response_headers, FieldsKept. pose proof (connection_fold [] (hm_get_all CONNECTION hs)) as Hc.
  destruct (try_fold connection_value [] _) as [names|e]; [|rewrite Hc; split; [done | by intros [? _]]].
  destruct Hc as [-> Hnames].
  assert (Hh : forall n, forbidden n || bool_decide (hn_as_str n ∈ names)
      = bool_decide (hn_as_str n ∈ FORBIDDEN_REQUEST_HEADERS ++ listed (hm_get_all CONNECTION hs))).
  { intros n. unfold forbidden. rewrite <- bool_decide_or. apply bool_decide_ext. rewrite elem_of_app, Hnames, elem_of_nil. tauto. }
  pose proof (response_fold max names _ (hm_iter hs) [] [] (proj2 Hmax) Hh) as Hf. cbn zeta in Hf.
  change (filter _ (hm_iter hs)) with (kept hs) in Hf.
  change (head_bytes []) with 0%Z in Hf. cbn [app] in Hf.
  destruct (try_fold (response_header max names) _ _) as [[out' b]|e].
  - destruct Hf as (-> & Hb & -> & _). cbn [fst]. split; [intros [= <-]; repeat split; lia | by intros (_ & _ & _ & ->)].
  - split; [done|]. intros (_ & Hr & Hb & _). destruct Hf; [congruence | lia].
Qed.

End policy.

(** ** Samples *)

#[local] Existing Instance ref_http.
#[local] Existing Instance ref_url.

Definition sample_egress_config : HttpEgressConfig :=
  mkEgressConfig [lit "https://api.example"] Auto 64 128 64 128 2 1000 1000.
Definition sample_send : SendRequest :=
  mkSendRequest (lit "{}") [(lit "Accept", lit "*/*")] (lit "POST") (lit "https://api.example/v1/items").
Definition sample_prepared : PreparedRequest :=
  mkPrepared (static_method (lit "POST")) (RefUrl (lit "https") (lit "api.example") (lit "/v1/items"))
    (ref_headers [("accept", "*/*")%string]) (lit "{}").

Example sample_accepted :
  prepare_request sample_egress_config [lit "https://api.example"] sample_send = Returned (Ok sample_prepared).
Proof. reflexivity. Qed.

Example sample_refused :
  prepare_request sample_egress_config [lit "https://other.example"] sample_send = Returned (Err (Domain DestinationNotAllowed)).
Proof. reflexivity. Qed.

(** A [Proxy-Connection] field passes: it is not on the list. *)
Example proxy_connection_accepted :
  parse_request_headers [(lit "Proxy-Connection", lit "keep-alive")] 128
  = Returned (Ok (ref_headers [("proxy-connection", "keep-alive")%string])).
Proof. reflexivity. Qed.

Example sample_fields :
  response_headers (ref_headers [("connection", "x-hop")%string; ("x-hop", "1")%string; ("etag", "7")%string]) 64
  = Ok [(lit "etag", lit "7")].
Proof. reflexivity. Qed.

End EgressPolicy.
