(* ===== verification/Wire.v ===== *)
(** * Messages on the wire ([generated.rs] of the four capability crates)

    The structs the contracts exchange, with the schema and the fields their derives declare, and the pairs
    [encode_*]/[decode_*] that turn them into portable JSON. The text form of
    [lenso_contract_runtime] ([encode_portable_json] and [decode_portable_json], past the codec) is an interface, [JsonText]. *)
From S2P Require Import Prelude RustStd HttpCrate Kernel Json Derive WebSocket ResponseStream Response Routing Authoring EgressPolicy.

Module Wire.
Import Json Derive.

Section wire.
Context {N : Type} `{Serde N} `{!SerdeDerive N}.

(** A field with [deserialize_required], and one with [skip_serializing_if]. *)
Definition must (k : string) : Field := mkField (lit k) true.
Definition may (k : string) : Field := mkField (lit k) false.
Definition message (fields : list Field) : Schema := mkSchema false fields.

(** The structs of a name and a value: headers and path parameters. *)
Definition item_schema : Schema := message [must "name"; must "value"].
Definition item_put (i : str * str) : list (str * Value N) :=
  put (lit "name") string_codec i.1 ++ put (lit "value") string_codec i.2.
Definition item_take (found : list (option (Value N))) : option (str * str) :=
  match found with
  | [name; value] => n ← take_required string_codec name; v ← take_required string_codec value; Some (n, v)
  | _ => None
  end.
Definition item_codec : Codec N (str * str) := struct_codec item_schema item_put item_take.

Definition credential_schema : Schema := message [must "scheme"; must "value"].
Definition credential_put (i : str * str) : list (str * Value N) :=
  put (lit "scheme") string_codec i.1 ++ put (lit "value") string_codec i.2.
Definition credential_take (found : list (option (Value N))) : option (str * str) :=
  match found with
  | [scheme; value] => s ← take_required string_codec scheme; v ← take_required string_codec value; Some (s, v)
  | _ => None
  end.
Definition credential_codec : Codec N (str * str) := struct_codec credential_schema credential_put credential_take.

(** ** Descriptions *)

Definition empty_schema : Schema := message [].
Definition empty_put (_ : unit) : list (str * Value N) := [].
Definition empty_take (found : list (option (Value N))) : option unit := match found with [] => Some () | _ => None end.

Definition route_schema : Schema := message [must "method"; may "openapi"; must "path"; must "route_id"].
Definition route_put (r : Authoring.DescribeResponseRoutesItem (N := N)) : list (str * Value N) :=
  put (lit "method") string_codec (Authoring.item_method r) ++ put_some (lit "openapi") map_codec (Authoring.item_openapi r)
  ++ put (lit "path") string_codec (Authoring.item_path r) ++ put (lit "route_id") string_codec (Authoring.item_route_id r).
Definition route_take (found : list (option (Value N))) : option Authoring.DescribeResponseRoutesItem :=
  match found with
  | [method; openapi; path; route_id] =>
      m ← take_required string_codec method; o ← take_option map_codec openapi;
      p ← take_required string_codec path; i ← take_required string_codec route_id;
      Some (Authoring.mkItem m o p i)
  | _ => None
  end.
Definition route_codec : Codec N Authoring.DescribeResponseRoutesItem := struct_codec route_schema route_put route_take.

Definition stream_route_schema : Schema := message [must "method"; must "path"; must "route_id"].
Definition stream_route_put (r : Routing.RouteDescription) : list (str * Value N) :=
  put (lit "method") string_codec (Routing.described_method r) ++ put (lit "path") string_codec (Routing.described_path r)
  ++ put (lit "route_id") string_codec (Routing.described_route_id r).
Definition stream_route_take (found : list (option (Value N))) : option Routing.RouteDescription :=
  match found with
  | [method; path; route_id] =>
      m ← take_required string_codec method; p ← take_required string_codec path; i ← take_required string_codec route_id;
      Some (Routing.mkDescription m p i)
  | _ => None
  end.
Definition stream_route_codec : Codec N Routing.RouteDescription :=
  struct_codec stream_route_schema stream_route_put stream_route_take.

Definition websocket_route_schema : Schema := message [must "path"; must "route_id"].
Definition websocket_route_put (r : str * str) : list (str * Value N) :=
  put (lit "path") string_codec r.1 ++ put (lit "route_id") string_codec r.2.
Definition websocket_route_take (found : list (option (Value N))) : option (str * str) :=
  match found with
  | [path; route_id] => p ← take_required string_codec path; i ← take_required string_codec route_id; Some (p, i)
  | _ => None
  end.
Definition websocket_route_codec : Codec N (str * str) :=
  struct_codec websocket_route_schema websocket_route_put websocket_route_take.

(** The three descriptions are one list of routes. *)
Definition routes_schema : Schema := message [must "routes"].
Definition routes_put {A} (c : Codec N A) (l : list A) : list (str * Value N) := put (lit "routes") (list_codec c) l.
Definition routes_take {A} (c : Codec N A) (found : list (option (Value N))) : option (list A) :=
  match found with [routes] => take_required (list_codec c) routes | _ => None end.

(** ** HTTP requests and responses *)

Definition handle_request_schema : Schema :=
  message [must "body"; may "credential"; must "headers"; must "method"; must "path"; must "path_parameters"; may "query";
           must "request_id"; must "route_id"].
Definition handle_request_put (r : Routing.HandleRequest) : list (str * Value N) :=
  put (lit "body") bytes_codec (Routing.hr_body r) ++ put_some (lit "credential") credential_codec (Routing.hr_credential r)
  ++ put (lit "headers") (list_codec item_codec) (Routing.hr_headers r) ++ put (lit "method") string_codec (Routing.hr_method r)
  ++ put (lit "path") string_codec (Routing.hr_path r)
  ++ put (lit "path_parameters") (list_codec item_codec) (Routing.hr_path_parameters r)
  ++ put_some (lit "query") string_codec (Routing.hr_query r) ++ put (lit "request_id") string_codec (Routing.hr_request_id r)
  ++ put (lit "route_id") string_codec (Routing.hr_route_id r).
Definition handle_request_take (found : list (option (Value N))) : option Routing.HandleRequest :=
  match found with
  | [body; credential; headers; method; path; path_parameters; query; request_id; route_id] =>
      body ← take_required bytes_codec body; credential ← take_option credential_codec credential;
      headers ← take_required (list_codec item_codec) headers; method ← take_required string_codec method;
      path ← take_required string_codec path; path_parameters ← take_required (list_codec item_codec) path_parameters;
      query ← take_option string_codec query; request_id ← take_required string_codec request_id;
      route_id ← take_required string_codec route_id;
      Some (Routing.mkHandleRequest body credential headers method path path_parameters query request_id route_id)
  | _ => None
  end.

Definition handle_response_schema : Schema := message [must "body"; must "headers"; must "status"].
Definition handle_response_put (r : Response.HandleResponse) : list (str * Value N) :=
  put (lit "body") bytes_codec (Response.handle_body r) ++ put (lit "headers") (list_codec item_codec) (Response.handle_headers r)
  ++ put (lit "status") i64_codec (Response.handle_status r).
Definition handle_response_take (found : list (option (Value N))) : option Response.HandleResponse :=
  match found with
  | [body; headers; status] =>
      body ← take_required bytes_codec body; headers ← take_required (list_codec item_codec) headers;
      status ← take_required i64_codec status; Some (Response.mkHandleResponse status headers body)
  | _ => None
  end.

(** ** Frames *)

Definition stream_kind_name (k : ResponseStream.FrameKind) : str :=
  match k with ResponseStream.Head => lit "head" | ResponseStream.Chunk => lit "chunk" end.
Definition stream_kind_codec : Codec N ResponseStream.FrameKind :=
  variant_codec stream_kind_name [ResponseStream.Head; ResponseStream.Chunk].

Definition stream_frame_schema : Schema := message [may "body"; may "headers"; must "kind"; may "status"].
Definition stream_frame_put (f : ResponseStream.StreamFrame) : list (str * Value N) :=
  put_some (lit "body") bytes_codec (ResponseStream.body f)
  ++ put_some (lit "headers") (list_codec item_codec) (ResponseStream.headers f)
  ++ put (lit "kind") stream_kind_codec (ResponseStream.kind f) ++ put_some (lit "status") i64_codec (ResponseStream.status f).
Definition stream_frame_take (found : list (option (Value N))) : option ResponseStream.StreamFrame :=
  match found with
  | [body; headers; kind; status] =>
      body ← take_option bytes_codec body; headers ← take_option (list_codec item_codec) headers;
      kind ← take_required stream_kind_codec kind; status ← take_option i64_codec status;
      Some (ResponseStream.mkStreamFrame kind status headers body)
  | _ => None
  end.

Definition websocket_kind_name (k : WebSocket.Kind) : str :=
  match k with
  | WebSocket.Accept => lit "accept"
  | WebSocket.Text => lit "text"
  | WebSocket.Binary => lit "binary"
  | WebSocket.Close => lit "close"
  end.
Definition websocket_kind_codec : Codec N WebSocket.Kind :=
  variant_codec websocket_kind_name [WebSocket.Accept; WebSocket.Text; WebSocket.Binary; WebSocket.Close].

Definition websocket_frame_schema : Schema :=
  message [may "body"; may "code"; must "kind"; may "protocol"; may "reason"; may "text"].
Definition websocket_frame_put (f : WebSocket.Frame) : list (str * Value N) :=
  put_some (lit "body") bytes_codec (WebSocket.body f) ++ put_some (lit "code") i64_codec (WebSocket.code f)
  ++ put (lit "kind") websocket_kind_codec (WebSocket.kind f) ++ put_some (lit "protocol") string_codec (WebSocket.protocol f)
  ++ put_some (lit "reason") string_codec (WebSocket.reason f) ++ put_some (lit "text") string_codec (WebSocket.text f).
Definition websocket_frame_take (found : list (option (Value N))) : option WebSocket.Frame :=
  match found with
  | [body; code; kind; protocol; reason; text] =>
      body ← take_option bytes_codec body; code ← take_option i64_codec code; kind ← take_required websocket_kind_codec kind;
      protocol ← take_option string_codec protocol; reason ← take_option string_codec reason; text ← take_option string_codec text;
      Some (WebSocket.mkFrame kind protocol text body code reason)
  | _ => None
  end.

Definition connect_request_schema : Schema :=
  message [may "credential"; must "headers"; must "path"; must "path_parameters"; must "protocols"; may "query";
           must "request_id"; must "route_id"].
Definition connect_request_put (r : Routing.ConnectWebsocketRequest) : list (str * Value N) :=
  put_some (lit "credential") credential_codec (Routing.cr_credential r)
  ++ put (lit "headers") (list_codec item_codec) (Routing.cr_headers r) ++ put (lit "path") string_codec (Routing.cr_path r)
  ++ put (lit "path_parameters") (list_codec item_codec) (Routing.cr_path_parameters r)
  ++ put (lit "protocols") (list_codec string_codec) (Routing.cr_protocols r)
  ++ put_some (lit "query") string_codec (Routing.cr_query r) ++ put (lit "request_id") string_codec (Routing.cr_request_id r)
  ++ put (lit "route_id") string_codec (Routing.cr_route_id r).
Definition connect_request_take (found : list (option (Value N))) : option Routing.ConnectWebsocketRequest :=
  match found with
  | [credential; headers; path; path_parameters; protocols; query; request_id; route_id] =>
      credential ← take_option credential_codec credential; headers ← take_required (list_codec item_codec) headers;
      path ← take_required string_codec path; path_parameters ← take_required (list_codec item_codec) path_parameters;
      protocols ← take_required (list_codec string_codec) protocols; query ← take_option string_codec query;
      request_id ← take_required string_codec request_id; route_id ← take_required string_codec route_id;
      Some (Routing.mkConnectRequest credential headers path query request_id route_id path_parameters protocols)
  | _ => None
  end.

(** ** The HTTP client *)

Definition send_request_schema : Schema := message [must "body"; must "headers"; must "method"; must "url"].
Definition send_request_put (r : EgressPolicy.SendRequest) : list (str * Value N) :=
  put (lit "body") bytes_codec (EgressPolicy.send_body r) ++ put (lit "headers") (list_codec item_codec) (EgressPolicy.send_headers r)
  ++ put (lit "method") string_codec (EgressPolicy.send_method r) ++ put (lit "url") string_codec (EgressPolicy.send_url r).
Definition send_request_take (found : list (option (Value N))) : option EgressPolicy.SendRequest :=
  match found with
  | [body; headers; method; url] =>
      body ← take_required bytes_codec body; headers ← take_required (list_codec item_codec) headers;
      method ← take_required string_codec method; url ← take_required string_codec url;
      Some (EgressPolicy.mkSendRequest body headers method url)
  | _ => None
  end.

Definition send_response_put (r : EgressPolicy.SendResponse) : list (str * Value N) :=
  put (lit "body") bytes_codec (EgressPolicy.response_body r)
  ++ put (lit "headers") (list_codec item_codec) (EgressPolicy.response_fields r)
  ++ put (lit "status") i64_codec (EgressPolicy.response_status r).
Definition send_response_take (found : list (option (Value N))) : option EgressPolicy.SendResponse :=
  match found with
  | [body; headers; status] =>
      body ← take_required bytes_codec body; headers ← take_required (list_codec item_codec) headers;
      status ← take_required i64_codec status; Some (EgressPolicy.mkSendResponse body headers status)
  | _ => None
  end.

(** ** The messages of the contracts *)

Inductive Message :=
| describe_request | describe_response | handle_request | handle_response
| describe_stream_request | describe_stream_response | handle_stream_request | handle_stream_response
| connect_websocket_request | connect_websocket_response | describe_websocket_request | describe_websocket_response
| send_request | send_response.

Definition Payload (m : Message) : Type :=
  match m with
  | describe_request | describe_stream_request | describe_websocket_request => unit
  | describe_response => list (Authoring.DescribeResponseRoutesItem (N := N))
  | describe_stream_response => list Routing.RouteDescription
  | describe_websocket_response => list (str * str)
  | handle_request | handle_stream_request => Routing.HandleRequest
  | handle_response => Response.HandleResponse
  | handle_stream_response => ResponseStream.StreamFrame
  | connect_websocket_request => Routing.ConnectWebsocketRequest
  | connect_websocket_response => WebSocket.Frame
  | send_request => EgressPolicy.SendRequest
  | send_response => EgressPolicy.SendResponse
  end.

Definition schema (m : Message) : Schema :=
  match m with
  | describe_request | describe_stream_request | describe_websocket_request => empty_schema
  | describe_response | describe_stream_response | describe_websocket_response => routes_schema
  | handle_request | handle_stream_request => handle_request_schema
  | handle_response | send_response => handle_response_schema
  | handle_stream_response => stream_frame_schema
  | connect_websocket_request => connect_request_schema
  | connect_websocket_response => websocket_frame_schema
  | send_request => send_request_schema
  end.

Definition codec (m : Message) : Codec N (Payload m) :=
  match m with
  | describe_request | describe_stream_request | describe_websocket_request => struct_codec empty_schema empty_put empty_take
  | describe_response => struct_codec routes_schema (routes_put route_codec) (routes_take route_codec)
  | describe_stream_response => struct_codec routes_schema (routes_put stream_route_codec) (routes_take stream_route_codec)
  | describe_websocket_response => struct_codec routes_schema (routes_put websocket_route_codec) (routes_take websocket_route_codec)
  | handle_request | handle_stream_request => struct_codec handle_request_schema handle_request_put handle_request_take
  | handle_response => struct_codec handle_response_schema handle_response_put handle_response_take
  | handle_stream_response => struct_codec stream_frame_schema stream_frame_put stream_frame_take
  | connect_websocket_request => struct_codec connect_request_schema connect_request_put connect_request_take
  | connect_websocket_response => struct_codec websocket_frame_schema websocket_frame_put websocket_frame_take
  | send_request => struct_codec send_request_schema send_request_put send_request_take
  | send_response => struct_codec handle_response_schema send_response_put send_response_take
  end.

Context `{!JsonText N}.
Definition encode (m : Message) (value : Payload m) : option str := print (write (codec m) value).
Definition decode (m : Message) (wire : str) : option (Payload m) := parse wire ≫= read (codec m).

(** The payloads that exist: statuses and codes are [i64], the values of a map are maps throughout. *)
Definition is_i64 (z : Z) : Prop := (i64_min <= z <= i64_max)%Z.
Definition RouteWf (r : Authoring.DescribeResponseRoutesItem (N := N)) : Prop := forall o, Authoring.item_openapi r = Some o -> Wf (Object o).
Definition Sendable (m : Message) : Payload m -> Prop :=
  match m with
  | describe_response => fun l => Forall RouteWf l
  | handle_response => fun r => is_i64 (Response.handle_status r)
  | handle_stream_response => fun f => forall z, ResponseStream.status f = Some z -> is_i64 z
  | connect_websocket_response => fun f => forall z, WebSocket.code f = Some z -> is_i64 z
  | send_response => fun r => is_i64 (EgressPolicy.response_status r)
  | _ => fun _ => True
  end.

(** ** Lemmas *)

Context `{!SerdeDeriveLaws N}.

Lemma item_written i : Written item_codec i.
Proof. destruct i. solve_struct item_put item_take. Qed.
Lemma credential_written i : Written credential_codec i.
Proof. destruct i. solve_struct credential_put credential_take. Qed.
#[local] Hint Resolve item_written credential_written : codec.

Lemma route_written r : RouteWf r -> Written route_codec r.
Proof. destruct r as [m [o|] p i]; intros Hr; [specialize (Hr o eq_refl)|]; solve_struct route_put route_take. Qed.
Lemma stream_route_written r : Written stream_route_codec r.
Proof. destruct r. solve_struct stream_route_put stream_route_take. Qed.
Lemma websocket_route_written r : Written websocket_route_codec r.
Proof. destruct r. solve_struct websocket_route_put websocket_route_take. Qed.
#[local] Hint Resolve stream_route_written websocket_route_written : codec.

Lemma routes_written {A} (c : Codec N A) l : Forall (Written c) l -> Written (struct_codec routes_schema (routes_put c) (routes_take c)) l.
Proof. intros Hl%list_written. solve_struct routes_put routes_take. Qed.

Lemma kinds_written k k' : Written stream_kind_codec k /\ Written websocket_kind_codec k'.
Proof.
  split; apply variant_written.
  - intros [] []; done.
  - destruct k; repeat constructor.
  - intros [] []; done.
  - destruct k'; repeat constructor.
Qed.
Lemma stream_kind_written k : Written stream_kind_codec k.
Proof. apply (kinds_written k WebSocket.Accept). Qed.
Lemma websocket_kind_written k : Written websocket_kind_codec k.
Proof. apply (kinds_written ResponseStream.Head k). Qed.
#[local] Hint Resolve stream_kind_written websocket_kind_written : codec.

(** Every sendable payload of every message. *)
Lemma payload_written m value : Sendable m value -> Written (codec m) value.
Proof.
  destruct m; cbn [codec Payload Sendable] in value |- *; intros Hs.
  - destruct value. solve_struct empty_put empty_take.
  - apply routes_written. eapply Forall_impl; [exact Hs|]. apply route_written.
  - destruct value as [? [] ? ? ? ? [] ? ?]; solve_struct handle_request_put handle_request_take.
  - destruct value. cbn in Hs. solve_struct handle_response_put handle_response_take.
  - destruct value. solve_struct empty_put empty_take.
  - apply routes_written, Forall_forall. auto with codec.
  - destruct value as [? [] ? ? ? ? [] ? ?]; solve_struct handle_request_put handle_request_take.
  - destruct value as [? [z|] [] []]; cbn in Hs; try specialize (Hs z eq_refl); solve_struct stream_frame_put stream_frame_take.
  - destruct value as [[] ? ? [] ? ? ? ?]; solve_struct connect_request_put connect_request_take.
  - destruct value as [? [] [] [] [z|] []]; cbn in Hs; try specialize (Hs z eq_refl); solve_struct websocket_frame_put websocket_frame_take.
  - destruct value. solve_struct empty_put empty_take.
  - apply routes_written, Forall_forall. auto with codec.
  - destruct value. solve_struct send_request_put send_request_take.
  - destruct value. cbn in Hs. solve_struct send_response_put send_response_take.
Qed.

Lemma codec_reads m v v' : deserialize_struct (schema m) v = deserialize_struct (schema m) v' -> read (codec m) v = read (codec m) v'.
Proof. destruct m; cbn [codec schema read struct_codec]; by intros ->. Qed.

Lemma codec_refuses m v : deserialize_struct (schema m) v = None -> read (codec m) v = None.
Proof. destruct m; cbn [codec schema read struct_codec]; by intros ->. Qed.

Lemma schema_keys m : NoDup (keys (schema m)) /\ deny_unknown_fields (schema m) = false.
Proof. split; [|by destruct m]. apply (bool_decide_unpack _). by destruct m; vm_compute. Qed.

Context `{!JsonTextLaws N}.

(** C19: What the contracts send arrives. A payload that is encoded is decoded to itself, for every message of the four
    contracts. A peer that knows more fields is understood: whatever an object holds beside the fields of the message, it
    is read as the same payload. An object without one of the required fields is refused. *)
Theorem messages_roundtrip m value text : Sendable m value ->
  (encode m value = Some text -> decode m text = Some value)
  /\ (forall o o', write (codec m) value = Object o -> MapOk o' -> (forall k, k ∈ keys (schema m) -> map_get k o' = map_get k o) ->
        read (codec m) (Object o') = Some value)
  /\ (forall o f, MapOk o -> f ∈ fields (schema m) -> required f = true -> map_get (key f) o = None -> read (codec m) (Object o) = None).
Proof.
  intros Hs. destruct (payload_written m value Hs) as (Hr & _ & Hw). destruct (schema_keys m) as [Hk Hd]. split_and!.
  - unfold encode, decode. intros Hp%parse_print; [|done]. by rewrite Hp.
  - intros o o' Ho Ho' He. rewrite Ho in Hr, Hw. apply Wf_object in Hw as [Hm _]. rewrite <- Hr. apply codec_reads.
    by apply extra_fields_ignored.
  - intros o f Ho Hf Hq Hn. apply codec_refuses. rewrite struct_fields by done.
    destruct (forallb _ (fields (schema m))) eqn:E; [|done]. rewrite forallb_forall in E.
    specialize (E f ltac:(by apply list_elem_of_In)). unfold map_contains_key in E. by rewrite Hq, Hn in E.
Qed.
End wire.

Import RefDerive.

(** A response with a status, a field and a body. *)
Definition sample_response : Response.HandleResponse :=
  Response.mkHandleResponse 201 [(lit "location", lit "/orders/7")] (lit "created").

Lemma messages_roundtrip_witness :
  Sendable (N := Z) handle_response sample_response /\ exists text, encode handle_response sample_response = Some text
    /\ decode handle_response text = Some sample_response.
Proof.
  assert (Hs : Sendable (N := Z) handle_response sample_response) by (vm_compute; by split).
  split; [exact Hs|]. exists (ref_print (write (codec handle_response) sample_response)). split; [reflexivity|].
  exact (proj1 (messages_roundtrip handle_response sample_response _ Hs) eq_refl).
Defined.
End Wire.
