(* ===== verification/ConfigCodec.v ===== *)
(** * Configurations as the plan holds them

    The derived codecs of the plugins' configurations ([config.rs] of the ingress, the egress and the OpenAPI plugin), and
    what they mean for a replicated host: it writes the configuration of the ingress into the plan of its lanes, the kernel hands
    each lane its text, and the lane's factory compares what it reads with the configuration of the shared listener. *)
From stdpp Require Import countable strings.
From S2P Require Import Prelude RustStd HttpCrate RefHttp Kernel Config Middleware Routing Replication Event Native Json Derive OpenApiContract.
From S2P Require Import WebHost EgressConfig.

(** The text of a socket address ([Display] and [FromStr]). *)
Class AddressText := { address_to_string : Config.SocketAddr -> str; address_from_str : str -> option Config.SocketAddr }.

Module ConfigCodec.
Import Json Derive.

(** The addresses that exist and that their text determines: it has no place for the flow information of IPv6. *)
Definition AddressOk (a : Config.SocketAddr) : Prop :=
  match a with
  | Config.V4 octets port => length octets = 4 /\ Forall (fun o => 0 <= o <= 255)%Z octets /\ (0 <= port <= 65535)%Z
  | Config.V6 segments port flowinfo scope_id =>
      length segments = 8 /\ Forall (fun s => 0 <= s <= 65535)%Z segments /\ (0 <= port <= 65535)%Z
      /\ flowinfo = 0%Z /\ (0 <= scope_id < 2 ^ 32)%Z
  end.
Class AddressTextLaws `{AddressText} : Prop := { address_text a : AddressOk a -> address_from_str (address_to_string a) = Some a }.

Section config_codec.
Context {N : Type} `{Serde N} `{!SerdeDerive N} `{AddressText}.

Definition must (k : string) : Field := mkField (lit k) true.
Definition may (k : string) : Field := mkField (lit k) false.
Definition strict (fields : list Field) : Schema := mkSchema true fields.

Definition address_codec : Codec N Config.SocketAddr :=
  mkCodec (fun a => String (address_to_string a)) (fun v => as_str v ≫= address_from_str).

(** ** The ingress *)

Definition session_cookie_schema : Schema := strict [must "name"; must "csrf_cookie_name"; must "csrf_header_name"].
Definition session_cookie_put (c : Config.SessionCookieConfig) : list (str * Value N) :=
  put (lit "name") string_codec (Config.name c) ++ put (lit "csrf_cookie_name") string_codec (Config.csrf_cookie_name c)
  ++ put (lit "csrf_header_name") string_codec (Config.csrf_header_name c).
Definition session_cookie_take (found : list (option (Value N))) : option Config.SessionCookieConfig :=
  match found with
  | [name; csrf_cookie_name; csrf_header_name] =>
      n ← take string_codec name; c ← take string_codec csrf_cookie_name; h ← take string_codec csrf_header_name;
      Some (Config.mkSessionCookieConfig n c h)
  | _ => None
  end.
Definition session_cookie_codec : Codec N Config.SessionCookieConfig :=
  struct_codec session_cookie_schema session_cookie_put session_cookie_take.

Definition websocket_schema : Schema := strict [must "allowed_origins"; must "max_message_bytes"; must "max_session_bytes"].
Definition websocket_put (c : Config.WebSocketConfig) : list (str * Value N) :=
  put (lit "allowed_origins") (list_codec string_codec) (Config.allowed_origins c)
  ++ put (lit "max_message_bytes") unsigned_codec (Config.max_message_bytes c)
  ++ put (lit "max_session_bytes") unsigned_codec (Config.max_session_bytes c).
Definition websocket_take (found : list (option (Value N))) : option Config.WebSocketConfig :=
  match found with
  | [allowed_origins; max_message_bytes; max_session_bytes] =>
      o ← take (list_codec string_codec) allowed_origins; m ← take unsigned_codec max_message_bytes;
      s ← take unsigned_codec max_session_bytes; Some (Config.mkWebSocketConfig o m s)
  | _ => None
  end.
Definition websocket_codec : Codec N Config.WebSocketConfig := struct_codec websocket_schema websocket_put websocket_take.

Definition ingress_schema : Schema :=
  strict [may "bind_address"; may "max_request_body_bytes"; may "max_request_head_bytes"; may "max_concurrent_requests";
          may "max_connections"; may "request_head_timeout_millis"; may "request_body_timeout_millis";
          may "connection_idle_timeout_millis"; may "shutdown_grace_timeout_millis"; may "request_timeout_millis";
          may "session_cookie"; may "websocket"].
Definition ingress_put (c : Config.WebIngressConfig) : list (str * Value N) :=
  put (lit "bind_address") address_codec (Config.bind_address c)
  ++ put (lit "max_request_body_bytes") unsigned_codec (Config.max_request_body_bytes c)
  ++ put (lit "max_request_head_bytes") unsigned_codec (Config.max_request_head_bytes c)
  ++ put (lit "max_concurrent_requests") unsigned_codec (Config.max_concurrent_requests c)
  ++ put (lit "max_connections") unsigned_codec (Config.max_connections c)
  ++ put (lit "request_head_timeout_millis") unsigned_codec (Config.request_head_timeout_millis c)
  ++ put (lit "request_body_timeout_millis") unsigned_codec (Config.request_body_timeout_millis c)
  ++ put (lit "connection_idle_timeout_millis") unsigned_codec (Config.connection_idle_timeout_millis c)
  ++ put (lit "shutdown_grace_timeout_millis") unsigned_codec (Config.shutdown_grace_timeout_millis c)
  ++ put (lit "request_timeout_millis") unsigned_codec (Config.request_timeout_millis c)
  ++ put_some (lit "session_cookie") session_cookie_codec (Config.session_cookie c)
  ++ put_some (lit "websocket") websocket_codec (Config.websocket c).
Definition ingress_take (found : list (option (Value N))) : option Config.WebIngressConfig :=
  match found with
  | [bind_address; body; head; requests; connections; head_timeout; body_timeout; idle_timeout; grace_timeout; request_timeout;
     session_cookie; websocket] =>
      bind_address ← take_default address_codec Config.default_bind_address bind_address;
      body ← take_default unsigned_codec Config.default_max_request_body_bytes body;
      head ← take_default unsigned_codec Config.default_max_request_head_bytes head;
      requests ← take_default unsigned_codec Config.default_max_concurrent_requests requests;
      connections ← take_default unsigned_codec Config.default_max_connections connections;
      head_timeout ← take_default unsigned_codec Config.default_request_head_timeout_millis head_timeout;
      body_timeout ← take_default unsigned_codec Config.default_request_body_timeout_millis body_timeout;
      idle_timeout ← take_default unsigned_codec Config.default_connection_idle_timeout_millis idle_timeout;
      grace_timeout ← take_default unsigned_codec Config.default_shutdown_grace_timeout_millis grace_timeout;
      request_timeout ← take_default unsigned_codec Config.default_request_timeout_millis request_timeout;
      session_cookie ← take_option session_cookie_codec session_cookie;
      websocket ← take_option websocket_codec websocket;
      Some (Config.mkWebIngressConfig bind_address body head requests connections head_timeout body_timeout idle_timeout
              grace_timeout request_timeout session_cookie websocket)
  | _ => None
  end.
Definition ingress_codec : Codec N Config.WebIngressConfig := struct_codec ingress_schema ingress_put ingress_take.

(** ** The egress *)

Definition http_version_name (v : EgressConfig.HttpVersionPolicy) : str :=
  match v with
  | EgressConfig.Auto => lit "auto"
  | EgressConfig.Http1Only => lit "http1_only"
  | EgressConfig.Http2PriorKnowledge => lit "http2_prior_knowledge"
  end.
Definition http_version_codec : Codec N EgressConfig.HttpVersionPolicy :=
  variant_codec http_version_name [EgressConfig.Auto; EgressConfig.Http1Only; EgressConfig.Http2PriorKnowledge].

Definition egress_schema : Schema :=
  strict [must "allowed_origins"; may "http_version"; may "max_request_body_bytes"; may "max_request_head_bytes";
          may "max_response_body_bytes"; may "max_response_head_bytes"; may "max_concurrent_requests";
          may "connect_timeout_millis"; may "request_timeout_millis"].
Definition egress_put (c : EgressConfig.HttpEgressConfig) : list (str * Value N) :=
  put (lit "allowed_origins") (list_codec string_codec) (EgressConfig.allowed_origins c)
  ++ put (lit "http_version") http_version_codec (EgressConfig.http_version c)
  ++ put (lit "max_request_body_bytes") unsigned_codec (EgressConfig.max_request_body_bytes c)
  ++ put (lit "max_request_head_bytes") unsigned_codec (EgressConfig.max_request_head_bytes c)
  ++ put (lit "max_response_body_bytes") unsigned_codec (EgressConfig.max_response_body_bytes c)
  ++ put (lit "max_response_head_bytes") unsigned_codec (EgressConfig.max_response_head_bytes c)
  ++ put (lit "max_concurrent_requests") unsigned_codec (EgressConfig.max_concurrent_requests c)
  ++ put (lit "connect_timeout_millis") unsigned_codec (EgressConfig.connect_timeout_millis c)
  ++ put (lit "request_timeout_millis") unsigned_codec (EgressConfig.request_timeout_millis c).
Definition egress_take (found : list (option (Value N))) : option EgressConfig.HttpEgressConfig :=
  match found with
  | [allowed_origins; http_version; request_body; request_head; response_body; response_head; requests; connect_timeout;
     request_timeout] =>
      allowed_origins ← take (list_codec string_codec) allowed_origins;
      http_version ← take_default http_version_codec EgressConfig.Auto http_version;
      request_body ← take_default unsigned_codec EgressConfig.default_max_request_body_bytes request_body;
      request_head ← take_default unsigned_codec EgressConfig.default_max_request_head_bytes request_head;
      response_body ← take_default unsigned_codec EgressConfig.default_max_response_body_bytes response_body;
      response_head ← take_default unsigned_codec EgressConfig.default_max_response_head_bytes response_head;
      requests ← take_default unsigned_codec EgressConfig.default_max_concurrent_requests requests;
      connect_timeout ← take_default unsigned_codec EgressConfig.default_connect_timeout_millis connect_timeout;
      request_timeout ← take_default unsigned_codec EgressConfig.default_request_timeout_millis request_timeout;
      Some (EgressConfig.mkEgressConfig allowed_origins http_version request_body request_head response_body response_head
              requests connect_timeout request_timeout)
  | _ => None
  end.
Definition egress_codec : Codec N EgressConfig.HttpEgressConfig := struct_codec egress_schema egress_put egress_take.

(** ** The OpenAPI plugin, whose configuration is only read *)

Definition server_schema : Schema := strict [must "url"; may "description"].
Definition server_put (s : OpenApiContract.OpenApiServer) : list (str * Value N) :=
  put (lit "url") string_codec (OpenApiContract.server_url s)
  ++ put_some (lit "description") string_codec (OpenApiContract.server_description s).
Definition server_take (found : list (option (Value N))) : option OpenApiContract.OpenApiServer :=
  match found with
  | [url; description] =>
      u ← take string_codec url; d ← take_option string_codec description; Some (OpenApiContract.mkServer u d)
  | _ => None
  end.
Definition server_codec : Codec N OpenApiContract.OpenApiServer := struct_codec server_schema server_put server_take.

Definition openapi_schema : Schema :=
  strict [may "title"; may "version"; may "description"; may "document_path"; may "servers"; may "components"].
(** A missing field has its value in [OpenApiConfig::default()]. *)
Definition openapi_take (found : list (option (Value N))) : option (OpenApiContract.OpenApiConfig N) :=
  let d : OpenApiContract.OpenApiConfig N := OpenApiContract.default_config in
  match found with
  | [title; version; description; document_path; servers; components] =>
      title ← take_default string_codec (OpenApiContract.title d) title;
      version ← take_default string_codec (OpenApiContract.version d) version;
      description ← take_option string_codec description;
      document_path ← take_default string_codec (OpenApiContract.document_path d) document_path;
      servers ← take_default (list_codec server_codec) (OpenApiContract.servers d) servers;
      components ← take_option map_codec components;
      Some (OpenApiContract.mkOpenApiConfig title version description document_path servers components)
  | _ => None
  end.
Definition read_openapi (v : Value N) : option (OpenApiContract.OpenApiConfig N) :=
  deserialize_struct openapi_schema v ≫= openapi_take.

(** ** What is written is read *)

(** The values of the types of the sources, with an address that its text determines. *)
Definition unsigned (z : Z) : Prop := (0 <= z <= u64_max)%Z.
Definition WebSocketTyped (c : Config.WebSocketConfig) : Prop :=
  unsigned (Config.max_message_bytes c) /\ unsigned (Config.max_session_bytes c).
Record IngressTyped (c : Config.WebIngressConfig) : Prop := {
  typed_address : AddressOk (Config.bind_address c);
  typed_limits : Forall unsigned [Config.max_request_body_bytes c; Config.max_request_head_bytes c; Config.max_concurrent_requests c;
    Config.max_connections c; Config.request_head_timeout_millis c; Config.request_body_timeout_millis c;
    Config.connection_idle_timeout_millis c; Config.shutdown_grace_timeout_millis c; Config.request_timeout_millis c];
  typed_websocket : forall p, Config.websocket c = Some p -> WebSocketTyped p;
}.
Definition EgressTyped (c : EgressConfig.HttpEgressConfig) : Prop :=
  Forall unsigned [EgressConfig.max_request_body_bytes c; EgressConfig.max_request_head_bytes c;
    EgressConfig.max_response_body_bytes c; EgressConfig.max_response_head_bytes c; EgressConfig.max_concurrent_requests c;
    EgressConfig.connect_timeout_millis c; EgressConfig.request_timeout_millis c].

Context `{!SerdeDeriveLaws N} `{!AddressTextLaws}.

Lemma address_written a : AddressOk a -> Written address_codec a.
Proof. intros Ha. split; [|done]. cbn. by apply address_text. Qed.

Lemma session_cookie_written c : Written session_cookie_codec c.
Proof. destruct c. solve_struct session_cookie_put session_cookie_take. Qed.

Lemma websocket_written c : WebSocketTyped c -> Written websocket_codec c.
Proof. destruct c. intros [Hm%unsigned_written Hs%unsigned_written]. cbn in Hm, Hs. solve_struct websocket_put websocket_take. Qed.

Lemma http_version_written v : Written http_version_codec v.
Proof. apply variant_written; [intros [] []; done | destruct v; repeat constructor]. Qed.
#[local] Hint Resolve address_written session_cookie_written websocket_written http_version_written : codec.

Lemma ingress_written c : IngressTyped c -> Written ingress_codec c.
Proof.
  destruct c as [a n1 n2 n3 n4 n5 n6 n7 n8 n9 [sc|] [ws|]]; intros [Ha Hl Hw]; cbn in Ha, Hl, Hw; rewrite !Forall_cons in Hl;
    destruct Hl as (? & ? & ? & ? & ? & ? & ? & ? & ? & _); try specialize (Hw ws eq_refl); solve_struct ingress_put ingress_take.
Qed.

Lemma egress_written c : EgressTyped c -> Written egress_codec c.
Proof.
  destruct c. unfold EgressTyped. rewrite !Forall_cons. cbn. intros (? & ? & ? & ? & ? & ? & ? & _). solve_struct egress_put egress_take.
Qed.

Lemma server_written c : Written server_codec c.
Proof. destruct c as [u [d|]]; solve_struct server_put server_take. Qed.

(** The limits of a valid configuration fit their types. *)
Lemma valid_typed `{HttpCrate} c : Config.Valid c -> AddressOk (Config.bind_address c) ->
  (forall p, Config.websocket c = Some p -> (0 <= Config.max_message_bytes p)%Z) -> IngressTyped c.
Proof.
  intros [[] Hw _] Ha Hp. split; [done| |].
  - unfold Config.MAX_TRANSFER_BYTES, Config.MAX_HEAD_BYTES, Config.MAX_CONCURRENT_REQUESTS, Config.MAX_CONNECTIONS,
      Config.MAX_TIMEOUT_MILLIS, unsigned, u64_max in *. rewrite !Forall_cons. split_and!; lia || constructor.
  - intros p Hs. destruct (Hw p Hs) as [? Hses _ _]. specialize (Hp p Hs).
    unfold WebSocketTyped, unsigned, Config.MAX_TRANSFER_BYTES, u64_max in *. lia.
Qed.

(** The defaults: the empty configuration is the default one, and an egress only has to name its origins. A field that a
    configuration does not have is refused. *)
Lemma configuration_defaults :
  read ingress_codec (Object []) = Some Config.default_config
  /\ read_openapi (Object []) = Some OpenApiContract.default_config
  /\ (forall origins, read egress_codec (Object [(lit "allowed_origins", Array (String <$> origins))])
       = Some (EgressConfig.mkEgressConfig origins EgressConfig.Auto EgressConfig.default_max_request_body_bytes
                 EgressConfig.default_max_request_head_bytes EgressConfig.default_max_response_body_bytes
                 EgressConfig.default_max_response_head_bytes EgressConfig.default_max_concurrent_requests
                 EgressConfig.default_connect_timeout_millis EgressConfig.default_request_timeout_millis))
  /\ (forall m k, MapOk m -> k ∈ m.*1 ->
        (k ∉ keys ingress_schema -> read ingress_codec (Object m) = None)
        /\ (k ∉ keys openapi_schema -> read_openapi (Object m) = None)
        /\ (k ∉ keys egress_schema -> read egress_codec (Object m) = None)).
Proof.
  assert (Hu : forall s m k, MapOk m -> NoDup (keys s) -> deny_unknown_fields s = true -> k ∈ m.*1 -> k ∉ keys s ->
    deserialize_struct s (Object m) = None).
  { intros s m k Hm Hn Hd Hin Hk. rewrite struct_fields, Hd by done. cbn [negb orb].
    destruct (forallb (fun k => bool_decide (k ∈ keys s)) m.*1) eqn:E; [|by rewrite andb_false_r].
    rewrite forallb_forall in E. specialize (E k ltac:(by apply list_elem_of_In)). by bool_prop. }
  assert (He : MapOk (A := Value N) []) by apply SSorted_nil.
  assert (Ho : forall v : Value N, MapOk [(lit "allowed_origins", v)]) by (intros v; apply SSorted_cons; [apply SSorted_nil | constructor]).
  assert (Hn : NoDup (keys ingress_schema) /\ NoDup (keys openapi_schema) /\ NoDup (keys egress_schema)).
  { split_and!; by apply (bool_decide_unpack _); vm_compute. }
  destruct Hn as (Hi & Hop & Heg). split_and!.
  - cbn [read ingress_codec struct_codec]. rewrite struct_fields by done. reflexivity.
  - unfold read_openapi. rewrite struct_fields by done. reflexivity.
  - intros origins. cbn [read egress_codec struct_codec].
    rewrite struct_fields by done.
    assert (Hr : read (list_codec (N := N) string_codec) (Array (String <$> origins)) = Some origins)
      by apply (list_all_written (N := N) string_codec origins string_written).
    remember (Array (String <$> origins)) as v eqn:Ev. clear Ev.
    transitivity (egress_take [Some v; None; None; None; None; None; None; None; None]); [reflexivity|].
    unfold egress_take, take. cbn [mbind option_bind]. by rewrite Hr.
  - intros m k Hm Hk. cbn [read ingress_codec egress_codec struct_codec]. unfold read_openapi.
    split_and!; intros Hn; by rewrite (Hu _ m k).
Qed.
End config_codec.

(** ** The lanes of a replicated host *)

Section lanes.
Context {N : Type} `{Serde N} `{!SerdeDerive N} `{!SerdeDeriveLaws N} `{!JsonText N} `{!JsonTextLaws N} `{AddressText} `{!AddressTextLaws}.
Context `{AppPlan N} `{!AppPlanLaws N} `{HttpCrate} `{!HttpLaws} `{Matchit} {X Observer : Type}.
Context `{!Runtime N (Native.WebIngressFactory (X := X) * option Observer) (Event.EventFactory (X := X) * option Observer)}.
Context (ingress_descriptor : PluginDescriptor).

(** [serde_json::to_value] of a configuration, and [serde_json::from_str] of the text a factory gets; [error] is what it reports
    otherwise. *)
Definition config_to_value (c : Config.WebIngressConfig) : Result str (Value N) := Ok (write ingress_codec c).
Definition config_from_str (error text : str) : Result str Config.WebIngressConfig :=
  ok_or error (parse text ≫= read ingress_codec).

Lemma config_text error c text : IngressTyped c -> print (write ingress_codec c) = Some text -> config_from_str error text = Ok c.
Proof.
  intros (Hr & _ & Hw)%ingress_written Hp. unfold config_from_str. rewrite (parse_print _ _ Hw Hp). cbn [mbind option_bind].
  by rewrite Hr.
Qed.

(** C27: a replicated host's lanes come up behind one listener. The host puts its configuration into the plan once for every lane
    but "main", and binds the shared listener with the same. In whatever order the threads of the lanes build their adapters, each
    takes the slot of its own position in the plan; from the text of the configuration the kernel gives it, the factory in that
    slot (whatever named middleware a builder added) makes an ingress with exactly the host's configuration, which the
    coordinator accepts; and that ingress publishes the address of the shared listener without binding one. Afterwards every
    slot is taken, and a lane that is not in the plan, or is built again, is refused. *)
Theorem replicated_lanes_start debug error h h' config plan os coordinator order text :
  WebHost.replicated_plan ingress_descriptor config_to_value h = Ok (h', config, plan) -> WebHost.UniqueKeys (instances (WebHost.root h)) ->
  IngressTyped config -> print (write ingress_codec config) = Some text -> NoDup (lane_id <$> execution_lanes plan) ->
  Replication.bind config (len (WebHost.lane_indexes plan)) os = Ok coordinator -> order ≡ₚ lane_id <$> execution_lanes plan ->
  (exists initial, WebHost.resolve_replicated_plan ingress_descriptor config_to_value h = Ok initial
     /\ forall lane, lane ∈ lane_id <$> execution_lanes initial -> lane <> lit "main" ->
          WebHost.replica (write ingress_codec config) lane ∈ instances (WebHost.root h'))
  /\ let '(coordinator', results) := WebHost.build_lanes debug h' plan coordinator order in
     Forall2 (fun lane result => exists index, (lane_id <$> execution_lanes plan) !! index = Some lane
       /\ result = WebHost.finish_lane h' lane (Native.mkFactory [] (Some (Z.of_nat index)))
       /\ forall layers : list (Middleware.WebIngressMiddleware X), Middleware.validate layers = Ok () -> exists lifecycle,
            Native.instantiate coordinator' (Native.mkFactory layers (Some (Z.of_nat index))) (config_from_str error text) = Ok lifecycle
            /\ Native.lc_config lifecycle = config
            /\ forall observer bound address, Native.prepare coordinator' lifecycle observer bound address
                 = (lifecycle, Native.mkState (Some (Replication.local_address coordinator)) (Native.route_manifest observer), Ok ()))
       order results
     /\ Forall (fun slot => Replication.allocated slot = true) (Replication.slots coordinator')
     /\ forall lane, exists error, WebHost.build_lane debug h' plan coordinator' lane = (coordinator', Err error).
Proof.
  intros Hr Hu Ht Hp Hnd Hb Ho. split.
  - unfold WebHost.replicated_plan in Hr. destruct (is_empty (WebHost.factory_installers h)); [|done].
    destruct (is_empty (WebHost.middleware h)), (WebHost.diagnostics h); try done. destruct (is_empty (WebHost.extra_adapters h)); [|done].
    cbn [negb orb] in Hr. destruct (WebHost.resolve_replicated_plan _ _ h) as [initial|]; [|done].
    destruct (WebHost.host_config h) as [c|]; [|done]. cbn [config_to_value map_err] in Hr.
    destruct (WebHost.resolve_replicated_plan _ _ (foldl _ _ _)) as [p|]; [|done]. injection Hr as <- -> ->.
    exists initial. split; [done|]. intros lane Hl Hm.
    destruct (WebHost.push_replicas_exact (write ingress_codec config) (execution_lanes initial) h Hu) as (_ & Hin & _).
    apply Hin. left. apply list_elem_of_fmap_2. by apply list_elem_of_filter.
  - pose proof (WebHost.lane_slots_exact debug h' config plan os coordinator order Hnd Hb Ho) as Hs.
    pose proof (WebHost.build_lanes_keep debug h' plan coordinator order) as Hk.
    destruct (WebHost.build_lanes debug h' plan coordinator order) as [coordinator' results]. destruct Hk as [Hc Ha].
    destruct Hs as (Hf & _ & Hal & Hno). split_and!; [|done..]. eapply Forall2_impl; [exact Hf|].
    intros lane result (index & Hi & ->). exists index. split_and!; [done..|]. intros layers Hv.
    exists (Native.mkLifecycle config layers None (Some (Z.of_nat index))). split_and!; [|done|].
    + apply Native.instantiate_ok. cbn. rewrite Hc. unfold Replication.bind in Hb. inv_ok Hb. subst coordinator. cbn.
      split_and!; [by apply config_text | | done..]. apply Config.validate_ok. by destruct (Config.validate config) as [[]|].
    + intros observer bound address. cbn. by rewrite Ha.
Qed.
End lanes.

(** ** A reference instance *)

#[local] Existing Instance ref_http.
#[local] Existing Instance ref_http_laws.
#[local] Existing Instance Routing.ref_matchit.
#[local] Existing Instance WebHost.ref_plan.
#[local] Existing Instance WebHost.ref_plan_laws.
#[local] Existing Instance WebHost.ref_runtime.
Import RefDerive.

Definition address_parts (a : Config.SocketAddr) : list Z * Z * option (Z * Z) :=
  match a with
  | Config.V4 octets port => (octets, port, None)
  | Config.V6 segments port flowinfo scope_id => (segments, port, Some (flowinfo, scope_id))
  end.
Definition parts_address (p : list Z * Z * option (Z * Z)) : Config.SocketAddr :=
  match p.2 with
  | None => Config.V4 p.1.1 p.1.2
  | Some (flowinfo, scope_id) => Config.V6 p.1.1 p.1.2 flowinfo scope_id
  end.
#[local] Instance ref_address : AddressText := {
  address_to_string a := digits (encode (address_parts a)); address_from_str s := parts_address <$> decode (of_digits s) }.
#[local] Instance ref_address_laws : AddressTextLaws.
Proof. split. intros a _. cbn. rewrite of_digits_digits, decode_encode. by destruct a. Qed.

(** Two lanes behind the default configuration. *)
Definition lane_start : Replication.Coordinator :=
  match Replication.bind Config.default_config 2 Replication.bind_ok with
  | Ok st => st
  | Err _ => Replication.mkCoordinator Config.default_config (Config.V4 [] 0) [] None 0 0 0 0 0 0 None false []
  end.

Lemma replicated_lanes_start_witness : Replication.bind Config.default_config 2 Replication.bind_ok = Ok lane_start
  /\ exists h' plan, WebHost.replicated_plan WebHost.ref_ingress config_to_value WebHost.sample_host = Ok (h', Config.default_config, plan)
  /\ WebHost.replica (write ingress_codec Config.default_config) (lit "blue") ∈ instances (WebHost.root h')
  /\ length (WebHost.build_lanes (fun _ => []) h' plan lane_start [lit "main"; lit "blue"]).2 = 2.
Proof.
  split; [reflexivity|].
  assert (Hr : exists h', WebHost.replicated_plan WebHost.ref_ingress config_to_value WebHost.sample_host
    = Ok (h', Config.default_config, [lit "blue"; lit "main"])) by (eexists; reflexivity).
  destruct Hr as [h' Hr]. exists h', [lit "blue"; lit "main"]. split; [exact Hr|].
  pose proof (replicated_lanes_start WebHost.ref_ingress (fun _ => []) [] WebHost.sample_host h' Config.default_config
    [lit "blue"; lit "main"] Replication.bind_ok lane_start [lit "main"; lit "blue"] (ref_print (write ingress_codec Config.default_config)) Hr) as Hx.
  specialize (Hx ltac:(apply NoDup_singleton)).
  assert (Ht : IngressTyped Config.default_config).
  { split; [by repeat constructor | | done]. cbn. repeat constructor; done. }
  specialize (Hx Ht eq_refl ltac:(apply (bool_decide_unpack _); reflexivity) eq_refl ltac:(apply perm_swap)).
  destruct Hx as [(initial & Hi & Hin) Hx]. split.
  - apply Hin; [injection Hi as <-; left | done].
  - destruct (WebHost.build_lanes _ _ _ _ _) as [coordinator results]. destruct Hx as [Hf _]. by apply Forall2_length in Hf.
Defined.
End ConfigCodec.
