(* ===== verification/Egress.v ===== *)
(** * The Egress plugin's transports ([lenso-http-egress-plugin/src/provider.rs], [native.rs], [event.rs])

    The same client capability over [reqwest] and over a transport the event host injects. Both transports are
    arguments: they act on an outside state and answer, or have not answered yet. A response of [reqwest] is what its
    [chunk] calls return, one after another. *)
From S2P Require Import Prelude RustStd HttpCrate RefHttp Kernel Config EgressConfig EgressPolicy CapabilityContract.

Module Egress.
Import EgressConfig EgressPolicy.

Definition CAPABILITY_ID : str := CapabilityId.HTTP_CLIENT.
Definition SEND_OPERATION : str := lit "send".
Definition PACKAGE_VERSION : str := lit "0.3.5".
Definition user_agent_text : str := lit "lenso-http-egress-plugin/" ++ PACKAGE_VERSION.

(** What the plugin asks of a [reqwest::Error]. *)
Record ReqwestError := mkReqwestError { is_timeout : bool }.

Definition classify_transport_error (error : ReqwestError) : ClientInvocationError :=
  Domain (if is_timeout error then Timeout else TransportFailure).

(** ** Response bodies *)

(** The [while] loop of [read_bounded_body]. *)
Fixpoint read_chunks (body : str) (events : list (Result ReqwestError (option str))) (limit : Z) :
    Outcome (Result ClientInvocationError str) :=
  match events with
  | [] => Waiting
  | Err error :: _ => Returned (Err (classify_transport_error error))
  | Ok None :: _ => Returned (Ok body)
  | Ok (Some chunk) :: events =>
      if (limit <? saturating_add (len body) (len chunk))%Z then Returned (Err response_too_large)
      else read_chunks (body ++ chunk) events limit
  end.

Definition read_bounded_body (events : list (Result ReqwestError (option str))) (limit : Z) :
    Outcome (Result ClientInvocationError str) :=
  match events with
  | [] => Waiting
  | Err error :: _ => Returned (Err (classify_transport_error error))
  | Ok None :: _ => Returned (Ok [])
  | Ok (Some first) :: events =>
      if (limit <? len first)%Z then Returned (Err response_too_large) else
      match events with
      | [] => Waiting
      | Err error :: _ => Returned (Err (classify_transport_error error))
      | Ok None :: _ => Returned (Ok first)
      | Ok (Some second) :: events =>
          let total := saturating_add (len first) (len second) in
          if (limit <? total)%Z then Returned (Err response_too_large)
          else read_chunks (first ++ second) events limit
      end
  end.

(** [length.is_some_and(|length| length > limit)]. *)
Definition exceeds (limit : Z) (length : option Z) : bool :=
  match length with Some length => (limit <? length)%Z | None => false end.

(** How a call races the cancellation of its caller: not at all, before the operation is first polled, or before the
    operation has ended. *)
Inductive Race := NotCancelled | CancelledAtOnce | CancelledLater.

(** The end of [send] on either transport: [select] polls the cancellation first. *)
Definition settle (request_id : Z) (cancelled : bool) (operation : Outcome (Result ClientInvocationError SendResponse)) :
    Outcome (Result RuntimeFailure (Result SendError SendResponse)) :=
  if cancelled then Returned (Err (Cancelled request_id)) else
  let^ result := operation in
  Returned match result with
  | Ok response => Ok (Ok response)
  | Err (Domain error) => Ok (Err error)
  | Err (Runtime error) => Err error
  end.

(** The start of [send] on either transport: a permit, or the failure the caller gets. *)
Definition acquire (request_id : Z) (cancelled : bool) (permits : Z) : Z * Result RuntimeFailure unit :=
  if cancelled then (permits, Err (Cancelled request_id)) else
  if (0 <? permits)%Z then (permits - 1, Ok ())%Z
  else (permits, Err (ResourceExhausted CAPABILITY_ID SEND_OPERATION)).

Section egress.
Context `{HttpCrate} `{UrlCrate} {X Client : Type}.

(** ** The socket transport *)

Record Reply := mkReply {
  reply_status : Z; reply_headers : HeaderMap; reply_content_length : option Z;
  reply_chunks : list (Result ReqwestError (option str)) }.

(** What [client.request(..).headers(..).body(..).send().await] does. *)
Variable transport : Client -> PreparedRequest -> X -> X * Outcome (Result ReqwestError Reply).

Record HttpEgressProvider := mkProvider {
  client : Client; provider_config : HttpEgressConfig; provider_origins : list str; permits : Z }.

Definition new_provider (client : Client) (config : HttpEgressConfig) (origins : list str) : HttpEgressProvider :=
  mkProvider client config origins (max_concurrent_requests config).

Definition set_permits (permits : Z) (self : HttpEgressProvider) : HttpEgressProvider :=
  mkProvider (client self) (provider_config self) (provider_origins self) permits.

Definition read_response (self : HttpEgressProvider) (response : Reply) : Outcome (Result ClientInvocationError SendResponse) :=
  match response_headers (reply_headers response) (max_response_head_bytes (provider_config self)) with
  | Err e => Returned (Err e)
  | Ok headers =>
      if exceeds (max_response_body_bytes (provider_config self)) (reply_content_length response)
      then Returned (Err (Domain ResponseTooLarge)) else
      let^ body := read_bounded_body (reply_chunks response) (max_response_body_bytes (provider_config self)) in
      Returned (let? body := body in Ok (mkSendResponse body headers (reply_status response)))
  end.

Definition execute (self : HttpEgressProvider) (request : SendRequest) (x : X) :
    X * Outcome (Result ClientInvocationError SendResponse) :=
  match prepare_request (provider_config self) (provider_origins self) request with
  | Panicked => (x, Panicked)
  | Waiting => (x, Waiting)
  | Returned (Err e) => (x, Returned (Err e))
  | Returned (Ok prepared) =>
      match transport (client self) prepared x with
      | (x, Returned (Ok response)) => (x, read_response self response)
      | (x, Returned (Err error)) => (x, Returned (Err (classify_transport_error error)))
      | (x, Panicked) => (x, Panicked)
      | (x, Waiting) => (x, Waiting)
      end
  end.

(** One whole call of [send]; a permit taken is back when it returns, whichever way. *)
Definition send (self : HttpEgressProvider) (request_id : Z) (cancelled : bool) (race : Race) (request : SendRequest) (x : X) :
    HttpEgressProvider * X * Outcome (Result RuntimeFailure (Result SendError SendResponse)) :=
  match acquire request_id cancelled (permits self) with
  | (_, Err failure) => (self, x, Returned (Err failure))
  | (available, Ok _) =>
      let '(x, operation) := match race with CancelledAtOnce => (x, Waiting) | _ => execute self request x end in
      match settle request_id match race with NotCancelled => false | _ => true end operation with
      | Returned result => (set_permits (available + 1) self, x, Returned result)
      | Panicked => (set_permits (available + 1) self, x, Panicked)
      | Waiting => (set_permits available self, x, Waiting)
      end
  end.

(** ** The linked plugin *)

(** What the plugin sets on a [reqwest::ClientBuilder]; everything else keeps its default. *)
Record ClientSettings := mkSettings {
  http1_only : bool; http2_prior_knowledge : bool; follow_redirects : bool; retries : bool; referer : bool; proxy : bool;
  connect_deadline : Config.Duration; total_deadline : Config.Duration; user_agent : str }.

Definition apply_http_version (policy : HttpVersionPolicy) (s : ClientSettings) : ClientSettings :=
  match policy with
  | Auto => s
  | Http1Only => mkSettings true (http2_prior_knowledge s) (follow_redirects s) (retries s) (referer s) (proxy s)
      (connect_deadline s) (total_deadline s) (user_agent s)
  | Http2PriorKnowledge => mkSettings (http1_only s) true (follow_redirects s) (retries s) (referer s) (proxy s)
      (connect_deadline s) (total_deadline s) (user_agent s)
  end.

Definition client_settings (config : HttpEgressConfig) : ClientSettings :=
  apply_http_version (http_version config)
    (mkSettings false false false false false false (connect_timeout config) (request_timeout config) user_agent_text).

(** [build()]: the client, or the text of the error. *)
Variable build : ClientSettings -> Result str Client.

Record HttpEgressPlugin := mkPlugin { plugin_config : HttpEgressConfig; provider : option HttpEgressProvider }.

Definition invalid (detail : str) : RuntimeFailure :=
  InvalidResolvedPlan (lit "HTTP Egress configuration is invalid: " ++ detail).

Definition validate_config (config : HttpEgressConfig) : Result RuntimeFailure unit :=
  map_err invalid (result_map (fun _ => ()) (validate config)).

Definition prepare (self : HttpEgressPlugin) : HttpEgressPlugin * Result RuntimeFailure unit :=
  match map_err invalid (validate (plugin_config self)) with
  | Err e => (self, Err e)
  | Ok origins =>
      match build (client_settings (plugin_config self)) with
      | Err error => (self, Err (PluginFailure (lit "HTTP Egress client could not be prepared: " ++ error)))
      | Ok client => (mkPlugin (plugin_config self) (Some (new_provider client (plugin_config self) origins)), Ok ())
      end
  end.

Definition deactivate (self : HttpEgressPlugin) : HttpEgressPlugin := mkPlugin (plugin_config self) None.

Definition plugin_send (self : HttpEgressPlugin) (request_id : Z) (cancelled : bool) (race : Race) (request : SendRequest)
    (x : X) : HttpEgressPlugin * X * Outcome (Result RuntimeFailure (Result SendError SendResponse)) :=
  match provider self with
  | Some p =>
      let '(p, x, r) := send p request_id cancelled race request x in
      (mkPlugin (plugin_config self) (Some p), x, r)
  | None => (self, x, Returned (Err (PluginFailure (lit "HTTP Egress is not prepared"))))
  end.

(** ** The event transport *)

Inductive HttpEventError := EventTimeout | EventResponseTooLarge | EventTransportFailure.
Definition send_error (value : HttpEventError) : SendError :=
  match value with
  | EventTimeout => Timeout
  | EventResponseTooLarge => ResponseTooLarge
  | EventTransportFailure => TransportFailure
  end.

Record HttpEventLimits := mkLimits {
  limit_response_body : Z; limit_response_head : Z; limit_timeout : Config.Duration }.
Record HttpEventRequest := mkEventRequest {
  event_method : Method; event_uri : Uri; event_headers : HeaderMap; event_body : str; limits : HttpEventLimits }.
Record EventReply := mkEventReply { event_reply_status : Z; event_reply_headers : HeaderMap; event_reply_body : str }.

(** [HttpEventTransport::send]. *)
Variable event_transport : HttpEventRequest -> X -> X * Outcome (Result HttpEventError EventReply).

Record EventProvider := mkEventProvider {
  event_config : HttpEgressConfig; event_origins : list str; event_permits_left : Z }.
Record HttpEgressEventFactory := mkEventFactory { instantiated : bool }.

Definition USER_AGENT : HeaderName := hn_from_static (lit "user-agent").

(** [instantiate]: [parsed] is what [serde_json] makes of the configuration. *)
Definition instantiate (self : HttpEgressEventFactory) (parsed : Result str HttpEgressConfig) :
    HttpEgressEventFactory * Result RuntimeFailure EventProvider :=
  let checked :=
    let? config := map_err invalid parsed in
    let? origins := map_err invalid (validate config) in
    if negb (bool_decide (http_version config = Auto))
    then Err (invalid (lit "event Fetch cannot force an HTTP protocol version")) else
    if negb (bool_decide (connect_timeout config = request_timeout config))
    then Err (invalid (lit "event Fetch requires equal connect and total request timeouts")) else
    Ok (config, origins) in
  match checked with
  | Err e => (self, Err e)
  | Ok (config, origins) =>
      if instantiated self
      then (mkEventFactory true, Err (invalid (lit "create a fresh HTTP Egress event factory for each App")))
      else (mkEventFactory true, Ok (mkEventProvider config origins (max_concurrent_requests config)))
  end.

(** [response.headers().get(CONTENT_LENGTH).and_then(|value| value.to_str().ok()?.parse::<usize>().ok())]. *)
Definition declared_length (hs : HeaderMap) : option Z :=
  let! value := hm_get CONTENT_LENGTH hs else None in
  let! value := hv_to_str value else None in
  parse_unsigned usize_max value.

Definition event_too_large (is_head : bool) (limit : Z) (response : EventReply) : bool :=
  (limit <? len (event_reply_body response))%Z
  || (negb is_head
      && negb ((event_reply_status response =? 204)%Z || (event_reply_status response =? 304)%Z)
      && exceeds limit (declared_length (event_reply_headers response))).

(** [entry(USER_AGENT).or_insert_with(..)]: [entry] wants room even for a field that is there, and an unusable value would
    panic. *)
Definition with_user_agent (hs : HeaderMap) : Outcome HeaderMap :=
  if negb (hm_has_room hs) then Panicked else
  if hm_contains_key USER_AGENT hs then Returned hs else
  let^ value := expect (hv_from_str user_agent_text) in
  Returned (hm_insert USER_AGENT value hs).

Definition event_response (self : EventProvider) (is_head : bool) (response : EventReply) :
    Result ClientInvocationError SendResponse :=
  if event_too_large is_head (max_response_body_bytes (event_config self)) response
  then Err (Domain ResponseTooLarge) else
  let? headers := response_headers (event_reply_headers response) (max_response_head_bytes (event_config self)) in
  Ok (mkSendResponse (event_reply_body response) headers (event_reply_status response)).

Definition event_execute (self : EventProvider) (request : SendRequest) (x : X) :
    X * Outcome (Result ClientInvocationError SendResponse) :=
  match prepare_request (event_config self) (event_origins self) request with
  | Panicked => (x, Panicked)
  | Waiting => (x, Waiting)
  | Returned (Err e) => (x, Returned (Err e))
  | Returned (Ok prepared) =>
      let is_head := bool_decide (prepared_method prepared = HEAD) in
      match uri_parse (url_as_str (prepared_url prepared)) with
      | None => (x, Returned (Err (Domain InvalidRequest)))
      | Some uri =>
          match with_user_agent (prepared_headers prepared) with
          | Panicked => (x, Panicked)
          | Waiting => (x, Waiting)
          | Returned headers =>
              match event_transport (mkEventRequest (prepared_method prepared) uri headers (prepared_body prepared)
                       (mkLimits (max_response_body_bytes (event_config self)) (max_response_head_bytes (event_config self))
                          (request_timeout (event_config self)))) x with
              | (x, Returned (Ok response)) => (x, Returned (event_response self is_head response))
              | (x, Returned (Err error)) => (x, Returned (Err (Domain (send_error error))))
              | (x, Panicked) => (x, Panicked)
              | (x, Waiting) => (x, Waiting)
              end
          end
      end
  end.


Context `{!HttpLaws}.

(** ** Specification *)

(** The chunks of a body that arrives completely. *)
Definition Delivers (events : list (Result ReqwestError (option str))) (body : str) : Prop :=
  exists chunks rest, events = ((fun chunk => Ok (Some chunk)) <$> chunks) ++ Ok None :: rest /\ body = concat chunks.

Lemma delivers_unique events b b' : Delivers events b' -> Delivers events b -> b = b'.
Proof.
  intros (cs & rest & -> & ->) (cs' & rest' & He & ->). f_equal. revert cs' He.
  induction cs as [|c cs IH]; intros [|c' cs'] He; cbn in He; try done. injection He as -> He. f_equal. by apply IH.
Qed.

Lemma read_chunks_ok acc events limit body : (0 <= limit < usize_max)%Z -> (len acc <= limit)%Z ->
  read_chunks acc events limit = Returned (Ok body) <->
  exists tail, Delivers events tail /\ body = acc ++ tail /\ (len body <= limit)%Z.
Proof.
  intros Hl. revert acc; induction events as [|[[c|]|e] events IH]; intros acc Ha; cbn [read_chunks].
  - split; [done|]. intros (t & (cs & rest & He & _) & _). by destruct cs.
  - unfold saturating_add. destruct (Z.ltb_spec limit (Z.min (len acc + len c) usize_max)) as [Hb|Hb].
    + split; [done|]. intros (t & (cs & rest & He & ->) & -> & Hlen). destruct cs as [|c' cs]; [done|].
      cbn in He. injection He as <- _. cbn in Hlen. rewrite !len_app in Hlen. pose proof (len_nonneg (concat cs)). lia.
    + rewrite IH by (rewrite len_app; lia). split.
      * intros (t & (cs & rest & -> & ->) & -> & Hlen). exists (c ++ concat cs). rewrite app_assoc.
        split; [by exists (c :: cs), rest | done].
      * intros (t & (cs & rest & He & ->) & -> & Hlen). destruct cs as [|c' cs]; [done|].
        cbn in He. injection He as <- ->. exists (concat cs). rewrite <- app_assoc. split; [by exists cs, rest | done].
  - split.
    + intros [= <-]. exists []. rewrite app_nil_r. split; [by exists [], events | done].
    + intros (t & (cs & rest & He & ->) & -> & _). destruct cs as [|c cs]; [|done]. cbn. by rewrite app_nil_r.
  - split; [done|]. intros (t & (cs & rest & He & _) & _). by destruct cs.
Qed.

(** The unrolled first two reads change nothing. *)
Lemma read_bounded_body_unrolled events limit : (0 <= limit < usize_max)%Z ->
  read_bounded_body events limit = read_chunks [] events limit.
Proof.
  intros Hl. assert (Hfirst : forall c : str, (limit <? saturating_add (len (@nil ascii)) (len c))%Z = (limit <? len c)%Z).
  { intros c. unfold saturating_add. change (len (@nil ascii)) with 0%Z. pose proof (len_nonneg c).
    destruct (Z.ltb_spec limit (len c)), (Z.ltb_spec limit (Z.min (0 + len c) usize_max)); lia. }
  destruct events as [|[[c|]|e] events]; cbn; [done| |done|done]. rewrite Hfirst.
  destruct (limit <? len c)%Z; [done|]. by destruct events as [|[[c'|]|e] events].
Qed.

Lemma read_bounded_body_ok events limit body : (0 <= limit < usize_max)%Z ->
  read_bounded_body events limit = Returned (Ok body) <-> Delivers events body /\ (len body <= limit)%Z.
Proof.
  intros Hl. rewrite read_bounded_body_unrolled, read_chunks_ok; [|done|unfold len; cbn; lia|done]. split.
  - intros (t & ? & -> & ?). done.
  - intros [? ?]. by exists body.
Qed.

(** The limits of a valid configuration. *)
Lemma response_limits config origins : validate config = Ok origins ->
  (0 <= max_response_body_bytes config < usize_max)%Z /\ (0 <= max_response_head_bytes config <= usize_max)%Z
  /\ (0 < max_concurrent_requests config)%Z.
Proof.
  intros Hv. apply egress_validate_ok in Hv as [_ []]. unfold MAX_TRANSFER_BYTES, MAX_HEAD_BYTES, usize_max in *. lia.
Qed.

Lemma read_response_ok self origins reply response : validate (provider_config self) = Ok origins ->
  read_response self reply = Returned (Ok response) <->
  exceeds (max_response_body_bytes (provider_config self)) (reply_content_length reply) = false
  /\ FieldsKept (reply_headers reply) (max_response_head_bytes (provider_config self)) (response_fields response)
  /\ Delivers (reply_chunks reply) (response_body response)
  /\ (len (response_body response) <= max_response_body_bytes (provider_config self))%Z
  /\ response_status response = reply_status reply.
Proof.
  intros Hv. destruct (response_limits _ _ Hv) as (Hb & Hh & _). unfold read_response.
  rewrite <- response_headers_exact by done. destruct response as [body fields status]. cbn.
  pose proof (read_bounded_body_ok (reply_chunks reply) (max_response_body_bytes (provider_config self)) body Hb) as Hr.
  destruct (response_headers _ _) as [out|e]; [|naive_solver].
  destruct (exceeds _ _); [naive_solver|]. destruct (read_bounded_body _ _) as [[b|e]| |]; naive_solver.
Qed.

(** C28: outbound requests over sockets are exact. A request succeeds exactly when it is admissible under a valid
    configuration (a short token method other than [CONNECT] and [TRACE], an [http(s)] URL without user info and
    fragment whose origin is a configured one, a body and well-formed, permitted fields that fit), the transport
    answers it, the announced length fits, the answer's fields that are neither forbidden nor listed by [Connection]
    are text and fit, and its body arrives completely within the limit; the caller then gets that status, those fields
    and the whole body. A request that is not admissible never reaches the transport: it is refused, or the call panics, and that only
    because it has more distinct fields, within its head, than a header map can hold. *)
Theorem native_send_exact self origins request x x' response :
  validate (provider_config self) = Ok origins -> provider_origins self = origins ->
  (execute self request x = (x', Returned (Ok response)) <->
   exists prepared reply, Admissible (provider_config self) request prepared
     /\ transport (client self) prepared x = (x', Returned (Ok reply))
     /\ exceeds (max_response_body_bytes (provider_config self)) (reply_content_length reply) = false
     /\ FieldsKept (reply_headers reply) (max_response_head_bytes (provider_config self)) (response_fields response)
     /\ Delivers (reply_chunks reply) (response_body response)
     /\ (len (response_body response) <= max_response_body_bytes (provider_config self))%Z
     /\ response_status response = reply_status reply)
  /\ ((forall prepared, ~ Admissible (provider_config self) request prepared) ->
      (exists e, execute self request x = (x, Returned (Err e)))
      \/ execute self request x = (x, Panicked)
         /\ Overflows (send_headers request) (max_request_head_bytes (provider_config self))).
Proof.
  intros Hv Ho. unfold execute. rewrite Ho. split.
  - split.
    + intros He. destruct (prepare_request _ _ _) as [[p|e]| |] eqn:Ep; try done.
      apply (prepare_request_exact _ _ _ _ Hv) in Ep. exists p.
      destruct (transport (client self) p x) as [x1 [[reply|e]| |]]; try done. injection He as <- He. exists reply.
      apply (read_response_ok _ _ _ _ Hv) in He. done.
    + intros (p & reply & Ha & Ht & Hr). apply (prepare_request_exact _ _ _ _ Hv) in Ha. rewrite Ha, Ht.
      apply (read_response_ok _ _ _ _ Hv) in Hr. by rewrite Hr.
  - intros Hn. destruct (prepare_refused _ _ _ Hv Hn) as [[e ->]|[-> Ho']]; [left; by exists e | by right].
Qed.

Lemma with_user_agent_total hs : hm_has_room hs = true -> exists hs', with_user_agent hs = Returned hs'
  /\ (forall n, n <> USER_AGENT -> hm_get_all n hs' = hm_get_all n hs)
  /\ (if hm_contains_key USER_AGENT hs then hs' = hs
      else hv_as_bytes <$> hm_get_all USER_AGENT hs' = [user_agent_text]).
Proof.
  intros Hroom. unfold with_user_agent. rewrite Hroom. cbn [negb]. destruct (hm_contains_key USER_AGENT hs); [by exists hs|].
  destruct (hv_from_str_ok user_agent_text) as [v Hv]; [reflexivity|]. rewrite Hv. cbn. eexists. split; [done|]. split.
  - intros n Hn. by apply hm_insert_ne.
  - rewrite hm_insert_eq. cbn. by rewrite (hv_from_str_bytes _ _ Hv).
Qed.

(** What the event transport is handed for an admissible request. *)
Record EventRequestIs (config : HttpEgressConfig) (p : PreparedRequest) (r : HttpEventRequest) : Prop := {
  er_head : event_method r = prepared_method p /\ uri_parse (url_as_str (prepared_url p)) = Some (event_uri r)
    /\ event_body r = prepared_body p;
  er_fields : forall n, n <> USER_AGENT -> hm_get_all n (event_headers r) = hm_get_all n (prepared_headers p);
  er_agent : if hm_contains_key USER_AGENT (prepared_headers p) then event_headers r = prepared_headers p
    else hv_as_bytes <$> hm_get_all USER_AGENT (event_headers r) = [user_agent_text];
  er_limits : limits r = mkLimits (max_response_body_bytes config) (max_response_head_bytes config) (request_timeout config);
}.

Lemma event_response_ok self origins is_head reply response : validate (event_config self) = Ok origins ->
  event_response self is_head reply = Ok response <->
  event_too_large is_head (max_response_body_bytes (event_config self)) reply = false
  /\ FieldsKept (event_reply_headers reply) (max_response_head_bytes (event_config self)) (response_fields response)
  /\ response_body response = event_reply_body reply /\ response_status response = event_reply_status reply.
Proof.
  intros Hv. destruct (response_limits _ _ Hv) as (_ & Hh & _). unfold event_response.
  rewrite <- response_headers_exact by done. destruct response as [body fields status]. cbn.
  destruct (event_too_large _ _ _); [naive_solver|]. destruct (response_headers _ _); naive_solver.
Qed.

(** C29: outbound requests over the event host's transport are exact. Under a valid configuration, an admissible request whose URL is a URI is handed
    to the transport once, with its method, body and fields, the default [User-Agent] where the caller names none, and
    the configured limits, and the call ends as the transport does; its answer is returned exactly when its body and
    its announced length fit and its kept fields are text and fit. Any other request never reaches the transport: it is refused, or the
    call panics, and that only because the request has more distinct fields than a header map can hold, or exactly as many, which leaves
    no room for the default one. *)
Theorem event_send_exact self origins request x :
  validate (event_config self) = Ok origins -> event_origins self = origins ->
  (forall p, Admissible (event_config self) request p -> is_Some (uri_parse (url_as_str (prepared_url p))) ->
     hm_has_room (prepared_headers p) = true -> exists r, EventRequestIs (event_config self) p r
       /\ event_execute self request x
          = (let '(x', answer) := event_transport r x in
             (x', let^ answer := answer in
                  Returned match answer with
                  | Ok reply => event_response self (bool_decide (prepared_method p = HEAD)) reply
                  | Err error => Err (Domain (send_error error))
                  end)))
  /\ (forall is_head reply response, event_response self is_head reply = Ok response <->
        event_too_large is_head (max_response_body_bytes (event_config self)) reply = false
        /\ FieldsKept (event_reply_headers reply) (max_response_head_bytes (event_config self)) (response_fields response)
        /\ response_body response = event_reply_body reply /\ response_status response = event_reply_status reply)
  /\ (forall p, Admissible (event_config self) request p -> is_Some (uri_parse (url_as_str (prepared_url p))) ->
        hm_has_room (prepared_headers p) = false -> event_execute self request x = (x, Panicked))
  /\ ((forall p, Admissible (event_config self) request p -> uri_parse (url_as_str (prepared_url p)) = None) ->
      (exists e, event_execute self request x = (x, Returned (Err e)))
      \/ event_execute self request x = (x, Panicked)
         /\ Overflows (send_headers request) (max_request_head_bytes (event_config self))).
Proof.
  intros Hv Ho. unfold event_execute. rewrite Ho. split; [|split; [|split]].
  - intros p Ha [uri Hu] Hroom. pose proof Ha as Ep. apply (prepare_request_exact _ _ _ _ Hv) in Ep. rewrite Ep, Hu.
    destruct (with_user_agent_total (prepared_headers p) Hroom) as (hs & -> & Hf & Hg).
    exists (mkEventRequest (prepared_method p) uri hs (prepared_body p) (mkLimits (max_response_body_bytes (event_config self))
      (max_response_head_bytes (event_config self)) (request_timeout (event_config self)))). split; [by split|].
    destruct (event_transport _ x) as [x' [[reply|e]| |]]; done.
  - intros. by apply (event_response_ok _ origins).
  - intros p Ha [uri Hu] Hroom. apply (prepare_request_exact _ _ _ _ Hv) in Ha. rewrite Ha, Hu. unfold with_user_agent. by rewrite Hroom.
  - intros Hn. destruct (prepare_request (event_config self) origins request) as [[p|e]| |] eqn:Ep; [|left; by eexists|..].
    + apply (prepare_request_exact _ _ _ _ Hv) in Ep. rewrite (Hn _ Ep). left. by eexists.
    + assert (Hna : forall p, ~ Admissible (event_config self) request p) by (intros p Hp; apply (prepare_request_exact _ _ _ _ Hv) in Hp; congruence).
      destruct (prepare_refused _ _ _ Hv Hna) as [[e He]|[_ Hover]]; [congruence | by right].
    + assert (Hna : forall p, ~ Admissible (event_config self) request p) by (intros p Hp; apply (prepare_request_exact _ _ _ _ Hv) in Hp; congruence).
      destruct (prepare_refused _ _ _ Hv Hna) as [[e He]|[He _]]; congruence.
Qed.

(** The two transports treat the same answer alike: with the same limits, an answer whose status, fields and whole
    body agree, and whose announced length is judged alike, is returned by one exactly when by the other, as the same
    response. *)
Lemma response_parity native event origins is_head reply event_reply response :
  validate (provider_config native) = Ok origins -> event_config event = provider_config native ->
  reply_status reply = event_reply_status event_reply -> reply_headers reply = event_reply_headers event_reply ->
  Delivers (reply_chunks reply) (event_reply_body event_reply) ->
  exceeds (max_response_body_bytes (provider_config native)) (reply_content_length reply)
  = (negb is_head && negb ((event_reply_status event_reply =? 204)%Z || (event_reply_status event_reply =? 304)%Z)
     && exceeds (max_response_body_bytes (provider_config native)) (declared_length (event_reply_headers event_reply))) ->
  read_response native reply = Returned (Ok response) <-> event_response event is_head event_reply = Ok response.
Proof.
  intros Hv Hc Hs Hh Hd He. rewrite (read_response_ok _ _ _ _ Hv), (event_response_ok _ origins) by by rewrite Hc.
  unfold event_too_large. rewrite Hc, Hs, Hh, He, orb_false_iff, Z.ltb_ge.
  assert (Hu : forall b, Delivers (reply_chunks reply) b <-> b = event_reply_body event_reply).
  { intros b. split; [|by intros ->]. by apply delivers_unique. }
  rewrite Hu. split.
  - intros (He' & Hk & Hb & Hl & Hst). rewrite Hb in Hl. done.
  - intros ((Hl & He') & Hk & Hb & Hst). rewrite Hb. done.
Qed.

(** ** Concurrency *)





(** ** Life cycle *)

(** The Egress plugin's life cycle. Preparation succeeds exactly when the configuration is valid and the client can
    be built, from settings that follow no redirect, retry nothing, use no proxy, send no referrer and carry both
    deadlines; the prepared instance has all its permits, and a failed preparation changes nothing. A deactivated
    instance refuses every call without acting. The event factory hands out one instance, exactly for a parsed, valid
    configuration with automatic versions and equal deadlines, and a refused configuration does not use it up. *)
Lemma egress_lifecycle self factory parsed p :
  ((prepare self).2 = Ok () <->
     exists origins c, ValidOrigins (plugin_config self) origins /\ LimitsOk (plugin_config self)
       /\ build (client_settings (plugin_config self)) = Ok c
       /\ (prepare self).1 = mkPlugin (plugin_config self)
            (Some (mkProvider c (plugin_config self) origins (max_concurrent_requests (plugin_config self)))))
  /\ ((prepare self).2 <> Ok () -> (prepare self).1 = self)
  /\ (let settings := client_settings (plugin_config self) in
      follow_redirects settings = false /\ retries settings = false /\ referer settings = false /\ proxy settings = false
      /\ connect_deadline settings = connect_timeout (plugin_config self)
      /\ total_deadline settings = request_timeout (plugin_config self)
      /\ (http1_only settings = true <-> http_version (plugin_config self) = Http1Only)
      /\ (http2_prior_knowledge settings = true <-> http_version (plugin_config self) = Http2PriorKnowledge))
  /\ (forall id cancelled race request x, plugin_send (deactivate self) id cancelled race request x
      = (deactivate self, x, Returned (Err (PluginFailure (lit "HTTP Egress is not prepared")))))
  /\ ((instantiate factory parsed).2 = Ok p <->
      parsed = Ok (event_config p) /\ ValidOrigins (event_config p) (event_origins p) /\ LimitsOk (event_config p)
      /\ http_version (event_config p) = Auto /\ connect_timeout (event_config p) = request_timeout (event_config p)
      /\ event_permits_left p = max_concurrent_requests (event_config p) /\ instantiated factory = false)
  /\ (forall e, (instantiate factory parsed).2 = Err e -> instantiated factory = false -> (instantiate factory parsed).1 = factory)
  /\ ((instantiate factory parsed).2 = Ok p -> forall parsed' p', (instantiate (instantiate factory parsed).1 parsed').2 <> Ok p').
Proof.
  split; [|split; [|split; [|split; [|split; [|split]]]]].
  - unfold prepare. destruct (validate (plugin_config self)) as [o|e] eqn:Ev; cbn.
    + destruct (build _) as [c|e]; cbn; [|naive_solver]. split; [|done]. intros _. exists o, c. apply egress_validate_ok in Ev as [? ?]. done.
    + split; [done|]. intros (o & c & Ho & Hl & _). assert (validate (plugin_config self) = Ok o) by by apply egress_validate_ok. congruence.
  - unfold prepare. destruct (validate _) as [o|e]; cbn; [|done]. by destruct (build _).
  - cbv zeta. unfold client_settings, apply_http_version. by destruct (http_version (plugin_config self)).
  - done.
  - unfold instantiate. destruct parsed as [c|e]; cbn; [|naive_solver]. destruct (validate c) as [o|e] eqn:Ev; cbn.
    + destruct p as [c' o' n]. cbn. do 2 (case_bool_decide; cbn; [|naive_solver]). apply egress_validate_ok in Ev as [Ho Hl].
      destruct (instantiated factory); cbn; [naive_solver|]. split; [intros [= <- <- <-]; done|].
      intros ([= <-] & Ho' & _ & _ & _ & -> & _). do 2 f_equal. by eapply valid_origins_unique.
    + split; [done|]. intros ([= ->] & Ho & Hl & _). assert (validate (event_config p) = Ok (event_origins p)) by by apply egress_validate_ok.
      congruence.
  - unfold instantiate. intros e. destruct (match map_err _ parsed with Ok _ => _ | Err _ => _ end) as [[c o]|]; [|done].
    by destruct (instantiated factory).
  - unfold instantiate at 1 3. intros Hi parsed' p'. destruct (match map_err _ parsed with Ok _ => _ | Err _ => _ end) as [[c o]|]; [|done].
    destruct (instantiated factory); [done|]. cbn [fst]. unfold instantiate. cbn [instantiated].
    by destruct (match map_err _ parsed' with Ok _ => _ | Err _ => _ end) as [[c' o']|].
Qed.

End egress.
(** ** Witnesses *)

#[local] Existing Instance ref_http.
#[local] Existing Instance ref_http_laws.
#[local] Existing Instance ref_url.

Definition sample_reply : Reply :=
  mkReply 201 (ref_headers [("etag", "7")%string; ("connection", "close")%string]) (Some 4)%Z
    [Ok (Some (lit "do")); Ok (Some (lit "n")); Ok (Some (lit "e")); Ok None].
Definition sample_transport (_ : unit) (_ : PreparedRequest) (sent : nat) : nat * Outcome (Result ReqwestError Reply) :=
  (S sent, Returned (Ok sample_reply)).
Definition sample_provider : HttpEgressProvider (Client := unit) :=
  new_provider () sample_egress_config [lit "https://api.example"].
Definition sample_response : SendResponse := mkSendResponse (lit "done") [(lit "etag", lit "7")] 201.

Definition sample_event_provider : EventProvider := mkEventProvider sample_egress_config [lit "https://api.example"] 2.
Definition sample_event_reply : EventReply :=
  mkEventReply 201 (ref_headers [("etag", "7")%string; ("connection", "close")%string]) (lit "done").
Definition sample_event_transport (_ : HttpEventRequest) (sent : nat) : nat * Outcome (Result HttpEventError EventReply) :=
  (S sent, Returned (Ok sample_event_reply)).

Lemma native_send_exact_witness :
  exists prepared reply, Admissible sample_egress_config sample_send prepared
    /\ sample_transport () prepared 0 = (1, Returned (Ok reply))
    /\ exceeds 64 (reply_content_length reply) = false
    /\ FieldsKept (reply_headers reply) 128 [(lit "etag", lit "7")]
    /\ Delivers (reply_chunks reply) (lit "done")
    /\ (len (lit "done") <= 64)%Z
    /\ 201%Z = reply_status reply.
Proof.
  apply (native_send_exact sample_transport sample_provider [lit "https://api.example"] sample_send 0 1 sample_response);
    reflexivity.
Defined.

Lemma event_send_exact_witness :
  exists r, EventRequestIs sample_egress_config sample_prepared r
    /\ event_execute sample_event_transport sample_event_provider sample_send 0 = (1, Returned (Ok sample_response)).
Proof.
  destruct (event_send_exact sample_event_transport sample_event_provider [lit "https://api.example"] sample_send 0)
    as [Hs _]; [reflexivity | reflexivity |].
  destruct (Hs sample_prepared) as (r & Hr & _).
  - apply (prepare_request_exact sample_egress_config [lit "https://api.example"]); reflexivity.
  - by eexists.
  - reflexivity.
  - exists r. split; [exact Hr | reflexivity].
Defined.


End Egress.
