(* ===== verification/Workers.v ===== *)
(** * The Workers transport ([lenso-http-egress-plugin/src/workers.rs])

    The event transport over a JavaScript function: a request becomes an object, the function answers with a promise and a
    function that aborts it, the settled value becomes a response. Values of JavaScript are those of [js_sys], an interface
    ([Js]); reading a property of a value is taken to have no effect of its own. *)
From S2P Require Import Prelude RustStd HttpCrate RefHttp Kernel Config EgressConfig EgressPolicy Egress.

Class Js := {
  JsValue : Type;
  F64 : Type;
  (** [Reflect::get]; [None] when it throws. *)
  js_get : JsValue -> str -> option JsValue;
  js_string : str -> JsValue;
  js_u32 : Z -> JsValue;
  js_bytes : str -> JsValue;
  js_array : list JsValue -> JsValue;
  (** An object made by setting properties one after another; [None] when a [Reflect::set] throws. *)
  js_object : list (str * JsValue) -> option JsValue;
  js_as_string : JsValue -> option str;
  js_as_f64 : JsValue -> option F64;
  (** [dyn_into] for the classes that are used. *)
  js_as_bytes : JsValue -> option str;
  js_as_array : JsValue -> option (list JsValue);
  js_is_function : JsValue -> bool;
  js_is_promise : JsValue -> bool;
  (** The value of a number that is finite and integral. *)
  f64_integer : F64 -> option Z;
}.

(** What is written into a plain object or array is read back from it. *)
Class JsLaws `{Js} : Prop := {
  js_object_some fields : is_Some (js_object fields);
  js_object_get fields o name v : js_object fields = Some o -> NoDup fields.*1 -> (name, v) ∈ fields -> js_get o name = Some v;
  js_as_string_string s : js_as_string (js_string s) = Some s;
  js_as_bytes_bytes s : js_as_bytes (js_bytes s) = Some s;
  js_as_array_array l : js_as_array (js_array l) = Some l;
}.

Module Workers.
Import EgressConfig EgressPolicy Egress.

Definition u32_max : Z := 4294967295.

Section workers.
Context `{HttpCrate} `{Js} {X : Type}.
(** [Uri]'s [to_string]. *)
Context (uri_to_string : Uri -> str).

Definition field (value : JsValue) (name : string) : Result HttpEventError JsValue := ok_or EventTransportFailure (js_get value (lit name)).

Definition as_u32 (value : Z) : Result HttpEventError JsValue :=
  if in_range 0 u32_max value then Ok (js_u32 value) else Err EventTransportFailure.

Definition encode_header (header : HeaderName * HeaderValue) : Result HttpEventError JsValue :=
  let? value := ok_or EventTransportFailure (hv_to_str header.2) in
  Ok (js_array [js_string (hn_as_str header.1); js_string value]).

Definition encode_request (input : HttpEventRequest) : Result HttpEventError JsValue :=
  let? headers := try_map encode_header (hm_iter (event_headers input)) in
  let? max_body := as_u32 (limit_response_body (limits input)) in
  let? max_head := as_u32 (limit_response_head (limits input)) in
  let? timeout := as_u32 (Config.as_millis (limit_timeout (limits input))) in
  let? limits := ok_or EventTransportFailure (js_object [(lit "max_response_body_bytes", max_body);
    (lit "max_response_head_bytes", max_head); (lit "request_timeout_millis", timeout)]) in
  ok_or EventTransportFailure (js_object [(lit "url", js_string (uri_to_string (event_uri input)));
    (lit "method", js_string (m_as_str (event_method input))); (lit "headers", js_array headers); (lit "body", js_bytes (event_body input));
    (lit "limits", limits)]).

Definition response_status (value : JsValue) : Result HttpEventError Z :=
  let! number := js_as_f64 value else Err EventTransportFailure in
  let! status := f64_integer number else Err EventTransportFailure in
  if in_range 100 599 status then Ok status else Err EventTransportFailure.

(** The body of the loop over the header pairs; [append] panics when the map is full. *)
Definition add_pair (head_limit : Z) (state : Z * HeaderMap) (pair : JsValue) : Outcome (Result HttpEventError (Z * HeaderMap)) :=
  let '(head_bytes, headers) := state in
  let field :=
    let? pair := ok_or EventTransportFailure (js_as_array pair) in
    match pair with
    | [name; value] =>
        let? name := ok_or EventTransportFailure (js_as_string name) in
        let? value := ok_or EventTransportFailure (js_as_string value) in
        let head_bytes := saturating_add (saturating_add (saturating_add head_bytes (len name)) (len value)) 4 in
        if (head_limit <? head_bytes)%Z then Err EventResponseTooLarge else
        let? name := ok_or EventTransportFailure (hn_from_bytes name) in
        let? value := ok_or EventTransportFailure (hv_from_str value) in
        Ok (head_bytes, name, value)
    | _ => Err EventTransportFailure
    end in
  match field with
  | Err error => Returned (Err error)
  | Ok (head_bytes, name, value) =>
      if negb (hm_has_room headers) then Panicked else Returned (Ok (head_bytes, hm_append name value headers))
  end.

Definition decode_response (value : JsValue) (body_limit head_limit : Z) : Outcome (Result HttpEventError EventReply) :=
  let parts :=
    let? status := field value "status" in
    let? status := response_status status in
    let? body := field value "body" in
    let? body := ok_or EventTransportFailure (js_as_bytes body) in
    if (body_limit <? len body)%Z then Err EventResponseTooLarge else
    let? headers := field value "headers" in
    let? headers := ok_or EventTransportFailure (js_as_array headers) in
    if (head_limit / 4 <? len headers)%Z then Err EventResponseTooLarge else
    let? _ := ok_or EventTransportFailure (status_from_u16 status) in
    Ok (status, body, headers) in
  match parts with
  | Err error => Returned (Err error)
  | Ok (status, body, headers) =>
      let^ state := try_panic_fold (add_pair head_limit) (0%Z, hm_new) headers in
      Returned (let? (_, headers) := state in Ok (mkEventReply status headers body))
  end.

Definition rejection (error : JsValue) : HttpEventError :=
  match ok (field error "code") |> js_as_string with
  | Some code =>
      if bool_decide (code = lit "timeout") then EventTimeout else
      if bool_decide (code = lit "response_too_large") then EventResponseTooLarge else EventTransportFailure
  | None => EventTransportFailure
  end.

(** The world of the transport: what JavaScript does to it, and the calls of abort functions, in order. *)
Record JsWorld := mkWorld { js_state : X; aborts : list JsValue }.
Definition set_state (x : X) (w : JsWorld) : JsWorld := mkWorld x (aborts w).

(** [Function::call1] on the transport function: [None] when it throws. A promise is settled, or not yet. *)
Context (call : JsValue -> X -> X * option JsValue) (await : JsValue -> X -> X * Outcome (Result JsValue JsValue)).
(** Calling an abort function, its result ignored. *)
Context (call_abort : JsValue -> X -> X).

(** [AbortOnDrop::drop]. *)
Definition drop_abort (abort : JsValue) (w : JsWorld) : JsWorld := mkWorld (call_abort abort (js_state w)) (aborts w ++ [abort]).

(** [WorkersFetch::send] up to where it waits or returns, with the guard it still holds: [Waiting] with its guard is a future
    that has not been dropped. *)
Definition send (input : HttpEventRequest) (w : JsWorld) : JsWorld * Outcome (Result HttpEventError EventReply) * option JsValue :=
  match encode_request input with
  | Err error => (w, Returned (Err error), None)
  | Ok encoded =>
      match call encoded (js_state w) with
      | (x, None) => (set_state x w, Returned (Err EventTransportFailure), None)
      | (x, Some operation) =>
          let w := set_state x w in
          match (let? abort := field operation "abort" in if js_is_function abort then Ok abort else Err EventTransportFailure) with
          | Err error => (w, Returned (Err error), None)
          | Ok abort =>
              match (let? promise := field operation "promise" in if js_is_promise promise then Ok promise else Err EventTransportFailure) with
              | Err error => (drop_abort abort w, Returned (Err error), None)
              | Ok promise =>
                  match await promise (js_state w) with
                  | (x, Returned settled) =>
                      let outcome :=
                        match map_err rejection settled with
                        | Err error => Returned (Err error)
                        | Ok value => decode_response value (limit_response_body (limits input)) (limit_response_head (limits input))
                        end in
                      (drop_abort abort (set_state x w), outcome, None)
                  | (x, Panicked) => (drop_abort abort (set_state x w), Panicked, None)
                  | (x, Waiting) => (set_state x w, Waiting, Some abort)
                  end
              end
          end
      end
  end.

(** The transport of the event provider, on the calls that are not dropped before they end. *)
Definition transport (input : HttpEventRequest) (w : JsWorld) : JsWorld * Outcome (Result HttpEventError EventReply) :=
  let '(w, outcome, _) := send input w in (w, outcome).

(** Dropping the future of a call, as the provider does when its caller cancels. *)
Definition drop_call (guard : option JsValue) (w : JsWorld) : JsWorld :=
  match guard with Some abort => drop_abort abort w | None => w end.

Context `{!HttpLaws}.

(** ** Decoding *)

(** One header pair: the two texts and what they are as a field. *)
Definition PairIs (pair : JsValue) (f : (str * str) * (HeaderName * HeaderValue)) : Prop :=
  (exists a b, js_as_array pair = Some [a; b] /\ js_as_string a = Some f.1.1 /\ js_as_string b = Some f.1.2)
  /\ hn_from_bytes f.1.1 = Some f.2.1 /\ hv_from_str f.1.2 = Some f.2.2.

(** The size of a head as it is counted. *)
Definition head_size (fs : list (str * str)) : Z := foldr (fun f n => (len f.1 + len f.2 + 4 + n)%Z) 0%Z fs.

Lemma head_size_cons f fs : head_size (f :: fs) = (len f.1 + len f.2 + 4 + head_size fs)%Z.
Proof. done. Qed.

Lemma head_size_nonneg fs : (0 <= head_size fs)%Z.
Proof. unfold head_size. induction fs as [|f fs IH]; cbn [foldr]; [lia|]. pose proof (len_nonneg f.1). pose proof (len_nonneg f.2). lia. Qed.

Lemma add_pair_exact limit n hs pair n' hs' : (0 <= n <= limit)%Z -> (limit < usize_max)%Z ->
  add_pair limit (n, hs) pair = Returned (Ok (n', hs'))
  <-> exists f, PairIs pair f /\ hm_has_room hs = true /\ n' = (n + (len f.1.1 + len f.1.2 + 4))%Z /\ (n' <= limit)%Z /\ hs' = hm_append f.2.1 f.2.2 hs.
Proof.
  intros Hn Hl. unfold add_pair, PairIs. split.
  - intros Ha. destruct (js_as_array pair) as [l|] eqn:El; [|done]. cbn [ok_or] in Ha. destruct l as [|a [|b [|]]]; try done.
    destruct (js_as_string a) as [name|] eqn:Ea; [|done]. destruct (js_as_string b) as [value|] eqn:Eb; [|done]. cbn [ok_or] in Ha.
    destruct (Z.ltb_spec limit (saturating_add (saturating_add (saturating_add n (len name)) (len value)) 4)) as [|Hle]; [done|].
    destruct (hn_from_bytes name) as [nm|] eqn:En; [|done]. destruct (hv_from_str value) as [v|] eqn:Ev; [|done]. cbn [ok_or] in Ha.
    destruct (hm_has_room hs); [|done]. injection Ha as <- <-.
    exists ((name, value), (nm, v)). cbn. unfold saturating_add in *. pose proof (len_nonneg name). pose proof (len_nonneg value).
    split_and!; [eauto 10 | done | done | done | lia | lia | done].
  - intros ([[name value] [nm v]] & ((a & b & -> & Ea & Eb) & En & Ev) & Hroom & -> & Hle & ->). cbn in *. rewrite Ea, Eb. cbn [ok_or].
    pose proof (len_nonneg name). pose proof (len_nonneg value).
    assert (Hs : saturating_add (saturating_add (saturating_add n (len name)) (len value)) 4 = (n + (len name + len value + 4))%Z)
      by (unfold saturating_add; lia).
    rewrite Hs. destruct (Z.ltb_spec limit (n + (len name + len value + 4))); [lia|]. rewrite En, Ev. cbn [ok_or]. by rewrite Hroom.
Qed.

Lemma add_pairs_exact limit n hs pairs n' hs' : (0 <= n <= limit)%Z -> (limit < usize_max)%Z ->
  try_panic_fold (add_pair limit) (n, hs) pairs = Returned (Ok (n', hs'))
  <-> exists fs, Forall2 PairIs pairs fs /\ room_for hs fs.*2 = true /\ n' = (n + head_size fs.*1)%Z /\ (n' <= limit)%Z /\ hs' = hm_append_all fs.*2 hs.
Proof.
  intros Hn Hl. revert n hs Hn. induction pairs as [|pair pairs IH]; intros n hs Hn; cbn [try_panic_fold].
  - split; [intros [= -> ->]; exists []; cbn; split_and!; [constructor | done | lia | lia | done]|].
    intros (fs & Hf & _ & -> & _ & ->). inversion Hf; subst. cbn. do 3 f_equal. lia.
  - split.
    + intros He. destruct (add_pair limit (n, hs) pair) as [[[n1 hs1]|e]| |] eqn:Ea; try done.
      apply add_pair_exact in Ea as (f & Hp & Hroom & -> & Hle & ->); [|done..]. pose proof (len_nonneg f.1.1). pose proof (len_nonneg f.1.2).
      apply IH in He as (fs & Hf & Hrooms & -> & Hle' & ->); [|lia]. exists (f :: fs). rewrite !fmap_cons, head_size_cons.
      split_and!; [by constructor | cbn [room_for]; by rewrite Hroom | lia | lia | done].
    + intros (fs & Hf & Hrooms & -> & Hle & ->). inversion Hf as [|? f ? fs' Hp Hfs]; subst.
      rewrite !fmap_cons, head_size_cons in *. cbn [room_for] in Hrooms. apply andb_prop in Hrooms as [Hroom Hrooms].
      pose proof (head_size_nonneg fs'.*1). pose proof (len_nonneg f.1.1). pose proof (len_nonneg f.1.2).
      rewrite (proj2 (add_pair_exact limit n hs pair (n + (len f.1.1 + len f.1.2 + 4)) (hm_append f.2.1 f.2.2 hs) Hn Hl)); [|exists f; split_and!; [done | done | done | lia | done]].
      apply IH; [lia|]. exists fs'. split_and!; [done | done | lia | lia | done].
Qed.

Lemma add_pairs_ready limit state pairs : try_panic_fold (add_pair limit) state pairs <> Waiting.
Proof.
  revert state; induction pairs as [|pair pairs IH]; intros state; cbn [try_panic_fold]; [done|].
  assert (Ha : add_pair limit state pair <> Waiting) by (unfold add_pair; destruct state; by repeat case_match).
  by destruct (add_pair limit state pair) as [[state'|e]| |].
Qed.

Lemma decode_ready value body_limit head_limit : decode_response value body_limit head_limit <> Waiting.
Proof.
  unfold decode_response. destruct (let? _ := field value "status" in _) as [[[status body] headers]|e]; [|done].
  pose proof (add_pairs_ready head_limit (0%Z, hm_new) headers). by destruct (try_panic_fold _ _ headers).
Qed.

(** A settled value is a response exactly when its parts are what the bridge promises and within the limits, and its fields fit
    a header map; the head is counted with four bytes for each field. *)
Lemma decoded_exact value body_limit head_limit reply : (0 <= head_limit < usize_max)%Z ->
  decode_response value body_limit head_limit = Returned (Ok reply) <->
  exists status_value number body_value headers_value pairs fs,
    js_get value (lit "status") = Some status_value /\ js_as_f64 status_value = Some number
    /\ f64_integer number = Some (event_reply_status reply) /\ (100 <= event_reply_status reply <= 599)%Z
    /\ js_get value (lit "body") = Some body_value /\ js_as_bytes body_value = Some (event_reply_body reply)
    /\ (len (event_reply_body reply) <= body_limit)%Z
    /\ js_get value (lit "headers") = Some headers_value /\ js_as_array headers_value = Some pairs /\ Forall2 PairIs pairs fs
    /\ (head_size fs.*1 <= head_limit)%Z /\ room_for hm_new fs.*2 = true /\ event_reply_headers reply = hm_append_all fs.*2 hm_new.
Proof.
  intros Hl. unfold decode_response, field, response_status. split.
  - intros He. destruct (js_get value (lit "status")) as [sv|] eqn:E1; [|done]. cbn [ok_or] in He.
    destruct (js_as_f64 sv) as [number|] eqn:E2; [|done]. destruct (f64_integer number) as [status|] eqn:E3; [|done].
    destruct (in_range 100 599 status) eqn:E4; [|done]. destruct (js_get value (lit "body")) as [bv|] eqn:E5; [|done]. cbn [ok_or] in He.
    destruct (js_as_bytes bv) as [body|] eqn:E6; [|done]. cbn [ok_or] in He. destruct (Z.ltb_spec body_limit (len body)); [done|].
    destruct (js_get value (lit "headers")) as [hv|] eqn:E7; [|done]. cbn [ok_or] in He.
    destruct (js_as_array hv) as [pairs|] eqn:E8; [|done]. cbn [ok_or] in He. destruct (head_limit / 4 <? len pairs)%Z; [done|].
    destruct (status_from_u16 status); [|done]. cbn [ok_or] in He.
    destruct (try_panic_fold _ _ pairs) as [[[n hs]|e]| |] eqn:Ef; try done. injection He as <-.
    apply add_pairs_exact in Ef as (fs & Hf & Hroom & -> & Hle & ->); [|lia..]. apply in_range_spec in E4. cbn.
    exists sv, number, bv, hv, pairs, fs. split_and!; try done; lia.
  - intros (sv & number & bv & hv & pairs & fs & E1 & E2 & E3 & E4 & E5 & E6 & Hb & E7 & E8 & Hf & Hh & Hroom & He).
    rewrite E1. cbn [ok_or]. rewrite E2, E3. rewrite (proj2 (in_range_spec _ _ _) E4), E5. cbn [ok_or]. rewrite E6. cbn [ok_or].
    destruct (Z.ltb_spec body_limit (len (event_reply_body reply))); [lia|]. rewrite E7. cbn [ok_or]. rewrite E8. cbn [ok_or].
    assert (Hp : (4 * len pairs <= head_size fs.*1)%Z).
    { clear -Hf. induction Hf as [|p f pairs fs _ _ IH]; [done|]. rewrite fmap_cons, head_size_cons, len_cons.
      pose proof (len_nonneg f.1.1). pose proof (len_nonneg f.1.2). lia. }
    destruct (Z.ltb_spec (head_limit / 4) (len pairs)).
    { assert (len pairs <= head_limit / 4)%Z by (apply Z.div_le_lower_bound; lia). lia. }
    assert (Hs : status_from_u16 (event_reply_status reply) = Some (event_reply_status reply)) by (apply status_from_u16_spec; lia).
    rewrite Hs. cbn [ok_or].
    rewrite (proj2 (add_pairs_exact head_limit 0 hm_new pairs (0 + head_size fs.*1) (hm_append_all fs.*2 hm_new) ltac:(lia) ltac:(lia))); [|exists fs; split_and!; try done; lia].
    destruct reply as [st hs b]. cbn in *. by subst hs.
Qed.

(** ** Encoding *)

(** A configuration that was validated has limits that fit: a request is refused only for a header value that is no text. *)
Lemma encode_fails_exact `{!JsLaws} `{UrlCrate} input (config : HttpEgressConfig) origins :
  validate config = Ok origins ->
  limits input = mkLimits (max_response_body_bytes config) (max_response_head_bytes config) (request_timeout config) ->
  (exists encoded, encode_request input = Ok encoded)
  <-> Forall (fun header => forallb visible_ascii (hv_as_bytes header.2) = true) (hm_iter (event_headers input)).
Proof.
  intros [_ Hc]%egress_validate_ok Hl. destruct Hc. unfold MAX_TRANSFER_BYTES, MAX_HEAD_BYTES, MAX_TIMEOUT_MILLIS in *. unfold encode_request.
  rewrite Hl. cbn [limit_response_body limit_response_head limit_timeout].
  assert (Hu : forall z, (0 <= z <= u32_max)%Z -> as_u32 z = Ok (js_u32 z)) by (intros z Hz; unfold as_u32; by rewrite (proj2 (in_range_spec _ _ _) Hz)).
  assert (Ht : Config.as_millis (request_timeout config) = request_timeout_millis config).
  { unfold request_timeout, Config.as_millis, Config.from_millis. by rewrite Z.div_mul. }
  rewrite Ht, !Hu by (unfold u32_max; lia).
  destruct (js_object_some [(lit "max_response_body_bytes", js_u32 (max_response_body_bytes config));
    (lit "max_response_head_bytes", js_u32 (max_response_head_bytes config));
    (lit "request_timeout_millis", js_u32 (request_timeout_millis config))]) as [o Ho]. rewrite Ho. cbn [ok_or].
  assert (Hh : forall header, (exists v, encode_header header = Ok v) <-> forallb visible_ascii (hv_as_bytes header.2) = true).
  { intros header. unfold encode_header. rewrite hv_to_str_spec. destruct (forallb _ _); cbn [ok_or]; split; [done | by eexists | by intros [? ?] | done]. }
  split.
  - intros [encoded He]. destruct (try_map encode_header _) as [headers|e] eqn:Em; [|done]. apply try_map_Forall2 in Em. clear -Em Hh.
    induction Em as [|h v hs vs Hv _ IH]; constructor; [apply Hh; by eexists | done].
  - intros Hv. assert (exists headers, try_map encode_header (hm_iter (event_headers input)) = Ok headers) as [headers ->].
    { clear -Hv Hh. induction Hv as [|h hs Hv _ [vs IH]]; [by exists []|]. apply Hh in Hv as [v Hv]. exists (v :: vs). cbn. by rewrite Hv, IH. }
    destruct (js_object_some [(lit "url", js_string (uri_to_string (event_uri input))); (lit "method", js_string (m_as_str (event_method input)));
      (lit "headers", js_array headers); (lit "body", js_bytes (event_body input)); (lit "limits", o)]) as [o' ->]. by eexists.
Qed.

(** What the bridge is given. *)
Lemma encoded_exact `{!JsLaws} input encoded : encode_request input = Ok encoded ->
  js_get encoded (lit "url") = Some (js_string (uri_to_string (event_uri input)))
  /\ js_get encoded (lit "method") = Some (js_string (m_as_str (event_method input)))
  /\ js_get encoded (lit "body") = Some (js_bytes (event_body input))
  /\ exists headers limit_values, js_get encoded (lit "headers") = Some (js_array headers)
       /\ Forall2 (fun header pair => exists value, hv_to_str header.2 = Some value
                     /\ pair = js_array [js_string (hn_as_str header.1); js_string value]) (hm_iter (event_headers input)) headers
       /\ js_get encoded (lit "limits") = Some limit_values
       /\ js_get limit_values (lit "max_response_body_bytes") = Some (js_u32 (limit_response_body (limits input)))
       /\ js_get limit_values (lit "max_response_head_bytes") = Some (js_u32 (limit_response_head (limits input)))
       /\ js_get limit_values (lit "request_timeout_millis") = Some (js_u32 (Config.as_millis (limit_timeout (limits input)))).
Proof.
  unfold encode_request, as_u32. intros He. destruct (try_map encode_header _) as [headers|e] eqn:Em; [|done]. apply try_map_Forall2 in Em.
  repeat match type of He with (let? _ := (if ?b then _ else _) in _) = _ => destruct b; [|done] end.
  match type of He with (let? _ := ok_or _ ?o in _) = _ => destruct o as [ls|] eqn:El; [|done] end. cbn [ok_or] in He.
  match type of He with ok_or _ ?o = _ => destruct o as [o'|] eqn:Eo; [|done] end. injection He as <-.
  assert (Hd1 : NoDup [lit "url"; lit "method"; lit "headers"; lit "body"; lit "limits"]) by (refine (bool_decide_eq_true_1 _ _); reflexivity).
  assert (Hd2 : NoDup [lit "max_response_body_bytes"; lit "max_response_head_bytes"; lit "request_timeout_millis"]) by (refine (bool_decide_eq_true_1 _ _); reflexivity).
  split_and!; [eapply js_object_get; [exact Eo | exact Hd1 | set_solver]..|]. exists headers, ls.
  split_and!; [eapply js_object_get; [exact Eo | exact Hd1 | set_solver] | | eapply js_object_get; [exact Eo | exact Hd1 | set_solver]
    | eapply js_object_get; [exact El | exact Hd2 | set_solver]..].
  eapply Forall2_impl; [exact Em|]. intros header pair Hp. unfold encode_header in Hp. destruct (hv_to_str header.2) as [v|]; [|done].
  exists v. split; [done|]. by injection Hp as <-.
Qed.

(** ** Calls *)

(** The abort function a call obtains. *)
Definition abort_of (input : HttpEventRequest) (w : JsWorld) : option JsValue :=
  match encode_request input with
  | Ok encoded => match (call encoded (js_state w)).2 with
                  | Some operation => let! abort := js_get operation (lit "abort") else None in if js_is_function abort then Some abort else None
                  | None => None
                  end
  | Err _ => None
  end.

(** Every operation that was started is aborted exactly once, by the time its call has ended or has been dropped: no timer and no
    fetch outlives the call. A call is pending exactly while it holds its guard; and a response it gives is within the limits of
    its request. *)
Lemma workers_send_exact input w : (0 <= limit_response_head (limits input) < usize_max)%Z ->
  let '(w', outcome, guard) := send input w in
  aborts (drop_call guard w') = aborts w ++ option_list (abort_of input w)
  /\ (is_Some guard <-> outcome = Waiting)
  /\ forall reply, outcome = Returned (Ok reply) ->
       (100 <= event_reply_status reply <= 599)%Z /\ (len (event_reply_body reply) <= limit_response_body (limits input))%Z
       /\ exists fs, (head_size fs.*1 <= limit_response_head (limits input))%Z /\ event_reply_headers reply = hm_append_all fs.*2 hm_new.
Proof.
  intros Hl. unfold send, abort_of, field. destruct (encode_request input) as [encoded|e]; [|cbn; split_and!; [by rewrite app_nil_r | by split; [intros []|] | done]].
  destruct (call encoded (js_state w)) as [x [operation|]]; cbn [snd]; [|cbn; split_and!; [by rewrite app_nil_r | by split; [intros []|] | done]].
  destruct (js_get operation (lit "abort")) as [abort|]; cbn [ok_or]; [|cbn; split_and!; [by rewrite app_nil_r | by split; [intros []|] | done]].
  destruct (js_is_function abort); [|cbn; split_and!; [by rewrite app_nil_r | by split; [intros []|] | done]].
  destruct (js_get operation (lit "promise")) as [promise|]; cbn [ok_or]; [|cbn; split_and!; [done | by split; [intros []|] | done]].
  destruct (js_is_promise promise); [|cbn; split_and!; [done | by split; [intros []|] | done]].
  destruct (await promise (js_state (set_state x w))) as [x' [settled| |]]; cbn; split_and!; try done; try by split; [intros []|].
  { split; [by intros []|]. destruct settled as [value|error]; [|done]. intros Hw. by apply decode_ready in Hw. }
  intros reply Hr. destruct settled as [value|error]; [|done]. cbn [map_err] in Hr.
  apply decoded_exact in Hr as (? & ? & ? & ? & ? & fs & _ & _ & _ & Hs & _ & _ & Hb & _ & _ & _ & Hh & _ & He); [|done].
  split_and!; [lia | lia | done |]. by exists fs.
Qed.
End workers.
(** ** A reference instance: plain data *)

Inductive RefValue :=
| RefUndefined | RefString (s : str) | RefNumber (n : Z) | RefBytes (s : str) | RefArray (l : list RefValue)
| RefObject (fields : list (str * RefValue)) | RefFunction (id : Z) | RefPromise (id : Z).

Definition ref_get (value : RefValue) (name : str) : option RefValue :=
  match value with
  | RefObject fields => Some (default RefUndefined (snd <$> find (fun f => bool_decide (f.1 = name)) fields))
  | RefUndefined | RefString _ | RefNumber _ => None
  | _ => Some RefUndefined
  end.

#[local] Instance ref_js : Js := {
  JsValue := RefValue; F64 := Z; js_get := ref_get;
  js_string := RefString; js_u32 := RefNumber; js_bytes := RefBytes; js_array := RefArray;
  js_object fields := Some (RefObject fields);
  js_as_string v := match v with RefString s => Some s | _ => None end;
  js_as_f64 v := match v with RefNumber n => Some n | _ => None end;
  js_as_bytes v := match v with RefBytes s => Some s | _ => None end;
  js_as_array v := match v with RefArray l => Some l | _ => None end;
  js_is_function v := match v with RefFunction _ => true | _ => false end;
  js_is_promise v := match v with RefPromise _ => true | _ => false end;
  f64_integer := Some;
}.

#[local] Instance ref_js_laws : JsLaws.
Proof.
  split; [intros fields; by eexists | | done..].
  - intros fields o name v [= <-] Hn Hin. cbn. f_equal. induction fields as [|f fields IH]; [by apply elem_of_nil in Hin|].
    rewrite fmap_cons in Hn. apply NoDup_cons in Hn as [Hf Hn]. cbn [find]. apply elem_of_cons in Hin as [<-|Hin]; [by rewrite bool_decide_true|].
    rewrite bool_decide_false; [by apply IH|]. intros <-. apply Hf. by apply (list_elem_of_fmap_2 fst _ (f.1, v)).
Qed.

#[local] Existing Instance ref_http.

(** A bridge whose fetch is rejected with a timeout: the call reports it, and the operation is aborted. *)
Example rejected_with_a_timeout : forall uri : Uri,
  send (H0 := ref_js) (X := unit) (fun _ => lit "https://api.example.test/")
    (fun _ x => (x, Some (RefObject [(lit "abort", RefFunction 1); (lit "promise", RefPromise 2)])))
    (fun _ x => (x, Returned (Err (RefObject [(lit "code", RefString (lit "timeout"))]))))
    (fun _ x => x)
    (mkEventRequest GET uri hm_new [] (mkLimits 10 10 (Config.from_millis 5)))
    (mkWorld tt [])
  = (mkWorld tt [RefFunction 1], Returned (Err EventTimeout), None).
Proof. reflexivity. Qed.
End Workers.
